(* ===== verification/_CoqProject ===== *)
-Q . S2P
Prelude.v
Committee.v
Block.v
Dag.v
StakeAggregator.v
ThresholdClock.v
Commit.v
BlockVerifier.v
Store.v
TypedStore.v
RocksStore.v
RocksFacts.v
DagState.v
DagStateFacts.v
Recovery.v
BlockManager.v
BlockManagerFacts.v
RejectedBlocks.v
DagReader.v
BaseCommitter.v
Votes.v
Decisions.v
UniversalCommitter.v
Pipeline.v
Agreement.v
Sequence.v
Linearizer.v
Linearization.v
TotalOrder.v
TransactionConsumer.v
LeaderScoring.v
LeaderScoringFacts.v
LeaderSchedule.v
LeaderScheduleFacts.v
Slots.v
Periods.v
History.v
CommitObserver.v
CacheFacts.v
Core.v
CoreInvariant.v
CoreCommit.v
CoreRun.v
AuthorityNode.v
NetworkRun.v
CoreThread.v
LeaderTimeout.v
Subscriber.v
CommitVotes.v
CommitSyncer.v
CommitSyncerFacts.v
AuthorityService.v
AuthorityServiceFacts.v
Broadcaster.v
Synchronizer.v
SynchronizerFacts.v
ServiceNetwork.v
Fixtures.v
Counterexamples.v
Checks.v
Witnesses.v
ScheduleWitnesses.v
Network.v
CoreWitnesses.v
NetworkWitnesses.v
SyncWitnesses.v
RocksWitnesses.v
SyncCounterexamples.v
