(* ===== verification/Prelude.v ===== *)
(** * Mysticeti consensus: a verification library

    This library models the consensus core of the repository, [consensus/core/src] and
    [consensus/config/src] under [src/], and proves that the validators that run it agree.

    ** The program

    Validators exchange signed blocks.  A block names its ancestors, so the blocks of a
    validator form a DAG.  [block_verifier.rs] checks each block; [block_manager.rs] holds
    blocks back until their ancestors are there and hands them to [dag_state.rs], a cache over
    a store; [threshold_clock.rs] tells when a quorum of a round has arrived.  Each round has
    leaders.  [base_committer.rs] decides the slot of one leader from votes and certificates in
    the DAG, [universal_committer.rs] decides all slots in order, and [linearizer.rs] turns each
    committed leader into a commit: the blocks of its history not committed before.
    Commits are stored, and [dag_state.rs] recovers from them after a restart.
    [core.rs] composes these parts and proposes blocks; it runs in a thread of its own, and the
    other tasks send it commands.  [authority_service.rs] takes blocks that peers push and
    serves their requests; [broadcaster.rs] or [subscriber.rs] move new blocks,
    [synchronizer.rs] fetches missing ones, [commit_syncer.rs] fetches commits when the
    validator is behind, and [leader_timeout.rs] bounds the wait for leaders.

    ** The files

    - [Prelude]: the outcome monad ([Ok], [Panic], [OutOfFuel]), [Result], machine integers,
      ordered maps and sets ([BTreeMap], [BTreeSet]), stable sorting, loops with fuel.
    - [Committee]: [committee.rs]; quorum arithmetic.
    - [Block], [Commit]: the data of [block.rs] and [commit.rs].  Serialization, hashes and
      signatures are the classes [Crypto], [CommitSerializer] and [BcsParser].
    - [Dag]: DAGs as maps from references to blocks, history, causal completeness.
    - [StakeAggregator], [ThresholdClock], [BlockVerifier]: the modules of those names.
    - [Store]: the interface of [storage/mod.rs] with its contract [StoreSpec], and the
      in-memory store [storage/mem_store.rs] that satisfies it.
    - [DagState]: [dag_state.rs] over any store.  [DagStateFacts] defines the DAG a state stands
      for, [dag_view], its invariant [dag_wf], and relates each operation to the view.
      [Recovery] adds commits and restarts.
    - [BlockManager], [BlockManagerFacts], [RejectedBlocks]: [block_manager.rs], its
      invariants, and what a block that is rejected leads to.
    - [DagReader]: what the committers read of the DAG, as a class with a contract that
      [DagState] satisfies.
    - [BaseCommitter], [UniversalCommitter]: the committers.  [Votes] relates votes and
      certificates to the DAG, [Decisions] the decision rules to quorums, [Pipeline] the
      builder to the leaders of a round.
    - [Agreement], [Sequence]: two validators never decide a slot differently.
    - [Linearizer], [Linearization], [TotalOrder]: [linearizer.rs], what it outputs, and that
      validators output the same.
    - [TypedStore]: the ranges and iterators of [crates/typed-store/src/rocks] over the class
      [RocksDB] of cursors and the class [KeySerializer], with their contracts.
    - [RocksStore], [RocksFacts]: [storage/rocksdb_store.rs], and that it answers as the
      in-memory store does.
    - [TransactionConsumer]: [transaction.rs], what goes into a block and who is told.
    - [LeaderScoring], [LeaderScoringFacts]: [leader_scoring.rs] and
      [leader_scoring_strategy.rs], the scores of the authorities.
    - [LeaderSchedule], [LeaderScheduleFacts]: [leader_schedule.rs], elections and the swap
      table; the sampling of the crate [rand] is the class [Rand] with its contract [RandSpec].
    - [Slots], [Periods], [History]: what a validator decides in each round, under one leader
      schedule, and over all its schedules; two histories extend each other.
    - [CommitObserver]: [commit_observer.rs], the output to the consumer.
    - [CacheFacts]: what the queries of the cache of the DAG state return.
    - [Core]: [core.rs] and the loop of [core_thread.rs], which compose all of the above.
      [CoreInvariant], [CoreCommit] and [CoreRun] show that committing, and then every command,
      keeps its invariant.
    - [AuthorityNode]: the start of a validator in [authority_node.rs].
    - [NetworkRun]: a network of validators as a step relation, in which honest ones run their
      cores and Byzantine ones make any blocks.
    - [CoreThread]: the interface [CoreThreadDispatcher] of [core_thread.rs] as a class with a
      contract, and the dispatcher that runs the core.  The tasks below are clients of the class.
    - [LeaderTimeout], [Subscriber], [Broadcaster]: the loops of [leader_timeout.rs],
      [subscriber.rs] and [broadcaster.rs].
    - [CommitVotes], [CommitSyncer], [CommitSyncerFacts]: [commit_syncer.rs], the votes for
      commits, their verification, and the loop that fetches commits with its parallel fetches.
    - [AuthorityService], [AuthorityServiceFacts]: the handlers of [authority_service.rs].
    - [Synchronizer], [SynchronizerFacts]: [synchronizer.rs], its locks, its task per peer and
      its scheduler.
    - [ServiceNetwork]: validators whose tasks get bytes from peers refine [NetworkRun].
    - [ScheduleWitnesses], [Network], [CoreWitnesses], [NetworkWitnesses], [SyncWitnesses],
      [RocksWitnesses]: more applications of the theorems, to cores that run in lock-step, to a
      run of a network with a Byzantine authority, to runs of the tasks and to stores.
    - [Fixtures], [Checks], [Witnesses]: a concrete network of four authorities, decision
      procedures for the hypotheses, and the theorems applied to it.
    - [Counterexamples], [SyncCounterexamples]: inputs for which the code does not do what its
      comments say.

    ** How code is modelled

    A function that can panic returns an [outcome]; a [Result] is a value.  Objects behind locks
    are passed as state and returned.  Unsigned integers are [N]; where the code adds,
    subtracts or multiplies, the operation wraps at the width ([+u32], [+u64]) as a release
    build does.  Metrics, logs and instants are left out, and the clock is an argument.
    Loops that are not structural have fuel: [while_loop] allows [2 ^ LOOP_BITS] iterations,
    as many as there are block references (32 bits of round, 32 of author and 256 of digest),
    and the theorems show that the result is never [OutOfFuel]; [find_supported_block] has the round as
    fuel and [unsuspend_loop] the number of suspended blocks, which bound them.

    ** What is shown

    - Agreement: [total_order], [try_decide_agreement], [try_decide_resume]; a validator's
      decisions and commits are prefixes of another's or extend them.
    - Functional behaviour of the committers, the linearizer, the block manager, the verifier,
      the DAG state and the store, on every branch, with absence of panics
      on the states that the invariants describe; each invariant is preserved.
    - Recovery: a restart after a flush gives the same DAG and commits, and commits read from
      the store give the sub-dags that were output.
    - Quorum arithmetic of the committee.
    - Networks: in every reachable state of a network with less than a third of the stake
      Byzantine, honest validators have not equivocated, in what they hold nor in what they
      have broadcast ([honest_no_equivocation]), and their
      outputs are prefixes of each other over all changes of the leader schedule
      ([network_agreement]), also when they get arbitrary bytes ([services_refine_network]).
    - Storage: [rocksdb_equivalent] makes what is shown of the in-memory store hold of the
      persistent one, and [scan_last_blocks_by_author_result] what both return of a scan.
    - Output: the commit observer sends every sub-dag exactly once across restarts.
    - Leader schedule: scoring, the swap table and elections never panic and are what they
      promise, for any sampling that satisfies [RandSpec].
    - Transactions: pulls respect the limits, lose nothing and acknowledge what they return.
    - Commit sync: what is verified is what the honest validators committed
      ([accepted_commits_honest]), what is served is accepted when its votes are for the
      commits served ([served_commits_accepted]), and the loop returns, forgets nothing, and
      sends commits to the core in order.
    - Block sync: only verified blocks reach the core, answers of the service are accepted, and
      the synchronizer never panics and keeps its bounds, however its tasks interleave.
    - Where the code differs from its comments, a theorem says when: a rejected block makes the
      block manager panic ([rejected_ancestor_panics]), a schedule change revisits a round
      ([decided_rounds]), honest answers are rejected ([served_commits_accepted]), a small
      committee has too few peers ([peers_for_missing_blocks]), a scan is cut short
      ([scan_last_blocks_by_author_result]), commit info is lost ([flush_drops_commit_info]).
      [Counterexamples], [SyncCounterexamples] and [Network] have concrete inputs.

    The assumptions of the agreement theorems are explicit in [committer_ok] and [compatible]:
    byzantine authorities have less stake than the validity threshold, blocks were verified
    (which [verified_dag_valid] turns into the shape of the DAG), references determine blocks,
    and an honest authority makes one block per round.

    ** Not modelled

    The transport ([network/anemo_network.rs], [network/tonic_network.rs]) is RPC: the theorems
    hold for whatever a peer answers.  Of [broadcaster.rs] the estimate of the round trip time
    is left out, which only decides when a request times out.  The asynchronous tasks are step
    functions on their variables, with the events that the runtime may choose between as
    arguments; channels are queues, and an [await] on the core is one step.  A restart of a
    validator is modelled by [restart_after_flush] and [observer_exactly_once], not in
    [NetworkRun], where a validator starts once.  Of [storage/rocksdb_store.rs] the
    options of the database are left out, and its reads and writes succeed; RocksDB itself is
    the contract [RocksDBSpec].  The other crates of the repository (execution, Move, RPC, indexers, tools, [narwhal]) are
    not part of this library.
*)

From stdpp Require Import base strings numbers sorting gmap sets list.

Open Scope N_scope.

Declare Scope rust_scope.
Delimit Scope rust_scope with rust.
Open Scope rust_scope.

(** ** Fallible computations

    A call of a Rust function ends in one of three ways: it returns a value, it
    panics (an [assert!], [expect], [unwrap], an index out of range, or an explicit
    [panic!]), or, for the loops and recursions that are not structural, the model
    runs out of the fuel it was given.  [OutOfFuel] is kept apart from [Panic] so
    that termination is a theorem and not a convention. *)

Inductive outcome (A : Type) : Type :=
| Ok (a : A)
| Panic (msg : string)
| OutOfFuel.
Arguments Ok {A} a.
Arguments Panic {A} msg.
Arguments OutOfFuel {A}.

#[export] Instance outcome_ret : MRet outcome := λ A a, Ok a.

#[export] Instance outcome_bind : MBind outcome := λ A B f m,
  match m with
  | Ok a => f a
  | Panic s => Panic s
  | OutOfFuel => OutOfFuel
  end.

#[export] Instance outcome_fmap : FMap outcome := λ A B f m,
  match m with
  | Ok a => Ok (f a)
  | Panic s => Panic s
  | OutOfFuel => OutOfFuel
  end.

(** [assert!(b, msg)]. *)
Definition assert_ (b : bool) (msg : string) : outcome () :=
  if b then Ok () else Panic msg.

(** [Option::expect(msg)] and [Option::unwrap]. *)
Definition expect {A} (o : option A) (msg : string) : outcome A :=
  match o with Some a => Ok a | None => Panic msg end.

(** A Rust [Result]: the value a fallible function returns. *)
Inductive Result (A E : Type) : Type :=
| RustOk (a : A)
| RustErr (e : E).
Arguments RustOk {A E} a.
Arguments RustErr {A E} e.

(** [for x in l { acc = f(acc, x) }], where an iteration may panic. *)
Fixpoint foldM {A B} (f : B → A → outcome B) (acc : B) (l : list A) : outcome B :=
  match l with
  | [] => Ok acc
  | x :: l => acc ← f acc x; foldM f acc l
  end.

(** [l.into_iter().collect::<Result<Vec<_>, _>>()]: the first error, or all values. *)
Fixpoint collect_results {A E} (l : list (Result A E)) : Result (list A) E :=
  match l with
  | [] => RustOk []
  | RustErr e :: _ => RustErr e
  | RustOk x :: l =>
      match collect_results l with RustOk l => RustOk (x :: l) | RustErr e => RustErr e end
  end.

(** [l.into_iter().filter(f).collect()], where the predicate may panic. *)
Fixpoint filterM {A} (f : A → outcome bool) (l : list A) : outcome (list A) :=
  match l with
  | [] => Ok []
  | x :: l => keep ← f x; l ← filterM f l; Ok (if keep : bool then x :: l else l)
  end.

(** [l.iter().enumerate()]. *)
Fixpoint enumerate_from {A} (k : N) (l : list A) : list (N * A) :=
  match l with
  | [] => []
  | x :: l => (k, x) :: enumerate_from (k + 1) l
  end.
Definition enumerate {A} (l : list A) : list (N * A) := enumerate_from 0 l.

(** A [while] or [loop]: the body either goes on with a new state or leaves the loop with
    a result.  [iter_pow2 n] runs the body at most [2 ^ n] times, so a loop is executable
    without a fuel argument of its own: [LOOP_BITS] bounds the loops of the program by
    the number of block references there are, 32 bits of round, 32 of author and 256 of
    digest.  That a loop leaves before the bound is a theorem about it
    ([while_loop_measure]). *)
Inductive flow (A B : Type) : Type :=
| Continue (a : A)
| Break (b : B).
Arguments Continue {A B} a.
Arguments Break {A B} b.

Fixpoint iter_pow2 {A B} (n : nat) (body : A → outcome (flow A B)) (a : A) :
    outcome (flow A B) :=
  match n with
  | O => body a
  | S n =>
      r ← iter_pow2 n body a;
      match r with
      | Continue a => iter_pow2 n body a
      | Break b => Ok (Break b)
      end
  end.

Definition LOOP_BITS : nat := 320.

Definition while_loop {A B} (body : A → outcome (flow A B)) (a : A) : outcome B :=
  r ← iter_pow2 LOOP_BITS body a;
  match r with
  | Continue _ => OutOfFuel
  | Break b => Ok b
  end.

(** ** Machine integers

    The binaries are built with the [release] profile, which does not set
    [overflow-checks]: [+], [-] and [*] wrap around at the type's width.  Values of
    [u32], [u64] and [usize] are [N]; [saturating_sub] is the truncated subtraction
    of [N]. *)

Definition U32_MAX : N := 2 ^ 32 - 1.
Definition U64_MAX : N := 2 ^ 64 - 1.

Definition wrap32 (n : N) : N := n mod 2 ^ 32.
Definition wrap64 (n : N) : N := n mod 2 ^ 64.

Definition u32_add (a b : N) : N := wrap32 (a + b).
Definition u32_mul (a b : N) : N := wrap32 (a * b).
Definition u32_sub (a b : N) : N := wrap32 (a + 2 ^ 32 - b).
Definition u64_add (a b : N) : N := wrap64 (a + b).
Definition u64_mul (a b : N) : N := wrap64 (a * b).

Notation "a +u32 b" := (u32_add a b) (at level 50, left associativity) : rust_scope.
Notation "a *u32 b" := (u32_mul a b) (at level 40, left associativity) : rust_scope.
Notation "a -u32 b" := (u32_sub a b) (at level 50, left associativity) : rust_scope.
Notation "a +u64 b" := (u64_add a b) (at level 50, left associativity) : rust_scope.
Notation "a *u64 b" := (u64_mul a b) (at level 40, left associativity) : rust_scope.

(** [vec[i]]: indexing panics out of range. *)
Definition vec_index {A} (l : list A) (i : N) : outcome A :=
  expect (l !! N.to_nat i) "index out of bounds".

(** [vec[i] = x]. *)
Definition vec_set {A} (l : list A) (i : N) (x : A) : outcome (list A) :=
  _ ← vec_index l i; Ok (<[N.to_nat i := x]> l).

(** [(a..=b)] over [u32], ascending. *)
Definition range_inclusive (a b : N) : list N :=
  (λ k : nat, a + N.of_nat k) <$> seq 0 (N.to_nat (b + 1 - a)).

(** [(a..=b).step_by(step)] over [u32]. *)
Definition range_step_by (a b step : N) : outcome (list N) :=
  _ ← assert_ (negb (step =? 0)) "assertion failed: step != 0";
  Ok (if a <=? b then (λ k : nat, a + N.of_nat k * step) <$> seq 0 (N.to_nat ((b - a) / step + 1)) else []).

(** [slice::chunks]. *)
Fixpoint chunks_fuel {A} (fuel size : nat) (l : list A) : list (list A) :=
  match fuel, l with
  | S fuel, _ :: _ => take size l :: chunks_fuel fuel size (drop size l)
  | _, _ => []
  end.

Definition chunks {A} (l : list A) (size : N) : outcome (list (list A)) :=
  _ ← assert_ (negb (size =? 0)) "chunk size must be non-zero";
  Ok (chunks_fuel (length l) (N.to_nat size) l).

(** ** Total orders

    [Ord] is Rust's [Ord] as a boolean comparison; tuples and structs with a derived
    [Ord] compare lexicographically. *)

Class Ord (A : Type) := ord_leb : A → A → bool.

Class OrdLaws (A : Type) `{Ord A} : Prop := {
  ord_total : ∀ x y : A, ord_leb x y = true ∨ ord_leb y x = true;
  ord_trans : ∀ x y z : A, ord_leb x y = true → ord_leb y z = true → ord_leb x z = true;
  ord_antisym : ∀ x y : A, ord_leb x y = true → ord_leb y x = true → x = y;
}.

#[export] Instance ord_N : Ord N := N.leb.

#[export] Instance ord_N_laws : OrdLaws N.
Proof. split; unfold ord_leb, ord_N; intros *; rewrite ?N.leb_le; lia. Qed.

#[export] Instance ord_prod `{Ord A, Ord B} : Ord (A * B) := λ p q,
  ord_leb p.1 q.1 && (negb (ord_leb q.1 p.1) || ord_leb p.2 q.2).

Definition ord_ltb `{Ord A} (x y : A) : bool := negb (ord_leb y x).

Lemma ord_refl `{OrdLaws A} (x : A) : ord_leb x x = true.
Proof. by destruct (ord_total x x). Qed.

Lemma ord_leb_false `{OrdLaws A} (x y : A) : ord_leb x y = false → ord_leb y x = true.
Proof. intros Hf. destruct (ord_total x y); congruence. Qed.

Lemma ord_prod_leb `{Ord A, Ord B} (p q : A * B) :
  ord_leb p q = true ↔
  ord_leb p.1 q.1 = true ∧ (ord_leb q.1 p.1 = true → ord_leb p.2 q.2 = true).
Proof.
  unfold ord_leb at 1, ord_prod.
  rewrite andb_true_iff, orb_true_iff, negb_true_iff.
  destruct (ord_leb q.1 p.1); naive_solver.
Qed.

#[export] Instance ord_prod_laws `{OrdLaws A, OrdLaws B} : OrdLaws (A * B).
Proof.
  split.
  - intros [a b] [a' b']. rewrite !ord_prod_leb; simpl.
    destruct (ord_total a a') as [Ha|Ha], (ord_total b b') as [Hb|Hb],
      (ord_leb a a') eqn:E1, (ord_leb a' a) eqn:E2; naive_solver.
  - intros [a b] [a' b'] [a'' b'']. rewrite !ord_prod_leb; simpl.
    intros [Ha Hb] [Ha' Hb']. split; [by eapply ord_trans|]. intros Hc.
    eapply ord_trans; [apply Hb|apply Hb']; by eapply ord_trans.
  - intros [a b] [a' b']. rewrite !ord_prod_leb; simpl.
    intros [Ha Hb] [Ha' Hb']. f_equal; apply ord_antisym; auto.
Qed.

(** ** Sorting

    [slice::sort_by] is stable; so is insertion from the right. *)

Fixpoint insert_by {A} (leb : A → A → bool) (x : A) (l : list A) : list A :=
  match l with
  | [] => [x]
  | y :: l' => if leb x y then x :: y :: l' else y :: insert_by leb x l'
  end.

Definition sort_by {A} (leb : A → A → bool) (l : list A) : list A :=
  foldr (insert_by leb) [] l.

Section sorting.
Context {A : Type} (leb : A → A → bool).

Lemma insert_by_perm x l : insert_by leb x l ≡ₚ x :: l.
Proof.
  induction l as [|y l IH]; simpl; [done|].
  destruct (leb x y); [done|]. rewrite IH. apply Permutation_swap.
Qed.

Lemma sort_by_perm l : sort_by leb l ≡ₚ l.
Proof. induction l as [|x l IH]; simpl; [done|]. by rewrite insert_by_perm, IH. Qed.

Lemma elem_of_sort_by x l : x ∈ sort_by leb l ↔ x ∈ l.
Proof. by rewrite sort_by_perm. Qed.

Context (leb_total : ∀ x y, leb x y = true ∨ leb y x = true).
Context (leb_trans : ∀ x y z, leb x y = true → leb y z = true → leb x z = true).

Lemma insert_by_sorted x l :
  StronglySorted (λ x y, leb x y = true) l →
  StronglySorted (λ x y, leb x y = true) (insert_by leb x l).
Proof.
  induction 1 as [|y l Hl IH Hy]; simpl; [by repeat constructor|].
  destruct (leb x y) eqn:E.
  - constructor; [by constructor|]. constructor; [done|].
    eapply Forall_impl; [done|]. eauto.
  - constructor; [done|]. rewrite insert_by_perm.
    constructor; [|done]. destruct (leb_total x y); congruence.
Qed.

Lemma sort_by_sorted l : StronglySorted (λ x y, leb x y = true) (sort_by leb l).
Proof. induction l; simpl; [constructor|by apply insert_by_sorted]. Qed.

(** Stability: elements the comparison does not separate keep their order. *)
Lemma insert_by_filter_stable (P : A → bool) x l :
  (∀ y, P x = true → P y = true → leb x y = true) →
  filter (λ y, P y = true) (insert_by leb x l) =
  filter (λ y, P y = true) (x :: l).
Proof.
  intros Heq. induction l as [|y l IH]; [done|]. simpl.
  destruct (leb x y) eqn:E; [done|].
  rewrite !filter_cons in *. rewrite IH.
  destruct (decide (P x = true)) as [Hx|Hx], (decide (P y = true)) as [Hy|Hy]; try done.
  rewrite Heq in E; done.
Qed.

Lemma sort_by_stable (P : A → bool) l :
  (∀ x y, P x = true → P y = true → leb x y = true) →
  filter (λ y, P y = true) (sort_by leb l) = filter (λ y, P y = true) l.
Proof.
  intros Heq. induction l as [|x l IH]; [done|]. simpl.
  rewrite insert_by_filter_stable by eauto. rewrite !filter_cons, IH. done.
Qed.
End sorting.

(** ** Ordered collections

    A [BTreeSet<K>] is a [gset K] and a [BTreeMap<K, V>] a [gmap K V]; what depends
    on the order of the keys (iteration, [first], [last], [range]) goes through the
    sorted enumerations below. *)

Definition bt_elements `{Countable K, !Ord K} (s : gset K) : list K :=
  sort_by ord_leb (elements s).

Definition bt_items `{Countable K, !Ord K} {V} (m : gmap K V) : list (K * V) :=
  sort_by (λ p q, ord_leb p.1 q.1) (map_to_list m).

(** [BTreeMap::into_values]. *)
Definition bt_values `{Countable K, !Ord K} {V} (m : gmap K V) : list V :=
  (bt_items m).*2.

Definition bt_first `{Countable K, !Ord K} (s : gset K) : option K := head (bt_elements s).
Definition bt_last `{Countable K, !Ord K} (s : gset K) : option K := last (bt_elements s).

(** [BTreeMap::first_key_value]. *)
Definition bt_first_key_value `{Countable K, !Ord K} {V} (m : gmap K V) : option (K * V) :=
  head (bt_items m).

(** [BTreeMap::last_key_value]. *)
Definition bt_last_key_value `{Countable K, !Ord K} {V} (m : gmap K V) : option (K * V) :=
  last (bt_items m).

(** [std::ops::Bound]. *)
Inductive Bound (K : Type) : Type :=
| Included (k : K)
| Excluded (k : K)
| Unbounded.
Arguments Included {K} k.
Arguments Excluded {K} k.
Arguments Unbounded {K}.

Definition in_range `{Ord K} (lo hi : Bound K) (k : K) : bool :=
  match lo with
  | Included a => ord_leb a k
  | Excluded a => ord_ltb a k
  | Unbounded => true
  end &&
  match hi with
  | Included b => ord_leb k b
  | Excluded b => ord_ltb k b
  | Unbounded => true
  end.

(** [range] panics when the start is above the end, and when both bounds exclude the
    same key. *)
Definition range_valid `{Ord K} (lo hi : Bound K) : bool :=
  match lo, hi with
  | Unbounded, _ | _, Unbounded => true
  | Excluded a, Excluded b => ord_ltb a b
  | Included a, (Included b | Excluded b) | Excluded a, Included b => ord_leb a b
  end.

Definition bt_range `{Countable K, !Ord K} {V} (lo hi : Bound K) (m : gmap K V) :
    outcome (list (K * V)) :=
  _ ← assert_ (range_valid lo hi) "range start is greater than range end in BTreeMap";
  Ok (filter (λ p, in_range lo hi p.1 = true) (bt_items m)).

Definition bt_set_range `{Countable K, !Ord K} (lo hi : Bound K) (s : gset K) :
    outcome (list K) :=
  _ ← assert_ (range_valid lo hi) "range start is greater than range end in BTreeSet";
  Ok (filter (λ k, in_range lo hi k = true) (bt_elements s)).

(** ** Lemmas on outcomes *)

Lemma bind_Ok {A B} (m : outcome A) (f : A → outcome B) b :
  (m ≫= f) = Ok b ↔ ∃ a, m = Ok a ∧ f a = Ok b.
Proof. destruct m; simpl; naive_solver. Qed.

Lemma expect_Ok {A} (o : option A) msg a : expect o msg = Ok a ↔ o = Some a.
Proof. destruct o; simpl; naive_solver. Qed.

Lemma assert_Ok b msg u : assert_ b msg = Ok u ↔ b = true.
Proof. destruct b, u; simpl; naive_solver. Qed.

Lemma vec_index_Ok {A} (l : list A) i a : vec_index l i = Ok a ↔ l !! N.to_nat i = Some a.
Proof. apply expect_Ok. Qed.

Lemma vec_index_lt {A} (l : list A) i :
  i < N.of_nat (length l) → ∃ a, vec_index l i = Ok a.
Proof.
  intros Hi. destruct (lookup_lt_is_Some_2 l (N.to_nat i)) as [a Ha]; [lia|].
  exists a. by apply vec_index_Ok.
Qed.

Lemma foldM_app {A B} (f : B → A → outcome B) b l1 l2 :
  foldM f b (l1 ++ l2) = (b' ← foldM f b l1; foldM f b' l2).
Proof.
  revert b. induction l1 as [|x l1 IH]; intros b; simpl; [done|].
  destruct (f b x); simpl; [apply IH|done|done].
Qed.

Lemma foldM_ext {A B} (f g : B → A → outcome B) l b :
  (∀ b a, a ∈ l → f b a = g b a) → foldM f b l = foldM g b l.
Proof.
  revert b. induction l as [|a l IH]; intros b Hfg; simpl; [done|]. rewrite Hfg by left.
  destruct (g b a); simpl; [|done..]. apply IH. intros; apply Hfg; by right.
Qed.

Lemma outcome_bind_ext {A B} (m : outcome A) (f g : A → outcome B) :
  (∀ a, f a = g a) → (a ← m; f a) = (a ← m; g a).
Proof. intros Hfg. destruct m; simpl; auto. Qed.

(** Every iteration of a loop that returned has returned. *)
Lemma foldM_Ok_elem {A B} (f : B → A → outcome B) l b b' x :
  foldM f b l = Ok b' → x ∈ l → ∃ b1 b2, f b1 x = Ok b2.
Proof.
  revert b. induction l as [|y l IH]; intros b Hf Hx; [by apply not_elem_of_nil in Hx|].
  cbn [foldM] in Hf. apply bind_Ok in Hf as (b1 & Hb1 & Hf). apply elem_of_cons in Hx as [->|Hx]; eauto.
Qed.

(** Invariants carried through a loop whose iterations all return. *)
Lemma foldM_inv {A B} (f : B → A → outcome B) (I : B → Prop) l b :
  I b →
  (∀ b x, I b → x ∈ l → ∃ b', f b x = Ok b' ∧ I b') →
  ∃ b', foldM f b l = Ok b' ∧ I b'.
Proof.
  revert b. induction l as [|x l IH]; intros b Hb Hstep; simpl; [eauto|].
  destruct (Hstep b x Hb) as (b' & -> & Hb'); [left|]. simpl.
  apply IH; [done|]. intros b'' y ??. apply Hstep; [done|by right].
Qed.

(** The same with the position in the list. *)
Lemma foldM_enumerate_inv {A B} (f : B → N * A → outcome B) (I : nat → B → Prop) k l b :
  I k b →
  (∀ i x b, l !! i = Some x → I (k + i)%nat b → ∃ b', f b (N.of_nat (k + i), x) = Ok b' ∧ I (S (k + i)) b') →
  ∃ b', foldM f b (enumerate_from (N.of_nat k) l) = Ok b' ∧ I (k + length l)%nat b'.
Proof.
  revert k b. induction l as [|x l IH]; intros k b Hb Hstep; simpl.
  { exists b. by rewrite Nat.add_0_r. }
  destruct (Hstep 0%nat x b) as (b' & Hf & Hb'); rewrite ?Nat.add_0_r in *; [done..|]. rewrite Hf. simpl.
  replace (N.of_nat k + 1) with (N.of_nat (S k)) by lia. destruct (IH (S k) b') as (b2 & -> & Hb2); [done| |].
  - intros i y b1 Hi HI. destruct (Hstep (S i) y b1) as (b3 & Hb3 & HI3); rewrite ?Nat.add_succ_r in *; [done..|eauto].
  - exists b2. by rewrite Nat.add_succ_r.
Qed.

Lemma elem_of_enumerate_from {A} k (l : list A) j x :
  (j, x) ∈ enumerate_from k l → k ≤ j < k + N.of_nat (length l).
Proof.
  revert k. induction l as [|y l IH]; intros k; simpl; [by intros ?%not_elem_of_nil|].
  intros [[= -> _]|Hin]%elem_of_cons; [lia|]. apply IH in Hin. lia.
Qed.

Lemma enumerate_from_lookup {A} (l : list A) k i x :
  l !! i = Some x → (N.of_nat (k + i), x) ∈ enumerate_from (N.of_nat k) l.
Proof.
  revert k i. induction l as [|y l IH]; intros k i Hi; [done|]. simpl. destruct i as [|i].
  - injection Hi as ->. rewrite Nat.add_0_r. left.
  - right. replace (N.of_nat k + 1) with (N.of_nat (S k)) by lia. rewrite Nat.add_succ_r. by apply (IH (S k)).
Qed.

(** An invariant of every successful iteration holds after a successful loop. *)
Lemma foldM_Ok_inv {A B} (f : B → A → outcome B) (I : B → Prop) l b b' :
  foldM f b l = Ok b' → I b →
  (∀ b x b', I b → x ∈ l → f b x = Ok b' → I b') →
  I b'.
Proof.
  revert b. induction l as [|x l IH]; intros b; simpl; [by intros [= ->]|].
  rewrite bind_Ok. intros (b1 & Hx & Hl) Hb Hstep.
  eapply IH; [done|eapply Hstep; eauto; left|].
  intros ??????. eapply Hstep; eauto. by right.
Qed.

Lemma filterM_pure {A} (f : A → outcome bool) (g : A → bool) l :
  (∀ x, x ∈ l → f x = Ok (g x)) → filterM f l = Ok (filter (λ x, g x = true) l).
Proof.
  induction l as [|x l IH]; intros Hf; [done|]. simpl.
  rewrite Hf by left. simpl. rewrite IH by (intros y ?; apply Hf; by right). simpl.
  rewrite filter_cons. by destruct (g x).
Qed.

Lemma mapM_Ok {A B} (f : A → outcome B) l k :
  mapM f l = Ok k ↔ Forall2 (λ x y, f x = Ok y) l k.
Proof.
  revert k. induction l as [|x l IH]; intros k; simpl.
  - split; [intros [= <-]; constructor|by inversion 1].
  - rewrite bind_Ok. setoid_rewrite bind_Ok. setoid_rewrite IH. split.
    + intros (y & Hy & k' & Hk & [= <-]). by constructor.
    + inversion 1; subst. eauto 10.
Qed.

Lemma filterM_sublist {A} (f : A → outcome bool) l k :
  filterM f l = Ok k → k `sublist_of` l ∧ ∀ x, x ∈ k → f x = Ok true.
Proof.
  revert k. induction l as [|x l IH]; intros k Hf; simpl in Hf.
  { injection Hf as <-. split; [done|]. by intros x ?%not_elem_of_nil. }
  apply bind_Ok in Hf as (keep & Hx & Hf). apply bind_Ok in Hf as (k' & Hk & Hf). injection Hf as <-.
  destruct (IH k' Hk) as [Hsub Hall]. destruct keep.
  - split; [by apply sublist_skip|]. intros y [->|?]%elem_of_cons; auto.
  - split; [by apply sublist_cons|done].
Qed.

Lemma foldM_fmap {A B C} (f : C → B → outcome C) (g : A → B) c l :
  foldM f c (g <$> l) = foldM (λ c x, f c (g x)) c l.
Proof. revert c. induction l as [|x l IH]; intros c; simpl; [done|]. destruct (f c (g x)); simpl; [apply IH|done..]. Qed.

Lemma collect_results_Ok {A E} (l : list (Result A E)) k :
  collect_results l = RustOk k ↔ l = RustOk <$> k.
Proof.
  revert k. induction l as [|[x|e] l IH]; intros k; simpl.
  - split; [by intros [= <-]|]. by destruct k.
  - destruct (collect_results l) as [l'|e].
    + split; [intros [= <-]; simpl; f_equal; by apply IH|].
      destruct k as [|y k]; simpl; [done|]. intros [= -> Hk]. apply IH in Hk. by injection Hk as ->.
    + split; [done|]. destruct k as [|y k]; simpl; [done|]. intros [= -> Hk]. by apply IH in Hk.
  - split; [done|]. by destruct k.
Qed.

Lemma mapM_expect {A} (l : list (option A)) msg k :
  mapM (λ o, expect o msg) l = Ok k ↔ l = Some <$> k.
Proof.
  rewrite mapM_Ok. revert k. induction l as [|o l IH]; intros k; split.
  - by inversion 1.
  - destruct k; [constructor|done].
  - inversion 1; subst. rewrite expect_Ok in *; subst. simpl. f_equal. by apply IH.
  - destruct k as [|a k]; [done|]. simpl. intros [= -> ->].
    constructor; [done|]. by apply IH.
Qed.

Lemma mapM_zip_expect {A B} (f : A → option B) (l : list A) msg :
  (∀ x, x ∈ l → is_Some (f x)) →
  ∃ k, mapM (λ '(_, o), expect o msg) (zip l (f <$> l)) = Ok k ∧
       ∀ y, y ∈ k ↔ ∃ x, x ∈ l ∧ f x = Some y.
Proof.
  induction l as [|x l IH]; intros Hl; simpl.
  - exists []. split; [done|]. set_solver.
  - destruct (Hl x) as [y Hy]; [set_solver|].
    destruct IH as (k & Hk & Hin); [set_solver|].
    exists (y :: k). change (list_fmap A (option B) f l) with (f <$> l).
    rewrite Hy. simpl. rewrite Hk. split; [done|].
    intros y'. rewrite elem_of_cons, Hin. set_solver.
Qed.

Lemma Forall2_fmap_Some {A B} (f : A → option B) l k :
  Forall2 (λ x y, f x = Some y) l k ↔ f <$> l = Some <$> k.
Proof.
  split.
  - induction 1 as [|x y l k Hx _ IH]; [done|]. by rewrite !fmap_cons, Hx, IH.
  - revert k. induction l as [|x l IH]; intros [|y k]; [constructor|done|done|].
    rewrite !fmap_cons. intros [= ? ?]. constructor; auto.
Qed.

Lemma elem_of_rev {A} (x : A) l : x ∈ rev l ↔ x ∈ l.
Proof. by rewrite !list_elem_of_In, <-in_rev. Qed.

Lemma StronglySorted_weaken {A} (R S : A → A → Prop) l :
  (∀ x y, R x y → S x y) → StronglySorted R l → StronglySorted S l.
Proof.
  intros HRS. induction 1 as [|x l Hl IH Hx]; constructor; [done|].
  eapply Forall_impl; [exact Hx|]. auto.
Qed.

Lemma list_filter_all {A} (P : A → Prop) `{∀ x, Decision (P x)} (l : list A) :
  (∀ x, x ∈ l → P x) → filter P l = l.
Proof.
  induction l as [|x l IH]; intros Hl; [done|].
  rewrite filter_cons_True by (apply Hl; left). f_equal. apply IH. intros y ?. apply Hl. by right.
Qed.

Lemma list_filter_none {A} (P : A → Prop) `{∀ x, Decision (P x)} (l : list A) :
  (∀ x, x ∈ l → ¬ P x) → filter P l = [].
Proof.
  induction l as [|x l IH]; intros Hl; [done|].
  rewrite filter_cons_False by (apply Hl; left). apply IH. intros y ?. apply Hl. by right.
Qed.

(** ** Lemmas on loops *)

(** An invariant [I] and a measure that decreases with each iteration: the loop leaves
    with a result that satisfies [Q]. *)
Lemma iter_pow2_measure {A B} (I : A → Prop) (Q : B → Prop) (μ : A → N) body n a :
  (∀ a, I a → ∃ r, body a = Ok r ∧
     match r with Continue a' => I a' ∧ μ a' < μ a | Break b => Q b end) →
  I a →
  ∃ r, iter_pow2 n body a = Ok r ∧
    match r with Continue a' => I a' ∧ μ a' + 2 ^ N.of_nat n ≤ μ a | Break b => Q b end.
Proof.
  intros Hbody. revert a. induction n as [|n IH]; intros a Ha; simpl.
  - destruct (Hbody a Ha) as ([a'|b] & -> & Hr); eexists; split; [done| |done|done].
    simpl in *. destruct Hr. split; [done|]. change (2 ^ N.of_nat 0) with 1. lia.
  - destruct (IH a Ha) as ([a1|b] & -> & Hr); simpl; [|by eexists].
    destruct Hr as [Ha1 Hμ1]. destruct (IH a1 Ha1) as ([a2|b] & -> & Hr); eexists; (split; [done|]).
    + destruct Hr as [? Hμ2]. split; [done|].
      replace (N.of_nat (S n)) with (N.succ (N.of_nat n)) by lia. rewrite N.pow_succ_r'. lia.
    + done.
Qed.

Lemma while_loop_measure {A B} (I : A → Prop) (Q : B → Prop) (μ : A → N) body a :
  (∀ a, I a → ∃ r, body a = Ok r ∧
     match r with Continue a' => I a' ∧ μ a' < μ a | Break b => Q b end) →
  I a → μ a < 2 ^ N.of_nat LOOP_BITS →
  ∃ b, while_loop body a = Ok b ∧ Q b.
Proof.
  unfold while_loop. generalize LOOP_BITS. intros n Hbody Ha Hμ.
  destruct (iter_pow2_measure I Q μ body n a Hbody Ha) as ([a'|b] & -> & Hr); simpl.
  - destruct Hr. lia.
  - eauto.
Qed.

(** What a loop that leaves with a result leaves with, from its invariant alone. *)
Lemma iter_pow2_inv {A B} (I : A → Prop) (Q : B → Prop) body n a r :
  (∀ a r, I a → body a = Ok r → match r with Continue a' => I a' | Break b => Q b end) →
  I a → iter_pow2 n body a = Ok r →
  match r with Continue a' => I a' | Break b => Q b end.
Proof.
  intros Hbody. revert a r. induction n as [|n IH]; intros a r Ha Hr; simpl in Hr; [by apply (Hbody a)|].
  apply bind_Ok in Hr as (r1 & Hr1 & Hr). pose proof (IH _ _ Ha Hr1) as H1.
  destruct r1 as [a1|b]; [by apply (IH a1)|]. by injection Hr as <-.
Qed.

Lemma while_loop_inv {A B} (I : A → Prop) (Q : B → Prop) body a b :
  (∀ a r, I a → body a = Ok r → match r with Continue a' => I a' | Break b => Q b end) →
  I a → while_loop body a = Ok b → Q b.
Proof.
  unfold while_loop. generalize LOOP_BITS. intros n Hbody Ha Hb.
  apply bind_Ok in Hb as (r & Hr & Hb).
  pose proof (iter_pow2_inv I Q body _ _ _ Hbody Ha Hr) as HQ.
  destruct r; [done|]. by injection Hb as <-.
Qed.

(** ** Lemmas on lookups in two phases

    [get_blocks] and [contains_blocks] answer a batch of queries first from memory,
    filling a vector of defaults by index and noting the queries left over, then from
    storage, writing the answers at the noted indices. *)

Section two_phase.
Context {K V : Type} (d : V) (cached : K → option V) (stored : K → V).

Definition leftover (k : N) (refs : list K) : list (N * K) :=
  filter (λ p, cached p.2 = None) (enumerate_from k refs).

Lemma two_phase_cached (body : list V * list (N * K) → N * K → outcome (list V * list (N * K)))
    (P : K → Prop) refs pre missing :
  (∀ pre post missing r, P r →
     body (pre ++ d :: post, missing) (N.of_nat (length pre), r) =
     match cached r with
     | Some v => Ok (pre ++ v :: post, missing)
     | None => Ok (pre ++ d :: post, missing ++ [(N.of_nat (length pre), r)])
     end) →
  Forall P refs →
  foldM body (pre ++ replicate (length refs) d, missing)
    (enumerate_from (N.of_nat (length pre)) refs) =
  Ok (pre ++ ((λ r, default d (cached r)) <$> refs),
      missing ++ leftover (N.of_nat (length pre)) refs).
Proof.
  intros Hbody HP. revert pre missing. induction HP as [|r refs Hr _ IH]; intros pre missing; simpl.
  - by rewrite !app_nil_r.
  - rewrite Hbody by done. unfold leftover. simpl. rewrite filter_cons; simpl.
    assert (Hstep : ∀ v m, foldM body (pre ++ v :: replicate (length refs) d, m)
        (enumerate_from (N.of_nat (length pre) + 1) refs) =
      Ok (pre ++ v :: ((λ r, default d (cached r)) <$> refs),
          m ++ leftover (N.of_nat (length pre) + 1) refs)).
    { intros v m. specialize (IH (pre ++ [v]) m).
      rewrite length_app in IH. simpl in IH.
      replace (N.of_nat (length pre + 1)) with (N.of_nat (length pre) + 1) in IH by lia.
      by rewrite <-!app_assoc in IH. }
    destruct (cached r) as [v|] eqn:Hc; simpl.
    + rewrite Hstep. done.
    + rewrite Hstep, <-app_assoc. done.
Qed.

Lemma two_phase_stored (pre : list V) refs :
  foldM (λ out '((index, _), result), vec_set out index result)
    (pre ++ ((λ r, default d (cached r)) <$> refs))
    (zip (leftover (N.of_nat (length pre)) refs)
       (stored <$> (leftover (N.of_nat (length pre)) refs).*2)) =
  Ok (pre ++ ((λ r, default (stored r) (cached r)) <$> refs)).
Proof.
  revert pre. induction refs as [|r refs IH]; intros pre; [done|].
  unfold leftover. simpl. rewrite filter_cons; simpl.
  assert (Hstep : ∀ v, foldM (λ out '((index, _), result), vec_set out index result)
      (pre ++ v :: ((λ r, default d (cached r)) <$> refs))
      (zip (leftover (N.of_nat (length pre) + 1) refs)
         (stored <$> (leftover (N.of_nat (length pre) + 1) refs).*2)) =
    Ok (pre ++ v :: ((λ r, default (stored r) (cached r)) <$> refs))).
  { intros v. specialize (IH (pre ++ [v])). rewrite length_app in IH. simpl in IH.
    replace (N.of_nat (length pre + 1)) with (N.of_nat (length pre) + 1) in IH by lia.
    by rewrite <-!app_assoc in IH. }
  destruct (cached r) as [v|] eqn:Hc; simpl.
  - apply Hstep.
  - unfold vec_set at 2, vec_index. rewrite Nat2N.id, list_lookup_middle by done. simpl.
    rewrite insert_app_r_alt, Nat.sub_diag by done. apply Hstep.
Qed.
End two_phase.

(** ** Lemmas on integers *)

Lemma wrap32_small n : n < 2 ^ 32 → wrap32 n = n.
Proof. apply N.mod_small. Qed.

Lemma wrap64_small n : n < 2 ^ 64 → wrap64 n = n.
Proof. apply N.mod_small. Qed.

Lemma u32_add_small a b : a + b < 2 ^ 32 → a +u32 b = a + b.
Proof. apply wrap32_small. Qed.

Lemma u32_mul_small a b : a * b < 2 ^ 32 → a *u32 b = a * b.
Proof. apply wrap32_small. Qed.

Lemma u64_add_small a b : a + b < 2 ^ 64 → a +u64 b = a + b.
Proof. apply wrap64_small. Qed.

Lemma u64_mul_small a b : a * b < 2 ^ 64 → a *u64 b = a * b.
Proof. apply wrap64_small. Qed.

Lemma u32_sub_small a b : b ≤ a → a < 2 ^ 32 → a -u32 b = a - b.
Proof.
  intros ??. unfold u32_sub, wrap32.
  replace (a + 2 ^ 32 - b) with (a - b + 1 * 2 ^ 32) by lia.
  rewrite N.Div0.mod_add, N.mod_small; lia.
Qed.

Create HintDb rust.
#[export] Hint Rewrite @bind_Ok @expect_Ok @assert_Ok @vec_index_Ok : rust.

(** Read off what a successful computation did: the hypotheses [_ = Ok _] are split
    along their binds, assertions and lookups. *)
Ltac inv_ok :=
  repeat match goal with
  | H : (_ ≫= _) = Ok _ |- _ =>
      apply bind_Ok in H; destruct H as (? & ? & H)
  | H : mret _ = Ok _ |- _ => injection H as H
  | H : Ok _ = Ok _ |- _ => injection H as H
  | H : Panic _ = Ok _ |- _ => discriminate H
  | H : OutOfFuel = Ok _ |- _ => discriminate H
  | H : assert_ _ _ = Ok _ |- _ => apply assert_Ok in H
  | H : expect _ _ = Ok _ |- _ => apply expect_Ok in H
  | H : vec_index _ _ = Ok _ |- _ => apply vec_index_Ok in H
  | H : () |- _ => destruct H
  end; simplify_eq/=.

(** Boolean comparisons in hypotheses and goal, as propositions. *)
Ltac reflect_bools :=
  repeat match goal with
  | H : (_ && _) = true |- _ => apply andb_true_iff in H; destruct H
  | H : (_ || _) = false |- _ => apply orb_false_iff in H; destruct H
  | H : negb _ = true |- _ => apply negb_true_iff in H
  | H : negb _ = false |- _ => apply negb_false_iff in H
  | H : (_ =? _) = true |- _ => apply N.eqb_eq in H
  | H : (_ =? _) = false |- _ => apply N.eqb_neq in H
  | H : (_ <=? _) = true |- _ => apply N.leb_le in H
  | H : (_ <=? _) = false |- _ => apply N.leb_gt in H
  | H : (_ <? _) = true |- _ => apply N.ltb_lt in H
  | H : (_ <? _) = false |- _ => apply N.ltb_ge in H
  | H : bool_decide _ = true |- _ => apply bool_decide_eq_true in H
  | H : bool_decide _ = false |- _ => apply bool_decide_eq_false in H
  end.

Lemma elem_of_range_inclusive a b x : x ∈ range_inclusive a b ↔ a ≤ x ≤ b.
Proof.
  unfold range_inclusive. rewrite list_elem_of_fmap. split.
  - intros (k & -> & Hk%elem_of_seq). lia.
  - intros Hx. exists (N.to_nat (x - a)). rewrite elem_of_seq. lia.
Qed.

Lemma elem_of_range_step_by a b step l :
  range_step_by a b step = Ok l →
  0 < step ∧ ∀ i x, l !! i = Some x ↔ x = a + N.of_nat i * step ∧ x ≤ b.
Proof.
  unfold range_step_by. intros (u & Hstep & Hl)%bind_Ok. apply assert_Ok, negb_true_iff, N.eqb_neq in Hstep.
  split; [lia|]. intros i x. destruct (N.leb_spec a b) as [Hab|Hab]; injection Hl as <-.
  - rewrite list_lookup_fmap_Some. setoid_rewrite lookup_seq. split.
    + intros (k & -> & -> & Hk). simpl. split; [done|]. pose proof (N.Div0.mul_div_le (b - a) step). nia.
    + intros [-> Hb]. exists i. split; [done|]. split; [done|].
      assert (N.of_nat i ≤ (b - a) / step); [|lia]. apply N.div_le_lower_bound; lia.
  - rewrite lookup_nil. split; [done|lia].
Qed.

(** The chunks of a list are its parts, in order, none empty or longer than the size. *)
Lemma chunks_fuel_spec {A} fuel size (l : list A) :
  (0 < size)%nat → (length l ≤ fuel)%nat →
  concat (chunks_fuel fuel size l) = l ∧
  (∀ c, c ∈ chunks_fuel fuel size l → c ≠ [] ∧ (length c ≤ size)%nat) ∧
  ∀ n, (length l ≤ n * size)%nat → (length (chunks_fuel fuel size l) ≤ n)%nat.
Proof.
  intros Hs. revert l. induction fuel as [|fuel IH]; intros [|x l] Hl; simpl in Hl; try lia.
  1-2: split; [done|]; split; [by intros c ?%not_elem_of_nil|simpl; lia].
  cbn [chunks_fuel]. destruct (IH (drop size (x :: l))) as (Hcat & Hall & Hn).
  { rewrite length_drop. simpl. lia. }
  split; [|split].
  - cbn [concat]. by rewrite Hcat, take_drop.
  - intros c [->|Hc]%elem_of_cons; [|by apply Hall]. split; [by destruct size; [lia|]|]. rewrite length_take. lia.
  - intros [|n] Hlen; simpl in Hlen; [lia|]. cbn [length]. apply le_n_S, Hn. rewrite length_drop. simpl. lia.
Qed.

Lemma chunks_Ok {A} (l : list A) size cs :
  chunks l size = Ok cs →
  0 < size ∧ concat cs = l ∧ (∀ c, c ∈ cs → c ≠ [] ∧ N.of_nat (length c) ≤ size) ∧
  ∀ n, (N.of_nat (length l) ≤ n * size) → N.of_nat (length cs) ≤ n.
Proof.
  unfold chunks. intros (u & Hstep & Hl)%bind_Ok. apply assert_Ok, negb_true_iff, N.eqb_neq in Hstep. injection Hl as <-.
  destruct (chunks_fuel_spec (length l) (N.to_nat size) l) as (Hcat & Hall & Hn); [lia..|].
  split_and!; [lia|done| |].
  - intros c [Hc Hlen]%Hall. split; [done|lia].
  - intros n Hlen. specialize (Hn (N.to_nat n)). lia.
Qed.

Lemma concat_length_le {A} (ls : list (list A)) n :
  (∀ l, l ∈ ls → (length l ≤ n)%nat) → (length (concat ls) ≤ length ls * n)%nat.
Proof.
  induction ls as [|l ls IH]; intros Hall; [done|]. cbn. rewrite length_app.
  pose proof (Hall l ltac:(left)). pose proof (IH ltac:(intros l' ?; apply Hall; by right)). lia.
Qed.

(** ** Lemmas on sorted lists and prefixes *)

(** ** Sublists *)
Lemma StronglySorted_sublist {A} (R : relation A) l1 l2 :
  l1 `sublist_of` l2 → StronglySorted R l2 → StronglySorted R l1.
Proof.
  induction 1 as [|x l1 l2 Hsub IH|x l1 l2 _ IH]; intros Hs; [constructor| |].
  - apply StronglySorted_inv in Hs as [Hs Hx]. constructor; [auto|].
    rewrite Forall_forall in *. intros y Hy. apply Hx. by eapply elem_of_sublist.
  - apply StronglySorted_inv in Hs as [Hs _]. auto.
Qed.

Lemma prefix_sublist {A} (l1 l2 : list A) : l1 `prefix_of` l2 → l1 `sublist_of` l2.
Proof. intros [k ->]. by apply sublist_inserts_r. Qed.

Lemma prefix_omap {A B} (f : A → option B) l1 l2 : l1 `prefix_of` l2 → omap f l1 `prefix_of` omap f l2.
Proof. intros [k ->]. rewrite omap_app. by eexists. Qed.

Lemma StronglySorted_rev {A} (R : relation A) l : StronglySorted R l → StronglySorted (flip R) (rev l).
Proof.
  induction 1 as [|x l _ IH Hx]; simpl; [constructor|]. apply StronglySorted_app_2; [|done|].
  - intros y z Hy ->%list_elem_of_singleton. rewrite Forall_forall in Hx. apply Hx. by apply elem_of_rev.
  - by repeat constructor.
Qed.

Lemma rev_prefix_sublist {A} (l1 l2 : list A) : l1 `prefix_of` l2 → rev l1 `sublist_of` rev l2.
Proof. intros [k ->]. rewrite rev_app_distr. by apply sublist_inserts_l. Qed.

Lemma prefix_length_eq {A} (l1 l2 : list A) : l1 `prefix_of` l2 → length l1 = length l2 → l1 = l2.
Proof. intros [k ->]. rewrite length_app. intros Hl. destruct k; [by rewrite app_nil_r|simpl in Hl; lia]. Qed.

Lemma prefix_fmap {A B} (f : A → B) (l1 l2 : list A) : l1 `prefix_of` l2 → f <$> l1 `prefix_of` f <$> l2.
Proof. intros [k ->]. rewrite fmap_app. by eexists. Qed.

Lemma StronglySorted_lt_NoDup {A} (f : A → N) l : StronglySorted (λ a b, f a < f b) l → NoDup l.
Proof.
  induction 1 as [|x l _ IH Hx]; constructor; [|done]. intros Hin.
  rewrite Forall_forall in Hx. specialize (Hx x Hin). simpl in Hx. lia.
Qed.

Lemma sorted_lookup_lt {A} (f : A → N) (l : list A) i k x y :
  StronglySorted (λ a b, f a < f b) l → (i < k)%nat → l !! i = Some x → l !! k = Some y → f x < f y.
Proof.
  intros Hs. revert i k. induction Hs as [|z l _ IH Hz]; intros i k Hik Hi Hk; [done|].
  destruct k as [|k]; [lia|]. rewrite Forall_forall in Hz. destruct i as [|i]; simplify_eq/=.
  - apply Hz. by eapply list_elem_of_lookup_2.
  - apply (IH i k); [lia|done..].
Qed.

Lemma StronglySorted_lookup_intro {A} (R : relation A) (l : list A) :
  (∀ i j x y, (i < j)%nat → l !! i = Some x → l !! j = Some y → R x y) → StronglySorted R l.
Proof.
  induction l as [|x l IH]; intros Hl; constructor.
  - apply IH. intros i j y z Hij. apply (Hl (S i) (S j)). lia.
  - apply Forall_forall. intros y (j & Hj)%list_elem_of_lookup. apply (Hl 0%nat (S j)); [lia|done..].
Qed.

(** ** Lemmas on ordered collections *)

Section btree.
Context `{Countable K, !Ord K, !OrdLaws K}.
Implicit Types (s : gset K).

Lemma elem_of_bt_elements s k : k ∈ bt_elements s ↔ k ∈ s.
Proof. unfold bt_elements. by rewrite elem_of_sort_by, elem_of_elements. Qed.

Lemma NoDup_bt_elements s : NoDup (bt_elements s).
Proof. unfold bt_elements. rewrite sort_by_perm. apply NoDup_elements. Qed.

Lemma bt_elements_sorted s : StronglySorted (λ x y, ord_leb x y = true) (bt_elements s).
Proof. apply sort_by_sorted; [apply ord_total|apply ord_trans]. Qed.

(** Two sets with the same elements are enumerated in the same order. *)
Lemma bt_elements_unique s l :
  StronglySorted (λ x y, ord_leb x y = true) l → NoDup l →
  (∀ k, k ∈ l ↔ k ∈ s) → l = bt_elements s.
Proof.
  intros Hs Hnd Hl. eapply StronglySorted_unique_strong;
    [|exact Hs|apply bt_elements_sorted|].
  - intros x y _ _. apply ord_antisym.
  - apply NoDup_Permutation; [done|apply NoDup_bt_elements|].
    intros k. by rewrite Hl, elem_of_bt_elements.
Qed.

Lemma bt_last_Some s k :
  bt_last s = Some k → k ∈ s ∧ ∀ k', k' ∈ s → ord_leb k' k = true.
Proof.
  unfold bt_last. intros Hl. apply last_Some in Hl as [l Hl]. split.
  - apply elem_of_bt_elements. rewrite Hl. set_solver.
  - intros k'. rewrite <-elem_of_bt_elements, Hl, elem_of_app, list_elem_of_singleton.
    pose proof (bt_elements_sorted s) as Hs. rewrite Hl, StronglySorted_app in Hs.
    destruct Hs as [Hs _]. intros [Hk'| ->]; [|apply ord_refl].
    apply Hs; set_solver.
Qed.

Lemma bt_last_None s : bt_last s = None ↔ s = ∅.
Proof.
  unfold bt_last. rewrite last_None. split.
  - intros Hs. apply set_eq. intros k. rewrite <-elem_of_bt_elements, Hs. set_solver.
  - intros ->. apply list_nil_subseteq. intros k. rewrite elem_of_bt_elements. set_solver.
Qed.

Lemma bt_first_Some s k :
  bt_first s = Some k → k ∈ s ∧ ∀ k', k' ∈ s → ord_leb k k' = true.
Proof.
  unfold bt_first. pose proof (bt_elements_sorted s) as Hs.
  pose proof (elem_of_bt_elements s) as He.
  destruct (bt_elements s) as [|k0 l]; [done|]. intros [= ->].
  split; [apply He; left|]. intros k'. rewrite <-He. rewrite elem_of_cons.
  intros [->|Hk']; [apply ord_refl|].
  apply StronglySorted_cons in Hs as [Hs _]. by eapply Forall_forall in Hs.
Qed.

Lemma bt_first_None s : bt_first s = None ↔ s = ∅.
Proof.
  unfold bt_first. rewrite head_None. split.
  - intros Hs. apply set_eq. intros k. rewrite <-elem_of_bt_elements, Hs. set_solver.
  - intros ->. apply list_nil_subseteq. intros k. rewrite elem_of_bt_elements. set_solver.
Qed.

Context {V : Type}.
Implicit Types (m : gmap K V).

Lemma elem_of_bt_items m k v : (k, v) ∈ bt_items m ↔ m !! k = Some v.
Proof. unfold bt_items. by rewrite elem_of_sort_by, elem_of_map_to_list. Qed.

Lemma bt_items_keys_NoDup m : NoDup (bt_items m).*1.
Proof. unfold bt_items. rewrite sort_by_perm. apply NoDup_fst_map_to_list. Qed.

Lemma bt_items_sorted m : StronglySorted (λ p q, ord_leb p.1 q.1 = true) (bt_items m).
Proof. apply sort_by_sorted; intros *; [apply ord_total|apply ord_trans]. Qed.

Lemma bt_first_key_value_Some m k v :
  bt_first_key_value m = Some (k, v) → m !! k = Some v ∧ ∀ k' v', m !! k' = Some v' → ord_leb k k' = true.
Proof.
  unfold bt_first_key_value. pose proof (bt_items_sorted m) as Hs. pose proof (elem_of_bt_items m) as He.
  destruct (bt_items m) as [|p l]; [done|]. intros [= ->].
  split; [apply He; left|]. intros k' v' Hk'%He. apply elem_of_cons in Hk' as [[= -> ->]|Hk']; [apply ord_refl|].
  apply StronglySorted_cons in Hs as [Hs _]. rewrite Forall_forall in Hs. by apply (Hs _ Hk').
Qed.

Lemma bt_first_key_value_None m : bt_first_key_value m = None ↔ m = ∅.
Proof.
  unfold bt_first_key_value. rewrite head_None. split.
  - intros Hs. apply map_eq. intros k. rewrite lookup_empty. destruct (m !! k) eqn:Hk; [|done].
    apply elem_of_bt_items in Hk. rewrite Hs in Hk. by apply not_elem_of_nil in Hk.
  - intros ->. apply list_nil_subseteq. intros [k v]. rewrite elem_of_bt_items, lookup_empty. done.
Qed.

(** The items of a map are the only sorted list of its pairs. *)
Lemma bt_items_unique m l :
  StronglySorted (λ p q : K * V, ord_leb p.1 q.1 = true) l → NoDup l.*1 →
  (∀ k v, (k, v) ∈ l ↔ m !! k = Some v) → l = bt_items m.
Proof.
  intros Hs Hnd Hl. eapply StronglySorted_unique_strong; [|exact Hs|apply bt_items_sorted|].
  - intros [k1 v1] [k2 v2] H1%Hl H2%elem_of_bt_items Hle Hge. simpl in *.
    rewrite (ord_antisym _ _ Hle Hge) in *. congruence.
  - apply NoDup_Permutation; [by eapply NoDup_fmap_1|eapply NoDup_fmap_1, bt_items_keys_NoDup|].
    intros [k v]. by rewrite Hl, elem_of_bt_items.
Qed.

Lemma elem_of_bt_values m v : v ∈ bt_values m ↔ ∃ k, m !! k = Some v.
Proof.
  unfold bt_values. rewrite list_elem_of_fmap. split.
  - intros ([k v'] & -> & Hk%elem_of_bt_items). eauto.
  - intros [k Hk]. exists (k, v). by rewrite elem_of_bt_items.
Qed.

Lemma bt_range_Ok lo hi m l k v :
  bt_range lo hi m = Ok l →
  (k, v) ∈ l ↔ in_range lo hi k = true ∧ m !! k = Some v.
Proof.
  unfold bt_range. intros Hl. inv_ok. by rewrite list_elem_of_filter, elem_of_bt_items.
Qed.

Lemma bt_range_NoDup lo hi m l : bt_range lo hi m = Ok l → NoDup l.*1.
Proof.
  unfold bt_range. intros Hl. inv_ok. eapply sublist_NoDup; [apply (bt_items_keys_NoDup m)|].
  apply fmap_sublist, sublist_filter.
Qed.

Lemma bt_range_valid lo hi m :
  range_valid lo hi = true → ∃ l, bt_range lo hi m = Ok l.
Proof. unfold bt_range. intros ->. simpl. eauto. Qed.
End btree.
