(* ===== verification/Committee.v ===== *)
(** The committee of an epoch ([consensus/config/src/committee.rs]): authorities and
    their stake, the quorum (2f+1) and validity (f+1) thresholds, and the arithmetic
    every safety argument of the consensus rests on, that two quorums share authorities
    of at least validity stake. *)

From stdpp Require Import base strings numbers gmap sets list.
From Stdlib Require Import Strings.Byte.
From S2P Require Import Prelude.

Open Scope N_scope.

(** Addresses, names and keys are opaque to the consensus logic; keys are the bytes of
    their serialized form. *)
Abbreviation bytes := (list Byte.byte).

(** The [k] low bytes of a number, in little-endian order ([to_le_bytes]). *)
Fixpoint le_bytes (k : nat) (x : N) : bytes :=
  match k with
  | O => []
  | S k =>
      match Byte.of_N (N.land x 255) with Some b => b | None => Byte.x00 end :: le_bytes k (N.shiftr x 8)
  end.

Abbreviation Epoch := N (only parsing).
Abbreviation Stake := N (only parsing).
Abbreviation AuthorityIndex := N (only parsing).

Record Authority := mkAuthority {
  stake : Stake;
  address : string;
  hostname : string;
  authority_key : bytes;
  protocol_key : bytes;
  network_key : bytes;
}.

Record Committee := mkCommittee {
  epoch : Epoch;
  total_stake : Stake;
  quorum_threshold : Stake;
  validity_threshold : Stake;
  authorities : list Authority;
}.

(** [authorities.iter().map(|a| a.stake).sum()], in [u64]. *)
Definition sum_stakes (l : list Authority) : Stake :=
  foldl (λ acc a, acc +u64 stake a) 0 l.

Definition committee_new (epoch : Epoch) (authorities : list Authority) : outcome Committee :=
  _ ← assert_ (negb (N.of_nat (length authorities) =? 0)) "Committee cannot be empty!";
  _ ← assert_ (N.of_nat (length authorities) <? U32_MAX) "Too many authorities";
  let total_stake := sum_stakes authorities in
  _ ← assert_ (negb (total_stake =? 0)) "Total stake cannot be zero!";
  let quorum_threshold := (2 *u64 total_stake) / 3 +u64 1 in
  let validity_threshold := (total_stake +u64 2) / 3 in
  Ok (mkCommittee epoch total_stake quorum_threshold validity_threshold authorities).

(** [Committee::size]. *)
Definition committee_size (c : Committee) : N := N.of_nat (length (authorities c)).

(** [Committee::authority]. *)
Definition committee_authority (c : Committee) (authority_index : AuthorityIndex) :
    outcome Authority :=
  vec_index (authorities c) authority_index.

(** [Committee::stake]. *)
Definition committee_stake (c : Committee) (authority_index : AuthorityIndex) :
    outcome Stake :=
  a ← vec_index (authorities c) authority_index; Ok (stake a).

(** [Committee::authorities]: the authorities with their indices. *)
Definition committee_authorities (c : Committee) : list (AuthorityIndex * Authority) :=
  imap (λ i a, (N.of_nat i, a)) (authorities c).

Definition reached_quorum (c : Committee) (stake : Stake) : bool :=
  quorum_threshold c <=? stake.

Definition reached_validity (c : Committee) (stake : Stake) : bool :=
  validity_threshold c <=? stake.

Definition to_authority_index (c : Committee) (index : N) : option AuthorityIndex :=
  if index <? committee_size c then Some index else None.

Definition is_valid_index (c : Committee) (index : AuthorityIndex) : bool :=
  index <? committee_size c.

(** ** Stake of a set of authorities *)

Fixpoint sum_N {A} (f : A → N) (l : list A) : N :=
  match l with [] => 0 | x :: l => f x + sum_N f l end.

(** The stake of an index, 0 for one that is not in the committee. *)
Definition stake_of (c : Committee) (i : AuthorityIndex) : N :=
  from_option stake 0 (authorities c !! N.to_nat i).

Definition indices (c : Committee) : list AuthorityIndex :=
  N.of_nat <$> seq 0 (length (authorities c)).

(** The stake of the authorities in [s]. *)
Definition set_stake (c : Committee) (s : gset AuthorityIndex) : N :=
  sum_N (λ i, if decide (i ∈ s) then stake_of c i else 0) (indices c).

(** What [committee_new] establishes when the stakes do not overflow. *)
Record committee_wf (c : Committee) : Prop := {
  wf_total : total_stake c = sum_N stake (authorities c);
  wf_quorum : quorum_threshold c = 2 * total_stake c / 3 + 1;
  wf_validity : validity_threshold c = (total_stake c + 2) / 3;
  wf_positive : 0 < total_stake c;
  wf_bound : 2 * total_stake c + 2 < 2 ^ 64;
  wf_size : committee_size c < U32_MAX;
}.

Lemma sum_N_ext {A} (f g : A → N) l : (∀ x, x ∈ l → f x = g x) → sum_N f l = sum_N g l.
Proof.
  induction l as [|x l IH]; intros Hfg; simpl; [done|].
  rewrite (Hfg x), IH; [done| |left]. intros y ?. apply Hfg. by right.
Qed.

Lemma sum_N_perm {A} (f : A → N) l l' : l ≡ₚ l' → sum_N f l = sum_N f l'.
Proof. induction 1; simpl; lia. Qed.

Lemma sum_N_zero {A} (f : A → N) l : (∀ x, x ∈ l → f x = 0) → sum_N f l = 0.
Proof.
  induction l as [|x l IH]; intros Hf; simpl; [done|].
  rewrite (Hf x), IH; [done| |left]. intros y ?. apply Hf. by right.
Qed.

Lemma sum_N_mono {A} (f g : A → N) l : (∀ x, x ∈ l → f x ≤ g x) → sum_N f l ≤ sum_N g l.
Proof.
  induction l as [|x l IH]; intros Hfg; simpl; [done|].
  apply N.add_le_mono; [apply Hfg; left|apply IH]. intros y ?. apply Hfg. by right.
Qed.

Lemma sum_N_add {A} (f g : A → N) l : sum_N (λ x, f x + g x) l = sum_N f l + sum_N g l.
Proof. induction l as [|x l IH]; simpl; [done|]. rewrite IH. lia. Qed.

Lemma sum_N_fmap {A B} (h : A → B) (f : B → N) l : sum_N f (h <$> l) = sum_N (f ∘ h) l.
Proof. induction l as [|x l IH]; [done|]. rewrite fmap_cons. simpl. by rewrite IH. Qed.

Lemma sum_indicator {A} (P : A → Prop) `{∀ x, Decision (P x)} l :
  sum_N (λ x, if decide (P x) then 1 else 0) l = N.of_nat (length (filter P l)).
Proof.
  induction l as [|x l IH]; [done|]. simpl. rewrite filter_cons, IH.
  destruct (decide (P x)); simpl; lia.
Qed.

Lemma sum_N_singleton (f : N → N) a l :
  NoDup l → a ∈ l → sum_N (λ i, if decide (i = a) then f i else 0) l = f a.
Proof.
  induction 1 as [|x l Hx Hnd IH]; [by rewrite elem_of_nil|].
  rewrite elem_of_cons. simpl. destruct (decide (x = a)) as [->|Hne].
  - intros _. rewrite sum_N_zero; [lia|].
    intros y Hy. rewrite decide_False; [done|]. by intros ->.
  - intros [?|Ha]; [done|]. rewrite IH by done. lia.
Qed.

Lemma sum_N_lookup {A} (f : A → N) (l : list A) :
  sum_N f l = sum_N (λ i, from_option f 0 (l !! i)) (seq 0 (length l)).
Proof.
  induction l as [|x l IH]; [done|].
  change (seq 0 (length (x :: l))) with (0%nat :: seq 1 (length l)).
  rewrite <-fmap_S_seq. simpl. rewrite sum_N_fmap. f_equal. rewrite IH. done.
Qed.

Lemma sum_stakes_spec l :
  sum_N stake l < 2 ^ 64 → sum_stakes l = sum_N stake l.
Proof.
  unfold sum_stakes.
  assert (∀ acc, acc + sum_N stake l < 2 ^ 64 →
    foldl (λ acc a, acc +u64 stake a) acc l = acc + sum_N stake l) as Hgen.
  { induction l as [|a l IH]; intros acc Hacc; simpl in *; [lia|].
    rewrite u64_add_small by lia. rewrite IH; lia. }
  intros Hl. rewrite Hgen; lia.
Qed.

(** [new] returns for any non-empty committee with stake, and its thresholds are the
    ones of the unbounded integers. *)
Lemma committee_new_Ok e l :
  l ≠ [] → N.of_nat (length l) < U32_MAX → 0 < sum_N stake l →
  2 * sum_N stake l + 2 < 2 ^ 64 →
  ∃ c, committee_new e l = Ok c ∧ committee_wf c ∧ authorities c = l ∧ epoch c = e.
Proof.
  intros Hne Hlen Hpos Hb. unfold committee_new.
  rewrite sum_stakes_spec by lia.
  assert (N.of_nat (length l) =? 0 = false) as ->
    by (apply N.eqb_neq; destruct l; simpl in *; [done|lia]).
  assert (N.of_nat (length l) <? U32_MAX = true) as -> by by apply N.ltb_lt.
  assert (sum_N stake l =? 0 = false) as -> by (apply N.eqb_neq; lia).
  simpl. eexists. split; [done|]. rewrite !u64_mul_small by lia.
  assert (2 * sum_N stake l / 3 ≤ 2 * sum_N stake l) by (apply N.Div0.div_le_upper_bound; lia).
  rewrite !u64_add_small by lia.
  split; [|done]. split; simpl; try done.
Qed.

Lemma elem_of_indices c i : i ∈ indices c ↔ i < committee_size c.
Proof.
  unfold indices, committee_size. rewrite list_elem_of_fmap. split.
  - intros (k & -> & ?%elem_of_seq). lia.
  - intros ?. exists (N.to_nat i). rewrite elem_of_seq. lia.
Qed.

Lemma NoDup_indices c : NoDup (indices c).
Proof. apply NoDup_fmap; [intros ???; lia|apply NoDup_seq]. Qed.

Lemma committee_stake_Ok c i : i < committee_size c → committee_stake c i = Ok (stake_of c i).
Proof.
  unfold committee_size, committee_stake, stake_of. intros Hi.
  destruct (vec_index_lt (authorities c) i Hi) as [a Ha]. rewrite Ha. simpl.
  apply vec_index_Ok in Ha. by rewrite Ha.
Qed.

Lemma committee_stake_inv c i s :
  committee_stake c i = Ok s → i < committee_size c ∧ s = stake_of c i.
Proof.
  unfold committee_stake, stake_of, committee_size. intros Hs. inv_ok.
  match goal with H : _ !! _ = Some _ |- _ => rewrite H; apply lookup_lt_Some in H end.
  split; [lia|done].
Qed.

Lemma total_stake_indices c :
  committee_wf c → total_stake c = sum_N (stake_of c) (indices c).
Proof.
  intros Hc. rewrite (wf_total _ Hc), sum_N_lookup. unfold indices. rewrite sum_N_fmap.
  apply sum_N_ext. intros i _. unfold stake_of, compose. by rewrite Nat2N.id.
Qed.

Lemma set_stake_mono c s1 s2 : s1 ⊆ s2 → set_stake c s1 ≤ set_stake c s2.
Proof.
  intros Hs. apply sum_N_mono. intros i _.
  destruct (decide (i ∈ s1)), (decide (i ∈ s2)); try lia. set_solver.
Qed.

Lemma set_stake_union_inter c s1 s2 :
  set_stake c s1 + set_stake c s2 = set_stake c (s1 ∪ s2) + set_stake c (s1 ∩ s2).
Proof.
  unfold set_stake. rewrite <-!sum_N_add. apply sum_N_ext. intros i _.
  destruct (decide (i ∈ s1)), (decide (i ∈ s2)), (decide (i ∈ s1 ∪ s2)),
    (decide (i ∈ s1 ∩ s2)); try lia; set_solver.
Qed.

Lemma set_stake_le_total c s : committee_wf c → set_stake c s ≤ total_stake c.
Proof.
  intros Hc. rewrite total_stake_indices by done. apply sum_N_mono. intros i _.
  destruct (decide (i ∈ s)); lia.
Qed.

Lemma set_stake_empty c : set_stake c ∅ = 0.
Proof.
  unfold set_stake. apply sum_N_zero. intros i _. rewrite decide_False; set_solver.
Qed.

Lemma set_stake_insert c a s :
  a < committee_size c → a ∉ s → set_stake c ({[a]} ∪ s) = stake_of c a + set_stake c s.
Proof.
  intros Ha Hs. rewrite <-(sum_N_singleton (stake_of c) a (indices c));
    [|apply NoDup_indices|by apply elem_of_indices].
  unfold set_stake. rewrite <-sum_N_add. apply sum_N_ext. intros i _.
  destruct (decide (i = a)), (decide (i ∈ s)), (decide (i ∈ {[a]} ∪ s)); try lia; set_solver.
Qed.

Lemma set_stake_inter_valid c s (v : gset N) :
  (∀ i, i < committee_size c → i ∈ s → i ∈ v) → set_stake c s ≤ set_stake c (s ∩ v).
Proof.
  intros Hv. apply sum_N_mono. intros i Hi%elem_of_indices.
  destruct (decide (i ∈ s)), (decide (i ∈ s ∩ v)); try lia. set_solver.
Qed.

Lemma set_stake_pos_elem c s :
  0 < set_stake c s → ∃ i, i ∈ s ∧ i < committee_size c.
Proof.
  intros Hs.
  destruct (set_choose_or_empty (s ∩ list_to_set (indices c))) as [[i Hi]|He].
  - apply elem_of_intersection in Hi as [His Hi].
    apply elem_of_list_to_set, elem_of_indices in Hi. eauto.
  - exfalso. unfold set_stake in Hs. rewrite sum_N_zero in Hs; [lia|].
    intros i Hi. rewrite decide_False; [done|]. set_solver.
Qed.

(** The two thresholds complement each other: q + v = total + 1. *)
Lemma thresholds_complement c :
  committee_wf c →
  quorum_threshold c + validity_threshold c = total_stake c + 1 ∧
  2 * validity_threshold c ≤ quorum_threshold c + 1.
Proof.
  intros Hc. rewrite (wf_quorum _ Hc), (wf_validity _ Hc).
  set (t := total_stake c). pose proof (N.div_mod t 3 ltac:(lia)) as Ht.
  pose proof (N.mod_lt t 3 ltac:(lia)) as Hm.
  set (k := t / 3) in *. set (m := t mod 3) in *. clearbody k m.
  assert (m = 0 ∨ m = 1 ∨ m = 2) as Hcase by lia.
  destruct Hcase as [->|[->| ->]].
  - replace (2 * t) with (2 * k * 3) by lia. replace (t + 2) with (2 + k * 3) by lia.
    rewrite N.div_mul, N.div_add by lia. change (2 / 3) with 0. lia.
  - replace (2 * t) with (2 + 2 * k * 3) by lia. replace (t + 2) with (0 + (k + 1) * 3) by lia.
    rewrite !N.div_add by lia. change (2 / 3) with 0. change (0 / 3) with 0. lia.
  - replace (2 * t) with (1 + (2 * k + 1) * 3) by lia.
    replace (t + 2) with (1 + (k + 1) * 3) by lia.
    rewrite !N.div_add by lia. change (1 / 3) with 0. lia.
Qed.

(** Quorum intersection, the form used by the components. *)
Lemma quorum_overlap c s1 s2 :
  committee_wf c →
  reached_quorum c (set_stake c s1) = true → reached_quorum c (set_stake c s2) = true →
  validity_threshold c ≤ set_stake c (s1 ∩ s2).
Proof.
  unfold reached_quorum. rewrite !N.leb_le. intros Hc H1 H2.
  pose proof (set_stake_union_inter c s1 s2).
  pose proof (set_stake_le_total c (s1 ∪ s2) Hc).
  pose proof (thresholds_complement c Hc). lia.
Qed.

Lemma set_stake_diff c s byz : set_stake c s ≤ set_stake c (s ∖ byz) + set_stake c byz.
Proof.
  unfold set_stake. rewrite <-sum_N_add. apply sum_N_mono. intros i _.
  destruct (decide (i ∈ s)), (decide (i ∈ s ∖ byz)), (decide (i ∈ byz)); try lia. set_solver.
Qed.

(** A quorum meets any other quorum in an authority outside a set of less than
    validity stake. *)
Lemma quorum_overlap_honest c s1 s2 byz :
  committee_wf c → set_stake c byz < validity_threshold c →
  reached_quorum c (set_stake c s1) = true → reached_quorum c (set_stake c s2) = true →
  ∃ a, a ∈ s1 ∧ a ∈ s2 ∧ a ∉ byz ∧ a < committee_size c.
Proof.
  intros Hc Hbyz H1 H2. pose proof (quorum_overlap c s1 s2 Hc H1 H2) as Hq.
  destruct (set_stake_pos_elem c ((s1 ∩ s2) ∖ byz)) as (a & Ha & ?); [|set_solver].
  pose proof (set_stake_diff c (s1 ∩ s2) byz). lia.
Qed.

#[export] Hint Resolve set_stake_le_total set_stake_mono : rust.

(** ** What the thresholds are for *)

(** What is not byzantine has the rest of the stake. *)
Lemma honest_stake c byz s :
  committee_wf c → (∀ a, a < committee_size c → a ∉ byz → a ∈ s) →
  total_stake c ≤ set_stake c s + set_stake c byz.
Proof.
  intros Hc Hs. rewrite total_stake_indices by done. unfold set_stake. rewrite <-sum_N_add.
  apply sum_N_mono. intros i Hi%elem_of_indices.
  destruct (decide (i ∈ s)), (decide (i ∈ byz)); try lia. exfalso. auto.
Qed.

(** C34: [Committee::new] returns for any non-empty committee with stake.  With byzantine
    authorities of less than [validity_threshold], any two quorums share an honest
    authority, the honest authorities alone are a quorum, and any set of validity has an
    honest authority. *)
Theorem committee_new_quorums e l :
  l ≠ [] → N.of_nat (length l) < U32_MAX → 0 < sum_N stake l → 2 * sum_N stake l + 2 < 2 ^ 64 →
  ∃ c, committee_new e l = Ok c ∧ authorities c = l ∧ epoch c = e ∧
    ∀ byz, set_stake c byz < validity_threshold c →
      (∀ s1 s2, reached_quorum c (set_stake c s1) = true → reached_quorum c (set_stake c s2) = true →
         ∃ a, a ∈ s1 ∧ a ∈ s2 ∧ a ∉ byz ∧ a < committee_size c) ∧
      (∀ s, (∀ a, a < committee_size c → a ∉ byz → a ∈ s) → reached_quorum c (set_stake c s) = true) ∧
      (∀ s, reached_validity c (set_stake c s) = true → ∃ a, a ∈ s ∧ a ∉ byz ∧ a < committee_size c).
Proof.
  intros Hne Hlen Hpos Hb. destruct (committee_new_Ok e l Hne Hlen Hpos Hb) as (c & Hnew & Hc & Ha & He).
  exists c. split_and!; [done..|]. intros byz Hbyz. split_and!.
  - intros s1 s2 H1 H2. by apply quorum_overlap_honest.
  - intros s Hs. apply N.leb_le. pose proof (honest_stake c byz s Hc Hs).
    pose proof (thresholds_complement c Hc). lia.
  - intros s Hs. unfold reached_validity in Hs. apply N.leb_le in Hs.
    destruct (set_stake_pos_elem c (s ∖ byz)) as (a & [? ?]%elem_of_difference & ?); [|by exists a].
    pose proof (set_stake_diff c s byz). lia.
Qed.

(** [Committee::new] refuses a committee with no authorities, with too many, or
    without stake. *)
Lemma committee_new_refuses e l :
  l = [] ∨ U32_MAX ≤ N.of_nat (length l) ∨ (∀ a, a ∈ l → stake a = 0) →
  ∃ msg, committee_new e l = Panic msg.
Proof.
  intros Hbad. unfold committee_new.
  destruct (N.of_nat (length l) =? 0) eqn:H0; [by eexists|]. simpl.
  destruct (N.of_nat (length l) <? U32_MAX) eqn:H1; [|by eexists]. simpl. reflect_bools.
  assert (sum_stakes l = 0) as ->; [|by eexists].
  destruct Hbad as [->|[?|Hz]]; [done|lia|].
  rewrite sum_stakes_spec; rewrite (sum_N_zero _ _ Hz); done.
Qed.
