(* ===== verification/Block.v ===== *)
(** Blocks of the DAG ([consensus/core/src/block.rs]), the per-epoch context
    ([consensus/core/src/context.rs]) and the errors of [consensus/core/src/error.rs]
    that block processing raises.

    A digest is a 32-byte array compared lexicographically; it is modelled as the
    big-endian number of its bytes, between [DIGEST_MIN] and [DIGEST_MAX].  The BCS
    serializer, the Blake2b hash and the Ed25519 signatures are libraries: they are the
    operations of the class [Crypto] that the definitions below take as an argument. *)

From Stdlib Require Import Strings.Byte.
From stdpp Require Import base strings numbers gmap sets list.
From S2P Require Import Prelude Committee.

Open Scope N_scope.

Abbreviation Round := N (only parsing).
Abbreviation BlockTimestampMs := N (only parsing).
Abbreviation BlockDigest := N (only parsing).
Abbreviation CommitDigest := N (only parsing).
Abbreviation CommitIndex := N (only parsing).

Definition GENESIS_ROUND : Round := 0.

Definition DIGEST_MIN : N := 0.
Definition DIGEST_MAX : N := 2 ^ 256 - 1.

(** ** References and slots *)

Record BlockRef := mkBlockRef {
  br_round : Round;
  br_author : AuthorityIndex;
  br_digest : BlockDigest;
}.

Record Slot := mkSlot {
  slot_round : Round;
  slot_authority : AuthorityIndex;
}.

(** [CommitRef], and [CommitVote] which is the same type, of [commit.rs]. *)
Record CommitRef := mkCommitRef {
  cr_index : CommitIndex;
  cr_digest : CommitDigest;
}.

#[export] Instance BlockRef_eq_dec : EqDecision BlockRef.
Proof. solve_decision. Defined.

#[export] Instance Slot_eq_dec : EqDecision Slot.
Proof. solve_decision. Defined.

#[export] Instance CommitRef_eq_dec : EqDecision CommitRef.
Proof. solve_decision. Defined.

Definition ref_tuple (r : BlockRef) : Round * AuthorityIndex * BlockDigest :=
  (br_round r, br_author r, br_digest r).

#[export] Instance BlockRef_countable : Countable BlockRef.
Proof.
  refine (inj_countable' ref_tuple (λ '(r, a, d), mkBlockRef r a d) _). by intros [].
Defined.

#[export] Instance CommitRef_countable : Countable CommitRef.
Proof.
  refine (inj_countable' (λ c, (cr_index c, cr_digest c)) (λ '(i, d), mkCommitRef i d) _).
  by intros [].
Defined.

(** The derived [Ord] of [BlockRef]: round, then author, then digest. *)
#[export] Instance BlockRef_ord : Ord BlockRef := λ r1 r2,
  ord_leb (ref_tuple r1) (ref_tuple r2).

#[export] Instance BlockRef_ord_laws : OrdLaws BlockRef.
Proof.
  split; unfold ord_leb, BlockRef_ord; intros *.
  - apply ord_total.
  - apply ord_trans.
  - intros H1 H2. pose proof (ord_antisym _ _ H1 H2) as Heq.
    destruct x, y. by simplify_eq/=.
Qed.

(** [impl From<BlockRef> for Slot]. *)
Definition slot_of_ref (r : BlockRef) : Slot := mkSlot (br_round r) (br_author r).

(** The values of the machine types: a [u32] round and author and a 32-byte digest. *)
Definition ref_in_bounds (r : BlockRef) : Prop :=
  br_round r ≤ U32_MAX ∧ br_author r ≤ U32_MAX ∧ br_digest r ≤ DIGEST_MAX.

(** ** Blocks *)

Record Transaction := mkTransaction { data : bytes }.

Inductive MisbehaviorProof : Type :=
| InvalidBlock (r : BlockRef).

Record MisbehaviorReport := mkMisbehaviorReport {
  target : AuthorityIndex;
  proof : MisbehaviorProof;
}.

Record BlockV1 := mkBlockV1 {
  bv1_epoch : Epoch;
  bv1_round : Round;
  bv1_author : AuthorityIndex;
  bv1_timestamp_ms : BlockTimestampMs;
  bv1_ancestors : list BlockRef;
  bv1_transactions : list Transaction;
  bv1_commit_votes : list CommitRef;
  bv1_misbehavior_reports : list MisbehaviorReport;
}.

Inductive Block : Type :=
| V1 (b : BlockV1).

(** [BlockV1::genesis_block]. *)
Definition genesis_block (epoch : Epoch) (author : AuthorityIndex) : BlockV1 :=
  mkBlockV1 epoch GENESIS_ROUND author 0 [] [] [] [].

(** [impl BlockAPI for BlockV1], dispatched over the versions of [Block]. *)
Definition block_v1 (b : Block) : BlockV1 := match b with V1 b => b end.
Definition block_epoch (b : Block) : Epoch := bv1_epoch (block_v1 b).
Definition block_round (b : Block) : Round := bv1_round (block_v1 b).
Definition block_author (b : Block) : AuthorityIndex := bv1_author (block_v1 b).
Definition block_timestamp_ms (b : Block) : BlockTimestampMs := bv1_timestamp_ms (block_v1 b).
Definition block_ancestors (b : Block) : list BlockRef := bv1_ancestors (block_v1 b).
Definition block_transactions (b : Block) : list Transaction := bv1_transactions (block_v1 b).
Definition block_commit_votes (b : Block) : list CommitRef := bv1_commit_votes (block_v1 b).

Record SignedBlock := mkSignedBlock {
  inner : Block;
  signature : bytes;
}.

Record VerifiedBlock := mkVerifiedBlock {
  block : SignedBlock;
  digest : BlockDigest;
  serialized : bytes;
}.

(** Equality of blocks. *)
#[export] Instance byte_eq_decision : EqDecision Byte.byte := Byte.byte_eq_dec.
#[export] Instance Transaction_eq_dec : EqDecision Transaction.
Proof. solve_decision. Defined.
#[export] Instance MisbehaviorProof_eq_dec : EqDecision MisbehaviorProof.
Proof. solve_decision. Defined.
#[export] Instance MisbehaviorReport_eq_dec : EqDecision MisbehaviorReport.
Proof. solve_decision. Defined.
#[export] Instance BlockV1_eq_dec : EqDecision BlockV1.
Proof. solve_decision. Defined.
#[export] Instance Block_eq_dec : EqDecision Block.
Proof. solve_decision. Defined.
#[export] Instance SignedBlock_eq_dec : EqDecision SignedBlock.
Proof. solve_decision. Defined.
#[export] Instance VerifiedBlock_eq_dec : EqDecision VerifiedBlock.
Proof. solve_decision. Defined.

(** Accessors of [VerifiedBlock] through its [Deref] to [Block]. *)
Definition vb_round (b : VerifiedBlock) : Round := block_round (inner (block b)).
Definition vb_author (b : VerifiedBlock) : AuthorityIndex := block_author (inner (block b)).
Definition vb_timestamp_ms (b : VerifiedBlock) : BlockTimestampMs :=
  block_timestamp_ms (inner (block b)).
Definition vb_ancestors (b : VerifiedBlock) : list BlockRef :=
  block_ancestors (inner (block b)).
Definition vb_commit_votes (b : VerifiedBlock) : list CommitRef :=
  block_commit_votes (inner (block b)).

(** [VerifiedBlock::reference]. *)
Definition reference (b : VerifiedBlock) : BlockRef :=
  mkBlockRef (vb_round b) (vb_author b) (digest b).

(** [BlockAPI::slot]. *)
Definition vb_slot (b : VerifiedBlock) : Slot := mkSlot (vb_round b) (vb_author b).

(** ** Commits *)

Record CommitV1 := mkCommitV1 {
  cv1_index : CommitIndex;
  cv1_previous_digest : CommitDigest;
  cv1_timestamp_ms : BlockTimestampMs;
  cv1_leader : BlockRef;
  cv1_blocks : list BlockRef;
}.

Inductive Commit : Type :=
| CommitVersion1 (c : CommitV1).

(** ** Errors *)

Inductive ConsensusError : Type :=
| MalformedBlock (e : string)
| MalformedCommit (e : string)
| SerializationFailure (e : string)
| UnexpectedAuthority (author peer : AuthorityIndex)
| WrongEpoch (expected actual : Epoch)
| UnexpectedGenesisBlock
| UnexpectedGenesisBlockRequested
| UnexpectedNumberOfBlocksFetched (authority : AuthorityIndex) (requested received : N)
| UnexpectedFetchedBlock (index : AuthorityIndex) (block_ref : BlockRef)
| TooManyFetchedBlocksReturned (a : AuthorityIndex)
| TooManyFetchBlocksRequested (a : AuthorityIndex)
| InvalidSizeOfHighestAcceptedRounds (size committee_size : N)
| InvalidAuthorityIndex (index : AuthorityIndex) (max : N)
| MalformedSignature (e : string)
| SignatureVerificationFailure (e : string)
| SynchronizerSaturated (a : AuthorityIndex)
| BlockRejected (block_ref : BlockRef) (reason : string)
| InvalidAncestorPosition (block_authority ancestor_authority : AuthorityIndex) (position : N)
| InvalidAncestorRound (ancestor block : Round)
| InvalidGenesisAncestor (r : BlockRef)
| TooManyAncestors (n max : N)
| DuplicatedAncestorsAuthority (a : AuthorityIndex)
| InsufficientParentStakes (parent_stakes quorum : Stake)
| InvalidTransaction (e : string)
| InvalidBlockTimestamp (max_timestamp_ms block_timestamp_ms : BlockTimestampMs)
| NoAvailableAuthorityToFetchCommits
| NoCommitReceived (peer : AuthorityIndex)
| UnexpectedStartCommit (peer : AuthorityIndex) (start : CommitIndex) (commit : Commit)
| UnexpectedCommitSequence (peer : AuthorityIndex) (prev_commit curr_commit : Commit)
| NotEnoughCommitVotes (stake : Stake) (peer : AuthorityIndex) (commit : Commit)
| UnexpectedBlockForCommit (peer : AuthorityIndex) (requested received : BlockRef)
| RocksDBFailure (e : string)
| UnknownNetworkPeer (e : string)
| PeerDisconnected (e : string)
| NetworkConfig (e : string)
| NetworkClientConnection (e : string)
| NetworkServerConnection (e : string)
| NetworkRequest (e : string)
| NetworkRequestTimeout (e : string)
| Shutdown.

Abbreviation ConsensusResult A := (Result A ConsensusError).

(** [?] on a [ConsensusResult]. *)
Definition try_ {A B} (m : ConsensusResult A) (k : A → ConsensusResult B) : ConsensusResult B :=
  match m with RustOk a => k a | RustErr e => RustErr e end.

(** [Result::map_err]. *)
Definition map_err {A E F} (f : E → F) (m : Result A E) : Result A F :=
  match m with RustOk a => RustOk a | RustErr e => RustErr (f e) end.

(** ** Serialization and signatures *)

(** The intent a signature commits to ([shared_crypto::intent]). *)
Inductive IntentScope : Type :=
| TransactionData | TransactionEffects | CheckpointSummary | PersonalMessage
| SenderSignedTransaction | ProofOfPossession | HeaderDigest | BridgeEventUnused
| ConsensusBlock.

Inductive IntentVersion : Type := IntentV0.

Inductive AppId : Type := AppSui | AppNarwhal | AppConsensus.

Record Intent := mkIntent {
  scope : IntentScope;
  version : IntentVersion;
  app_id : AppId;
}.

Record IntentMessage := mkIntentMessage {
  intent : Intent;
  value : N;
}.

(** [Intent::consensus_app]. *)
Definition consensus_app (scope : IntentScope) : Intent := mkIntent scope IntentV0 AppConsensus.

(** The libraries block processing calls: BCS, Blake2b256 and Ed25519. *)
Class Crypto := {
  bcs_block : Block → Result bytes string;
  bcs_signed_block : SignedBlock → Result bytes string;
  bcs_intent_message : IntentMessage → Result bytes string;
  blake2b256 : bytes → N;
  signature_from_bytes : bytes → Result bytes string;
  ed25519_verify : bytes → bytes → bytes → Result () string;
}.

(** A keypair, by the signatures it makes. *)
Abbreviation ProtocolKeyPair := (bytes → bytes).

Section crypto.
Context `{Crypto}.

(** Computes the digest of a Block, only for signing and verifications. *)
Definition compute_inner_block_digest (b : Block) : ConsensusResult N :=
  try_ (map_err SerializationFailure (bcs_block b)) (λ bs, RustOk (blake2b256 bs)).

Definition to_consensus_block_intent (digest : N) : IntentMessage :=
  mkIntentMessage (consensus_app ConsensusBlock) digest.

Definition compute_block_signature (b : Block) (protocol_keypair : ProtocolKeyPair) :
    ConsensusResult bytes :=
  try_ (compute_inner_block_digest b) (λ digest,
  try_ (map_err SerializationFailure (bcs_intent_message (to_consensus_block_intent digest)))
    (λ message, RustOk (protocol_keypair message))).

Definition verify_block_signature (b : Block) (signature protocol_pubkey : bytes) :
    ConsensusResult () :=
  try_ (compute_inner_block_digest b) (λ digest,
  try_ (map_err SerializationFailure (bcs_intent_message (to_consensus_block_intent digest)))
    (λ message,
  try_ (map_err MalformedSignature (signature_from_bytes signature)) (λ sig,
  map_err SignatureVerificationFailure (ed25519_verify protocol_pubkey message sig)))).

Definition signed_block_new_genesis (b : Block) : SignedBlock := mkSignedBlock b [].

Definition signed_block_new (b : Block) (protocol_keypair : ProtocolKeyPair) :
    ConsensusResult SignedBlock :=
  try_ (compute_block_signature b protocol_keypair) (λ signature,
  RustOk (mkSignedBlock b signature)).

(** [VerifiedBlock::new_verified]. *)
Definition new_verified (signed_block : SignedBlock) (serialized : bytes) : VerifiedBlock :=
  mkVerifiedBlock signed_block (blake2b256 serialized) serialized.

End crypto.

(** ** Parameters *)

(** The operational parameters that the network components read; durations are in
    milliseconds. *)
Record Parameters := mkParameters {
  leader_timeout : N;
  min_round_delay : N;
  max_forward_time_drift : N;
  max_blocks_per_fetch : N;
  commit_sync_parallel_fetches : N;
  commit_sync_batch_size : N;
  commit_sync_batches_ahead : N;
}.

(** [Parameters::default], outside simulations. *)
Definition parameters_default : Parameters := mkParameters 250 50 500 1000 20 100 200.

(** ** Context *)

(** The per-epoch configuration: the fields of [Context], [Parameters] and
    [ProtocolConfig] that the modelled components read.  The clock is an argument of the
    operations that read it. *)
Record Context := mkContext {
  own_index : AuthorityIndex;
  committee : Committee;
  dag_state_cached_rounds : Round;
  min_round_delay_ms : N;
  mysticeti_leader_scoring_and_schedule : bool;
  consensus_bad_nodes_stake_threshold : N;
}.

Section genesis.
Context `{Crypto}.

(** [SignedBlock::verify_signature]. *)
Definition verify_signature (b : SignedBlock) (context : Context) :
    outcome (ConsensusResult ()) :=
  if negb (is_valid_index (committee context) (block_author (inner b))) then
    Ok (RustErr (InvalidAuthorityIndex (block_author (inner b))
                   (committee_size (committee context) - 1)))
  else
    authority ← committee_authority (committee context) (block_author (inner b));
    Ok (verify_block_signature (inner b) (signature b) (protocol_key authority)).

(** Generates the genesis blocks for the current Committee, in authority index order. *)
Definition genesis_blocks (context : Context) : outcome (list VerifiedBlock) :=
  mapM (λ '(authority_index, _),
    let signed_block := signed_block_new_genesis
      (V1 (genesis_block (epoch (committee context)) authority_index)) in
    match bcs_signed_block signed_block with
    | RustOk serialized => Ok (new_verified signed_block serialized)
    | RustErr _ => Panic "Genesis block serialization failed."
    end) (committee_authorities (committee context)).

(** Each genesis block has round 0, no ancestors, and the author of its position. *)
Lemma genesis_blocks_lookup context l i b :
  genesis_blocks context = Ok l → l !! i = Some b →
  vb_round b = GENESIS_ROUND ∧ vb_author b = N.of_nat i ∧ vb_ancestors b = [] ∧
  vb_timestamp_ms b = 0 ∧ N.of_nat i < committee_size (committee context).
Proof.
  unfold genesis_blocks. rewrite mapM_Ok. intros HF Hi.
  eapply Forall2_lookup_r in HF as ([j a] & Hj & Hb); [|exact Hi].
  unfold committee_authorities in Hj. rewrite list_lookup_imap in Hj.
  destruct (authorities (committee context) !! i) as [a'|] eqn:Ha; simplify_eq/=.
  apply lookup_lt_Some in Ha. unfold committee_size.
  destruct (bcs_signed_block _); simplify_eq/=. repeat split. lia.
Qed.

Lemma genesis_blocks_length context l :
  genesis_blocks context = Ok l → N.of_nat (length l) = committee_size (committee context).
Proof.
  unfold genesis_blocks. rewrite mapM_Ok. intros HF%Forall2_length.
  unfold committee_authorities in HF. rewrite length_imap in HF.
  unfold committee_size. lia.
Qed.
End genesis.

(** ** Lemmas on references *)

Lemma ref_leb_round r1 r2 : ord_leb r1 r2 = true → br_round r1 ≤ br_round r2.
Proof.
  unfold ord_leb, BlockRef_ord, ref_tuple.
  rewrite !ord_prod_leb; simpl. unfold ord_leb, ord_N. rewrite !N.leb_le. intuition.
Qed.

Lemma ref_leb_spec r1 r2 :
  ord_leb r1 r2 = true ↔
  br_round r1 < br_round r2 ∨
  (br_round r1 = br_round r2 ∧
    (br_author r1 < br_author r2 ∨
     (br_author r1 = br_author r2 ∧ br_digest r1 ≤ br_digest r2))).
Proof.
  unfold ord_leb, BlockRef_ord, ref_tuple.
  rewrite !ord_prod_leb; simpl. unfold ord_leb, ord_N. rewrite !N.leb_le. lia.
Qed.

(** The keys a slot query ranges over are those of the slot. *)
Lemma in_range_slot r rd a :
  ref_in_bounds r →
  in_range (Included (mkBlockRef rd a DIGEST_MIN)) (Included (mkBlockRef rd a DIGEST_MAX)) r
    = true ↔ br_round r = rd ∧ br_author r = a.
Proof.
  intros (_ & _ & Hd). unfold in_range.
  rewrite andb_true_iff, !ref_leb_spec; simpl. unfold DIGEST_MIN. lia.
Qed.

(** The keys a round query ranges over are those of the round. *)
Lemma in_range_round r rd :
  in_range (Included (mkBlockRef rd 0 DIGEST_MIN)) (Excluded (mkBlockRef (rd + 1) 0 DIGEST_MIN)) r
    = true ↔ br_round r = rd.
Proof.
  unfold in_range, ord_ltb.
  rewrite andb_true_iff, negb_true_iff, <-not_true_iff_false, !ref_leb_spec; simpl.
  unfold DIGEST_MIN. lia.
Qed.

Lemma reference_round b : br_round (reference b) = vb_round b.
Proof. done. Qed.

Lemma reference_author b : br_author (reference b) = vb_author b.
Proof. done. Qed.

#[export] Hint Rewrite reference_round reference_author : rust.
