(* ===== verification/Dag.v ===== *)
(** The DAG of blocks as a map from references to blocks: parents, history, and what it
    means for a set of blocks to be causally complete.  These notions are the specification
    side of the DAG state, the block manager, the committer and the linearizer. *)

From stdpp Require Import base strings numbers sorting gmap sets list relations.
From S2P Require Import Prelude Committee Block.

Open Scope N_scope.

Abbreviation dag := (gmap BlockRef VerifiedBlock).

(** [r2] is an ancestor named by the block [r1]. *)
Definition parent (V : dag) (r1 r2 : BlockRef) : Prop :=
  ∃ b, V !! r1 = Some b ∧ r2 ∈ vb_ancestors b.

(** [r2] is in the history of [r1], which includes [r1]. *)
Abbreviation history V := (rtc (parent V)).

(** Causally complete: the blocks are under their references, and the ancestors of each
    are present, in earlier rounds. *)
Record dag_closed (V : dag) : Prop := {
  dc_reference r b : V !! r = Some b → reference b = r;
  dc_bounds r b : V !! r = Some b → 0 < br_round r → ref_in_bounds r;
  dc_present r b a : V !! r = Some b → a ∈ vb_ancestors b → is_Some (V !! a);
  dc_round r b a : V !! r = Some b → a ∈ vb_ancestors b → br_round a < br_round r;
}.

(** A reference as a number, in the order of references. *)
Definition ref_code (r : BlockRef) : N :=
  (br_round r * 2 ^ 32 + br_author r) * 2 ^ 256 + br_digest r.

Lemma ref_code_bound r : ref_in_bounds r → ref_code r < 2 ^ N.of_nat LOOP_BITS.
Proof.
  intros (Hr & Ha & Hd). unfold ref_code, U32_MAX, DIGEST_MAX in *.
  change (2 ^ N.of_nat LOOP_BITS) with (2 ^ 32 * 2 ^ 32 * 2 ^ 256).
  assert (0 < 2 ^ 256) by done. change (2 ^ 32) with 4294967296 in *.
  assert (br_round r * 4294967296 + br_author r + 1 ≤ 4294967296 * 4294967296) by lia.
  generalize dependent (2 ^ 256). intros. nia.
Qed.

Lemma ref_code_pos r : 0 < br_round r → 0 < ref_code r.
Proof.
  unfold ref_code. change (2 ^ 32) with 4294967296. intros.
  assert (0 < 2 ^ 256) by done. generalize dependent (2 ^ 256). intros. nia.
Qed.

Lemma ref_code_mono r1 r2 :
  ref_in_bounds r1 → ref_in_bounds r2 → ord_leb r1 r2 = true → r1 ≠ r2 →
  ref_code r1 < ref_code r2.
Proof.
  intros (Hr1 & Ha1 & Hd1) (Hr2 & Ha2 & Hd2) Hle Hne. rewrite ref_leb_spec in Hle.
  assert (br_round r1 = br_round r2 → br_author r1 = br_author r2 → br_digest r1 ≠ br_digest r2).
  { intros. destruct r1, r2; simpl in *. congruence. }
  unfold ref_code, U32_MAX, DIGEST_MAX in *. change (2 ^ 32) with 4294967296 in *.
  assert (0 < 2 ^ 256) by done. generalize dependent (2 ^ 256). intros. nia.
Qed.

Section closed.
Context (V : dag) (HV : dag_closed V).

Lemma parent_round r1 r2 : parent V r1 r2 → br_round r2 < br_round r1.
Proof. intros (b & Hb & Hin). by eapply dc_round. Qed.

Lemma history_round r1 r2 : history V r1 r2 → r1 = r2 ∨ br_round r2 < br_round r1.
Proof.
  induction 1 as [|r1 r2 r3 H12%parent_round _ IH]; [by left|]. right.
  destruct IH as [->|?]; lia.
Qed.

Lemma history_round_le r1 r2 : history V r1 r2 → br_round r2 ≤ br_round r1.
Proof. intros [->|?]%history_round; lia. Qed.

Lemma history_present r1 r2 : history V r1 r2 → is_Some (V !! r1) → is_Some (V !! r2).
Proof. induction 1 as [|r1 r2 r3 (b & Hb & Hin) _ IH]; [done|]. eauto using dc_present. Qed.

(** From above a round, a path to it starts with a parent. *)
Lemma history_step r t :
  history V r t → br_round t < br_round r →
  ∃ b a, V !! r = Some b ∧ a ∈ vb_ancestors b ∧ history V a t.
Proof. intros Hrt Hlt. inversion Hrt as [|? a ? (b & Hb & Ha) Hat]; subst; [lia|]. eauto. Qed.
End closed.

(** ** Ranges of blocks *)

(** A range of a map of blocks under their references: the blocks of the range, each once. *)
Lemma blocks_range (m : dag) lo hi :
  (∀ r b, m !! r = Some b → reference b = r) → range_valid lo hi = true →
  ∃ l, bt_range lo hi m = Ok l ∧ NoDup l.*2 ∧
    ∀ b, b ∈ l.*2 ↔ m !! reference b = Some b ∧ in_range lo hi (reference b) = true.
Proof.
  intros Hm Hv. destruct (bt_range_valid lo hi m Hv) as [l Hl].
  exists l. split; [done|]. split.
  { apply (NoDup_fmap_1 reference). rewrite <-list_fmap_compose.
    replace ((reference ∘ snd) <$> l) with l.*1; [by eapply bt_range_NoDup|].
    apply list_fmap_ext. intros i [r b] Hi%list_elem_of_lookup_2.
    apply (bt_range_Ok _ _ _ _ _ _ Hl) in Hi as [_ Hr]. symmetry. by apply Hm. }
  intros b. rewrite list_elem_of_fmap. split.
  - intros ([r b'] & -> & Hin). apply (bt_range_Ok _ _ _ _ _ _ Hl) in Hin as [Hin Hr]. simpl.
    pose proof (Hm _ _ Hr) as <-. done.
  - intros [Hb Hin]. exists (reference b, b). split; [done|].
    by apply (bt_range_Ok _ _ _ _ _ _ Hl).
Qed.

(** The blocks of a slot and of a round. *)
Lemma blocks_at_slot (m : dag) slot :
  (∀ r b, m !! r = Some b → reference b = r ∧ ref_in_bounds r) →
  ∃ l, bt_range (Included (mkBlockRef (slot_round slot) (slot_authority slot) DIGEST_MIN))
      (Included (mkBlockRef (slot_round slot) (slot_authority slot) DIGEST_MAX)) m = Ok l ∧ NoDup l.*2 ∧
    ∀ b, b ∈ l.*2 ↔ m !! reference b = Some b ∧ vb_slot b = slot.
Proof.
  intros Hm. set (lo := Included _). set (hi := Included _).
  destruct (blocks_range m lo hi) as (l & Hl & Hnd & Hin); [by intros ?? []%Hm| |].
  { unfold range_valid, lo, hi. rewrite ref_leb_spec. simpl. right. split; [done|]. right. done. }
  exists l. split_and!; [done..|]. intros b. rewrite Hin. split; intros [Hb Hs]; (split; [done|]).
  - unfold lo, hi in Hs. rewrite in_range_slot in Hs by (by eapply Hm).
    destruct slot, Hs. unfold vb_slot. by simplify_eq/=.
  - unfold lo, hi. subst slot. rewrite in_range_slot by (by eapply Hm). done.
Qed.

Lemma blocks_at_round (m : dag) round :
  (∀ r b, m !! r = Some b → reference b = r) → round < U32_MAX →
  ∃ l, bt_range (Included (mkBlockRef round 0 DIGEST_MIN))
      (Excluded (mkBlockRef (round +u32 1) 0 DIGEST_MIN)) m = Ok l ∧ NoDup l.*2 ∧
    ∀ b, b ∈ l.*2 ↔ m !! reference b = Some b ∧ vb_round b = round.
Proof.
  intros Hm Hr. rewrite u32_add_small by (unfold U32_MAX in *; lia).
  set (lo := Included _). set (hi := Excluded _).
  destruct (blocks_range m lo hi) as (l & Hl & Hnd & Hin); [done| |].
  { unfold range_valid, lo, hi. rewrite ref_leb_spec. simpl. lia. }
  exists l. split_and!; [done..|]. intros b. unfold lo, hi in Hin. by rewrite Hin, in_range_round.
Qed.
