(* ===== verification/StakeAggregator.v ===== *)
(** Stake aggregation ([consensus/core/src/stake_aggregator.rs]): votes of distinct
    authorities are counted once, and the aggregate is compared with a threshold chosen
    by a type, as the trait [CommitteeThreshold] does. *)

From stdpp Require Import base strings numbers gmap sets list.
From S2P Require Import Prelude Committee Block.

Open Scope N_scope.

Class CommitteeThreshold (T : Type) := is_threshold : Committee → Stake → bool.
#[global] Hint Mode CommitteeThreshold ! : typeclass_instances.
Arguments is_threshold T {_} _ _.

Inductive QuorumThreshold : Type := .
Inductive ValidityThreshold : Type := .

#[export] Instance quorum_is_threshold : CommitteeThreshold QuorumThreshold := reached_quorum.
#[export] Instance validity_is_threshold : CommitteeThreshold ValidityThreshold :=
  reached_validity.

Record StakeAggregator (T : Type) := mkStakeAggregator {
  votes : gset AuthorityIndex;
  agg_stake : Stake;
}.
Arguments mkStakeAggregator {T} _ _.
Arguments votes {T} _.
Arguments agg_stake {T} _.

Section aggregator.
Context {T : Type} `{!CommitteeThreshold T}.

Definition aggregator_new : StakeAggregator T := mkStakeAggregator ∅ 0.

(** [StakeAggregator::add]: counts the vote of an authority once; true when the
    threshold has been reached. *)
Definition aggregator_add (agg : StakeAggregator T) (vote : AuthorityIndex) (c : Committee) :
    outcome (bool * StakeAggregator T) :=
  agg' ← (if decide (vote ∈ votes agg) then Ok agg
          else s ← committee_stake c vote;
               Ok (mkStakeAggregator ({[vote]} ∪ votes agg) (agg_stake agg +u64 s)));
  Ok (is_threshold T c (agg_stake agg'), agg').

(** [StakeAggregator::reached_threshold]. *)
Definition reached_threshold (agg : StakeAggregator T) (c : Committee) : bool :=
  is_threshold T c (agg_stake agg).

(** [StakeAggregator::clear]. *)
Definition aggregator_clear (agg : StakeAggregator T) : StakeAggregator T :=
  mkStakeAggregator ∅ 0.

(** The loop that the committers run over voters: add each voter the test selects, and
    stop as soon as the threshold is reached. *)
Fixpoint aggregate_until (c : Committee) (agg : StakeAggregator T) (vs : list AuthorityIndex) :
    outcome bool :=
  match vs with
  | [] => Ok false
  | v :: vs =>
      '(reached, agg) ← aggregator_add agg v c;
      if reached : bool then Ok true else aggregate_until c agg vs
  end.

(** The stake counted is the stake of the set of voters. *)
Definition aggregator_wf (c : Committee) (agg : StakeAggregator T) : Prop :=
  agg_stake agg = set_stake c (votes agg) ∧ ∀ a, a ∈ votes agg → a < committee_size c.

Context (c : Committee) (Hc : committee_wf c).

Lemma aggregator_new_wf : aggregator_wf c aggregator_new.
Proof. split; simpl; [by rewrite set_stake_empty|set_solver]. Qed.

Lemma aggregator_clear_wf agg : aggregator_wf c (aggregator_clear agg).
Proof. apply aggregator_new_wf. Qed.

(** Adding a member of the committee never panics, counts it exactly once, and keeps
    the stake equal to the stake of the voters. *)
Lemma aggregator_add_Ok agg v :
  aggregator_wf c agg → v < committee_size c →
  ∃ agg', aggregator_add agg v c =
            Ok (is_threshold T c (set_stake c ({[v]} ∪ votes agg)), agg') ∧
          votes agg' = {[v]} ∪ votes agg ∧ aggregator_wf c agg'.
Proof.
  intros Hagg Hlt. destruct (Hagg) as [Hs Hv]. unfold aggregator_add.
  destruct (decide (v ∈ votes agg)) as [Hin|Hin]; simpl.
  - assert ({[v]} ∪ votes agg = votes agg) as -> by set_solver.
    exists agg. by rewrite Hs.
  - rewrite committee_stake_Ok by done. simpl.
    pose proof (set_stake_insert c v (votes agg) Hlt Hin) as Hins.
    pose proof (set_stake_le_total c ({[v]} ∪ votes agg) Hc) as Htot.
    pose proof (wf_bound _ Hc).
    rewrite u64_add_small by lia.
    exists (mkStakeAggregator ({[v]} ∪ votes agg) (agg_stake agg + stake_of c v)).
    split; [|split; [done|split; simpl]].
    + rewrite Hins, Hs, N.add_comm. done.
    + rewrite Hins, Hs. lia.
    + set_solver.
Qed.

(** Votes outside the committee are the only source of a panic. *)
Lemma aggregator_add_inv agg v b agg' :
  aggregator_wf c agg → aggregator_add agg v c = Ok (b, agg') → v < committee_size c.
Proof.
  intros [_ Hv]. unfold aggregator_add. destruct (decide (v ∈ votes agg)); [by auto|].
  intros. inv_ok. by edestruct committee_stake_inv.
Qed.
End aggregator.

(** For a threshold that is monotone in the stake, stopping early does not matter: the
    loop reports whether the set of all the voters reaches the threshold. *)
Class MonotoneThreshold (T : Type) `{CommitteeThreshold T} : Prop :=
  threshold_mono : ∀ c s1 s2, s1 ≤ s2 → is_threshold T c s1 = true → is_threshold T c s2 = true.

#[export] Instance quorum_monotone : MonotoneThreshold QuorumThreshold.
Proof.
  intros c s1 s2. unfold is_threshold, quorum_is_threshold, reached_quorum.
  rewrite !N.leb_le. lia.
Qed.

#[export] Instance validity_monotone : MonotoneThreshold ValidityThreshold.
Proof.
  intros c s1 s2. unfold is_threshold, validity_is_threshold, reached_validity.
  rewrite !N.leb_le. lia.
Qed.

Section until.
Context {T : Type} `{MonotoneThreshold T}.

Lemma aggregate_until_gen c (agg : StakeAggregator T) vs :
  committee_wf c → aggregator_wf c agg → (∀ v, v ∈ vs → v < committee_size c) →
  is_threshold T c (set_stake c (votes agg)) = false →
  aggregate_until c agg vs =
    Ok (is_threshold T c (set_stake c (list_to_set vs ∪ votes agg))).
Proof.
  intros Hc. revert agg. induction vs as [|v vs IH]; intros agg Hagg Hvs Hno; simpl.
  - by rewrite union_empty_l_L, Hno.
  - destruct (aggregator_add_Ok c Hc agg v Hagg) as (agg' & -> & Hvotes & Hwf).
    { apply Hvs. left. }
    simpl. assert ({[v]} ∪ list_to_set vs ∪ votes agg =
      list_to_set vs ∪ ({[v]} ∪ votes agg)) as -> by set_solver.
    destruct (is_threshold T c (set_stake c ({[v]} ∪ votes agg))) eqn:E.
    + f_equal. symmetry. eapply threshold_mono; [|exact E].
      apply set_stake_mono. set_solver.
    + rewrite <-Hvotes in E |- *. rewrite IH; [done|done| |done].
      intros v' ?. apply Hvs. by right.
Qed.

Lemma aggregate_until_spec c vs :
  committee_wf c → (∀ v, v ∈ vs → v < committee_size c) →
  is_threshold T c 0 = false →
  aggregate_until c (aggregator_new (T:=T)) vs =
    Ok (is_threshold T c (set_stake c (list_to_set vs))).
Proof.
  intros Hc Hvs Hz. rewrite aggregate_until_gen; try done.
  - simpl. by rewrite union_empty_r_L.
  - by apply aggregator_new_wf.
  - simpl. by rewrite set_stake_empty.
Qed.
End until.

Lemma quorum_zero c : committee_wf c → is_threshold QuorumThreshold c 0 = false.
Proof.
  intros Hc. unfold is_threshold, quorum_is_threshold, reached_quorum.
  rewrite (wf_quorum _ Hc). apply N.leb_gt. generalize (2 * total_stake c / 3). lia.
Qed.

#[export] Hint Resolve quorum_zero : rust.

Section votes.
Context {T : Type} `{CommitteeThreshold T}.

(** The aggregator after the votes, in order. *)
Definition add_votes (c : Committee) (agg : StakeAggregator T) (vs : list AuthorityIndex) :
    outcome (StakeAggregator T) :=
  foldM (λ agg v, '(_, agg) ← aggregator_add agg v c; Ok agg) agg vs.

Lemma add_votes_wf c (agg : StakeAggregator T) vs :
  committee_wf c → aggregator_wf c agg → (∀ v, v ∈ vs → v < committee_size c) →
  ∃ agg', add_votes c agg vs = Ok agg' ∧ votes agg' = list_to_set vs ∪ votes agg ∧ aggregator_wf c agg'.
Proof.
  intros Hc. revert agg. induction vs as [|v vs IH]; intros agg Hagg Hvs.
  { exists agg. split_and!; [done|simpl; set_solver|done]. }
  destruct (aggregator_add_Ok c Hc agg v Hagg) as (agg1 & Hadd & Hv & Hwf); [apply Hvs; left|].
  destruct (IH agg1 Hwf) as (agg2 & Hf & Hv2 & Hwf2); [intros; apply Hvs; by right|].
  exists agg2. unfold add_votes in *. cbn [foldM]. rewrite Hadd. split_and!; [done| |done].
  rewrite Hv2, Hv. simpl. set_solver.
Qed.

(** An aggregator counts the stake of each authority that voted exactly once, whatever
    the order and the repetitions of the votes, and never overflows: after the votes its
    stake is the stake of the set of voters, and the threshold is compared with that.  A
    vote of an authority outside the committee panics. *)
Theorem aggregator_counts_once c vs :
  committee_wf c →
  ((∀ v, v ∈ vs → v < committee_size c) →
     ∃ agg : StakeAggregator T, add_votes c aggregator_new vs = Ok agg ∧
       votes agg = list_to_set vs ∧ agg_stake agg = set_stake c (list_to_set vs) ∧
       reached_threshold agg c = is_threshold T c (set_stake c (list_to_set vs))) ∧
  (∀ (agg : StakeAggregator T) v, aggregator_wf c agg → committee_size c ≤ v →
     ∃ msg, aggregator_add agg v c = Panic msg).
Proof.
  intros Hc. split.
  - intros Hvs. destruct (add_votes_wf c aggregator_new vs Hc (aggregator_new_wf c Hc) Hvs)
      as (agg & Hf & Hv & [Hs _]).
    change (votes aggregator_new) with (∅ : gset AuthorityIndex) in Hv. rewrite union_empty_r_L in Hv.
    exists agg. unfold reached_threshold. rewrite Hs, Hv. done.
  - intros agg v [_ Hin] Hv. unfold aggregator_add.
    rewrite decide_False by (intros ?%Hin; lia). unfold committee_stake, vec_index.
    rewrite lookup_ge_None_2 by (unfold committee_size in Hv; lia). simpl. eauto.
Qed.
End votes.
