(* ===== verification/ThresholdClock.v ===== *)
(** The threshold clock ([consensus/core/src/threshold_clock.rs]): the round a validator
    may propose for advances when blocks of a quorum of authorities are seen at the
    current round, or jumps to the round of a block from the future.  The receipt time of
    the last quorum feeds a metric only and is left out. *)

From stdpp Require Import base strings numbers gmap sets list.
From S2P Require Import Prelude Committee Block StakeAggregator.

Open Scope N_scope.

Record ThresholdClock := mkThresholdClock {
  clock_aggregator : StakeAggregator QuorumThreshold;
  clock_round : Round;
}.

(** [ThresholdClock::new]. *)
Definition clock_new (round : Round) : ThresholdClock :=
  mkThresholdClock aggregator_new round.

(** [ThresholdClock::add_block]. *)
Definition clock_add_block (c : Committee) (tc : ThresholdClock) (block : BlockRef) :
    outcome ThresholdClock :=
  match br_round block ?= clock_round tc with
  | Lt => Ok tc
  | Gt =>
      '(_, agg) ← aggregator_add (aggregator_clear (clock_aggregator tc)) (br_author block) c;
      Ok (mkThresholdClock agg (br_round block))
  | Eq =>
      '(reached, agg) ← aggregator_add (clock_aggregator tc) (br_author block) c;
      if reached : bool
      then Ok (mkThresholdClock (aggregator_clear agg) (br_round block +u32 1))
      else Ok (mkThresholdClock agg (clock_round tc))
  end.

(** [ThresholdClock::add_blocks]: the new round, when it advanced. *)
Definition clock_add_blocks (c : Committee) (tc : ThresholdClock) (blocks : list BlockRef) :
    outcome (option Round * ThresholdClock) :=
  let previous_round := clock_round tc in
  tc ← foldM (clock_add_block c) tc blocks;
  Ok (if previous_round <? clock_round tc then Some (clock_round tc) else None, tc).

(** [ThresholdClock::get_round]. *)
Definition get_round (tc : ThresholdClock) : Round := clock_round tc.

(** The votes at round [r] among the blocks seen. *)
Definition authors_at (r : Round) (blocks : list BlockRef) : gset AuthorityIndex :=
  list_to_set (br_author <$> filter (λ b, br_round b = r) blocks).

(** What the clock knows after the blocks [seen] have been added to a clock that started
    at round [start]: its votes are the authors seen at its round, and it has seen nothing above; it is at its starting
    round, or the round of a seen block, or the round after one at which the authors
    seen reach a quorum.  A clock standing at a round has not seen a quorum there. *)
Record clock_wf (c : Committee) (start : Round) (seen : list BlockRef) (tc : ThresholdClock) :
    Prop := {
  cw_agg : aggregator_wf c (clock_aggregator tc);
  cw_votes : votes (clock_aggregator tc) = authors_at (clock_round tc) seen;
  cw_seen b : b ∈ seen → br_round b ≤ clock_round tc;
  cw_no_quorum : reached_quorum c (set_stake c (votes (clock_aggregator tc))) = false ∨
    ∃ b, b ∈ seen ∧ br_round b = clock_round tc ∧
         votes (clock_aggregator tc) = {[br_author b]};
  cw_start : start ≤ clock_round tc;
  cw_cause :
    clock_round tc = start ∨
    (∃ b, b ∈ seen ∧ br_round b = clock_round tc) ∨
    (∃ r, clock_round tc = r + 1 ∧ reached_quorum c (set_stake c (authors_at r seen)) = true);
}.

Definition refs_valid (c : Committee) (bs : list BlockRef) : Prop :=
  ∀ b, b ∈ bs → br_author b < committee_size c ∧ br_round b < U32_MAX.

Section clock.
Context (c : Committee) (Hc : committee_wf c).

Lemma authors_at_mono r seen b : authors_at r seen ⊆ authors_at r (seen ++ [b]).
Proof. unfold authors_at. rewrite filter_app, fmap_app, list_to_set_app_L. set_solver. Qed.

Lemma authors_at_snoc r seen b :
  br_round b = r → authors_at r (seen ++ [b]) = authors_at r seen ∪ {[br_author b]}.
Proof.
  intros Hr. unfold authors_at. rewrite filter_app, fmap_app, list_to_set_app_L.
  rewrite filter_cons_True by done. simpl. set_solver.
Qed.

Lemma authors_at_above r seen :
  (∀ b, b ∈ seen → br_round b < r) → authors_at r seen = ∅.
Proof.
  intros Hs. unfold authors_at. rewrite list_filter_none; [done|].
  intros b Hb Heq. specialize (Hs b Hb). lia.
Qed.

Lemma authors_at_other r seen b : br_round b ≠ r → authors_at r (seen ++ [b]) = authors_at r seen.
Proof.
  intros Hr. unfold authors_at. rewrite filter_app, fmap_app, list_to_set_app_L.
  rewrite filter_cons_False by done. simpl. set_solver.
Qed.

Lemma clock_new_wf start : clock_wf c start [] (clock_new start).
Proof.
  split; simpl; [by apply aggregator_new_wf|done|by intros ? ?%not_elem_of_nil| |lia|by left].
  left. rewrite set_stake_empty. by apply quorum_zero.
Qed.

Lemma reached_quorum_mono s1 s2 :
  s1 ≤ s2 → reached_quorum c s1 = true → reached_quorum c s2 = true.
Proof. apply (threshold_mono (T:=QuorumThreshold)). Qed.

Lemma cause_snoc start seen b r :
  r = start ∨ (∃ b', b' ∈ seen ∧ br_round b' = r) ∨
    (∃ r', r = r' + 1 ∧ reached_quorum c (set_stake c (authors_at r' seen)) = true) →
  r = start ∨ (∃ b', b' ∈ seen ++ [b] ∧ br_round b' = r) ∨
    (∃ r', r = r' + 1 ∧ reached_quorum c (set_stake c (authors_at r' (seen ++ [b]))) = true).
Proof.
  intros [?|[(b' & ? & ?)|(r' & ? & Hq)]]; [by left|right; left|right; right].
  - exists b'. set_solver.
  - exists r'. split; [done|]. eapply reached_quorum_mono; [|exact Hq].
    apply set_stake_mono, authors_at_mono.
Qed.

(** One block: the clock never goes back, and keeps its invariant. *)
Lemma clock_add_block_wf start seen tc b :
  clock_wf c start seen tc → br_author b < committee_size c → br_round b < U32_MAX →
  ∃ tc', clock_add_block c tc b = Ok tc' ∧ clock_wf c start (seen ++ [b]) tc' ∧
         clock_round tc ≤ clock_round tc'.
Proof.
  intros [Hagg Hvotes Hseen Hnq Hst Hcause] Ha Hr. unfold clock_add_block.
  assert (Hseen' : ∀ r, clock_round tc ≤ r → br_round b ≤ r → ∀ b', b' ∈ seen ++ [b] → br_round b' ≤ r).
  { intros r ? ? b' [Hb'%Hseen|Hb'%list_elem_of_singleton]%elem_of_app; [lia|by subst]. }
  destruct (N.compare_spec (br_round b) (clock_round tc)) as [Heq|Hlt|Hgt].
  - destruct (aggregator_add_Ok c Hc _ _ Hagg Ha) as (agg' & -> & Hv & Hwf'). simpl.
    assert (Hat : {[br_author b]} ∪ votes (clock_aggregator tc) = authors_at (clock_round tc) (seen ++ [b])).
    { rewrite authors_at_snoc by done. rewrite Hvotes. set_solver. }
    destruct (is_threshold _ _ _) eqn:E; simpl.
    + rewrite u32_add_small by (unfold U32_MAX in *; lia). eexists. split; [done|].
      split; [|simpl; lia]. split; simpl.
      * by apply aggregator_new_wf.
      * rewrite authors_at_above; [done|]. intros b' Hb'.
        specialize (Hseen' (clock_round tc) ltac:(lia) ltac:(lia) b' Hb'). lia.
      * apply Hseen'; lia.
      * left. rewrite set_stake_empty. by apply quorum_zero.
      * lia.
      * right; right. exists (br_round b). split; [done|]. rewrite Hat, <-Heq in E. exact E.
    + eexists. split; [done|]. split; [|simpl; lia]. split; simpl; try done.
      * by rewrite Hv.
      * apply Hseen'; lia.
      * left. by rewrite Hv.
      * by apply cause_snoc.
  - eexists. split; [done|]. split; [|lia]. split; try done.
    + rewrite authors_at_other by lia. done.
    + apply Hseen'; lia.
    + destruct Hnq as [?|(b' & ? & ? & ?)]; [by left|right]. exists b'. set_solver.
    + by apply cause_snoc.
  - destruct (aggregator_add_Ok c Hc (aggregator_clear (clock_aggregator tc)) (br_author b))
      as (agg' & -> & Hv & Hwf'); [by apply aggregator_clear_wf|done|]. simpl in Hv |- *.
    eexists. split; [done|]. split; [|simpl; lia]. split; simpl; try done.
    + rewrite Hv, authors_at_snoc, (authors_at_above _ seen) by (done || (intros b' ?%Hseen; lia)). set_solver.
    + apply Hseen'; lia.
    + right. exists b. rewrite Hv, union_empty_r_L. set_solver.
    + lia.
    + right; left. exists b. set_solver.
Qed.

Lemma clock_add_blocks_gen start seen tc bs :
  clock_wf c start seen tc → refs_valid c bs →
  ∃ tc', foldM (clock_add_block c) tc bs = Ok tc' ∧ clock_wf c start (seen ++ bs) tc' ∧
         clock_round tc ≤ clock_round tc'.
Proof.
  revert seen tc. induction bs as [|b bs IH]; intros seen tc Hwf Hbs; simpl.
  - exists tc. rewrite app_nil_r. done.
  - destruct (Hbs b) as [Ha Hr]; [left|].
    destruct (clock_add_block_wf start seen tc b Hwf Ha Hr) as (tc1 & -> & Hwf1 & Hle). simpl.
    destruct (IH (seen ++ [b]) tc1 Hwf1) as (tc2 & -> & Hwf2 & Hle2).
    { intros b' ?. apply Hbs. by right. }
    rewrite <-app_assoc in Hwf2. simpl in Hwf2. exists tc2. split; [done|]. split; [done|lia].
Qed.
End clock.

#[export] Hint Resolve clock_new_wf : rust.

(** C35: The threshold clock never goes back and never panics on valid references.  Its round
    is the starting round, the round of a block it has seen, or the round after one in which
    it has seen a quorum of authors; it is past every round in which it has seen a quorum of
    two or more authors; and [add_blocks] reports exactly its advances. *)
Theorem clock_add_blocks_spec c start seen tc bs :
  committee_wf c → clock_wf c start seen tc → refs_valid c bs →
  ∃ res tc', clock_add_blocks c tc bs = Ok (res, tc') ∧ clock_wf c start (seen ++ bs) tc' ∧
    clock_round tc ≤ clock_round tc' ∧
    res = (if clock_round tc <? clock_round tc' then Some (get_round tc') else None) ∧
    ∀ r, reached_quorum c (set_stake c (authors_at r (seen ++ bs))) = true →
      (∀ a, authors_at r (seen ++ bs) ≠ {[a]}) → r < get_round tc'.
Proof.
  intros Hc Hwf Hbs. unfold clock_add_blocks.
  destruct (clock_add_blocks_gen c Hc start seen tc bs Hwf Hbs) as (tc' & -> & Hwf' & Hle).
  eexists _, tc'. split_and!; [done..|]. unfold get_round. intros r Hq Hsingle.
  destruct (N.lt_total r (clock_round tc')) as [?|[->|Hgt]]; [done|exfalso..].
  - destruct (cw_no_quorum _ _ _ _ Hwf') as [Hn|(b & _ & _ & Hb)]; rewrite (cw_votes _ _ _ _ Hwf') in *.
    + congruence.
    + by apply (Hsingle (br_author b)).
  - rewrite authors_at_above, set_stake_empty in Hq.
    + pose proof (quorum_zero c Hc) as Hz. unfold is_threshold, quorum_is_threshold in Hz. congruence.
    + intros b Hb%(cw_seen _ _ _ _ Hwf'). lia.
Qed.
