(* ===== verification/Commit.v ===== *)
(** Commits and leader decisions ([consensus/core/src/commit.rs]), and the reputation
    scores ([consensus/core/src/leader_scoring.rs]) that commit info carries. *)

From stdpp Require Import base strings numbers sorting gmap sets list.
From S2P Require Import Prelude Committee Block.

Open Scope N_scope.

Definition GENESIS_COMMIT_INDEX : CommitIndex := 0.

(** We need at least one leader round, one voting round, and one decision round. *)
Definition MINIMUM_WAVE_LENGTH : Round := 3.

Definition DEFAULT_WAVE_LENGTH : Round := MINIMUM_WAVE_LENGTH.

Abbreviation WaveNumber := N (only parsing).

(** ** Commits *)

(** [Commit::new]. *)
Definition commit_new (index : CommitIndex) (previous_digest : CommitDigest)
    (timestamp_ms : BlockTimestampMs) (leader : BlockRef) (blocks : list BlockRef) : Commit :=
  CommitVersion1 (mkCommitV1 index previous_digest timestamp_ms leader blocks).

(** A commit with its cached digest and bytes. *)
Record TrustedCommit := mkTrustedCommit {
  tc_inner : Commit;
  tc_digest : CommitDigest;
  tc_serialized : bytes;
}.

(** [impl CommitAPI for CommitV1], through [Commit] and [TrustedCommit]'s [Deref]. *)
Definition commit_v1 (c : Commit) : CommitV1 := match c with CommitVersion1 c => c end.
Definition commit_index (c : TrustedCommit) : CommitIndex := cv1_index (commit_v1 (tc_inner c)).
Definition commit_previous_digest (c : TrustedCommit) : CommitDigest :=
  cv1_previous_digest (commit_v1 (tc_inner c)).
Definition commit_timestamp_ms (c : TrustedCommit) : BlockTimestampMs :=
  cv1_timestamp_ms (commit_v1 (tc_inner c)).
Definition commit_leader (c : TrustedCommit) : BlockRef := cv1_leader (commit_v1 (tc_inner c)).
Definition commit_blocks (c : TrustedCommit) : list BlockRef :=
  cv1_blocks (commit_v1 (tc_inner c)).
Definition commit_round (c : TrustedCommit) : Round := br_round (commit_leader c).

(** [TrustedCommit::reference]. *)
Definition commit_reference (c : TrustedCommit) : CommitRef :=
  mkCommitRef (commit_index c) (tc_digest c).

(** BCS of a commit. *)
Class CommitSerializer := bcs_commit : Commit → Result bytes string.

(** [bcs::from_bytes] for blocks and commits that arrive from the network. *)
Class BcsParser := {
  parse_signed_block : bytes → Result SignedBlock string;
  parse_commit : bytes → Result Commit string;
}.

(** [TrustedCommit::new_trusted], with [compute_digest]. *)
Definition new_trusted `{Crypto} (commit : Commit) (serialized : bytes) : TrustedCommit :=
  mkTrustedCommit commit (blake2b256 serialized) serialized.

Record CommittedSubDag := mkCommittedSubDag {
  sd_leader : BlockRef;
  sd_blocks : list VerifiedBlock;
  sd_timestamp_ms : BlockTimestampMs;
  sd_commit_ref : CommitRef;
  sd_reputation_scores_desc : list (AuthorityIndex * N);
}.

(** [CommittedSubDag::new]. *)
Definition committed_sub_dag_new (leader : BlockRef) (blocks : list VerifiedBlock)
    (timestamp_ms : BlockTimestampMs) (commit_ref : CommitRef) : CommittedSubDag :=
  mkCommittedSubDag leader blocks timestamp_ms commit_ref [].

(** [CommittedSubDag::update_scores]. *)
Definition update_scores (sd : CommittedSubDag) (scores : list (AuthorityIndex * N)) :
    CommittedSubDag :=
  mkCommittedSubDag (sd_leader sd) (sd_blocks sd) (sd_timestamp_ms sd) (sd_commit_ref sd) scores.

(** Sort the blocks of the sub-dag by round number then authority index. *)
Definition sub_dag_leb (a b : VerifiedBlock) : bool :=
  ord_leb (vb_round a, vb_author a) (vb_round b, vb_author b).

Definition sort_sub_dag_blocks (blocks : list VerifiedBlock) : list VerifiedBlock :=
  sort_by sub_dag_leb blocks.

(** ** Decisions *)

Inductive Decision : Type := Direct | Indirect.

(** The status of a leader slot from the direct and indirect commit rules. *)
Inductive LeaderStatus : Type :=
| LSCommit (b : VerifiedBlock)
| LSSkip (s : Slot)
| LSUndecided (s : Slot).

(** [LeaderStatus::round]. *)
Definition leader_status_round (l : LeaderStatus) : Round :=
  match l with
  | LSCommit b => vb_round b
  | LSSkip leader => slot_round leader
  | LSUndecided leader => slot_round leader
  end.

Definition is_decided (l : LeaderStatus) : bool :=
  match l with
  | LSCommit _ => true
  | LSSkip _ => true
  | LSUndecided _ => false
  end.

Inductive DecidedLeader : Type :=
| DLCommit (b : VerifiedBlock)
| DLSkip (s : Slot).

Definition into_decided_leader (l : LeaderStatus) : option DecidedLeader :=
  match l with
  | LSCommit block => Some (DLCommit block)
  | LSSkip slot => Some (DLSkip slot)
  | LSUndecided _ => None
  end.

(** [DecidedLeader::slot]. *)
Definition decided_leader_slot (l : DecidedLeader) : Slot :=
  match l with
  | DLCommit block => slot_of_ref (reference block)
  | DLSkip slot => slot
  end.

Definition into_committed_block (l : DecidedLeader) : option VerifiedBlock :=
  match l with
  | DLCommit block => Some block
  | DLSkip _ => None
  end.

(** ** Commit ranges, scores and info *)

Record CommitRange := mkCommitRange {
  range_start : CommitIndex;
  range_end : CommitIndex;
}.

#[export] Instance CommitRange_eq_dec : EqDecision CommitRange.
Proof. solve_decision. Defined.

(** [Range::len]. *)
Definition range_len (r : CommitRange) : N := range_end r - range_start r.

(** The provided range is sequentially after this range with the same range length. *)
Definition is_next_range (self other : CommitRange) : bool :=
  (range_len self =? range_len other) && (range_end self =? range_start other).

Record ReputationScores := mkReputationScores {
  scores_per_authority : list N;
  scores_commit_range : CommitRange;
}.

(** [ReputationScores::default()]. *)
Definition reputation_scores_default : ReputationScores :=
  mkReputationScores [] (mkCommitRange 0 0).

Record CommitInfo := mkCommitInfo {
  committed_rounds : list Round;
  reputation_scores : ReputationScores;
}.

(** ** Lemmas *)

Lemma sub_dag_leb_spec a b :
  sub_dag_leb a b = true ↔
  vb_round a < vb_round b ∨ (vb_round a = vb_round b ∧ vb_author a ≤ vb_author b).
Proof.
  unfold sub_dag_leb. rewrite ord_prod_leb; simpl. unfold ord_leb, ord_N.
  rewrite !N.leb_le. lia.
Qed.

Lemma sub_dag_leb_total a b : sub_dag_leb a b = true ∨ sub_dag_leb b a = true.
Proof. rewrite !sub_dag_leb_spec. lia. Qed.

Lemma sub_dag_leb_trans a b c :
  sub_dag_leb a b = true → sub_dag_leb b c = true → sub_dag_leb a c = true.
Proof. rewrite !sub_dag_leb_spec. lia. Qed.

Lemma sort_sub_dag_blocks_perm blocks : sort_sub_dag_blocks blocks ≡ₚ blocks.
Proof. apply sort_by_perm. Qed.

Lemma sort_sub_dag_blocks_sorted blocks :
  StronglySorted (λ a b, sub_dag_leb a b = true) (sort_sub_dag_blocks blocks).
Proof. apply sort_by_sorted; [apply sub_dag_leb_total|apply sub_dag_leb_trans]. Qed.

Lemma into_decided_leader_is_Some l : is_Some (into_decided_leader l) ↔ is_decided l = true.
Proof. rewrite <-not_eq_None_Some. by destruct l. Qed.
