(* ===== verification/BlockVerifier.v ===== *)
(** Block verification ([consensus/core/src/block_verifier.rs]): what a block received
    from a peer has to satisfy before its causal history is examined ([verify]), and the
    check against its ancestors' timestamps before it enters the DAG
    ([check_ancestors]). *)

From stdpp Require Import base strings numbers gmap sets list.
From S2P Require Import Prelude Committee Block.

Open Scope N_scope.

(** Verification of the transactions is supplied by the application. *)
Class TransactionVerifier := verify_batch : list bytes → Result () string.

Record SignedBlockVerifier := mkSignedBlockVerifier {
  bv_context : Context;
  bv_genesis : gset BlockRef;
}.

(** [SignedBlockVerifier::new]. *)
Definition signed_block_verifier_new `{Crypto} (context : Context) :
    outcome SignedBlockVerifier :=
  genesis ← genesis_blocks context;
  Ok (mkSignedBlockVerifier context (list_to_set (reference <$> genesis))).

(** What a verifier checks of a block against its ancestors, for the block manager: the
    part of the trait [BlockVerifier] it calls. *)
Class BlockVerifier := check_ancestors :
  VerifiedBlock → list VerifiedBlock → outcome (ConsensusResult ()).

Section verify.
Context `{Crypto, TransactionVerifier}.

(** One iteration of the loop over the ancestors; the state is [seen_ancestors] and
    [parent_stakes]. *)
Definition verify_ancestor (self : SignedBlockVerifier) (b : SignedBlock)
    (st : list bool * Stake) (i : N) (ancestor : BlockRef) :
    outcome (ConsensusResult (list bool * Stake)) :=
  let c := committee (bv_context self) in
  let author := block_author (inner b) in
  let round := block_round (inner b) in
  let '(seen_ancestors, parent_stakes) := st in
  if negb (is_valid_index c (br_author ancestor)) then
    Ok (RustErr (InvalidAuthorityIndex (br_author ancestor) (committee_size c - 1)))
  else if ((i =? 0) && negb (br_author ancestor =? author))
       || ((0 <? i) && (br_author ancestor =? author)) then
    Ok (RustErr (InvalidAncestorPosition author (br_author ancestor) i))
  else if round <=? br_round ancestor then
    Ok (RustErr (InvalidAncestorRound (br_round ancestor) round))
  else if (br_round ancestor =? GENESIS_ROUND) && negb (bool_decide (ancestor ∈ bv_genesis self)) then
    Ok (RustErr (InvalidGenesisAncestor ancestor))
  else
    seen ← vec_index seen_ancestors (br_author ancestor);
    if seen : bool then Ok (RustErr (DuplicatedAncestorsAuthority (br_author ancestor)))
    else
      seen_ancestors ← vec_set seen_ancestors (br_author ancestor) true;
      parent_round ← expect (if 1 <=? round then Some (round - 1) else None)
                       "called `Option::unwrap()` on a `None` value";
      if br_round ancestor =? parent_round then
        s ← committee_stake c (br_author ancestor);
        Ok (RustOk (seen_ancestors, parent_stakes +u64 s))
      else Ok (RustOk (seen_ancestors, parent_stakes)).

Fixpoint verify_ancestors (self : SignedBlockVerifier) (b : SignedBlock)
    (st : list bool * Stake) (i : N) (ancestors : list BlockRef) :
    outcome (ConsensusResult (list bool * Stake)) :=
  match ancestors with
  | [] => Ok (RustOk st)
  | a :: ancestors =>
      r ← verify_ancestor self b st i a;
      match r with
      | RustOk st => verify_ancestors self b st (i + 1) ancestors
      | RustErr e => Ok (RustErr e)
      end
  end.

(** [SignedBlockVerifier::verify]. *)
Definition verify (self : SignedBlockVerifier) (b : SignedBlock) :
    outcome (ConsensusResult ()) :=
  let c := committee (bv_context self) in
  if negb (block_epoch (inner b) =? epoch c) then
    Ok (RustErr (WrongEpoch (epoch c) (block_epoch (inner b))))
  else if block_round (inner b) =? 0 then
    Ok (RustErr UnexpectedGenesisBlock)
  else if negb (is_valid_index c (block_author (inner b))) then
    Ok (RustErr (InvalidAuthorityIndex (block_author (inner b)) (committee_size c - 1)))
  else
    sig ← verify_signature b (bv_context self);
    match sig with
    | RustErr e => Ok (RustErr e)
    | RustOk _ =>
        let ancestors := block_ancestors (inner b) in
        if committee_size c <? N.of_nat (length ancestors) then
          Ok (RustErr (TooManyAncestors (N.of_nat (length ancestors)) (committee_size c)))
        else if bool_decide (ancestors = []) then
          Ok (RustErr (InsufficientParentStakes 0 (quorum_threshold c)))
        else
          r ← verify_ancestors self b
                (replicate (N.to_nat (committee_size c)) false, 0) 0 ancestors;
          match r with
          | RustErr e => Ok (RustErr e)
          | RustOk (_, parent_stakes) =>
              if negb (reached_quorum c parent_stakes) then
                Ok (RustErr (InsufficientParentStakes parent_stakes (quorum_threshold c)))
              else
                Ok (map_err InvalidTransaction
                      (verify_batch (data <$> block_transactions (inner b))))
          end
    end.

End verify.

(** [SignedBlockVerifier::check_ancestors]. *)
#[export] Instance signed_block_verifier_check : BlockVerifier := λ b ancestors,
  _ ← assert_ (N.of_nat (length (vb_ancestors b)) =? N.of_nat (length ancestors))
        "assertion failed: block.ancestors().len() == ancestors.len()";
  max_timestamp_ms ← foldM (λ max_timestamp_ms '(ancestor_ref, ancestor_block),
      _ ← assert_ (bool_decide (ancestor_ref = reference ancestor_block))
            "assertion failed: ancestor_ref == ancestor_block.reference()";
      Ok (N.max max_timestamp_ms (vb_timestamp_ms ancestor_block)))
    0 (zip (vb_ancestors b) ancestors);
  if vb_timestamp_ms b <? max_timestamp_ms then
    Ok (RustErr (InvalidBlockTimestamp max_timestamp_ms (vb_timestamp_ms b)))
  else Ok (RustOk ()).

(** ** What verification establishes *)

(** Authors of the ancestors in the parent round. *)
Definition parent_authors (round : Round) (ancestors : list BlockRef) : gset AuthorityIndex :=
  list_to_set (br_author <$> filter (λ a, br_round a + 1 = round) ancestors).

(** The structural part of validity, on which the DAG and the committers rely. *)
Record ancestors_valid (c : Committee) (genesis : gset BlockRef) (author : AuthorityIndex)
    (round : Round) (ancestors : list BlockRef) : Prop := {
  av_head : ∃ a rest, ancestors = a :: rest ∧ br_author a = author;
  av_distinct : NoDup (br_author <$> ancestors);
  av_author a : a ∈ ancestors → br_author a < committee_size c;
  av_round a : a ∈ ancestors → br_round a < round;
  av_genesis a : a ∈ ancestors → br_round a = GENESIS_ROUND → a ∈ genesis;
  av_quorum : reached_quorum c (set_stake c (parent_authors round ancestors)) = true;
}.

(** A block that passes [verify], up to its signature and transactions. *)
Record block_valid (c : Committee) (genesis : gset BlockRef) (b : Block) : Prop := {
  bval_epoch : block_epoch b = epoch c;
  bval_round : 0 < block_round b;
  bval_author : block_author b < committee_size c;
  bval_ancestors :
    ancestors_valid c genesis (block_author b) (block_round b) (block_ancestors b);
}.

Section verify_spec.
Context `{Crypto, TransactionVerifier}.
Context (self : SignedBlockVerifier) (b : SignedBlock).
Let c : Committee := committee (bv_context self).
Let round : Round := block_round (inner b).
Let author : AuthorityIndex := block_author (inner b).
Context (Hc : committee_wf c) (Hround : 0 < round).

(** The state of the loop after the ancestors [pre]. *)
Definition loop_state (pre : list BlockRef) (st : list bool * Stake) : Prop :=
  length st.1 = N.to_nat (committee_size c) ∧
  (∀ a, a < committee_size c → st.1 !! N.to_nat a = Some (bool_decide (a ∈ br_author <$> pre))) ∧
  st.2 = set_stake c (parent_authors round pre).

(** The test one iteration performs on an ancestor. *)
Definition ancestor_ok (pre : list BlockRef) (a : BlockRef) : Prop :=
  br_author a < committee_size c ∧
  (pre = [] ↔ br_author a = author) ∧
  br_round a < round ∧
  (br_round a = GENESIS_ROUND → a ∈ bv_genesis self) ∧
  br_author a ∉ br_author <$> pre.

Lemma parent_authors_snoc pre a :
  parent_authors round (pre ++ [a]) =
  if decide (br_round a + 1 = round) then {[br_author a]} ∪ parent_authors round pre
  else parent_authors round pre.
Proof.
  unfold parent_authors. rewrite filter_app, fmap_app, list_to_set_app_L.
  rewrite filter_cons. destruct (decide _); simpl; set_solver.
Qed.

(** The position test: the block's author is the first ancestor's, and only its. *)
Lemma position_test (pre : list BlockRef) a :
  (((N.of_nat (length pre) =? 0) && negb (br_author a =? author))
    || ((0 <? N.of_nat (length pre)) && (br_author a =? author))) = false ↔
  (pre = [] ↔ br_author a = author).
Proof.
  destruct (br_author a =? author) eqn:E; reflect_bools; destruct pre as [|x pre]; simpl.
  - done.
  - split; [done|]. intros Hiff. discriminate (proj2 Hiff E).
  - split; [done|]. intros Hiff. by destruct E; apply Hiff.
  - split; [|done]. intros _. split; [done|]. by intros.
Qed.

(** Marking an author as seen. *)
Lemma loop_state_mark pre seen stakes a s :
  loop_state pre (seen, stakes) → br_author a < committee_size c →
  s = set_stake c (parent_authors round (pre ++ [a])) →
  loop_state (pre ++ [a]) (<[N.to_nat (br_author a):=true]> seen, s).
Proof.
  intros (Hlen & Hseen & _) Ha ->. split; [|split]; simpl in *; [by rewrite length_insert| |done].
  intros a' Ha'. rewrite fmap_app. destruct (decide (a' = br_author a)) as [->|Hne].
  - rewrite list_lookup_insert_eq by lia. f_equal. symmetry. apply bool_decide_eq_true.
    set_solver.
  - rewrite list_lookup_insert_ne by lia. rewrite Hseen by done. f_equal.
    apply bool_decide_ext. set_solver.
Qed.

(** Counting a new parent. *)
Lemma parent_stake_add pre a :
  br_author a < committee_size c → br_author a ∉ br_author <$> pre →
  br_round a + 1 = round →
  set_stake c (parent_authors round pre) +u64 stake_of c (br_author a) =
  set_stake c (parent_authors round (pre ++ [a])).
Proof.
  intros Ha Hnin Hr. rewrite parent_authors_snoc, decide_True by done.
  assert (br_author a ∉ parent_authors round pre) as Hn.
  { unfold parent_authors. rewrite elem_of_list_to_set, list_elem_of_fmap.
    intros (y & Hy & [_ Hin]%list_elem_of_filter). apply Hnin. rewrite Hy.
    by apply list_elem_of_fmap_2. }
  pose proof (set_stake_insert c (br_author a) _ Ha Hn).
  pose proof (set_stake_le_total c ({[br_author a]} ∪ parent_authors round pre) Hc).
  pose proof (wf_bound _ Hc). rewrite u64_add_small; lia.
Qed.

Local Ltac reject :=
  eexists; split; [done|]; left; eexists; split; [done|]; unfold ancestor_ok; naive_solver lia.

(** One iteration: it never panics, and it passes exactly the ancestors that are ok. *)
Lemma verify_ancestor_spec pre st a :
  loop_state pre st →
  ∃ r, verify_ancestor self b st (N.of_nat (length pre)) a = Ok r ∧
    ((∃ e, r = RustErr e ∧ ¬ ancestor_ok pre a) ∨
     (∃ st', r = RustOk st' ∧ ancestor_ok pre a ∧ loop_state (pre ++ [a]) st')).
Proof.
  intros Hls. destruct st as [seen stakes]. destruct (Hls) as (Hlen & Hseen & Hst); simpl in *.
  unfold verify_ancestor. fold c round author.
  pose proof (position_test pre a) as Hpos. unfold is_valid_index.
  destruct (br_author a <? committee_size c) eqn:E1; simpl; reflect_bools; [|reject].
  destruct (_ || _); simpl.
  { assert (¬ (pre = [] ↔ br_author a = author)) by (intros Hx; by apply Hpos in Hx). reject. }
  apply proj1 in Hpos; specialize (Hpos eq_refl).
  destruct (round <=? br_round a) eqn:E4; reflect_bools; [reject|].
  destruct ((br_round a =? GENESIS_ROUND) && _) eqn:E5; [reflect_bools; reject|].
  assert (br_round a = GENESIS_ROUND → a ∈ bv_genesis self) as Hg.
  { intros Hg. apply N.eqb_eq in Hg. rewrite Hg in E5. simpl in E5. by reflect_bools. }
  unfold vec_set. rewrite (proj2 (vec_index_Ok _ _ _) (Hseen _ E1)); simpl.
  destruct (bool_decide (br_author a ∈ br_author <$> pre)) eqn:E6; reflect_bools; [reject|].
  rewrite (proj2 (N.leb_le 1 round)) by lia; simpl.
  assert (ancestor_ok pre a) as Hok by (unfold ancestor_ok; tauto).
  destruct (br_round a =? round - 1) eqn:E7; reflect_bools.
  - rewrite committee_stake_Ok by done; simpl.
    eexists; split; [done|]; right. eexists; split; [done|]; split; [done|].
    eapply loop_state_mark; [done..|]. rewrite Hst. apply parent_stake_add; [done..|lia].
  - eexists; split; [done|]; right. eexists; split; [done|]; split; [done|].
    eapply loop_state_mark; [done..|]. rewrite parent_authors_snoc, decide_False; [done|lia].
Qed.

(** The ancestors after [pre] all pass. *)
Fixpoint all_ok (pre ancs : list BlockRef) : Prop :=
  match ancs with
  | [] => True
  | a :: ancs => ancestor_ok pre a ∧ all_ok (pre ++ [a]) ancs
  end.

Lemma verify_ancestors_spec pre st ancs :
  loop_state pre st →
  ∃ r, verify_ancestors self b st (N.of_nat (length pre)) ancs = Ok r ∧
    ((∃ e, r = RustErr e ∧ ¬ all_ok pre ancs) ∨
     (∃ st', r = RustOk st' ∧ all_ok pre ancs ∧ loop_state (pre ++ ancs) st')).
Proof.
  revert pre st. induction ancs as [|a ancs IH]; intros pre st Hls; simpl.
  - eexists; split; [done|]. right. rewrite app_nil_r. eauto.
  - destruct (verify_ancestor_spec pre st a Hls)
      as (r & -> & [(e & -> & Hno)|(st' & -> & Hok & Hls')]); simpl.
    + eexists; split; [done|]. left. naive_solver.
    + replace (N.of_nat (length pre) + 1) with (N.of_nat (length (pre ++ [a])))
        by (rewrite length_app; simpl; lia).
      destruct (IH _ _ Hls') as (r & -> & Hr). eexists; split; [done|].
      rewrite <-app_assoc in Hr. simpl in Hr. naive_solver.
Qed.

Lemma all_ok_spec pre ancs :
  all_ok pre ancs ↔
  (∀ a, a ∈ ancs → br_author a < committee_size c ∧ br_round a < round ∧
        (br_round a = GENESIS_ROUND → a ∈ bv_genesis self)) ∧
  NoDup (br_author <$> ancs) ∧
  (∀ a, a ∈ ancs → br_author a ∉ br_author <$> pre) ∧
  (∀ i a, ancs !! i = Some a → (pre = [] ∧ i = 0%nat ↔ br_author a = author)).
Proof.
  revert pre. induction ancs as [|x ancs IH]; intros pre; simpl.
  { split; [|done]. intros _. split_and!; try set_solver. constructor. }
  rewrite IH, NoDup_cons. unfold ancestor_ok. split.
  - intros ((Hv & Hp & Hr & Hg & Hn) & Hall & Hnd & Hpre & Hpos). split_and!.
    + set_solver.
    + intros (y & Hy & Hin)%list_elem_of_fmap. apply (Hpre y Hin). set_solver.
    + done.
    + set_solver.
    + intros [|i] a Ha; simpl in Ha; simplify_eq; [naive_solver|].
      rewrite <-(Hpos _ _ Ha). destruct pre; naive_solver.
  - intros (Hall & [Hx Hnd] & Hpre & Hpos). split_and!.
    + set_solver.
    + pose proof (Hpos 0%nat x eq_refl). naive_solver.
    + set_solver.
    + set_solver.
    + set_solver.
    + set_solver.
    + done.
    + intros a Ha. rewrite fmap_app, elem_of_app. intros [Hin|Hin]; [set_solver|].
      apply list_elem_of_singleton in Hin. set_solver.
    + intros i a Ha. rewrite <-(Hpos (S i) a Ha). destruct pre; naive_solver.
Qed.

Lemma loop_state_init :
  loop_state [] (replicate (N.to_nat (committee_size c)) false, 0).
Proof.
  split; [|split]; simpl; [by rewrite length_replicate| |].
  - intros a Ha. rewrite lookup_replicate_2 by lia. f_equal.
  - unfold parent_authors. simpl. by rewrite set_stake_empty.
Qed.

(** The loop passes exactly the valid lists of ancestors with a quorum of parents. *)
Lemma all_ok_ancestors_valid ancs :
  ancs ≠ [] →
  (all_ok [] ancs ∧ reached_quorum c (set_stake c (parent_authors round ancs)) = true) ↔
  ancestors_valid c (bv_genesis self) author round ancs.
Proof.
  intros Hne. rewrite all_ok_spec. split.
  - intros ((Hall & Hnd & _ & Hpos) & Hq). destruct ancs as [|a rest]; [done|].
    split; [|done|intros x Hx; by apply Hall|intros x Hx; by apply Hall
           |intros x Hx; by apply Hall|done].
    exists a, rest. split; [done|]. by apply (Hpos 0%nat).
  - intros [(a & rest & -> & Ha) Hnd Hv Hr Hg Hq]. split; [|done]. split_and!; try done.
    + naive_solver.
    + set_solver.
    + intros i x Hx. split; [intros [_ ->]; naive_solver|]. intros Hxa. split; [done|].
      destruct i as [|i]; [done|]. exfalso. apply NoDup_cons in Hnd as [Hn _].
      apply Hn. rewrite Ha, <-Hxa. apply list_elem_of_fmap. exists x. split; [done|].
      by eapply list_elem_of_lookup_2.
Qed.

(** Distinct valid authors: never more ancestors than authorities. *)
Lemma ancestors_valid_length ancs :
  ancestors_valid c (bv_genesis self) author round ancs →
  N.of_nat (length ancs) ≤ committee_size c.
Proof.
  intros [_ Hnd Hv _ _ _].
  assert (length (br_author <$> ancs) ≤ length (indices c))%nat as Hle.
  { apply submseteq_length, NoDup_submseteq; [done|].
    intros x (a & -> & Ha)%list_elem_of_fmap. by apply elem_of_indices, Hv. }
  rewrite length_fmap in Hle. unfold indices in Hle. rewrite length_fmap, length_seq in Hle.
  unfold committee_size. lia.
Qed.
End verify_spec.

(** [verify] on every block. *)
Lemma verify_accepts `{Crypto, TransactionVerifier} self b :
  let c := committee (bv_context self) in
  committee_wf c →
  ∃ r, verify self b = Ok r ∧
    (r = RustOk () ↔
      block_valid c (bv_genesis self) (inner b) ∧
      verify_signature b (bv_context self) = Ok (RustOk ()) ∧
      verify_batch (data <$> block_transactions (inner b)) = RustOk ()).
Proof.
  intros c Hc. unfold verify. fold c.
  destruct (negb (block_epoch (inner b) =? epoch c)) eqn:He; reflect_bools.
  { eexists; split; [done|]. split; [done|]. intros [[? _ _ _] _]. done. }
  destruct (block_round (inner b) =? 0) eqn:Hr; reflect_bools.
  { eexists; split; [done|]. split; [done|]. intros [[_ ? _ _] _]. lia. }
  destruct (negb (is_valid_index c (block_author (inner b)))) eqn:Ha.
  { eexists; split; [done|]. split; [done|]. intros [[_ _ Ha' _] _].
    unfold is_valid_index in Ha. reflect_bools. lia. }
  unfold verify_signature. fold c. rewrite Ha. unfold is_valid_index in Ha. reflect_bools.
  unfold committee_authority. destruct (vec_index_lt _ _ Ha) as [a ->]. simpl.
  destruct (verify_block_signature _ _ _) as [[]|e].
  2:{ eexists; split; [done|]. naive_solver. }
  destruct (committee_size c <? _) eqn:Hlen; reflect_bools.
  { eexists; split; [done|]. split; [done|]. intros [[_ _ _ Hv] _].
    apply (ancestors_valid_length self b ltac:(lia)) in Hv. fold c in Hv. lia. }
  case_bool_decide as Hnil.
  { eexists; split; [done|]. split; [done|]. intros [[_ _ _ [(x & rest & Hx & _) _ _ _ _ _]] _].
    congruence. }
  destruct (verify_ancestors_spec self b Hc ltac:(lia) [] _ (block_ancestors (inner b))
              (loop_state_init self b ltac:(lia))) as (r & Hr' & Hcases).
  simpl in Hr'. change (N.of_nat 0) with 0 in Hr'. fold c in Hr'. rewrite Hr'. simpl.
  assert (Hvalid := all_ok_ancestors_valid self b Hc ltac:(lia) _ Hnil). fold c in Hvalid.
  destruct Hcases as [(e & -> & Hno)|([seen stakes] & -> & Hok & (_ & _ & Hst))].
  { eexists; split; [done|]. split; [done|]. intros [[_ _ _ Hv] _]. tauto. }
  simpl in Hst. fold c in Hst. subst stakes.
  destruct (reached_quorum c _) eqn:Hq; simpl.
  2:{ eexists; split; [done|]. split; [done|]. intros [[_ _ _ Hv] _].
      apply Hvalid in Hv as [_ ?]. done. }
  eexists; split; [done|]. destruct (verify_batch _) as [[]|e]; simpl.
  - split; [|done]. intros _. split; [|done]. split; [done|lia|done|]. by apply Hvalid.
  - split; [done|]. by intros (_ & _ & ?).
Qed.

(** C11: [verify] never panics, whatever the block, and accepts exactly the blocks of the
    epoch with a round above genesis, a valid author and signature, a list of ancestors
    headed by the author's own, with distinct valid authors, lower rounds, known genesis
    blocks and a quorum of parents in the previous round, and valid transactions. *)
Theorem verify_outcome `{Crypto, TransactionVerifier} self b :
  let c := committee (bv_context self) in
  committee_wf c →
  ∃ r, verify self b = Ok r ∧
    (r = RustOk () ↔
      block_valid c (bv_genesis self) (inner b) ∧
      verify_signature b (bv_context self) = Ok (RustOk ()) ∧
      verify_batch (data <$> block_transactions (inner b)) = RustOk ()).
Proof. apply verify_accepts. Qed.

(** The greatest timestamp of a list of blocks. *)
Definition max_timestamp (bs : list VerifiedBlock) : BlockTimestampMs :=
  foldr (λ b m, N.max (vb_timestamp_ms b) m) 0 bs.

Lemma max_timestamp_le bs t :
  max_timestamp bs ≤ t ↔ ∀ b, b ∈ bs → vb_timestamp_ms b ≤ t.
Proof.
  unfold max_timestamp. induction bs as [|b bs IH]; simpl.
  - split; [set_solver|lia].
  - rewrite N.max_lub_iff, IH. set_solver.
Qed.

Lemma check_ancestors_loop bs m :
  foldM (λ max_timestamp_ms '(ancestor_ref, ancestor_block),
      _ ← assert_ (bool_decide (ancestor_ref = reference ancestor_block))
            "assertion failed: ancestor_ref == ancestor_block.reference()";
      Ok (N.max max_timestamp_ms (vb_timestamp_ms ancestor_block)))
    m (zip (reference <$> bs) bs) = Ok (N.max m (max_timestamp bs)).
Proof.
  revert m. induction bs as [|b bs IH]; intros m; simpl.
  - by rewrite N.max_0_r.
  - rewrite bool_decide_eq_true_2 by done. simpl.
    etrans; [apply IH|]. f_equal. lia.
Qed.

(** On a block and the blocks its ancestors refer to, [check_ancestors] does not
    panic; it accepts exactly when no ancestor has a later timestamp than the block, and
    otherwise reports the latest timestamp. *)
Lemma check_ancestors_outcome b ancestors :
  vb_ancestors b = reference <$> ancestors →
  check_ancestors b ancestors =
    Ok (if bool_decide (Forall (λ a, vb_timestamp_ms a ≤ vb_timestamp_ms b) ancestors)
        then RustOk ()
        else RustErr (InvalidBlockTimestamp (max_timestamp ancestors) (vb_timestamp_ms b))).
Proof.
  intros Hb. unfold check_ancestors, signed_block_verifier_check.
  rewrite Hb, length_fmap, N.eqb_refl. simpl. rewrite check_ancestors_loop. simpl.
  replace (N.max 0 (max_timestamp ancestors)) with (max_timestamp ancestors) by lia.
  case_bool_decide as Hle; rewrite Forall_forall, <-max_timestamp_le in Hle.
  - by rewrite (proj2 (N.ltb_ge _ _)) by done.
  - by rewrite (proj2 (N.ltb_lt _ _)) by lia.
Qed.

(** What the block manager relies on of a verifier. *)
Class BlockVerifierSpec `{BlockVerifier} : Prop := check_ancestors_spec b ancestors :
  vb_ancestors b = reference <$> ancestors →
  ∃ r, check_ancestors b ancestors = Ok r ∧
    (r = RustOk () ↔ Forall (λ a, vb_timestamp_ms a ≤ vb_timestamp_ms b) ancestors).

#[export] Instance signed_block_verifier_spec :
  BlockVerifierSpec (H := signed_block_verifier_check).
Proof.
  intros b ancestors Hb. rewrite check_ancestors_outcome by done. eexists; split; [done|].
  by case_bool_decide.
Qed.
