(* ===== verification/Store.v ===== *)
(** Consensus storage ([consensus/core/src/storage]).  The trait [Store] is a class of
    operations; [StoreSpec] states what its clients rely on, through the maps of blocks,
    commits and commit info a store holds, and [MemStore], the in-memory implementation,
    discharges it.  [load_committed_subdag_from_store] of [commit.rs] is a client. *)

From stdpp Require Import base strings numbers sorting gmap sets list.
From S2P Require Import Prelude Committee Block Commit.

Open Scope N_scope.

(** Data to be written to the store together atomically. *)
Record WriteBatch := mkWriteBatch {
  wb_blocks : list VerifiedBlock;
  wb_commits : list TrustedCommit;
  wb_commit_info : list (CommitRef * CommitInfo);
}.

(** A common interface for consensus storage: the operations the consensus core calls.
    An operation that writes returns the store it leaves. *)
Class Store (S : Type) := {
  store_write : S → WriteBatch → ConsensusResult S;
  store_read_blocks : S → list BlockRef → ConsensusResult (list (option VerifiedBlock));
  store_contains_blocks : S → list BlockRef → ConsensusResult (list bool);
  store_contains_block_at_slot : S → Slot → outcome (ConsensusResult bool);
  store_scan_blocks_by_author :
    S → AuthorityIndex → Round → outcome (ConsensusResult (list VerifiedBlock));
  store_read_last_commit : S → ConsensusResult (option TrustedCommit);
  store_scan_commits : S → CommitRange → outcome (ConsensusResult (list TrustedCommit));
  store_read_commit_votes : S → CommitIndex → outcome (ConsensusResult (list BlockRef));
  store_read_last_commit_info : S → ConsensusResult (option (CommitRef * CommitInfo));
}.

Abbreviation CommitKey := (CommitIndex * CommitDigest)%type.

Definition insert_blocks (bs : list VerifiedBlock) (m : gmap BlockRef VerifiedBlock) :=
  foldl (λ m b, <[reference b := b]> m) m bs.

Definition insert_commits (cs : list TrustedCommit) (m : gmap CommitKey TrustedCommit) :=
  foldl (λ m c, <[(commit_index c, tc_digest c) := c]> m) m cs.

Definition insert_commit_info (cs : list (CommitRef * CommitInfo)) (m : gmap CommitKey CommitInfo) :=
  foldl (λ m '(r, i), <[(cr_index r, cr_digest r) := i]> m) m cs.

(** What the clients of a store rely on: reads answer from the maps of blocks, commits
    and commit info, and a write adds its batch to them.  A store whose reads and writes
    fail is outside the contract: the callers panic on a storage error. *)
Class StoreSpec (S : Type) `{Store S} := {
  blocks_of : S → gmap BlockRef VerifiedBlock;
  commits_of : S → gmap CommitKey TrustedCommit;
  commit_info_of : S → gmap CommitKey CommitInfo;
  store_inv : S → Prop;
  store_inv_reference s r b :
    store_inv s → blocks_of s !! r = Some b → reference b = r ∧ ref_in_bounds r;
  store_write_spec s batch :
    store_inv s → Forall (λ b, ref_in_bounds (reference b)) (wb_blocks batch) →
    ∃ s', store_write s batch = RustOk s' ∧ store_inv s' ∧
      blocks_of s' = insert_blocks (wb_blocks batch) (blocks_of s) ∧
      commits_of s' = insert_commits (wb_commits batch) (commits_of s) ∧
      commit_info_of s' = insert_commit_info (wb_commit_info batch) (commit_info_of s);
  store_read_blocks_spec s refs : store_inv s →
    store_read_blocks s refs = RustOk ((λ r, blocks_of s !! r) <$> refs);
  store_contains_blocks_spec s refs : store_inv s →
    store_contains_blocks s refs = RustOk ((λ r, bool_decide (is_Some (blocks_of s !! r))) <$> refs);
  store_scan_blocks_by_author_spec s a start : store_inv s → start ≤ U32_MAX →
    ∃ l, store_scan_blocks_by_author s a start = Ok (RustOk l) ∧
      ∀ b, b ∈ l ↔ blocks_of s !! reference b = Some b ∧ vb_author b = a ∧
                   start ≤ vb_round b;
  store_read_last_commit_spec s : store_inv s →
    store_read_last_commit s = RustOk (snd <$> bt_last_key_value (commits_of s));
  store_scan_commits_spec s r : store_inv s → range_start r ≤ range_end r →
    store_scan_commits s r = Ok (RustOk (snd <$>
      filter (λ p, in_range (Included (range_start r, DIGEST_MIN))
                            (Excluded (range_end r, DIGEST_MIN)) p.1 = true)
        (bt_items (commits_of s))));
  store_read_last_commit_info_spec s : store_inv s →
    store_read_last_commit_info s =
      RustOk ((λ p, (mkCommitRef p.1.1 p.1.2, p.2)) <$> bt_last_key_value (commit_info_of s));
}.

(** ** The in-memory store *)

Record MemStore := mkMemStore {
  ms_blocks : gmap (Round * AuthorityIndex * BlockDigest) VerifiedBlock;
  ms_digests_by_authorities : gset (AuthorityIndex * Round * BlockDigest);
  ms_commits : gmap CommitKey TrustedCommit;
  ms_commit_votes : gset (CommitIndex * CommitDigest * BlockRef);
  ms_commit_info : gmap CommitKey CommitInfo;
}.

Definition mem_store_new : MemStore := mkMemStore ∅ ∅ ∅ ∅ ∅.

Definition BLOCK_REF_MIN : BlockRef := mkBlockRef 0 0 DIGEST_MIN.
Definition BLOCK_REF_MAX : BlockRef := mkBlockRef U32_MAX U32_MAX DIGEST_MAX.

Definition mem_write_block (s : MemStore) (b : VerifiedBlock) : MemStore :=
  let block_ref := reference b in
  mkMemStore
    (<[(br_round block_ref, br_author block_ref, br_digest block_ref) := b]> (ms_blocks s))
    ({[(br_author block_ref, br_round block_ref, br_digest block_ref)]}
       ∪ ms_digests_by_authorities s)
    (ms_commits s)
    (foldl (λ votes vote, {[(cr_index vote, cr_digest vote, block_ref)]} ∪ votes)
       (ms_commit_votes s) (vb_commit_votes b))
    (ms_commit_info s).

Definition mem_write (s : MemStore) (write_batch : WriteBatch) : ConsensusResult MemStore :=
  let s := foldl mem_write_block s (wb_blocks write_batch) in
  RustOk (mkMemStore (ms_blocks s) (ms_digests_by_authorities s)
    (insert_commits (wb_commits write_batch) (ms_commits s))
    (ms_commit_votes s)
    (insert_commit_info (wb_commit_info write_batch) (ms_commit_info s))).

Definition mem_read_blocks (s : MemStore) (refs : list BlockRef) :
    ConsensusResult (list (option VerifiedBlock)) :=
  RustOk ((λ r, ms_blocks s !! (br_round r, br_author r, br_digest r)) <$> refs).

Definition mem_contains_blocks (s : MemStore) (refs : list BlockRef) :
    ConsensusResult (list bool) :=
  RustOk ((λ r, bool_decide (is_Some (ms_blocks s !! (br_round r, br_author r, br_digest r))))
            <$> refs).

Definition mem_scan_blocks_by_author (s : MemStore) (author : AuthorityIndex)
    (start_round : Round) : outcome (ConsensusResult (list VerifiedBlock)) :=
  keys ← bt_set_range (Included (author, start_round, DIGEST_MIN))
           (Included (author, U32_MAX, DIGEST_MAX)) (ms_digests_by_authorities s);
  let refs := (λ '((author, round, digest) : N * N * N), mkBlockRef round author digest) <$> keys in
  match mem_read_blocks s refs with
  | RustErr e => Ok (RustErr e)
  | RustOk results =>
      blocks ← mapM (λ '(r, block), expect block "Block not found!") (zip refs results);
      Ok (RustOk blocks)
  end.

Definition mem_contains_block_at_slot (s : MemStore) (slot : Slot) :
    outcome (ConsensusResult bool) :=
  found ← bt_set_range (Included (slot_authority slot, slot_round slot, DIGEST_MIN))
            (Included (slot_authority slot, slot_round slot, DIGEST_MAX))
            (ms_digests_by_authorities s);
  Ok (RustOk (bool_decide (is_Some (head found)))).

Definition mem_read_last_commit (s : MemStore) : ConsensusResult (option TrustedCommit) :=
  RustOk (snd <$> bt_last_key_value (ms_commits s)).

Definition mem_scan_commits (s : MemStore) (range : CommitRange) :
    outcome (ConsensusResult (list TrustedCommit)) :=
  commits ← bt_range (Included (range_start range, DIGEST_MIN))
              (Excluded (range_end range, DIGEST_MIN)) (ms_commits s);
  Ok (RustOk commits.*2).

Definition mem_read_commit_votes (s : MemStore) (commit_index : CommitIndex) :
    outcome (ConsensusResult (list BlockRef)) :=
  votes ← bt_set_range (Included (commit_index, DIGEST_MIN, BLOCK_REF_MIN))
            (Included (commit_index, DIGEST_MAX, BLOCK_REF_MAX)) (ms_commit_votes s);
  Ok (RustOk votes.*2).

Definition mem_read_last_commit_info (s : MemStore) :
    ConsensusResult (option (CommitRef * CommitInfo)) :=
  RustOk ((λ p, (mkCommitRef p.1.1 p.1.2, p.2)) <$> bt_last_key_value (ms_commit_info s)).

#[export] Instance mem_store : Store MemStore := {
  store_write := mem_write;
  store_read_blocks := mem_read_blocks;
  store_contains_blocks := mem_contains_blocks;
  store_contains_block_at_slot := mem_contains_block_at_slot;
  store_scan_blocks_by_author := mem_scan_blocks_by_author;
  store_read_last_commit := mem_read_last_commit;
  store_scan_commits := mem_scan_commits;
  store_read_commit_votes := mem_read_commit_votes;
  store_read_last_commit_info := mem_read_last_commit_info;
}.

(** ** The in-memory store implements the interface *)

Definition ref_of_tuple (t : Round * AuthorityIndex * BlockDigest) : BlockRef :=
  mkBlockRef t.1.1 t.1.2 t.2.

#[export] Instance ref_of_tuple_inj : Inj (=) (=) ref_of_tuple.
Proof. intros [[]] [[]] [=]. by subst. Qed.

Definition mem_blocks_of (s : MemStore) : gmap BlockRef VerifiedBlock :=
  kmap ref_of_tuple (ms_blocks s).

(** The index by author lists exactly the blocks stored, each under its reference. *)
Definition mem_store_inv (s : MemStore) : Prop :=
  (∀ r a d b, ms_blocks s !! (r, a, d) = Some b →
     reference b = mkBlockRef r a d ∧ ref_in_bounds (mkBlockRef r a d)) ∧
  (∀ a r d, (a, r, d) ∈ ms_digests_by_authorities s ↔ is_Some (ms_blocks s !! (r, a, d))).

Lemma mem_blocks_lookup s r :
  mem_blocks_of s !! r = ms_blocks s !! (br_round r, br_author r, br_digest r).
Proof.
  unfold mem_blocks_of. destruct r as [rd a d].
  change (mkBlockRef rd a d) with (ref_of_tuple (rd, a, d)). apply lookup_kmap, _.
Qed.

Lemma mem_write_block_spec s b :
  mem_store_inv s → ref_in_bounds (reference b) →
  mem_store_inv (mem_write_block s b) ∧
  mem_blocks_of (mem_write_block s b) = <[reference b := b]> (mem_blocks_of s) ∧
  ms_commits (mem_write_block s b) = ms_commits s ∧
  ms_commit_info (mem_write_block s b) = ms_commit_info s.
Proof.
  intros [Hkey Hidx] Hbd. split_and!; try done.
  - split; simpl.
    + intros r a d b'. destruct (decide ((vb_round b, vb_author b, digest b) = (r, a, d))) as [He|He].
      * rewrite He, lookup_insert_eq. intros [= <-]. by simplify_eq/=.
      * rewrite lookup_insert_ne by done. apply Hkey.
    + intros a r d. rewrite elem_of_union, elem_of_singleton, Hidx.
      rewrite lookup_insert_is_Some'. naive_solver.
  - apply map_eq. intros r. rewrite mem_blocks_lookup. simpl.
    destruct (decide (reference b = r)) as [<-|Hne].
    + by rewrite !lookup_insert_eq.
    + rewrite !lookup_insert_ne, mem_blocks_lookup; [done..|].
      destruct r. unfold reference in Hne. simpl. congruence.
Qed.

Lemma mem_write_blocks_spec bs s :
  mem_store_inv s → Forall (λ b, ref_in_bounds (reference b)) bs →
  mem_store_inv (foldl mem_write_block s bs) ∧
  mem_blocks_of (foldl mem_write_block s bs) = insert_blocks bs (mem_blocks_of s) ∧
  ms_commits (foldl mem_write_block s bs) = ms_commits s ∧
  ms_commit_info (foldl mem_write_block s bs) = ms_commit_info s.
Proof.
  intros Hs Hbs. revert s Hs. induction Hbs as [|b bs Hb' Hbs IH]; intros s Hs; simpl; [done|].
  destruct (mem_write_block_spec s b Hs Hb') as (Hs' & Hb & Hc & Hi).
  destruct (IH _ Hs') as (? & -> & -> & ->). by rewrite Hb, Hc, Hi.
Qed.

Lemma in_range_author (a r d author start : N) :
  in_range (Included (author, start, DIGEST_MIN)) (Included (author, U32_MAX, DIGEST_MAX))
    (a, r, d) = true ↔ a = author ∧ start ≤ r ∧ r ≤ U32_MAX ∧ (r = U32_MAX → d ≤ DIGEST_MAX).
Proof.
  unfold in_range. rewrite andb_true_iff, !ord_prod_leb; simpl.
  unfold ord_leb, ord_N. rewrite !N.leb_le. unfold DIGEST_MIN. lia.
Qed.

Lemma mem_scan_blocks_by_author_spec s a start :
  mem_store_inv s → start ≤ U32_MAX →
  ∃ l, mem_scan_blocks_by_author s a start = Ok (RustOk l) ∧
    ∀ b, b ∈ l ↔ mem_blocks_of s !! reference b = Some b ∧ vb_author b = a ∧ start ≤ vb_round b.
Proof.
  intros [Hkey Hidx] Hstart. unfold mem_scan_blocks_by_author, bt_set_range.
  destruct (range_valid _ _) eqn:Hv; simpl; [clear Hv|].
  2:{ exfalso. apply not_true_iff_false in Hv. apply Hv. simpl.
      rewrite !ord_prod_leb; simpl. unfold ord_leb, ord_N. rewrite !N.leb_le.
      unfold DIGEST_MIN. lia. }
  set (refs := _ <$> _). unfold mem_read_blocks.
  assert (Hrefs : ∀ r, r ∈ refs ↔
    br_author r = a ∧ start ≤ br_round r ∧ is_Some (ms_blocks s !! (br_round r, br_author r, br_digest r))).
  { intros [r a' d]. simpl. unfold refs. rewrite list_elem_of_fmap. split.
    - intros ([[a1 r1] d1] & ? & Hin). simplify_eq.
      rewrite list_elem_of_filter, elem_of_bt_elements, Hidx, in_range_author in Hin. naive_solver.
    - intros (-> & Hr & [b Hb]). exists (a, r, d). split; [done|].
      rewrite list_elem_of_filter, elem_of_bt_elements, Hidx, in_range_author.
      destruct (Hkey _ _ _ _ Hb) as [_ (? & ? & ?)]; simpl in *. naive_solver. }
  destruct (mapM_zip_expect (λ r, ms_blocks s !! (br_round r, br_author r, br_digest r)) refs
              "Block not found!") as (l & -> & Hl); [naive_solver|].
  exists l. split; [done|]. intros b. rewrite Hl, mem_blocks_lookup. split.
  - intros (r & (Ha & Hst & _)%Hrefs & Hb). destruct (Hkey _ _ _ _ Hb) as [Href _].
    destruct r. unfold reference in Href. by simplify_eq/=.
  - intros (Hb & Ha & Hst). exists (reference b). rewrite Hrefs. naive_solver.
Qed.

#[export] Program Instance mem_store_spec : StoreSpec MemStore := {|
  blocks_of := mem_blocks_of;
  commits_of := ms_commits;
  commit_info_of := ms_commit_info;
  store_inv := mem_store_inv;
|}.
Next Obligation.
  intros s [r a d] b [Hkey _]. rewrite mem_blocks_lookup. apply Hkey.
Qed.
Next Obligation.
  intros s batch Hs Hb. destruct (mem_write_blocks_spec (wb_blocks batch) s Hs Hb)
    as (Hinv & Hbl & Hc & Hi).
  eexists. split; [done|]. simpl. rewrite Hc, Hi. done.
Qed.
Next Obligation.
  intros s refs _. simpl. unfold mem_read_blocks. f_equal.
  apply list_fmap_ext. intros _ r _. by rewrite mem_blocks_lookup.
Qed.
Next Obligation.
  intros s refs _. simpl. unfold mem_contains_blocks. f_equal.
  apply list_fmap_ext. intros _ r _. by rewrite mem_blocks_lookup.
Qed.
Next Obligation. apply mem_scan_blocks_by_author_spec. Qed.
Next Obligation. done. Qed.
Next Obligation.
  intros s r _ Hr. simpl. unfold mem_scan_commits, bt_range.
  replace (range_valid _ _) with true; [done|]. symmetry. simpl.
  rewrite ord_prod_leb. simpl. unfold ord_leb, ord_N. rewrite !N.leb_le. unfold DIGEST_MIN. lia.
Qed.
Next Obligation. done. Qed.

Lemma mem_store_new_inv : mem_store_inv mem_store_new.
Proof. split; [done|]. intros a r d. simpl. rewrite lookup_empty, is_Some_alt. set_solver. Qed.

(** ** Recovery of a committed sub-dag *)

(** [load_committed_subdag_from_store]: the loop of the closure passed to [map] records
    the position of the leader while it unwraps the blocks. *)
Definition load_committed_subdag_from_store {St} `{Store St} (store : St) (commit : TrustedCommit) :
    outcome CommittedSubDag :=
  commit_blocks ← match store_read_blocks store (commit_blocks commit) with
                  | RustOk l => Ok l
                  | RustErr _ => Panic "We should have the block referenced in the commit data"
                  end;
  '(blocks, leader_block_idx) ← foldM (λ '(blocks, leader_block_idx) commit_block_opt,
      commit_block ← expect commit_block_opt
                       "We should have the block referenced in the commit data";
      let idx := N.of_nat (length blocks) in
      Ok (blocks ++ [commit_block],
          if bool_decide (reference commit_block = commit_leader commit)
          then Some idx else leader_block_idx))
    ([], None) commit_blocks;
  leader_block_idx ← expect leader_block_idx "Leader block must be in the sub-dag";
  leader_block ← vec_index blocks leader_block_idx;
  Ok (committed_sub_dag_new (reference leader_block) blocks (commit_timestamp_ms commit)
        (commit_reference commit)).

Lemma load_loop_spec leader (l : list VerifiedBlock) acc idx msg :
  ∃ idx', foldM (λ '(blocks, leader_block_idx) commit_block_opt,
      commit_block ← expect commit_block_opt msg;
      let i := N.of_nat (length blocks) in
      Ok (blocks ++ [commit_block],
          if bool_decide (reference commit_block = leader)
          then Some i else leader_block_idx))
    (acc, idx) (Some <$> l) = Ok (acc ++ l, idx') ∧
  ((leader ∈ reference <$> l ∧ ∃ i b, idx' = Some (N.of_nat i) ∧
      (acc ++ l) !! i = Some b ∧ reference b = leader) ∨
   (leader ∉ reference <$> l ∧ idx' = idx)).
Proof.
  revert acc idx. induction l as [|b l IH]; intros acc idx; simpl.
  - exists idx. rewrite app_nil_r. split; [done|]. right. split; [apply not_elem_of_nil|done].
  - edestruct IH as (idx' & Hfold & Hidx). exists idx'. split.
    { etrans; [apply Hfold|]. by rewrite <-app_assoc. }
    rewrite <-app_assoc in Hidx. simpl in Hidx. rewrite elem_of_cons.
    destruct Hidx as [(Hin & i & b' & Hi)|[Hnin ->]]; [left; naive_solver|].
    case_bool_decide as Hb.
    + left. split; [by left|]. exists (length acc), b. split_and!; [done| |done].
      by apply list_lookup_middle.
    + right. naive_solver.
Qed.

Lemma load_loop_found {X Y} (g : X → Y → VerifiedBlock → X * Y) l acc res msg :
  foldM (λ '(blocks, idx) commit_block_opt,
    commit_block ← expect commit_block_opt msg; Ok (g blocks idx commit_block)) acc l = Ok res →
  ∃ bs, l = Some <$> bs.
Proof.
  revert acc. induction l as [|o l IH]; intros [x y] Hf; simpl in Hf; [by exists []|].
  inv_ok. edestruct IH as [bs ->]; [done|]. eexists (_ :: bs). rewrite fmap_cons. by f_equal.
Qed.

(** Loading succeeds exactly when the store has every block of the commit and the leader
    is one of them; the sub-dag has the blocks in the commit's order. *)
Lemma load_committed_subdag_spec {St} `{StoreSpec St} (s : St) c sd :
  store_inv s →
  load_committed_subdag_from_store s c = Ok sd ↔
  ∃ bs, Forall2 (λ r b, blocks_of s !! r = Some b) (commit_blocks c) bs ∧
        commit_leader c ∈ commit_blocks c ∧
        sd = committed_sub_dag_new (commit_leader c) bs (commit_timestamp_ms c) (commit_reference c).
Proof.
  intros Hs. unfold load_committed_subdag_from_store.
  rewrite store_read_blocks_spec by done. simpl. setoid_rewrite Forall2_fmap_Some.
  assert (Hrefs : ∀ bs, (λ r, blocks_of s !! r) <$> commit_blocks c = Some <$> bs →
    reference <$> bs = commit_blocks c).
  { intros bs Hbs%Forall2_fmap_Some. induction Hbs as [|r b rs bs Hb _ IH]; [done|].
    rewrite fmap_cons, IH. f_equal. by eapply store_inv_reference in Hb as []. }
  split.
  - intros Hl. apply bind_Ok in Hl as ([bs' idx'] & Hf & Hl).
    destruct (load_loop_found _ _ _ _ _ Hf) as [bs Hbs]. exists bs. split; [done|].
    edestruct (load_loop_spec (commit_leader c) bs [] None) as (idx & Hf' & Hidx).
    rewrite Hbs in Hf. rewrite Hf' in Hf. rewrite Hrefs in Hidx by done. inv_ok.
    destruct Hidx as [(? & i & b & Hi & Hb & Hr)|[? ?]]; [|done].
    simplify_eq. rewrite Nat2N.id in *. simplify_eq. by rewrite Hr.
  - intros (bs & Hbs & Hleader & ->). rewrite Hbs.
    edestruct (load_loop_spec (commit_leader c) bs [] None) as (idx & -> & Hidx).
    rewrite Hrefs in Hidx by done. destruct Hidx as [(_ & i & b & -> & Hi & Hr)|[? _]]; [|done].
    simpl in *. unfold vec_index. rewrite Nat2N.id, Hi. simpl. by rewrite Hr.
Qed.

(** The in-memory store refines the maps of blocks and commits: after a write, reads
    return the new blocks and the old ones, existence checks agree with them, and a scan by
    author returns exactly the author's blocks from the round on. *)
Theorem mem_store_refines s batch :
  mem_store_inv s → Forall (λ b, ref_in_bounds (reference b)) (wb_blocks batch) →
  ∃ s', mem_write s batch = RustOk s' ∧ mem_store_inv s' ∧
    (let m := insert_blocks (wb_blocks batch) (mem_blocks_of s) in
     (∀ refs, mem_read_blocks s' refs = RustOk ((λ r, m !! r) <$> refs)) ∧
     (∀ refs, mem_contains_blocks s' refs = RustOk ((λ r, bool_decide (is_Some (m !! r))) <$> refs)) ∧
     (∀ a start, start ≤ U32_MAX → ∃ l, mem_scan_blocks_by_author s' a start = Ok (RustOk l) ∧
        ∀ b, b ∈ l ↔ m !! reference b = Some b ∧ vb_author b = a ∧ start ≤ vb_round b)) ∧
    mem_read_last_commit s' =
      RustOk (snd <$> bt_last_key_value (insert_commits (wb_commits batch) (ms_commits s))).
Proof.
  intros Hs Hb. destruct (@store_write_spec MemStore mem_store mem_store_spec s batch Hs Hb) as (s' & Hw & Hs' & Hbl & Hcm & _).
  exists s'. split; [exact Hw|]. split; [exact Hs'|].
  change (blocks_of s') with (mem_blocks_of s') in Hbl. change (blocks_of s) with (mem_blocks_of s) in Hbl.
  cbv zeta. rewrite <-Hbl. split_and!.
  - intros refs. exact (store_read_blocks_spec s' refs Hs').
  - intros refs. exact (store_contains_blocks_spec s' refs Hs').
  - intros a start Hst. exact (store_scan_blocks_by_author_spec s' a start Hs' Hst).
  - change (insert_commits (wb_commits batch) (ms_commits s)) with
      (insert_commits (wb_commits batch) (commits_of s)). rewrite <-Hcm.
    exact (store_read_last_commit_spec s' Hs').
Qed.
