(* ===== verification/TypedStore.v ===== *)
(** Maps over column families of RocksDB ([crates/typed-store/src/rocks/mod.rs]): keys are
    serialized so that the order of the bytes is that of the keys, and a range of keys becomes a
    range of bytes.  RocksDB itself keeps the entries in the order of the bytes of their keys and
    iterates from a lower bound, inclusive, to an upper bound, exclusive. *)

From Stdlib Require Import Strings.Byte.
From stdpp Require Import base strings numbers sorting gmap sets list.
From S2P Require Import Prelude Committee.

Open Scope N_scope.

(** ** Byte strings *)

(** The order of RocksDB: byte by byte, a prefix first. *)
Fixpoint bytes_leb (v w : bytes) : bool :=
  match v, w with
  | [], _ => true
  | _ :: _, [] => false
  | x :: v, y :: w => (Byte.to_N x <? Byte.to_N y) || (Byte.to_N x =? Byte.to_N y) && bytes_leb v w
  end.

Definition bytes_ltb (v w : bytes) : bool := negb (bytes_leb w v).

Definition is_max (v : bytes) : bool := forallb (λ x, Byte.eqb x Byte.xff) v.

Definition byte_succ (x : Byte.byte) : Byte.byte := default Byte.x00 (Byte.of_N (Byte.to_N x + 1)).

(** The loop from the last byte on; the bytes are in reverse order. *)
Fixpoint add_one_loop (v : bytes) : bytes :=
  match v with
  | [] => []
  | x :: v => if Byte.eqb x Byte.xff then Byte.x00 :: add_one_loop v else byte_succ x :: v
  end.

Definition big_endian_saturating_add_one (v : bytes) : bytes :=
  if is_max v then v else rev (add_one_loop (rev v)).

(** ** Ranges of keys *)

(** [be_fix_int_ser], which is [bincode] with big-endian integers of a fixed length. *)
Class KeySerializer (K : Type) := be_fix_int_ser : K → bytes.

(** The keys whose integers have the width of their types. *)
Class KeyWidth (K : Type) := key_ok : K → Prop.

(** What the maps rely on of the serializer: a length for each type of keys, and their order. *)
Class KeySerializerSpec (K : Type) `{Ord K, KeyWidth K, KeySerializer K} := {
  key_length : nat;
  ser_length k : key_ok k → length (be_fix_int_ser k) = key_length;
  ser_order k k' : key_ok k → key_ok k' → bytes_leb (be_fix_int_ser k) (be_fix_int_ser k') = ord_leb k k';
}.

(** The bounds of the iterators that [create_read_options_with_range] sets. *)
Record ReadOptions := mkReadOptions {
  iterate_lower_bound : option bytes;
  iterate_upper_bound : option bytes;
}.

Definition create_read_options_with_range `{KeySerializer K} (lower_bound upper_bound : Bound K) : ReadOptions :=
  mkReadOptions
    match lower_bound with
    | Included k => Some (be_fix_int_ser k)
    | Excluded k => Some (big_endian_saturating_add_one (be_fix_int_ser k))
    | Unbounded => None
    end
    match upper_bound with
    | Included k =>
        let key_buf := be_fix_int_ser k in
        if negb (is_max key_buf) then Some (big_endian_saturating_add_one key_buf) else None
    | Excluded k => Some (be_fix_int_ser k)
    | Unbounded => None
    end.

(** The keys between the bounds. *)
Definition iterates (opts : ReadOptions) (key : bytes) : bool :=
  match iterate_lower_bound opts with Some lower => bytes_leb lower key | None => true end &&
  match iterate_upper_bound opts with Some upper => bytes_ltb key upper | None => true end.

(** ** RocksDB *)

(** The cursors of RocksDB, over the entries of a column family between the bounds of options;
    keys and values deserialize to what was stored. *)
Class RocksDB (Cursor : Type → Type → Type) := {
  raw_iterator_cf K V `{Countable K, !KeySerializer K} : gmap K V → ReadOptions → Cursor K V;
  seek_to_first K V : Cursor K V → Cursor K V;
  seek_to_last K V : Cursor K V → Cursor K V;
  raw_next K V : Cursor K V → Cursor K V;
  raw_prev K V : Cursor K V → Cursor K V;
  (** The key and the value at the cursor, if it is valid. *)
  raw_entry K V : Cursor K V → option (K * V);
}.
Arguments raw_iterator_cf {_ _ K V _ _ _} _ _.
Arguments seek_to_first {_ _ K V} _.
Arguments seek_to_last {_ _ K V} _.
Arguments raw_next {_ _ K V} _.
Arguments raw_prev {_ _ K V} _.
Arguments raw_entry {_ _ K V} _.

(** What a cursor stands for: a list of entries, and a place in it unless it is invalid. *)
Record CursorView (K V : Type) := mkCursorView {
  cv_entries : list (K * V);
  cv_position : option nat;
}.
Arguments mkCursorView {K V} _ _.
Arguments cv_entries {K V} _.
Arguments cv_position {K V} _.

Section view.
Context {K V : Type}.
Implicit Types (v : CursorView K V).

Definition view_seek (i : nat) v : CursorView K V :=
  mkCursorView (cv_entries v) (if (i <? length (cv_entries v))%nat then Some i else None).

Definition view_next v : CursorView K V :=
  match cv_position v with Some i => view_seek (S i) v | None => v end.

Definition view_prev v : CursorView K V :=
  match cv_position v with
  | Some (S i) => view_seek i v
  | _ => mkCursorView (cv_entries v) None
  end.

Definition view_entry v : option (K * V) := i ← cv_position v; cv_entries v !! i.
End view.

(** The entries between the bounds of the options, in the order of the bytes of their keys. *)
Definition entries_between `{Countable K, !KeySerializer K} {V} (m : gmap K V) (readopts : ReadOptions) : list (K * V) :=
  filter (λ p, iterates readopts (be_fix_int_ser p.1) = true)
    (sort_by (λ p q, bytes_leb (be_fix_int_ser p.1) (be_fix_int_ser q.1)) (map_to_list m)).

(** The documented behaviour of the iterators of RocksDB. *)
Class RocksDBSpec (Cursor : Type → Type → Type) `{RocksDB Cursor} := {
  cursor_view K V : Cursor K V → CursorView K V;
  raw_iterator_cf_view K V `{Countable K, !KeySerializer K} (m : gmap K V) readopts :
    cursor_view K V (raw_iterator_cf m readopts) = mkCursorView (entries_between m readopts) None;
  seek_to_first_view K V c : cursor_view K V (seek_to_first c) = view_seek 0 (cursor_view K V c);
  seek_to_last_view K V c :
    cursor_view K V (seek_to_last c) = view_seek (pred (length (cv_entries (cursor_view K V c)))) (cursor_view K V c);
  raw_next_view K V c : cursor_view K V (raw_next c) = view_next (cursor_view K V c);
  raw_prev_view K V c : cursor_view K V (raw_prev c) = view_prev (cursor_view K V c);
  raw_entry_view K V (c : Cursor K V) : raw_entry c = view_entry (cursor_view K V c);
}.
Arguments cursor_view {_ _ _ K V} _.

(** ** Iterators *)

Inductive Direction := Forward | Reverse.

Record SafeIter (C : Type) := mkSafeIter {
  db_iter : C;
  direction : Direction;
  is_initialized : bool;
}.
Arguments mkSafeIter {C} _ _ _.
Arguments db_iter {C} _.
Arguments direction {C} _.
Arguments is_initialized {C} _.

Section iterators.
Context `{RocksDB Cursor} {K V : Type}.
Implicit Types (iter : SafeIter (Cursor K V)).

(** [SafeIter::next]. *)
Definition safe_next iter : option (K * V) * SafeIter (Cursor K V) :=
  let iter :=
    if is_initialized iter then iter
    else mkSafeIter (seek_to_first (db_iter iter)) (direction iter) true in
  match raw_entry (db_iter iter) with
  | Some entry =>
      let moved := match direction iter with
                   | Forward => raw_next (db_iter iter)
                   | Reverse => raw_prev (db_iter iter)
                   end in
      (Some entry, mkSafeIter moved (direction iter) (is_initialized iter))
  | None => (None, iter)
  end.

Definition skip_to_last iter : SafeIter (Cursor K V) :=
  mkSafeIter (seek_to_last (db_iter iter)) (direction iter) true.

Definition reverse iter : SafeIter (Cursor K V) :=
  mkSafeIter (db_iter iter) Reverse (is_initialized iter).

(** What [take(n)] of an iterator gives. *)
Fixpoint iter_take (n : nat) iter : list (K * V) :=
  match n with
  | O => []
  | S n =>
      match safe_next iter with
      | (Some entry, iter) => entry :: iter_take n iter
      | (None, _) => []
      end
  end.
End iterators.

Section maps.
Context `{RocksDB Cursor, Countable K, !KeySerializer K} {V : Type}.

Definition safe_iter (m : gmap K V) : SafeIter (Cursor K V) :=
  mkSafeIter (raw_iterator_cf m (mkReadOptions None None)) Forward false.

Definition safe_range_iter (lo hi : Bound K) (m : gmap K V) : SafeIter (Cursor K V) :=
  let readopts := create_read_options_with_range lo hi in
  mkSafeIter (raw_iterator_cf m readopts) Forward false.

(** A loop over the iterator of a range, which ends after at most all the entries of the map. *)
Definition range_entries (lo hi : Bound K) (m : gmap K V) : list (K * V) :=
  iter_take (S (size m)) (safe_range_iter lo hi m).
End maps.

(** ** The numbers byte strings stand for *)

Fixpoint le_value (v : bytes) : N :=
  match v with
  | [] => 0
  | x :: v => Byte.to_N x + 256 * le_value v
  end.

Definition be_value (v : bytes) : N := le_value (rev v).

Lemma byte_bound (x : Byte.byte) : Byte.to_N x < 256.
Proof. pose proof (Byte.to_N_bounded x). lia. Qed.

Lemma byte_succ_value (x : Byte.byte) :
  Byte.eqb x Byte.xff = false → Byte.to_N (byte_succ x) = Byte.to_N x + 1.
Proof. by destruct x. Qed.

Lemma byte_max_value (x : Byte.byte) : Byte.eqb x Byte.xff = true ↔ Byte.to_N x = 255.
Proof. by destruct x. Qed.

Lemma le_value_app v w : le_value (v ++ w) = le_value v + 256 ^ N.of_nat (length v) * le_value w.
Proof.
  induction v as [|x v IH]; simpl le_value; [rewrite N.pow_0_r; lia|].
  rewrite IH. change (length (x :: v)) with (S (length v)).
  rewrite Nat2N.inj_succ, N.pow_succ_r'. lia.
Qed.

Lemma le_value_bound v : le_value v < 256 ^ N.of_nat (length v).
Proof.
  induction v as [|x v IH]; simpl le_value; [simpl; lia|].
  change (length (x :: v)) with (S (length v)).
  rewrite Nat2N.inj_succ, N.pow_succ_r'. pose proof (byte_bound x). lia.
Qed.

Lemma be_value_cons x v : be_value (x :: v) = 256 ^ N.of_nat (length v) * Byte.to_N x + be_value v.
Proof. unfold be_value. simpl. rewrite le_value_app, length_rev. simpl. lia. Qed.

Lemma be_value_bound v : be_value v < 256 ^ N.of_nat (length v).
Proof. unfold be_value. rewrite <-length_rev. apply le_value_bound. Qed.

(** On strings of the same length the order of the bytes is that of the numbers. *)
Lemma bytes_leb_value v w : length v = length w → bytes_leb v w = (be_value v <=? be_value w).
Proof.
  revert w. induction v as [|x v IH]; intros [|y w] Hl; try done.
  injection Hl as Hl. simpl. rewrite IH, !be_value_cons, <-Hl by done.
  pose proof (be_value_bound v). pose proof (be_value_bound w) as Hw. rewrite <-Hl in Hw.
  apply eq_true_iff_eq.
  rewrite orb_true_iff, andb_true_iff, N.ltb_lt, N.eqb_eq, !N.leb_le.
  destruct (N.lt_trichotomy (Byte.to_N x) (Byte.to_N y)) as [Hxy|[->|Hxy]]; [nia|lia|nia].
Qed.

Lemma is_max_value v : is_max v = true ↔ be_value v + 1 = 256 ^ N.of_nat (length v).
Proof.
  induction v as [|x v IH]; [done|]. unfold is_max in *. simpl.
  rewrite andb_true_iff, IH, be_value_cons, byte_max_value. clear IH.
  rewrite Nat2N.inj_succ, N.pow_succ_r'.
  pose proof (byte_bound x). pose proof (be_value_bound v). nia.
Qed.

Lemma add_one_loop_length v : length (add_one_loop v) = length v.
Proof. induction v as [|x v IH]; simpl; [done|]. destruct (Byte.eqb x Byte.xff); simpl; congruence. Qed.

Lemma add_one_loop_value v :
  le_value v + 1 < 256 ^ N.of_nat (length v) → le_value (add_one_loop v) = le_value v + 1.
Proof.
  induction v as [|x v IH]; [simpl; lia|]. cbn [add_one_loop le_value length].
  rewrite Nat2N.inj_succ, N.pow_succ_r'. intros Hlt.
  destruct (Byte.eqb x Byte.xff) eqn:Hx; cbn [le_value].
  - apply byte_max_value in Hx. rewrite IH by lia. simpl Byte.to_N. lia.
  - rewrite byte_succ_value by done. lia.
Qed.

Lemma big_endian_saturating_add_one_length v : length (big_endian_saturating_add_one v) = length v.
Proof.
  unfold big_endian_saturating_add_one. destruct (is_max v); [done|].
  by rewrite length_rev, add_one_loop_length, length_rev.
Qed.

(** The number is incremented unless it is the largest of its length. *)
Lemma big_endian_saturating_add_one_value v :
  be_value (big_endian_saturating_add_one v) = N.min (be_value v + 1) (256 ^ N.of_nat (length v) - 1).
Proof.
  unfold big_endian_saturating_add_one. pose proof (be_value_bound v) as Hb.
  destruct (is_max v) eqn:Hm.
  - apply is_max_value in Hm. lia.
  - apply not_true_iff_false in Hm. rewrite is_max_value in Hm.
    unfold be_value in *. rewrite rev_involutive, add_one_loop_value; rewrite ?length_rev; lia.
Qed.

(** ** Ranges of bytes are ranges of keys *)

Lemma bytes_ltb_value v w : length v = length w → bytes_ltb v w = (be_value v <? be_value w).
Proof. intros Hl. unfold bytes_ltb. by rewrite bytes_leb_value, N.leb_antisym, negb_involutive. Qed.

Lemma bytes_leb_add_one v w :
  length v = length w → is_max v = false → bytes_leb (big_endian_saturating_add_one v) w = bytes_ltb v w.
Proof.
  intros Hl Hm. apply not_true_iff_false in Hm. rewrite is_max_value in Hm.
  rewrite bytes_ltb_value, bytes_leb_value, big_endian_saturating_add_one_value
    by (rewrite ?big_endian_saturating_add_one_length; done).
  pose proof (be_value_bound v). apply eq_true_iff_eq. rewrite N.ltb_lt, N.leb_le. lia.
Qed.

Lemma bytes_leb_max v w : length v = length w → is_max v = true → bytes_leb w v = true.
Proof.
  intros Hl Hm%is_max_value. rewrite bytes_leb_value, N.leb_le by done.
  pose proof (be_value_bound w) as Hw. rewrite <-Hl in Hw. lia.
Qed.

Section ranges.
Context `{KeySerializerSpec K}.

Definition bound_ok (b : Bound K) : Prop :=
  match b with Included k | Excluded k => key_ok k | Unbounded => True end.

(** The one bound that has no counterpart: the largest key cannot be excluded from below. *)
Definition excludes_max (lo : Bound K) : bool :=
  match lo with Excluded k => is_max (be_fix_int_ser k) | _ => false end.

Lemma ser_same_length k k' : key_ok k → key_ok k' → length (be_fix_int_ser k) = length (be_fix_int_ser k').
Proof. intros. by rewrite !ser_length. Qed.

Lemma iterates_in_range lo hi k :
  bound_ok lo → bound_ok hi → key_ok k → excludes_max lo = false →
  iterates (create_read_options_with_range lo hi) (be_fix_int_ser k) = in_range lo hi k.
Proof.
  intros Hlo Hhi Hk Hmax. unfold iterates, in_range, create_read_options_with_range; simpl. f_equal.
  - destruct lo as [a|a|]; simpl in *; [by apply ser_order| |done].
    rewrite bytes_leb_add_one by auto using ser_same_length.
    unfold bytes_ltb, ord_ltb. by rewrite ser_order.
  - destruct hi as [b|b|]; simpl in *; [|unfold bytes_ltb, ord_ltb; by rewrite ser_order|done].
    destruct (is_max (be_fix_int_ser b)) eqn:Hb; simpl.
    + rewrite <-ser_order by done. symmetry. by apply bytes_leb_max; [apply ser_same_length|].
    + unfold bytes_ltb at 1. rewrite bytes_leb_add_one by auto using ser_same_length.
      unfold bytes_ltb. rewrite negb_involutive. by apply ser_order.
Qed.

(** Excluding the largest key from below does not exclude it: its successor saturates. *)
Lemma excluded_max_iterates `{!OrdLaws K} k :
  is_max (be_fix_int_ser k) = true →
  iterates (create_read_options_with_range (Excluded k) Unbounded) (be_fix_int_ser k) = true ∧
  in_range (Excluded k) Unbounded k = false.
Proof.
  intros Hmax. unfold iterates, create_read_options_with_range, in_range, big_endian_saturating_add_one; simpl.
  rewrite Hmax, !andb_true_r. split; [by apply bytes_leb_max|].
  unfold ord_ltb. by rewrite ord_refl.
Qed.
End ranges.

(** ** Maps with the keys of their types are ordered maps *)

Lemma insert_by_ext {A} (f g : A → A → bool) x l :
  (∀ y, y ∈ l → f x y = g x y) → insert_by f x l = insert_by g x l.
Proof.
  induction l as [|y l IH]; intros Hfg; simpl; [done|].
  rewrite (Hfg y) by left. destruct (g x y); [done|]. rewrite IH; [done|]. intros z Hz. apply Hfg. by right.
Qed.

Lemma sort_by_ext {A} (f g : A → A → bool) l :
  (∀ x y, x ∈ l → y ∈ l → f x y = g x y) → sort_by f l = sort_by g l.
Proof.
  induction l as [|x l IH]; intros Hfg; simpl; [done|].
  rewrite IH by (intros; apply Hfg; by right). apply insert_by_ext.
  intros y Hy%elem_of_sort_by. apply Hfg; [left|by right].
Qed.

Lemma filter_ext_in {A} (f g : A → bool) (l : list A) :
  (∀ x, x ∈ l → f x = g x) → filter (λ x, f x = true) l = filter (λ x, g x = true) l.
Proof.
  induction l as [|x l IH]; intros Hfg; [done|]. rewrite !filter_cons, IH by (intros; apply Hfg; by right).
  rewrite (Hfg x) by left. done.
Qed.

Section iterator_facts.
Context `{RocksDBSpec Cursor} {K V : Type}.
Implicit Types (c : Cursor K V) (l : list (K * V)).

Lemma iter_take_forward n c l i :
  cursor_view c = view_seek i (mkCursorView l None) →
  iter_take n (mkSafeIter c Forward true) = take n (drop i l).
Proof.
  revert c i. induction n as [|n IH]; intros c i Hc; [done|].
  cbn [iter_take]. unfold safe_next; cbn [is_initialized db_iter direction].
  rewrite raw_entry_view, Hc. unfold view_entry, view_seek; simpl.
  destruct (Nat.ltb_spec i (length l)) as [Hi|Hi]; simpl.
  - destruct (lookup_lt_is_Some_2 l i Hi) as [x Hx]. rewrite Hx. simpl.
    rewrite (drop_S _ _ _ Hx). simpl. f_equal. apply (IH _ (S i)).
    rewrite raw_next_view, Hc. unfold view_seek at 1, view_next; simpl.
    by rewrite (proj2 (Nat.ltb_lt _ _) Hi).
  - by rewrite drop_ge.
Qed.

Lemma iter_take_reverse n c l i :
  (i < length l)%nat → cursor_view c = view_seek i (mkCursorView l None) →
  iter_take n (mkSafeIter c Reverse true) = take n (rev (take (S i) l)).
Proof.
  revert c i. induction n as [|n IH]; intros c i Hi Hc; [done|].
  cbn [iter_take]. unfold safe_next; cbn [is_initialized db_iter direction].
  rewrite raw_entry_view, Hc. unfold view_entry, view_seek; cbn -[take rev Nat.ltb].
  rewrite (proj2 (Nat.ltb_lt _ _) Hi); cbn -[take rev Nat.ltb].
  destruct (lookup_lt_is_Some_2 l i Hi) as [x Hx]. rewrite Hx. cbn -[take rev Nat.ltb].
  rewrite (take_S_r _ _ _ Hx), rev_app_distr. simpl. f_equal.
  assert (Hp : cursor_view (raw_prev c) = view_prev (mkCursorView l (Some i))).
  { rewrite raw_prev_view, Hc. unfold view_seek; simpl. by rewrite (proj2 (Nat.ltb_lt _ _) Hi). }
  destruct i as [|i]; [|by apply IH; [lia|]].
  destruct n; [done|]. cbn [iter_take]. unfold safe_next; cbn [is_initialized db_iter direction].
  by rewrite raw_entry_view, Hp.
Qed.

(** A new iterator over the entries. *)
Definition iterates_over (iter : SafeIter (Cursor K V)) l : Prop :=
  cursor_view (db_iter iter) = mkCursorView l None ∧ direction iter = Forward ∧ is_initialized iter = false.

Lemma iter_take_entries n iter l :
  iterates_over iter l → (length l ≤ n)%nat → iter_take n iter = l.
Proof.
  destruct iter as [c d i]. intros (Hc & [= ->] & [= ->]) Hn. simpl in Hc. destruct n as [|n]; [by destruct l; simpl in *; [|lia]|].
  trans (iter_take (S n) (mkSafeIter (seek_to_first c) Forward true)); [done|].
  rewrite (iter_take_forward _ _ l 0) by (by rewrite seek_to_first_view, Hc). by apply take_ge.
Qed.

Lemma next_entries iter l : iterates_over iter l → (safe_next iter).1 = head l.
Proof.
  destruct iter as [c d i]. intros (Hc & [= ->] & [= ->]). simpl in Hc. unfold safe_next; cbn [is_initialized db_iter direction].
  rewrite raw_entry_view, seek_to_first_view, Hc. by destruct l.
Qed.

Lemma skip_to_last_next iter l : iterates_over iter l → (safe_next (skip_to_last iter)).1 = last l.
Proof.
  destruct iter as [c d i]. intros (Hc & [= ->] & [= ->]). simpl in Hc. rewrite last_lookup. unfold safe_next, skip_to_last; cbn [is_initialized db_iter direction].
  rewrite raw_entry_view, seek_to_last_view, Hc. unfold view_entry, view_seek; simpl.
  destruct l as [|x l]; [done|]. cbn -[lookup Nat.ltb].
  rewrite (proj2 (Nat.ltb_lt (length l) (S (length l)))) by lia. cbn -[lookup].
  destruct (_ !! _); done.
Qed.

Lemma reverse_take n iter l :
  iterates_over iter l → iter_take n (reverse (skip_to_last iter)) = take n (rev l).
Proof.
  destruct iter as [c d i]. intros (Hc & [= ->] & [= ->]). simpl in Hc. unfold reverse, skip_to_last; cbn [db_iter is_initialized].
  assert (Hv : cursor_view (seek_to_last c) = view_seek (pred (length l)) (mkCursorView l None))
    by (by rewrite seek_to_last_view, Hc).
  destruct l as [|x l].
  - destruct n; [done|]. cbn [iter_take]. unfold safe_next; cbn [is_initialized db_iter direction].
    by rewrite raw_entry_view, Hv.
  - rewrite (iter_take_reverse _ _ (x :: l) (length l)) by (simpl; done || lia).
    by rewrite (take_ge (x :: l)) by (simpl; lia).
Qed.
End iterator_facts.

Section items.
Context `{RocksDBSpec Cursor, Countable K, !Ord K, !KeyWidth K, !KeySerializer K, !KeySerializerSpec K}.

Definition keys_ok {V} (m : gmap K V) : Prop := ∀ k, is_Some (m !! k) → key_ok k.

Lemma raw_order_items {V} (m : gmap K V) :
  keys_ok m →
  sort_by (λ p q, bytes_leb (be_fix_int_ser p.1) (be_fix_int_ser q.1)) (map_to_list m) = bt_items m.
Proof.
  intros Hm. apply sort_by_ext.
  intros [k v] [k' v'] Hk%elem_of_map_to_list Hk'%elem_of_map_to_list. apply ser_order; apply Hm; eauto.
Qed.

Lemma safe_iter_view {V} (m : gmap K V) :
  keys_ok m → iterates_over (safe_iter m) (bt_items m).
Proof.
  intros Hm. split; [|done]. simpl. rewrite raw_iterator_cf_view. unfold entries_between. rewrite raw_order_items by done. f_equal.
  induction (bt_items m) as [|p l IH]; [done|]. by rewrite filter_cons_True, IH.
Qed.

Lemma safe_range_iter_view {V} lo hi (m : gmap K V) :
  keys_ok m → bound_ok lo → bound_ok hi → excludes_max lo = false →
  iterates_over (safe_range_iter lo hi m) (filter (λ p, in_range lo hi p.1 = true) (bt_items m)).
Proof.
  intros Hm Hlo Hhi Hmax. split; [|done]. simpl. rewrite raw_iterator_cf_view. unfold entries_between.
  rewrite raw_order_items by done. f_equal.
  apply (filter_ext_in (λ p, iterates _ (be_fix_int_ser p.1)) (λ p, in_range lo hi p.1)).
  intros [k v] Hk%elem_of_bt_items. simpl. apply iterates_in_range; [done..| |done]. apply Hm. eauto.
Qed.

Lemma range_entries_items {V} lo hi (m : gmap K V) :
  keys_ok m → bound_ok lo → bound_ok hi → excludes_max lo = false →
  range_entries lo hi m = filter (λ p, in_range lo hi p.1 = true) (bt_items m).
Proof.
  intros Hm Hlo Hhi Hmax. apply iter_take_entries; [by apply safe_range_iter_view|].
  trans (length (bt_items m)); [apply length_filter|].
  unfold bt_items. rewrite sort_by_perm, length_map_to_list. lia.
Qed.
End items.
