(* ===== verification/RocksStore.v ===== *)
(** The persistent store ([consensus/core/src/storage/rocksdb_store.rs]): blocks and commits are
    kept as bytes and parsed when they are read.  Reads and writes of the database succeed.  On what
    validators write, the store answers as the in-memory store does, through the ranges of bytes
    that [TypedStore] makes of ranges of keys. *)

From stdpp Require Import base strings numbers sorting gmap sets list.
From S2P Require Import Prelude Committee Block Commit Store TypedStore.

Open Scope N_scope.

(** ** Double-ended queues *)

(** [VecDeque] of the standard library: a ring buffer of [vd_capacity] places whose first element
    is at [vd_head]; [vd_elements] are its elements from front to back. *)
Record VecDeque (A : Type) := mkVecDeque {
  vd_capacity : nat;
  vd_head : nat;
  vd_elements : list A;
}.
Arguments mkVecDeque {A} _ _ _.
Arguments vd_capacity {A} _.
Arguments vd_head {A} _.
Arguments vd_elements {A} _.

Section deque.
Context {A : Type}.
Implicit Types (q : VecDeque A).

Definition deque_new : VecDeque A := mkVecDeque 0 0 [].

(** Doubles the capacity, from 4 on; what is wrapped around is copied behind the first part if
    that is shorter, and else the first part moves to the end of the buffer. *)
Definition deque_grow q : VecDeque A :=
  let old_cap := vd_capacity q in
  let len := length (vd_elements q) in
  let new_cap := Nat.max 4 (Nat.max (old_cap * 2) (len + 1)) in
  let head_len := (old_cap - vd_head q)%nat in
  let tail_len := (len - head_len)%nat in
  let new_head :=
    if (vd_head q <=? old_cap - len)%nat then vd_head q
    else if (tail_len <? head_len)%nat && (tail_len <=? new_cap - old_cap)%nat then vd_head q
    else (new_cap - head_len)%nat in
  mkVecDeque new_cap new_head (vd_elements q).

Definition push_front q (x : A) : VecDeque A :=
  let q := if (length (vd_elements q) =? vd_capacity q)%nat then deque_grow q else q in
  let head := match vd_head q with O => pred (vd_capacity q) | S head => head end in
  mkVecDeque (vd_capacity q) head (x :: vd_elements q).

(** The elements up to the end of the buffer, and those that wrap around. *)
Definition as_slices q : list A * list A :=
  let head_len := (vd_capacity q - vd_head q)%nat in
  (take head_len (vd_elements q), drop head_len (vd_elements q)).
End deque.

(** ** The store *)

(** The width of the keys of the column families. *)
#[export] Instance digest_key_width : KeyWidth (N * N) := λ k,
  k.1 ≤ U32_MAX ∧ k.2 ≤ DIGEST_MAX.

#[export] Instance block_key_width : KeyWidth (N * N * N) := λ k,
  k.1.1 ≤ U32_MAX ∧ k.1.2 ≤ U32_MAX ∧ k.2 ≤ DIGEST_MAX.

#[export] Instance vote_key_width : KeyWidth (N * N * BlockRef) := λ k,
  key_ok k.1 ∧ ref_in_bounds k.2.

Record RocksDBStore := mkRocksDBStore {
  rs_blocks : gmap (Round * AuthorityIndex * BlockDigest) bytes;
  rs_digests_by_authorities : gmap (AuthorityIndex * Round * BlockDigest) ();
  rs_commits : gmap CommitKey bytes;
  rs_commit_votes : gmap (CommitIndex * CommitDigest * BlockRef) ();
  rs_commit_info : gmap CommitKey CommitInfo;
}.

(** The column families of a new database. *)
Definition rocks_new : RocksDBStore := mkRocksDBStore ∅ ∅ ∅ ∅ ∅.

Definition rocks_write_block (s : RocksDBStore) (block : VerifiedBlock) : RocksDBStore :=
  let block_ref := reference block in
  mkRocksDBStore
    (<[(br_round block_ref, br_author block_ref, br_digest block_ref) := serialized block]> (rs_blocks s))
    (<[(br_author block_ref, br_round block_ref, br_digest block_ref) := ()]> (rs_digests_by_authorities s))
    (rs_commits s)
    (foldl (λ votes vote, <[(cr_index vote, cr_digest vote, block_ref) := ()]> votes)
       (rs_commit_votes s) (vb_commit_votes block))
    (rs_commit_info s).

Definition rocks_write (s : RocksDBStore) (write_batch : WriteBatch) : ConsensusResult RocksDBStore :=
  let s := foldl rocks_write_block s (wb_blocks write_batch) in
  RustOk (mkRocksDBStore (rs_blocks s) (rs_digests_by_authorities s)
    (foldl (λ m c, <[(commit_index c, tc_digest c) := tc_serialized c]> m) (rs_commits s) (wb_commits write_batch))
    (rs_commit_votes s)
    (insert_commit_info (wb_commit_info write_batch) (rs_commit_info s))).

Section reads.
Context `{RocksDB Cursor, Crypto, BcsParser, KeySerializer (N * N), KeySerializer (N * N * N), KeySerializer (N * N * BlockRef)}.

(** The loop of [read_blocks]. *)
Fixpoint rocks_read_loop (l : list (BlockRef * option bytes)) : outcome (ConsensusResult (list (option VerifiedBlock))) :=
  match l with
  | [] => Ok (RustOk [])
  | (key, None) :: l => blocks ← rocks_read_loop l; Ok (try_ blocks (λ blocks, RustOk (None :: blocks)))
  | (key, Some serialized) :: l =>
      match map_err MalformedBlock (parse_signed_block serialized) with
      | RustErr e => Ok (RustErr e)
      | RustOk signed_block =>
          let block := new_verified signed_block serialized in
          _ ← assert_ (bool_decide (key = reference block)) "assertion failed: *key == block.reference()";
          blocks ← rocks_read_loop l;
          Ok (try_ blocks (λ blocks, RustOk (Some block :: blocks)))
      end
  end.

Definition rocks_read_blocks (s : RocksDBStore) (refs : list BlockRef) :
    outcome (ConsensusResult (list (option VerifiedBlock))) :=
  rocks_read_loop (zip refs ((λ r, rs_blocks s !! (br_round r, br_author r, br_digest r)) <$> refs)).

Definition rocks_contains_blocks (s : RocksDBStore) (refs : list BlockRef) : ConsensusResult (list bool) :=
  RustOk ((λ r, bool_decide (is_Some (rs_blocks s !! (br_round r, br_author r, br_digest r)))) <$> refs).

Definition rocks_contains_block_at_slot (s : RocksDBStore) (slot : Slot) : ConsensusResult bool :=
  RustOk (bool_decide (is_Some (safe_next (safe_range_iter
    (Included (slot_authority slot, slot_round slot, DIGEST_MIN))
    (Included (slot_authority slot, slot_round slot, DIGEST_MAX)) (rs_digests_by_authorities s))).1)).

(** The end of the scans: the blocks must be there. *)
Definition found_blocks (refs : list BlockRef) (results : ConsensusResult (list (option VerifiedBlock))) :
    outcome (ConsensusResult (list VerifiedBlock)) :=
  match results with
  | RustErr e => Ok (RustErr e)
  | RustOk results =>
      blocks ← mapM (λ '(r, block), expect block "Storage inconsistency: block not found!") (zip refs results);
      Ok (RustOk blocks)
  end.

Definition rocks_scan_blocks_by_author (s : RocksDBStore) (author : AuthorityIndex) (start_round : Round) :
    outcome (ConsensusResult (list VerifiedBlock)) :=
  let refs := (λ '(((author, round, digest), _) : N * N * N * ()), mkBlockRef round author digest) <$>
    range_entries (Included (author, start_round, DIGEST_MIN)) (Included (author, U32_MAX, DIGEST_MAX))
      (rs_digests_by_authorities s) in
  results ← rocks_read_blocks s refs;
  found_blocks refs results.

Definition rocks_scan_last_blocks_by_author (s : RocksDBStore) (author : AuthorityIndex) (num_of_rounds : N)
    (before_round : option Round) : outcome (ConsensusResult (list VerifiedBlock)) :=
  let before_round := default U32_MAX before_round in
  let refs := foldl (λ refs '(((author, round, digest), _) : N * N * N * ()),
      push_front refs (mkBlockRef round author digest)) deque_new
    (iter_take (N.to_nat num_of_rounds) (reverse (skip_to_last
       (safe_range_iter (Included (author, 0, DIGEST_MIN)) (Included (author, before_round, DIGEST_MAX))
          (rs_digests_by_authorities s))))) in
  results ← rocks_read_blocks s (as_slices refs).1;
  found_blocks (vd_elements refs) results.

(** A commit that is read back, whose digest is the one of its key. *)
Definition rocks_parse_commit (digest : CommitDigest) (serialized : bytes) : outcome (ConsensusResult TrustedCommit) :=
  match map_err MalformedCommit (parse_commit serialized) with
  | RustErr e => Ok (RustErr e)
  | RustOk c =>
      let commit := new_trusted c serialized in
      _ ← assert_ (tc_digest commit =? digest) "assertion failed: commit.digest() == digest";
      Ok (RustOk commit)
  end.

Definition rocks_read_last_commit (s : RocksDBStore) : outcome (ConsensusResult (option TrustedCommit)) :=
  match (safe_next (skip_to_last (safe_iter (rs_commits s)))).1 with
  | None => Ok (RustOk None)
  | Some ((_, digest), serialized) =>
      commit ← rocks_parse_commit digest serialized;
      Ok (try_ commit (λ commit, RustOk (Some commit)))
  end.

(** The loop of [scan_commits]. *)
Fixpoint rocks_scan_loop (l : list (CommitKey * bytes)) : outcome (ConsensusResult (list TrustedCommit)) :=
  match l with
  | [] => Ok (RustOk [])
  | ((_, digest), serialized) :: l =>
      commit ← rocks_parse_commit digest serialized;
      match commit with
      | RustErr e => Ok (RustErr e)
      | RustOk commit => commits ← rocks_scan_loop l; Ok (try_ commits (λ commits, RustOk (commit :: commits)))
      end
  end.

Definition rocks_scan_commits (s : RocksDBStore) (range : CommitRange) : outcome (ConsensusResult (list TrustedCommit)) :=
  rocks_scan_loop (range_entries (Included (range_start range, DIGEST_MIN))
    (Excluded (range_end range, DIGEST_MIN)) (rs_commits s)).

Definition rocks_read_commit_votes (s : RocksDBStore) (commit_index : CommitIndex) : ConsensusResult (list BlockRef) :=
  RustOk ((λ p, p.1.2) <$> range_entries (Included (commit_index, DIGEST_MIN, BLOCK_REF_MIN))
    (Included (commit_index, DIGEST_MAX, BLOCK_REF_MAX)) (rs_commit_votes s)).

Definition rocks_read_last_commit_info (s : RocksDBStore) : ConsensusResult (option (CommitRef * CommitInfo)) :=
  RustOk ((λ p, (mkCommitRef p.1.1 p.1.2, p.2)) <$>
    (safe_next (skip_to_last (safe_iter (rs_commit_info s)))).1).
End reads.

(** ** The last blocks of an author in memory *)

Definition mem_scan_last_blocks_by_author (s : MemStore) (author : AuthorityIndex) (num_of_rounds : N)
    (before_round : option Round) : outcome (ConsensusResult (list VerifiedBlock)) :=
  let before_round := default U32_MAX before_round in
  keys ← bt_set_range (Included (author, 0, DIGEST_MIN)) (Included (author, before_round, DIGEST_MAX))
           (ms_digests_by_authorities s);
  let refs := foldl (λ refs '((author, round, digest) : N * N * N),
      push_front refs (mkBlockRef round author digest)) deque_new
    (take (N.to_nat num_of_rounds) (rev keys)) in
  match mem_read_blocks s (as_slices refs).1 with
  | RustErr e => Ok (RustErr e)
  | RustOk results =>
      blocks ← mapM (λ '(r, block), expect block "Storage inconsistency: block not found!")
                 (zip (vd_elements refs) results);
      Ok (RustOk blocks)
  end.
