(* ===== verification/RocksFacts.v ===== *)
(** The persistent store answers as the in-memory store does: the database [rocks_of] a store in
    memory holds the bytes of its blocks and commits, writes keep the two in step, and every read
    of the one is that of the other, as long as what is written parses back to what it was made
    from. *)

From stdpp Require Import base strings numbers sorting gmap sets list.
From S2P Require Import Prelude Committee Block Commit Store TypedStore RocksStore.

Open Scope N_scope.

(** ** Ordered maps and their images *)

Lemma bt_items_fmap `{Countable K, !Ord K, !OrdLaws K} {V W} (f : V → W) (m : gmap K V) :
  bt_items (f <$> m) = prod_map id f <$> bt_items m.
Proof.
  symmetry. apply bt_items_unique.
  - induction (bt_items_sorted m) as [|p l Hl IH Hp]; constructor; [done|].
    apply Forall_fmap. eapply Forall_impl; [exact Hp|done].
  - rewrite <-list_fmap_compose. apply bt_items_keys_NoDup.
  - intros k w. rewrite list_elem_of_fmap, lookup_fmap, fmap_Some. split.
    + intros ([k' v] & [= -> ->] & Hv%elem_of_bt_items). eauto.
    + intros (v & Hv & ->). exists (k, v). by rewrite elem_of_bt_items.
Qed.

Lemma bt_items_set `{Countable K, !Ord K, !OrdLaws K} (s : gset K) :
  bt_items (gset_to_gmap () s) = (λ k, (k, ())) <$> bt_elements s.
Proof.
  symmetry. apply bt_items_unique.
  - induction (bt_elements_sorted s) as [|p l Hl IH Hp]; constructor; [done|].
    apply Forall_fmap. eapply Forall_impl; [exact Hp|done].
  - rewrite <-list_fmap_compose, (list_fmap_ext _ id), list_fmap_id by done. apply NoDup_bt_elements.
  - intros k []. rewrite list_elem_of_fmap, lookup_gset_to_gmap_Some. split.
    + intros (k' & [= ->] & Hk%elem_of_bt_elements). done.
    + intros [Hk _]. exists k. by rewrite elem_of_bt_elements.
Qed.

Lemma filter_fmap {A B} (f : A → B) (P : B → bool) (l : list A) :
  filter (λ y, P y = true) (f <$> l) = f <$> filter (λ x, P (f x) = true) l.
Proof.
  induction l as [|x l IH]; [done|]. rewrite fmap_cons, !filter_cons, IH.
  by destruct (decide (P (f x) = true)).
Qed.

(** ** What validators write *)

Section wire.
Context `{Crypto, BcsParser}.

(** The bytes of a block parse to it and hash to its digest; its integers have their width. *)
Definition wire_block (b : VerifiedBlock) : Prop :=
  parse_signed_block (serialized b) = RustOk (block b) ∧
  digest b = blake2b256 (serialized b) ∧
  ref_in_bounds (reference b) ∧
  Forall (λ vote, cr_index vote ≤ U32_MAX ∧ cr_digest vote ≤ DIGEST_MAX) (vb_commit_votes b).

Definition wire_stored_commit (c : TrustedCommit) : Prop :=
  parse_commit (tc_serialized c) = RustOk (tc_inner c) ∧
  tc_digest c = blake2b256 (tc_serialized c) ∧
  commit_index c ≤ U32_MAX ∧ tc_digest c ≤ DIGEST_MAX.

Definition wire_batch (batch : WriteBatch) : Prop :=
  Forall wire_block (wb_blocks batch) ∧
  Forall wire_stored_commit (wb_commits batch) ∧
  Forall (λ p, cr_index p.1 ≤ U32_MAX ∧ cr_digest p.1 ≤ DIGEST_MAX) (wb_commit_info batch).

(** A store in memory that holds what was written so. *)
Definition wire_store (m : MemStore) : Prop :=
  (∀ r a d b, ms_blocks m !! (r, a, d) = Some b → wire_block b ∧ reference b = mkBlockRef r a d) ∧
  (∀ a r d, (a, r, d) ∈ ms_digests_by_authorities m → is_Some (ms_blocks m !! (r, a, d))) ∧
  (∀ i d c, ms_commits m !! (i, d) = Some c → wire_stored_commit c ∧ commit_index c = i ∧ tc_digest c = d) ∧
  (∀ k, k ∈ ms_commit_votes m → key_ok k) ∧
  (∀ k i, ms_commit_info m !! k = Some i → key_ok k).
End wire.

(** The database with the contents of a store in memory. *)
Definition rocks_of (m : MemStore) : RocksDBStore :=
  mkRocksDBStore (serialized <$> ms_blocks m) (gset_to_gmap () (ms_digests_by_authorities m))
    (tc_serialized <$> ms_commits m) (gset_to_gmap () (ms_commit_votes m)) (ms_commit_info m).

(** ** Writes *)

Lemma rocks_write_block_of m b : rocks_write_block (rocks_of m) b = rocks_of (mem_write_block m b).
Proof.
  unfold rocks_write_block, rocks_of, mem_write_block; simpl. f_equal.
  - by rewrite fmap_insert.
  - by rewrite gset_to_gmap_union_singleton.
  - generalize (ms_commit_votes m). induction (vb_commit_votes b) as [|vote votes IH]; intros s; simpl; [done|].
    by rewrite <-gset_to_gmap_union_singleton, IH.
Qed.

Lemma rocks_write_of m batch m' :
  mem_write m batch = RustOk m' → rocks_write (rocks_of m) batch = RustOk (rocks_of m').
Proof.
  unfold mem_write, rocks_write. intros [= <-].
  replace (foldl rocks_write_block (rocks_of m) (wb_blocks batch))
    with (rocks_of (foldl mem_write_block m (wb_blocks batch))).
  - simpl. unfold rocks_of; simpl. do 2 f_equal.
    unfold insert_commits. generalize (ms_commits (foldl mem_write_block m (wb_blocks batch))).
    induction (wb_commits batch) as [|c cs IH]; intros s; simpl; [done|]. by rewrite <-IH, fmap_insert.
  - revert m. induction (wb_blocks batch) as [|b bs IH]; intros m; simpl; [done|].
    by rewrite rocks_write_block_of, IH.
Qed.

(** Batches written one after the other. *)
Fixpoint writes {S} (write : S → WriteBatch → ConsensusResult S) (s : S) (batches : list WriteBatch) : ConsensusResult S :=
  match batches with
  | [] => RustOk s
  | batch :: batches => try_ (write s batch) (λ s, writes write s batches)
  end.

Lemma rocks_of_new : rocks_of mem_store_new = rocks_new.
Proof. unfold rocks_of, rocks_new; simpl. by rewrite !fmap_empty, !gset_to_gmap_empty. Qed.

Lemma rocks_writes_of batches m :
  ∃ m', writes mem_write m batches = RustOk m' ∧ writes rocks_write (rocks_of m) batches = RustOk (rocks_of m').
Proof.
  revert m. induction batches as [|batch batches IH]; intros m; cbn [writes]; [eauto|].
  destruct (IH (match mem_write m batch with RustOk m' => m' | RustErr _ => m end)) as (m' & Hm & Hr).
  exists m'. destruct (mem_write m batch) as [m1|] eqn:Hw; [|done].
  by rewrite (rocks_write_of _ _ _ Hw).
Qed.

Section preserved.
Context `{Crypto, BcsParser}.

Lemma wire_store_new : wire_store mem_store_new.
Proof. split_and!; simpl; intros *; rewrite ?lookup_empty; try done; set_solver. Qed.

Lemma wire_votes_insert (r : BlockRef) (votes : list CommitRef) (s : gset (N * N * BlockRef)) :
  ref_in_bounds r → Forall (λ vote, cr_index vote ≤ U32_MAX ∧ cr_digest vote ≤ DIGEST_MAX) votes →
  (∀ k, k ∈ s → key_ok k) →
  ∀ k, k ∈ foldl (λ vs vote, {[(cr_index vote, cr_digest vote, r)]} ∪ vs) s votes → key_ok k.
Proof.
  intros Hr Hv. revert s. induction Hv as [|vote votes Hvote Hv IH]; intros s Hs; simpl; [done|].
  apply IH. intros k [->%elem_of_singleton|Hk]%elem_of_union; [|by apply Hs]. by split.
Qed.

Lemma wire_store_write_block m b : wire_store m → wire_block b → wire_store (mem_write_block m b).
Proof.
  intros (Hb & Hd & Hc & Hv & Hi) Hwb. pose proof Hwb as (_ & _ & Hr & Hvotes).
  split_and!; simpl; [| |done| |done].
  - intros r a d b'. destruct (decide ((vb_round b, vb_author b, digest b) = (r, a, d))) as [He|He].
    + rewrite He, lookup_insert_eq. intros [= <-]. by simplify_eq/=.
    + rewrite lookup_insert_ne by done. apply Hb.
  - intros a r d. rewrite elem_of_union, elem_of_singleton, lookup_insert_is_Some'. naive_solver.
  - by apply wire_votes_insert.
Qed.

Lemma wire_store_write m batch m' :
  wire_store m → wire_batch batch → mem_write m batch = RustOk m' → wire_store m'.
Proof.
  intros Hm (Hbs & Hcs & His) [= <-].
  assert (wire_store (foldl mem_write_block m (wb_blocks batch))) as (Hb & Hd & Hc & Hv & Hi).
  { clear Hcs His. revert m Hm. induction Hbs as [|b bs Hb Hbs IH]; intros m Hm; simpl; [done|].
    by apply IH, wire_store_write_block. }
  split_and!; simpl; try done; clear Hb Hd Hv.
  - clear Hi His. unfold insert_commits. revert Hc. generalize (ms_commits (foldl mem_write_block m (wb_blocks batch))).
    induction Hcs as [|c cs Hwc Hcs IH]; intros s Hs; simpl; [done|]. apply IH. intros i d c'.
    destruct (decide ((commit_index c, tc_digest c) = (i, d))) as [[= <- <-]|He].
    + rewrite lookup_insert_eq. by intros [= <-].
    + rewrite lookup_insert_ne by done. apply Hs.
  - clear Hc. unfold insert_commit_info. revert Hi. generalize (ms_commit_info (foldl mem_write_block m (wb_blocks batch))).
    induction His as [|[r x] infos Hr His IH]; intros s Hs; simpl; [done|]. apply IH. intros k i.
    destruct (decide ((cr_index r, cr_digest r) = k)) as [<-|He]; [done|].
    rewrite lookup_insert_ne by done. apply Hs.
Qed.

Lemma wire_store_writes batches m m' :
  wire_store m → Forall wire_batch batches → writes mem_write m batches = RustOk m' → wire_store m'.
Proof.
  intros Hm Hbs. revert m Hm. induction Hbs as [|batch batches Hb Hbs IH]; intros m Hm; cbn [writes]; [by intros [= <-]|].
  destruct (mem_write m batch) as [m1|] eqn:Hw; simpl; [|done]. apply IH. by eapply wire_store_write.
Qed.
End preserved.

(** ** Deques *)

(** Elements that are pushed to the front one by one, from the last to the first. *)
Lemma push_fronts_elements {A} (l : list A) :
  vd_elements (foldl push_front deque_new (rev l)) = l.
Proof.
  induction l as [|x l IH]; simpl; [done|]. rewrite foldl_app. simpl.
  by destruct (_ =? _)%nat; simpl; rewrite IH.
Qed.

Lemma foldl_push_front_fmap {A B} (f : A → B) (g : VecDeque B → A → VecDeque B) q l :
  (∀ q x, g q x = push_front q (f x)) → foldl g q l = foldl push_front q (f <$> l).
Proof. intros Hg. revert q. induction l as [|x l IH]; intros q; simpl; [done|]. rewrite Hg. apply IH. Qed.

Lemma rev_fmap {A B} (f : A → B) (l : list A) : rev (f <$> l) = f <$> rev l.
Proof. induction l as [|x l IH]; [done|]. rewrite fmap_cons. simpl. by rewrite IH, fmap_app. Qed.

Lemma mapM_expect_msg {A B} (l : list (A * option B)) msg msg' :
  Forall (λ p, is_Some p.2) l →
  mapM (λ '(_, o), expect o msg) l = mapM (λ '(_, o), expect o msg') l.
Proof. induction 1 as [|[x o] l [y Hy] Hl IH]; simpl in *; [done|]. subst o. simpl. by rewrite IH. Qed.

(** ** Reads *)

Definition digest_ref (k : N * N * N) : BlockRef := mkBlockRef k.1.2 k.1.1 k.2.

Lemma elem_of_zip_fmap {A B} (f : A → B) (l : list A) x y : (x, y) ∈ zip l (f <$> l) → x ∈ l ∧ y = f x.
Proof.
  induction l as [|z l IH]; simpl; [by intros ?%not_elem_of_nil|].
  intros [[= -> ->]|Hx]%elem_of_cons; [split; [left|done]|]. destruct (IH Hx) as [? ->]. split; [by right|done].
Qed.

Lemma range_valid_digests (a r r' : N) :
  r ≤ r' → range_valid (Included (a, r, DIGEST_MIN)) (Included (a, r', DIGEST_MAX)) = true.
Proof.
  intros Hr. simpl. rewrite !ord_prod_leb; simpl. unfold ord_leb, ord_N. rewrite !N.leb_le.
  unfold DIGEST_MIN, DIGEST_MAX. lia.
Qed.

Section equal_reads.
Context `{RocksDBSpec Cursor, Crypto, BcsParser, KeySerializer (N * N), KeySerializer (N * N * N), KeySerializer (N * N * BlockRef)}.
Context `{!KeySerializerSpec (N * N), !KeySerializerSpec (N * N * N), !KeySerializerSpec (N * N * BlockRef)}.
Context (m : MemStore) (Hm : wire_store m).

Lemma wire_block_read b : wire_block b → new_verified (block b) (serialized b) = b.
Proof. intros (_ & Hd & _). destruct b. unfold new_verified. simpl in *. by rewrite Hd. Qed.

Lemma wire_commit_read c : wire_stored_commit c → rocks_parse_commit (tc_digest c) (tc_serialized c) = Ok (RustOk c).
Proof.
  intros (Hp & Hd & _). unfold rocks_parse_commit. rewrite Hp. simpl.
  rewrite <-Hd, N.eqb_refl. simpl. destruct c. unfold new_trusted. simpl in *. by rewrite Hd.
Qed.

Lemma rocks_read_blocks_of refs : rocks_read_blocks (rocks_of m) refs = Ok (mem_read_blocks m refs).
Proof.
  destruct Hm as [Hb _]. unfold rocks_read_blocks, mem_read_blocks. cbn [rs_blocks rocks_of].
  induction refs as [|r refs IH]; [done|]. rewrite !fmap_cons. cbn [zip_with]. rewrite lookup_fmap.
  destruct (ms_blocks m !! _) as [b|] eqn:Hl; cbn -[fmap list_fmap]; [|by rewrite IH].
  destruct (Hb _ _ _ _ Hl) as [Hw Hr]. pose proof Hw as [Hp _].
  change (serialized <$> Some b) with (Some (serialized b)). cbn -[fmap list_fmap bool_decide]. rewrite Hp. cbn -[fmap list_fmap bool_decide]. rewrite wire_block_read by done.
  rewrite bool_decide_eq_true_2 by (rewrite Hr; by destruct r). cbn -[fmap list_fmap]. by rewrite IH.
Qed.

Lemma rocks_contains_blocks_of refs : rocks_contains_blocks (rocks_of m) refs = mem_contains_blocks m refs.
Proof.
  unfold rocks_contains_blocks, mem_contains_blocks. f_equal. apply list_fmap_ext. intros _ r _. simpl.
  apply bool_decide_ext. by rewrite lookup_fmap, fmap_is_Some.
Qed.

Lemma rocks_digest_keys_ok : keys_ok (gset_to_gmap () (ms_digests_by_authorities m)).
Proof.
  destruct Hm as (Hb & Hd & _). intros [[a r] d] [u [Hk _]%lookup_gset_to_gmap_Some].
  destruct (Hd _ _ _ Hk) as [b Hl]. destruct (Hb _ _ _ _ Hl) as [(_ & _ & Hr & _) He].
  rewrite He in Hr. destruct Hr as (? & ? & ?). by split_and!.
Qed.

(** A range of the index by author, whichever store it is in. *)
Lemma rocks_digest_range lo hi :
  bound_ok (Included lo) → bound_ok (Included hi) →
  iterates_over (safe_range_iter (Included lo) (Included hi) (rs_digests_by_authorities (rocks_of m)))
    ((λ k, (k, ())) <$>
       filter (λ k, in_range (Included lo) (Included hi) k = true) (bt_elements (ms_digests_by_authorities m))).
Proof.
  intros Hlo Hhi. rewrite <-filter_fmap with (P := λ p, in_range (Included lo) (Included hi) p.1), <-bt_items_set.
  by apply safe_range_iter_view; [apply rocks_digest_keys_ok|..].
Qed.

Lemma rocks_digest_entries lo hi :
  bound_ok (Included lo) → bound_ok (Included hi) →
  range_entries (Included lo) (Included hi) (rs_digests_by_authorities (rocks_of m)) =
  (λ k, (k, ())) <$>
    filter (λ k, in_range (Included lo) (Included hi) k = true) (bt_elements (ms_digests_by_authorities m)).
Proof.
  intros Hlo Hhi. rewrite range_entries_items by (done || apply rocks_digest_keys_ok).
  cbn [rs_digests_by_authorities rocks_of]. by rewrite bt_items_set, filter_fmap.
Qed.

Lemma head_digest_fmap (l : list (N * N * N)) :
  bool_decide (is_Some (head ((λ k, (k, ())) <$> l))) = bool_decide (is_Some (head l)).
Proof. by destruct l. Qed.

Lemma rocks_contains_block_at_slot_of slot :
  slot_authority slot ≤ U32_MAX → slot_round slot ≤ U32_MAX →
  mem_contains_block_at_slot m slot = Ok (rocks_contains_block_at_slot (rocks_of m) slot).
Proof.
  intros Ha Hr. unfold mem_contains_block_at_slot, rocks_contains_block_at_slot, bt_set_range.
  rewrite range_valid_digests by lia. erewrite next_entries; [|by apply rocks_digest_range; split_and!].
  by rewrite head_digest_fmap.
Qed.

(** The references of a range of the index are those of blocks of the store. *)
Lemma digest_range_found (P : N * N * N → bool) r :
  r ∈ digest_ref <$> filter (λ k, P k = true) (bt_elements (ms_digests_by_authorities m)) →
  is_Some (ms_blocks m !! (br_round r, br_author r, br_digest r)).
Proof.
  intros ([[a r'] d] & -> & [_ Hk%elem_of_bt_elements]%list_elem_of_filter)%list_elem_of_fmap.
  destruct Hm as (_ & Hd & _). by apply Hd.
Qed.

Lemma rocks_scan_blocks_by_author_of author start :
  author ≤ U32_MAX → start ≤ U32_MAX →
  rocks_scan_blocks_by_author (rocks_of m) author start = mem_scan_blocks_by_author m author start.
Proof.
  intros Ha Hs. unfold rocks_scan_blocks_by_author, mem_scan_blocks_by_author, bt_set_range.
  rewrite range_valid_digests by lia. rewrite rocks_digest_entries by (by split_and!).
  rewrite <-list_fmap_compose. cbn -[fmap list_fmap zip_with bt_elements filter in_range].
  rewrite (list_fmap_ext _ digest_ref) by (by intros ? [[]]).
  rewrite (list_fmap_ext (λ '(_, _, _), _) digest_ref) by (by intros ? [[]]).
  rewrite rocks_read_blocks_of. unfold found_blocks, mem_read_blocks. simpl.
  erewrite mapM_expect_msg; [done|]. apply Forall_forall.
  intros [r o] Hr%elem_of_zip_fmap. destruct Hr as [Hr ->]. by eapply digest_range_found.
Qed.

Lemma rocks_scan_last_blocks_by_author_of author n before :
  author ≤ U32_MAX → default U32_MAX before ≤ U32_MAX →
  rocks_scan_last_blocks_by_author (rocks_of m) author n before = mem_scan_last_blocks_by_author m author n before.
Proof.
  intros Ha Hb. unfold rocks_scan_last_blocks_by_author, mem_scan_last_blocks_by_author, bt_set_range.
  rewrite range_valid_digests by lia.
  erewrite reverse_take; [|apply rocks_digest_range; split_and!; simpl; unfold U32_MAX, DIGEST_MIN, DIGEST_MAX in *; lia].
  cbn -[fmap list_fmap zip_with bt_elements filter in_range rev default foldl].
  rewrite (foldl_push_front_fmap (λ p, digest_ref p.1)) by (by intros ? [[[]]]).
  rewrite (foldl_push_front_fmap digest_ref) by (by intros ? [[]]).
  rewrite rev_fmap, <-fmap_take, <-list_fmap_compose.
  by rewrite rocks_read_blocks_of.
Qed.

(** ** Commits *)

Lemma rocks_commit_keys_ok : keys_ok (tc_serialized <$> ms_commits m).
Proof.
  destruct Hm as (_ & _ & Hc & _). intros [i d]. rewrite lookup_fmap, fmap_is_Some. intros [c Hl].
  destruct (Hc _ _ _ Hl) as [(_ & _ & Hi & Hd) [<- <-]]. by split.
Qed.

Lemma rocks_read_last_commit_of : rocks_read_last_commit (rocks_of m) = Ok (mem_read_last_commit m).
Proof.
  unfold rocks_read_last_commit, mem_read_last_commit, bt_last_key_value. simpl.
  erewrite skip_to_last_next; [|apply safe_iter_view, rocks_commit_keys_ok].
  rewrite bt_items_fmap, fmap_last. destruct (last _) as [[[i d] c]|] eqn:Hl; simpl; [|done].
  apply last_Some_elem_of, elem_of_bt_items in Hl. destruct Hm as (_ & _ & Hc & _).
  destruct (Hc _ _ _ Hl) as [Hw [_ <-]]. by rewrite wire_commit_read.
Qed.

Lemma rocks_scan_loop_of (l : list (CommitKey * TrustedCommit)) :
  Forall (λ p, ms_commits m !! p.1 = Some p.2) l →
  rocks_scan_loop (prod_map id tc_serialized <$> l) = Ok (RustOk l.*2).
Proof.
  destruct Hm as (_ & _ & Hc & _).
  induction 1 as [|[[i d] c] l Hp Hl IH]; [done|]. rewrite !fmap_cons.
  destruct (Hc _ _ _ Hp) as [Hw [_ <-]]. cbn -[fmap list_fmap].
  change (id (i, tc_digest c)) with (i, tc_digest c). cbn -[fmap list_fmap].
  rewrite wire_commit_read by done. cbn -[fmap list_fmap]. by rewrite IH.
Qed.

Lemma rocks_scan_commits_of range :
  range_start range ≤ range_end range → range_end range ≤ U32_MAX →
  rocks_scan_commits (rocks_of m) range = mem_scan_commits m range.
Proof.
  intros Hle He. unfold rocks_scan_commits, mem_scan_commits, bt_range.
  replace (range_valid _ _) with true by (symmetry; simpl; rewrite ord_prod_leb; simpl;
    unfold ord_leb, ord_N; rewrite !N.leb_le; unfold DIGEST_MIN; lia).
  cbn [rs_commits rocks_of]. rewrite range_entries_items;
    [|apply rocks_commit_keys_ok|split; simpl; unfold DIGEST_MIN, DIGEST_MAX; lia..|done].
  rewrite bt_items_fmap, filter_fmap. apply rocks_scan_loop_of.
  apply Forall_forall. by intros [k c] [_ Hk%elem_of_bt_items]%list_elem_of_filter.
Qed.

Lemma rocks_read_commit_votes_of index :
  index ≤ U32_MAX → mem_read_commit_votes m index = Ok (rocks_read_commit_votes (rocks_of m) index).
Proof.
  intros Hi. unfold rocks_read_commit_votes, mem_read_commit_votes, bt_set_range.
  replace (range_valid _ _) with true
    by (symmetry; apply ord_prod_leb; split; [apply ord_prod_leb; split; [apply N.leb_refl|done]|done]).
  destruct Hm as (_ & _ & _ & Hv & _). cbn [rs_commit_votes rocks_of].
  rewrite range_entries_items.
  - rewrite bt_items_set, filter_fmap. simpl. do 2 f_equal. by rewrite <-list_fmap_compose.
  - intros k [u [Hk _]%lookup_gset_to_gmap_Some]. by apply Hv.
  - split; [split|split_and!]; simpl; unfold DIGEST_MIN, DIGEST_MAX; lia.
  - split; [split|split_and!]; simpl; unfold DIGEST_MAX; lia.
  - done.
Qed.

Lemma rocks_read_last_commit_info_of : rocks_read_last_commit_info (rocks_of m) = mem_read_last_commit_info m.
Proof.
  destruct Hm as (_ & _ & _ & _ & Hi). unfold rocks_read_last_commit_info, mem_read_last_commit_info, bt_last_key_value.
  simpl. erewrite skip_to_last_next; [done|]. apply safe_iter_view. intros k [i Hk]. by eapply Hi.
Qed.
End equal_reads.

(** ** The last blocks of an author *)

Lemma push_fronts_short {A} (l : list A) :
  (length l ≤ 4)%nat → (as_slices (foldl push_front deque_new (rev l))).1 = l.
Proof. destruct l as [|? [|? [|? [|? [|]]]]]; simpl; [done..|lia]. Qed.

Lemma push_fronts_five {A} (l : list A) :
  length l = 5%nat → (as_slices (foldl push_front deque_new (rev l))).1 = take 1 l.
Proof. by destruct l as [|? [|? [|? [|? [|? [|]]]]]]. Qed.

Lemma mapM_zip_prefix {A B} (l : list A) (os : list (option B)) msg :
  (length os ≤ length l)%nat → mapM (λ '(_, o), expect o msg) (zip l os) = mapM (λ o, expect o msg) os.
Proof.
  revert l. induction os as [|o os IH]; intros [|x l] Hl; simpl in *; [done..|lia|].
  by rewrite IH by lia.
Qed.

Lemma in_range_before (a r d author before : N) :
  d ≤ DIGEST_MAX →
  in_range (Included (author, 0, DIGEST_MIN)) (Included (author, before, DIGEST_MAX)) (a, r, d) = true ↔
  a = author ∧ r ≤ before.
Proof.
  intros Hd. unfold in_range. rewrite andb_true_iff, !ord_prod_leb; simpl.
  unfold ord_leb, ord_N. rewrite !N.leb_le. unfold DIGEST_MIN. lia.
Qed.

Section last_blocks.
Context `{Crypto, BcsParser}.
Context (m : MemStore) (Hm : wire_store m).

Definition author_keys (author : AuthorityIndex) (before : Round) : list (N * N * N) :=
  filter (λ k, in_range (Included (author, 0, DIGEST_MIN)) (Included (author, before, DIGEST_MAX)) k = true)
    (bt_elements (ms_digests_by_authorities m)).

Definition stored (r : BlockRef) : option VerifiedBlock := ms_blocks m !! (br_round r, br_author r, br_digest r).

Lemma mem_scan_blocks_by_author_Ok author bs :
  mem_scan_blocks_by_author m author 0 = Ok (RustOk bs) →
  stored <$> (digest_ref <$> author_keys author U32_MAX) = Some <$> bs.
Proof.
  unfold mem_scan_blocks_by_author, bt_set_range. rewrite range_valid_digests by lia.
  cbn -[fmap list_fmap zip_with bt_elements filter in_range].
  rewrite (list_fmap_ext (λ '(_, _, _), _) digest_ref) by (by intros ? [[]]).
  rewrite mapM_zip_prefix by (by rewrite length_fmap).
  destruct (mapM _ _) as [bs'| |] eqn:Hbs; simpl; [|done..]. intros [= <-]. by apply mapM_expect in Hbs.
Qed.

(** The blocks of the keys up to a round are the blocks up to that round. *)
Lemma stored_before author before bs :
  before ≤ U32_MAX →
  stored <$> (digest_ref <$> author_keys author U32_MAX) = Some <$> bs →
  stored <$> (digest_ref <$> author_keys author before) = Some <$> filter (λ b, vb_round b ≤ before) bs.
Proof.
  intros Hbf. unfold author_keys. revert bs.
  assert (Hk : Forall (λ k, is_Some (stored (digest_ref k))) (bt_elements (ms_digests_by_authorities m))).
  { apply Forall_forall. intros [[a r] d] Hk%elem_of_bt_elements. destruct Hm as (_ & Hd & _). by apply Hd. }
  induction Hk as [|[[a r] d] l [b Hb] Hl IH]; intros bs; [by destruct bs|]. rewrite !filter_cons.
  destruct Hm as [Hbs _]. destruct (Hbs _ _ _ _ Hb) as [(_ & _ & Hr & _) He].
  rewrite He in Hr. destruct Hr as (Hr1 & Hr2 & Hr3). simpl in *.
  unfold reference in He. injection He as He1 He2 He3.
  destruct (decide (in_range _ _ _ = true)) as [Hu|Hu]; rewrite in_range_author in Hu.
  - destruct bs as [|b' bs]; [done|]. rewrite !fmap_cons. intros [= Hb' Hbs']. rewrite Hb in Hb'. simplify_eq.
    rewrite filter_cons. destruct (decide (in_range _ _ _ = true)) as [Hv|Hv], (decide (vb_round _ ≤ before)) as [Hw|Hw];
      rewrite in_range_before in Hv by done.
    + rewrite !fmap_cons, Hb. f_equal. by apply IH.
    + naive_solver.
    + naive_solver.
    + by apply IH.
  - rewrite decide_False; [by apply IH|]. rewrite in_range_before by done. naive_solver lia.
Qed.

(** The scan reads the first slice of the deque of the last references. *)
Lemma mem_scan_last_slice author n before bs l :
  default U32_MAX before ≤ U32_MAX →
  stored <$> (digest_ref <$> author_keys author (default U32_MAX before)) = Some <$> bs →
  (∀ l' : list BlockRef, length l' = Nat.min (N.to_nat n) (length bs) →
     (as_slices (foldl push_front deque_new (rev l'))).1 = take l l') →
  mem_scan_last_blocks_by_author m author n before = Ok (RustOk (take l (drop (length bs - N.to_nat n) bs))).
Proof.
  intros Hbf Hbs Hslice. unfold mem_scan_last_blocks_by_author, bt_set_range.
  rewrite range_valid_digests by lia. cbn -[fmap list_fmap zip_with bt_elements filter in_range rev default foldl as_slices push_front].
  rewrite (foldl_push_front_fmap digest_ref) by (by intros ? [[]]).
  fold (author_keys author (default U32_MAX before)).
  assert (Hlen : length (author_keys author (default U32_MAX before)) = length bs).
  { apply (f_equal length) in Hbs. by rewrite !length_fmap in Hbs. }
  rewrite fmap_take, <-rev_fmap, firstn_rev, length_fmap, Hlen, push_fronts_elements.
  rewrite Hslice by (rewrite length_drop, length_fmap, Hlen; lia).
  fold stored. rewrite mapM_zip_prefix by (rewrite length_fmap, length_take; lia).
  rewrite fmap_take, fmap_drop, Hbs, <-fmap_drop, <-fmap_take.
  by rewrite (proj2 (mapM_expect _ _ _) eq_refl).
Qed.
End last_blocks.

(** ** The stores answer alike *)

Section equivalence.
Context `{RocksDBSpec Cursor, Crypto, BcsParser, KeySerializer (N * N), KeySerializer (N * N * N), KeySerializer (N * N * BlockRef)}.
Context `{!KeySerializerSpec (N * N), !KeySerializerSpec (N * N * N), !KeySerializerSpec (N * N * BlockRef)}.

(** C21: The RocksDB store and the in-memory store are interchangeable: after the same batches of
    blocks and commits whose bytes parse back to them, every read of the one answers as that of
    the other.  This covers blocks by reference and by slot, the scans by author, the last commit and its
    info, the commits of a range that does not end before it starts, and the votes on a commit.
    The reads of RocksDB parse the bytes, check the digests and iterate over ranges of bytes; none
    of its assertions fails. *)
Theorem rocksdb_equivalent batches :
  Forall wire_batch batches →
  ∃ m r, writes mem_write mem_store_new batches = RustOk m ∧ writes rocks_write rocks_new batches = RustOk r ∧
    (∀ refs, rocks_read_blocks r refs = Ok (mem_read_blocks m refs)) ∧
    (∀ refs, rocks_contains_blocks r refs = mem_contains_blocks m refs) ∧
    (∀ slot, slot_authority slot ≤ U32_MAX → slot_round slot ≤ U32_MAX →
       Ok (rocks_contains_block_at_slot r slot) = mem_contains_block_at_slot m slot) ∧
    (∀ author start, author ≤ U32_MAX → start ≤ U32_MAX →
       rocks_scan_blocks_by_author r author start = mem_scan_blocks_by_author m author start) ∧
    (∀ author n before, author ≤ U32_MAX → default U32_MAX before ≤ U32_MAX →
       rocks_scan_last_blocks_by_author r author n before = mem_scan_last_blocks_by_author m author n before) ∧
    rocks_read_last_commit r = Ok (mem_read_last_commit m) ∧
    (∀ range, range_start range ≤ range_end range → range_end range ≤ U32_MAX →
       rocks_scan_commits r range = mem_scan_commits m range) ∧
    (∀ index, index ≤ U32_MAX → Ok (rocks_read_commit_votes r index) = mem_read_commit_votes m index) ∧
    rocks_read_last_commit_info r = mem_read_last_commit_info m.
Proof.
  intros Hb. destruct (rocks_writes_of batches mem_store_new) as (m & Hw & Hr). rewrite rocks_of_new in Hr.
  assert (Hm : wire_store m) by (eapply wire_store_writes; [apply wire_store_new|done..]).
  exists m, (rocks_of m). split_and!; [done|done|..].
  - by apply rocks_read_blocks_of.
  - apply rocks_contains_blocks_of.
  - intros. symmetry. by apply rocks_contains_block_at_slot_of.
  - by apply rocks_scan_blocks_by_author_of.
  - by apply rocks_scan_last_blocks_by_author_of.
  - by apply rocks_read_last_commit_of.
  - by apply rocks_scan_commits_of.
  - intros. symmetry. by apply rocks_read_commit_votes_of.
  - by apply rocks_read_last_commit_info_of.
Qed.
End equivalence.

(** C40: [scan_last_blocks_by_author] returns the last blocks of the author up to a round, in
    ascending order, when at most four are asked for.  It reads only the first slice of the deque
    it collects their references in, though: when five are asked for and the author has them, one
    block is returned, the oldest of the five. *)
Theorem scan_last_blocks_by_author_result `{Crypto, BcsParser} m author before bs :
  wire_store m → default U32_MAX before ≤ U32_MAX →
  mem_scan_blocks_by_author m author 0 = Ok (RustOk bs) →
  let upto := filter (λ b, vb_round b ≤ default U32_MAX before) bs in
  (∀ n, n ≤ 4 →
     mem_scan_last_blocks_by_author m author n before = Ok (RustOk (drop (length upto - N.to_nat n) upto))) ∧
  ((5 ≤ length upto)%nat →
     mem_scan_last_blocks_by_author m author 5 before = Ok (RustOk (take 1 (drop (length upto - 5) upto)))).
Proof.
  intros Hm Hbf Hbs%mem_scan_blocks_by_author_Ok upto.
  apply (stored_before m Hm author (default U32_MAX before)) in Hbs; [|done]. fold upto in Hbs. split.
  - intros n Hn. rewrite (mem_scan_last_slice m author n before upto 4) by (try done; intros l' Hl;
      rewrite push_fronts_short, take_ge by lia; done).
    rewrite take_ge; [done|]. rewrite length_drop. lia.
  - intros Hl. rewrite (mem_scan_last_slice m author 5 before upto 1); [done..|].
    intros l' Hl'. apply push_fronts_five. lia.
Qed.
