(* ===== verification/DagState.v ===== *)
(** The DAG state ([consensus/core/src/dag_state.rs]): accepted blocks and commits, cached
    in memory above the eviction round of each authority and persisted by [flush]. *)

From stdpp Require Import base strings numbers sorting gmap sets list.
From S2P Require Import Prelude Committee Block StakeAggregator Commit Store.

Open Scope N_scope.

(** [last_commit_round_advancement_time] only feeds a metric and is left out. *)
Record DagState (St : Type) := mkDagState {
  context : Context;
  genesis : gmap BlockRef VerifiedBlock;
  recent_blocks : gmap BlockRef VerifiedBlock;
  recent_refs : list (gset BlockRef);
  highest_accepted_round : Round;
  last_commit : option TrustedCommit;
  last_committed_rounds : list Round;
  unscored_committed_subdags : list CommittedSubDag;
  pending_commit_votes : list CommitRef;
  blocks_to_write : list VerifiedBlock;
  commits_to_write : list TrustedCommit;
  commit_info_to_write : list (CommitRef * CommitInfo);
  store : St;
  cached_rounds : Round;
}.
Arguments mkDagState {St}.
Arguments context {St}.
Arguments genesis {St}.
Arguments recent_blocks {St}.
Arguments recent_refs {St}.
Arguments highest_accepted_round {St}.
Arguments last_commit {St}.
Arguments last_committed_rounds {St}.
Arguments unscored_committed_subdags {St}.
Arguments pending_commit_votes {St}.
Arguments blocks_to_write {St}.
Arguments commits_to_write {St}.
Arguments commit_info_to_write {St}.
Arguments store {St}.
Arguments cached_rounds {St}.

(** Calculates the last eviction round based on the provided [commit_round]. *)
Definition eviction_round (commit_round cached_rounds : Round) : Round :=
  commit_round - cached_rounds.

(** [result.unwrap_or_else(|e| panic!("Failed to read from storage: {:?}", e))]. *)
Definition unwrap_store {A} (r : ConsensusResult A) (msg : string) : outcome A :=
  match r with RustOk a => Ok a | RustErr _ => Panic msg end.

Section dag_state.
Context {St : Type} `{Store St} `{Crypto}.
Implicit Types d : DagState St.

(** ** Assignments to fields *)

Definition set_recent (recent_blocks : gmap BlockRef VerifiedBlock)
    (recent_refs : list (gset BlockRef)) (highest_accepted_round : Round) d : DagState St :=
  mkDagState (context d) (genesis d) recent_blocks recent_refs highest_accepted_round
    (last_commit d) (last_committed_rounds d) (unscored_committed_subdags d)
    (pending_commit_votes d) (blocks_to_write d) (commits_to_write d)
    (commit_info_to_write d) (store d) (cached_rounds d).

Definition set_commit (last_commit : option TrustedCommit) (last_committed_rounds : list Round)
    d : DagState St :=
  mkDagState (context d) (genesis d) (recent_blocks d) (recent_refs d)
    (highest_accepted_round d) last_commit last_committed_rounds
    (unscored_committed_subdags d) (pending_commit_votes d) (blocks_to_write d)
    (commits_to_write d) (commit_info_to_write d) (store d) (cached_rounds d).

Definition set_unscored (unscored : list CommittedSubDag) d : DagState St :=
  mkDagState (context d) (genesis d) (recent_blocks d) (recent_refs d)
    (highest_accepted_round d) (last_commit d) (last_committed_rounds d) unscored
    (pending_commit_votes d) (blocks_to_write d) (commits_to_write d)
    (commit_info_to_write d) (store d) (cached_rounds d).

Definition set_pending_votes (votes : list CommitRef) d : DagState St :=
  mkDagState (context d) (genesis d) (recent_blocks d) (recent_refs d)
    (highest_accepted_round d) (last_commit d) (last_committed_rounds d)
    (unscored_committed_subdags d) votes (blocks_to_write d) (commits_to_write d)
    (commit_info_to_write d) (store d) (cached_rounds d).

Definition set_to_write (blocks : list VerifiedBlock) (commits : list TrustedCommit)
    (info : list (CommitRef * CommitInfo)) d : DagState St :=
  mkDagState (context d) (genesis d) (recent_blocks d) (recent_refs d)
    (highest_accepted_round d) (last_commit d) (last_committed_rounds d)
    (unscored_committed_subdags d) (pending_commit_votes d) blocks commits info
    (store d) (cached_rounds d).

Definition set_store (store : St) d : DagState St :=
  mkDagState (context d) (genesis d) (recent_blocks d) (recent_refs d)
    (highest_accepted_round d) (last_commit d) (last_committed_rounds d)
    (unscored_committed_subdags d) (pending_commit_votes d) (blocks_to_write d)
    (commits_to_write d) (commit_info_to_write d) store (cached_rounds d).

(** ** Reading blocks *)

(** [get_blocks]: genesis, then cached recent blocks, then storage. *)
Definition get_blocks d (block_refs : list BlockRef) : outcome (list (option VerifiedBlock)) :=
  '(blocks, missing) ← foldM (λ '(blocks, missing) '(index, block_ref),
      if br_round block_ref =? GENESIS_ROUND then
        match genesis d !! block_ref with
        | Some block => blocks ← vec_set blocks index (Some block); Ok (blocks, missing)
        | None => Ok (blocks, missing)
        end
      else
        match recent_blocks d !! block_ref with
        | Some block => blocks ← vec_set blocks index (Some block); Ok (blocks, missing)
        | None => Ok (blocks, missing ++ [(index, block_ref)])
        end)
    (replicate (length block_refs) None, []) (enumerate block_refs);
  if bool_decide (missing = []) then Ok blocks
  else
    let missing_refs := missing.*2 in
    store_results ← unwrap_store (store_read_blocks (store d) missing_refs)
                      "Failed to read from storage";
    foldM (λ blocks '((index, _), result), vec_set blocks index result)
      blocks (zip missing store_results).

Definition get_block d (reference : BlockRef) : outcome (option VerifiedBlock) :=
  blocks ← get_blocks d [reference];
  expect (last blocks) "Exactly one element should be returned".

(** [contains_blocks]: the cache, then, for blocks that may have been evicted, storage. *)
Definition contains_blocks d (block_refs : list BlockRef) : outcome (list bool) :=
  '(exist_, missing) ← foldM (λ '(exist_, missing) '(index, block_ref),
      recent_refs ← vec_index (recent_refs d) (br_author block_ref);
      if bool_decide (block_ref ∈ recent_refs) || bool_decide (is_Some (genesis d !! block_ref))
      then exist_ ← vec_set exist_ index true; Ok (exist_, missing)
      else if match bt_last recent_refs with
              | None => true
              | Some last => br_round last <? br_round block_ref
              end
      then exist_ ← vec_set exist_ index false; Ok (exist_, missing)
      else Ok (exist_, missing ++ [(index, block_ref)]))
    (replicate (length block_refs) false, []) (enumerate block_refs);
  if bool_decide (missing = []) then Ok exist_
  else
    let missing_refs := missing.*2 in
    store_results ← unwrap_store (store_contains_blocks (store d) missing_refs)
                      "Failed to read from storage";
    foldM (λ exist_ '((index, _), result), vec_set exist_ index result)
      exist_ (zip missing store_results).

Definition contains_block d (block_ref : BlockRef) : outcome bool :=
  blocks ← contains_blocks d [block_ref];
  expect (head blocks) "called `Option::unwrap()` on a `None` value".

(** [last_commit_round], [last_commit_index], [last_commit_digest],
    [last_commit_timestamp_ms]. *)
Definition last_commit_round d : Round :=
  match last_commit d with Some commit => br_round (commit_leader commit) | None => 0 end.

Definition last_commit_index d : CommitIndex :=
  match last_commit d with Some commit => commit_index commit | None => 0 end.

Definition last_commit_digest d : CommitDigest :=
  match last_commit d with Some commit => tc_digest commit | None => DIGEST_MIN end.

Definition last_commit_timestamp_ms d : BlockTimestampMs :=
  match last_commit d with Some commit => commit_timestamp_ms commit | None => 0 end.

(** Leader slot of the last commit. *)
Definition last_commit_leader d : outcome Slot :=
  match last_commit d with
  | Some commit => Ok (slot_of_ref (commit_leader commit))
  | None =>
      genesis_ref ← expect (head (bt_items (genesis d)).*1)
                      "Genesis blocks should always be available.";
      Ok (slot_of_ref genesis_ref)
  end.

Definition get_uncommitted_blocks_at_slot d (slot : Slot) : outcome (list VerifiedBlock) :=
  blocks ← bt_range
    (Included (mkBlockRef (slot_round slot) (slot_authority slot) DIGEST_MIN))
    (Included (mkBlockRef (slot_round slot) (slot_authority slot) DIGEST_MAX))
    (recent_blocks d);
  Ok blocks.*2.

Definition get_uncommitted_blocks_at_round d (round : Round) : outcome (list VerifiedBlock) :=
  if round <=? last_commit_round d then Panic "Round have committed blocks!"
  else
    blocks ← bt_range
      (Included (mkBlockRef round 0 DIGEST_MIN))
      (Excluded (mkBlockRef (round +u32 1) 0 DIGEST_MIN))
      (recent_blocks d);
    Ok blocks.*2.

(** The loop of [ancestors_at_round] over [linked], in descending order. *)
Definition ancestors_step d (earlier_round : Round) (linked : gset BlockRef) :
    outcome (flow (gset BlockRef) (gset BlockRef)) :=
  match bt_last linked with
  | None => Ok (Break linked)
  | Some block_ref =>
      if br_round block_ref <=? earlier_round then Ok (Break linked)
      else
        let linked := linked ∖ {[block_ref]} in
        block ← get_block d block_ref;
        block ← expect block "Block should exist in DAG!";
        Ok (Continue (linked ∪ list_to_set (vb_ancestors block)))
  end.

(** Gets all ancestors in the history of a block at a certain round. *)
Definition ancestors_at_round d (later_block : VerifiedBlock) (earlier_round : Round) :
    outcome (list VerifiedBlock) :=
  linked ← while_loop (ancestors_step d earlier_round) (list_to_set (vb_ancestors later_block));
  refs ← bt_set_range (Included (mkBlockRef earlier_round 0 DIGEST_MIN)) Unbounded linked;
  mapM (λ r, block ← get_block d r; expect block "Block should exist in DAG!") refs.

(** The last block proposed by the authority that is in the cache, or its genesis block. *)
Definition get_last_block_for_authority d (authority : AuthorityIndex) : outcome VerifiedBlock :=
  refs ← vec_index (recent_refs d) authority;
  match bt_last refs with
  | Some last => expect (recent_blocks d !! last) "Block should be found in recent blocks"
  | None =>
      '(_, genesis_block) ← expect
          (head (filter (λ p, br_author p.1 = authority) (bt_items (genesis d))))
          "Genesis should be found for authority {authority_index}";
      Ok genesis_block
  end.

Definition get_cached_blocks d (authority : AuthorityIndex) (start : Round) :
    outcome (list VerifiedBlock) :=
  refs ← vec_index (recent_refs d) authority;
  refs ← bt_set_range (Included (mkBlockRef start authority DIGEST_MIN)) Unbounded refs;
  mapM (λ r, expect (recent_blocks d !! r) "Block should exist in recent blocks") refs.

Definition authority_eviction_round d (authority_index : AuthorityIndex) : outcome Round :=
  commit_round ← vec_index (last_committed_rounds d) authority_index;
  Ok (eviction_round commit_round (cached_rounds d)).

(** The iteration of [get_last_cached_block_per_authority] for one authority. *)
Definition last_cached_step d (end_round : Round) (blocks : list VerifiedBlock)
    '((authority_index, block_refs) : N * gset BlockRef) : outcome (list VerifiedBlock) :=
  authority_index ← expect (to_authority_index (committee (context d)) authority_index)
                      "called `Option::unwrap()` on a `None` value";
  last_evicted_round ← authority_eviction_round d authority_index;
  if end_round - 1 <=? last_evicted_round then
    Panic "Attempted to request for blocks of rounds < end_round"
  else
    refs ← bt_set_range
             (Included (mkBlockRef (last_evicted_round +u32 1) authority_index DIGEST_MIN))
             (Excluded (mkBlockRef end_round authority_index DIGEST_MIN)) block_refs;
    match last refs with
    | None => Ok blocks
    | Some block_ref =>
        block ← expect (recent_blocks d !! block_ref) "Block should exist in recent blocks";
        vec_set blocks authority_index block
    end.

Definition get_last_cached_block_per_authority d (end_round : Round) :
    outcome (list VerifiedBlock) :=
  let blocks := bt_values (genesis d) in
  if end_round =? GENESIS_ROUND then
    Panic "Attempted to retrieve blocks earlier than the genesis round which is not possible"
  else if end_round =? GENESIS_ROUND + 1 then Ok blocks
  else foldM (last_cached_step d end_round) blocks (enumerate (recent_refs d)).

Definition contains_cached_block_at_slot d (slot : Slot) : outcome bool :=
  if slot_round slot =? GENESIS_ROUND then Ok true
  else
    last_evicted_round ← authority_eviction_round d (slot_authority slot);
    if slot_round slot <=? last_evicted_round then
      Panic "Attempted to check for slot that is <= the last evicted round"
    else
      refs ← vec_index (recent_refs d) (slot_authority slot);
      result ← bt_set_range
        (Included (mkBlockRef (slot_round slot) (slot_authority slot) DIGEST_MIN))
        (Included (mkBlockRef (slot_round slot) (slot_authority slot) DIGEST_MAX)) refs;
      Ok (bool_decide (is_Some (head result))).

(** ** Accepting blocks *)

Definition update_block_metadata d (block : VerifiedBlock) : outcome (DagState St) :=
  let block_ref := reference block in
  refs ← vec_index (recent_refs d) (br_author block_ref);
  recent_refs ← vec_set (recent_refs d) (br_author block_ref) ({[block_ref]} ∪ refs);
  Ok (set_recent (<[block_ref := block]> (recent_blocks d)) recent_refs
        (N.max (highest_accepted_round d) (vb_round block)) d).

(** [accept_block]; [now] is the clock's [timestamp_utc_ms]. *)
Definition accept_block d (now : BlockTimestampMs) (block : VerifiedBlock) :
    outcome (DagState St) :=
  _ ← assert_ (negb (vb_round block =? 0)) "Genesis block should not be accepted into DAG.";
  let block_ref := reference block in
  contained ← contains_block d block_ref;
  if contained : bool then Ok d
  else if now <? vb_timestamp_ms block then
    Panic "Block cannot be accepted! Block timestamp is greater than local timestamp."
  else
    _ ← (if br_author block_ref =? own_index (context d) then
           existing_blocks ← get_uncommitted_blocks_at_slot d (slot_of_ref block_ref);
           assert_ (bool_decide (existing_blocks = []))
             "Block Rejected! Attempted to add block to own slot where block(s) already exists."
         else Ok ());
    d ← update_block_metadata d block;
    Ok (set_to_write (blocks_to_write d ++ [block]) (commits_to_write d)
          (commit_info_to_write d) d).

Definition accept_blocks d (now : BlockTimestampMs) (blocks : list VerifiedBlock) :
    outcome (DagState St) :=
  foldM (λ d block, accept_block d now block) d blocks.

(** ** Commits *)

(** [last_committed_rounds[r.author] = max(last_committed_rounds[r.author], r.round)]. *)
Definition bump_committed_round (rounds : list Round) (block_ref : BlockRef) :
    outcome (list Round) :=
  r ← vec_index rounds (br_author block_ref);
  vec_set rounds (br_author block_ref) (N.max r (br_round block_ref)).

(** [add_commit]: buffers a new commit and updates the last committed rounds. *)
Definition add_commit d (commit : TrustedCommit) : outcome (DagState St) :=
  skip ← match last_commit d with
         | Some last_commit =>
             if commit_index commit <=? commit_index last_commit then Ok true
             else
               _ ← assert_ (commit_index commit =? commit_index last_commit +u32 1)
                     "assertion failed: commit.index() == last_commit.index() + 1";
               if commit_timestamp_ms commit <? commit_timestamp_ms last_commit then
                 Panic "Commit timestamps do not monotonically increment"
               else Ok false
         | None =>
             _ ← assert_ (commit_index commit =? 1) "assertion failed: commit.index() == 1";
             Ok false
         end;
  if skip : bool then Ok d
  else
    last_committed_rounds ← foldM bump_committed_round (last_committed_rounds d)
                              (commit_blocks commit);
    let d := set_commit (Some commit) last_committed_rounds d in
    let d := set_pending_votes (pending_commit_votes d ++ [commit_reference commit]) d in
    Ok (set_to_write (blocks_to_write d) (commits_to_write d ++ [commit])
          (commit_info_to_write d) d).

Definition add_commit_info d (reputation_scores : ReputationScores) : outcome (DagState St) :=
  _ ← assert_ (bool_decide (length (unscored_committed_subdags d) = 0%nat))
        "assertion failed: self.unscored_committed_subdags.is_empty()";
  let commit_info := mkCommitInfo (last_committed_rounds d) reputation_scores in
  last_commit ← expect (last_commit d) "Last commit should already be set.";
  Ok (set_to_write (blocks_to_write d) (commits_to_write d)
        (commit_info_to_write d ++ [(commit_reference last_commit, commit_info)]) d).

Definition take_commit_votes d (limit : N) : list CommitRef * DagState St :=
  (take (N.to_nat limit) (pending_commit_votes d),
   set_pending_votes (drop (N.to_nat limit) (pending_commit_votes d)) d).

Definition unscored_committed_subdags_count d : N :=
  N.of_nat (length (unscored_committed_subdags d)).

Definition add_unscored_committed_subdags d (committed_subdags : list CommittedSubDag) :
    DagState St :=
  set_unscored (unscored_committed_subdags d ++ committed_subdags) d.

Definition take_unscored_committed_subdags d : list CommittedSubDag * DagState St :=
  (unscored_committed_subdags d, set_unscored [] d).

(** ** Persistence *)

(** The [while let] loop of [flush] for one authority, over its cached references in
    ascending order: it removes those at or below the eviction round. *)
Fixpoint evict_authority (evict_round : Round) (sorted : list BlockRef)
    (authority_refs : gset BlockRef) (recent_blocks : gmap BlockRef VerifiedBlock) :
    gset BlockRef * gmap BlockRef VerifiedBlock :=
  match sorted with
  | [] => (authority_refs, recent_blocks)
  | block_ref :: sorted =>
      if br_round block_ref <=? evict_round then
        evict_authority evict_round sorted (authority_refs ∖ {[block_ref]})
          (delete block_ref recent_blocks)
      else (authority_refs, recent_blocks)
  end.

(** [self.recent_refs.iter_mut().zip(self.last_committed_rounds.iter())]. *)
Fixpoint evict_all (cached_rounds : Round) (refs : list (gset BlockRef)) (rounds : list Round)
    (recent_blocks : gmap BlockRef VerifiedBlock) :
    list (gset BlockRef) * gmap BlockRef VerifiedBlock :=
  match refs, rounds with
  | authority_refs :: refs, last_committed_round :: rounds =>
      let '(authority_refs, recent_blocks) :=
        evict_authority (eviction_round last_committed_round cached_rounds)
          (bt_elements authority_refs) authority_refs recent_blocks in
      let '(refs, recent_blocks) := evict_all cached_rounds refs rounds recent_blocks in
      (authority_refs :: refs, recent_blocks)
  | _, _ => (refs, recent_blocks)
  end.

Definition flush d : outcome (DagState St) :=
  let blocks := blocks_to_write d in
  let commits := commits_to_write d in
  let d := set_to_write [] [] (commit_info_to_write d) d in
  let '(commit_info_to_write, d) :=
    if mysticeti_leader_scoring_and_schedule (context d) then
      (commit_info_to_write d, set_to_write [] [] [] d)
    else
      match last commits with
      | None => ([], d)
      | Some last_commit =>
          ([(commit_reference last_commit,
             mkCommitInfo (last_committed_rounds d) reputation_scores_default)], d)
      end in
  if bool_decide (length blocks = 0%nat) && bool_decide (length commits = 0%nat) then Ok d
  else
    store ← unwrap_store (store_write (store d) (mkWriteBatch blocks commits commit_info_to_write))
              "Failed to write to storage";
    let d := set_store store d in
    let '(recent_refs, recent_blocks) :=
      evict_all (cached_rounds d) (recent_refs d) (last_committed_rounds d) (recent_blocks d) in
    Ok (set_recent recent_blocks recent_refs (highest_accepted_round d) d).

(** [DagState::genesis_blocks]. *)
Definition dag_genesis_blocks d : list VerifiedBlock := bt_values (genesis d).

(** The blocks of the round that forms the last quorum, even if that is genesis. *)
Definition last_quorum_round d (round : Round) : outcome (option (list VerifiedBlock)) :=
  if round =? GENESIS_ROUND then Ok (Some (dag_genesis_blocks d))
  else
    blocks ← get_uncommitted_blocks_at_round d round;
    reached ← aggregate_until (T := QuorumThreshold) (committee (context d)) aggregator_new
                (vb_author <$> blocks);
    Ok (if reached : bool then Some blocks else None).

Definition last_quorum d : outcome (list VerifiedBlock) :=
  result ← foldM (λ result round,
      match result with
      | Some blocks => Ok (Some blocks)
      | None => last_quorum_round d round
      end)
    None (rev (range_inclusive (highest_accepted_round d - 1) (highest_accepted_round d)));
  expect result
    "Fatal error, no quorum has been detected in our DAG on the last two rounds.".

Definition recover_last_commit_info d : outcome (option (CommitRef * CommitInfo)) :=
  unwrap_store (store_read_last_commit_info (store d)) "Failed to read from storage".

(** ** Recovery *)

(** The closure of [new] for one commit of the scan: the committed rounds and the
    sub-dags left to score. *)
Definition recover_commit (context : Context) (store : St)
    (st : list Round * list CommittedSubDag) (commit : TrustedCommit) :
    outcome (list Round * list CommittedSubDag) :=
  let '(last_committed_rounds, unscored) := st in
  last_committed_rounds ← foldM bump_committed_round last_committed_rounds (commit_blocks commit);
  if mysticeti_leader_scoring_and_schedule context then
    committed_subdag ← load_committed_subdag_from_store store commit;
    Ok (last_committed_rounds, unscored ++ [committed_subdag])
  else Ok (last_committed_rounds, unscored).

(** The loop of [new] for one authority. *)
Definition recover_authority (cached_rounds : Round) d (p : N * Round) : outcome (DagState St) :=
  let '(i, round) := p in
  authority_index ← expect (to_authority_index (committee (context d)) i)
                      "called `Option::unwrap()` on a `None` value";
  blocks ← store_scan_blocks_by_author (store d) authority_index
             (eviction_round round cached_rounds +u32 1);
  blocks ← unwrap_store blocks "called `Result::unwrap()` on an `Err` value";
  foldM update_block_metadata d blocks.

(** [DagState::new]: initializes DagState from storage. *)
Definition dag_state_new (context : Context) (store : St) : outcome (DagState St) :=
  let cached_rounds := wrap32 (dag_state_cached_rounds context) in
  let num_authorities := N.to_nat (committee_size (committee context)) in
  genesis ← genesis_blocks context;
  let genesis := insert_blocks genesis ∅ in
  last_commit ← unwrap_store (store_read_last_commit store) "Failed to read from storage";
  commit_info ← unwrap_store (store_read_last_commit_info store) "Failed to read from storage";
  let '(last_committed_rounds, commit_recovery_start_index) :=
    match commit_info with
    | Some (commit_ref, commit_info) => (committed_rounds commit_info, cr_index commit_ref +u32 1)
    | None => (replicate num_authorities 0, GENESIS_COMMIT_INDEX +u32 1)
    end in
  '(last_committed_rounds, unscored_committed_subdags) ←
    match last_commit with
    | Some last_commit =>
        commits ← store_scan_commits store
                    (mkCommitRange commit_recovery_start_index (commit_index last_commit +u32 1));
        commits ← unwrap_store commits "Failed to read from storage";
        foldM (recover_commit context store) (last_committed_rounds, []) commits
    | None => Ok (last_committed_rounds, [])
    end;
  let state := mkDagState context genesis ∅ (replicate num_authorities ∅) 0 last_commit
                 last_committed_rounds unscored_committed_subdags [] [] [] [] store cached_rounds in
  foldM (recover_authority cached_rounds) state (enumerate last_committed_rounds).

End dag_state.
