(* ===== verification/DagStateFacts.v ===== *)
(** The invariant of the DAG state and what its operations do to the blocks it answers
    for: [dag_view] is the map of all the blocks accepted, and reads, existence checks,
    flushes, evictions and restarts agree with it. *)

From stdpp Require Import base strings numbers sorting gmap sets relations list.
From S2P Require Import Prelude Committee Block Dag StakeAggregator Commit Store DagState.

Open Scope N_scope.

Section dag_facts.
Context {St : Type} `{StoreSpec St} `{Crypto}.
Implicit Types d : DagState St.

Abbreviation num_authorities d := (committee_size (committee (context d))).

(** All the blocks the DAG answers for. *)
Definition dag_view d : gmap BlockRef VerifiedBlock :=
  genesis d ∪ (recent_blocks d ∪ blocks_of (store d)).

(** The invariant of the cache and the store. *)
Record dag_wf d : Prop := {
  wf_committee : committee_wf (committee (context d));
  wf_refs_len : length (recent_refs d) = N.to_nat (num_authorities d);
  wf_rounds_len : length (last_committed_rounds d) = N.to_nat (num_authorities d);
  wf_genesis : ∃ gl, genesis_blocks (context d) = Ok gl ∧ genesis d = insert_blocks gl ∅;
  wf_recent r b : recent_blocks d !! r = Some b →
    reference b = r ∧ ref_in_bounds r ∧ 0 < br_round r ∧ br_author r < num_authorities d ∧
    br_round r ≤ highest_accepted_round d;
  wf_recent_refs a refs : recent_refs d !! a = Some refs →
    ∀ r, r ∈ refs ↔ br_author r = N.of_nat a ∧ is_Some (recent_blocks d !! r);
  wf_store : store_inv (store d);
  wf_stored r b : blocks_of (store d) !! r = Some b →
    0 < br_round r ∧ br_author r < num_authorities d;
  wf_to_write b : b ∈ blocks_to_write d → recent_blocks d !! reference b = Some b;
  wf_persist r b : recent_blocks d !! r = Some b →
    blocks_of (store d) !! r = Some b ∨
    (blocks_of (store d) !! r = None ∧ b ∈ blocks_to_write d);
  wf_evicted r b lr : blocks_of (store d) !! r = Some b → recent_blocks d !! r = None →
    last_committed_rounds d !! N.to_nat (br_author r) = Some lr →
    br_round r ≤ eviction_round lr (cached_rounds d);
  wf_committed a lr : last_committed_rounds d !! a = Some lr → 0 < lr →
    ∃ r, is_Some (recent_blocks d !! r) ∧ br_author r = N.of_nat a ∧ br_round r = lr;
  wf_commit_round a lr : last_committed_rounds d !! a = Some lr → lr ≤ last_commit_round d;
  wf_cached : 0 < cached_rounds d;
  wf_cached_rounds : cached_rounds d = wrap32 (dag_state_cached_rounds (context d));
}.

Lemma insert_blocks_lookup (bs : list VerifiedBlock) m r :
  (∀ b1 b2, b1 ∈ bs → b2 ∈ bs → reference b1 = reference b2 → b1 = b2) →
  ∀ b, insert_blocks bs m !! r = Some b ↔
    (b ∈ bs ∧ reference b = r) ∨ (m !! r = Some b ∧ r ∉ reference <$> bs).
Proof.
  unfold insert_blocks. revert m. induction bs as [|x bs IH] using rev_ind; intros m Hinj b.
  - simpl. set_solver.
  - rewrite foldl_snoc, fmap_app, !elem_of_app, list_elem_of_singleton.
    change (reference <$> [x]) with [reference x]. rewrite list_elem_of_singleton.
    destruct (decide (reference x = r)) as [<-|Hne].
    + rewrite lookup_insert_eq. split.
      * intros [= ->]. by left; split; [right|].
      * intros [[Hin Hr]|[_ []]]; [|by right]. f_equal.
        apply Hinj; rewrite ?elem_of_app, ?list_elem_of_singleton; auto.
    + rewrite lookup_insert_ne, IH; [naive_solver| |done].
      intros b1 b2 ? ?. apply Hinj; apply elem_of_app; by left.
Qed.

Lemma genesis_refs_inj ctx gl b1 b2 :
  genesis_blocks ctx = Ok gl → b1 ∈ gl → b2 ∈ gl → reference b1 = reference b2 → b1 = b2.
Proof.
  intros Hgl (i & Hi)%list_elem_of_lookup (j & Hj)%list_elem_of_lookup Heq.
  destruct (genesis_blocks_lookup _ _ _ _ Hgl Hi) as (_ & Ha1 & _).
  destruct (genesis_blocks_lookup _ _ _ _ Hgl Hj) as (_ & Ha2 & _).
  unfold reference in Heq. assert (i = j) as -> by (injection Heq; lia). congruence.
Qed.

(** The genesis blocks of the DAG: round 0, no ancestors, one per authority. *)
Lemma genesis_lookup d r b :
  dag_wf d → genesis d !! r = Some b →
  reference b = r ∧ br_round r = GENESIS_ROUND ∧ vb_ancestors b = [] ∧
  br_author r < num_authorities d.
Proof.
  intros Hwf. destruct (wf_genesis _ Hwf) as (gl & Hgl & ->).
  rewrite insert_blocks_lookup by (intros; by eapply genesis_refs_inj).
  rewrite lookup_empty. intros [[Hb <-]|[? _]]; [|done].
  apply list_elem_of_lookup in Hb as [i Hi].
  destruct (genesis_blocks_lookup _ _ _ _ Hgl Hi) as (Hr & Ha & Hanc & _ & Hlt).
  simpl. rewrite Hr, Ha. done.
Qed.

Lemma view_genesis d r :
  dag_wf d → br_round r = GENESIS_ROUND → dag_view d !! r = genesis d !! r.
Proof.
  intros Hwf Hr. unfold dag_view. rewrite lookup_union.
  replace ((recent_blocks d ∪ blocks_of (store d)) !! r) with (@None VerifiedBlock).
  { by rewrite right_id_L by apply _. }
  symmetry. rewrite lookup_union_None. split; apply eq_None_not_Some; intros [b Hb].
  - apply (wf_recent _ Hwf) in Hb. unfold GENESIS_ROUND in *. lia.
  - apply (wf_stored _ Hwf) in Hb. unfold GENESIS_ROUND in *. lia.
Qed.

Lemma view_not_genesis d r :
  dag_wf d → br_round r ≠ GENESIS_ROUND →
  dag_view d !! r = default (blocks_of (store d) !! r) (Some <$> recent_blocks d !! r).
Proof.
  intros Hwf Hr. unfold dag_view.
  rewrite lookup_union_r, lookup_union.
  - by destruct (recent_blocks d !! r), (blocks_of (store d) !! r).
  - apply eq_None_not_Some. intros [b (_ & ? & _)%(genesis_lookup _ _ _ Hwf)]. done.
Qed.

(** Every block of the view is under its reference, with a valid author. *)
Lemma view_reference d r b :
  dag_wf d → dag_view d !! r = Some b →
  reference b = r ∧ br_author r < num_authorities d ∧
  (br_round r = GENESIS_ROUND ∨ (0 < br_round r ∧ ref_in_bounds r)).
Proof.
  intros Hwf. destruct (decide (br_round r = GENESIS_ROUND)) as [Hr|Hr].
  - rewrite view_genesis by done. intros (? & ? & _ & ?)%(genesis_lookup _ _ _ Hwf). auto.
  - rewrite view_not_genesis by done. destruct (recent_blocks d !! r) as [b'|] eqn:Hb; simpl.
    + intros [= ->]. apply (wf_recent _ Hwf) in Hb. naive_solver.
    + intros Hs. pose proof (wf_stored _ Hwf _ _ Hs).
      apply store_inv_reference in Hs as []; [|by apply wf_store]. naive_solver.
Qed.

(** ** Reads *)

Lemma vec_set_middle {A} (pre : list A) x y post :
  vec_set (pre ++ x :: post) (N.of_nat (length pre)) y = Ok (pre ++ y :: post).
Proof.
  unfold vec_set, vec_index. rewrite Nat2N.id, list_lookup_middle by done. simpl.
  by rewrite insert_app_r_alt, Nat.sub_diag by done.
Qed.

(** Reading a batch of blocks is looking each of them up in the view. *)
Lemma get_blocks_view d refs :
  dag_wf d → get_blocks d refs = Ok ((λ r, dag_view d !! r) <$> refs).
Proof.
  intros Hwf. unfold get_blocks, enumerate.
  set (cached r := if br_round r =? GENESIS_ROUND then Some (genesis d !! r)
                   else Some <$> recent_blocks d !! r).
  change (replicate (length refs) None) with
    ([] ++ replicate (length refs) (None : option VerifiedBlock)).
  rewrite (two_phase_cached None cached _ (λ _, True) refs []).
  2:{ intros pre post missing r _. unfold cached. destruct (br_round r =? GENESIS_ROUND).
      - destruct (genesis d !! r); [|done]. by rewrite vec_set_middle.
      - destruct (recent_blocks d !! r); [|done]. by rewrite vec_set_middle. }
  2:{ by apply Forall_true. }
  simpl. rewrite store_read_blocks_spec by apply Hwf. simpl.
  pose proof (two_phase_stored None cached (λ r, blocks_of (store d) !! r) [] refs) as Hst.
  simpl in Hst. change (N.of_nat 0) with 0 in *.
  assert (Hview : (λ r, default (blocks_of (store d) !! r) (cached r)) <$> refs =
    (λ r, dag_view d !! r) <$> refs).
  { apply list_fmap_ext. intros _ r _. unfold cached.
    destruct (br_round r =? GENESIS_ROUND) eqn:Hr; reflect_bools.
    - by rewrite view_genesis.
    - by rewrite view_not_genesis. }
  rewrite <-Hview, <-Hst. case_bool_decide as Hm; [|done]. by rewrite Hm.
Qed.

Lemma get_block_view d r : dag_wf d → get_block d r = Ok (dag_view d !! r).
Proof. intros Hwf. unfold get_block. by rewrite get_blocks_view. Qed.

(** The shortcut of [contains_blocks]: a block that is neither cached nor older than the
    last cached block of its author is in no store. *)
Lemma contains_shortcut d r refs :
  dag_wf d → br_round r ≠ GENESIS_ROUND →
  recent_refs d !! N.to_nat (br_author r) = Some refs →
  match bt_last refs with None => True | Some l => br_round l < br_round r end →
  blocks_of (store d) !! r = None.
Proof.
  unfold GENESIS_ROUND. intros Hwf Hr Hrefs Hlast. apply eq_None_not_Some. intros [b Hb].
  pose proof (wf_recent_refs _ Hwf _ _ Hrefs) as Hin. rewrite N2Nat.id in Hin.
  assert (Hmax : ∀ r', is_Some (recent_blocks d !! r') → br_author r' = br_author r →
    br_round r' < br_round r).
  { intros r' Hr' Ha. assert (r' ∈ refs) as Hr'' by (apply Hin; auto).
    destruct (bt_last refs) as [l|] eqn:Hl.
    - apply bt_last_Some in Hl as [_ Hl]. apply Hl, ref_leb_round in Hr''. lia.
    - apply bt_last_None in Hl. set_solver. }
  assert (Hnone : recent_blocks d !! r = None).
  { apply eq_None_not_Some. intros Hs. specialize (Hmax _ Hs eq_refl). lia. }
  destruct (wf_stored _ Hwf _ _ Hb) as [_ Ha].
  destruct (lookup_lt_is_Some_2 (last_committed_rounds d) (N.to_nat (br_author r))) as [lr Hlr].
  { rewrite (wf_rounds_len _ Hwf). lia. }
  pose proof (wf_evicted _ Hwf _ _ _ Hb Hnone Hlr) as Hev. unfold eviction_round in Hev.
  pose proof (wf_cached _ Hwf).
  destruct (wf_committed _ Hwf _ _ Hlr) as (r' & Hr' & Har' & Hrr'); [lia|].
  assert (br_author r' = br_author r) as Heq by lia.
  specialize (Hmax _ Hr' Heq). lia.
Qed.

Lemma contains_cached_view d r refs :
  dag_wf d → recent_refs d !! N.to_nat (br_author r) = Some refs →
  default (bool_decide (is_Some (blocks_of (store d) !! r)))
    (if bool_decide (r ∈ refs) || bool_decide (is_Some (genesis d !! r)) then Some true
     else if match bt_last refs with
             | None => true | Some last => br_round last <? br_round r end then Some false
     else None) =
  bool_decide (is_Some (dag_view d !! r)).
Proof.
  intros Hwf Hrefs. pose proof (wf_recent_refs _ Hwf _ _ Hrefs r) as Hin.
  rewrite N2Nat.id in Hin.
  assert (Hshort : br_round r ≠ GENESIS_ROUND →
    match bt_last refs with None => true | Some l => br_round l <? br_round r end = true →
    blocks_of (store d) !! r = None).
  { intros Hr Hl. eapply contains_shortcut; [done..|].
    destruct (bt_last refs); [|done]. by reflect_bools. }
  destruct (decide (br_round r = GENESIS_ROUND)) as [Hr|Hr].
  - rewrite view_genesis by done.
    assert (recent_blocks d !! r = None ∧ blocks_of (store d) !! r = None) as [Hn1 Hn2].
    { unfold GENESIS_ROUND in Hr. split; apply eq_None_not_Some; intros [b Hb].
      - apply (wf_recent _ Hwf) in Hb. lia.
      - apply (wf_stored _ Hwf) in Hb. lia. }
    rewrite (bool_decide_eq_false_2 (r ∈ refs)) by (rewrite Hin, Hn1, is_Some_alt; naive_solver).
    rewrite Hn2. destruct (genesis d !! r); [done|]. simpl.
    by destruct (match bt_last refs with None => _ | Some _ => _ end).
  - rewrite view_not_genesis by done.
    rewrite (bool_decide_eq_false_2 (is_Some (genesis d !! r))).
    2:{ intros [b (_ & ? & _)%(genesis_lookup _ _ _ Hwf)]. done. }
    rewrite orb_false_r. destruct (decide (r ∈ refs)) as [Hc|Hc].
    + rewrite (bool_decide_eq_true_2 (r ∈ refs)) by done.
      destruct (proj1 Hin Hc) as [_ [b ->]]. done.
    + rewrite (bool_decide_eq_false_2 (r ∈ refs)) by done.
      replace (recent_blocks d !! r) with (@None VerifiedBlock); simpl.
      2:{ symmetry. apply eq_None_not_Some. naive_solver. }
      destruct (match bt_last refs with None => _ | Some _ => _ end); [|done].
      by rewrite Hshort by done.
Qed.

(** The existence of a batch of blocks, with valid authors, is their presence in the view:
    looking only at the cache for recent rounds loses nothing. *)
Lemma contains_blocks_view d refs :
  dag_wf d → Forall (λ r, br_author r < num_authorities d) refs →
  contains_blocks d refs = Ok ((λ r, bool_decide (is_Some (dag_view d !! r))) <$> refs).
Proof.
  intros Hwf Hauth. unfold contains_blocks, enumerate.
  set (refs_of r := default ∅ (recent_refs d !! N.to_nat (br_author r))).
  set (cached r :=
    if bool_decide (r ∈ refs_of r) || bool_decide (is_Some (genesis d !! r)) then Some true
    else if match bt_last (refs_of r) with
            | None => true | Some last => br_round last <? br_round r end then Some false
    else None).
  assert (Hrefs : ∀ r, br_author r < num_authorities d →
    recent_refs d !! N.to_nat (br_author r) = Some (refs_of r)).
  { intros r Hr. unfold refs_of.
    destruct (lookup_lt_is_Some_2 (recent_refs d) (N.to_nat (br_author r))) as [l ->]; [|done].
    rewrite (wf_refs_len _ Hwf). lia. }
  change (replicate (length refs) false) with ([] ++ replicate (length refs) false).
  rewrite (two_phase_cached false cached _ (λ r, br_author r < num_authorities d) refs []); [|clear Hauth|done].
  2:{ intros pre post missing r Hr. unfold vec_index. rewrite (Hrefs r Hr). simpl. unfold cached.
      destruct (_ || _); [by rewrite vec_set_middle|].
      destruct (match bt_last _ with None => _ | Some _ => _ end); [|done].
      by rewrite vec_set_middle. }
  simpl. rewrite store_contains_blocks_spec by apply Hwf. simpl.
  pose proof (two_phase_stored false cached
    (λ r, bool_decide (is_Some (blocks_of (store d) !! r))) [] refs) as Hst.
  simpl in Hst. change (N.of_nat 0) with 0 in *.
  assert (Hview : (λ r, default (bool_decide (is_Some (blocks_of (store d) !! r))) (cached r)) <$> refs =
    (λ r, bool_decide (is_Some (dag_view d !! r))) <$> refs).
  { apply list_fmap_ext. intros i r Hi. rewrite Forall_lookup in Hauth.
    apply contains_cached_view; [done|]. eapply Hrefs, Hauth, Hi. }
  rewrite <-Hview, <-Hst. case_bool_decide as Hm; [|done]. by rewrite Hm.
Qed.

(** Every block at or above the round of the last commit is in memory. *)
Lemma view_uncommitted d r :
  dag_wf d → last_commit_round d ≤ br_round r → br_round r ≠ GENESIS_ROUND →
  dag_view d !! r = recent_blocks d !! r.
Proof.
  intros Hwf Hr Hg. rewrite view_not_genesis by done.
  destruct (recent_blocks d !! r) as [b|] eqn:Hb; [done|]. simpl.
  apply eq_None_not_Some. intros [b Hs].
  destruct (wf_stored _ Hwf _ _ Hs) as [Hpos Ha].
  destruct (lookup_lt_is_Some_2 (last_committed_rounds d) (N.to_nat (br_author r))) as [lr Hlr].
  { rewrite (wf_rounds_len _ Hwf). lia. }
  pose proof (wf_evicted _ Hwf _ _ _ Hs Hb Hlr) as Hev.
  pose proof (wf_commit_round _ Hwf _ _ Hlr). pose proof (wf_cached _ Hwf).
  unfold eviction_round in Hev. lia.
Qed.

Lemma uncommitted_at_slot_recent d slot :
  dag_wf d →
  ∃ l, get_uncommitted_blocks_at_slot d slot = Ok l ∧ NoDup l ∧
    ∀ b, b ∈ l ↔ recent_blocks d !! reference b = Some b ∧ vb_slot b = slot.
Proof.
  intros Hwf. unfold get_uncommitted_blocks_at_slot.
  destruct (blocks_at_slot (recent_blocks d) slot) as (l & -> & Hnd & Hl);
    [intros r b Hb; by destruct (wf_recent _ Hwf _ _ Hb) as (? & ? & ?)|].
  by exists l.*2.
Qed.

Lemma uncommitted_at_slot_view d slot :
  dag_wf d → last_commit_round d ≤ slot_round slot → slot_round slot ≠ GENESIS_ROUND →
  ∃ l, get_uncommitted_blocks_at_slot d slot = Ok l ∧ NoDup l ∧
    ∀ b, b ∈ l ↔ dag_view d !! reference b = Some b ∧ vb_slot b = slot.
Proof.
  intros Hwf Hr Hg. destruct (uncommitted_at_slot_recent d slot Hwf) as (l & Hl & Hnd & Hin).
  exists l. split_and!; [done..|]. intros b. rewrite Hin.
  split; intros [Hb <-]; (split; [|done]); rewrite view_uncommitted in *; done.
Qed.

Lemma uncommitted_at_round_view d round :
  dag_wf d → last_commit_round d < round → round < U32_MAX →
  ∃ l, get_uncommitted_blocks_at_round d round = Ok l ∧ NoDup l ∧
    ∀ b, b ∈ l ↔ dag_view d !! reference b = Some b ∧ vb_round b = round.
Proof.
  intros Hwf Hr Hmax. unfold get_uncommitted_blocks_at_round.
  rewrite (proj2 (N.leb_gt _ _)) by done.
  destruct (blocks_at_round (recent_blocks d) round) as (l & -> & Hnd & Hl);
    [by intros r b []%(wf_recent _ Hwf)|done|].
  exists l.*2. split_and!; [done..|]. intros b. rewrite Hl.
  split; intros [Hb Hs]; (split; [|done]); simpl in Hs;
    rewrite view_uncommitted in * by (simpl; unfold GENESIS_ROUND; lia || done); done.
Qed.

(** ** Ancestors at a round *)

(** The references the traversal works on: in the history of the block, and still
    leading to everything of its history at the earlier round. *)
Definition frontier d (later : VerifiedBlock) (earlier : Round) (linked : gset BlockRef) : Prop :=
  (∀ x, x ∈ linked → ∃ a, a ∈ vb_ancestors later ∧ history (dag_view d) a x) ∧
  (∀ a t, a ∈ vb_ancestors later → history (dag_view d) a t → br_round t = earlier →
     ∃ x, x ∈ linked ∧ history (dag_view d) x t).

(** What is left to traverse: the greatest reference above the earlier round. *)
Definition frontier_measure (earlier : Round) (linked : gset BlockRef) : N :=
  match bt_last linked with
  | Some r => if br_round r <=? earlier then 0 else ref_code r
  | None => 0
  end.

Lemma frontier_present d later earlier linked x :
  dag_closed (dag_view d) → (∀ a, a ∈ vb_ancestors later → is_Some (dag_view d !! a)) →
  frontier d later earlier linked → x ∈ linked → is_Some (dag_view d !! x).
Proof. intros HV Hlater [Hin _] (a & Ha & Hax)%Hin. eauto using history_present. Qed.

(** Replacing the greatest reference by its ancestors keeps the frontier. *)
Lemma frontier_step d later earlier linked r b :
  dag_closed (dag_view d) → frontier d later earlier linked → r ∈ linked →
  earlier < br_round r → dag_view d !! r = Some b →
  frontier d later earlier (linked ∖ {[r]} ∪ list_to_set (vb_ancestors b)).
Proof.
  intros HV [Hin Hto] Hr Hlt Hb. split.
  - intros x [[Hx _]%elem_of_difference|Hx%elem_of_list_to_set]%elem_of_union; [by auto|].
    destruct (Hin r Hr) as (a & Ha & Har). exists a. split; [done|].
    eapply rtc_r; [done|]. by exists b.
  - intros a t Ha Hat Ht. destruct (Hto a t Ha Hat Ht) as (x & Hx & Hxt).
    destruct (decide (x = r)) as [->|Hne].
    + destruct (history_step (dag_view d) r t Hxt) as (b' & y & Hb' & Hy & Hyt); [lia|].
      simplify_eq. exists y. set_solver.
    + exists x. set_solver.
Qed.

Lemma frontier_measure_decr d earlier linked r b :
  dag_closed (dag_view d) → (∀ x, x ∈ linked → is_Some (dag_view d !! x)) →
  bt_last linked = Some r → earlier < br_round r → dag_view d !! r = Some b →
  frontier_measure earlier (linked ∖ {[r]} ∪ list_to_set (vb_ancestors b)) <
  frontier_measure earlier linked.
Proof.
  intros HV Hpres Hlast Hlt Hb. unfold frontier_measure. rewrite Hlast.
  apply bt_last_Some in Hlast as [Hr Hmax].
  rewrite (proj2 (N.leb_gt _ _)) by done.
  destruct (bt_last (_ ∪ _)) as [r'|] eqn:Hlast'; [|apply ref_code_pos; lia].
  destruct (br_round r' <=? earlier) eqn:He; reflect_bools; [apply ref_code_pos; lia|].
  apply bt_last_Some in Hlast' as [Hr' _].
  assert (is_Some (dag_view d !! r') ∧ ord_leb r' r = true ∧ r' ≠ r) as ([b' Hb'] & Hle & Hne).
  { apply elem_of_union in Hr' as [[Hx Hn%not_elem_of_singleton]%elem_of_difference|Ha%elem_of_list_to_set].
    - auto.
    - pose proof (dc_round _ HV _ _ _ Hb Ha). split; [by eapply dc_present|].
      split; [apply ref_leb_spec; lia|]. intros ->. lia. }
  apply ref_code_mono; [| |done..]; (eapply dc_bounds; [done..|lia]).
Qed.

Lemma ancestors_loop_spec d later earlier :
  dag_wf d → dag_closed (dag_view d) →
  (∀ a, a ∈ vb_ancestors later → is_Some (dag_view d !! a)) →
  ∃ linked, while_loop (ancestors_step d earlier) (list_to_set (vb_ancestors later)) = Ok linked ∧
    frontier d later earlier linked ∧ ∀ x, x ∈ linked → br_round x ≤ earlier.
Proof.
  intros Hwf HV Hlater.
  apply (while_loop_measure (frontier d later earlier)
    (λ linked, frontier d later earlier linked ∧ ∀ x, x ∈ linked → br_round x ≤ earlier)
    (frontier_measure earlier)).
  - intros linked Hf. unfold ancestors_step.
    pose proof (λ x, frontier_present d later earlier linked x HV Hlater Hf) as Hpres.
    destruct (bt_last linked) as [r|] eqn:Hlast.
    + destruct (bt_last_Some _ _ Hlast) as [Hr Hmax].
      destruct (br_round r <=? earlier) eqn:He; reflect_bools.
      { eexists; split; [done|]. split; [done|]. intros x Hx%Hmax%ref_leb_round. lia. }
      rewrite get_block_view by done. destruct (Hpres r Hr) as [b Hb]. rewrite Hb. simpl.
      eexists; split; [done|]. split; [by eapply frontier_step|by eapply frontier_measure_decr].
    + apply bt_last_None in Hlast as ->. eexists; split; [done|]. split; [done|set_solver].
  - split; [|by set_solver]. intros x Hx%elem_of_list_to_set. exists x. by split.
  - unfold frontier_measure. destruct (bt_last _) as [r|] eqn:Hlast; [|done].
    destruct (br_round r <=? earlier) eqn:He; [done|]. reflect_bools.
    apply bt_last_Some in Hlast as [Hr%elem_of_list_to_set _].
    destruct (Hlater r Hr) as [b Hb]. apply ref_code_bound. eapply dc_bounds; [done..|lia].
Qed.

Lemma mapM_get_blocks d refs :
  dag_wf d → (∀ x, x ∈ refs → is_Some (dag_view d !! x)) →
  ∃ l, mapM (λ r, block ← get_block d r; expect block "Block should exist in DAG!") refs = Ok l ∧
    ∀ b, b ∈ l ↔ ∃ r, r ∈ refs ∧ dag_view d !! r = Some b.
Proof.
  intros Hwf. induction refs as [|r refs IH]; intros Hpres; simpl.
  - exists []. split; [done|]. set_solver.
  - rewrite get_block_view by done. destruct (Hpres r) as [b Hb]; [left|]. rewrite Hb. simpl.
    destruct IH as (l & -> & Hl); [intros x Hx; apply Hpres; by right|].
    exists (b :: l). split; [done|]. intros b'. rewrite elem_of_cons, Hl. set_solver.
Qed.

(** [ancestors_at_round] terminates, does not panic, and returns exactly the blocks at
    the round in the history of the block. *)
Lemma ancestors_at_round_view d later earlier :
  dag_wf d → dag_closed (dag_view d) →
  (∀ a, a ∈ vb_ancestors later → is_Some (dag_view d !! a)) →
  ∃ l, ancestors_at_round d later earlier = Ok l ∧
    ∀ b, b ∈ l ↔ dag_view d !! reference b = Some b ∧ vb_round b = earlier ∧
      ∃ a, a ∈ vb_ancestors later ∧ history (dag_view d) a (reference b).
Proof.
  intros Hwf HV Hlater. unfold ancestors_at_round.
  destruct (ancestors_loop_spec d later earlier Hwf HV Hlater) as (linked & -> & Hf & Hle).
  unfold bt_set_range. simpl. set (refs := filter _ _).
  assert (Hrefs : ∀ x, x ∈ refs ↔ x ∈ linked ∧ br_round x = earlier).
  { intros x. unfold refs, in_range. rewrite list_elem_of_filter, elem_of_bt_elements, andb_true_r, ref_leb_spec.
    simpl. unfold DIGEST_MIN. split; [intros [? Hx]; specialize (Hle x Hx); split; [done|lia]|].
    intros [? <-]. split; [|done]. lia. }
  assert (Hpres : ∀ x, x ∈ refs → is_Some (dag_view d !! x)).
  { intros x [Hx _]%Hrefs. by eapply frontier_present. }
  destruct (mapM_get_blocks d refs Hwf Hpres) as (l & -> & Hl).
  exists l. split; [done|]. intros b. rewrite Hl. split.
  - intros (r & Hr & Hb). pose proof (dc_reference _ HV _ _ Hb) as <-.
    apply Hrefs in Hr as [Hr He]. split; [done|]. split; [done|]. by apply Hf.
  - intros (Hb & He & a & Ha & Hab). destruct Hf as [_ Hto].
    destruct (Hto a (reference b) Ha Hab He) as (x & Hx & Hxb).
    destruct (history_round _ HV _ _ Hxb) as [->|Hlt].
    + exists (reference b). by rewrite Hrefs.
    + specialize (Hle x Hx). simpl in Hlt. lia.
Qed.

(** ** Accepting a block *)

(** The blocks the verifier and the network types let in. *)
Definition acceptable d (b : VerifiedBlock) : Prop :=
  0 < vb_round b ∧ vb_author b < num_authorities d ∧ ref_in_bounds (reference b).

Lemma contains_block_view d r :
  dag_wf d → br_author r < num_authorities d →
  contains_block d r = Ok (bool_decide (is_Some (dag_view d !! r))).
Proof.
  intros Hwf Hr. unfold contains_block. rewrite contains_blocks_view; [done..|].
  by apply Forall_singleton.
Qed.

(** The fields an accepted block leaves alone. *)
Definition same_commits d d' : Prop :=
  context d' = context d ∧ genesis d' = genesis d ∧ last_commit d' = last_commit d ∧
  last_committed_rounds d' = last_committed_rounds d ∧
  unscored_committed_subdags d' = unscored_committed_subdags d ∧
  pending_commit_votes d' = pending_commit_votes d ∧
  commits_to_write d' = commits_to_write d ∧
  commit_info_to_write d' = commit_info_to_write d ∧
  store d' = store d ∧ cached_rounds d' = cached_rounds d.

Lemma fresh_not_stored d b :
  dag_wf d → 0 < vb_round b → dag_view d !! reference b = None →
  recent_blocks d !! reference b = None ∧ blocks_of (store d) !! reference b = None.
Proof.
  intros Hwf Hr. rewrite view_not_genesis by (simpl; unfold GENESIS_ROUND; lia || done).
  by destruct (recent_blocks d !! reference b).
Qed.

(** Recording a new block in memory. *)
Lemma update_block_metadata_Ok d b :
  dag_wf d → vb_author b < num_authorities d →
  ∃ refs, recent_refs d !! N.to_nat (vb_author b) = Some refs ∧
    update_block_metadata d b =
      Ok (set_recent (<[reference b := b]> (recent_blocks d))
           (<[N.to_nat (vb_author b) := {[reference b]} ∪ refs]> (recent_refs d))
           (N.max (highest_accepted_round d) (vb_round b)) d).
Proof.
  intros Hwf Ha. destruct (lookup_lt_is_Some_2 (recent_refs d) (N.to_nat (vb_author b))) as [refs Hrefs].
  { rewrite (wf_refs_len _ Hwf). lia. }
  exists refs. split; [done|]. unfold update_block_metadata, vec_set, vec_index. simpl.
  by rewrite Hrefs.
Qed.

Lemma recent_refs_insert (rb : gmap BlockRef VerifiedBlock) (rr : list (gset BlockRef)) b refs0 :
  (∀ a refs, rr !! a = Some refs → ∀ r, r ∈ refs ↔ br_author r = N.of_nat a ∧ is_Some (rb !! r)) →
  rr !! N.to_nat (vb_author b) = Some refs0 →
  ∀ a refs, <[N.to_nat (vb_author b) := {[reference b]} ∪ refs0]> rr !! a = Some refs →
  ∀ r, r ∈ refs ↔ br_author r = N.of_nat a ∧ is_Some (<[reference b := b]> rb !! r).
Proof.
  intros Hrr Hb a refs Ha r. rewrite lookup_insert_is_Some'.
  destruct (decide (N.to_nat (vb_author b) = a)) as [<-|Hne].
  - rewrite list_lookup_insert_eq in Ha by (by eapply lookup_lt_Some). injection Ha as <-.
    rewrite elem_of_union, elem_of_singleton, (Hrr _ _ Hb), N2Nat.id.
    split; [intros [->|]; naive_solver|naive_solver].
  - rewrite list_lookup_insert_ne in Ha by done. rewrite (Hrr _ _ Ha).
    split; [naive_solver|]. intros [Hr [<-|]]; [|done]. simpl in Hr. lia.
Qed.

Lemma accept_wf d b refs :
  dag_wf d → acceptable d b → dag_view d !! reference b = None →
  recent_refs d !! N.to_nat (vb_author b) = Some refs →
  let d1 := set_recent (<[reference b := b]> (recent_blocks d))
              (<[N.to_nat (vb_author b) := {[reference b]} ∪ refs]> (recent_refs d))
              (N.max (highest_accepted_round d) (vb_round b)) d in
  let d' := set_to_write (blocks_to_write d ++ [b]) (commits_to_write d)
              (commit_info_to_write d) d1 in
  dag_wf d' ∧ dag_view d' = <[reference b := b]> (dag_view d).
Proof.
  intros Hwf (Hr & Ha & Hbd) Hfresh Hrefs d1 d'.
  destruct (fresh_not_stored _ _ Hwf Hr Hfresh) as [Hnr Hns]. split.
  - split; simpl; try apply Hwf.
    + rewrite length_insert. apply Hwf.
    + intros r b' [[Hr' Hb']|[Hne Hb']]%lookup_insert_Some; [subst r b'|].
      * split_and!; try done; simpl; lia.
      * destruct (wf_recent _ Hwf _ _ Hb') as (? & ? & ? & ? & ?). split_and!; try done. lia.
    + apply recent_refs_insert; [apply Hwf|done].
    + intros b' [Hb'| ->%list_elem_of_singleton]%elem_of_app; [|by rewrite lookup_insert_eq].
      pose proof (wf_to_write _ Hwf _ Hb') as Hrec. rewrite lookup_insert_ne; [done|]. congruence.
    + intros r b' [[Hr' Hb']|[Hne Hb']]%lookup_insert_Some; [subst r b'|].
      * right. split; [done|]. apply elem_of_app. right. by apply list_elem_of_singleton.
      * destruct (wf_persist _ Hwf _ _ Hb') as [?|[? ?]]; [by left|right].
        split; [done|]. apply elem_of_app. by left.
    + intros r b' lr Hs Hn. apply lookup_insert_None in Hn as [Hn _]. by eapply wf_evicted.
    + intros a lr Hlr Hpos. destruct (wf_committed _ Hwf _ _ Hlr Hpos) as (r & Hs & ?).
      exists r. split; [|done]. apply lookup_insert_is_Some'. by right.
  - unfold dag_view. simpl. rewrite <-insert_union_l, (insert_union_r (genesis d)); [done|].
    apply eq_None_not_Some. intros [g (_ & Hg & _)%(genesis_lookup _ _ _ Hwf)].
    unfold GENESIS_ROUND in Hg. simpl in Hg. lia.
Qed.

(** The validator has already accepted a block for its own slot. *)
Definition own_slot_taken d (b : VerifiedBlock) : Prop :=
  vb_author b = own_index (context d) ∧
  ∃ b', recent_blocks d !! reference b' = Some b' ∧ vb_slot b' = vb_slot b.

Lemma own_slot_taken_dec d b : dag_wf d → own_slot_taken d b ∨ ¬ own_slot_taken d b.
Proof.
  intros Hwf. destruct (uncommitted_at_slot_recent d (vb_slot b) Hwf) as (l & _ & _ & Hin).
  unfold own_slot_taken. setoid_rewrite <-Hin.
  destruct (decide (vb_author b = own_index (context d))); [|right; naive_solver].
  destruct l as [|b' l]; [right|left].
  - intros (_ & b' & Hb'). by apply not_elem_of_nil in Hb'.
  - split; [done|]. exists b'. left.
Qed.

(** [accept_block] on every path: a known block changes nothing; a block from the future,
    or a second block for the validator's own slot, panics; any other is added to the view. *)
Lemma accept_block_paths d now b :
  dag_wf d → acceptable d b →
  (is_Some (dag_view d !! reference b) → accept_block d now b = Ok d) ∧
  (dag_view d !! reference b = None →
     (now < vb_timestamp_ms b ∨ own_slot_taken d b → ∃ msg, accept_block d now b = Panic msg) ∧
     (vb_timestamp_ms b ≤ now → ¬ own_slot_taken d b →
        ∃ d', accept_block d now b = Ok d' ∧ dag_wf d' ∧
          dag_view d' = <[reference b := b]> (dag_view d) ∧ same_commits d d')).
Proof.
  intros Hwf Hacc. pose proof Hacc as (Hr & Ha & Hbd).
  unfold accept_block. rewrite (proj2 (N.eqb_neq (vb_round b) 0)) by lia. simpl.
  rewrite contains_block_view by done. simpl. split.
  { intros Hs. by rewrite bool_decide_eq_true_2. }
  intros Hfresh. rewrite bool_decide_eq_false_2 by (rewrite Hfresh; apply is_Some_None).
  destruct (uncommitted_at_slot_recent d (vb_slot b) Hwf) as (l & Hl & _ & Hin).
  change (slot_of_ref (reference b)) with (vb_slot b). rewrite Hl. simpl.
  assert (Htaken : own_slot_taken d b ↔ vb_author b = own_index (context d) ∧ l ≠ []).
  { unfold own_slot_taken. split; intros [? Hx]; (split; [done|]).
    - destruct Hx as (b' & Hb'). apply Hin in Hb'. intros ->. by apply not_elem_of_nil in Hb'.
    - destruct l as [|b' l]; [done|]. exists b'. apply Hin. left. }
  destruct (update_block_metadata_Ok d b Hwf Ha) as (refs & Hrefs & Hupd).
  destruct (accept_wf d b refs Hwf Hacc Hfresh Hrefs) as [Hwf' Hview].
  split.
  - intros Hbad. destruct (now <? vb_timestamp_ms b) eqn:Hts; [by eauto|]. reflect_bools.
    destruct Hbad as [?|[Hown Hne]%Htaken]; [lia|].
    rewrite (proj2 (N.eqb_eq _ _)) by done. rewrite bool_decide_eq_false_2 by done.
    simpl. by eauto.
  - intros Hts Hfree. rewrite (proj2 (N.ltb_ge _ _)) by done.
    assert (Hok : (if vb_author b =? own_index (context d)
      then assert_ (bool_decide (l = []))
        "Block Rejected! Attempted to add block to own slot where block(s) already exists."
      else Ok ()) = Ok ()).
    { destruct (_ =? _) eqn:Ho; [|done]. reflect_bools. rewrite bool_decide_eq_true_2; [done|].
      destruct (decide (l = [])); [done|]. exfalso. by apply Hfree, Htaken. }
    rewrite Hok, Hupd. simpl. eexists. by split.
Qed.

(** ** Flushing *)

(** Evicting one authority: the references at or below the eviction round go, with their
    blocks; stopping at the first that stays is enough as they come in order. *)
Lemma evict_authority_spec ev sorted refs rb :
  StronglySorted (λ x y : BlockRef, ord_leb x y = true) sorted →
  let '(refs', rb') := evict_authority ev sorted refs rb in
  (∀ r, r ∈ refs' ↔ r ∈ refs ∧ ¬ (r ∈ sorted ∧ br_round r ≤ ev)) ∧
  (∀ r b, rb' !! r = Some b ↔ rb !! r = Some b ∧ ¬ (r ∈ sorted ∧ br_round r ≤ ev)).
Proof.
  intros Hs. revert refs rb. induction Hs as [|x sorted Hs IH Hx]; intros refs rb; simpl.
  { split; intros; rewrite elem_of_nil; tauto. }
  destruct (br_round x <=? ev) eqn:Hev; reflect_bools.
  - specialize (IH (refs ∖ {[x]}) (delete x rb)).
    destruct (evict_authority _ _ _ _) as [refs' rb']. destruct IH as [IHr IHb]. split.
    + intros r. rewrite IHr, elem_of_cons. destruct (decide (r = x)) as [->|?]; set_solver.
    + intros r b. rewrite IHb, lookup_delete_Some, elem_of_cons.
      destruct (decide (r = x)) as [->|?]; naive_solver.
  - rewrite Forall_forall in Hx.
    assert (Hno : ∀ r, ¬ (r ∈ x :: sorted ∧ br_round r ≤ ev)).
    { intros r [[->|Hin]%elem_of_cons Hr]; [lia|]. apply Hx, ref_leb_round in Hin. lia. }
    split; intros; specialize (Hno r); tauto.
Qed.

Lemma evict_all_spec cached refs rounds rb :
  length refs = length rounds →
  let '(refs', rb') := evict_all cached refs rounds rb in
  length refs' = length refs ∧
  (∀ a s', refs' !! a = Some s' → ∃ s lr, refs !! a = Some s ∧ rounds !! a = Some lr ∧
     ∀ r, r ∈ s' ↔ r ∈ s ∧ eviction_round lr cached < br_round r) ∧
  (∀ r b, rb' !! r = Some b ↔ rb !! r = Some b ∧
     ∀ a s lr, refs !! a = Some s → rounds !! a = Some lr → r ∈ s →
       eviction_round lr cached < br_round r).
Proof.
  revert rounds rb. induction refs as [|s refs IH]; intros [|lr rounds] rb Hlen;
    simplify_eq/=; [split_and!; naive_solver|].
  pose proof (evict_authority_spec (eviction_round lr cached) (bt_elements s) s rb
    (bt_elements_sorted s)) as Hone.
  destruct (evict_authority _ _ _ _) as [s1 rb1]. destruct Hone as [Hs1 Hrb1].
  specialize (IH rounds rb1 Hlen). destruct (evict_all _ _ _ _) as [refs' rb'].
  destruct IH as (Hl & Hr & Hb). setoid_rewrite elem_of_bt_elements in Hs1.
  setoid_rewrite elem_of_bt_elements in Hrb1. split_and!.
  - simpl. by rewrite Hl.
  - intros [|a] s' Ha; simpl in Ha; [|by apply Hr]. simplify_eq. exists s, lr.
    split_and!; [done..|]. intros r. rewrite Hs1, <-N.nle_gt. tauto.
  - intros r b. rewrite Hb, Hrb1. split.
    + intros [[Hrb Hn] Hall]. split; [done|]. intros [|a] s' lr' Hs' Hlr' Hin; simplify_eq/=.
      * apply N.nle_gt. tauto.
      * by eapply Hall.
    + intros [Hrb Hall]. split; [|intros a; apply (Hall (S a))]. split; [done|].
      intros [Hin Hle]. specialize (Hall 0%nat s lr eq_refl eq_refl Hin). lia.
Qed.

Lemma to_write_inj d b1 b2 :
  dag_wf d → b1 ∈ blocks_to_write d → b2 ∈ blocks_to_write d → reference b1 = reference b2 → b1 = b2.
Proof.
  intros Hwf Hb1%(wf_to_write _ Hwf) Hb2%(wf_to_write _ Hwf) Heq. congruence.
Qed.

(** Once the buffered blocks are written, the store has every block of the view that is
    not genesis, and nothing else. *)
Lemma flushed_blocks d r b :
  dag_wf d →
  insert_blocks (blocks_to_write d) (blocks_of (store d)) !! r = Some b ↔
  recent_blocks d !! r = Some b ∨ (recent_blocks d !! r = None ∧ blocks_of (store d) !! r = Some b).
Proof.
  intros Hwf. rewrite insert_blocks_lookup by (intros; by eapply to_write_inj). split.
  - intros [[Hb <-]|[Hs Hn]]; [left; by apply wf_to_write|].
    destruct (recent_blocks d !! r) as [b'|] eqn:Hr; [|by right].
    destruct (wf_persist _ Hwf _ _ Hr) as [?|[? _]]; left; congruence.
  - intros [Hr|[Hn Hs]].
    + destruct (wf_persist _ Hwf _ _ Hr) as [Hs|[_ Hin]].
      * destruct (decide (r ∈ reference <$> blocks_to_write d)) as [Hin|?]; [|by right].
        apply list_elem_of_fmap in Hin as (b' & -> & Hb'). left.
        pose proof (wf_to_write _ Hwf _ Hb'). simplify_eq. done.
      * left. split; [done|]. by apply (wf_recent _ Hwf) in Hr as [? _].
    + right. split; [done|]. intros (b' & -> & Hb')%list_elem_of_fmap.
      apply (wf_to_write _ Hwf) in Hb'. congruence.
Qed.

Lemma recent_refs_author d a s r :
  dag_wf d → recent_refs d !! a = Some s → r ∈ s →
  N.to_nat (br_author r) = a ∧ is_Some (recent_blocks d !! r).
Proof. intros Hwf Hs Hr. apply (wf_recent_refs _ Hwf _ _ Hs) in Hr as [-> ?]. by rewrite Nat2N.id. Qed.

Lemma flush_wf d s' refs' rb' info :
  dag_wf d → store_inv s' →
  blocks_of s' = insert_blocks (blocks_to_write d) (blocks_of (store d)) →
  evict_all (cached_rounds d) (recent_refs d) (last_committed_rounds d) (recent_blocks d) = (refs', rb') →
  let d' := set_recent rb' refs' (highest_accepted_round d)
              (set_store s' (set_to_write [] [] info d)) in
  dag_wf d' ∧ dag_view d' = dag_view d.
Proof.
  intros Hwf Hinv Hbs Hev d'.
  pose proof (evict_all_spec (cached_rounds d) (recent_refs d) (last_committed_rounds d)
    (recent_blocks d)) as Hspec. rewrite Hev in Hspec.
  destruct Hspec as (Hlen & Hrefs & Hrb).
  { by rewrite (wf_refs_len _ Hwf), (wf_rounds_len _ Hwf). }
  assert (Hst : ∀ r b, blocks_of s' !! r = Some b ↔ recent_blocks d !! r = Some b ∨
    (recent_blocks d !! r = None ∧ blocks_of (store d) !! r = Some b)).
  { intros r b. rewrite Hbs. by apply flushed_blocks. }
  assert (Hkeep : ∀ r b lr, recent_blocks d !! r = Some b →
    last_committed_rounds d !! N.to_nat (br_author r) = Some lr →
    eviction_round lr (cached_rounds d) < br_round r → rb' !! r = Some b).
  { intros r b lr Hr Hlr Hlt. apply Hrb. split; [done|]. intros a s lr' Hs Hlr' Hin.
    destruct (recent_refs_author _ _ _ _ Hwf Hs Hin) as [<- _]. by simplify_eq. }
  split.
  - split; simpl; try apply Hwf; try done.
    + by rewrite Hlen, (wf_refs_len _ Hwf).
    + intros r b [Hb _]%Hrb. by apply wf_recent.
    + intros a refs (s & lr & Hs & Hlr & Hin)%Hrefs r. rewrite Hin.
      rewrite (wf_recent_refs _ Hwf _ _ Hs). split.
      * intros [[Ha [b Hb]] Hlt]. split; [done|]. exists b.
        eapply Hkeep; [done| |done]. by rewrite Ha, Nat2N.id.
      * intros [Ha [b [Hb Hall]%Hrb]]. split; [by eauto|]. eapply Hall; [done..|].
        apply (wf_recent_refs _ Hwf _ _ Hs). eauto.
    + intros r b [(_ & _ & ? & ? & _)%(wf_recent _ Hwf)|[_ Hb]]%Hst; [done|by eapply wf_stored].
    + intros b Hb. by apply not_elem_of_nil in Hb.
    + intros r b [Hb _]%Hrb. left. apply Hst. by left.
    + intros r b lr Hb Hn Hlr. apply Hst in Hb as [Hb|[Hb Hs]].
      * apply N.nlt_ge. intros Hlt. pose proof (Hkeep _ _ _ Hb Hlr Hlt). congruence.
      * by eapply wf_evicted.
    + intros a lr Hlr Hpos. destruct (wf_committed _ Hwf _ _ Hlr Hpos) as (r & [b Hb] & Ha & Hr).
      exists r. split; [|done]. exists b. eapply Hkeep; [done|by rewrite Ha, Nat2N.id|].
      pose proof (wf_cached _ Hwf). unfold eviction_round. lia.
  - unfold dag_view. simpl. f_equal. apply map_eq. intros r. apply option_eq. intros b.
    rewrite !lookup_union_Some_raw, Hst. split.
    + intros [[Hb _]%Hrb|[_ [?|?]]]; auto.
    + intros [Hb|[Hn Hs]].
      * destruct (rb' !! r) as [b'|] eqn:Hb'; [|by auto]. apply Hrb in Hb' as [Hb' _].
        left. congruence.
      * right. split; [|by auto]. apply eq_None_not_Some. intros [b' [Hb' _]%Hrb]. congruence.
Qed.

(** The commit info a flush writes with its commits. *)
Definition flushed_commit_info d : list (CommitRef * CommitInfo) :=
  if mysticeti_leader_scoring_and_schedule (context d) then commit_info_to_write d
  else match last (commits_to_write d) with
       | None => []
       | Some c => [(commit_reference c,
                     mkCommitInfo (last_committed_rounds d) reputation_scores_default)]
       end.

(** What [flush] leaves when there is nothing to write but commit info. *)
Lemma flush_nothing d :
  blocks_to_write d = [] → commits_to_write d = [] →
  flush d = Ok (set_to_write [] []
    (if mysticeti_leader_scoring_and_schedule (context d) then [] else commit_info_to_write d) d).
Proof.
  intros Hb Hc. unfold flush. rewrite Hb, Hc. simpl.
  by destruct (mysticeti_leader_scoring_and_schedule (context d)).
Qed.

Lemma wf_set_info d info :
  dag_wf d → blocks_to_write d = [] → dag_wf (set_to_write [] [] info d).
Proof.
  intros Hwf Hb. split; simpl; try apply Hwf.
  - intros b Hin. by apply not_elem_of_nil in Hin.
  - rewrite <-Hb. apply Hwf.
Qed.

(** What a flush does: the view and the commit state are unchanged, the store holds all of
    the view but genesis, and the buffered commits and commit info are written. *)
Lemma flush_outcome d :
  dag_wf d →
  ∃ d', flush d = Ok d' ∧ dag_wf d' ∧ dag_view d' = dag_view d ∧
    (∀ r b, dag_view d !! r = Some b → br_round r ≠ GENESIS_ROUND →
       blocks_of (store d') !! r = Some b) ∧
    blocks_to_write d' = [] ∧ commits_to_write d' = [] ∧
    commits_of (store d') = insert_commits (commits_to_write d) (commits_of (store d)) ∧
    (blocks_to_write d ≠ [] ∨ commits_to_write d ≠ [] →
       commit_info_of (store d') =
         insert_commit_info (flushed_commit_info d) (commit_info_of (store d))) ∧
    context d' = context d ∧ last_commit d' = last_commit d ∧
    last_committed_rounds d' = last_committed_rounds d ∧ cached_rounds d' = cached_rounds d.
Proof.
  intros Hwf. destruct (decide (blocks_to_write d = [] ∧ commits_to_write d = [])) as [[Hb Hc]|Hne].
  - rewrite flush_nothing by done. eexists. split; [done|].
    split; [by apply wf_set_info|]. split; [done|]. split_and!; try done.
    + intros r b Hv Hr. rewrite view_not_genesis in Hv by done. simpl.
      destruct (recent_blocks d !! r) as [b'|] eqn:Hrb; simplify_eq/=; [|done].
      destruct (wf_persist _ Hwf _ _ Hrb) as [?|[_ Hin]]; [done|].
      rewrite Hb in Hin. by apply not_elem_of_nil in Hin.
    + simpl. by rewrite Hc.
    + naive_solver.
  - set (info := flushed_commit_info d).
    destruct (store_write_spec (store d) (mkWriteBatch (blocks_to_write d) (commits_to_write d) info))
      as (s' & Hw & Hinv & Hbs & Hcs & Hinfo); [apply Hwf| |].
    { rewrite Forall_forall. simpl. intros b (_ & ? & _)%(wf_to_write _ Hwf)%(wf_recent _ Hwf). done. }
    simpl in *.
    destruct (evict_all (cached_rounds d) (recent_refs d) (last_committed_rounds d) (recent_blocks d))
      as [refs' rb'] eqn:Hev.
    set (rest := if mysticeti_leader_scoring_and_schedule (context d) then []
                 else commit_info_to_write d).
    destruct (flush_wf d s' refs' rb' rest Hwf Hinv Hbs Hev) as [Hwf' Hview].
    exists (set_recent rb' refs' (highest_accepted_round d) (set_store s' (set_to_write [] [] rest d))).
    split_and!; try done.
    + unfold flush. unfold info, flushed_commit_info in Hw. unfold rest.
      rewrite (bool_decide_ext (length (blocks_to_write d) = 0%nat) (blocks_to_write d = []))
        by apply length_zero_iff_nil.
      rewrite (bool_decide_ext (length (commits_to_write d) = 0%nat) (commits_to_write d = []))
        by apply length_zero_iff_nil.
      rewrite <-bool_decide_and, bool_decide_eq_false_2 by done.
      destruct (mysticeti_leader_scoring_and_schedule (context d)) eqn:Hflag; simpl;
        rewrite Hflag; simpl.
      * rewrite Hw. simpl. by rewrite Hev.
      * destruct (last (commits_to_write d)); simpl; rewrite Hw; simpl; by rewrite Hev.
    + intros r b Hv Hr. simpl. rewrite Hbs, flushed_blocks by done.
      rewrite view_not_genesis in Hv by done.
      destruct (recent_blocks d !! r); simplify_eq/=; auto.
Qed.

(** ** Properties *)

(** [get_blocks] and [contains_blocks] answer exactly for the blocks the DAG has, be they
    genesis blocks, cached, or only in the store: batching, the cache and the shortcut for
    rounds above the last cached block of an author do not change an answer. *)
Theorem dag_reads_view d refs :
  dag_wf d → Forall (λ r, br_author r < num_authorities d) refs →
  get_blocks d refs = Ok ((λ r, dag_view d !! r) <$> refs) ∧
  contains_blocks d refs = Ok ((λ r, bool_decide (is_Some (dag_view d !! r))) <$> refs).
Proof. intros Hwf Hrefs. split; [by apply get_blocks_view|by apply contains_blocks_view]. Qed.

(** The blocks of a slot at or above the round of the last commit, and of a round above
    it, are read from the cache without loss: each block of the DAG there is returned, once. *)
Theorem uncommitted_reads_view d slot round :
  dag_wf d → last_commit_round d ≤ slot_round slot → slot_round slot ≠ GENESIS_ROUND →
  last_commit_round d < round → round < U32_MAX →
  ∃ at_slot at_round,
    get_uncommitted_blocks_at_slot d slot = Ok at_slot ∧ NoDup at_slot ∧
    (∀ b, b ∈ at_slot ↔ dag_view d !! reference b = Some b ∧ vb_slot b = slot) ∧
    get_uncommitted_blocks_at_round d round = Ok at_round ∧ NoDup at_round ∧
    (∀ b, b ∈ at_round ↔ dag_view d !! reference b = Some b ∧ vb_round b = round).
Proof.
  intros Hwf Hs Hg Hr Hmax. destruct (uncommitted_at_slot_view d slot Hwf Hs Hg) as (l1 & ? & ? & ?).
  destruct (uncommitted_at_round_view d round Hwf Hr Hmax) as (l2 & ? & ? & ?). by exists l1, l2.
Qed.

(** [ancestors_at_round] terminates without a panic on a causally complete DAG, and
    returns exactly the blocks of the round in the history of the block. *)
Theorem ancestors_at_round_exact d later earlier :
  dag_wf d → dag_closed (dag_view d) → dag_view d !! reference later = Some later →
  ∃ l, ancestors_at_round d later earlier = Ok l ∧
    ∀ b, b ∈ l ↔ dag_view d !! reference b = Some b ∧ vb_round b = earlier ∧
      ∃ a, a ∈ vb_ancestors later ∧ history (dag_view d) a (reference b).
Proof. intros Hwf HV Hl. apply ancestors_at_round_view; eauto using dc_present. Qed.

(** [accept_block] on every path: a block the DAG has changes nothing; a block from the
    future, or a second one for the validator's own slot, panics; any other is added, and
    only it, and the invariant of the cache and the store is kept. *)
Theorem accept_block_spec d now b :
  dag_wf d → acceptable d b →
  (is_Some (dag_view d !! reference b) → accept_block d now b = Ok d) ∧
  (dag_view d !! reference b = None →
     (now < vb_timestamp_ms b ∨ own_slot_taken d b → ∃ msg, accept_block d now b = Panic msg) ∧
     (vb_timestamp_ms b ≤ now → ¬ own_slot_taken d b →
        ∃ d', accept_block d now b = Ok d' ∧ dag_wf d' ∧
          dag_view d' = <[reference b := b]> (dag_view d) ∧ same_commits d d')).
Proof. apply accept_block_paths. Qed.

(** [flush] writes every buffered block and commit, evicts only blocks that are in the
    store, and keeps the invariant and every answer of the DAG. *)
Theorem flush_spec d :
  dag_wf d →
  ∃ d', flush d = Ok d' ∧ dag_wf d' ∧ dag_view d' = dag_view d ∧
    (∀ r b, dag_view d !! r = Some b → br_round r ≠ GENESIS_ROUND →
       blocks_of (store d') !! r = Some b) ∧
    blocks_to_write d' = [] ∧ commits_to_write d' = [] ∧
    commits_of (store d') = insert_commits (commits_to_write d) (commits_of (store d)) ∧
    last_commit d' = last_commit d ∧ last_committed_rounds d' = last_committed_rounds d.
Proof.
  intros Hwf. destruct (flush_outcome d Hwf) as (d' & ? & ? & ? & ? & ? & ? & ? & _ & _ & ? & ? & _).
  by exists d'.
Qed.

(** With leader scoring on, a [flush] with no block and no commit to write discards the
    commit info that was buffered: it is neither written nor kept for the next flush. *)
Theorem flush_drops_commit_info d :
  mysticeti_leader_scoring_and_schedule (context d) = true →
  blocks_to_write d = [] → commits_to_write d = [] →
  ∃ d', flush d = Ok d' ∧ commit_info_to_write d' = [] ∧ store d' = store d.
Proof. intros Hf Hb Hc. rewrite flush_nothing by done. rewrite Hf. by eexists. Qed.
End dag_facts.
