(* ===== verification/Recovery.v ===== *)
(** Commits of the DAG state and recovery from storage: adding a commit, and restarting
    from what [flush] wrote ([consensus/core/src/dag_state.rs], [add_commit] and [new]). *)

From stdpp Require Import base strings numbers sorting gmap sets relations list.
From S2P Require Import Prelude Committee Block Dag StakeAggregator Commit Store DagState DagStateFacts.

Open Scope N_scope.

Section recovery.
Context {St : Type} `{StoreSpec St} `{Crypto}.
Implicit Types d : DagState St.

Abbreviation num_authorities d := (committee_size (committee (context d))).

(** The committed rounds after the commits [cs]. *)
Definition committed_after (n : N) (cs : list TrustedCommit) : outcome (list Round) :=
  foldM bump_committed_round (replicate (N.to_nat n) 0) (cs ≫= commit_blocks).

(** A commit whose blocks are in the DAG. *)
Record commit_ok d (c : TrustedCommit) : Prop := {
  co_leader : commit_leader c ∈ commit_blocks c;
  co_blocks r : r ∈ commit_blocks c →
    is_Some (dag_view d !! r) ∧ 0 < br_round r ∧ br_round r ≤ commit_round c;
}.

(** Commit info recorded after the first [i] of the commits. *)
Definition info_ok n (cs : list TrustedCommit) (i : N) (info : CommitInfo) : Prop :=
  0 < i ∧ i ≤ N.of_nat (length cs) ∧
  committed_after n (take (N.to_nat i) cs) = Ok (committed_rounds info).

(** The commits the DAG state has seen, [cs], numbered from 1: the store has a prefix and
    the buffer the rest, and the committed rounds are those of the commits. *)
Record commits_wf d (cs : list TrustedCommit) : Prop := {
  cw_index i c : cs !! i = Some c → commit_index c = N.of_nat i + 1;
  cw_bound : N.of_nat (length cs) < U32_MAX;
  cw_last : last_commit d = last cs;
  cw_stored : ∃ k, commits_to_write d = drop k cs ∧
                   commits_of (store d) = insert_commits (take k cs) ∅;
  cw_rounds : committed_after (num_authorities d) cs = Ok (last_committed_rounds d);
  cw_ok c : c ∈ cs → commit_ok d c;
  cw_info i dg info : commit_info_of (store d) !! (i, dg) = Some info →
    info_ok (num_authorities d) cs i info;
  cw_info_to_write r info : (r, info) ∈ commit_info_to_write d →
    info_ok (num_authorities d) cs (cr_index r) info;
}.

(** ** Committed rounds *)

Lemma bump_spec rounds r :
  br_author r < N.of_nat (length rounds) →
  ∃ lr, rounds !! N.to_nat (br_author r) = Some lr ∧
    bump_committed_round rounds r = Ok (<[N.to_nat (br_author r) := N.max lr (br_round r)]> rounds).
Proof.
  intros Hr. destruct (lookup_lt_is_Some_2 rounds (N.to_nat (br_author r))) as [lr Hlr]; [lia|].
  exists lr. split; [done|]. unfold bump_committed_round, vec_set, vec_index. by rewrite Hlr.
Qed.

(** The committed round of an authority is the maximum of the old one and of its blocks. *)
Lemma bump_fold_spec rounds refs :
  (∀ r, r ∈ refs → br_author r < N.of_nat (length rounds)) →
  ∃ rounds', foldM bump_committed_round rounds refs = Ok rounds' ∧
    length rounds' = length rounds ∧
    ∀ a lr', rounds' !! a = Some lr' → ∃ lr, rounds !! a = Some lr ∧ lr ≤ lr' ∧
      (∀ r, r ∈ refs → N.to_nat (br_author r) = a → br_round r ≤ lr') ∧
      (lr' = lr ∨ ∃ r, r ∈ refs ∧ N.to_nat (br_author r) = a ∧ br_round r = lr').
Proof.
  revert rounds. induction refs as [|r refs IH]; intros rounds Hrefs; simpl.
  { exists rounds. split_and!; [done..|]. intros a lr' Ha. exists lr'.
    split_and!; [done..| |by left]. intros r Hr. by apply not_elem_of_nil in Hr. }
  destruct (bump_spec rounds r) as (lr0 & Hlr0 & ->); [apply Hrefs; left|]. simpl.
  destruct (IH (<[N.to_nat (br_author r) := N.max lr0 (br_round r)]> rounds))
    as (rounds' & -> & Hlen & Hspec).
  { intros r' Hr'. rewrite length_insert. apply Hrefs. by right. }
  exists rounds'. rewrite length_insert in Hlen. split_and!; [done..|].
  intros a lr' Ha. destruct (Hspec a lr' Ha) as (lr1 & Hlr1 & Hle & Hall & Hex).
  destruct (decide (N.to_nat (br_author r) = a)) as [<-|Hne].
  - rewrite list_lookup_insert_eq in Hlr1 by (by eapply lookup_lt_Some). simplify_eq.
    exists lr0. split_and!; [done|lia| |].
    + intros r' [->|Hr']%elem_of_cons Ha'; [lia|auto].
    + destruct Hex as [->|(r' & ? & ? & ?)]; [|right; exists r'; split_and!; [by right|done..]].
      destruct (N.max_spec lr0 (br_round r)) as [[? ->]|[? ->]]; [right|by left].
      exists r. split_and!; [by left|done..].
  - rewrite list_lookup_insert_ne in Hlr1 by done. exists lr1. split_and!; [done..| |].
    + intros r' [->|Hr']%elem_of_cons Ha'; [done|auto].
    + destruct Hex as [?|(r' & ? & ? & ?)]; [by left|right; exists r'; split_and!; [by right|done..]].
Qed.

Lemma bump_fold_length rounds refs rounds' :
  foldM bump_committed_round rounds refs = Ok rounds' → length rounds' = length rounds.
Proof.
  intros Hf. eapply (foldM_Ok_inv _ (λ l, length l = length rounds)); [exact Hf|done|].
  intros l r l' Hl _ Hb. unfold bump_committed_round, vec_set in Hb. inv_ok.
  by rewrite length_insert.
Qed.

Lemma committed_after_app n cs1 cs2 rounds :
  committed_after n cs1 = Ok rounds →
  committed_after n (cs1 ++ cs2) = foldM bump_committed_round rounds (cs2 ≫= commit_blocks).
Proof. unfold committed_after. intros Hr. by rewrite bind_app, foldM_app, Hr. Qed.

(** The committed round of an authority is that of its last committed block. *)
Lemma committed_rounds_spec d cs a lr :
  dag_wf d → commits_wf d cs → last_committed_rounds d !! a = Some lr →
  (∀ c r, c ∈ cs → r ∈ commit_blocks c → N.to_nat (br_author r) = a → br_round r ≤ lr) ∧
  (lr = 0 ∨ ∃ c r, c ∈ cs ∧ r ∈ commit_blocks c ∧ N.to_nat (br_author r) = a ∧ br_round r = lr).
Proof.
  intros Hwf Hcs Hlr. pose proof (cw_rounds _ _ Hcs) as Hrounds. unfold committed_after in Hrounds.
  destruct (bump_fold_spec (replicate (N.to_nat (num_authorities d)) 0) (cs ≫= commit_blocks))
    as (rounds & Hb & _ & Hspec).
  { intros r' (c' & Hr' & Hc')%list_elem_of_bind. rewrite length_replicate.
    destruct (co_blocks _ _ (cw_ok _ _ Hcs c' Hc') r' Hr') as ([b Hb] & _).
    apply view_reference in Hb as (_ & ? & _); [|done]. lia. }
  rewrite Hb in Hrounds. injection Hrounds as ->.
  destruct (Hspec _ _ Hlr) as (lr0 & [-> _]%lookup_replicate & _ & Hall & Hcase). split.
  - intros c r Hc Hr. apply Hall. apply list_elem_of_bind. eauto.
  - destruct Hcase as [?|(r & (c & Hr & Hc)%list_elem_of_bind & ? & ?)]; [by left|right; eauto 6].
Qed.

Lemma committed_rounds_above d cs c r lr :
  dag_wf d → commits_wf d cs → c ∈ cs → r ∈ commit_blocks c →
  last_committed_rounds d !! N.to_nat (br_author r) = Some lr → br_round r ≤ lr.
Proof.
  intros Hwf Hcs Hc Hr Hlr. destruct (committed_rounds_spec d cs _ lr Hwf Hcs Hlr) as [Hall _]. by apply (Hall c).
Qed.

(** ** Adding a commit *)

(** The next commit, in sequence, and not before the last one. *)
Record next_commit d (cs : list TrustedCommit) (c : TrustedCommit) : Prop := {
  nc_index : commit_index c = N.of_nat (length cs) + 1;
  nc_bound : commit_index c < U32_MAX;
  nc_timestamp : last_commit_timestamp_ms d ≤ commit_timestamp_ms c;
  nc_round : last_commit_round d ≤ commit_round c;
  nc_ok : commit_ok d c;
}.

Definition committed d (c : TrustedCommit) (rounds : list Round) : DagState St :=
  set_to_write (blocks_to_write d) (commits_to_write d ++ [c]) (commit_info_to_write d)
    (set_pending_votes (pending_commit_votes d ++ [commit_reference c])
      (set_commit (Some c) rounds d)).

Lemma last_commit_index_length d cs :
  commits_wf d cs → last_commit_index d = N.of_nat (length cs).
Proof.
  intros Hcs. unfold last_commit_index. rewrite (cw_last _ _ Hcs).
  destruct (last cs) as [c|] eqn:Hl.
  - rewrite last_lookup in Hl. rewrite (cw_index _ _ Hcs _ _ Hl).
    apply lookup_lt_Some in Hl. lia.
  - apply last_None in Hl as ->. done.
Qed.

(** [add_commit] on the next commit updates the committed rounds and buffers it. *)
Lemma add_commit_Ok d cs c rounds :
  commits_wf d cs → next_commit d cs c →
  foldM bump_committed_round (last_committed_rounds d) (commit_blocks c) = Ok rounds →
  add_commit d c = Ok (committed d c rounds).
Proof.
  intros Hcs Hc Hr. pose proof (last_commit_index_length _ _ Hcs) as Hidx.
  pose proof (nc_index _ _ _ Hc) as Hi. pose proof (nc_timestamp _ _ _ Hc) as Hts.
  pose proof (cw_bound _ _ Hcs). unfold add_commit, last_commit_index, last_commit_timestamp_ms in *.
  destruct (last_commit d) as [lc|].
  - rewrite (proj2 (N.leb_gt _ _)) by lia.
    rewrite u32_add_small by (unfold U32_MAX in *; lia).
    rewrite (proj2 (N.eqb_eq _ _)) by lia. simpl.
    rewrite (proj2 (N.ltb_ge _ _)) by done. simpl. by rewrite Hr.
  - rewrite (proj2 (N.eqb_eq _ _)) by lia. simpl. by rewrite Hr.
Qed.

Lemma commit_blocks_authors d c r :
  dag_wf d → commit_ok d c → r ∈ commit_blocks c →
  br_author r < N.of_nat (length (last_committed_rounds d)).
Proof.
  intros Hwf Hok Hr. destruct (co_blocks _ _ Hok _ Hr) as ([b Hb] & _).
  apply view_reference in Hb as (_ & ? & _); [|done]. rewrite (wf_rounds_len _ Hwf). lia.
Qed.

Lemma committed_wf d cs c rounds :
  dag_wf d → next_commit d cs c →
  foldM bump_committed_round (last_committed_rounds d) (commit_blocks c) = Ok rounds →
  dag_wf (committed d c rounds).
Proof.
  intros Hwf Hc Hr. pose proof (nc_ok _ _ _ Hc) as Hok.
  destruct (bump_fold_spec (last_committed_rounds d) (commit_blocks c))
    as (rounds' & Hr' & Hlen & Hspec).
  { intros r Hin. by eapply commit_blocks_authors. }
  rewrite Hr in Hr'. injection Hr' as <-.
  split; simpl; try apply Hwf.
  - rewrite Hlen. apply Hwf.
  - intros r b lr' Hs Hn Hlr'. destruct (Hspec _ _ Hlr') as (lr & Hlr & Hle & _).
    pose proof (wf_evicted _ Hwf _ _ _ Hs Hn Hlr) as Hev. unfold eviction_round in *. lia.
  - intros a lr' Hlr' Hpos.
    destruct (Hspec _ _ Hlr') as (lr & Hlr & Hle & _ & [->|(r & Hin & Ha & Hrr)]).
    { by eapply wf_committed. }
    destruct (decide (lr' = lr)) as [->|Hne]; [by eapply wf_committed|].
    exists r. split; [|split; [lia|done]].
    destruct (co_blocks _ _ Hok _ Hin) as ([b Hb] & Hpos' & _).
    rewrite view_not_genesis in Hb by (unfold GENESIS_ROUND; lia || done).
    destruct (recent_blocks d !! r) as [b'|] eqn:Hrec; [done|]. simpl in Hb. exfalso.
    rewrite <-Ha in Hlr. pose proof (wf_evicted _ Hwf _ _ _ Hb Hrec Hlr) as Hev.
    unfold eviction_round in Hev. lia.
  - intros a lr' Hlr'.
    destruct (Hspec _ _ Hlr') as (lr & Hlr & _ & _ & [->|(r & Hin & _ & <-)]).
    + pose proof (wf_commit_round _ Hwf _ _ Hlr). pose proof (nc_round _ _ _ Hc).
      unfold last_commit_round at 1. simpl. unfold commit_round in *. lia.
    + by apply (co_blocks _ _ Hok).
Qed.

Lemma committed_commits_wf d cs c rounds :
  dag_wf d → commits_wf d cs → next_commit d cs c →
  foldM bump_committed_round (last_committed_rounds d) (commit_blocks c) = Ok rounds →
  commits_wf (committed d c rounds) (cs ++ [c]).
Proof.
  intros Hwf Hcs Hc Hr.
  assert (Hinfo : ∀ i info, info_ok (num_authorities d) cs i info →
    info_ok (num_authorities d) (cs ++ [c]) i info).
  { intros i info (Hpos & Hle & Hi). split_and!; [done|rewrite length_app; simpl; lia|].
    by rewrite take_app_le by lia. }
  split; simpl.
  - intros i c' [Hi|[Hi Hc']]%lookup_app_Some; [by apply Hcs|].
    apply list_lookup_singleton_Some in Hc' as [? <-]. rewrite (nc_index _ _ _ Hc). lia.
  - rewrite length_app. simpl. pose proof (nc_index _ _ _ Hc). pose proof (nc_bound _ _ _ Hc). lia.
  - by rewrite last_snoc.
  - destruct (cw_stored _ _ Hcs) as (k & Hw & Hs).
    destruct (decide (k ≤ length cs)%nat) as [Hk|Hk].
    + exists k. rewrite drop_app_le, take_app_le, Hw by done. done.
    + exists (length cs). rewrite drop_app_length, take_app_length, Hw, drop_ge by lia.
      rewrite Hs, take_ge by lia. done.
  - rewrite (committed_after_app _ _ _ (last_committed_rounds d)) by apply Hcs.
    simpl. by rewrite app_nil_r.
  - intros c' [Hc'| ->%list_elem_of_singleton]%elem_of_app.
    + apply (cw_ok _ _ Hcs) in Hc' as []. by split.
    + destruct (nc_ok _ _ _ Hc). by split.
  - intros i dg info Hi. eapply Hinfo, cw_info; done.
  - intros r info Hi. eapply Hinfo, cw_info_to_write; done.
Qed.

(** [add_commit] on the next commit. *)
Lemma add_commit_next d cs c :
  dag_wf d → commits_wf d cs → next_commit d cs c →
  ∃ d', add_commit d c = Ok d' ∧ dag_wf d' ∧ commits_wf d' (cs ++ [c]) ∧
    dag_view d' = dag_view d ∧ last_commit d' = Some c ∧
    pending_commit_votes d' = pending_commit_votes d ++ [commit_reference c] ∧
    (∀ a lr', last_committed_rounds d' !! a = Some lr' →
       ∃ lr, last_committed_rounds d !! a = Some lr ∧ lr ≤ lr' ∧
         (∀ r, r ∈ commit_blocks c → N.to_nat (br_author r) = a → br_round r ≤ lr') ∧
         (lr' = lr ∨ ∃ r, r ∈ commit_blocks c ∧ N.to_nat (br_author r) = a ∧ br_round r = lr')) ∧
    context d' = context d ∧ commits_to_write d' ≠ [].
Proof.
  intros Hwf Hcs Hc. destruct (bump_fold_spec (last_committed_rounds d) (commit_blocks c))
    as (rounds & Hr & _ & Hspec).
  { intros r Hin. eapply commit_blocks_authors; [done|apply Hc|done]. }
  exists (committed d c rounds). split_and!; try done.
  - by eapply add_commit_Ok.
  - by eapply committed_wf.
  - by eapply committed_commits_wf.
  - simpl. by destruct (commits_to_write d).
Qed.

(** [add_commit] out of sequence: an index already seen is ignored, and a gap, or a
    timestamp that goes back, panics. *)
Lemma add_commit_out_of_sequence d cs c :
  commits_wf d cs →
  (commit_index c ≤ N.of_nat (length cs) → cs ≠ [] → add_commit d c = Ok d) ∧
  (N.of_nat (length cs) + 1 < commit_index c ∨
   (commit_index c = N.of_nat (length cs) + 1 ∧
    commit_timestamp_ms c < last_commit_timestamp_ms d) →
   ∃ msg, add_commit d c = Panic msg).
Proof.
  intros Hcs. pose proof (last_commit_index_length _ _ Hcs) as Hidx.
  pose proof (cw_bound _ _ Hcs) as Hb. unfold add_commit, last_commit_index, last_commit_timestamp_ms in *.
  assert (last_commit d = None → cs = []) as Hnil.
  { rewrite (cw_last _ _ Hcs). apply last_None. }
  destruct (last_commit d) as [lc|].
  - split.
    + intros Hle _. by rewrite (proj2 (N.leb_le _ _)) by lia.
    + intros Hbad. rewrite (proj2 (N.leb_gt _ _)) by lia.
      rewrite u32_add_small by (unfold U32_MAX in *; lia).
      destruct (_ =? _) eqn:Heq; simpl; [|by eauto]. reflect_bools.
      rewrite (proj2 (N.ltb_lt _ _)) by lia. simpl. eauto.
  - specialize (Hnil eq_refl). split; [done|]. subst cs. simpl. intros Hbad.
    rewrite (proj2 (N.eqb_neq _ _)) by lia. simpl. eauto.
Qed.

(** ** Flushing commits *)

Lemma insert_commit_info_lookup l m k info :
  insert_commit_info l m !! k = Some info →
  (∃ r, (r, info) ∈ l ∧ k = (cr_index r, cr_digest r)) ∨ m !! k = Some info.
Proof.
  unfold insert_commit_info. induction l as [|[r i] l IH] using rev_ind; [by right|].
  rewrite foldl_snoc. intros [[<- <-]|[_ Hk]]%lookup_insert_Some.
  - left. exists r. split; [|done]. apply elem_of_app. right. by apply list_elem_of_singleton.
  - destruct (IH Hk) as [(r' & Hr' & ->)|?]; [|by right]. left. exists r'.
    split; [|done]. apply elem_of_app. by left.
Qed.

(** The commit info a flush writes is right. *)
Lemma flushed_info_ok d cs r info :
  commits_wf d cs → (r, info) ∈ flushed_commit_info d →
  info_ok (num_authorities d) cs (cr_index r) info.
Proof.
  intros Hcs. unfold flushed_commit_info.
  destruct (mysticeti_leader_scoring_and_schedule (context d)); [by apply Hcs|].
  destruct (last (commits_to_write d)) as [c|] eqn:Hl; [|by intros ?%not_elem_of_nil].
  intros [= -> ->]%list_elem_of_singleton. simpl.
  destruct (cw_stored _ _ Hcs) as (k & Hk & _). rewrite Hk in Hl.
  assert (Hlast : last cs = Some c).
  { rewrite <-(take_drop k cs), last_app, Hl. done. }
  rewrite last_lookup in Hlast. pose proof (lookup_lt_Some _ _ _ Hlast) as Hlt.
  rewrite (cw_index _ _ Hcs _ _ Hlast). split_and!; [lia|lia|].
  rewrite take_ge by lia. apply Hcs.
Qed.

Lemma flush_info_subset d d' x :
  flush d = Ok d' → x ∈ commit_info_to_write d' → x ∈ commit_info_to_write d.
Proof.
  unfold flush. simpl. intros Hf Hin.
  destruct (mysticeti_leader_scoring_and_schedule (context d)), (last (commits_to_write d));
    simpl in Hf; destruct (_ && _); inv_ok; try done; try (by apply not_elem_of_nil in Hin);
    repeat match goal with
    | Hev : context [evict_all ?c ?refs ?rounds ?rb] |- _ => destruct (evict_all c refs rounds rb)
    end; inv_ok; done || by apply not_elem_of_nil in Hin.
Qed.

Lemma flush_commits_wf d d' cs :
  dag_wf d → commits_wf d cs → flush d = Ok d' →
  commits_wf d' cs ∧ commits_of (store d') = insert_commits cs ∅.
Proof.
  intros Hwf Hcs Hf.
  destruct (flush_outcome d Hwf) as
    (d2 & Hf2 & Hwf2 & Hview & _ & Hbw & Hcw & Hc & Hinfo & Hctx & Hlast & Hrounds & _).
  rewrite Hf in Hf2. injection Hf2 as <-.
  destruct (cw_stored _ _ Hcs) as (k & Hk & Hs).
  assert (Hall : commits_of (store d') = insert_commits cs ∅).
  { rewrite Hc, Hs, Hk. unfold insert_commits. by rewrite <-foldl_app, take_drop. }
  split; [|done]. split; rewrite ?Hctx, ?Hlast, ?Hrounds, ?Hcw, ?Hall; try apply Hcs.
  - exists (length cs). by rewrite drop_all, firstn_all.
  - intros c Hin. destruct (cw_ok _ _ Hcs c Hin) as [? Hb]. split; [done|].
    by rewrite Hview.
  - intros i dg info Hi.
    destruct (decide (blocks_to_write d = [] ∧ commits_to_write d = [])) as [[Hb Hcm]|Hne].
    + rewrite flush_nothing in Hf by done. injection Hf as <-. by eapply cw_info.
    + rewrite Hinfo in Hi.
      2:{ destruct (decide (blocks_to_write d = [])); [right|left]; tauto. }
      apply insert_commit_info_lookup in Hi as [(r & Hin & [= -> _])|Hi]; [|by eapply cw_info].
      by eapply flushed_info_ok.
  - intros r info Hin. eapply (cw_info_to_write _ _ Hcs), (flush_info_subset _ _ _ Hf), Hin.
Qed.

(** ** Restarting from the store *)

Definition commit_item (c : TrustedCommit) : CommitKey * TrustedCommit :=
  ((commit_index c, tc_digest c), c).

Definition numbered (cs : list TrustedCommit) : Prop :=
  ∀ i c, cs !! i = Some c → commit_index c = N.of_nat i + 1.

Lemma numbered_snoc cs c :
  numbered (cs ++ [c]) → numbered cs ∧ commit_index c = N.of_nat (length cs) + 1.
Proof.
  intros Hn. split.
  - intros i c' Hi. apply Hn. by apply lookup_app_l_Some.
  - apply Hn. by apply list_lookup_middle.
Qed.

Lemma numbered_elem cs c : numbered cs → c ∈ cs → commit_index c ≤ N.of_nat (length cs).
Proof. intros Hn [i Hi]%list_elem_of_lookup. rewrite (Hn _ _ Hi). apply lookup_lt_Some in Hi. lia. Qed.

Lemma insert_commits_lookup cs k c :
  numbered cs → (k, c) ∈ commit_item <$> cs ↔ insert_commits cs ∅ !! k = Some c.
Proof.
  induction cs as [|x cs IH] using rev_ind; intros Hn.
  { simpl. rewrite lookup_empty. split; [by intros ?%not_elem_of_nil|done]. }
  apply numbered_snoc in Hn as [Hn Hx]. unfold insert_commits. rewrite foldl_snoc.
  rewrite lookup_insert_Some. fold (insert_commits cs ∅). rewrite <-IH by done.
  rewrite fmap_app, elem_of_app. change (commit_item <$> [x]) with [commit_item x].
  rewrite list_elem_of_singleton. unfold commit_item at 2. split.
  - intros [Hin|[= -> ->]]; [|by left]. right. split; [|done]. intros <-.
    apply list_elem_of_fmap in Hin as (c' & [= Hi _ ->] & Hc'%numbered_elem); [|done]. lia.
  - intros [[<- <-]|[_ ?]]; auto.
Qed.

(** The commits come back in order of their index. *)
Lemma stored_commits_items cs :
  numbered cs → bt_items (insert_commits cs ∅) = commit_item <$> cs.
Proof.
  intros Hn. symmetry. apply bt_items_unique; [| |by intros; apply insert_commits_lookup].
  - induction cs as [|x cs IH] using rev_ind; [constructor|].
    apply numbered_snoc in Hn as [Hn Hx]. rewrite fmap_app. apply StronglySorted_app_2; [|by apply IH|].
    2:{ change (commit_item <$> [x]) with [commit_item x]. repeat constructor. }
    + intros p q (c & -> & Hc)%list_elem_of_fmap (c' & -> & ->%list_elem_of_singleton)%list_elem_of_fmap.
      apply numbered_elem in Hc; [|done]. simpl. rewrite ord_prod_leb. simpl.
      unfold ord_leb, ord_N. rewrite !N.leb_le. lia.
  - rewrite <-list_fmap_compose. induction cs as [|x cs IH] using rev_ind; [constructor|].
    apply numbered_snoc in Hn as [Hn Hx]. rewrite fmap_app. apply NoDup_app. split_and!.
    + by apply IH.
    + intros k (c & -> & Hc)%list_elem_of_fmap (c' & Heq & ->%list_elem_of_singleton)%list_elem_of_fmap.
      apply numbered_elem in Hc; [|done]. unfold commit_item in Heq. simplify_eq/=. lia.
    + change (NoDup [(commit_item x).1]). apply NoDup_singleton.
Qed.

Lemma last_stored_commit cs :
  numbered cs → snd <$> bt_last_key_value (insert_commits cs ∅) = last cs.
Proof.
  intros Hn. unfold bt_last_key_value. rewrite stored_commits_items by done.
  rewrite fmap_last. by destruct (last cs).
Qed.

(** Scanning from after the first [i] commits gives the rest. *)
Lemma scan_stored_commits (s : St) cs i e :
  store_inv s → commits_of s = insert_commits cs ∅ → numbered cs → (i ≤ length cs)%nat →
  N.of_nat (length cs) < e →
  store_scan_commits s (mkCommitRange (N.of_nat i + 1) e) = Ok (RustOk (drop i cs)).
Proof.
  intros Hs Hc Hn Hi He. rewrite store_scan_commits_spec by (simpl; lia || done).
  rewrite Hc, stored_commits_items by done. do 2 f_equal. simpl.
  set (P := λ p : CommitKey * TrustedCommit, _ = true).
  assert (HP : ∀ c, P (commit_item c) ↔
    N.of_nat i + 1 ≤ commit_index c ∧ commit_index c < e).
  { intros c. unfold P, in_range, ord_ltb.
    rewrite andb_true_iff, negb_true_iff, <-not_true_iff_false, !ord_prod_leb. simpl.
    unfold ord_leb, ord_N. rewrite !N.leb_le. unfold DIGEST_MIN. lia. }
  rewrite <-(take_drop i cs) at 1. rewrite fmap_app, filter_app, fmap_app.
  rewrite list_filter_none, list_filter_all.
  - simpl. rewrite <-list_fmap_compose. apply list_fmap_id.
  - intros p (c & -> & Hc')%list_elem_of_fmap. apply HP.
    apply list_elem_of_lookup in Hc' as [j Hj]. rewrite lookup_drop in Hj.
    rewrite (Hn _ _ Hj). apply lookup_lt_Some in Hj. lia.
  - intros p (c & -> & Hc')%list_elem_of_fmap. rewrite HP.
    apply list_elem_of_lookup in Hc' as [j [Hj Hlt]%lookup_take_Some]. rewrite (Hn _ _ Hj). lia.
Qed.

(** Recovering a list of commits: their committed rounds on top of the ones given. *)
Lemma recover_commits d s l rounds unscored :
  store_inv s → dag_wf d → (∀ c, c ∈ l → commit_ok d c) →
  (∀ r b, dag_view d !! r = Some b → br_round r ≠ GENESIS_ROUND → blocks_of s !! r = Some b) →
  length rounds = length (last_committed_rounds d) →
  ∃ rounds' unscored',
    foldM bump_committed_round rounds (l ≫= commit_blocks) = Ok rounds' ∧
    foldM (recover_commit (context d) s) (rounds, unscored) l = Ok (rounds', unscored').
Proof.
  intros Hs Hwf Hdrop Hst Hlen. revert rounds unscored Hlen.
  induction l as [|c l IH]; intros rounds unscored Hlen; simpl; [by eauto|].
  assert (Hc : commit_ok d c) by (apply Hdrop; left).
  destruct (bump_fold_spec rounds (commit_blocks c)) as (rounds1 & Hr1 & Hlen1 & _).
  { intros r Hr. rewrite Hlen. by eapply commit_blocks_authors. }
  rewrite Hr1. simpl.
  assert (Hload : ∃ sd, load_committed_subdag_from_store s c = Ok sd).
  { assert (∃ bs, Forall2 (λ r b, blocks_of s !! r = Some b) (commit_blocks c) bs) as [bs Hbs].
    { pose proof (co_blocks _ _ Hc) as Hb. clear -Hst Hb. induction (commit_blocks c) as [|r l IH].
      - exists []. constructor.
      - destruct IH as [bs Hbs]; [intros r' ?; apply Hb; by right|].
        destruct (Hb r) as ([b Hv] & Hpos & _); [left|]. exists (b :: bs). constructor; [|done].
        apply Hst; [done|]. unfold GENESIS_ROUND. lia. }
    eexists. apply load_committed_subdag_spec; [done|]. exists bs. split_and!; [done|apply Hc|done]. }
  destruct Hload as [sd Hsd].
  destruct (IH ltac:(intros c' ?; apply Hdrop; by right) rounds1
    (if mysticeti_leader_scoring_and_schedule (context d) then unscored ++ [sd] else unscored)
    ltac:(by rewrite Hlen1)) as (rounds' & unscored' & Hb & Hf).
  exists rounds', unscored'. rewrite foldM_app, Hr1. simpl. split; [done|].
  by destruct (mysticeti_leader_scoring_and_schedule (context d)); [rewrite Hsd|].
Qed.

(** The cache while it is filled from the store of [base]: the stored blocks that satisfy
    [Q]. *)
Record recovering (base : DagState St) (Q : BlockRef → Prop) d : Prop := {
  rc_same : d = set_recent (recent_blocks d) (recent_refs d) (highest_accepted_round d) base;
  rc_len : length (recent_refs d) = N.to_nat (num_authorities base);
  rc_blocks r b : recent_blocks d !! r = Some b ↔ blocks_of (store base) !! r = Some b ∧ Q r;
  rc_refs a refs : recent_refs d !! a = Some refs →
    ∀ r, r ∈ refs ↔ br_author r = N.of_nat a ∧ is_Some (recent_blocks d !! r);
  rc_highest r b : recent_blocks d !! r = Some b → br_round r ≤ highest_accepted_round d;
}.

Lemma recovering_iff base Q Q' d :
  (∀ r, is_Some (blocks_of (store base) !! r) → Q r ↔ Q' r) →
  recovering base Q d → recovering base Q' d.
Proof.
  intros HQ [? ? Hb ? ?]. split; try done. intros r b. rewrite Hb.
  split; intros [? ?]; (split; [done|]); apply HQ; eauto.
Qed.

Lemma recover_update base Q d b :
  recovering base Q d → blocks_of (store base) !! reference b = Some b →
  vb_author b < num_authorities base →
  ∃ d', update_block_metadata d b = Ok d' ∧ recovering base (λ r, Q r ∨ r = reference b) d'.
Proof.
  intros Hd Hb Ha.
  destruct (lookup_lt_is_Some_2 (recent_refs d) (N.to_nat (vb_author b))) as [refs Hrefs].
  { rewrite (rc_len _ _ _ Hd). lia. }
  unfold update_block_metadata, vec_set, vec_index. simpl. rewrite Hrefs. simpl.
  eexists. split; [done|]. split; simpl.
  - rewrite (rc_same _ _ _ Hd) at 4. done.
  - rewrite length_insert. apply Hd.
  - intros r b'. rewrite lookup_insert_Some, (rc_blocks _ _ _ Hd). split.
    + intros [[<- <-]|[_ [? ?]]]; auto.
    + intros [Hb' [HQ| ->]].
      * destruct (decide (reference b = r)) as [<-|?]; [left|right; by auto]. split; [done|congruence].
      * left. split; [done|congruence].
  - apply recent_refs_insert; [apply Hd|done].
  - intros r b' [[<- <-]|[_ Hb']]%lookup_insert_Some; simpl; [lia|].
    apply (rc_highest _ _ _ Hd) in Hb'. lia.
Qed.

Lemma recover_updates base Q d bs :
  recovering base Q d →
  (∀ b, b ∈ bs → blocks_of (store base) !! reference b = Some b ∧ vb_author b < num_authorities base) →
  ∃ d', foldM update_block_metadata d bs = Ok d' ∧
    recovering base (λ r, Q r ∨ r ∈ reference <$> bs) d'.
Proof.
  revert Q d. induction bs as [|b bs IH]; intros Q d Hd Hbs; simpl.
  { exists d. split; [done|]. eapply recovering_iff; [|done]. intros r _. rewrite elem_of_nil. tauto. }
  destruct (Hbs b) as [Hb Ha]; [left|].
  destruct (recover_update _ _ _ _ Hd Hb Ha) as (d1 & -> & Hd1). simpl.
  destruct (IH _ _ Hd1) as (d2 & Hf & Hd2); [intros b' ?; apply Hbs; by right|].
  exists d2. split; [done|]. eapply recovering_iff; [|done]. intros r _.
  change (list_fmap _ _ reference bs) with (reference <$> bs). rewrite elem_of_cons. tauto.
Qed.

Lemma recover_authorities base Q d k rounds cached :
  recovering base Q d → store_inv (store base) →
  (∀ r b, blocks_of (store base) !! r = Some b → br_author r < num_authorities base) →
  k + N.of_nat (length rounds) = num_authorities base →
  Forall (λ lr, eviction_round lr cached < U32_MAX) rounds →
  ∃ d', foldM (recover_authority cached) d (enumerate_from k rounds) = Ok d' ∧
    recovering base (λ r, Q r ∨ ∃ i lr, rounds !! i = Some lr ∧ br_author r = k + N.of_nat i ∧
                                eviction_round lr cached < br_round r) d'.
Proof.
  intros Hd Hs Hauth Hk Hlr. revert Q d k Hd Hk.
  induction Hlr as [|lr rounds Hlr _ IH]; intros Q d k Hd Hk; simpl.
  { exists d. split; [done|]. eapply recovering_iff; [|done]. intros r _. naive_solver. }
  simpl in Hk. rewrite (rc_same _ _ _ Hd). simpl. unfold to_authority_index.
  rewrite (proj2 (N.ltb_lt _ _)) by lia. simpl.
  rewrite u32_add_small by (unfold U32_MAX in *; lia).
  destruct (store_scan_blocks_by_author_spec (store base) k (eviction_round lr cached + 1) Hs)
    as (bs & -> & Hbs); [unfold U32_MAX in *; lia|]. simpl.
  rewrite <-(rc_same _ _ _ Hd).
  destruct (recover_updates base Q d bs Hd) as (d1 & -> & Hd1).
  { intros b (Hb & Ha & _)%Hbs. split; [done|]. by apply Hauth in Hb. }
  simpl. destruct (IH _ _ (k + 1) Hd1) as (d2 & -> & Hd2); [lia|].
  exists d2. split; [done|]. eapply recovering_iff; [|done]. intros r [b Hb].
  destruct (store_inv_reference _ _ _ Hs Hb) as [Hr _].
  assert (Hin : r ∈ reference <$> bs ↔ br_author r = k ∧ eviction_round lr cached < br_round r).
  { rewrite list_elem_of_fmap. subst r. split.
    - intros (b' & Heq & (Hb' & Ha & Hst)%Hbs). rewrite <-Heq in Hb'. simplify_eq. simpl. lia.
    - intros [Ha Hlt]. exists b. split; [done|]. apply Hbs. simpl in *. split_and!; [done..|lia]. }
  rewrite Hin. split.
  - intros [[?|[Ha Hlt]]|(i & lr' & Hi & Ha & Hlt)]; [by left|right..].
    + exists 0%nat, lr. split_and!; [done|lia|done].
    + exists (S i), lr'. split_and!; [done|lia|done].
  - intros [?|([|i] & lr' & Hi & Ha & Hlt)]; simplify_eq/=; [by auto|left; right; split; [lia|done]|].
    right. exists i, lr'. split_and!; [done|lia|done].
Qed.

(** A state of which the store has everything. *)
Record persisted d (cs : list TrustedCommit) : Prop := {
  ps_wf : dag_wf d;
  ps_commits : commits_wf d cs;
  ps_stored : commits_of (store d) = insert_commits cs ∅;
  ps_blocks r b : dag_view d !! r = Some b → br_round r ≠ GENESIS_ROUND →
    blocks_of (store d) !! r = Some b;
}.

(** The committed rounds and commit info a restart starts from. *)
Lemma restart_info d cs :
  persisted d cs →
  ∃ info i rounds, store_read_last_commit_info (store d) = RustOk info ∧
    (i ≤ length cs)%nat ∧ length rounds = length (last_committed_rounds d) ∧
    foldM bump_committed_round rounds (drop i cs ≫= commit_blocks) = Ok (last_committed_rounds d) ∧
    match info with
    | Some (commit_ref, commit_info) => (committed_rounds commit_info, cr_index commit_ref +u32 1)
    | None => (replicate (N.to_nat (num_authorities d)) 0, GENESIS_COMMIT_INDEX +u32 1)
    end = (rounds, N.of_nat i + 1).
Proof.
  intros [Hwf Hcs _ _]. pose proof (cw_rounds _ _ Hcs) as Hr. pose proof (cw_bound _ _ Hcs).
  rewrite store_read_last_commit_info_spec by apply Hwf.
  destruct (bt_last_key_value (commit_info_of (store d))) as [[[i dg] info]|] eqn:Hl; simpl.
  - unfold bt_last_key_value in Hl. apply last_Some in Hl as [l Hl].
    assert (((i, dg), info) ∈ bt_items (commit_info_of (store d))) as Hin%elem_of_bt_items.
    { rewrite Hl. apply elem_of_app. right. by apply list_elem_of_singleton. }
    apply (cw_info _ _ Hcs) in Hin as (Hpos & Hle & Hi).
    eexists _, (N.to_nat i), (committed_rounds info). split; [done|]. split_and!.
    + lia.
    + rewrite (bump_fold_length _ _ _ Hi), length_replicate, (wf_rounds_len _ Hwf). done.
    + rewrite <-(committed_after_app _ _ _ _ Hi), take_drop. done.
    + simpl. rewrite u32_add_small by (unfold U32_MAX in *; lia). f_equal. lia.
  - eexists _, 0%nat, _. split; [done|]. split_and!; [lia| |exact Hr|done].
    by rewrite length_replicate, (wf_rounds_len _ Hwf).
Qed.

(** The cache after a restart is consistent with the store. *)
Lemma restart_wf d cs base d' :
  persisted d cs →
  context base = context d → genesis base = genesis d → store base = store d →
  last_commit base = last_commit d → last_committed_rounds base = last_committed_rounds d →
  cached_rounds base = cached_rounds d → blocks_to_write base = [] →
  recovering base (λ r, False ∨ ∃ i lr, last_committed_rounds d !! i = Some lr ∧
      br_author r = 0 + N.of_nat i ∧ eviction_round lr (cached_rounds d) < br_round r) d' →
  dag_wf d' ∧ dag_view d' = dag_view d.
Proof.
  intros [Hwf Hcs Hst Hps] Hctx Hgen Hstore Hlc Hlr Hcr Hbw Hd'.
  pose proof (rc_same _ _ _ Hd') as Hsame.
  assert (Hb : ∀ r b, recent_blocks d' !! r = Some b ↔ blocks_of (store d) !! r = Some b ∧
    ∃ lr, last_committed_rounds d !! N.to_nat (br_author r) = Some lr ∧
      eviction_round lr (cached_rounds d) < br_round r).
  { intros r b. rewrite (rc_blocks _ _ _ Hd'), Hstore. split; intros [Hs HQ]; (split; [done|]).
    - destruct HQ as [[]|(i & lr & Hi & Ha & Hlt)]. exists lr. rewrite Ha, N.add_0_l, Nat2N.id. done.
    - right. destruct HQ as (lr & Hlr' & Hlt). exists (N.to_nat (br_author r)), lr.
      split_and!; [done|lia|done]. }
  assert (Hview : ∀ r b, br_round r ≠ GENESIS_ROUND →
    dag_view d !! r = Some b ↔ blocks_of (store d) !! r = Some b).
  { intros r b Hr. split; [intros; by apply Hps|]. intros Hs. rewrite view_not_genesis by done.
    destruct (recent_blocks d !! r) as [b'|] eqn:Hrec; [|done]. simpl.
    destruct (wf_persist _ Hwf _ _ Hrec) as [?|[? _]]; congruence. }
  assert (Hnb : num_authorities base = num_authorities d) by by rewrite Hctx.
  assert (Hwf' : dag_wf d').
  { rewrite Hsame. split; simpl; rewrite ?Hctx, ?Hgen, ?Hstore, ?Hlr, ?Hcr, ?Hbw; try apply Hwf.
    + rewrite (rc_len _ _ _ Hd'). by rewrite Hnb.
    + intros r b Hr. pose proof (rc_highest _ _ _ Hd' _ _ Hr). apply Hb in Hr as [Hs _].
      destruct (store_inv_reference _ _ _ (wf_store _ Hwf) Hs).
      destruct (wf_stored _ Hwf _ _ Hs). done.
    + apply Hd'.
    + intros b Hin. by apply not_elem_of_nil in Hin.
    + intros r b [Hs _]%Hb. by left.
    + intros r b lr Hs Hn Hlr'. apply N.nlt_ge. intros Hlt.
      assert (recent_blocks d' !! r = Some b) by (apply Hb; eauto). congruence.
    + intros a lr Ha Hpos. destruct (wf_committed _ Hwf _ _ Ha Hpos) as (r & [b Hr] & Har & Hrr).
      exists r. split; [|done]. exists b. apply Hb. split.
      * apply Hview; [unfold GENESIS_ROUND; lia|].
        rewrite view_not_genesis by (unfold GENESIS_ROUND; lia || done). by rewrite Hr.
      * exists lr. rewrite Har, Nat2N.id. split; [done|].
        pose proof (wf_cached _ Hwf). unfold eviction_round. lia.
    + intros a lr Ha. unfold last_commit_round. simpl. rewrite Hlc. by eapply wf_commit_round. }
  split; [done|]. apply map_eq. intros r. apply option_eq. intros b.
  assert (Hst' : store d' = store d) by (rewrite Hsame; exact Hstore).
  assert (Hgen' : genesis d' = genesis d) by (rewrite Hsame; exact Hgen).
  destruct (decide (br_round r = GENESIS_ROUND)) as [Hr|Hr].
  - by rewrite !view_genesis, Hgen'.
  - rewrite Hview, view_not_genesis, Hst' by done.
    destruct (recent_blocks d' !! r) as [b'|] eqn:Hrec; [|done]. simpl.
    apply Hb in Hrec as [-> _]. done.
Qed.

Lemma flush_persisted d d' cs :
  dag_wf d → commits_wf d cs → flush d = Ok d' → persisted d' cs.
Proof.
  intros Hwf Hcs Hf. destruct (flush_commits_wf _ _ _ Hwf Hcs Hf) as [Hcs' Hst].
  destruct (flush_outcome d Hwf) as (d2 & Hf2 & Hwf2 & Hview & Hps & _).
  rewrite Hf in Hf2. injection Hf2 as <-. split; [done..|]. by rewrite Hview.
Qed.

Lemma evictions_bounded d :
  dag_wf d → Forall (λ lr, eviction_round lr (cached_rounds d) < U32_MAX) (last_committed_rounds d).
Proof.
  intros Hwf. apply Forall_lookup. intros a lr Ha. unfold eviction_round.
  destruct (decide (lr = 0)) as [->|Hne]; [done|].
  destruct (wf_committed _ Hwf _ _ Ha) as (r & [b Hr] & _ & Hrr); [lia|].
  apply (wf_recent _ Hwf) in Hr as (_ & (Hbd & _) & _). pose proof (wf_cached _ Hwf). lia.
Qed.

(** Restarting from a store that has everything gives the state back, but for the votes
    that were pending, the sub-dags left to score and the cached blocks at or below the
    eviction rounds. *)
Lemma restart_persisted d cs :
  persisted d cs →
  ∃ d', dag_state_new (context d) (store d) = Ok d' ∧ dag_wf d' ∧ dag_view d' = dag_view d ∧
    last_commit d' = last_commit d ∧ last_committed_rounds d' = last_committed_rounds d.
Proof.
  intros Hp. pose proof Hp as [Hwf Hcs Hst Hps]. unfold dag_state_new.
  assert (Hn : numbered cs) by exact (cw_index _ _ Hcs).
  destruct (wf_genesis _ Hwf) as (gl & Hgl & Hgen). rewrite Hgl. simpl. rewrite <-Hgen.
  rewrite store_read_last_commit_spec, Hst, (last_stored_commit cs) by apply Hwf || done.
  simpl. destruct (restart_info d cs Hp) as (info & i & rounds & -> & Hi & Hlen & Hbump & Hm).
  simpl. rewrite Hm.
  assert (∃ unscored, match last cs with
    | Some last_commit =>
        commits ← store_scan_commits (store d)
                    (mkCommitRange (N.of_nat i + 1) (commit_index last_commit +u32 1));
        commits ← unwrap_store commits "Failed to read from storage";
        foldM (recover_commit (context d) (store d)) (rounds, []) commits
    | None => Ok (rounds, [])
    end = Ok (last_committed_rounds d, unscored)) as [unscored ->].
  { destruct (last cs) as [c|] eqn:Hl.
    - assert (commit_index c = N.of_nat (length cs)) as ->.
      { pose proof (last_commit_index_length _ _ Hcs) as Hidx. unfold last_commit_index in Hidx.
        by rewrite (cw_last _ _ Hcs), Hl in Hidx. }
      pose proof (cw_bound _ _ Hcs). rewrite u32_add_small by (unfold U32_MAX in *; lia).
      rewrite (scan_stored_commits _ cs) by apply Hwf || done || lia. simpl.
      destruct (recover_commits d (store d) (drop i cs) rounds []) as (rounds' & unscored & Hb & Hf);
        [apply Hwf|done| |done..|].
      { intros c' Hc'. apply (cw_ok _ _ Hcs). rewrite <-(take_drop i cs). apply elem_of_app. by right. }
      rewrite Hbump in Hb. injection Hb as <-. eauto.
    - apply last_None in Hl as ->. rewrite drop_nil in Hbump. injection Hbump as ->. eauto. }
  simpl. rewrite <-(wf_cached_rounds _ Hwf).
  set (base := mkDagState _ _ _ _ _ _ _ _ _ _ _ _ _ _).
  destruct (recover_authorities base (λ _, False) base 0 (last_committed_rounds d) (cached_rounds d))
    as (d' & Hf & Hd').
  - split; simpl; try done.
    + by rewrite length_replicate.
    + intros r b. rewrite lookup_empty. split; [done|by intros [_ []]].
    + intros a refs [-> _]%lookup_replicate r. rewrite lookup_empty, is_Some_alt. set_solver.
  - apply Hwf.
  - intros r b Hb. by apply (wf_stored _ Hwf) in Hb as [_ ?].
  - simpl. rewrite (wf_rounds_len _ Hwf). lia.
  - by apply evictions_bounded.
  - exists d'. split; [exact Hf|].
    destruct (restart_wf d cs base d' Hp) as [Hwf' Hview]; try done.
    { simpl. by rewrite (cw_last _ _ Hcs). }
    split_and!; [done..| |].
    + rewrite (rc_same _ _ _ Hd'). simpl. by rewrite (cw_last _ _ Hcs).
    + by rewrite (rc_same _ _ _ Hd').
Qed.

Lemma dag_state_new_fields ctx s d :
  dag_state_new ctx s = Ok d →
  context d = ctx ∧ store d = s ∧ commits_to_write d = [] ∧ commit_info_to_write d = [].
Proof.
  unfold dag_state_new. intros Hn.
  apply bind_Ok in Hn as (gl & _ & Hn). apply bind_Ok in Hn as (lc & _ & Hn).
  apply bind_Ok in Hn as (info & _ & Hn).
  match type of Hn with (let '(_, _) := ?p in _) = _ => destruct p as [rounds start] end.
  apply bind_Ok in Hn as ([rounds' unscored] & _ & Hn).
  set (base := mkDagState _ _ _ _ _ _ _ _ _ _ _ _ _ _) in Hn.
  assert (Hupd : ∀ d b d', update_block_metadata d b = Ok d' →
    context d' = context d ∧ store d' = store d ∧ commits_to_write d' = commits_to_write d ∧
    commit_info_to_write d' = commit_info_to_write d).
  { intros d0 b d1 Hu. unfold update_block_metadata in Hu.
    apply bind_Ok in Hu as (refs & _ & (refs' & _ & [= <-])%bind_Ok). done. }
  eapply (foldM_Ok_inv _ (λ d, context d = ctx ∧ store d = s ∧ commits_to_write d = [] ∧
    commit_info_to_write d = [])) in Hn; [done..|].
  intros d0 [i r] d1 Hd0 _ Hr. unfold recover_authority in Hr.
  apply bind_Ok in Hr as (a & _ & Hr). apply bind_Ok in Hr as (bs & _ & Hr).
  apply bind_Ok in Hr as (bs' & _ & Hr).
  eapply (foldM_Ok_inv _ (λ d, context d = ctx ∧ store d = s ∧ commits_to_write d = [] ∧
    commit_info_to_write d = [])) in Hr; [done..|].
  intros d2 b d3 (? & ? & ? & ?) _ (-> & -> & -> & ->)%Hupd. done.
Qed.

(** The commits are those before the restart, all of them stored. *)
Lemma restart_commits_wf d cs d' :
  persisted d cs → dag_state_new (context d) (store d) = Ok d' → dag_view d' = dag_view d →
  last_commit d' = last_commit d → last_committed_rounds d' = last_committed_rounds d →
  commits_wf d' cs.
Proof.
  intros [Hwf Hcs Hst _] Hnew Hview Hlast Hrounds.
  destruct (dag_state_new_fields _ _ _ Hnew) as (Hctx & Hstore & Hcw & Hiw).
  split; rewrite ?Hctx, ?Hstore, ?Hcw, ?Hiw, ?Hlast, ?Hrounds; try apply Hcs.
  - exists (length cs). by rewrite drop_all, firstn_all.
  - intros c Hc. destruct (cw_ok _ _ Hcs c Hc) as [? Hb]. split; [done|]. by rewrite Hview.
  - intros r info Hin. by apply not_elem_of_nil in Hin.
Qed.

(** ** The first start *)

(** The state before any block, over an empty store. *)
Definition fresh_state (context : Context) (gl : list VerifiedBlock) (s : St) : DagState St :=
  mkDagState context (insert_blocks gl ∅) ∅
    (replicate (N.to_nat (committee_size (committee context))) ∅) 0 None
    (replicate (N.to_nat (committee_size (committee context))) 0) [] [] [] [] [] s
    (wrap32 (dag_state_cached_rounds context)).

Lemma fresh_persisted context gl s :
  committee_wf (committee context) → genesis_blocks context = Ok gl →
  0 < wrap32 (dag_state_cached_rounds context) →
  store_inv s → blocks_of s = ∅ → commits_of s = ∅ → commit_info_of s = ∅ →
  persisted (fresh_state context gl s) [].
Proof.
  intros Hc Hgl Hcached Hs Hb Hcm Hi.
  assert (Hwf : dag_wf (fresh_state context gl s)).
  { split; simpl; try done; rewrite ?length_replicate, ?Hb; try done; eauto.
    - intros a refs [-> _]%lookup_replicate r. rewrite lookup_empty, is_Some_alt. set_solver.
    - intros b Hin. by apply not_elem_of_nil in Hin.
    - intros a lr [-> _]%lookup_replicate. lia.
    - intros a lr [-> _]%lookup_replicate. lia. }
  split; [done| |done|].
  - split; simpl; try done.
    + exists 0%nat. by rewrite Hcm.
    + intros c Hin. by apply not_elem_of_nil in Hin.
    + intros i dg info. by rewrite Hi, lookup_empty.
    + intros r info Hin. by apply not_elem_of_nil in Hin.
  - intros r b Hv Hr. rewrite view_not_genesis in Hv by done. simpl in Hv. by rewrite lookup_empty in Hv.
Qed.

Lemma fresh_start ctx gl (s : St) :
  committee_wf (committee ctx) → genesis_blocks ctx = Ok gl →
  0 < wrap32 (dag_state_cached_rounds ctx) →
  store_inv s → blocks_of s = ∅ → commits_of s = ∅ → commit_info_of s = ∅ →
  ∃ d, dag_state_new ctx s = Ok d ∧ dag_wf d ∧ commits_wf d [] ∧ context d = ctx ∧
    dag_view d = insert_blocks gl ∅.
Proof.
  intros Hc Hgl Hcached Hs Hb Hcm Hi.
  pose proof (fresh_persisted ctx gl s Hc Hgl Hcached Hs Hb Hcm Hi) as Hp.
  destruct (restart_persisted _ _ Hp) as (d & Hn & Hwf & Hv & Hl & Hr). exists d.
  pose proof (restart_commits_wf _ _ _ Hp Hn Hv Hl Hr). simpl in Hn.
  split_and!; [done..|by eapply dag_state_new_fields|]. rewrite Hv. unfold dag_view. simpl. rewrite Hb.
  by rewrite !(right_id_L ∅ (∪)).
Qed.

(** On an empty store [DagState::new] gives the initial state. *)
Lemma fresh_dag_state ctx gl (s : St) :
  committee_wf (committee ctx) → genesis_blocks ctx = Ok gl →
  store_inv s → blocks_of s = ∅ → commits_of s = ∅ → commit_info_of s = ∅ →
  dag_state_new ctx s = Ok (fresh_state ctx gl s).
Proof.
  intros Hc Hgl Hs Hb Hcm Hi. unfold dag_state_new. rewrite Hgl. cbn [mbind outcome_bind].
  rewrite store_read_last_commit_spec, store_read_last_commit_info_spec, Hcm, Hi by done.
  assert (bt_last_key_value (∅ : gmap CommitKey TrustedCommit) = None) as -> by reflexivity.
  assert (bt_last_key_value (∅ : gmap CommitKey CommitInfo) = None) as -> by reflexivity.
  cbn [fmap option_fmap option_map unwrap_store mbind outcome_bind].
  fold (fresh_state ctx gl s).
  edestruct (foldM_inv (recover_authority (wrap32 (dag_state_cached_rounds ctx))) (λ d, d = fresh_state ctx gl s)
    (enumerate (replicate (N.to_nat (committee_size (committee ctx))) 0))) as (d & Hf & ->); [reflexivity| |exact Hf].
  intros d [i r] -> Hin. pose proof Hin as Hlt%elem_of_enumerate_from. rewrite length_replicate in Hlt.
  exists (fresh_state ctx gl s). split; [|done]. unfold recover_authority, to_authority_index.
  cbn [context fresh_state]. rewrite (proj2 (N.ltb_lt _ _)) by lia. cbn [expect mbind outcome_bind].
  destruct (store_scan_blocks_by_author_spec s i (eviction_round r (wrap32 (dag_state_cached_rounds ctx)) +u32 1) Hs)
    as (l & Hl & Hall).
  { pose proof (N.mod_upper_bound (eviction_round r (wrap32 (dag_state_cached_rounds ctx)) + 1) (2 ^ 32) ltac:(done)) as Hm.
    unfold u32_add, wrap32 in Hm |- *. unfold U32_MAX. lia. }
  change (store (fresh_state ctx gl s)) with s. rewrite Hl. cbn [unwrap_store mbind outcome_bind].
  destruct l as [|b l]; [done|]. exfalso. destruct (Hall b) as [Hb' _]. destruct Hb' as [Hb' _]; [left|].
  by rewrite Hb, lookup_empty in Hb'.
Qed.

(** ** Properties *)

(** C12: Restart.  After a [flush], [DagState::new] on the store gives back the DAG, the
    commits, the last commit and the committed rounds, with the invariants, whatever is
    cached. *)
Theorem restart_after_flush d cs :
  dag_wf d → commits_wf d cs →
  ∃ d1 d2, flush d = Ok d1 ∧ dag_state_new (context d) (store d1) = Ok d2 ∧
    dag_wf d2 ∧ commits_wf d2 cs ∧ dag_view d2 = dag_view d ∧
    last_commit d2 = last_commit d ∧ last_committed_rounds d2 = last_committed_rounds d.
Proof.
  intros Hwf Hcs.
  destruct (flush_outcome d Hwf) as (d1 & Hf & _ & Hv & _ & _ & _ & _ & _ & Hctx & Hl & Hr & _).
  pose proof (flush_persisted d d1 cs Hwf Hcs Hf) as Hp.
  destruct (restart_persisted d1 cs Hp) as (d2 & Hn & Hwf2 & Hv2 & Hl2 & Hr2).
  exists d1, d2. rewrite <-Hctx. split_and!; try done; try congruence.
  by apply (restart_commits_wf d1 cs d2).
Qed.

(** [add_commit].  The next commit is buffered, pending as a vote, and bumps the
    committed rounds of the authors of its blocks; an index already seen is ignored; a gap
    in the indices, or a timestamp that goes back, panics. *)
Theorem add_commit_spec d cs c :
  dag_wf d → commits_wf d cs →
  (next_commit d cs c → ∃ d', add_commit d c = Ok d' ∧ dag_wf d' ∧ commits_wf d' (cs ++ [c]) ∧
     dag_view d' = dag_view d ∧ last_commit d' = Some c ∧
     pending_commit_votes d' = pending_commit_votes d ++ [commit_reference c] ∧
     ∀ a lr', last_committed_rounds d' !! a = Some lr' →
       ∃ lr, last_committed_rounds d !! a = Some lr ∧ lr ≤ lr' ∧
         (∀ r, r ∈ commit_blocks c → N.to_nat (br_author r) = a → br_round r ≤ lr') ∧
         (lr' = lr ∨ ∃ r, r ∈ commit_blocks c ∧ N.to_nat (br_author r) = a ∧ br_round r = lr')) ∧
  (commit_index c ≤ N.of_nat (length cs) → cs ≠ [] → add_commit d c = Ok d) ∧
  (N.of_nat (length cs) + 1 < commit_index c ∨
   (commit_index c = N.of_nat (length cs) + 1 ∧ commit_timestamp_ms c < last_commit_timestamp_ms d) →
   ∃ msg, add_commit d c = Panic msg).
Proof.
  intros Hwf Hcs. split; [|by apply add_commit_out_of_sequence].
  intros Hc. destruct (add_commit_next d cs c Hwf Hcs Hc) as (d' & ? & ? & ? & ? & ? & ? & ? & _).
  by exists d'.
Qed.
End recovery.
