(* ===== verification/BlockManager.v ===== *)
(** The block manager ([consensus/core/src/block_manager.rs]): blocks that arrive before
    their causal history are suspended, and enter the DAG once it is complete.

    The manager and the DAG state it shares with the other components are passed
    explicitly; [now] is the clock that [DagState::accept_block] reads. *)

From stdpp Require Import base strings numbers sorting gmap sets list.
From S2P Require Import Prelude Committee Block BlockVerifier Commit Store DagState.

Open Scope N_scope.

(** The time of suspension only feeds a metric. *)
Record SuspendedBlock := mkSuspendedBlock {
  sb_block : VerifiedBlock;
  sb_missing_ancestors : gset BlockRef;
}.

Record BlockManager := mkBlockManager {
  bm_context : Context;
  suspended_blocks : gmap BlockRef SuspendedBlock;
  missing_ancestors : gmap BlockRef (gset BlockRef);
  missing_blocks : gset BlockRef;
}.

(** [BlockManager::new]. *)
Definition block_manager_new (context : Context) : BlockManager :=
  mkBlockManager context ∅ ∅ ∅.

Definition set_suspended (s : gmap BlockRef SuspendedBlock) (bm : BlockManager) : BlockManager :=
  mkBlockManager (bm_context bm) s (missing_ancestors bm) (missing_blocks bm).

Definition set_missing (ma : gmap BlockRef (gset BlockRef)) (mb : gset BlockRef)
    (bm : BlockManager) : BlockManager :=
  mkBlockManager (bm_context bm) (suspended_blocks bm) ma mb.

(** Result of trying to accept one block. *)
Inductive TryAcceptResult : Type :=
| Accepted (b : VerifiedBlock)
| Suspended (ancestors_to_fetch : gset BlockRef)
| Processed.

Section block_manager.
Context {St : Type} `{Store St} `{Crypto, BlockVerifier}.
Implicit Types (bm : BlockManager) (d : DagState St).

(** One iteration of the loop over the ancestors of [block_ref] in
    [try_accept_one_block]; the state is the manager, [missing_ancestors] and
    [ancestors_to_fetch]. *)
Definition note_ancestor (block_ref : BlockRef)
    (st : BlockManager * gset BlockRef * gset BlockRef) (p : bool * BlockRef) :
    BlockManager * gset BlockRef * gset BlockRef :=
  let '(bm, missing, to_fetch) := st in
  let '(found, ancestor) := p in
  if found : bool then (bm, missing, to_fetch)
  else
    let missing := {[ancestor]} ∪ missing in
    let bm := set_missing
      (<[ancestor := {[block_ref]} ∪ default ∅ (missing_ancestors bm !! ancestor)]>
         (missing_ancestors bm)) (missing_blocks bm) bm in
    if bool_decide (is_Some (suspended_blocks bm !! ancestor)) then (bm, missing, to_fetch)
    else (set_missing (missing_ancestors bm) ({[ancestor]} ∪ missing_blocks bm) bm,
          missing, {[ancestor]} ∪ to_fetch).

Definition try_accept_one_block bm d (block : VerifiedBlock) :
    outcome (TryAcceptResult * BlockManager) :=
  let block_ref := reference block in
  processed ← (if bool_decide (is_Some (suspended_blocks bm !! block_ref)) then Ok true
               else contains_block d block_ref);
  if processed : bool then Ok (Processed, bm)
  else
    let ancestors := vb_ancestors block in
    found ← contains_blocks d ancestors;
    let '(bm, missing, to_fetch) :=
      foldl (note_ancestor block_ref) (bm, ∅, ∅) (zip found ancestors) in
    let bm := set_missing (missing_ancestors bm) (missing_blocks bm ∖ {[block_ref]}) bm in
    if bool_decide (missing = ∅) then Ok (Accepted block, bm)
    else
      _ ← committee_authority (committee (bm_context bm)) (vb_author block);
      Ok (Suspended to_fetch,
          set_suspended (<[block_ref := mkSuspendedBlock block missing]> (suspended_blocks bm)) bm).

(** [try_unsuspend_block]. *)
Definition try_unsuspend_block bm (block_ref accepted_dependency : BlockRef) :
    outcome (option SuspendedBlock * BlockManager) :=
  block ← expect (suspended_blocks bm !! block_ref) "Block should be in suspended map";
  _ ← assert_ (bool_decide (accepted_dependency ∈ sb_missing_ancestors block))
        "Block reference should be present in missing dependencies";
  let block := mkSuspendedBlock (sb_block block)
                 (sb_missing_ancestors block ∖ {[accepted_dependency]}) in
  if bool_decide (sb_missing_ancestors block = ∅) then
    Ok (Some block, set_suspended (delete block_ref (suspended_blocks bm)) bm)
  else Ok (None, set_suspended (<[block_ref := block]> (suspended_blocks bm)) bm).

(** The [for] loop of [try_unsuspend_children_blocks] over the children of a block. *)
Definition unsuspend_child (accepted_dependency : BlockRef)
    (st : BlockManager * list VerifiedBlock * list VerifiedBlock) (r : BlockRef) :
    outcome (BlockManager * list VerifiedBlock * list VerifiedBlock) :=
  let '(bm, to_process, unsuspended) := st in
  '(result, bm) ← try_unsuspend_block bm r accepted_dependency;
  match result with
  | Some block => Ok (bm, to_process ++ [sb_block block], unsuspended ++ [sb_block block])
  | None => Ok (bm, to_process, unsuspended)
  end.

(** Its [while let] loop.  Each iteration takes one block off [to_process] and adds those
    it removes from [suspended_blocks], so the number of suspended blocks bounds it. *)
Fixpoint unsuspend_loop (fuel : nat) bm (to_process unsuspended : list VerifiedBlock) :
    outcome (BlockManager * list VerifiedBlock) :=
  match last to_process with
  | None => Ok (bm, unsuspended)
  | Some block =>
      match fuel with
      | O => OutOfFuel
      | S fuel =>
          let to_process := removelast to_process in
          match missing_ancestors bm !! reference block with
          | Some block_refs_with_missing_deps =>
              let bm := set_missing (delete (reference block) (missing_ancestors bm))
                          (missing_blocks bm) bm in
              '(bm, to_process, unsuspended) ←
                foldM (unsuspend_child (reference block)) (bm, to_process, unsuspended)
                  (bt_elements block_refs_with_missing_deps);
              unsuspend_loop fuel bm to_process unsuspended
          | None => unsuspend_loop fuel bm to_process unsuspended
          end
      end
  end.

Definition try_unsuspend_children_blocks bm (accepted_block : VerifiedBlock) :
    outcome (BlockManager * list VerifiedBlock) :=
  '(bm, unsuspended) ← unsuspend_loop (S (size (suspended_blocks bm))) bm [accepted_block] [];
  _ ← mapM (λ b, committee_authority (committee (bm_context bm)) (vb_author b)) unsuspended;
  Ok (bm, unsuspended).

(** The loop ['ancestor] of [try_accept_blocks]: the ancestors' blocks, or [None] when the
    block has to be rejected with a rejected ancestor. *)
Fixpoint collect_ancestors (to_accept to_reject : gmap BlockRef VerifiedBlock)
    (ancestors : list (BlockRef * option VerifiedBlock)) (ancestor_blocks : list VerifiedBlock) :
    outcome (option (list VerifiedBlock)) :=
  match ancestors with
  | [] => Ok (Some ancestor_blocks)
  | (ancestor_ref, Some found_block) :: ancestors =>
      _ ← assert_ (bool_decide (ancestor_ref = reference found_block))
            "assertion failed: ancestor_ref == found_block.reference()";
      collect_ancestors to_accept to_reject ancestors (ancestor_blocks ++ [found_block])
  | (ancestor_ref, None) :: ancestors =>
      match to_accept !! ancestor_ref with
      | Some block => collect_ancestors to_accept to_reject ancestors (ancestor_blocks ++ [block])
      | None =>
          if bool_decide (is_Some (to_reject !! ancestor_ref)) then Ok None
          else Panic "Unsuspended block has a missing ancestor! Ancestor not found in DagState"
      end
  end.

(** The loop ['block]: one block and its ancestors' timestamps. *)
Definition verify_with_ancestors d
    (st : gmap BlockRef VerifiedBlock * gmap BlockRef VerifiedBlock) (b : VerifiedBlock) :
    outcome (gmap BlockRef VerifiedBlock * gmap BlockRef VerifiedBlock) :=
  let '(to_accept, to_reject) := st in
  ancestors ← get_blocks d (vb_ancestors b);
  _ ← assert_ (N.of_nat (length (vb_ancestors b)) =? N.of_nat (length ancestors))
        "assertion failed: b.ancestors().len() == ancestors.len()";
  ancestor_blocks ← collect_ancestors to_accept to_reject (zip (vb_ancestors b) ancestors) [];
  match ancestor_blocks with
  | None => Ok (to_accept, <[reference b := b]> to_reject)
  | Some ancestor_blocks =>
      check ← check_ancestors b ancestor_blocks;
      match check with
      | RustErr _ => Ok (to_accept, <[reference b := b]> to_reject)
      | RustOk _ => Ok (<[reference b := b]> to_accept, to_reject)
      end
  end.

(** One iteration of the loop of [try_accept_blocks] over its blocks. *)
Definition try_accept_step (now : BlockTimestampMs)
    (st : BlockManager * DagState St * list VerifiedBlock * gset BlockRef) (block : VerifiedBlock) :
    outcome (BlockManager * DagState St * list VerifiedBlock * gset BlockRef) :=
  let '(bm, d, accepted_blocks, missing) := st in
  '(result, bm) ← try_accept_one_block bm d block;
  match result with
  | Suspended ancestors_to_fetch => Ok (bm, d, accepted_blocks, missing ∪ ancestors_to_fetch)
  | Processed => Ok (bm, d, accepted_blocks, missing)
  | Accepted block =>
      '(bm, unsuspended_blocks) ← try_unsuspend_children_blocks bm block;
      '(blocks_to_accept, _) ← foldM (verify_with_ancestors d) (∅, ∅) (block :: unsuspended_blocks);
      let blocks_to_accept := bt_values blocks_to_accept in
      d ← accept_blocks d now blocks_to_accept;
      Ok (bm, d, accepted_blocks ++ blocks_to_accept, missing)
  end.

Definition try_accept_blocks (now : BlockTimestampMs) bm d (blocks : list VerifiedBlock) :
    outcome (BlockManager * DagState St * list VerifiedBlock * gset BlockRef) :=
  let blocks := sort_by (λ b1 b2, vb_round b1 <=? vb_round b2) blocks in
  foldM (try_accept_step now) (bm, d, [], ∅) blocks.

End block_manager.
