(* ===== verification/BlockManagerFacts.v ===== *)
(** What the block manager guarantees: the DAG stays causally complete, blocks wait for
    exactly the ancestors the DAG does not have, and enter it when the last of them does;
    and the panic that a block rejected for its timestamp leads to. *)

From stdpp Require Import base strings numbers sorting gmap sets relations list.
From S2P Require Import Prelude Committee Block Dag BlockVerifier Commit Store DagState DagStateFacts BlockManager.

Open Scope N_scope.

Section manager_facts.
Context {St : Type} `{StoreSpec St} `{Crypto, BlockVerifierSpec}.
Implicit Types (bm : BlockManager) (d : DagState St) (V : dag).

(** ** The blocks in circulation

    [U] is the set of blocks that verification lets through and [ts] gives the timestamps
    of blocks by reference. *)
Context (ctx : Context) (now : BlockTimestampMs) (U : VerifiedBlock → Prop)
  (ts : BlockRef → BlockTimestampMs).

Record universe_ok : Prop := {
  u_acceptable b : U b → 0 < vb_round b ∧ vb_author b < committee_size (committee ctx) ∧
    ref_in_bounds (reference b);
  u_unique b b' : U b → U b' → reference b = reference b' → b = b';
  u_timestamp b : U b → vb_timestamp_ms b = ts (reference b) ∧ vb_timestamp_ms b ≤ now;
  u_author b a : U b → a ∈ vb_ancestors b → br_author a < committee_size (committee ctx);
  u_round b a : U b → a ∈ vb_ancestors b → br_round a < vb_round b;
  u_ancestors b a : U b → a ∈ vb_ancestors b → ts a ≤ vb_timestamp_ms b;
  u_own b b' : U b → U b' → vb_author b = own_index ctx → vb_slot b = vb_slot b' → b = b';
}.

(** The blocks of the DAG are in circulation. *)
Record dag_in_universe d : Prop := {
  du_wf : dag_wf d;
  du_context : context d = ctx;
  du_blocks r b : dag_view d !! r = Some b → 0 < br_round r → U b;
  du_timestamp r b : dag_view d !! r = Some b → vb_timestamp_ms b = ts r;
}.

(** ** The invariant

    [P] are the references that are resolved but not in the DAG yet, [T] those among them
    whose children are still to be visited, and [E a c] the children [c] of [a] left to
    visit when [a] is being visited. *)
Record manager_inv V (P T : list BlockRef) (E : BlockRef → BlockRef → Prop) bm : Prop := {
  mi_committee : committee (bm_context bm) = committee ctx;
  mi_suspended r sb : suspended_blocks bm !! r = Some sb →
    U (sb_block sb) ∧ reference (sb_block sb) = r ∧ sb_missing_ancestors sb ≠ ∅ ∧
    V !! r = None ∧ r ∉ P;
  mi_waiting r sb a : suspended_blocks bm !! r = Some sb →
    a ∈ sb_missing_ancestors sb ↔
    a ∈ vb_ancestors (sb_block sb) ∧ V !! a = None ∧ (a ∉ P ∨ a ∈ T ∨ E a r);
  mi_children a c :
    (∃ cs, missing_ancestors bm !! a = Some cs ∧ c ∈ cs) ∨ E a c ↔
    (∃ sb, suspended_blocks bm !! c = Some sb ∧ a ∈ sb_missing_ancestors sb);
  mi_visited a c : E a c → missing_ancestors bm !! a = None;
  mi_nonempty a cs : missing_ancestors bm !! a = Some cs → cs ≠ ∅;
  mi_missing a : a ∈ missing_blocks bm ↔
    is_Some (missing_ancestors bm !! a) ∧ suspended_blocks bm !! a = None ∧ a ∉ T;
}.

Definition no_edge (a c : BlockRef) : Prop := False.

(** Between calls: every suspended block waits for exactly the ancestors the DAG does not
    have, and the blocks to fetch are those waited for that are not here. *)
Definition manager_wf d bm : Prop := manager_inv (dag_view d) [] [] no_edge bm.

Lemma manager_new_wf d : context d = ctx → manager_wf d (block_manager_new ctx).
Proof.
  intros Hd. split; simpl; try done.
  - intros a c. by split; [intros [(cs & ? & _)|[]]|intros (sb & ? & _)].
  - intros a. rewrite lookup_empty, is_Some_alt. set_solver.
Qed.

(** ** Visiting the children of a resolved block *)

(** Visiting starts: the block leaves [T], its children are left to visit. *)
Lemma visit_start V P T x bm :
  manager_inv V P (T ++ [x]) no_edge bm → x ∈ P → x ∉ T →
  let cs := default ∅ (missing_ancestors bm !! x) in
  manager_inv V P T (λ a c, a = x ∧ c ∈ bt_elements cs)
    (set_missing (delete x (missing_ancestors bm)) (missing_blocks bm) bm).
Proof.
  intros Hbm HxP HxT cs.
  assert (Hcs : ∀ c, c ∈ cs ↔ ∃ sb, suspended_blocks bm !! c = Some sb ∧ x ∈ sb_missing_ancestors sb).
  { intros c. rewrite <-(mi_children _ _ _ _ _ Hbm x c). unfold cs, no_edge.
    destruct (missing_ancestors bm !! x); simpl; set_solver. }
  split; simpl; try apply Hbm.
  - intros r sb a Hr. rewrite (mi_waiting _ _ _ _ _ Hbm _ _ a Hr), elem_of_app, list_elem_of_singleton.
    rewrite elem_of_bt_elements, Hcs. unfold no_edge. split; [|naive_solver].
    intros (Ha & HV & Hor). split_and!; [done..|]. destruct Hor as [?|[[?| ->]|[]]]; auto.
    right. right. split; [done|]. exists sb. split; [done|].
    apply (mi_waiting _ _ _ _ _ Hbm _ _ x Hr). split_and!; [done..|].
    right. left. apply elem_of_app. right. by apply list_elem_of_singleton.
  - intros a c. rewrite elem_of_bt_elements, <-(mi_children _ _ _ _ _ Hbm a c).
    unfold no_edge. setoid_rewrite lookup_delete_Some. split.
    + intros [(cs' & [Hne Ha] & Hc)|[-> Hc]]; [by eauto|]. left.
      unfold cs in Hc. destruct (missing_ancestors bm !! x) as [cs'|]; [by eauto|set_solver].
    + intros [(cs' & Ha & Hc)|[]]. destruct (decide (x = a)) as [->|Hne]; [right|left; by eauto].
      split; [done|]. unfold cs. by rewrite Ha.
  - intros a c [-> _]. apply lookup_delete_eq.
  - intros a cs' [_ Ha]%lookup_delete_Some. by eapply mi_nonempty.
  - intros a. rewrite (mi_missing _ _ _ _ _ Hbm), elem_of_app, list_elem_of_singleton.
    rewrite lookup_delete_is_Some. naive_solver.
Qed.

Definition edges_to (x : BlockRef) (rest : list BlockRef) (a c : BlockRef) : Prop :=
  a = x ∧ c ∈ rest.

(** A child that still waits for another ancestor stays suspended. *)
Lemma visit_child_waits V P T x c rest bm sb :
  manager_inv V P T (edges_to x (c :: rest)) bm → c ∉ rest → x ∈ P → x ∉ T →
  suspended_blocks bm !! c = Some sb → sb_missing_ancestors sb ∖ {[x]} ≠ ∅ →
  manager_inv V P T (edges_to x rest)
    (set_suspended (<[c := mkSuspendedBlock (sb_block sb) (sb_missing_ancestors sb ∖ {[x]})]>
       (suspended_blocks bm)) bm).
Proof.
  intros Hbm Hc HxP HxT Hsb Hne.
  destruct (mi_suspended _ _ _ _ _ Hbm _ _ Hsb) as (HU & Href & _ & HV & HcP).
  split; simpl; try apply Hbm.
  - intros r sb' [[<- <-]|[_ Hr]]%lookup_insert_Some; [done|]. by eapply mi_suspended.
  - intros r sb' a [[<- <-]|[Hrc Hr]]%lookup_insert_Some; simpl.
    + rewrite elem_of_difference, (mi_waiting _ _ _ _ _ Hbm _ _ a Hsb), elem_of_singleton.
      unfold edges_to. rewrite elem_of_cons. destruct (decide (a = x)) as [->|?]; naive_solver.
    + rewrite (mi_waiting _ _ _ _ _ Hbm _ _ a Hr). unfold edges_to. rewrite elem_of_cons. naive_solver.
  - intros a c'. pose proof (mi_children _ _ _ _ _ Hbm a c') as Hch.
    unfold edges_to in *. rewrite elem_of_cons in Hch.
    destruct (decide (c' = c)) as [->|Hcc].
    + rewrite lookup_insert_eq. destruct (decide (a = x)) as [->|Hax].
      * split; [|intros (sb' & [= <-] & Hx); simpl in Hx; set_solver].
        intros [(cs & Hcs & _)|[_ ?]]; [|done].
        rewrite (mi_visited _ _ _ _ _ Hbm x c) in Hcs; [done|]. by split; [|left].
      * split.
        -- intros Hl. destruct (proj1 Hch) as (sb' & Hsb' & Ha); [naive_solver|].
           simplify_eq. eexists; split; [done|]. simpl. set_solver.
        -- intros (sb' & [= <-] & Ha). simpl in Ha. destruct (proj2 Hch); [|by left|naive_solver].
           exists sb. set_solver.
    + rewrite lookup_insert_ne by done. rewrite <-Hch. naive_solver.
  - intros a c' [-> Hc']. eapply (mi_visited _ _ _ _ _ Hbm). split; [done|by right].
  - intros a. rewrite (mi_missing _ _ _ _ _ Hbm).
    destruct (decide (a = c)) as [->|?]; [|by rewrite lookup_insert_ne].
    rewrite lookup_insert_eq, Hsb. naive_solver.
Qed.

(** A child that waits for nothing else is resolved in turn. *)
Lemma visit_child_resolved V P T x c rest bm sb :
  manager_inv V P T (edges_to x (c :: rest)) bm → c ∉ rest → x ∈ P → x ∉ T →
  suspended_blocks bm !! c = Some sb → sb_missing_ancestors sb ∖ {[x]} = ∅ →
  manager_inv V (P ++ [c]) (T ++ [c]) (edges_to x rest)
    (set_suspended (delete c (suspended_blocks bm)) bm) ∧
  (∀ a, a ∈ vb_ancestors (sb_block sb) → is_Some (V !! a) ∨ a ∈ P).
Proof.
  intros Hbm Hc HxP HxT Hsb Hemp.
  assert (Honly : ∀ y, y ∈ sb_missing_ancestors sb → y = x).
  { intros y Hy. destruct (decide (y = x)) as [?|Hyx]; [done|].
    assert (y ∈ sb_missing_ancestors sb ∖ {[x]}) as Hin
      by (apply elem_of_difference; split; [done|by apply not_elem_of_singleton]).
    rewrite Hemp in Hin. by apply elem_of_empty in Hin. }
  destruct (mi_suspended _ _ _ _ _ Hbm _ _ Hsb) as (HU & Href & _ & HV & HcP).
  assert (Hcx : c ≠ x) by (by intros ->).
  assert (Hex : edges_to x (c :: rest) x c) by by split; [|left].
  split.
  2:{ intros a Ha. destruct (V !! a) as [b|] eqn:HVa; [by left; eauto|right].
      destruct (decide (a ∈ P)) as [?|HaP]; [done|].
      assert (a ∈ sb_missing_ancestors sb) as Hin
        by (apply (mi_waiting _ _ _ _ _ Hbm _ _ a Hsb); auto).
      by rewrite (Honly a Hin). }
  split; simpl; try apply Hbm.
  - intros r sb' [Hrc Hr]%lookup_delete_Some.
    destruct (mi_suspended _ _ _ _ _ Hbm _ _ Hr) as (? & ? & ? & ? & ?).
    split_and!; try done. rewrite elem_of_app, list_elem_of_singleton. naive_solver.
  - intros r sb' a [Hrc Hr]%lookup_delete_Some. rewrite (mi_waiting _ _ _ _ _ Hbm _ _ a Hr).
    unfold edges_to. rewrite !elem_of_app, !list_elem_of_singleton, elem_of_cons.
    destruct (decide (a = c)) as [->|?]; naive_solver.
  - intros a c'. pose proof (mi_children _ _ _ _ _ Hbm a c') as Hch.
    unfold edges_to in *. rewrite elem_of_cons in Hch.
    destruct (decide (c' = c)) as [->|Hcc].
    + rewrite lookup_delete_eq. split; [|naive_solver].
      intros [(cs & Hcs & Hin)|[_ ?]]; [|done].
      destruct (proj1 Hch) as (sb' & Hsb' & Ha); [by eauto|]. simplify_eq.
      apply Honly in Ha as ->.
      rewrite (mi_visited _ _ _ _ _ Hbm _ _ Hex) in Hcs. done.
    + rewrite lookup_delete_ne by done. rewrite <-Hch. naive_solver.
  - intros a c' [-> Hc']. by eapply (mi_visited _ _ _ _ _ Hbm).
  - intros a. rewrite (mi_missing _ _ _ _ _ Hbm), elem_of_app, list_elem_of_singleton.
    destruct (decide (a = c)) as [->|?].
    + rewrite lookup_delete_eq, Hsb. naive_solver.
    + rewrite lookup_delete_ne by done. naive_solver.
Qed.

Lemma manager_inv_edges V P T E E' bm :
  (∀ a c, E a c ↔ E' a c) → manager_inv V P T E bm → manager_inv V P T E' bm.
Proof.
  intros HE Hbm. split; try apply Hbm; [|setoid_rewrite <-HE; apply Hbm..].
  intros r sb a Hr. rewrite <-HE. by apply (mi_waiting _ _ _ _ _ Hbm).
Qed.

(** Each block of the list comes after its ancestors that are not in the DAG. *)
Definition causal V (l : list VerifiedBlock) : Prop :=
  ∀ i u, l !! i = Some u → ∀ a, a ∈ vb_ancestors u → is_Some (V !! a) ∨ a ∈ reference <$> take i l.

Lemma causal_snoc V l u :
  causal V l → (∀ a, a ∈ vb_ancestors u → is_Some (V !! a) ∨ a ∈ reference <$> l) →
  causal V (l ++ [u]).
Proof.
  intros Hl Hu i u' [Hi|[Hle Hi]]%lookup_app_Some a Ha.
  - destruct (Hl i u' Hi a Ha) as [?|Hin]; [by left|right].
    rewrite take_app_le; [done|]. apply lookup_lt_Some in Hi. lia.
  - apply list_lookup_singleton_Some in Hi as [Hi <-].
    destruct (Hu a Ha) as [?|?]; [by left|right]. by rewrite take_app_ge, fmap_app, elem_of_app by lia; left.
Qed.

(** The loops of [try_unsuspend_children_blocks], started from [b0]: what is resolved so far
    is [b0] and the unsuspended blocks; [S0] are the references known at the start. *)
Record visit_inv V (S0 : BlockRef → Prop) (b0 : VerifiedBlock) E bm (to_process unsuspended : list VerifiedBlock) : Prop := {
  vi_manager : manager_inv V (reference <$> b0 :: unsuspended) (reference <$> to_process) E bm;
  vi_causal : causal V (b0 :: unsuspended);
  vi_blocks u : u ∈ b0 :: unsuspended → U u ∧ V !! reference u = None;
  vi_distinct : NoDup (reference <$> b0 :: unsuspended);
  vi_to_process_distinct : NoDup (reference <$> to_process);
  vi_to_process r : r ∈ reference <$> to_process → r ∈ reference <$> b0 :: unsuspended;
  vi_settled r : S0 r → is_Some (suspended_blocks bm !! r) ∨ r ∈ reference <$> b0 :: unsuspended;
}.

Lemma unsuspend_child_inv V S0 b0 x c rest bm tp us :
  visit_inv V S0 b0 (edges_to x (c :: rest)) bm tp us → c ∉ rest →
  x ∈ reference <$> b0 :: us → x ∉ reference <$> tp →
  ∃ bm' tp' us', unsuspend_child x (bm, tp, us) c = Ok (bm', tp', us') ∧
    visit_inv V S0 b0 (edges_to x rest) bm' tp' us' ∧
    (length tp' + size (suspended_blocks bm') = length tp + size (suspended_blocks bm))%nat ∧
    x ∈ reference <$> b0 :: us' ∧ x ∉ reference <$> tp'.
Proof.
  intros [Hbm Hca Hbl Hnd Hndt Htp Hset] Hc HxP HxT. unfold unsuspend_child, try_unsuspend_block.
  destruct (proj1 (mi_children _ _ _ _ _ Hbm x c)) as (sb & Hsb & Hx).
  { right. by split; [|left]. }
  destruct (mi_suspended _ _ _ _ _ Hbm _ _ Hsb) as (HU & Href & _ & HV & HcP).
  rewrite Hsb. simpl. rewrite (bool_decide_eq_true_2 (x ∈ sb_missing_ancestors sb)) by done. simpl.
  case_bool_decide as Hemp.
  - destruct (visit_child_resolved _ _ _ _ _ _ _ _ Hbm Hc HxP HxT Hsb Hemp) as [Hbm' Hanc].
    assert (Hsnoc : ∀ l, reference <$> l ++ [sb_block sb] = (reference <$> l) ++ [c]).
    { intros l. rewrite fmap_app. by change (reference <$> [sb_block sb]) with [reference (sb_block sb)]; rewrite Href. }
    eexists _, (tp ++ [sb_block sb]), (us ++ [sb_block sb]). split; [done|]. split; [|split; [|split]].
    + split; rewrite ?app_comm_cons, ?Hsnoc; try done.
      * by apply causal_snoc.
      * intros u [Hu| ->%list_elem_of_singleton]%elem_of_app; [by apply Hbl|].
        simpl. by rewrite Href.
      * apply NoDup_app. split_and!; [done| |apply NoDup_singleton].
        intros r Hr ->%list_elem_of_singleton. done.
      * apply NoDup_app. split_and!; [done| |apply NoDup_singleton].
        intros r Hr%Htp ->%list_elem_of_singleton. done.
      * intros r [Hr%Htp| ->%list_elem_of_singleton]%elem_of_app; apply elem_of_app; [by left|right].
        by apply list_elem_of_singleton.
      * intros r Hr. rewrite elem_of_app, list_elem_of_singleton. simpl.
        rewrite lookup_delete_is_Some. destruct (decide (r = c)) as [->|Hrc]; [by auto|].
        destruct (Hset r Hr); auto.
    + simpl. rewrite length_app, map_size_delete, Hsb. simpl.
      assert (size (suspended_blocks bm) ≠ 0%nat) 
        by (intros Hz%map_size_empty_inv; by rewrite Hz, lookup_empty in Hsb).
      lia.
    + change (x ∈ reference <$> (b0 :: us) ++ [sb_block sb]). rewrite Hsnoc. apply elem_of_app. by left.
    + rewrite Hsnoc, elem_of_app, list_elem_of_singleton. naive_solver.
  - eexists _, _, _. split; [done|]. split; [|split; [|done]].
    + split; try done; [by eapply visit_child_waits|].
      intros r Hr. simpl. rewrite lookup_insert_is_Some'. destruct (Hset r Hr); auto.
    + simpl. rewrite map_size_insert, Hsb. done.
Qed.

Lemma unsuspend_children_inv V S0 b0 x rest bm tp us :
  visit_inv V S0 b0 (edges_to x rest) bm tp us → NoDup rest →
  x ∈ reference <$> b0 :: us → x ∉ reference <$> tp →
  ∃ bm' tp' us', foldM (unsuspend_child x) (bm, tp, us) rest = Ok (bm', tp', us') ∧
    visit_inv V S0 b0 no_edge bm' tp' us' ∧
    (length tp' + size (suspended_blocks bm') = length tp + size (suspended_blocks bm))%nat.
Proof.
  intros Hv Hnd HxP HxT. revert bm tp us Hv HxP HxT.
  induction Hnd as [|c rest Hc Hnd IH]; intros bm tp us Hv HxP HxT.
  - exists bm, tp, us. split_and!; [done| |done]. destruct Hv as [Hbm ? ? ? ? ? ?].
    split; try done. eapply manager_inv_edges; [|exact Hbm].
    intros a c. unfold edges_to, no_edge. rewrite elem_of_nil. tauto.
  - destruct (unsuspend_child_inv _ _ _ _ _ _ _ _ _ Hv Hc HxP HxT)
      as (bm1 & tp1 & us1 & Hf & Hv1 & Hsz & HxP1 & HxT1).
    destruct (IH _ _ _ Hv1 HxP1 HxT1) as (bm2 & tp2 & us2 & Hf2 & Hv2 & Hsz2).
    exists bm2, tp2, us2. cbn [foldM]. rewrite Hf. split_and!; [exact Hf2|done|lia].
Qed.

Lemma visit_pop V S0 b0 bm tp us block :
  visit_inv V S0 b0 no_edge bm (tp ++ [block]) us →
  visit_inv V S0 b0
    (edges_to (reference block) (bt_elements (default ∅ (missing_ancestors bm !! reference block))))
    (set_missing (delete (reference block) (missing_ancestors bm)) (missing_blocks bm) bm) tp us ∧
  reference block ∈ reference <$> b0 :: us ∧ reference block ∉ reference <$> tp.
Proof.
  intros [Hbm Hca Hbl Hnd Hndt Htp Hset].
  rewrite fmap_app in Hbm, Hndt, Htp.
  change (reference <$> [block]) with [reference block] in *.
  apply NoDup_app in Hndt as (Hndt & Hdis & _).
  assert (HxT : reference block ∉ reference <$> tp).
  { intros Hin. apply (Hdis _ Hin). by apply list_elem_of_singleton. }
  assert (HxP : reference block ∈ reference <$> b0 :: us).
  { apply Htp, elem_of_app. right. by apply list_elem_of_singleton. }
  split; [|done]. split; try done.
  - by apply visit_start.
  - intros r Hr. apply Htp, elem_of_app. by left.
Qed.

Lemma unsuspend_loop_inv fuel V S0 b0 bm tp us :
  visit_inv V S0 b0 no_edge bm tp us → (length tp + size (suspended_blocks bm) ≤ fuel)%nat →
  ∃ bm' us', unsuspend_loop fuel bm tp us = Ok (bm', us') ∧ visit_inv V S0 b0 no_edge bm' [] us'.
Proof.
  revert bm tp us. induction fuel as [|fuel IH]; intros bm tp us Hv Hfuel.
  { destruct tp as [|block tp]; simpl in Hfuel; [|lia]. exists bm, us. done. }
  destruct tp as [|block tp _] using rev_ind; [by exists bm, us|].
  simpl. rewrite last_snoc, removelast_last. rewrite length_app in Hfuel. simpl in Hfuel.
  destruct (visit_pop _ _ _ _ _ _ _ Hv) as (Hv' & HxP & HxT).
  destruct (missing_ancestors bm !! reference block) as [cs|] eqn:Hcs; simpl in Hv'.
  - destruct (unsuspend_children_inv _ _ _ _ _ _ _ _ Hv' (NoDup_bt_elements cs) HxP HxT)
      as (bm1 & tp1 & us1 & -> & Hv1 & Hsz). simpl in *.
    apply IH; [done|lia].
  - apply IH; [|lia].
    rewrite delete_id in Hv' by done.
    replace (set_missing (missing_ancestors bm) (missing_blocks bm) bm) with bm in Hv' by by destruct bm.
    destruct (unsuspend_children_inv _ _ _ _ _ _ _ _ Hv' (NoDup_bt_elements ∅) HxP HxT)
      as (bm1 & tp1 & us1 & Hf & Hv1 & _).
    assert (bt_elements (∅ : gset BlockRef) = []) as Hnil.
    { by apply list_nil_subseteq; intros r; rewrite elem_of_bt_elements; set_solver. }
    rewrite Hnil in Hf. injection Hf as <- <- <-. done.
Qed.

Lemma try_unsuspend_children_inv d S0 b bm :
  context d = ctx → universe_ok →
  visit_inv (dag_view d) S0 b no_edge bm [b] [] →
  ∃ bm' us, try_unsuspend_children_blocks bm b = Ok (bm', us) ∧
    visit_inv (dag_view d) S0 b no_edge bm' [] us.
Proof.
  intros Hd HU Hv. unfold try_unsuspend_children_blocks.
  destruct (unsuspend_loop_inv (S (size (suspended_blocks bm))) _ _ _ _ _ _ Hv)
    as (bm' & us & -> & Hv'); [simpl; lia|]. cbn [mbind outcome_bind].
  assert (∃ l, mapM (λ u, committee_authority (committee (bm_context bm')) (vb_author u)) us = Ok l)
    as [l ->].
  { pose proof (vi_blocks _ _ _ _ _ _ _ Hv') as Hbl.
    rewrite (mi_committee _ _ _ _ _ (vi_manager _ _ _ _ _ _ _ Hv')).
    assert (Hus : ∀ u, u ∈ us → U u) by (intros u Hu; apply Hbl; by right).
    clear -Hus HU. induction us as [|u us IH]; [by exists []|].
    destruct IH as [l Hl]; [intros u' ?; apply Hus; by right|].
    destruct (u_acceptable HU u) as (_ & Ha & _); [apply Hus; left|].
    destruct (vec_index_lt (authorities (committee ctx)) _ Ha) as [x Hx].
    exists (x :: l). simpl. change (committee_authority (committee ctx) (vb_author u) = Ok x) in Hx.
    rewrite Hx. simpl. by rewrite Hl. }
  simpl. eauto.
Qed.

(** ** Receiving a block *)

(** The state of the loop over the ancestors of [block_ref] when the ancestors [M] have
    been found missing. *)
Record noted bm0 (block_ref : BlockRef) (M : gset BlockRef) bm (to_fetch : gset BlockRef) : Prop := {
  nt_context : bm_context bm = bm_context bm0;
  nt_suspended : suspended_blocks bm = suspended_blocks bm0;
  nt_children a : missing_ancestors bm !! a =
    if decide (a ∈ M) then Some ({[block_ref]} ∪ default ∅ (missing_ancestors bm0 !! a))
    else missing_ancestors bm0 !! a;
  nt_missing a : a ∈ missing_blocks bm ↔
    a ∈ missing_blocks bm0 ∨ (a ∈ M ∧ suspended_blocks bm0 !! a = None);
  nt_to_fetch a : a ∈ to_fetch ↔ a ∈ M ∧ suspended_blocks bm0 !! a = None;
}.

Lemma note_ancestor_noted bm0 block_ref M bm to_fetch a :
  noted bm0 block_ref M bm to_fetch →
  ∃ bm' to_fetch', note_ancestor block_ref (bm, M, to_fetch) (false, a) = (bm', {[a]} ∪ M, to_fetch') ∧
    noted bm0 block_ref ({[a]} ∪ M) bm' to_fetch'.
Proof.
  clear ts. intros [Hctx Hsus Hch Hmiss Hfetch]. simpl.
  assert (Hch' : ∀ a', <[a := {[block_ref]} ∪ default ∅ (missing_ancestors bm !! a)]>
      (missing_ancestors bm) !! a' =
    if decide (a' ∈ {[a]} ∪ M) then Some ({[block_ref]} ∪ default ∅ (missing_ancestors bm0 !! a'))
    else missing_ancestors bm0 !! a').
  { intros a'. destruct (decide (a' = a)) as [->|Hne].
    - rewrite lookup_insert_eq, decide_True by set_solver. rewrite Hch.
      destruct (decide (a ∈ M)); [|done]. simpl. f_equal. set_solver.
    - rewrite lookup_insert_ne, Hch by done. apply decide_ext. set_solver. }
  case_bool_decide as Hs; (eexists _, _; split; [done|]; split; simpl; try done; rewrite ?Hsus in *).
  - intros a'. rewrite Hmiss. destruct Hs as [sb Hs].
    destruct (decide (a' = a)) as [->|?]; [rewrite Hs|]; set_solver.
  - intros a'. rewrite Hfetch. destruct Hs as [sb Hs].
    destruct (decide (a' = a)) as [->|?]; [rewrite Hs|]; set_solver.
  - intros a'. rewrite elem_of_union, Hmiss, elem_of_union, elem_of_singleton.
    apply eq_None_not_Some in Hs. naive_solver.
  - intros a'. rewrite !elem_of_union, Hfetch, elem_of_singleton.
    apply eq_None_not_Some in Hs. naive_solver.
Qed.

Lemma note_ancestors_noted bm0 block_ref V M bm to_fetch ancestors :
  noted bm0 block_ref M bm to_fetch →
  ∃ bm' M' to_fetch',
    foldl (note_ancestor block_ref) (bm, M, to_fetch)
      (zip ((λ r, bool_decide (is_Some (V !! r))) <$> ancestors) ancestors) = (bm', M', to_fetch') ∧
    noted bm0 block_ref M' bm' to_fetch' ∧
    ∀ a, a ∈ M' ↔ a ∈ M ∨ (a ∈ ancestors ∧ V !! a = None).
Proof.
  clear ts. revert M bm to_fetch. induction ancestors as [|a ancestors IH]; intros M bm to_fetch Hn.
  { exists bm, M, to_fetch. split_and!; [done..|]. intros a. rewrite elem_of_nil. naive_solver. }
  rewrite fmap_cons. cbn [zip zip_with foldl]. case_bool_decide as Ha.
  - destruct (IH M bm to_fetch Hn) as (bm' & M' & tf' & Hf & Hn' & HM). exists bm', M', tf'.
    split_and!; [exact Hf|done|]. intros a'. rewrite HM, elem_of_cons.
    split; [naive_solver|]. intros [?|[[->|?] Hv]]; auto. rewrite Hv in Ha. by apply is_Some_None in Ha.
  - destruct (note_ancestor_noted _ _ _ _ _ a Hn) as (bm1 & tf1 & -> & Hn1).
    destruct (IH _ _ _ Hn1) as (bm' & M' & tf' & Hf & Hn' & HM). exists bm', M', tf'.
    split_and!; [exact Hf|done|]. intros a'. rewrite HM, elem_of_cons, elem_of_union, elem_of_singleton.
    apply eq_None_not_Some in Ha. naive_solver.
Qed.

Definition received (block_ref : BlockRef) bm : BlockManager :=
  set_missing (missing_ancestors bm) (missing_blocks bm ∖ {[block_ref]}) bm.

(** A block with all its ancestors in the DAG is resolved. *)
Lemma received_resolved V bm0 b bm to_fetch :
  manager_inv V [] [] no_edge bm0 → U b → V !! reference b = None →
  suspended_blocks bm0 !! reference b = None →
  (∀ a, a ∈ vb_ancestors b → is_Some (V !! a)) →
  noted bm0 (reference b) ∅ bm to_fetch →
  visit_inv V (λ r, is_Some (suspended_blocks bm0 !! r)) b no_edge (received (reference b) bm) [b] [].
Proof.
  intros Hbm HU HV Hsus Hanc [Hctx Hs Hch Hmiss _]. split.
  - assert (Hma : missing_ancestors bm = missing_ancestors bm0).
    { apply map_eq. intros a. by rewrite Hch, decide_False by set_solver. }
    change (reference <$> [b]) with [reference b].
    split; simpl; rewrite ?Hctx, ?Hs, ?Hma; try apply Hbm.
    + intros r sb Hr. destruct (mi_suspended _ _ _ _ _ Hbm _ _ Hr) as (? & ? & ? & ? & _).
      split_and!; try done. rewrite list_elem_of_singleton. congruence.
    + intros r sb a Hr. rewrite (mi_waiting _ _ _ _ _ Hbm _ _ a Hr), elem_of_nil.
      destruct (decide (a ∈ [reference b])); naive_solver.
    + intros a. rewrite elem_of_difference, elem_of_singleton, Hmiss, (mi_missing _ _ _ _ _ Hbm).
      rewrite list_elem_of_singleton, elem_of_nil. set_solver.
  - intros [|i] u Hi a Ha; [|done]. injection Hi as <-. left. by apply Hanc.
  - by intros u ->%list_elem_of_singleton.
  - apply NoDup_singleton.
  - apply NoDup_singleton.
  - done.
  - intros r Hr. left. simpl. by rewrite Hs.
Qed.

(** A block with missing ancestors is suspended on exactly those. *)
Lemma received_suspended V bm0 b M bm to_fetch :
  manager_inv V [] [] no_edge bm0 → U b → V !! reference b = None →
  suspended_blocks bm0 !! reference b = None → M ≠ ∅ →
  (∀ a, a ∈ M ↔ a ∈ vb_ancestors b ∧ V !! a = None) →
  noted bm0 (reference b) M bm to_fetch →
  manager_inv V [] [] no_edge
    (set_suspended (<[reference b := mkSuspendedBlock b M]> (suspended_blocks bm))
       (received (reference b) bm)).
Proof.
  intros Hbm HU HV Hsus HM HMspec [Hctx Hs Hch Hmiss _].
  split; simpl; rewrite ?Hctx, ?Hs; try apply Hbm.
  - intros r sb [[<- <-]|[_ Hr]]%lookup_insert_Some; [|by apply (mi_suspended _ _ _ _ _ Hbm)].
    split_and!; [done..|]. apply not_elem_of_nil.
  - intros r sb a [[<- <-]|[_ Hr]]%lookup_insert_Some; [|by apply (mi_waiting _ _ _ _ _ Hbm)].
    simpl. rewrite HMspec, elem_of_nil. naive_solver.
  - intros a c. pose proof (mi_children _ _ _ _ _ Hbm a c) as Hold. unfold no_edge in *.
    rewrite Hch. destruct (decide (c = reference b)) as [->|Hne].
    + rewrite lookup_insert_eq. destruct (decide (a ∈ M)) as [Ha|Ha].
      * split; [|intros _; left; eexists; split; [done|set_solver]]. intros _. eexists. split; [done|done].
      * rewrite Hold, Hsus. split; [naive_solver|]. by intros (sb & [= <-] & ?).
    + rewrite lookup_insert_ne, <-Hold by done. destruct (decide (a ∈ M)) as [Ha|Ha]; [|done].
      split.
      * intros [(cs & [= <-] & Hc)|[]]. left.
        destruct (missing_ancestors bm0 !! a) as [cs|]; simpl in Hc; [exists cs|]; set_solver.
      * intros [(cs & -> & Hc)|[]]. left. eexists. split; [done|]. simpl. set_solver.
  - done.
  - intros a cs. rewrite Hch. destruct (decide (a ∈ M)); [|by apply Hbm]. intros [= <-]. set_solver.
  - intros a. rewrite elem_of_difference, elem_of_singleton, Hmiss, (mi_missing _ _ _ _ _ Hbm).
    rewrite Hch, elem_of_nil. destruct (decide (a = reference b)) as [->|Hne].
    + rewrite lookup_insert_eq. naive_solver.
    + rewrite lookup_insert_ne by done. destruct (decide (a ∈ M)); [|naive_solver].
      split; [naive_solver|]. intros (_ & ? & _). auto.
Qed.

Lemma try_accept_one_block_inv d bm b :
  universe_ok → dag_in_universe d → manager_wf d bm → U b →
  ∃ res bm', try_accept_one_block bm d b = Ok (res, bm') ∧
    match res with
    | Processed => bm' = bm ∧
        (is_Some (suspended_blocks bm !! reference b) ∨ is_Some (dag_view d !! reference b))
    | Suspended to_fetch => manager_wf d bm' ∧ is_Some (suspended_blocks bm' !! reference b) ∧
        (∀ a, a ∈ to_fetch ↔ a ∈ vb_ancestors b ∧ dag_view d !! a = None ∧
                              suspended_blocks bm !! a = None) ∧
        (∀ r, is_Some (suspended_blocks bm !! r) → is_Some (suspended_blocks bm' !! r))
    | Accepted b' => b' = b ∧
        visit_inv (dag_view d) (λ r, is_Some (suspended_blocks bm !! r)) b no_edge bm' [b] []
    end.
Proof.
  intros HU [Hwf Hctx Hblocks _] Hbm Hb. destruct (u_acceptable HU b Hb) as (Hr & Ha & Hbd).
  unfold try_accept_one_block. case_bool_decide as Hs.
  { exists Processed, bm. split; [done|]. split; [done|]. auto. }
  rewrite contains_block_view by (done || by rewrite Hctx). simpl.
  case_bool_decide as Hv.
  { exists Processed, bm. split; [done|]. split; [done|]. auto. }
  rewrite contains_blocks_view; [|done|].
  2:{ apply Forall_forall. intros a Hin. rewrite Hctx. by eapply u_author. }
  cbn [mbind outcome_bind].
  destruct (note_ancestors_noted bm (reference b) (dag_view d) ∅ bm ∅ (vb_ancestors b))
    as (bm1 & M & tf & -> & Hn & HM).
  { split; try done; set_solver. }
  apply eq_None_not_Some in Hs, Hv.
  assert (HM' : ∀ a, a ∈ M ↔ a ∈ vb_ancestors b ∧ dag_view d !! a = None) by set_solver.
  case_bool_decide as Hemp.
  - eexists _, _. split; [done|]. split; [done|].
    subst M. eapply received_resolved; [done..| |done].
    intros a Hin. apply not_eq_None_Some. intros ?. by apply (not_elem_of_empty (C:=gset BlockRef) a), HM'.
  - unfold committee_authority. simpl. rewrite (nt_context _ _ _ _ _ Hn), (mi_committee _ _ _ _ _ Hbm).
    destruct (vec_index_lt _ _ Ha) as [x ->]. simpl. eexists _, _. split; [done|]. split_and!.
    + by eapply received_suspended.
    + simpl. rewrite lookup_insert_eq. eauto.
    + intros a. rewrite (nt_to_fetch _ _ _ _ _ Hn), HM'. tauto.
    + intros r Hr'. simpl. rewrite (nt_suspended _ _ _ _ _ Hn), lookup_insert_is_Some'. auto.
Qed.

(** ** Verifying against the ancestors *)

Lemma collect_ancestors_found V to_accept to_reject ancs acc :
  (∀ a, a ∈ ancs → is_Some (V !! a) ∨ is_Some (to_accept !! a)) →
  (∀ r b, V !! r = Some b → reference b = r) →
  (∀ r b, to_accept !! r = Some b → reference b = r) →
  ∃ l, collect_ancestors to_accept to_reject (zip ancs ((λ r, V !! r) <$> ancs)) acc =
         Ok (Some (acc ++ l)) ∧
    ancs = reference <$> l ∧
    ∀ b, b ∈ l → V !! reference b = Some b ∨ to_accept !! reference b = Some b.
Proof.
  intros Hf HV Ha. revert acc. induction ancs as [|a ancs IH]; intros acc.
  { exists []. rewrite app_nil_r. split_and!; [done..|]. intros b Hb. by apply not_elem_of_nil in Hb. }
  rewrite fmap_cons. cbn [zip zip_with collect_ancestors].
  assert (Hgo : ∀ b, reference b = a → (V !! a = Some b ∨ to_accept !! a = Some b) →
    ∃ l, collect_ancestors to_accept to_reject (zip ancs ((λ r, V !! r) <$> ancs)) (acc ++ [b]) =
         Ok (Some (acc ++ l)) ∧ a :: ancs = reference <$> l ∧
      ∀ b, b ∈ l → V !! reference b = Some b ∨ to_accept !! reference b = Some b).
  { intros b Hr Hb. destruct (IH ltac:(intros a' ?; apply Hf; by right) (acc ++ [b])) as (l & Hl & Hr' & Hin).
    exists (b :: l). rewrite Hl, <-app_assoc, fmap_cons, <-Hr', Hr. split_and!; [done..|].
    intros b' [->|?]%elem_of_cons; [by rewrite Hr|auto]. }
  destruct (V !! a) as [b|] eqn:Hb.
  - rewrite (HV _ _ Hb), bool_decide_eq_true_2 by done. cbn. apply Hgo; [by apply HV|by left].
  - destruct (Hf a) as [[? ?]|[b Hab]]; [left|congruence|]. rewrite Hab.
    apply Hgo; [by apply Ha|by right].
Qed.

(** The blocks collected so far are all accepted. *)
Lemma verify_with_ancestors_accepts d done u :
  universe_ok → dag_in_universe d → U u →
  (∀ b, b ∈ done → U b) →
  (∀ a, a ∈ vb_ancestors u → is_Some (dag_view d !! a) ∨ a ∈ reference <$> done) →
  verify_with_ancestors d (insert_blocks done ∅, ∅) u = Ok (insert_blocks (done ++ [u]) ∅, ∅).
Proof.
  intros HU [Hwf Hctx Hblocks Hts] Hu Hdone Hanc. unfold verify_with_ancestors.
  assert (Hlook : ∀ r b, insert_blocks done ∅ !! r = Some b ↔ b ∈ done ∧ reference b = r).
  { intros r b. rewrite insert_blocks_lookup by (intros; by apply (u_unique HU); auto).
    rewrite lookup_empty. naive_solver. }
  rewrite get_blocks_view by done. simpl. rewrite length_fmap, N.eqb_refl. simpl.
  destruct (collect_ancestors_found (dag_view d) (insert_blocks done ∅) ∅ (vb_ancestors u) [])
    as (l & -> & Hrefs & Hl).
  - intros a Ha. destruct (Hanc a Ha) as [?|Hin]; [by left|right].
    apply list_elem_of_fmap in Hin as (b & -> & Hb). exists b. by apply Hlook.
  - intros r b Hb. by apply (view_reference _ _ _ Hwf) in Hb as [? _].
  - by intros r b [_ ?]%Hlook.
  - simpl. destruct (check_ancestors_spec u l Hrefs) as (r & -> & Hr). simpl.
    rewrite (proj2 Hr).
    + unfold insert_blocks. by rewrite foldl_snoc.
    + apply Forall_forall. intros b Hb.
      assert (vb_timestamp_ms b = ts (reference b)) as ->.
      { destruct (Hl b Hb) as [Hv|Hv%Hlook]; [by apply Hts|]. by apply (u_timestamp HU), Hdone, Hv. }
      apply (u_ancestors HU); [done|]. rewrite Hrefs. by apply list_elem_of_fmap; eauto.
Qed.

Lemma verify_all_accepts d l :
  universe_ok → dag_in_universe d → causal (dag_view d) l → (∀ b, b ∈ l → U b) →
  foldM (verify_with_ancestors d) (∅, ∅) l = Ok (insert_blocks l ∅, ∅).
Proof.
  intros HU Hd. induction l as [|u l IH] using rev_ind; intros Hca Hl; [done|].
  rewrite foldM_app, IH.
  - cbn [mbind outcome_bind foldM].
    rewrite verify_with_ancestors_accepts; [done|done|done| | |].
    + apply Hl, elem_of_app. right. by apply list_elem_of_singleton.
    + intros b Hb. apply Hl, elem_of_app. by left.
    + intros a Ha. destruct (Hca (length l) u) with (a := a) as [?|Hin]; [|done|by left|right].
      * by apply list_lookup_middle.
      * by rewrite take_app_length in Hin.
  - intros i b Hi a Ha. destruct (Hca i b) with (a := a) as [?|Hin]; [|done|by left|right].
    + by apply lookup_app_l_Some.
    + rewrite take_app_le in Hin; [done|]. apply lookup_lt_Some in Hi. lia.
  - intros b Hb. apply Hl, elem_of_app. by left.
Qed.

(** ** Entering the DAG *)

Lemma accept_universe d b :
  universe_ok → dag_in_universe d → U b → dag_view d !! reference b = None →
  ∃ d', accept_block d now b = Ok d' ∧ dag_in_universe d' ∧
    dag_view d' = <[reference b := b]> (dag_view d).
Proof.
  intros HU [Hwf Hctx Hblocks Hts] Hb Hfresh.
  destruct (u_acceptable HU b Hb) as (Hr & Ha & Hbd). destruct (u_timestamp HU b Hb) as [Ht Hnow].
  assert (Hacc : acceptable d b) by (unfold acceptable; by rewrite Hctx).
  destruct (accept_block_paths d now b Hwf Hacc) as [_ Hpaths].
  destruct (Hpaths Hfresh) as [_ Hok].
  destruct Hok as (d' & Hf & Hwf' & Hview & Hsame & _); [done| |].
  { intros (Hown & b' & Hb' & Hslot). rewrite Hctx in Hown.
    pose proof (wf_recent _ Hwf _ _ Hb') as (_ & _ & Hr' & _).
    assert (dag_view d !! reference b' = Some b') as Hv'.
    { rewrite view_not_genesis by (unfold GENESIS_ROUND; lia || done). by rewrite Hb'. }
    assert (b = b') as <- by (apply (u_own HU); eauto). congruence. }
  exists d'. split; [done|]. split; [|done]. split; [done|congruence| |].
  - intros r b'. rewrite Hview. intros [[<- <-]|[_ Hb']]%lookup_insert_Some; eauto.
  - intros r b'. rewrite Hview. intros [[<- <-]|[_ Hb']]%lookup_insert_Some; eauto.
Qed.

Lemma accept_blocks_universe d l :
  universe_ok → dag_in_universe d → (∀ b, b ∈ l → U b ∧ dag_view d !! reference b = None) →
  NoDup (reference <$> l) →
  ∃ d', accept_blocks d now l = Ok d' ∧ dag_in_universe d' ∧
    dag_view d' = insert_blocks l (dag_view d).
Proof.
  intros HU. unfold accept_blocks. revert d.
  induction l as [|b l IH]; intros d Hd Hl Hnd; [by exists d|].
  rewrite fmap_cons in Hnd. apply NoDup_cons in Hnd as [Hb Hnd].
  destruct (Hl b) as [HUb Hfresh]; [left|].
  destruct (accept_universe d b HU Hd HUb Hfresh) as (d1 & Hf1 & Hd1 & Hv1).
  destruct (IH d1 Hd1) as (d2 & Hf2 & Hd2 & Hv2); [|done|].
  - intros b' Hb'. destruct (Hl b') as [? ?]; [by right|]. split; [done|].
    rewrite Hv1, lookup_insert_ne; [done|]. intros Heq. apply Hb. rewrite Heq.
    apply list_elem_of_fmap. eauto.
  - exists d2. cbn [foldM]. rewrite Hf1. split_and!; [exact Hf2|done|]. by rewrite Hv2, Hv1.
Qed.

(** The DAG with the resolved blocks added. *)
Definition extends V (l : list VerifiedBlock) V' : Prop :=
  ∀ r b, V' !! r = Some b ↔ (b ∈ l ∧ reference b = r) ∨ V !! r = Some b.

Lemma insert_accepted V l :
  (∀ b b', b ∈ l → b' ∈ l → reference b = reference b' → b = b') →
  (∀ b, b ∈ l → V !! reference b = None) →
  extends V l (insert_blocks (bt_values (insert_blocks l ∅)) V) ∧
  NoDup (reference <$> bt_values (insert_blocks l ∅)) ∧
  (∀ b, b ∈ bt_values (insert_blocks l ∅) ↔ b ∈ l).
Proof.
  intros Hinj Hfresh.
  assert (Hlook : ∀ r b, insert_blocks l ∅ !! r = Some b ↔ b ∈ l ∧ reference b = r).
  { intros r b. rewrite insert_blocks_lookup, lookup_empty by done. naive_solver. }
  assert (Hin : ∀ b, b ∈ bt_values (insert_blocks l ∅) ↔ b ∈ l).
  { intros b. rewrite elem_of_bt_values. setoid_rewrite Hlook. naive_solver. }
  split_and!; [|unfold bt_values; rewrite <-list_fmap_compose|done].
  - intros r b. rewrite insert_blocks_lookup by (intros b1 b2 ?%Hin ?%Hin; by apply Hinj).
    rewrite Hin. split; [naive_solver|]. intros [?|Hb]; [by left|right]. split; [done|].
    intros (b' & -> & Hb'%Hin)%list_elem_of_fmap. apply Hfresh in Hb'. congruence.
  - replace ((reference ∘ snd) <$> bt_items (insert_blocks l ∅)) with (bt_items (insert_blocks l ∅)).*1;
      [apply bt_items_keys_NoDup|].
    apply list_fmap_ext. intros i [r b] Hi%list_elem_of_lookup_2.
    apply elem_of_bt_items, Hlook in Hi as [_ ?]. by simpl.
Qed.

Lemma extends_closed V l V' :
  universe_ok → dag_closed V → causal V l → (∀ b, b ∈ l → U b) → extends V l V' → dag_closed V'.
Proof.
  intros HU HV Hca Hl Hext. split.
  - intros r b [[_ ?]|?]%Hext; [done|by eapply dc_reference].
  - intros r b [[Hb <-]|?]%Hext Hr; [by apply (u_acceptable HU), Hl|by eapply dc_bounds].
  - intros r b a [[Hb <-]|Hb]%Hext Ha.
    + apply list_elem_of_lookup in Hb as [i Hi]. destruct (Hca i b Hi a Ha) as [[b' Hb']|Hin].
      * exists b'. apply Hext. by right.
      * apply list_elem_of_fmap in Hin as (b' & -> & Hb'). exists b'. apply Hext. left.
        split; [|done]. apply list_elem_of_lookup in Hb' as [j [Hj _]%lookup_take_Some].
        by eapply list_elem_of_lookup_2.
    + destruct (dc_present _ HV _ _ _ Hb Ha) as [b' Hb']. exists b'. apply Hext. by right.
  - intros r b a [[Hb <-]|Hb]%Hext Ha; [by apply (u_round HU); auto|by eapply dc_round].
Qed.

Lemma resolved_manager_inv V V' S0 b us bm :
  visit_inv V S0 b no_edge bm [] us → extends V (b :: us) V' → manager_inv V' [] [] no_edge bm.
Proof.
  intros Hv Hext. pose proof (vi_manager _ _ _ _ _ _ _ Hv) as Hbm.
  assert (Hnone : ∀ r, V' !! r = None ↔ V !! r = None ∧ r ∉ reference <$> b :: us).
  { intros r. split.
    - intros Hr. split.
      + apply eq_None_not_Some. intros [x Hx]. assert (V' !! r = Some x) by (apply Hext; by right). congruence.
      + intros (x & -> & Hx)%list_elem_of_fmap.
        assert (V' !! reference x = Some x) by (apply Hext; by left). congruence.
    - intros [Hr Hn]. apply eq_None_not_Some. intros [x [[Hx <-]|Hx]%Hext]; [|congruence].
      apply Hn, list_elem_of_fmap. eauto. }
  split; try apply Hbm; try done.
  - intros r sb Hr. destruct (mi_suspended _ _ _ _ _ Hbm _ _ Hr) as (? & ? & ? & ? & ?).
    split_and!; [done..|by apply Hnone|apply not_elem_of_nil].
  - intros r sb a Hr. rewrite (mi_waiting _ _ _ _ _ Hbm _ _ a Hr), Hnone.
    unfold no_edge. change (reference <$> []) with (@nil BlockRef). rewrite !elem_of_nil. tauto.
Qed.

(** ** The system as a whole *)

Record system_ok d bm : Prop := {
  so_dag : dag_in_universe d;
  so_manager : manager_wf d bm;
  so_closed : dag_closed (dag_view d);
}.

(** A block that the manager has: in the DAG or suspended. *)
Definition settled d bm (r : BlockRef) : Prop :=
  is_Some (dag_view d !! r) ∨ is_Some (suspended_blocks bm !! r).

(** The blocks between two states of the DAG. *)
Definition newly_accepted d d' (accepted : list VerifiedBlock) : Prop :=
  dag_view d ⊆ dag_view d' ∧
  ∀ b, b ∈ accepted ↔ dag_view d !! reference b = None ∧ dag_view d' !! reference b = Some b.

Lemma newly_accepted_none d : newly_accepted d d [].
Proof. split; [done|]. intros b. rewrite elem_of_nil. split; [done|]. intros []. congruence. Qed.

Lemma try_accept_step_ok d bm acc missing b :
  universe_ok → system_ok d bm → U b →
  ∃ bm' d' acc' missing',
    try_accept_step now (bm, d, acc, missing) b = Ok (bm', d', acc ++ acc', missing') ∧
    system_ok d' bm' ∧ newly_accepted d d' acc' ∧ settled d' bm' (reference b) ∧
    (∀ r, settled d bm r → settled d' bm' r).
Proof.
  intros HU [Hd Hbm HV] Hb. unfold try_accept_step.
  destruct (try_accept_one_block_inv d bm b HU Hd Hbm Hb) as (res & bm1 & -> & Hres).
  cbn [mbind outcome_bind]. destruct res as [b'|fetch|].
  - destruct Hres as [-> Hv].
    destruct (try_unsuspend_children_inv d _ b bm1 (du_context _ Hd) HU Hv) as (bm2 & us & -> & Hv').
    cbn [mbind outcome_bind]. destruct Hv' as [Hbm2 Hca Hbl Hnd Hndt Htp Hset] eqn:Heq. clear Heq.
    rewrite verify_all_accepts; [|done..|by intros u [? _]%Hbl]. cbn [mbind outcome_bind].
    destruct (insert_accepted (dag_view d) (b :: us)) as (Hext & Hnd' & Hin).
    { intros b1 b2 [? _]%Hbl [? _]%Hbl. by apply (u_unique HU). }
    { by intros u [_ ?]%Hbl. }
    destruct (accept_blocks_universe d (bt_values (insert_blocks (b :: us) ∅)) HU Hd)
      as (d' & -> & Hd' & Hview); [by intros u ?%Hin; apply Hbl|done|].
    cbn [mbind outcome_bind]. rewrite <-Hview in Hext.
    exists bm2, d', (bt_values (insert_blocks (b :: us) ∅)), missing. split; [done|]. split_and!.
    + split; [done| |].
      * by eapply resolved_manager_inv.
      * eapply extends_closed; [done..| |done]. by intros u [? _]%Hbl.
    + split; [apply map_subseteq_spec; intros r x Hx; apply Hext; by right|].
      intros u. rewrite Hin, (Hext (reference u) u). split.
      * intros Hu. destruct (Hbl u Hu) as [_ ?]. split; [done|by left].
      * intros [? [[? _]|?]]; [done|congruence].
    + left. exists b. apply Hext. left. by split; [left|].
    + intros r [[x Hx]|Hr].
      * left. exists x. apply Hext. by right.
      * destruct (Hset r Hr) as [?|Hr']; [by right|left].
        apply list_elem_of_fmap in Hr' as (u & -> & Hu). exists u. apply Hext. by left.
  - destruct Hres as (Hbm' & Hs & _ & Hmono). exists bm1, d, [], (missing ∪ fetch).
    rewrite app_nil_r. split; [done|]. split_and!; [done|apply newly_accepted_none..|by right|].
    intros r [?|?]; [by left|right; auto].
  - destruct Hres as [-> Hs]. exists bm, d, [], missing. rewrite app_nil_r. split; [done|].
    split_and!; [done|apply newly_accepted_none..| |done]. destruct Hs; [by right|by left].
Qed.

Lemma newly_accepted_trans d1 d2 d3 acc1 acc2 :
  newly_accepted d1 d2 acc1 → newly_accepted d2 d3 acc2 → newly_accepted d1 d3 (acc1 ++ acc2).
Proof.
  intros [Hsub1 Hin1] [Hsub2 Hin2]. split; [by etrans|]. intros b. rewrite elem_of_app, Hin1, Hin2.
  split.
  - intros [[? Hb]|[Hn ?]].
    + split; [done|]. by eapply lookup_weaken.
    + split; [by eapply lookup_weaken_None|done].
  - intros [Hn Hb]. destruct (dag_view d2 !! reference b) as [b'|] eqn:Hb'; [left|by right].
    pose proof (lookup_weaken _ _ _ _ Hb' Hsub2). split; congruence.
Qed.

Lemma try_accept_fold_ok l d bm acc missing :
  universe_ok → system_ok d bm → (∀ b, b ∈ l → U b) →
  ∃ bm' d' acc' missing',
    foldM (try_accept_step now) (bm, d, acc, missing) l = Ok (bm', d', acc ++ acc', missing') ∧
    system_ok d' bm' ∧ newly_accepted d d' acc' ∧
    (∀ r, settled d bm r ∨ r ∈ reference <$> l → settled d' bm' r).
Proof.
  intros HU. revert d bm acc missing.
  induction l as [|b l IH]; intros d bm acc missing Hok Hl.
  { exists bm, d, [], missing. rewrite app_nil_r. split_and!; [done..|apply newly_accepted_none|].
    intros r [?|?%not_elem_of_nil]; done. }
  destruct (try_accept_step_ok d bm acc missing b HU Hok) as
    (bm1 & d1 & acc1 & m1 & Hf1 & Hok1 & Hn1 & Hb1 & Hs1); [apply Hl; left|].
  destruct (IH d1 bm1 (acc ++ acc1) m1 Hok1) as (bm2 & d2 & acc2 & m2 & Hf2 & Hok2 & Hn2 & Hs2);
    [intros b' ?; apply Hl; by right|].
  exists bm2, d2, (acc1 ++ acc2), m2. rewrite app_assoc. cbn [foldM]. rewrite Hf1. split_and!.
  - exact Hf2.
  - done.
  - by eapply newly_accepted_trans.
  - intros r. rewrite fmap_cons, elem_of_cons. intros [?|[->|?]]; apply Hs2; auto.
Qed.

(** C9: with blocks whose timestamps do not go back, [try_accept_blocks] never panics
    and keeps the DAG and the manager consistent: the DAG stays causally complete, each
    suspended block waits for exactly its ancestors that are not in the DAG, at least one,
    [missing_blocks] are those of them that have not been received, every block passed in
    ends up in the DAG or suspended, and the blocks returned are the ones that entered. *)
Theorem try_accept_blocks_complete d bm blocks :
  universe_ok → system_ok d bm → Forall U blocks →
  ∃ bm' d' accepted missing,
    try_accept_blocks now bm d blocks = Ok (bm', d', accepted, missing) ∧
    system_ok d' bm' ∧ newly_accepted d d' accepted ∧
    Forall (λ b, settled d' bm' (reference b)) blocks.
Proof.
  intros HU Hok Hbl. rewrite Forall_forall in Hbl. unfold try_accept_blocks.
  destruct (try_accept_fold_ok (sort_by (λ b1 b2, vb_round b1 <=? vb_round b2) blocks) d bm [] ∅ HU Hok)
    as (bm' & d' & acc & missing & Hf & Hok' & Hn & Hs).
  { intros b Hb%elem_of_sort_by. auto. }
  exists bm', d', acc, missing. split_and!; [exact Hf|done..|].
  apply Forall_forall. intros b Hb. apply Hs. right. apply list_elem_of_fmap.
  exists b. by rewrite elem_of_sort_by.
Qed.
End manager_facts.

(** ** Safety of the DAG with any verifier *)

Section manager_safety.
Context {St : Type} `{StoreSpec St} `{Crypto, BlockVerifier}.
Implicit Types (bm : BlockManager) (d : DagState St) (V : dag).
Context (ctx : Context).

(** What [verify] establishes of a block, for the structure of the DAG. *)
Definition well_formed (b : VerifiedBlock) : Prop :=
  0 < vb_round b ∧ vb_author b < committee_size (committee ctx) ∧ ref_in_bounds (reference b) ∧
  ∀ a, a ∈ vb_ancestors b → br_round a < vb_round b.

(** All the blocks that wait satisfy [P]. *)
Definition manager_blocks (P : VerifiedBlock → Prop) bm : Prop :=
  ∀ r sb, suspended_blocks bm !! r = Some sb → P (sb_block sb).

Record dag_safe d : Prop := {
  ds_wf : dag_wf d;
  ds_context : context d = ctx;
  ds_closed : dag_closed (dag_view d);
}.

(** The blocks that arrive satisfy [P], which is at least what [verify] establishes. *)
Section arriving.
Context (P : VerifiedBlock → Prop) (HP : ∀ b, P b → well_formed b).

(** What accepting blocks changes: blocks that satisfy [P] are added, and the commits are the
    same. *)
Record dag_grows d d' : Prop := {
  dg_view : dag_view d ⊆ dag_view d';
  dg_new r b : dag_view d' !! r = Some b → dag_view d !! r = Some b ∨ P b;
  dg_commits : same_commits d d';
  dg_highest : highest_accepted_round d ≤ highest_accepted_round d';
  dg_bound n : highest_accepted_round d ≤ n → (∀ b, P b → vb_round b ≤ n) → highest_accepted_round d' ≤ n;
}.

Lemma dag_grows_refl d : dag_grows d d.
Proof. split; auto. by split_and!. Qed.

Lemma dag_grows_trans d1 d2 d3 : dag_grows d1 d2 → dag_grows d2 d3 → dag_grows d1 d3.
Proof.
  intros [Hv1 Hn1 Hc1 Hh1 Hb1] [Hv2 Hn2 Hc2 Hh2 Hb2]. split; [by etrans| | |lia|auto].
  - intros r b [Hb|?]%Hn2; [by apply Hn1|by right].
  - unfold same_commits in *. destruct_and!. split_and!; congruence.
Qed.

Lemma accept_block_commits d now b d' :
  accept_block d now b = Ok d' →
  same_commits d d' ∧
  (highest_accepted_round d' = highest_accepted_round d ∨
   highest_accepted_round d' = N.max (highest_accepted_round d) (vb_round b)).
Proof.
  intros Ha. unfold accept_block in Ha.
  apply bind_Ok in Ha as (? & _ & Ha). apply bind_Ok in Ha as (c & _ & Ha).
  destruct c; [injection Ha as <-; split; [by split_and!|by left]|]. destruct (_ <? _); [done|].
  apply bind_Ok in Ha as (? & _ & Ha). unfold update_block_metadata in Ha.
  apply bind_Ok in Ha as (d3 & Hu & [= <-]).
  apply bind_Ok in Hu as (? & _ & (? & _ & [= <-])%bind_Ok). split; [by split_and!|by right].
Qed.

Lemma accept_block_view d now b d' :
  dag_wf d → context d = ctx → P b → accept_block d now b = Ok d' →
  dag_wf d' ∧ context d' = ctx ∧
  (dag_view d' = dag_view d ∨ dag_view d' = <[reference b := b]> (dag_view d)) ∧
  dag_view d ⊆ dag_view d' ∧ is_Some (dag_view d' !! reference b).
Proof.
  intros Hwf Hctx (Hr & Ha & Hbd & _)%HP Hf.
  destruct (accept_block_paths d now b Hwf) as [Hold Hnew].
  { unfold acceptable. by rewrite Hctx. }
  destruct (dag_view d !! reference b) as [b'|] eqn:Hb.
  { rewrite Hold in Hf by eauto. injection Hf as <-. rewrite Hb. split_and!; eauto. }
  destruct (Hnew eq_refl) as [Hbad Hgood].
  destruct (decide (now < vb_timestamp_ms b)) as [Hts|Hts].
  { destruct Hbad as [msg Hp]; [by left|]. congruence. }
  destruct (own_slot_taken_dec d b Hwf) as [Htaken|Hfree].
  { destruct Hbad as [msg Hp]; [by right|]. congruence. }
  destruct Hgood as (d2 & Hf2 & Hwf2 & Hv & Hsame & _); [lia|done|].
  rewrite Hf in Hf2. injection Hf2 as <-. rewrite Hv, lookup_insert_eq.
  split_and!; [done|congruence|by right|by apply insert_subseteq|by eauto].
Qed.

Lemma accept_block_grows d now b d' :
  dag_wf d → context d = ctx → P b → accept_block d now b = Ok d' → dag_grows d d'.
Proof.
  intros Hwf Hctx Hb Hf. destruct (accept_block_view d now b d' Hwf Hctx Hb Hf) as (_ & _ & Hv & Hsub & _).
  destruct (accept_block_commits d now b d' Hf) as [Hc Hh]. split; [done| |done|lia|].
  - intros r x Hx. destruct Hv as [Hv|Hv]; rewrite Hv in Hx; [by left|].
    apply lookup_insert_Some in Hx as [[_ <-]|[_ ?]]; [by right|by left].
  - intros n Hn Hall. specialize (Hall b Hb). lia.
Qed.

Lemma accept_blocks_view d now l d' :
  dag_wf d → context d = ctx → (∀ b, b ∈ l → P b) → accept_blocks d now l = Ok d' →
  dag_wf d' ∧ context d' = ctx ∧ dag_view d ⊆ dag_view d' ∧
  (∀ b, b ∈ l → is_Some (dag_view d' !! reference b)) ∧
  (∀ r b, dag_view d' !! r = Some b → dag_view d !! r = Some b ∨ (b ∈ l ∧ reference b = r)) ∧
  dag_grows d d'.
Proof.
  unfold accept_blocks. revert d. induction l as [|b l IH]; intros d Hwf Hctx Hl Hf.
  { injection Hf as <-. split_and!; try done; [by intros b ?%not_elem_of_nil|by auto|apply dag_grows_refl]. }
  cbn [foldM] in Hf. apply bind_Ok in Hf as (d1 & Hf1 & Hf).
  destruct (accept_block_view d now b d1 Hwf Hctx) as (Hwf1 & Hctx1 & Hv1 & Hsub1 & Hb1);
    [apply Hl; left|done|].
  destruct (IH d1 Hwf1 Hctx1) as (Hwf' & Hctx' & Hsub & Hin & Hall & Hgr);
    [intros b' ?; apply Hl; by right|done|].
  split_and!; [done|done|by etrans| | |].
  3:{ eapply dag_grows_trans; [|done]. eapply accept_block_grows; [done..|apply Hl; left|done]. }
  - intros b' [->|?]%elem_of_cons; [|auto]. destruct Hb1 as [x Hx]. exists x. by eapply lookup_weaken.
  - intros r b' Hb'. destruct (Hall r b' Hb') as [Hd1|[? ?]]; [|right; by split; [right|]].
    destruct Hv1 as [Hv1|Hv1]; rewrite Hv1 in Hd1; [by left|].
    apply lookup_insert_Some in Hd1 as [[? ?]|[_ ?]]; [right|by left]. subst. by split; [left|].
Qed.

(** Blocks to accept have their ancestors in the DAG or among them. *)
Definition closed_over V (A : gmap BlockRef VerifiedBlock) : Prop :=
  ∀ r b, A !! r = Some b → reference b = r ∧ P b ∧
    ∀ a, a ∈ vb_ancestors b → is_Some (V !! a) ∨ is_Some (A !! a).

Lemma collect_ancestors_closed V A R ancs acc l :
  collect_ancestors A R (zip ancs ((λ r, V !! r) <$> ancs)) acc = Ok (Some l) →
  ∀ a, a ∈ ancs → is_Some (V !! a) ∨ is_Some (A !! a).
Proof.
  revert acc. induction ancs as [|x ancs IH]; intros acc Hf a Ha; [by apply not_elem_of_nil in Ha|].
  rewrite fmap_cons in Hf. cbn [zip zip_with collect_ancestors] in Hf.
  destruct (V !! x) as [b|] eqn:Hx.
  - apply bind_Ok in Hf as (_ & _ & Hf). apply elem_of_cons in Ha as [->|Ha]; eauto.
  - destruct (A !! x) as [b|] eqn:HAx; [|by case_bool_decide].
    apply elem_of_cons in Ha as [->|Ha]; eauto.
Qed.

Lemma verify_with_ancestors_closed d A R b A' R' :
  dag_wf d → closed_over (dag_view d) A → P b →
  verify_with_ancestors d (A, R) b = Ok (A', R') → closed_over (dag_view d) A'.
Proof.
  intros Hwf HA Hb Hf. unfold verify_with_ancestors in Hf. rewrite get_blocks_view in Hf by done.
  cbn [mbind outcome_bind] in Hf. apply bind_Ok in Hf as (_ & _ & Hf).
  apply bind_Ok in Hf as ([ancs|] & Hc & Hf); [|by simplify_eq].
  apply bind_Ok in Hf as ([[]|e] & _ & Hf); simplify_eq; [|done].
  intros r b' [[<- <-]|[Hne Hb']]%lookup_insert_Some.
  - split_and!; [done..|]. intros a Ha.
    destruct (collect_ancestors_closed _ _ _ _ _ _ Hc a Ha) as [?|?]; [by left|right].
    apply lookup_insert_is_Some'. by right.
  - destruct (HA r b' Hb') as (? & ? & Hanc). split_and!; [done..|]. intros a Ha.
    destruct (Hanc a Ha) as [?|?]; [by left|right]. apply lookup_insert_is_Some'. by right.
Qed.

Lemma verify_fold_closed d A R l A' R' :
  dag_wf d → closed_over (dag_view d) A → (∀ b, b ∈ l → P b) →
  foldM (verify_with_ancestors d) (A, R) l = Ok (A', R') → closed_over (dag_view d) A'.
Proof.
  intros Hwf. revert A R. induction l as [|b l IH]; intros A R HA Hl Hf.
  { by simplify_eq/=. }
  cbn [foldM] in Hf. apply bind_Ok in Hf as ([A1 R1] & Hf1 & Hf).
  eapply (IH A1 R1); [|intros b' ?; apply Hl; by right|done].
  eapply verify_with_ancestors_closed; [done..| |done]. apply Hl. left.
Qed.

Lemma unsuspend_child_blocks x bm tp us r bm' tp' us' :
  manager_blocks P bm → (∀ b, b ∈ tp ++ us → P b) →
  unsuspend_child x (bm, tp, us) r = Ok (bm', tp', us') →
  manager_blocks P bm' ∧ (∀ b, b ∈ tp' ++ us' → P b).
Proof.
  intros Hbm Hall Hf. unfold unsuspend_child, try_unsuspend_block in Hf. inv_ok.
  match goal with Hs : suspended_blocks bm !! r = Some ?sb |- _ => pose proof (Hbm _ _ Hs) as Hsb end.
  case_bool_decide; simplify_eq/=; split.
  - intros r' sb'. simpl. intros [_ Hr']%lookup_delete_Some. by eapply Hbm.
  - intros b. rewrite !elem_of_app, !list_elem_of_singleton.
    intros [[?| ->]|[?| ->]]; try done; apply Hall, elem_of_app; auto.
  - intros r' sb'. simpl. intros [[<- <-]|[_ Hr']]%lookup_insert_Some; [done|by eapply Hbm].
  - done.
Qed.

Lemma unsuspend_loop_blocks fuel bm tp us bm' us' :
  manager_blocks P bm → (∀ b, b ∈ tp ++ us → P b) →
  unsuspend_loop fuel bm tp us = Ok (bm', us') →
  manager_blocks P bm' ∧ (∀ b, b ∈ us' → P b).
Proof.
  revert bm tp us. induction fuel as [|fuel IH]; intros bm tp us Hbm Hall Hf.
  { destruct tp as [|x tp _] using rev_ind; simpl in Hf; [by simplify_eq|].
    by rewrite last_snoc in Hf. }
  destruct tp as [|x tp _] using rev_ind; simpl in Hf; [by simplify_eq|].
  rewrite last_snoc, removelast_last in Hf.
  assert (Hall' : ∀ b, b ∈ tp ++ us → P b).
  { intros b Hb. apply Hall. set_solver. }
  destruct (missing_ancestors bm !! reference x) as [cs|]; [|by apply (IH bm tp us)].
  apply bind_Ok in Hf as ([[bm1 tp1] us1] & Hf1 & Hf).
  apply (foldM_Ok_inv _ (λ st, manager_blocks P st.1.1 ∧ ∀ b, b ∈ st.1.2 ++ st.2 → P b)) in Hf1
    as [Hbm1 Hall1]; [by apply (IH bm1 tp1 us1)|done|].
  intros [[bm2 tp2] us2] r [[bm3 tp3] us3] [? ?] _ Hs. by eapply unsuspend_child_blocks.
Qed.

Lemma note_ancestors_suspended block_ref st l :
  suspended_blocks (foldl (note_ancestor block_ref) st l).1.1 = suspended_blocks st.1.1.
Proof.
  revert st. induction l as [|[f a] l IH]; intros [[bm M] tf]; [done|].
  simpl. rewrite IH. destruct f; [done|]. simpl. by case_bool_decide.
Qed.

Lemma try_accept_one_block_blocks bm d b res bm' :
  manager_blocks P bm → P b → try_accept_one_block bm d b = Ok (res, bm') →
  manager_blocks P bm' ∧ (∀ b', res = Accepted b' → b' = b).
Proof.
  intros Hbm Hb Hf. unfold try_accept_one_block in Hf.
  apply bind_Ok in Hf as ([] & _ & Hf); [by simplify_eq|].
  apply bind_Ok in Hf as (found & _ & Hf).
  pose proof (note_ancestors_suspended (reference b) (bm, ∅, ∅) (zip found (vb_ancestors b))) as Hs.
  destruct (foldl _ _ _) as [[bm1 M] tf]. simpl in Hs. case_bool_decide; inv_ok.
  - split; [|by intros b' [= ->]]. intros r sb. simpl. rewrite Hs. apply Hbm.
  - split; [|done]. intros r sb. simpl. rewrite Hs.
    intros [[<- <-]|[_ Hr]]%lookup_insert_Some; [done|by eapply Hbm].
Qed.

Lemma try_accept_step_safe now bm d acc missing b bm' d' acc' missing' :
  dag_safe d → manager_blocks P bm → P b →
  try_accept_step now (bm, d, acc, missing) b = Ok (bm', d', acc', missing') →
  dag_safe d' ∧ manager_blocks P bm' ∧ dag_grows d d'.
Proof.
  intros [Hwf Hctx HV] Hbm Hb Hf. unfold try_accept_step in Hf.
  apply bind_Ok in Hf as ([res bm1] & Hf1 & Hf).
  destruct (try_accept_one_block_blocks _ _ _ _ _ Hbm Hb Hf1) as [Hbm1 Hres].
  destruct res as [b'|fetch|]; [|simplify_eq; split_and!; try done; apply dag_grows_refl..].
  rewrite (Hres b' eq_refl) in Hf.
  apply bind_Ok in Hf as ([bm2 us] & Hf2 & Hf).
  unfold try_unsuspend_children_blocks in Hf2.
  apply bind_Ok in Hf2 as ([bm3 us3] & Hf3 & Hf2). apply bind_Ok in Hf2 as (_ & _ & Hf2).
  simplify_eq.
  apply unsuspend_loop_blocks in Hf3 as [Hbm2 Hus];
    [|done|by rewrite app_nil_r; intros x ->%list_elem_of_singleton].
  apply bind_Ok in Hf as ([A R] & Hf4 & Hf). apply bind_Ok in Hf as (d1 & Hf5 & Hf). simplify_eq.
  assert (HA : closed_over (dag_view d) A).
  { eapply verify_fold_closed; [done| | |done]; [done|]. by intros x [->|?]%elem_of_cons; auto. }
  assert (Hin : ∀ x, x ∈ bt_values A ↔ A !! reference x = Some x).
  { intros x. rewrite elem_of_bt_values. split; [|by eauto].
    intros [r Hr]. by destruct (HA r x Hr) as [-> _]. }
  destruct (accept_blocks_view d now (bt_values A) d' Hwf Hctx) as (Hwf' & Hctx' & Hsub & Hpres & Hall & Hgr).
  { by intros x (_ & ? & _)%Hin%HA. }
  { done. }
  split; [|done]. split; [done..|]. split.
  - intros r x [?|[_ ?]]%Hall; [by eapply dc_reference|done].
  - intros r x [?|[Hx%Hin <-]]%Hall Hpos; [by eapply dc_bounds|]. by apply HA in Hx as (_ & (_ & _ & ? & _)%HP & _).
  - intros r x a [Hx|[Hx%Hin <-]]%Hall Ha.
    + destruct (dc_present _ HV _ _ _ Hx Ha) as [y Hy]. exists y. by eapply lookup_weaken.
    + destruct (HA _ _ Hx) as (_ & _ & Hanc). destruct (Hanc a Ha) as [[y Hy]|[y Hy]].
      * exists y. by eapply lookup_weaken.
      * destruct (HA _ _ Hy) as (<- & _). by apply Hpres, Hin.
  - intros r x a [Hx|[Hx%Hin <-]]%Hall Ha; [by eapply dc_round|].
    apply HA in Hx as (_ & (_ & _ & _ & Hr)%HP & _). by apply Hr.
Qed.

Lemma try_accept_blocks_grows now bm d blocks bm' d' accepted missing :
  dag_safe d → manager_blocks P bm → Forall P blocks →
  try_accept_blocks now bm d blocks = Ok (bm', d', accepted, missing) →
  dag_safe d' ∧ manager_blocks P bm' ∧ dag_grows d d'.
Proof.
  intros Hd Hbm Hbl Hf. rewrite Forall_forall in Hbl. unfold try_accept_blocks in Hf.
  apply (foldM_Ok_inv _ (λ st, dag_safe st.1.1.2 ∧ manager_blocks P st.1.1.1 ∧
    dag_grows d st.1.1.2)) in Hf; [done|split_and!; try done; apply dag_grows_refl|].
  intros [[[bm1 d1] a1] m1] b [[[bm2 d2] a2] m2] (Hd1 & Hbm1 & Hgr) Hb%elem_of_sort_by Hs. simpl in *.
  destruct (try_accept_step_safe _ _ _ _ _ _ _ _ _ _ Hd1 Hbm1 (Hbl _ Hb) Hs) as (? & ? & ?).
  split_and!; [done..|by eapply dag_grows_trans].
Qed.
(** *** A block with all its ancestors in the DAG *)

Lemma verify_keeps d A R l A' R' r :
  foldM (verify_with_ancestors d) (A, R) l = Ok (A', R') → is_Some (A !! r) → is_Some (A' !! r).
Proof.
  intros Hf HA. apply (foldM_Ok_inv _ (λ st, is_Some (st.1 !! r))) in Hf; [done..|].
  intros [A1 R1] b [A2 R2] HA1 _ Hs. simpl in *. unfold verify_with_ancestors in Hs.
  apply bind_Ok in Hs as (ancs & _ & Hs). apply bind_Ok in Hs as (_ & _ & Hs).
  apply bind_Ok in Hs as ([found|] & _ & Hs); [|by simplify_eq].
  apply bind_Ok in Hs as ([[]|e] & _ & Hs); simplify_eq; [|done]. apply lookup_insert_is_Some'. by right.
Qed.

(** Its ancestors are in the DAG, not later than it. *)
Definition follows (V : dag) (b : VerifiedBlock) : Prop :=
  ∀ a, a ∈ vb_ancestors b → ∃ x, V !! a = Some x ∧ vb_timestamp_ms x ≤ vb_timestamp_ms b.

Lemma verify_follows `{!BlockVerifierSpec} d b :
  dag_safe d → follows (dag_view d) b → verify_with_ancestors d (∅, ∅) b = Ok ({[reference b := b]}, ∅).
Proof.
  intros [Hwf _ HV] Hb. unfold verify_with_ancestors. rewrite get_blocks_view by done. cbn [mbind outcome_bind].
  rewrite length_fmap, N.eqb_refl. cbn [assert_ mbind outcome_bind].
  destruct (collect_ancestors_found (dag_view d) ∅ ∅ (vb_ancestors b) []) as (l & Hl & Hrefs & Hin).
  - intros a Ha. destruct (Hb a Ha) as (x & Hx & _). eauto.
  - intros r x Hx. by eapply dc_reference.
  - intros r x Hx. by rewrite lookup_empty in Hx.
  - rewrite Hl. cbn [mbind outcome_bind app].
    destruct (check_ancestors_spec b l Hrefs) as (r & -> & Hr). cbn [mbind outcome_bind].
    assert (r = RustOk ()) as ->; [|by rewrite insert_empty]. apply Hr, Forall_forall. intros x Hx.
    destruct (Hb (reference x)) as (y & Hy & Hts); [rewrite Hrefs; by apply list_elem_of_fmap_2|].
    destruct (Hin x Hx) as [Hx'|Hx']; [congruence|by rewrite lookup_empty in Hx'].
Qed.

(** When such a block is passed in and something is accepted, it is. *)
Lemma try_accept_follows `{!BlockVerifierSpec} now bm d b bm' d' accepted missing :
  dag_safe d → manager_blocks P bm → P b → follows (dag_view d) b → accepted ≠ [] →
  try_accept_blocks now bm d [b] = Ok (bm', d', accepted, missing) → is_Some (dag_view d' !! reference b).
Proof.
  intros Hd Hbm Hb Hfol Hne Hf. pose proof Hd as [Hwf Hctx HV]. unfold try_accept_blocks in Hf.
  change (sort_by (λ b1 b2, vb_round b1 <=? vb_round b2) [b]) with [b] in Hf. cbn [foldM] in Hf.
  apply bind_Ok in Hf as (st & Hs & Hf). injection Hf as ->. unfold try_accept_step in Hs.
  apply bind_Ok in Hs as ([res bm1] & Hf1 & Hs).
  destruct (try_accept_one_block_blocks _ _ _ _ _ Hbm Hb Hf1) as [Hbm1 Hres].
  destruct res as [b'|fetch|]; [|by simplify_eq..]. rewrite (Hres b' eq_refl) in Hs.
  apply bind_Ok in Hs as ([bm2 us] & Hf2 & Hs).
  unfold try_unsuspend_children_blocks in Hf2.
  apply bind_Ok in Hf2 as ([bm3 us3] & Hf3 & Hf2). apply bind_Ok in Hf2 as (_ & _ & Hf2). simplify_eq.
  apply unsuspend_loop_blocks in Hf3 as [Hbm2 Hus];
    [|done|by rewrite app_nil_r; intros x ->%list_elem_of_singleton].
  apply bind_Ok in Hs as ([A R] & Hf4 & Hs). apply bind_Ok in Hs as (d1 & Hf5 & Hs). simplify_eq.
  assert (HA : closed_over (dag_view d) A).
  { eapply verify_fold_closed; [done| | |done]; [done|]. by intros x [->|?]%elem_of_cons; auto. }
  cbn [foldM] in Hf4. rewrite verify_follows in Hf4 by done. cbn [mbind outcome_bind] in Hf4.
  destruct (verify_keeps _ _ _ _ _ _ (reference b) Hf4) as [x Hx]; [rewrite lookup_singleton_eq; eauto|].
  destruct (HA _ _ Hx) as (Hr & _). rewrite <-Hr.
  eapply (accept_blocks_view d now (bt_values A) d'); [done..| |done|].
  - intros y (r & Hy)%elem_of_bt_values. by destruct (HA r y Hy) as (_ & ? & _).
  - apply elem_of_bt_values. eauto.
Qed.
End arriving.

(** C10: whatever the verifier answers and whatever order blocks arrive in, a call of
    [try_accept_blocks] that returns leaves a causally complete DAG: the ancestors of
    every block in it are in it, in earlier rounds; and no block has left it. *)
Theorem try_accept_blocks_safe now bm d blocks bm' d' accepted missing :
  dag_safe d → manager_blocks well_formed bm → Forall well_formed blocks →
  try_accept_blocks now bm d blocks = Ok (bm', d', accepted, missing) →
  dag_safe d' ∧ manager_blocks well_formed bm' ∧ dag_view d ⊆ dag_view d'.
Proof.
  intros Hd Hbm Hbl Hf.
  destruct (try_accept_blocks_grows well_formed (λ b, id) now bm d blocks bm' d' accepted missing) as (? & ? & []); done.
Qed.
End manager_safety.
