(* ===== verification/RejectedBlocks.v ===== *)
(** Blocks that the block manager rejects ([consensus/core/src/block_manager.rs]).  A block whose
    ancestors are all in the DAG, one of them with a later timestamp, is dropped after the blocks
    that wait for it were told that it arrived.  Such a block is then unsuspended with an ancestor
    that is nowhere, and the manager panics. *)

From stdpp Require Import base strings numbers sorting gmap sets relations list.
From S2P Require Import Prelude Committee Block Dag BlockVerifier Commit Store DagState DagStateFacts BlockManager BlockManagerFacts.

Open Scope N_scope.

Section rejected.
Context {St : Type} `{StoreSpec St} `{Crypto, BlockVerifierSpec}.
Implicit Types (bm : BlockManager) (d : DagState St) (V : dag).

(** ** Receiving one block *)

(** The manager does not know the block, neither as one that waits nor as one waited for. *)
Definition unknown bm (r : BlockRef) : Prop := suspended_blocks bm !! r = None ∧ missing_ancestors bm !! r = None.

(** A block with all its ancestors in the DAG is resolved at once. *)
Lemma note_ancestors_found V block_ref st ancestors :
  (∀ a, a ∈ ancestors → is_Some (V !! a)) →
  foldl (note_ancestor block_ref) st (zip ((λ r, bool_decide (is_Some (V !! r))) <$> ancestors) ancestors) = st.
Proof.
  revert st. induction ancestors as [|a ancestors IH]; intros st Hall; [done|]. rewrite fmap_cons. cbn [zip zip_with foldl].
  rewrite bool_decide_eq_true_2 by (apply Hall; left). destruct st as [[bm M] tf]. cbn [note_ancestor].
  apply IH. intros a' Ha'. apply Hall. by right.
Qed.

Lemma receive_resolved d bm b :
  dag_wf d → suspended_blocks bm !! reference b = None → dag_view d !! reference b = None →
  vb_author b < committee_size (committee (context d)) → (∀ a, a ∈ vb_ancestors b → is_Some (dag_view d !! a)) →
  try_accept_one_block bm d b = Ok (Accepted b, received (reference b) bm).
Proof.
  intros Hwf Hs Hv Ha Hall. unfold try_accept_one_block. rewrite Hs, bool_decide_eq_false_2 by apply is_Some_None.
  rewrite contains_block_view by done. rewrite Hv, bool_decide_eq_false_2 by apply is_Some_None. cbn [mbind outcome_bind].
  rewrite contains_blocks_view; [|done|].
  - cbn [mbind outcome_bind]. by rewrite note_ancestors_found.
  - apply Forall_forall. intros a [x Hx]%Hall. by destruct (view_reference _ _ _ Hwf Hx) as (_ & ? & _).
Qed.

(** A block with missing ancestors waits for them. *)
Lemma receive_missing d bm b M :
  dag_wf d → committee (bm_context bm) = committee (context d) →
  suspended_blocks bm !! reference b = None → dag_view d !! reference b = None →
  vb_author b < committee_size (committee (context d)) →
  (∀ a, a ∈ vb_ancestors b → br_author a < committee_size (committee (context d))) →
  (∀ a, a ∈ M ↔ a ∈ vb_ancestors b ∧ dag_view d !! a = None) → M ≠ ∅ →
  ∃ bm1 to_fetch, noted bm (reference b) M bm1 to_fetch ∧
    try_accept_one_block bm d b = Ok (Suspended to_fetch,
      set_suspended (<[reference b := mkSuspendedBlock b M]> (suspended_blocks bm)) (received (reference b) bm1)).
Proof.
  intros Hwf Hc Hs Hv Ha Hanc HM Hne. unfold try_accept_one_block. rewrite Hs, bool_decide_eq_false_2 by apply is_Some_None.
  rewrite contains_block_view by done. rewrite Hv, bool_decide_eq_false_2 by apply is_Some_None. cbn [mbind outcome_bind].
  rewrite contains_blocks_view by (done || by apply Forall_forall). cbn [mbind outcome_bind].
  destruct (note_ancestors_noted bm (reference b) (dag_view d) ∅ bm ∅ (vb_ancestors b)) as (bm1 & M' & tf & -> & Hn & HM').
  { split; try done; set_solver. }
  assert (M' = M) as -> by set_solver. exists bm1, tf. split; [done|]. rewrite bool_decide_eq_false_2 by done.
  unfold committee_authority. cbn [bm_context set_missing]. rewrite (nt_context _ _ _ _ _ Hn), Hc.
  destruct (vec_index_lt _ _ Ha) as [x ->]. cbn [mbind outcome_bind suspended_blocks set_missing].
  by rewrite (nt_suspended _ _ _ _ _ Hn).
Qed.

(** ** The children of a resolved block *)

(** The manager when the child [c] of [r] was told that [r] arrived. *)
Definition told (r c : BlockRef) (s : gmap BlockRef SuspendedBlock) bm : BlockManager :=
  set_suspended s (set_missing (delete r (missing_ancestors bm)) (missing_blocks bm) bm).

Lemma unsuspend_loop_done fuel bm us : unsuspend_loop fuel bm [] us = Ok (bm, us).
Proof. by destruct fuel. Qed.

Lemma only_child_waits bm b c sb :
  missing_ancestors bm !! reference b = Some {[c]} → suspended_blocks bm !! c = Some sb →
  reference b ∈ sb_missing_ancestors sb → sb_missing_ancestors sb ∖ {[reference b]} ≠ ∅ →
  try_unsuspend_children_blocks bm b =
    Ok (told (reference b) c
      (<[c := mkSuspendedBlock (sb_block sb) (sb_missing_ancestors sb ∖ {[reference b]})]> (suspended_blocks bm)) bm, []).
Proof.
  intros Hm Hs Hin Hne. unfold try_unsuspend_children_blocks. cbn [unsuspend_loop last removelast]. rewrite Hm.
  assert (bt_elements {[c]} = [c]) as -> by (unfold bt_elements; by rewrite elements_singleton).
  cbn [foldM unsuspend_child]. unfold try_unsuspend_block. cbn [suspended_blocks set_missing]. rewrite Hs.
  cbn [expect mbind outcome_bind]. rewrite (bool_decide_eq_true_2 (reference b ∈ sb_missing_ancestors sb)) by done.
  cbn [assert_ mbind outcome_bind sb_missing_ancestors sb_block]. rewrite bool_decide_eq_false_2 by done.
  cbn [mbind outcome_bind]. rewrite unsuspend_loop_done. done.
Qed.

Lemma only_child_resolved bm b c sb :
  missing_ancestors bm !! reference b = Some {[c]} → suspended_blocks bm !! c = Some sb →
  sb_missing_ancestors sb = {[reference b]} → reference (sb_block sb) = c → c ≠ reference b → missing_ancestors bm !! c = None →
  vb_author (sb_block sb) < committee_size (committee (bm_context bm)) →
  try_unsuspend_children_blocks bm b =
    Ok (told (reference b) c (delete c (suspended_blocks bm)) bm, [sb_block sb]).
Proof.
  intros Hm Hs Hin Hr Hne Hc Ha. unfold try_unsuspend_children_blocks.
  assert (∃ n, size (suspended_blocks bm) = S n) as [n ->].
  { destruct (size (suspended_blocks bm)) eqn:Hsize; [|eauto]. apply map_size_empty_inv in Hsize. by rewrite Hsize, lookup_empty in Hs. }
  cbn [unsuspend_loop last removelast]. rewrite Hm.
  assert (bt_elements {[c]} = [c]) as -> by (unfold bt_elements; by rewrite elements_singleton).
  cbn [foldM unsuspend_child]. unfold try_unsuspend_block. cbn [suspended_blocks set_missing]. rewrite Hs.
  cbn [expect mbind outcome_bind]. rewrite Hin.
  rewrite (bool_decide_eq_true_2 (reference b ∈ _)) by by apply elem_of_singleton.
  cbn [assert_ mbind outcome_bind sb_missing_ancestors sb_block]. rewrite bool_decide_eq_true_2 by set_solver.
  cbn [mbind outcome_bind app last removelast missing_ancestors set_suspended set_missing sb_block].
  rewrite Hr, lookup_delete_ne, Hc by done.
  rewrite unsuspend_loop_done. cbn [mbind outcome_bind mapM bm_context set_suspended set_missing].
  unfold committee_authority. by destruct (vec_index_lt _ _ Ha) as [x ->].
Qed.

(** ** Verifying against the ancestors *)

(** A block with an ancestor that is neither in the DAG nor accepted. *)
Lemma collect_ancestors_missing V to_accept ancs acc a :
  (∀ r b, V !! r = Some b → reference b = r) → a ∈ ancs → V !! a = None → to_accept !! a = None →
  collect_ancestors to_accept ∅ (zip ancs ((λ r, V !! r) <$> ancs)) acc =
    Panic "Unsuspended block has a missing ancestor! Ancestor not found in DagState".
Proof.
  intros HV Ha Hv Hacc. revert acc. induction ancs as [|r ancs IH]; intros acc; [by apply not_elem_of_nil in Ha|].
  rewrite fmap_cons. cbn [zip zip_with collect_ancestors]. apply elem_of_cons in Ha as [<-|Ha].
  - rewrite Hv, Hacc, lookup_empty. rewrite bool_decide_eq_false_2 by apply is_Some_None. done.
  - destruct (V !! r) as [x|] eqn:Hx.
    + rewrite (HV r x Hx), bool_decide_eq_true_2 by done. cbn [assert_ mbind outcome_bind]. by apply IH.
    + destruct (to_accept !! r) as [x|]; [by apply IH|]. rewrite lookup_empty.
      rewrite bool_decide_eq_false_2 by apply is_Some_None. done.
Qed.

Lemma verify_missing d to_accept b a :
  dag_wf d → a ∈ vb_ancestors b → dag_view d !! a = None → to_accept !! a = None →
  verify_with_ancestors d (to_accept, ∅) b =
    Panic "Unsuspended block has a missing ancestor! Ancestor not found in DagState".
Proof.
  intros Hwf Ha Hv Hacc. unfold verify_with_ancestors. rewrite get_blocks_view by done. cbn [mbind outcome_bind].
  rewrite length_fmap, N.eqb_refl. cbn [assert_ mbind outcome_bind].
  erewrite (collect_ancestors_missing (dag_view d)); [done| |done..].
  intros r x Hx. by destruct (view_reference _ _ _ Hwf Hx) as [? _].
Qed.

(** A block with all its ancestors in the DAG, but one of them later than it. *)
Definition backdated_in V (b : VerifiedBlock) : Prop :=
  (∀ a, a ∈ vb_ancestors b → is_Some (V !! a)) ∧
  ∃ a x, a ∈ vb_ancestors b ∧ V !! a = Some x ∧ vb_timestamp_ms b < vb_timestamp_ms x.

Lemma verify_backdated d b :
  dag_wf d → backdated_in (dag_view d) b → verify_with_ancestors d (∅, ∅) b = Ok (∅, {[reference b := b]}).
Proof.
  intros Hwf [Hall (a & x & Ha & Hx & Hts)]. unfold verify_with_ancestors. rewrite get_blocks_view by done.
  cbn [mbind outcome_bind]. rewrite length_fmap, N.eqb_refl. cbn [assert_ mbind outcome_bind].
  destruct (collect_ancestors_found (dag_view d) ∅ ∅ (vb_ancestors b) []) as (l & Hl & Hrefs & Hin).
  - intros r Hr. left. by apply Hall.
  - intros r y Hy. by destruct (view_reference _ _ _ Hwf Hy) as [? _].
  - intros r y Hy. by rewrite lookup_empty in Hy.
  - rewrite Hl. cbn [mbind outcome_bind app].
    destruct (check_ancestors_spec b l Hrefs) as ([[]|e] & -> & Hr); cbn [mbind outcome_bind]; [|by rewrite insert_empty].
    exfalso. pose proof (proj1 Hr eq_refl) as Hts'. rewrite Forall_forall in Hts'.
    rewrite Hrefs in Ha. apply list_elem_of_fmap in Ha as (y & -> & Hy). specialize (Hts' y Hy). simpl in Hts'.
    destruct (Hin y Hy) as [Hy'|Hy']; [|by rewrite lookup_empty in Hy']. rewrite Hx in Hy'. injection Hy' as ->. lia.
Qed.

(** ** One call for one block *)

(** Nothing is accepted when the block is rejected and its only child waits for more. *)
Lemma accept_backdated now d bm b c sb :
  dag_wf d → suspended_blocks bm !! reference b = None → dag_view d !! reference b = None →
  vb_author b < committee_size (committee (context d)) → backdated_in (dag_view d) b →
  missing_ancestors bm !! reference b = Some {[c]} → suspended_blocks bm !! c = Some sb →
  reference b ∈ sb_missing_ancestors sb → sb_missing_ancestors sb ∖ {[reference b]} ≠ ∅ →
  try_accept_blocks now bm d [b] =
    Ok (told (reference b) c
      (<[c := mkSuspendedBlock (sb_block sb) (sb_missing_ancestors sb ∖ {[reference b]})]> (suspended_blocks bm))
      (received (reference b) bm), d, [], ∅).
Proof.
  intros Hwf Hs Hv Ha Hback Hm Hc Hin Hne. unfold try_accept_blocks.
  change (sort_by (λ b1 b2, vb_round b1 <=? vb_round b2) [b]) with [b]. cbn [foldM]. unfold try_accept_step.
  rewrite receive_resolved by (done || apply Hback). cbn [mbind outcome_bind].
  rewrite (only_child_waits _ b c sb) by done. cbn [mbind outcome_bind foldM].
  rewrite verify_backdated by done. cbn [mbind outcome_bind]. done.
Qed.

(** The last ancestor that its only child waits for arrives, but another one is nowhere. *)
Lemma accept_last_panics now ctx d bm b c sb a :
  dag_safe ctx d → suspended_blocks bm !! reference b = None → dag_view d !! reference b = None →
  vb_author b < committee_size (committee (context d)) → follows (dag_view d) b →
  missing_ancestors bm !! reference b = Some {[c]} → suspended_blocks bm !! c = Some sb →
  sb_missing_ancestors sb = {[reference b]} → reference (sb_block sb) = c → c ≠ reference b → missing_ancestors bm !! c = None →
  vb_author (sb_block sb) < committee_size (committee (bm_context bm)) →
  a ∈ vb_ancestors (sb_block sb) → dag_view d !! a = None → a ≠ reference b →
  try_accept_blocks now bm d [b] =
    Panic "Unsuspended block has a missing ancestor! Ancestor not found in DagState".
Proof.
  intros Hd Hs Hv Ha Hfol Hm Hc Hin Hr Hcb Hmc Hca Hanc Hva Hab. pose proof Hd as [Hwf _ _]. unfold try_accept_blocks.
  change (sort_by (λ b1 b2, vb_round b1 <=? vb_round b2) [b]) with [b]. cbn [foldM]. unfold try_accept_step.
  rewrite receive_resolved; [|done..|intros r Hr'; destruct (Hfol r Hr') as (x & ? & _); eauto]. cbn [mbind outcome_bind].
  rewrite (only_child_resolved _ b c sb) by done. cbn [mbind outcome_bind foldM].
  rewrite (verify_follows ctx) by done. cbn [mbind outcome_bind].
  rewrite (verify_missing d _ _ a); [done..|]. by rewrite lookup_singleton_ne.
Qed.

(** ** The panic *)

(** A block [c] with the two missing ancestors [a] and [b], which have all their own ancestors in
    the DAG; [a] is earlier than one of them. *)
Record on_rejected d bm (a b c : VerifiedBlock) : Prop := {
  or_distinct : reference a ≠ reference b ∧ reference c ≠ reference a ∧ reference c ≠ reference b;
  or_unknown x : x ∈ [a; b; c] → unknown bm (reference x) ∧ dag_view d !! reference x = None;
  or_author x : x ∈ [a; b; c] → vb_author x < committee_size (committee (context d));
  or_backdated : backdated_in (dag_view d) a;
  or_follows : follows (dag_view d) b;
  or_ancestors : reference a ∈ vb_ancestors c ∧ reference b ∈ vb_ancestors c;
  or_others r : r ∈ vb_ancestors c → r = reference a ∨ r = reference b ∨ is_Some (dag_view d !! r);
}.

(** The first call: the block waits for the two. *)
Lemma accept_waiting now d bm a b c :
  dag_wf d → committee (bm_context bm) = committee (context d) → on_rejected d bm a b c →
  let M := {[reference a; reference b]} in
  ∃ bm1, try_accept_blocks now bm d [c] = Ok (bm1, d, [], M) ∧ bm_context bm1 = bm_context bm ∧
    suspended_blocks bm1 = <[reference c := mkSuspendedBlock c M]> (suspended_blocks bm) ∧
    missing_ancestors bm1 !! reference a = Some {[reference c]} ∧
    missing_ancestors bm1 !! reference b = Some {[reference c]} ∧ missing_ancestors bm1 !! reference c = None.
Proof.
  intros Hwf Hcm [(Hab & Hca & Hcb) Hun Hau _ _ [Hina Hinb] Hoth] M.
  destruct (Hun a ltac:(left)) as [[Hsa Hma] Hva]. destruct (Hun b ltac:(right; left)) as [[Hsb Hmb] Hvb].
  destruct (Hun c ltac:(right; right; left)) as [[Hsc Hmc] Hvc].
  assert (HM : ∀ r, r ∈ M ↔ r = reference a ∨ r = reference b) by (unfold M; set_solver).
  destruct (receive_missing d bm c M) as (bm1 & tf & Hn & Hrec); try done.
  { apply Hau. right; right; left. }
  { intros r Hr. destruct (Hoth r Hr) as [->|[->|[x Hx]]]; [apply Hau; left|apply Hau; right; left|].
    by destruct (view_reference _ _ _ Hwf Hx) as (_ & ? & _). }
  { intros r. rewrite HM. split; [intros [->| ->]; done|].
    intros [Hr Hv]. destruct (Hoth r Hr) as [->|[->|[x Hx]]]; [by left|by right|congruence]. }
  { unfold M. set_solver. }
  assert (tf = M) as ->.
  { apply set_eq. intros r. rewrite (nt_to_fetch _ _ _ _ _ Hn). split; [by intros [? _]|]. intros Hr. split; [done|].
    apply HM in Hr as [->| ->]; done. }
  eexists. split.
  { unfold try_accept_blocks. change (sort_by (λ b1 b2, vb_round b1 <=? vb_round b2) [c]) with [c]. cbn [foldM].
    unfold try_accept_step. rewrite Hrec. cbn [mbind outcome_bind]. by rewrite union_empty_l_L. }
  assert (Hch : ∀ r, r ∈ M → missing_ancestors bm !! r = None → missing_ancestors bm1 !! r = Some {[reference c]}).
  { intros r Hr Hr'. rewrite (nt_children _ _ _ _ _ Hn), decide_True, Hr' by assumption. cbn [default]. by rewrite union_empty_r_L. }
  split_and!; [apply Hn|reflexivity|apply Hch; [apply HM; by left|done]|apply Hch; [apply HM; by right|done]|].
  cbn [missing_ancestors set_suspended received set_missing]. rewrite (nt_children _ _ _ _ _ Hn), decide_False; [done|].
  rewrite HM. by intros [?|?].
Qed.

(** C36: A rejected ancestor makes the block manager panic.  Let a block have two ancestors that
    are not here, one of which will be rejected for a timestamp before that of its own ancestors.
    When the block arrives the manager asks for the two.  When the first arrives it is dropped, and
    neither kept nor asked for again, but the block no longer waits for it.  When the second
    arrives the manager panics, whatever else is in the DAG and in the manager. *)
Theorem rejected_ancestor_panics now ctx d bm a b c :
  dag_safe ctx d → committee (bm_context bm) = committee (context d) → on_rejected d bm a b c →
  ∃ bm1 bm2,
    try_accept_blocks now bm d [c] = Ok (bm1, d, [], {[reference a; reference b]}) ∧
    try_accept_blocks now bm1 d [a] = Ok (bm2, d, [], ∅) ∧
    unknown bm2 (reference a) ∧ reference a ∉ missing_blocks bm2 ∧
    try_accept_blocks now bm2 d [b] =
      Panic "Unsuspended block has a missing ancestor! Ancestor not found in DagState".
Proof.
  intros Hd Hcm Hrej. pose proof Hd as [Hwf _ _].
  destruct (accept_waiting now d bm a b c Hwf Hcm Hrej) as (bm1 & Hc1 & Hctx & Hsus & Hm1 & Hm2 & Hm3).
  destruct Hrej as [(Hab & Hca & Hcb) Hun Hau Hback Hfol [Hina _] _].
  destruct (Hun a ltac:(left)) as [[Hsa _] Hva]. destruct (Hun b ltac:(right; left)) as [[Hsb _] Hvb].
  set (M := {[reference a; reference b]}) in *.
  assert (HM : M ∖ {[reference a]} = {[reference b]}) by (unfold M; set_solver).
  exists bm1. eexists. split; [exact Hc1|]. split.
  { apply (accept_backdated now d bm1 a (reference c) (mkSuspendedBlock c M)); try done; rewrite ?Hsus.
    - by rewrite lookup_insert_ne.
    - apply Hau. left.
    - apply lookup_insert_eq.
    - unfold M. set_solver.
    - cbn [sb_missing_ancestors]. rewrite HM. set_solver. }
  cbn [sb_missing_ancestors sb_block]. rewrite HM, Hsus. split; [|split].
  - split; cbn; [rewrite !lookup_insert_ne by done; done|apply lookup_delete_eq].
  - cbn. set_solver.
  - eapply (accept_last_panics now ctx d _ b (reference c) (mkSuspendedBlock c {[reference b]}) (reference a)); try done; cbn.
    + by rewrite !lookup_insert_ne.
    + apply Hau. right; left.
    + by rewrite lookup_delete_ne.
    + by rewrite lookup_insert_eq.
    + by rewrite lookup_delete_ne.
    + rewrite Hctx, Hcm. apply Hau. right; right; left.
Qed.
End rejected.
