(* ===== verification/DagReader.v ===== *)
(** What the committer reads of the DAG, as an interface: the queries of [DagState]
    ([consensus/core/src/dag_state.rs]) the decision rules make, and the promise that they
    answer for a causally complete DAG.  [DagState] implements it. *)

From stdpp Require Import base strings numbers sorting gmap sets relations list.
From S2P Require Import Prelude Committee Block Dag StakeAggregator Commit Store DagState DagStateFacts.

Open Scope N_scope.

Class DagReader (D : Type) := {
  dr_get_block : D → BlockRef → outcome (option VerifiedBlock);
  dr_get_uncommitted_blocks_at_slot : D → Slot → outcome (list VerifiedBlock);
  dr_get_uncommitted_blocks_at_round : D → Round → outcome (list VerifiedBlock);
  dr_ancestors_at_round : D → VerifiedBlock → Round → outcome (list VerifiedBlock);
  dr_highest_accepted_round : D → Round;
}.

(** The blocks read are those of [dr_view]; blocks from the round of the last commit on
    are all readable by slot, and from the next round on by round. *)
Class DagReaderSpec (D : Type) `{DagReader D} := {
  dr_view : D → dag;
  dr_commit_round : D → Round;
  dr_committee : D → Committee;
  dr_inv : D → Prop;
  dr_closed d : dr_inv d → dag_closed (dr_view d);
  dr_authors d r b : dr_inv d → dr_view d !! r = Some b →
    br_author r < committee_size (dr_committee d);
  dr_get_block_spec d r : dr_inv d → dr_get_block d r = Ok (dr_view d !! r);
  dr_slot_spec d slot : dr_inv d →
    dr_commit_round d ≤ slot_round slot → slot_round slot ≠ GENESIS_ROUND →
    ∃ l, dr_get_uncommitted_blocks_at_slot d slot = Ok l ∧ NoDup l ∧
      ∀ b, b ∈ l ↔ dr_view d !! reference b = Some b ∧ vb_slot b = slot;
  dr_slot_genesis d slot : dr_inv d → slot_round slot = GENESIS_ROUND →
    dr_get_uncommitted_blocks_at_slot d slot = Ok [];
  dr_round_spec d round : dr_inv d → dr_commit_round d < round → round < U32_MAX →
    ∃ l, dr_get_uncommitted_blocks_at_round d round = Ok l ∧ NoDup l ∧
      ∀ b, b ∈ l ↔ dr_view d !! reference b = Some b ∧ vb_round b = round;
  dr_ancestors_spec d b round : dr_inv d → dr_view d !! reference b = Some b →
    ∃ l, dr_ancestors_at_round d b round = Ok l ∧
      ∀ x, x ∈ l ↔ dr_view d !! reference x = Some x ∧ vb_round x = round ∧
        ∃ a, a ∈ vb_ancestors b ∧ history (dr_view d) a (reference x);
}.

Section instances.
Context {St : Type} `{Store St}.

#[export] Instance dag_state_reader : DagReader (DagState St) := {
  dr_get_block := get_block;
  dr_get_uncommitted_blocks_at_slot := get_uncommitted_blocks_at_slot;
  dr_get_uncommitted_blocks_at_round := get_uncommitted_blocks_at_round;
  dr_ancestors_at_round := ancestors_at_round;
  dr_highest_accepted_round := highest_accepted_round;
}.
End instances.

Section spec_instance.
Context {St : Type} `{StoreSpec St} `{Crypto}.

Lemma uncommitted_at_genesis_slot (d : DagState St) slot :
  dag_wf d → slot_round slot = GENESIS_ROUND → get_uncommitted_blocks_at_slot d slot = Ok [].
Proof.
  intros Hwf Hs. destruct (uncommitted_at_slot_recent d slot Hwf) as (l & -> & _ & Hin).
  f_equal. apply list_nil_subseteq. intros b [Hb Hslot]%Hin. exfalso.
  apply (wf_recent _ Hwf) in Hb as (_ & _ & Hpos & _). unfold GENESIS_ROUND in Hs.
  subst slot. simpl in *. lia.
Qed.

#[export] Program Instance dag_state_reader_spec : DagReaderSpec (DagState St) := {|
  dr_view := dag_view;
  dr_commit_round := last_commit_round;
  dr_committee d := committee (context d);
  dr_inv d := dag_wf d ∧ dag_closed (dag_view d);
|}.
Next Obligation. by intros d []. Qed.
Next Obligation. intros d r b [Hwf _] Hb. by apply view_reference in Hb as (_ & ? & _). Qed.
Next Obligation. intros d r [Hwf _]. by apply get_block_view. Qed.
Next Obligation. intros d slot [Hwf _] ? ?. by apply uncommitted_at_slot_view. Qed.
Next Obligation. intros d slot [Hwf _] ?. by apply uncommitted_at_genesis_slot. Qed.
Next Obligation. intros d round [Hwf _] ? ?. by apply uncommitted_at_round_view. Qed.
Next Obligation.
  intros d b round [Hwf HV] Hb. apply ancestors_at_round_view; [done..|].
  intros a Ha. by eapply dc_present.
Qed.
End spec_instance.
