(* ===== verification/BaseCommitter.v ===== *)
(** The base committer ([consensus/core/src/base_committer.rs]): the direct and indirect
    rules that decide whether a leader slot is committed or skipped. *)

From stdpp Require Import base strings numbers sorting gmap sets list.
From S2P Require Import Prelude Committee Block StakeAggregator Commit DagReader.

Open Scope N_scope.

(** [LeaderSchedule::elect_leader(round, leader_offset)]. *)
Class LeaderElection (L : Type) :=
  ls_elect_leader : L → Round → N → outcome AuthorityIndex.

Record BaseCommitterOptions := mkBaseCommitterOptions {
  wave_length : N;
  leader_offset : N;
  round_offset : N;
}.

(** [BaseCommitterOptions::default()]. *)
Definition base_committer_options_default : BaseCommitterOptions :=
  mkBaseCommitterOptions DEFAULT_WAVE_LENGTH 0 0.

Record BaseCommitter (L D : Type) := mkBaseCommitter {
  bc_context : Context;
  bc_leader_schedule : L;
  bc_dag_state : D;
  bc_options : BaseCommitterOptions;
}.
Arguments mkBaseCommitter {L D}.
Arguments bc_context {L D}.
Arguments bc_leader_schedule {L D}.
Arguments bc_dag_state {L D}.
Arguments bc_options {L D}.

Section base_committer.
Context {L D : Type} `{LeaderElection L} `{DagReader D}.
Implicit Types self : BaseCommitter L D.

(** [BaseCommitter::new]. *)
Definition base_committer_new (context : Context) (leader_schedule : L) (dag_state : D)
    (options : BaseCommitterOptions) : outcome (BaseCommitter L D) :=
  _ ← assert_ (MINIMUM_WAVE_LENGTH <=? wave_length options)
        "assertion failed: options.wave_length >= MINIMUM_WAVE_LENGTH";
  Ok (mkBaseCommitter context leader_schedule dag_state options).

(** The first and the last round of a wave, and the wave of a round. *)
Definition leader_round self (wave : WaveNumber) : Round :=
  (wave *u32 wave_length (bc_options self)) +u32 round_offset (bc_options self).

Definition decision_round self (wave : WaveNumber) : Round :=
  let wave_length := wave_length (bc_options self) in
  (wave *u32 wave_length) +u32 wave_length -u32 1 +u32 round_offset (bc_options self).

Definition wave_number self (round : Round) : WaveNumber :=
  (round - round_offset (bc_options self)) / wave_length (bc_options self).

(** [BaseCommitter::elect_leader]. *)
Definition elect_leader self (round : Round) : outcome (option Slot) :=
  let wave := wave_number self round in
  if negb (leader_round self wave =? round) then Ok None
  else
    authority ← ls_elect_leader (bc_leader_schedule self) round (leader_offset (bc_options self));
    Ok (Some (mkSlot round authority)).

(** The loop of [find_supported_block] over the ancestors; [find] is the recursive call. *)
Fixpoint find_in_ancestors (dag_state : D) (leader_slot : Slot)
    (find : VerifiedBlock → outcome (option BlockRef)) (ancestors : list BlockRef) :
    outcome (option BlockRef) :=
  match ancestors with
  | [] => Ok None
  | ancestor :: ancestors =>
      if bool_decide (slot_of_ref ancestor = leader_slot) then Ok (Some ancestor)
      else if br_round ancestor <=? slot_round leader_slot then
        find_in_ancestors dag_state leader_slot find ancestors
      else
        block ← dr_get_block dag_state ancestor;
        block ← expect block "Block not found in storage";
        support ← find block;
        match support with
        | Some support => Ok (Some support)
        | None => find_in_ancestors dag_state leader_slot find ancestors
        end
  end.

(** Rounds decrease along ancestors: the distance to the leader's round bounds the
    recursion. *)
Fixpoint find_supported_block_fuel (fuel : nat) (dag_state : D) (leader_slot : Slot)
    (from : VerifiedBlock) : outcome (option BlockRef) :=
  if vb_round from <? slot_round leader_slot then Ok None
  else
    match fuel with
    | O => OutOfFuel
    | S fuel =>
        find_in_ancestors dag_state leader_slot
          (find_supported_block_fuel fuel dag_state leader_slot) (vb_ancestors from)
    end.

Definition find_supported_block self (leader_slot : Slot) (from : VerifiedBlock) :
    outcome (option BlockRef) :=
  find_supported_block_fuel (S (N.to_nat (vb_round from - slot_round leader_slot)))
    (bc_dag_state self) leader_slot from.

Definition is_vote self (potential_vote leader_block : VerifiedBlock) : outcome bool :=
  let reference := reference leader_block in
  let leader_slot := slot_of_ref reference in
  supported ← find_supported_block self leader_slot potential_vote;
  Ok (bool_decide (supported = Some reference)).

(** The loop of [is_certificate]: it threads the cache [all_votes] and the aggregator. *)
Fixpoint is_certificate_loop self (leader_block : VerifiedBlock) (references : list BlockRef)
    (all_votes : gmap BlockRef bool) (agg : StakeAggregator QuorumThreshold) :
    outcome (bool * gmap BlockRef bool) :=
  match references with
  | [] => Ok (false, all_votes)
  | reference :: references =>
      '(vote, all_votes) ←
        match all_votes !! reference with
        | Some vote => Ok (vote, all_votes)
        | None =>
            potential_vote ← dr_get_block (bc_dag_state self) reference;
            potential_vote ← expect potential_vote "Block not found in storage";
            vote ← is_vote self potential_vote leader_block;
            Ok (vote, <[reference := vote]> all_votes)
        end;
      if vote : bool then
        '(reached, agg) ← aggregator_add agg (br_author reference) (committee (bc_context self));
        if reached : bool then Ok (true, all_votes)
        else is_certificate_loop self leader_block references all_votes agg
      else is_certificate_loop self leader_block references all_votes agg
  end.

Definition is_certificate self (potential_certificate leader_block : VerifiedBlock)
    (all_votes : gmap BlockRef bool) : outcome (bool * gmap BlockRef bool) :=
  is_certificate_loop self leader_block (vb_ancestors potential_certificate) all_votes aggregator_new.

(** [potential_certificates.iter().any(...)]. *)
Fixpoint any_certificate self (leader_block : VerifiedBlock)
    (potential_certificates : list VerifiedBlock) (all_votes : gmap BlockRef bool) : outcome bool :=
  match potential_certificates with
  | [] => Ok false
  | c :: cs =>
      '(found, all_votes) ← is_certificate self c leader_block all_votes;
      if found : bool then Ok true else any_certificate self leader_block cs all_votes
  end.

Definition decide_leader_from_anchor self (anchor : VerifiedBlock) (leader_slot : Slot) :
    outcome LeaderStatus :=
  leader_blocks ← dr_get_uncommitted_blocks_at_slot (bc_dag_state self) leader_slot;
  let wave := wave_number self (slot_round leader_slot) in
  let decision_round := decision_round self wave in
  potential_certificates ← dr_ancestors_at_round (bc_dag_state self) anchor decision_round;
  certified_leader_blocks ← filterM (λ leader_block,
      any_certificate self leader_block potential_certificates ∅) leader_blocks;
  if 1 <? N.of_nat (length certified_leader_blocks) then
    Panic "More than one certified block at wave from leader"
  else
    match last certified_leader_blocks with
    | Some certified_leader_block => Ok (LSCommit certified_leader_block)
    | None => Ok (LSSkip leader_slot)
    end.

(** A blame: no ancestor by the leader. *)
Definition is_blame (leader : AuthorityIndex) (voting_block : VerifiedBlock) : bool :=
  forallb (λ ancestor, negb (br_author ancestor =? leader)) (vb_ancestors voting_block).

Definition enough_leader_blame self (voting_round : Round) (leader : AuthorityIndex) : outcome bool :=
  voting_blocks ← dr_get_uncommitted_blocks_at_round (bc_dag_state self) voting_round;
  aggregate_until (T := QuorumThreshold) (committee (bc_context self)) aggregator_new
    (vb_author <$> filter (λ b, is_blame leader b = true) voting_blocks).

(** The loop of [enough_leader_support] over the blocks of the decision round. *)
Fixpoint support_loop self (leader_block : VerifiedBlock) (decision_blocks : list VerifiedBlock)
    (all_votes : gmap BlockRef bool) (agg : StakeAggregator QuorumThreshold) : outcome bool :=
  match decision_blocks with
  | [] => Ok false
  | decision_block :: decision_blocks =>
      '(certificate, all_votes) ← is_certificate self decision_block leader_block all_votes;
      if certificate : bool then
        '(reached, agg) ← aggregator_add agg (br_author (reference decision_block))
                            (committee (bc_context self));
        if reached : bool then Ok true
        else support_loop self leader_block decision_blocks all_votes agg
      else support_loop self leader_block decision_blocks all_votes agg
  end.

Definition enough_leader_support self (decision_round : Round) (leader_block : VerifiedBlock) :
    outcome bool :=
  decision_blocks ← dr_get_uncommitted_blocks_at_round (bc_dag_state self) decision_round;
  total_stake ← foldM (λ total b,
      stake ← committee_stake (committee (bc_context self)) (vb_author b);
      Ok (total +u64 stake))
    0 decision_blocks;
  if negb (reached_quorum (committee (bc_context self)) total_stake) then Ok false
  else support_loop self leader_block decision_blocks ∅ aggregator_new.

Definition try_direct_decide self (leader : Slot) : outcome LeaderStatus :=
  let voting_round := slot_round leader +u32 1 in
  blamed ← enough_leader_blame self voting_round (slot_authority leader);
  if blamed : bool then Ok (LSSkip leader)
  else
    let wave := wave_number self (slot_round leader) in
    let decision_round := decision_round self wave in
    leader_blocks ← dr_get_uncommitted_blocks_at_slot (bc_dag_state self) leader;
    leaders_with_enough_support ← filterM (enough_leader_support self decision_round) leader_blocks;
    if 1 <? N.of_nat (length leaders_with_enough_support) then
      Panic "More than one certified block for leader"
    else
      match last leaders_with_enough_support with
      | Some l => Ok (LSCommit l)
      | None => Ok (LSUndecided leader)
      end.

(** The loop of [try_indirect_decide] over the anchors. *)
Fixpoint indirect_decide_loop self (leader_slot : Slot) (anchors : list LeaderStatus) :
    outcome LeaderStatus :=
  match anchors with
  | [] => Ok (LSUndecided leader_slot)
  | LSCommit anchor :: _ => decide_leader_from_anchor self anchor leader_slot
  | LSSkip _ :: anchors => indirect_decide_loop self leader_slot anchors
  | LSUndecided _ :: _ => Ok (LSUndecided leader_slot)
  end.

Definition try_indirect_decide self (leader_slot : Slot) (leaders : list LeaderStatus) :
    outcome LeaderStatus :=
  indirect_decide_loop self leader_slot
    (filter (λ x, (slot_round leader_slot +u32 wave_length (bc_options self)
                     <=? leader_status_round x) = true) leaders).

End base_committer.
