(* ===== verification/Votes.v ===== *)
(** Votes and certificates as functions of the DAG, and that the base committer computes
    them ([consensus/core/src/base_committer.rs], [find_supported_block], [is_vote],
    [is_certificate]): termination of the search, soundness of the vote cache, and
    independence of the view a validator has. *)

From stdpp Require Import base strings numbers sorting gmap sets relations list.
From S2P Require Import Prelude Committee Block Dag StakeAggregator Commit DagReader BaseCommitter.

Open Scope N_scope.

(** ** Reference definitions *)

(** The first supported block along the ancestors. *)
Fixpoint first_supported (V : dag) (leader_slot : Slot) (find : VerifiedBlock → option BlockRef)
    (ancestors : list BlockRef) : option BlockRef :=
  match ancestors with
  | [] => None
  | a :: ancestors =>
      if bool_decide (slot_of_ref a = leader_slot) then Some a
      else if br_round a <=? slot_round leader_slot then
        first_supported V leader_slot find ancestors
      else
        match V !! a ≫= find with
        | Some support => Some support
        | None => first_supported V leader_slot find ancestors
        end
  end.

Fixpoint supported_at (V : dag) (fuel : nat) (leader_slot : Slot) (from : VerifiedBlock) :
    option BlockRef :=
  match fuel with
  | O => None
  | S fuel => first_supported V leader_slot (supported_at V fuel leader_slot) (vb_ancestors from)
  end.

(** The block at the slot that the block supports. *)
Definition supported (V : dag) (leader_slot : Slot) (from : VerifiedBlock) : option BlockRef :=
  supported_at V (S (N.to_nat (vb_round from - slot_round leader_slot))) leader_slot from.

(** The block under the reference is a vote for the leader block. *)
Definition vote (V : dag) (leader : VerifiedBlock) (r : BlockRef) : bool :=
  match V !! r with
  | Some b => bool_decide (supported V (slot_of_ref (reference leader)) b = Some (reference leader))
  | None => false
  end.

(** The authors of the votes a block refers to. *)
Definition voters (V : dag) (leader : VerifiedBlock) (refs : list BlockRef) : gset AuthorityIndex :=
  list_to_set (br_author <$> filter (λ r, vote V leader r = true) refs).

(** The block is a certificate: the votes it refers to have a quorum. *)
Definition certificate (c : Committee) (V : dag) (leader b : VerifiedBlock) : bool :=
  reached_quorum c (set_stake c (voters V leader (vb_ancestors b))).

Lemma voters_cons V leader r refs :
  voters V leader (r :: refs) =
    (if vote V leader r then {[br_author r]} else ∅) ∪ voters V leader refs.
Proof.
  unfold voters. rewrite filter_cons. destruct (vote V leader r); simpl; [done|].
  by rewrite union_empty_l_L.
Qed.

Lemma elem_of_voters V leader refs h :
  h ∈ voters V leader refs ↔ ∃ r, r ∈ refs ∧ vote V leader r = true ∧ br_author r = h.
Proof.
  unfold voters. rewrite elem_of_list_to_set, list_elem_of_fmap.
  setoid_rewrite list_elem_of_filter. naive_solver.
Qed.

(** The ancestors of the block are in the DAG, in earlier rounds. *)
Definition complete (V : dag) (b : VerifiedBlock) : Prop :=
  ∀ a, a ∈ vb_ancestors b → is_Some (V !! a) ∧ br_round a < vb_round b.

Lemma closed_complete V r b : dag_closed V → V !! r = Some b → complete V b.
Proof.
  intros HV Hb a Ha. split; [by eapply dc_present|].
  pose proof (dc_reference _ HV _ _ Hb) as <-. by apply (dc_round _ HV _ _ _ Hb).
Qed.

(** ** The search for the supported block *)

Lemma first_supported_ext V1 V2 slot f g ancs :
  (∀ a, a ∈ ancs → slot_round slot < br_round a → V1 !! a ≫= f = V2 !! a ≫= g) →
  first_supported V1 slot f ancs = first_supported V2 slot g ancs.
Proof.
  induction ancs as [|a ancs IH]; intros Hfg; simpl; [done|].
  rewrite IH by (intros a' ?; apply Hfg; by right).
  case_bool_decide; [done|]. destruct (br_round a <=? slot_round slot) eqn:Hr; [done|].
  reflect_bools. by rewrite (Hfg a) by (done || left).
Qed.

(** Below the slot's round nothing is supported. *)
Lemma first_supported_low V slot f ancs :
  (∀ a, a ∈ ancs → br_round a < slot_round slot) → first_supported V slot f ancs = None.
Proof.
  induction ancs as [|a ancs IH]; intros Hlow; simpl; [done|].
  assert (br_round a < slot_round slot) as Ha by (apply Hlow; left).
  rewrite bool_decide_eq_false_2 by (intros <-; simpl in Ha; lia).
  rewrite (proj2 (N.leb_le _ _)) by lia. apply IH. intros a' ?. apply Hlow. by right.
Qed.

(** Whatever is supported is at the slot, in the history. *)
Lemma first_supported_Some V slot f ancs r :
  first_supported V slot f ancs = Some r →
  (r ∈ ancs ∧ slot_of_ref r = slot) ∨
  (∃ a b, a ∈ ancs ∧ slot_round slot < br_round a ∧ V !! a = Some b ∧ f b = Some r).
Proof.
  induction ancs as [|a ancs IH]; simpl; [done|].
  case_bool_decide as Hs; [intros [= ->]; left; split; [left|done]|].
  assert (first_supported V slot f ancs = Some r →
    (r ∈ a :: ancs ∧ slot_of_ref r = slot) ∨
    (∃ a' b, a' ∈ a :: ancs ∧ slot_round slot < br_round a' ∧ V !! a' = Some b ∧ f b = Some r)) as Hrest.
  { intros [[? ?]|(a' & b & ? & ?)]%IH; [left; by split; [right|]|right].
    exists a', b. split; [by right|done]. }
  destruct (br_round a <=? slot_round slot) eqn:Hr; [done|]. reflect_bools.
  destruct (V !! a) as [b|] eqn:Hb; simpl; [|done].
  destruct (f b) as [s|] eqn:Hf; [|done]. intros [= ->]. right. exists a, b.
  split; [left|done].
Qed.

Section supported.
Context (V : dag) (HV : dag_closed V).

Lemma parent_complete a x : V !! a = Some x → complete V x ∧ vb_round x = br_round a.
Proof.
  intros Hx. split; [by eapply closed_complete|]. by rewrite <-(dc_reference _ HV _ _ Hx).
Qed.

(** Fuel beyond the distance in rounds changes nothing. *)
Lemma supported_at_enough slot n m b :
  complete V b → vb_round b - slot_round slot < N.of_nat n → (n ≤ m)%nat →
  supported_at V m slot b = supported_at V n slot b.
Proof.
  revert m b. induction n as [|n IH]; intros [|m] b Hb Hn Hm; try lia. simpl.
  apply first_supported_ext. intros a Ha Hr. destruct (Hb a Ha) as [[x Hx] Hlt]. rewrite Hx. simpl.
  destruct (parent_complete a x Hx) as [Hcx Hrx]. apply IH; [done|rewrite Hrx; lia|lia].
Qed.

Lemma supported_at_supported slot n b :
  complete V b → vb_round b - slot_round slot < N.of_nat n →
  supported_at V n slot b = supported V slot b.
Proof. intros Hb Hn. unfold supported. apply supported_at_enough; [done|lia..]. Qed.

Lemma supported_Some slot b r :
  complete V b → supported V slot b = Some r →
  slot_of_ref r = slot ∧ ∃ a, a ∈ vb_ancestors b ∧ history V a r.
Proof.
  unfold supported. generalize (S (N.to_nat (vb_round b - slot_round slot))). intros n.
  revert b. induction n as [|n IH]; intros b Hb; [done|]. simpl.
  intros [[Hr Hs]|(a & x & Ha & Hlt & Hx & Hf)]%first_supported_Some.
  - split; [done|]. exists r. by split.
  - destruct (parent_complete a x Hx) as [Hcx _]. destruct (IH x Hcx Hf) as (Hs & a' & Ha' & Hh).
    split; [done|]. exists a. split; [done|]. eapply rtc_l; [|done]. by exists x.
Qed.

(** In the round after the slot's, what is supported is a direct ancestor. *)
Lemma supported_next_round slot b r :
  complete V b → vb_round b ≤ slot_round slot + 1 → supported V slot b = Some r →
  r ∈ vb_ancestors b ∧ slot_of_ref r = slot.
Proof.
  intros Hb Hr. unfold supported. simpl.
  intros [?|(a & x & Ha & Hlt & _)]%first_supported_Some; [done|].
  destruct (Hb a Ha) as [_ ?]. lia.
Qed.

Lemma supported_low slot b :
  complete V b → vb_round b ≤ slot_round slot → supported V slot b = None.
Proof.
  intros Hb Hr. apply first_supported_low. intros a Ha. destruct (Hb a Ha). lia.
Qed.
End supported.

(** ** View independence *)

(** The two views have the same block under the same reference. *)
Definition consistent (V1 V2 : dag) : Prop :=
  ∀ r x y, V1 !! r = Some x → V2 !! r = Some y → x = y.

Lemma consistent_sym V1 V2 : consistent V1 V2 → consistent V2 V1.
Proof. intros Hc r x y Hx Hy. symmetry. by eapply Hc. Qed.

Lemma consistent_refl V : consistent V V.
Proof. intros r x y. congruence. Qed.

(** What a block supports does not depend on the view. *)
Lemma supported_view V1 V2 slot b :
  dag_closed V1 → dag_closed V2 → consistent V1 V2 → complete V1 b → complete V2 b →
  supported V1 slot b = supported V2 slot b.
Proof.
  intros H1 H2 Hc. unfold supported. generalize (S (N.to_nat (vb_round b - slot_round slot))).
  intros n. revert b. induction n as [|n IH]; intros b Hb1 Hb2; [done|]. simpl.
  apply first_supported_ext. intros a Ha _.
  destruct (Hb1 a Ha) as [[x Hx] _], (Hb2 a Ha) as [[y Hy] _]. rewrite Hx, Hy.
  pose proof (Hc _ _ _ Hx Hy) as <-. simpl.
  apply IH; [exact (closed_complete _ _ _ H1 Hx)|exact (closed_complete _ _ _ H2 Hy)].
Qed.

Lemma vote_view V1 V2 leader r :
  dag_closed V1 → dag_closed V2 → consistent V1 V2 → is_Some (V1 !! r) → is_Some (V2 !! r) →
  vote V1 leader r = vote V2 leader r.
Proof.
  intros H1 H2 Hc [x Hx] [y Hy]. unfold vote. rewrite Hx, Hy.
  pose proof (Hc _ _ _ Hx Hy) as <-. rewrite (supported_view V1 V2); [done..| |].
  - exact (closed_complete _ _ _ H1 Hx).
  - exact (closed_complete _ _ _ H2 Hy).
Qed.

Lemma voters_view V1 V2 leader b :
  dag_closed V1 → dag_closed V2 → consistent V1 V2 → complete V1 b → complete V2 b →
  voters V1 leader (vb_ancestors b) = voters V2 leader (vb_ancestors b).
Proof.
  intros H1 H2 Hc Hb1 Hb2. unfold voters. f_equal. f_equal.
  assert (Hall : ∀ a, a ∈ vb_ancestors b → vote V1 leader a = vote V2 leader a).
  { intros a Ha. apply vote_view; [done..|by apply Hb1|by apply Hb2]. }
  clear -Hall. induction (vb_ancestors b) as [|a l IH]; [done|].
  rewrite !filter_cons, (Hall a) by left. rewrite IH; [done|].
  intros a' ?. apply Hall. by right.
Qed.

Lemma certificate_view c V1 V2 leader b :
  dag_closed V1 → dag_closed V2 → consistent V1 V2 → complete V1 b → complete V2 b →
  certificate c V1 leader b = certificate c V2 leader b.
Proof. intros. unfold certificate. by erewrite voters_view. Qed.

(** ** The base committer computes votes and certificates *)

Section computes.
Context {L D : Type} `{LeaderElection L} `{DagReaderSpec D}.
Context (self : BaseCommitter L D).
Let d : D := bc_dag_state self.
Let V : dag := dr_view d.
Let c : Committee := committee (bc_context self).
Context (Hinv : dr_inv d) (Hc : committee_wf c) (Hcc : dr_committee d = c).

Lemma find_in_ancestors_spec slot find f ancs :
  (∀ a, a ∈ ancs → is_Some (V !! a)) →
  (∀ a x, a ∈ ancs → slot_round slot < br_round a → V !! a = Some x → find x = Ok (f x)) →
  find_in_ancestors d slot find ancs = Ok (first_supported V slot f ancs).
Proof.
  induction ancs as [|a ancs IH]; intros Hpres Hf; simpl; [done|].
  assert (Hrest : find_in_ancestors d slot find ancs = Ok (first_supported V slot f ancs)).
  { apply IH; [intros a' ?; apply Hpres; by right|intros a' x ?; apply Hf; by right]. }
  case_bool_decide; [done|]. destruct (br_round a <=? slot_round slot) eqn:Hr; [done|]. reflect_bools.
  rewrite dr_get_block_spec by done. fold V. destruct (Hpres a) as [x Hx]; [left|]. rewrite Hx. simpl.
  rewrite (Hf a x) by (done || left). simpl. by destruct (f x).
Qed.

(** The search terminates within its fuel and finds what the block supports. *)
Lemma find_supported_block_fuel_spec slot fuel b :
  complete V b → vb_round b - slot_round slot < N.of_nat fuel →
  find_supported_block_fuel fuel d slot b = Ok (supported_at V fuel slot b).
Proof.
  pose proof (dr_closed d Hinv) as HV. fold V in HV.
  revert b. induction fuel as [|fuel IH]; intros b Hb Hfuel; [lia|].
  simpl. destruct (vb_round b <? slot_round slot) eqn:Hlow; reflect_bools.
  - rewrite first_supported_low; [done|]. intros a Ha. destruct (Hb a Ha). lia.
  - apply find_in_ancestors_spec; [intros a Ha; by apply Hb|].
    intros a x Ha Hr Hx. destruct (parent_complete V HV a x Hx) as [Hcx Hrx].
    destruct (Hb a Ha) as [_ Hlt]. apply IH; [done|]. rewrite Hrx. lia.
Qed.

Lemma find_supported_block_spec slot b :
  complete V b → find_supported_block self slot b = Ok (supported V slot b).
Proof. intros Hb. unfold find_supported_block. fold d. apply find_supported_block_fuel_spec; [done|lia]. Qed.

Lemma is_vote_spec r b leader :
  V !! r = Some b → is_vote self b leader = Ok (vote V leader r).
Proof.
  intros Hb. pose proof (dr_closed d Hinv) as HV. unfold is_vote, vote. rewrite Hb.
  rewrite find_supported_block_spec; [done|]. by eapply closed_complete.
Qed.

(** A sound cache of votes for the leader block. *)
Definition cache_sound (leader : VerifiedBlock) (all_votes : gmap BlockRef bool) : Prop :=
  ∀ r v, all_votes !! r = Some v → v = vote V leader r.

Lemma cache_sound_insert leader all_votes r :
  cache_sound leader all_votes → cache_sound leader (<[r := vote V leader r]> all_votes).
Proof. intros Hs r' v [[<- <-]|[_ ?]]%lookup_insert_Some; auto. Qed.

Lemma is_certificate_loop_spec leader refs all_votes agg :
  (∀ r, r ∈ refs → is_Some (V !! r)) → cache_sound leader all_votes → aggregator_wf c agg →
  is_threshold QuorumThreshold c (set_stake c (votes agg)) = false →
  ∃ all_votes', is_certificate_loop self leader refs all_votes agg =
      Ok (is_threshold QuorumThreshold c (set_stake c (voters V leader refs ∪ votes agg)), all_votes') ∧
    cache_sound leader all_votes'.
Proof.
  revert all_votes agg. induction refs as [|r refs IH]; intros av agg Hpres Hs Hagg Hno; simpl.
  { exists av. unfold voters. simpl. by rewrite union_empty_l_L, Hno. }
  assert (Hlook : ∃ av', match av !! r with
    | Some vote => Ok (vote, av)
    | None => potential_vote ← dr_get_block (bc_dag_state self) r;
        potential_vote ← expect potential_vote "Block not found in storage";
        vote ← is_vote self potential_vote leader;
        Ok (vote, <[r := vote]> av)
    end = Ok (vote V leader r, av') ∧ cache_sound leader av').
  { destruct (av !! r) as [v|] eqn:Hv; [exists av; by rewrite (Hs _ _ Hv)|].
    rewrite dr_get_block_spec by done. fold d V. destruct (Hpres r) as [b Hb]; [left|].
    rewrite Hb. simpl. rewrite (is_vote_spec r b) by done. simpl.
    eexists. split; [done|by apply cache_sound_insert]. }
  destruct Hlook as (av' & -> & Hs'). cbn [mbind outcome_bind].
  assert (Hpres' : ∀ r', r' ∈ refs → is_Some (V !! r')) by (intros r' ?; apply Hpres; by right).
  rewrite voters_cons. destruct (vote V leader r) eqn:Hv.
  2:{ rewrite union_empty_l_L. by apply IH. }
  destruct (Hpres r) as [b Hb]; [left|].
  assert (Ha : br_author r < committee_size c) by (rewrite <-Hcc; by eapply dr_authors).
  destruct (aggregator_add_Ok c Hc agg (br_author r) Hagg Ha) as (agg' & Hadd & Hvotes & Hwf).
  fold c. rewrite Hadd. cbn [mbind outcome_bind].
  assert ({[br_author r]} ∪ voters V leader refs ∪ votes agg =
    voters V leader refs ∪ votes agg') as -> by (rewrite Hvotes; set_solver).
  rewrite <-Hvotes. destruct (is_threshold QuorumThreshold c (set_stake c (votes agg'))) eqn:E.
  - exists av'. split; [|done]. do 2 f_equal. symmetry. eapply threshold_mono; [|exact E].
    apply set_stake_mono. set_solver.
  - by apply IH.
Qed.

(** [is_certificate] is the certificate predicate, whatever sound cache it is given. *)
Lemma is_certificate_spec b leader all_votes :
  complete V b → cache_sound leader all_votes →
  ∃ all_votes', is_certificate self b leader all_votes = Ok (certificate c V leader b, all_votes') ∧
    cache_sound leader all_votes'.
Proof.
  intros Hb Hs. unfold is_certificate.
  destruct (is_certificate_loop_spec leader (vb_ancestors b) all_votes aggregator_new)
    as (av & -> & Hs'); [intros r Hr; by apply Hb|done|by apply aggregator_new_wf| |].
  { change (votes aggregator_new) with (∅ : gset AuthorityIndex).
    rewrite set_stake_empty. by apply quorum_zero. }
  exists av. split; [|done]. change (votes aggregator_new) with (∅ : gset AuthorityIndex).
  by rewrite union_empty_r_L.
Qed.

Lemma any_certificate_spec leader cs all_votes :
  (∀ b, b ∈ cs → complete V b) → cache_sound leader all_votes →
  any_certificate self leader cs all_votes = Ok (existsb (certificate c V leader) cs).
Proof.
  revert all_votes. induction cs as [|b cs IH]; intros av Hcs Hs; simpl; [done|].
  destruct (is_certificate_spec b leader av) as (av' & -> & Hs'); [apply Hcs; left|done|].
  simpl. destruct (certificate c V leader b); [done|]. simpl.
  apply IH; [|done]. intros b' ?. apply Hcs. by right.
Qed.

(** The authors of the certificates among the blocks. *)
Definition certifiers (leader : VerifiedBlock) (bs : list VerifiedBlock) : gset AuthorityIndex :=
  list_to_set (vb_author <$> filter (λ b, certificate c V leader b = true) bs).

Lemma support_loop_spec leader bs all_votes agg :
  (∀ b, b ∈ bs → complete V b ∧ vb_author b < committee_size c) →
  cache_sound leader all_votes → aggregator_wf c agg →
  is_threshold QuorumThreshold c (set_stake c (votes agg)) = false →
  support_loop self leader bs all_votes agg =
    Ok (is_threshold QuorumThreshold c (set_stake c (certifiers leader bs ∪ votes agg))).
Proof.
  revert all_votes agg. induction bs as [|b bs IH]; intros av agg Hbs Hs Hagg Hno; simpl.
  { unfold certifiers. simpl. by rewrite union_empty_l_L, Hno. }
  destruct (Hbs b) as [Hb Ha]; [left|].
  destruct (is_certificate_spec b leader av) as (av' & -> & Hs'); [done..|]. cbn [mbind outcome_bind].
  assert (Hbs' : ∀ b, b ∈ bs → complete V b ∧ vb_author b < committee_size c)
    by (intros b' ?; apply Hbs; by right).
  assert (Hcons : certifiers leader (b :: bs) =
    (if certificate c V leader b then {[vb_author b]} else ∅) ∪ certifiers leader bs).
  { unfold certifiers. rewrite filter_cons.
    destruct (certificate c V leader b); simpl; [done|]. by rewrite union_empty_l_L. }
  rewrite Hcons. destruct (certificate c V leader b).
  2:{ rewrite union_empty_l_L. by apply IH. }
  destruct (aggregator_add_Ok c Hc agg (vb_author b) Hagg Ha) as (agg' & Hadd & Hvotes & Hwf).
  fold c. simpl. rewrite Hadd. cbn [mbind outcome_bind].
  assert ({[vb_author b]} ∪ certifiers leader bs ∪ votes agg =
    certifiers leader bs ∪ votes agg') as -> by (rewrite Hvotes; set_solver).
  rewrite <-Hvotes. destruct (is_threshold QuorumThreshold c (set_stake c (votes agg'))) eqn:E.
  - f_equal. symmetry. eapply threshold_mono; [|exact E]. apply set_stake_mono. set_solver.
  - by apply IH.
Qed.
End computes.

(** C33: [is_certificate] computes the certificate predicate of the DAG: a quorum of the
    authors of the block's ancestors vote for the leader, whatever votes the cache
    [all_votes] already holds, as long as they are right; and it leaves the cache right.  In
    particular the search for votes terminates and finds every block it looks for. *)
Theorem is_certificate_cached {L D} `{LeaderElection L} `{DagReaderSpec D}
    (self : BaseCommitter L D) b leader all_votes :
  let d := bc_dag_state self in
  let c := committee (bc_context self) in
  dr_inv d → committee_wf c → dr_committee d = c → dr_view d !! reference b = Some b →
  cache_sound self leader all_votes →
  ∃ all_votes', is_certificate self b leader all_votes =
      Ok (certificate c (dr_view d) leader b, all_votes') ∧
    cache_sound self leader all_votes'.
Proof.
  intros d c Hinv Hc Hcc Hb Hs. apply (is_certificate_spec self Hinv Hc Hcc); [|done].
  eapply closed_complete; [by apply dr_closed|done].
Qed.
