(* ===== verification/Decisions.v ===== *)
(** The direct and indirect decision rules ([consensus/core/src/base_committer.rs],
    [try_direct_decide], [try_indirect_decide]) in terms of the DAG: what a decision of a
    validator says about the blocks it has. *)

From stdpp Require Import base strings numbers sorting gmap sets relations list.
From S2P Require Import Prelude Committee Block Dag StakeAggregator Commit DagReader BaseCommitter Votes.

Open Scope N_scope.

(** ** Quorums of blocks *)

(** Authorities with a quorum of stake each have a block of the round that satisfies [P]. *)
Definition quorum_at (c : Committee) (V : dag) (round : Round) (P : VerifiedBlock → Prop) : Prop :=
  ∃ s : gset AuthorityIndex, reached_quorum c (set_stake c s) = true ∧
    ∀ h, h ∈ s → ∃ b, V !! reference b = Some b ∧ vb_round b = round ∧ vb_author b = h ∧ P b.

(** Enough blame to skip the slot directly. *)
Definition blame_quorum (c : Committee) (V : dag) (slot : Slot) : Prop :=
  quorum_at c V (slot_round slot + 1) (λ b, is_blame (slot_authority slot) b = true).

(** Enough certificates, in the decision round, to commit the leader directly. *)
Definition support_quorum (c : Committee) (V : dag) (decision : Round) (leader : VerifiedBlock) : Prop :=
  quorum_at c V decision (λ b, certificate c V leader b = true).

(** The anchor's history has a certificate for the leader in the decision round. *)
Definition certified_link (c : Committee) (V : dag) (decision : Round)
    (anchor leader : VerifiedBlock) : Prop :=
  ∃ b, V !! reference b = Some b ∧ vb_round b = decision ∧
    (∃ a, a ∈ vb_ancestors anchor ∧ history V a (reference b)) ∧
    certificate c V leader b = true.

Lemma set_stake_union_le c s1 s2 : set_stake c (s1 ∪ s2) ≤ set_stake c s1 + set_stake c s2.
Proof. pose proof (set_stake_union_inter c s1 s2). lia. Qed.

Lemma set_stake_list_le c l :
  (∀ i, i ∈ l → i < committee_size c) → set_stake c (list_to_set l) ≤ sum_N (stake_of c) l.
Proof.
  induction l as [|i l IH]; intros Hl; simpl; [by rewrite set_stake_empty|].
  etrans; [apply set_stake_union_le|]. apply N.add_le_mono.
  - pose proof (set_stake_insert c i ∅) as Hi. rewrite union_empty_r_L, set_stake_empty in Hi.
    rewrite Hi; [lia|apply Hl; left|set_solver].
  - apply IH. intros j ?. apply Hl. by right.
Qed.

(** A quorum of the authors of a list of blocks. *)
Lemma quorum_of_list c V round P `{∀ b, base.Decision (P b)} l :
  (∀ b, b ∈ l ↔ V !! reference b = Some b ∧ vb_round b = round) →
  reached_quorum c (set_stake c (list_to_set (vb_author <$> filter P l))) = true ↔
  quorum_at c V round P.
Proof.
  intros Hl. split.
  - intros Hq. exists (list_to_set (vb_author <$> filter P l)). split; [done|].
    intros h (b & -> & [HP Hb]%list_elem_of_filter)%elem_of_list_to_set%list_elem_of_fmap.
    apply Hl in Hb as []. eauto.
  - intros (s & Hq & Hs). unfold reached_quorum in *. rewrite N.leb_le in *.
    etrans; [exact Hq|]. apply set_stake_mono. intros h (b & ? & ? & <- & ?)%Hs.
    apply elem_of_list_to_set, list_elem_of_fmap. exists b.
    rewrite list_elem_of_filter, Hl. done.
Qed.

Lemma view_list_size (V : dag) l :
  NoDup l → (∀ b, b ∈ l → V !! reference b = Some b) → (length l ≤ size V)%nat.
Proof.
  intros Hnd Hl. rewrite <-length_map_to_list.
  rewrite <-(length_fmap (λ b, (reference b, b)) l).
  apply submseteq_length, NoDup_submseteq.
  - apply (NoDup_fmap_1 snd). rewrite <-list_fmap_compose. by rewrite list_fmap_id.
  - intros p (b & -> & Hb)%list_elem_of_fmap. by apply elem_of_map_to_list, Hl.
Qed.

Section decisions.
Context {L D : Type} `{LeaderElection L} `{DagReaderSpec D}.
Context (self : BaseCommitter L D).
Let d : D := bc_dag_state self.
Let V : dag := dr_view d.
Let c : Committee := committee (bc_context self).
Context (Hinv : dr_inv d) (Hc : committee_wf c) (Hcc : dr_committee d = c).

Lemma view_author b : V !! reference b = Some b → vb_author b < committee_size c.
Proof. intros Hb. rewrite <-Hcc. by apply (dr_authors d _ _ Hinv) in Hb. Qed.

Lemma view_complete b : V !! reference b = Some b → complete V b.
Proof. intros Hb. eapply closed_complete; [by apply dr_closed|done]. Qed.

(** Blame is what the voting round says. *)
Lemma enough_leader_blame_spec slot :
  dr_commit_round d < slot_round slot + 1 → slot_round slot + 1 < U32_MAX →
  ∃ res, enough_leader_blame self (slot_round slot + 1) (slot_authority slot) = Ok res ∧
    (res = true ↔ blame_quorum c V slot).
Proof.
  intros Hr Hmax. unfold enough_leader_blame. fold d c.
  destruct (dr_round_spec d _ Hinv Hr Hmax) as (l & -> & _ & Hl). simpl.
  set (bs := filter _ l).
  assert (Hbs : ∀ v, v ∈ vb_author <$> bs → v < committee_size c).
  { intros v (b & -> & [_ [Hb _]%Hl]%list_elem_of_filter)%list_elem_of_fmap. by apply view_author. }
  rewrite aggregate_until_spec; [|done..|by rewrite quorum_zero].
  eexists. split; [done|]. by apply (quorum_of_list c V _ (λ b, is_blame (slot_authority slot) b = true)).
Qed.

Lemma sum_authors_spec (bs : list VerifiedBlock) acc :
  (∀ b, b ∈ bs → vb_author b < committee_size c) →
  ∃ t, foldM (λ total b, stake ← committee_stake c (vb_author b); Ok (total +u64 stake)) acc bs = Ok t ∧
    (acc + N.of_nat (length bs) * total_stake c < 2 ^ 64 → t = acc + sum_N (stake_of c) (vb_author <$> bs)).
Proof.
  revert acc. induction bs as [|b bs IH]; intros acc Hbs; simpl.
  { exists acc. split; [done|]. simpl. lia. }
  rewrite committee_stake_Ok by (apply Hbs; left). simpl.
  destruct (IH (acc +u64 stake_of c (vb_author b))) as (t & -> & Ht).
  { intros b' ?. apply Hbs. by right. }
  exists t. split; [done|]. intros Hov.
  assert (stake_of c (vb_author b) ≤ total_stake c).
  { pose proof (set_stake_insert c (vb_author b) ∅ (Hbs b ltac:(left)) ltac:(set_solver)) as Hi.
    rewrite union_empty_r_L, set_stake_empty in Hi.
    pose proof (set_stake_le_total c {[vb_author b]} Hc). lia. }
  rewrite Ht; rewrite u64_add_small by nia; [|nia].
  change (list_fmap _ _ vb_author bs) with (vb_author <$> bs). lia.
Qed.

(** Support is what the decision round says; the early exit on the stake of the round
    loses nothing as long as the sum of the stakes does not overflow. *)
Lemma enough_leader_support_spec decision leader :
  dr_commit_round d < decision → decision < U32_MAX →
  ∃ res, enough_leader_support self decision leader = Ok res ∧
    (res = true → support_quorum c V decision leader) ∧
    (N.of_nat (size V) * total_stake c < 2 ^ 64 → support_quorum c V decision leader → res = true).
Proof.
  intros Hr Hmax. unfold enough_leader_support. fold d c.
  destruct (dr_round_spec d _ Hinv Hr Hmax) as (l & -> & Hnd & Hl). simpl.
  assert (Hauth : ∀ b, b ∈ l → vb_author b < committee_size c).
  { intros b [Hb _]%Hl. by apply view_author. }
  destruct (sum_authors_spec l 0 Hauth) as (t & -> & Ht). simpl.
  assert (Hloop : support_loop self leader l ∅ aggregator_new =
    Ok (reached_quorum c (set_stake c (certifiers self leader l)))).
  { rewrite (support_loop_spec self Hinv Hc Hcc).
    - change (votes aggregator_new) with (∅ : gset AuthorityIndex). by rewrite union_empty_r_L.
    - intros b Hb. split; [|by apply Hauth]. apply view_complete. by apply Hl.
    - done.
    - by apply aggregator_new_wf.
    - change (votes aggregator_new) with (∅ : gset AuthorityIndex). rewrite set_stake_empty.
      by apply quorum_zero. }
  pose proof (quorum_of_list c V decision (λ b, certificate c V leader b = true) l Hl) as Hq.
  change (list_to_set (vb_author <$> filter (λ b, certificate c V leader b = true) l))
    with (certifiers self leader l) in Hq.
  destruct (reached_quorum c t) eqn:Ht'; simpl.
  - rewrite Hloop. eexists. split; [done|]. split; [by intros ?%Hq|]. intros _ ?. by apply Hq.
  - eexists. split; [done|]. split; [done|]. intros Hov Hsup%Hq. exfalso.
    assert (Hle : set_stake c (certifiers self leader l) ≤ t).
    { rewrite Ht, N.add_0_l.
      - etrans; [|apply set_stake_list_le].
        + apply set_stake_mono. intros h. unfold certifiers.
          rewrite !elem_of_list_to_set, !list_elem_of_fmap. setoid_rewrite list_elem_of_filter. naive_solver.
        + intros i (b & -> & Hb)%list_elem_of_fmap. by apply Hauth.
      - assert (length l ≤ size V)%nat by (apply view_list_size; [done|by intros b [? _]%Hl]). nia. }
    unfold reached_quorum in *. reflect_bools. lia.
Qed.

(** ** Rounds of a wave *)

(** The options of a committer, in the range of their type. *)
Definition options_ok : Prop :=
  MINIMUM_WAVE_LENGTH ≤ wave_length (bc_options self) ∧
  wave_length (bc_options self) < 2 ^ 32 ∧ round_offset (bc_options self) < 2 ^ 32.

(** A round in which the committer has a leader, with room for its wave. *)
Definition leader_slot_ok (slot : Slot) : Prop :=
  leader_round self (wave_number self (slot_round slot)) = slot_round slot ∧
  slot_round slot + wave_length (bc_options self) < U32_MAX ∧
  dr_commit_round d ≤ slot_round slot.

(** The decision round is the last of the wave that starts with the leader's round. *)
Lemma decision_round_leader slot :
  options_ok → leader_slot_ok slot →
  decision_round self (wave_number self (slot_round slot)) =
    slot_round slot + wave_length (bc_options self) - 1.
Proof.
  unfold options_ok, leader_slot_ok, leader_round, decision_round, wave_number, U32_MAX, MINIMUM_WAVE_LENGTH.
  set (r := slot_round slot). set (wl := wave_length (bc_options self)).
  set (ro := round_offset (bc_options self)). intros (Hwl & Hwl' & Hro) (Hr & Hmax & _).
  assert (Hdiv : (r - ro) / wl * wl ≤ r - ro) by (rewrite N.mul_comm; apply N.Div0.mul_div_le).
  generalize dependent ((r - ro) / wl). intros w Hr Hdiv.
  rewrite (u32_mul_small w wl) in * by lia.
  destruct (decide (ro ≤ r)) as [Hle|Hgt].
  - rewrite (u32_add_small (w * wl) ro) in Hr by lia.
    rewrite (u32_add_small (w * wl) wl) by lia. rewrite u32_sub_small by lia.
    rewrite u32_add_small by lia. lia.
  - assert (w * wl = 0) as Hw0 by lia. rewrite Hw0, u32_add_small in Hr by lia. lia.
Qed.

Lemma minimum_wave : options_ok → 3 ≤ wave_length (bc_options self).
Proof. by intros [? _]. Qed.

(** ** The direct rule *)

Lemma last_filter_unique {A} (l : list A) (P : A → Prop) `{∀ x, base.Decision (P x)} :
  NoDup l → (∀ x y, x ∈ l → y ∈ l → P x → P y → x = y) → (length (filter P l) ≤ 1)%nat.
Proof.
  intros Hnd Huniq. destruct (filter P l) as [|x [|y k]] eqn:Hf; simpl; [lia..|].
  assert (Hin : ∀ z, z ∈ x :: y :: k → P z ∧ z ∈ l) by (intros z; rewrite <-Hf; apply list_elem_of_filter).
  assert (NoDup (x :: y :: k)) as Hnd' by (rewrite <-Hf; by apply NoDup_filter).
  destruct (Hin x) as [? ?]; [left|]. destruct (Hin y) as [? ?]; [right; left|].
  rewrite (Huniq x y) in Hnd' by done. apply NoDup_cons in Hnd' as [Hn _]. exfalso. apply Hn. left.
Qed.

(** What the direct rule decides: a skip is backed by a quorum of blames, a commit by a
    quorum of certificates, and it is the only leader block with them.  It panics only
    when two blocks of the slot are certified. *)
Lemma try_direct_decide_spec slot :
  options_ok → leader_slot_ok slot →
  let decision := slot_round slot + wave_length (bc_options self) - 1 in
  (∀ l1 l2, V !! reference l1 = Some l1 → V !! reference l2 = Some l2 →
     vb_slot l1 = slot → vb_slot l2 = slot →
     support_quorum c V decision l1 → support_quorum c V decision l2 → l1 = l2) →
  ∃ st, try_direct_decide self slot = Ok st ∧
    match st with
    | LSSkip s => s = slot ∧ blame_quorum c V slot
    | LSCommit l => V !! reference l = Some l ∧ vb_slot l = slot ∧ slot_round slot ≠ GENESIS_ROUND ∧
        support_quorum c V decision l ∧ ¬ blame_quorum c V slot
    | LSUndecided s => s = slot ∧ ¬ blame_quorum c V slot ∧
        (N.of_nat (size V) * total_stake c < 2 ^ 64 → slot_round slot ≠ GENESIS_ROUND →
         ∀ l, V !! reference l = Some l → vb_slot l = slot → ¬ support_quorum c V decision l)
    end.
Proof.
  intros Hopt Hslot decision Huniq. unfold try_direct_decide. fold d.
  rewrite decision_round_leader by done. fold decision.
  pose proof (minimum_wave Hopt). destruct Hslot as (_ & Hmax & Hcr).
  rewrite u32_add_small by (unfold U32_MAX in *; lia).
  destruct (enough_leader_blame_spec slot) as (blamed & -> & Hblame); [lia..|]. simpl.
  destruct blamed. { eexists. split; [done|]. simpl. split; [done|]. by apply Hblame. }
  assert (Hnb : ¬ blame_quorum c V slot) by (intros ?%Hblame; done).
  destruct (decide (slot_round slot = GENESIS_ROUND)) as [Hg|Hg].
  { rewrite dr_slot_genesis by done. simpl. eexists. split; [done|]. simpl. by auto. }
  destruct (dr_slot_spec d slot Hinv Hcr Hg) as (l & -> & Hnd & Hl). simpl.
  set (g l := match enough_leader_support self decision l with Ok b => b | _ => false end).
  assert (Hsup : ∀ x, enough_leader_support self decision x = Ok (g x) ∧
    (g x = true → support_quorum c V decision x) ∧
    (N.of_nat (size V) * total_stake c < 2 ^ 64 → support_quorum c V decision x → g x = true)).
  { intros x. unfold g. destruct (enough_leader_support_spec decision x) as (res & -> & ? & ?);
      [unfold decision; lia..|done]. }
  rewrite (filterM_pure _ g) by (intros x _; apply Hsup). cbn [mbind outcome_bind].
  assert (Hlen : (length (filter (λ x, g x = true) l) ≤ 1)%nat).
  { apply last_filter_unique; [done|]. intros x y [Hx Hsx]%Hl [Hy Hsy]%Hl Hgx Hgy.
    apply Huniq; try done; by apply Hsup. }
  rewrite (proj2 (N.ltb_ge _ _)) by lia.
  destruct (last (filter (λ x, g x = true) l)) as [x|] eqn:Hlast.
  - eexists. split; [done|]. simpl.
    assert (x ∈ filter (λ x, g x = true) l) as [Hgx Hx]%list_elem_of_filter.
    { apply last_Some in Hlast as [k ->]. apply elem_of_app. right. by apply list_elem_of_singleton. }
    apply Hl in Hx as [? ?]. split_and!; try done. by apply Hsup.
  - eexists. split; [done|]. simpl. split_and!; [done..|]. intros Hov _ x Hx Hs Hq.
    apply last_None in Hlast. apply (filter_nil_not_elem_of _ _ x Hlast); [by apply Hsup|].
    by apply Hl.
Qed.

(** ** The indirect rule *)

(** What an anchor decides: the leader block with a certified link to the anchor is
    committed, and the slot is skipped when there is none. *)
Lemma decide_leader_from_anchor_spec slot anchor :
  options_ok → leader_slot_ok slot → V !! reference anchor = Some anchor →
  let decision := slot_round slot + wave_length (bc_options self) - 1 in
  (∀ l1 l2, V !! reference l1 = Some l1 → V !! reference l2 = Some l2 →
     vb_slot l1 = slot → vb_slot l2 = slot →
     certified_link c V decision anchor l1 → certified_link c V decision anchor l2 → l1 = l2) →
  ∃ st, decide_leader_from_anchor self anchor slot = Ok st ∧
    match st with
    | LSCommit l => V !! reference l = Some l ∧ vb_slot l = slot ∧ slot_round slot ≠ GENESIS_ROUND ∧
        certified_link c V decision anchor l
    | LSSkip s => s = slot ∧ (slot_round slot ≠ GENESIS_ROUND →
        ∀ l, V !! reference l = Some l → vb_slot l = slot → ¬ certified_link c V decision anchor l)
    | LSUndecided _ => False
    end.
Proof.
  intros Hopt Hslot Hanchor decision Huniq. unfold decide_leader_from_anchor. fold d.
  rewrite decision_round_leader by done. fold decision. destruct Hslot as (_ & _ & Hcr).
  destruct (dr_ancestors_spec d anchor decision Hinv Hanchor) as (cs & Hcs & Hin).
  destruct (decide (slot_round slot = GENESIS_ROUND)) as [Hg|Hg].
  { rewrite dr_slot_genesis by done. simpl. rewrite Hcs. simpl. eexists. split; [done|]. simpl. by auto. }
  destruct (dr_slot_spec d slot Hinv Hcr Hg) as (l & -> & Hnd & Hl). simpl. rewrite Hcs. simpl.
  assert (Hlink : ∀ x, existsb (certificate c V x) cs = true ↔ certified_link c V decision anchor x).
  { intros x. rewrite existsb_exists. split.
    - intros (b & (? & ? & ?)%list_elem_of_In%Hin & Hcert). by exists b.
    - intros (b & ? & ? & ? & ?). exists b. split; [|done]. by apply list_elem_of_In, Hin. }
  rewrite (filterM_pure _ (λ x, existsb (certificate c V x) cs)).
  2:{ intros x _. apply (any_certificate_spec self Hinv Hc Hcc); [|done].
      intros b [Hb _]%Hin. by apply view_complete. }
  cbn [mbind outcome_bind]. set (P := λ x, existsb (certificate c V x) cs = true).
  assert (Hlen : (length (filter P l) ≤ 1)%nat).
  { apply last_filter_unique; [done|]. intros x y [Hx Hsx]%Hl [Hy Hsy]%Hl Hgx Hgy.
    apply Huniq; try done; [exact (proj1 (Hlink x) Hgx)|exact (proj1 (Hlink y) Hgy)]. }
  rewrite (proj2 (N.ltb_ge _ _)) by lia.
  destruct (last (filter P l)) as [x|] eqn:Hlast.
  - eexists. split; [done|]. simpl.
    assert (x ∈ filter P l) as [Hgx Hx%Hl]%list_elem_of_filter.
    { apply last_Some in Hlast as [k ->]. apply elem_of_app. right. by apply list_elem_of_singleton. }
    destruct Hx. split_and!; try done. exact (proj1 (Hlink x) Hgx).
  - eexists. split; [done|]. simpl. split; [done|]. intros _ x Hx Hs Hq.
    apply last_None in Hlast. apply (filter_nil_not_elem_of _ _ x Hlast); [|by apply Hl].
    exact (proj2 (Hlink x) Hq).
Qed.
End decisions.


(** The indirect rule.  With an anchor, [decide_leader_from_anchor] commits the block of
    the slot that has a certificate in the anchor's history, if there is one, and skips the
    slot otherwise; it never leaves the slot undecided. *)
Theorem decide_leader_from_anchor_rule {L D} `{LeaderElection L} `{DagReaderSpec D}
    (self : BaseCommitter L D) slot anchor :
  let d := bc_dag_state self in
  let c := committee (bc_context self) in
  let V := dr_view d in
  let decision := slot_round slot + wave_length (bc_options self) - 1 in
  dr_inv d → committee_wf c → dr_committee d = c → options_ok self → leader_slot_ok self slot →
  slot_round slot ≠ GENESIS_ROUND → V !! reference anchor = Some anchor →
  (∀ l1 l2, V !! reference l1 = Some l1 → V !! reference l2 = Some l2 →
     vb_slot l1 = slot → vb_slot l2 = slot →
     certified_link c V decision anchor l1 → certified_link c V decision anchor l2 → l1 = l2) →
  ∃ st, decide_leader_from_anchor self anchor slot = Ok st ∧ is_decided st = true ∧
    (∀ l, st = LSCommit l ↔
       V !! reference l = Some l ∧ vb_slot l = slot ∧ certified_link c V decision anchor l) ∧
    (st = LSSkip slot ↔
       ∀ l, V !! reference l = Some l → vb_slot l = slot → ¬ certified_link c V decision anchor l).
Proof.
  intros d c V decision Hinv Hc Hcc Hopt Hslot Hg HA Huniq.
  destruct (decide_leader_from_anchor_spec self Hinv Hc Hcc slot anchor Hopt Hslot HA Huniq) as (st & Hst & Hm).
  exists st. split; [done|]. destruct st as [l|s|s]; [| |done].
  - destruct Hm as (Hl & Hs & _ & Hlk). split_and!; [done| |].
    + intros l'. split; [by intros [= <-]|]. intros (? & ? & ?). f_equal. by apply Huniq.
    + split; [done|]. intros Hno. by destruct (Hno l Hl Hs).
  - destruct Hm as [-> Hno]. split_and!; [done| |].
    + intros l. split; [done|]. intros (Hl & Hs & Hlk). by destruct (Hno Hg l Hl Hs).
    + split; [by auto|done].
Qed.
