(* ===== verification/UniversalCommitter.v ===== *)
(** The universal committer ([consensus/core/src/universal_committer.rs]): it runs the
    base committers over the undecided rounds, from the highest down, and returns the
    decided leaders in order. *)

From stdpp Require Import base strings numbers sorting gmap sets list.
From S2P Require Import Prelude Committee Block Commit DagReader BaseCommitter.

Open Scope N_scope.

Record UniversalCommitter (L D : Type) := mkUniversalCommitter {
  uc_context : Context;
  uc_dag_state : D;
  committers : list (BaseCommitter L D);
}.
Arguments mkUniversalCommitter {L D}.
Arguments uc_context {L D}.
Arguments uc_dag_state {L D}.
Arguments committers {L D}.

(** [UniversalCommitterBuilder]. *)
Record UniversalCommitterBuilder (L D : Type) := mkUniversalCommitterBuilder {
  ucb_context : Context;
  ucb_leader_schedule : L;
  ucb_dag_state : D;
  ucb_wave_length : Round;
  ucb_number_of_leaders : N;
  ucb_pipeline : bool;
}.
Arguments mkUniversalCommitterBuilder {L D}.
Arguments ucb_context {L D}.
Arguments ucb_leader_schedule {L D}.
Arguments ucb_dag_state {L D}.
Arguments ucb_wave_length {L D}.
Arguments ucb_number_of_leaders {L D}.
Arguments ucb_pipeline {L D}.

Section universal_committer.
Context {L D : Type} `{LeaderElection L} `{DagReader D}.
Implicit Types self : UniversalCommitter L D.

(** One committer in one round; the state is whether the loops have been left
    ([break 'outer]) and [leaders]. *)
Definition decide_step (last_decided : Slot) (round : Round)
    (st : bool * list (LeaderStatus * Decision)) (committer : BaseCommitter L D) :
    outcome (bool * list (LeaderStatus * Decision)) :=
  let '(stopped, leaders) := st in
  if stopped : bool then Ok (stopped, leaders)
  else
    slot ← elect_leader committer round;
    match slot with
    | None => Ok (false, leaders)
    | Some slot =>
        if bool_decide (slot = last_decided) then Ok (true, leaders)
        else
          status ← try_direct_decide committer slot;
          if is_decided status then Ok (false, (status, Direct) :: leaders)
          else
            status ← try_indirect_decide committer slot leaders.*1;
            Ok (false, (status, Indirect) :: leaders)
    end.

(** The loop over the committers, in reverse, for one round. *)
Definition decide_round self (last_decided : Slot) (st : bool * list (LeaderStatus * Decision))
    (round : Round) : outcome (bool * list (LeaderStatus * Decision)) :=
  foldM (decide_step last_decided round) st (rev (committers self)).

(** The longest prefix of decided leaders.  [update_metrics] looks up the authority. *)
Fixpoint decided_sequence (c : Committee) (leaders : list (LeaderStatus * Decision)) :
    outcome (list DecidedLeader) :=
  match leaders with
  | [] => Ok []
  | (leader, _) :: leaders =>
      if leader_status_round leader =? GENESIS_ROUND then decided_sequence c leaders
      else
        match into_decided_leader leader with
        | None => Ok []
        | Some decided_leader =>
            _ ← committee_authority c (slot_authority (decided_leader_slot decided_leader));
            rest ← decided_sequence c leaders;
            Ok (decided_leader :: rest)
        end
  end.

Definition try_decide self (last_decided : Slot) : outcome (list DecidedLeader) :=
  let highest_accepted_round := dr_highest_accepted_round (uc_dag_state self) in
  '(_, leaders) ← foldM (decide_round self last_decided) (false, [])
      (rev (range_inclusive (slot_round last_decided) (highest_accepted_round - 2)));
  decided_sequence (committee (uc_context self)) leaders.

(** [get_leaders]. *)
Definition get_leaders self (round : Round) : outcome (list AuthorityIndex) :=
  slots ← mapM (λ committer, elect_leader committer round) (committers self);
  Ok (slot_authority <$> omap id slots).

(** [UniversalCommitterBuilder::new], [with_wave_length], [with_number_of_leaders] and
    [with_pipeline]. *)
Definition universal_committer_builder_new (context : Context) (leader_schedule : L) (dag_state : D) :
    UniversalCommitterBuilder L D :=
  mkUniversalCommitterBuilder context leader_schedule dag_state DEFAULT_WAVE_LENGTH 1 false.

Definition with_wave_length (wave_length : Round) (b : UniversalCommitterBuilder L D) :
    UniversalCommitterBuilder L D :=
  mkUniversalCommitterBuilder (ucb_context b) (ucb_leader_schedule b) (ucb_dag_state b)
    wave_length (ucb_number_of_leaders b) (ucb_pipeline b).

Definition with_number_of_leaders (number_of_leaders : N) (b : UniversalCommitterBuilder L D) :
    UniversalCommitterBuilder L D :=
  mkUniversalCommitterBuilder (ucb_context b) (ucb_leader_schedule b) (ucb_dag_state b)
    (ucb_wave_length b) number_of_leaders (ucb_pipeline b).

Definition with_pipeline (pipeline : bool) (b : UniversalCommitterBuilder L D) :
    UniversalCommitterBuilder L D :=
  mkUniversalCommitterBuilder (ucb_context b) (ucb_leader_schedule b) (ucb_dag_state b)
    (ucb_wave_length b) (ucb_number_of_leaders b) pipeline.

(** [0..n]. *)
Definition range_to (n : N) : list N := N.of_nat <$> seq 0 (N.to_nat n).

(** [UniversalCommitterBuilder::build]. *)
Definition universal_committer_build (b : UniversalCommitterBuilder L D) :
    outcome (UniversalCommitter L D) :=
  let pipeline_stages := if ucb_pipeline b then ucb_wave_length b else 1 in
  committers ← foldM (λ committers round_offset,
      foldM (λ committers leader_offset,
          committer ← base_committer_new (ucb_context b) (ucb_leader_schedule b) (ucb_dag_state b)
            (mkBaseCommitterOptions (ucb_wave_length b) (wrap32 leader_offset) round_offset);
          Ok (committers ++ [committer]))
        committers (range_to (ucb_number_of_leaders b)))
    [] (range_to pipeline_stages);
  Ok (mkUniversalCommitter (ucb_context b) (ucb_dag_state b) committers).

End universal_committer.
