(* ===== verification/Pipeline.v ===== *)
(** The committers that [UniversalCommitterBuilder::build]
    ([consensus/core/src/universal_committer.rs]) makes: with pipelining, every round has
    its leaders. *)

From stdpp Require Import base strings numbers sorting gmap sets list.
From S2P Require Import Prelude Committee Block Commit DagReader BaseCommitter UniversalCommitter.

Open Scope N_scope.

Lemma mapM_app {A B} (f : A → outcome B) l1 l2 :
  mapM f (l1 ++ l2) = k1 ← mapM f l1; k2 ← mapM f l2; Ok (k1 ++ k2).
Proof.
  induction l1 as [|x l1 IH]; simpl.
  - by destruct (mapM f l2).
  - rewrite IH. destruct (f x); simpl; [|done..].
    destruct (mapM f l1); simpl; [|done..]. by destruct (mapM f l2).
Qed.

Lemma elem_of_range_to n x : x ∈ range_to n ↔ x < n.
Proof.
  unfold range_to. rewrite list_elem_of_fmap. split.
  - intros (k & -> & Hk%elem_of_seq). lia.
  - intros Hx. exists (N.to_nat x). rewrite elem_of_seq. lia.
Qed.

Lemma NoDup_range_to n : NoDup (range_to n).
Proof. apply NoDup_fmap; [apply _|apply NoDup_seq]. Qed.

Section pipeline.
Context {L D : Type} `{LeaderElection L} `{DagReader D}.
Implicit Types b : UniversalCommitterBuilder L D.

(** The committer of a stage and of a leader of the round. *)
Definition stage_committer b (ro lo : N) : BaseCommitter L D :=
  mkBaseCommitter (ucb_context b) (ucb_leader_schedule b) (ucb_dag_state b)
    (mkBaseCommitterOptions (ucb_wave_length b) (wrap32 lo) ro).

Definition stage_committers b (ro : N) : list (BaseCommitter L D) :=
  stage_committer b ro <$> range_to (ucb_number_of_leaders b).

(** The number of stages: a wave of them with pipelining, else one. *)
Definition stages b : N := if ucb_pipeline b then ucb_wave_length b else 1.

Lemma build_committers b :
  MINIMUM_WAVE_LENGTH ≤ ucb_wave_length b →
  universal_committer_build b =
    Ok (mkUniversalCommitter (ucb_context b) (ucb_dag_state b) (range_to (stages b) ≫= stage_committers b)).
Proof.
  intros Hwl.
  assert (Hnew : ∀ lo ro, base_committer_new (ucb_context b) (ucb_leader_schedule b) (ucb_dag_state b)
    (mkBaseCommitterOptions (ucb_wave_length b) (wrap32 lo) ro) = Ok (stage_committer b ro lo)).
  { intros lo ro. unfold base_committer_new. cbn [wave_length]. by rewrite (proj2 (N.leb_le _ _)). }
  assert (Hinner : ∀ los acc ro, foldM (λ committers leader_offset,
      committer ← base_committer_new (ucb_context b) (ucb_leader_schedule b) (ucb_dag_state b)
        (mkBaseCommitterOptions (ucb_wave_length b) (wrap32 leader_offset) ro);
      Ok (committers ++ [committer])) acc los = Ok (acc ++ (stage_committer b ro <$> los))).
  { induction los as [|lo los IH]; intros acc ro; cbn [foldM]; [by rewrite app_nil_r|].
    rewrite Hnew. cbn [mbind outcome_bind]. rewrite IH, <-app_assoc. done. }
  unfold universal_committer_build.
  assert (Houter : ∀ ros acc, foldM (λ committers round_offset,
      foldM (λ committers leader_offset,
        committer ← base_committer_new (ucb_context b) (ucb_leader_schedule b) (ucb_dag_state b)
          (mkBaseCommitterOptions (ucb_wave_length b) (wrap32 leader_offset) round_offset);
        Ok (committers ++ [committer])) committers (range_to (ucb_number_of_leaders b))) acc ros =
    Ok (acc ++ (ros ≫= stage_committers b))).
  { induction ros as [|ro ros IH]; intros acc; cbn [foldM]; [by rewrite app_nil_r|].
    rewrite Hinner. cbn [mbind outcome_bind]. rewrite IH, <-app_assoc. done. }
  by rewrite Houter.
Qed.

(** Every committer reads the builder's DAG, with its wave length and an offset in the wave. *)
Lemma build_committer_options b uc committer :
  MINIMUM_WAVE_LENGTH ≤ ucb_wave_length b → universal_committer_build b = Ok uc →
  committer ∈ committers uc →
  bc_dag_state committer = ucb_dag_state b ∧ bc_context committer = ucb_context b ∧
  bc_leader_schedule committer = ucb_leader_schedule b ∧
  wave_length (bc_options committer) = ucb_wave_length b ∧
  round_offset (bc_options committer) < ucb_wave_length b.
Proof.
  intros Hwl. rewrite build_committers by done. intros [= <-]. simpl.
  intros (ro & (lo & -> & _)%list_elem_of_fmap & Hro%elem_of_range_to)%list_elem_of_bind.
  split_and!; try done. simpl. unfold stages in Hro. unfold MINIMUM_WAVE_LENGTH in *.
  destruct (ucb_pipeline b); lia.
Qed.

(** The stage whose waves start in the round. *)
Lemma stage_leader_round b ro lo round :
  0 < ucb_wave_length b → ro < ucb_wave_length b → ucb_wave_length b < 2 ^ 32 → round < 2 ^ 32 →
  leader_round (stage_committer b ro lo) (wave_number (stage_committer b ro lo) round) = round ↔
  ro = round mod ucb_wave_length b.
Proof.
  intros Hpos Hro Hwl Hr. unfold leader_round, wave_number. simpl.
  set (wl := ucb_wave_length b) in *.
  pose proof (N.div_mod (round - ro) wl ltac:(lia)) as Hdm.
  pose proof (N.mod_lt (round - ro) wl ltac:(lia)) as Hlt.
  rewrite N.mul_comm in Hdm. set (w := (round - ro) / wl) in *. set (m := (round - ro) mod wl) in *.
  rewrite (u32_mul_small w wl) by lia. destruct (decide (ro ≤ round)) as [Hle|Hgt].
  - rewrite u32_add_small by lia. split.
    + intros Heq. apply N.mod_unique with w; lia.
    + intros Heq. pose proof (N.div_mod round wl ltac:(lia)) as Hdm'. rewrite <-Heq in Hdm'.
      assert (m = 0) as Hm; [|lia]. unfold m.
      assert (round - ro = round / wl * wl) as -> by lia. by apply N.Div0.mod_mul.
  - assert (w * wl = 0) as Hw by lia. rewrite Hw, u32_add_small by lia. split; [lia|].
    intros Heq. assert (round mod wl = round) as Hm by (apply N.mod_small; lia). lia.
Qed.

(** The leaders a schedule gives a round, one per offset. *)
Definition scheduled_leaders b (round : Round) : outcome (list AuthorityIndex) :=
  mapM (λ lo, ls_elect_leader (ucb_leader_schedule b) round (wrap32 lo))
    (range_to (ucb_number_of_leaders b)).

(** The slots the committers are responsible for in a round. *)
Definition elected_slots (cms : list (BaseCommitter L D)) (round : Round) : outcome (list Slot) :=
  slots ← mapM (λ committer, elect_leader committer round) cms; Ok (omap id slots).

Lemma elected_slots_app cms1 cms2 round :
  elected_slots (cms1 ++ cms2) round =
  (s1 ← elected_slots cms1 round; s2 ← elected_slots cms2 round; Ok (s1 ++ s2)).
Proof.
  unfold elected_slots. rewrite mapM_app.
  destruct (mapM _ cms1); simpl; [|done..]. destruct (mapM _ cms2); simpl; [|done..].
  by rewrite omap_app.
Qed.

Lemma elected_slots_cons cm cms round :
  elected_slots (cm :: cms) round =
  (slot ← elect_leader cm round; slots ← elected_slots cms round; Ok (option_list slot ++ slots)).
Proof.
  unfold elected_slots. simpl. destruct (elect_leader cm round) as [[slot|]| |]; simpl; [..|done|done];
    by destruct (mapM _ cms).
Qed.

Definition scheduled_slots b (round : Round) : outcome (list Slot) :=
  l ← scheduled_leaders b round; Ok (mkSlot round <$> (l : list AuthorityIndex)).

(** A stage has the leaders of the rounds its waves start in, and of no other. *)
Lemma stage_leaders b ro round :
  0 < ucb_wave_length b → ro < ucb_wave_length b → ucb_wave_length b < 2 ^ 32 → round < 2 ^ 32 →
  elected_slots (stage_committers b ro) round =
  if bool_decide (ro = round mod ucb_wave_length b)
  then scheduled_slots b round else Ok [].
Proof.
  intros Hpos Hro Hwl Hr. unfold stage_committers, scheduled_slots, scheduled_leaders.
  pose proof (λ lo, stage_leader_round b ro lo round Hpos Hro Hwl Hr) as Hlr.
  case_bool_decide as Heq.
  - induction (range_to (ucb_number_of_leaders b)) as [|lo los IH]; [done|].
    rewrite fmap_cons, elected_slots_cons, IH. unfold elect_leader.
    rewrite (proj2 (Hlr lo) Heq), N.eqb_refl. simpl.
    destruct (ls_elect_leader _ _ _); simpl; [|done..]. by destruct (mapM _ los).
  - induction (range_to (ucb_number_of_leaders b)) as [|lo los IH]; [done|].
    rewrite fmap_cons, elected_slots_cons, IH. unfold elect_leader.
    by rewrite (proj2 (N.eqb_neq _ _)) by by rewrite Hlr.
Qed.

(** The stages before and after the one of the round add nothing. *)
Lemma stages_leaders b ros round :
  0 < ucb_wave_length b → ucb_wave_length b < 2 ^ 32 → round < 2 ^ 32 →
  NoDup ros → (∀ ro, ro ∈ ros → ro < ucb_wave_length b) →
  elected_slots (ros ≫= stage_committers b) round =
  if bool_decide (round mod ucb_wave_length b ∈ ros)
  then scheduled_slots b round else Ok [].
Proof.
  intros Hpos Hwl Hr. induction ros as [|ro ros IH]; intros Hnd Hros; [done|].
  apply NoDup_cons in Hnd as [Hnot Hnd]. cbn [mbind list_bind].
  rewrite elected_slots_app, stage_leaders, IH;
    [|done|intros; apply Hros; by right|lia|apply Hros; left|done..].
  destruct (decide (ro = round mod ucb_wave_length b)) as [<-|Hne].
  - rewrite (bool_decide_eq_true_2 (ro = ro)), (bool_decide_eq_false_2 (ro ∈ ros)),
      (bool_decide_eq_true_2 (ro ∈ ro :: ros)) by (done || left).
    destruct (scheduled_slots b round); simpl; [|done..]. by rewrite app_nil_r.
  - rewrite (bool_decide_eq_false_2 (ro = _)) by done. simpl.
    rewrite (bool_decide_ext (round mod ucb_wave_length b ∈ ro :: ros) (round mod ucb_wave_length b ∈ ros))
      by (rewrite elem_of_cons; naive_solver).
    case_bool_decide; [|done]. by destruct (scheduled_slots b round).
Qed.

(** With pipelining, [get_leaders] gives every round exactly the leaders of the
    schedule, one for each offset, in order: no round is without leaders, and no leader is
    counted by two committers. *)
Theorem get_leaders_pipelined b uc round :
  MINIMUM_WAVE_LENGTH ≤ ucb_wave_length b → ucb_wave_length b < 2 ^ 32 → round < 2 ^ 32 →
  ucb_pipeline b = true → universal_committer_build b = Ok uc →
  get_leaders uc round = scheduled_leaders b round.
Proof.
  intros Hmin Hwl Hr Hp. rewrite build_committers by done. intros [= <-]. unfold MINIMUM_WAVE_LENGTH in Hmin.
  pose proof (stages_leaders b (range_to (stages b)) round ltac:(lia) Hwl Hr (NoDup_range_to _)) as Hs.
  unfold stages in *. rewrite Hp in *.
  rewrite bool_decide_eq_true_2 in Hs by (apply elem_of_range_to, N.mod_lt; lia).
  specialize (Hs ltac:(intros ro; apply elem_of_range_to)).
  unfold elected_slots, scheduled_slots in Hs. unfold get_leaders. cbn [committers].
  destruct (mapM _ (range_to _ ≫= _)), (scheduled_leaders b round);
    cbn [mbind outcome_bind] in *; try congruence.
  injection Hs as Hs. rewrite Hs, <-list_fmap_compose. f_equal. apply list_fmap_id.
Qed.
End pipeline.
