(* ===== verification/Agreement.v ===== *)
(** Agreement between validators: with byzantine authorities of less than a third of the
    stake, two validators that run the commit rules ([consensus/core/src/base_committer.rs],
    [consensus/core/src/universal_committer.rs]) on their own parts of the DAG never decide
    a leader slot differently, and the sequences of leaders they output extend each other. *)

From stdpp Require Import base strings numbers sorting gmap sets relations list.
From S2P Require Import Prelude Committee Block Dag StakeAggregator Commit BlockVerifier DagReader BaseCommitter Votes Decisions UniversalCommitter.

Open Scope N_scope.

(** What block verification and the block manager establish of a DAG. *)
Record valid_dag (c : Committee) (V : dag) : Prop := {
  vd_closed : dag_closed V;
  vd_author r b : V !! r = Some b → br_author r < committee_size c;
  vd_parents r b : V !! r = Some b → 0 < br_round r →
    reached_quorum c (set_stake c (parent_authors (br_round r) (vb_ancestors b))) = true;
}.

(** Honest authorities make one block per round; nobody forges a digest. *)
Record compatible (byz : gset AuthorityIndex) (V1 V2 : dag) : Prop := {
  cp_consistent : consistent V1 V2;
  cp_honest x y : V1 !! reference x = Some x → V2 !! reference y = Some y →
    vb_author x = vb_author y → vb_author x ∉ byz → vb_round x = vb_round y → x = y;
}.

Lemma compatible_sym byz V1 V2 : compatible byz V1 V2 → compatible byz V2 V1.
Proof.
  intros [Hc Hh]. split; [by apply consistent_sym|].
  intros x y Hx Hy Ha Hb Hr. symmetry. apply Hh; congruence.
Qed.

Section quorums.
Context (c : Committee) (Hc : committee_wf c).
Context (byz : gset AuthorityIndex) (Hbyz : set_stake c byz < validity_threshold c).

Lemma quorum_pos s : reached_quorum c s = true → 0 < s.
Proof.
  unfold reached_quorum. rewrite N.leb_le, (wf_quorum _ Hc). generalize (2 * total_stake c / 3). lia.
Qed.

(** A vote that a block two rounds above the leader refers to is in the round between,
    and refers to the leader. *)
Lemma vote_in_between V leader C a :
  valid_dag c V → V !! reference C = Some C → vb_round C = vb_round leader + 2 →
  a ∈ vb_ancestors C → vote V leader a = true →
  ∃ x, V !! a = Some x ∧ reference x = a ∧ vb_round x = vb_round leader + 1 ∧
    supported V (vb_slot leader) x = Some (reference leader) ∧ reference leader ∈ vb_ancestors x.
Proof.
  intros [HV _ _] HC Hround Ha Hvote. unfold vote in Hvote.
  destruct (V !! a) as [x|] eqn:Hx; [|done]. reflect_bools.
  change (slot_of_ref (reference leader)) with (vb_slot leader) in Hvote.
  pose proof (dc_reference _ HV _ _ Hx) as Href.
  pose proof (dc_round _ HV _ _ _ HC Ha) as Hlt. simpl in Hlt.
  pose proof (closed_complete _ _ _ HV Hx) as Hcx.
  assert (Hr : vb_round x = br_round a) by by rewrite <-Href.
  destruct (decide (vb_round x ≤ vb_round leader)) as [Hle|Hgt].
  { by rewrite (supported_low V (vb_slot leader) x Hcx Hle) in Hvote. }
  exists x. split_and!; [done..|lia|done|].
  by apply (supported_next_round V (vb_slot leader) x) in Hvote as [? _]; [|done|simpl; lia].
Qed.

(** Two certificates for the slot, in any two views, certify the same block. *)
Lemma certificate_unique V1 V2 C1 C2 l1 l2 :
  valid_dag c V1 → valid_dag c V2 → compatible byz V1 V2 →
  V1 !! reference C1 = Some C1 → V2 !! reference C2 = Some C2 →
  vb_round C1 = vb_round l1 + 2 → vb_round C2 = vb_round l2 + 2 → vb_slot l1 = vb_slot l2 →
  certificate c V1 l1 C1 = true → certificate c V2 l2 C2 = true → reference l1 = reference l2.
Proof.
  intros HV1 HV2 [Hcons Hhon] HC1 HC2 Hr1 Hr2 Hslot Hq1 Hq2.
  destruct (quorum_overlap_honest c _ _ byz Hc Hbyz Hq1 Hq2) as (h & Hh1 & Hh2 & Hhb & _).
  apply elem_of_voters in Hh1 as (a1 & Ha1 & Hv1 & Hau1), Hh2 as (a2 & Ha2 & Hv2 & Hau2).
  destruct (vote_in_between V1 l1 C1 a1) as (x1 & Hx1 & <- & Hrx1 & Hs1 & _); [done..|].
  destruct (vote_in_between V2 l2 C2 a2) as (x2 & Hx2 & <- & Hrx2 & Hs2 & _); [done..|].
  assert (vb_round l1 = vb_round l2) by (unfold vb_slot in Hslot; congruence).
  assert (x1 = x2) as <- by (apply Hhon; [done|done|simpl in *; congruence..]).
  rewrite (supported_view V1 V2) in Hs1;
    [|apply HV1|apply HV2|done|exact (closed_complete _ _ _ (vd_closed _ _ HV1) Hx1)
     |exact (closed_complete _ _ _ (vd_closed _ _ HV2) Hx2)].
  rewrite Hslot in Hs1. congruence.
Qed.

(** A quorum of blames rules out a certificate, in any view. *)
Lemma blame_no_certificate V1 V2 C l :
  valid_dag c V1 → valid_dag c V2 → compatible byz V1 V2 →
  blame_quorum c V1 (vb_slot l) → V2 !! reference C = Some C → vb_round C = vb_round l + 2 →
  certificate c V2 l C = true → False.
Proof.
  intros HV1 HV2 [Hcons Hhon] (s & Hq1 & Hs) HC Hr Hq2.
  destruct (quorum_overlap_honest c _ _ byz Hc Hbyz Hq1 Hq2) as (h & Hh1 & Hh2 & Hhb & _).
  destruct (Hs h Hh1) as (b & Hb & Hrb & Hab & Hblame).
  apply elem_of_voters in Hh2 as (a & Ha & Hv & Hau).
  destruct (vote_in_between V2 l C a) as (x & Hx & <- & Hrx & _ & Hin); [done..|].
  assert (b = x) as <- by (apply Hhon; [done|done|simpl in *; congruence..]).
  unfold is_blame in Hblame. rewrite forallb_forall in Hblame.
  specialize (Hblame (reference l)). rewrite <-list_elem_of_In in Hblame.
  specialize (Hblame Hin). simpl in Hblame. by rewrite N.eqb_refl in Hblame.
Qed.

(** Every round below a block has a quorum of authors in its history. *)
Lemma history_quorum V X k :
  valid_dag c V → V !! reference X = Some X → k < vb_round X →
  quorum_at c V k (λ b, ∃ a, a ∈ vb_ancestors X ∧ history V a (reference b)).
Proof.
  intros [HV Hauth Hpar]. remember (N.to_nat (vb_round X - k)) as n eqn:Hn.
  revert X Hn. induction n as [|n IH]; intros X Hn HX Hk; [lia|].
  pose proof (Hpar _ _ HX ltac:(simpl; lia)) as Hq. simpl in Hq.
  assert (Hparent : ∀ h, h ∈ parent_authors (vb_round X) (vb_ancestors X) →
    ∃ p, V !! reference p = Some p ∧ reference p ∈ vb_ancestors X ∧ vb_author p = h ∧
      vb_round p + 1 = vb_round X).
  { intros h (a & -> & [Hra Ha]%list_elem_of_filter)%elem_of_list_to_set%list_elem_of_fmap.
    destruct (dc_present _ HV _ _ _ HX Ha) as [p Hp]. exists p.
    pose proof (dc_reference _ HV _ _ Hp) as <-. done. }
  destruct (decide (k + 1 = vb_round X)) as [Heq|Hne].
  - exists (parent_authors (vb_round X) (vb_ancestors X)). split; [done|].
    intros h (p & Hp & Hin & Ha & Hr)%Hparent. exists p. split_and!; [done|lia|done|].
    by exists (reference p).
  - assert (0 < set_stake c (parent_authors (vb_round X) (vb_ancestors X))) as Hpos.
    { by apply quorum_pos. }
    apply set_stake_pos_elem in Hpos as (h & (p & Hp & Hin & Ha & Hr)%Hparent & _).
    destruct (IH p) as (s & Hqs & Hs); [lia|done|lia|]. exists s. split; [done|].
    intros h' (b & Hb & Hrb & Hab & a & Hain & Hh)%Hs. exists b. split_and!; [done..|].
    exists (reference p). split; [done|]. eapply rtc_l; [|done]. by exists p.
Qed.

(** A quorum of certificates in one view gives any later block, in any view, a certified
    link to the leader. *)
Lemma support_certified_link V1 V2 X l :
  valid_dag c V1 → valid_dag c V2 → compatible byz V1 V2 →
  support_quorum c V1 (vb_round l + 2) l → V2 !! reference X = Some X → vb_round l + 2 < vb_round X →
  certified_link c V2 (vb_round l + 2) X l.
Proof.
  intros HV1 HV2 [Hcons Hhon] (s1 & Hq1 & Hs1) HX Hlt.
  destruct (history_quorum V2 X (vb_round l + 2) HV2 HX Hlt) as (s2 & Hq2 & Hs2).
  destruct (quorum_overlap_honest c _ _ byz Hc Hbyz Hq1 Hq2) as (h & Hh1 & Hh2 & Hhb & _).
  destruct (Hs1 h Hh1) as (b & Hb & Hrb & Hab & Hcert).
  destruct (Hs2 h Hh2) as (y & Hy & Hry & Hay & Hlink).
  assert (b = y) as <- by (apply Hhon; congruence).
  exists b. split_and!; [done..|].
  rewrite <-(certificate_view c V1 V2); [done|apply HV1|apply HV2|done| |].
  - exact (closed_complete _ _ _ (vd_closed _ _ HV1) Hb).
  - exact (closed_complete _ _ _ (vd_closed _ _ HV2) Hy).
Qed.

(** A certificate has the block it certifies in its history. *)
Lemma certificate_leader V C l :
  valid_dag c V → V !! reference C = Some C → vb_round C = vb_round l + 2 →
  certificate c V l C = true → is_Some (V !! reference l).
Proof.
  intros HV HC Hr Hq. unfold certificate in Hq.
  assert (0 < set_stake c (voters V l (vb_ancestors C))) as Hpos.
  { by apply quorum_pos. }
  apply set_stake_pos_elem in Hpos as (h & (a & Ha & Hv & _)%elem_of_voters & _).
  destruct (vote_in_between V l C a) as (x & Hx & _ & _ & _ & Hin); [done..|].
  by eapply (dc_present _ (vd_closed _ _ HV)).
Qed.

(** A certified link is the same in any view that has the anchor. *)
Lemma certified_link_view V1 V2 X l decision :
  valid_dag c V1 → valid_dag c V2 → compatible byz V1 V2 →
  V1 !! reference X = Some X → V2 !! reference X = Some X →
  certified_link c V1 decision X l → certified_link c V2 decision X l.
Proof.
  intros HV1 HV2 [Hcons _] HX1 HX2 (b & Hb & Hr & (a & Ha & Hab) & Hcert).
  pose proof (vd_closed _ _ HV1) as HC1. pose proof (vd_closed _ _ HV2) as HC2.
  assert (Hhist : history V2 a (reference b)).
  { assert (is_Some (V2 !! a)) as Hpres by exact (dc_present _ HC2 _ _ _ HX2 Ha).
    clear Ha Hb. induction Hab as [|r1 r2 r3 (x & Hx & Hin) _ IH]; [done|].
    destruct Hpres as [y Hy]. pose proof (Hcons _ _ _ Hx Hy) as <-.
    eapply rtc_l; [by exists x|]. apply IH. exact (dc_present _ HC2 _ _ _ Hy Hin). }
  destruct (history_present V2 HC2 _ _ Hhist (dc_present _ HC2 _ _ _ HX2 Ha)) as [y Hy].
  pose proof (Hcons _ _ _ Hb Hy) as <-.
  exists b. split_and!; [done..|by exists a|].
  rewrite <-(certificate_view c V1 V2); [done..| |].
  - exact (closed_complete _ _ _ HC1 Hb).
  - exact (closed_complete _ _ _ HC2 Hy).
Qed.

Lemma support_certificate V l :
  support_quorum c V (vb_round l + 2) l →
  ∃ C, V !! reference C = Some C ∧ vb_round C = vb_round l + 2 ∧ certificate c V l C = true.
Proof.
  intros (s & Hq & Hs).
  assert (0 < set_stake c s) as Hpos.
  { by apply quorum_pos. }
  apply set_stake_pos_elem in Hpos as (h & (b & ? & ? & _ & ?)%Hs & _). eauto.
Qed.
End quorums.

(** ** Statuses and what justifies them *)

(** The slot a status is about. *)
Definition status_slot (st : LeaderStatus) : Slot :=
  match st with LSCommit b => vb_slot b | LSSkip s => s | LSUndecided s => s end.

Lemma status_slot_round st : slot_round (status_slot st) = leader_status_round st.
Proof. by destruct st. Qed.

(** The anchor for a slot: the first commit from three rounds above, past skips only. *)
Fixpoint anchor_of (slot : Slot) (later : list LeaderStatus) : option VerifiedBlock :=
  match later with
  | [] => None
  | st :: later =>
      if slot_round slot + 3 <=? leader_status_round st then
        match st with
        | LSCommit b => Some b
        | LSSkip _ => anchor_of slot later
        | LSUndecided _ => None
        end
      else anchor_of slot later
  end.

Inductive justified (c : Committee) (V : dag) (slot : Slot) (later : list LeaderStatus) :
    LeaderStatus → Prop :=
| direct_skip : blame_quorum c V slot → justified c V slot later (LSSkip slot)
| direct_commit l :
    V !! reference l = Some l → vb_slot l = slot → slot_round slot ≠ GENESIS_ROUND →
    support_quorum c V (vb_round l + 2) l → justified c V slot later (LSCommit l)
| indirect_skip anchor :
    anchor_of slot later = Some anchor → V !! reference anchor = Some anchor →
    slot_round slot + 3 ≤ vb_round anchor →
    (slot_round slot ≠ GENESIS_ROUND → ∀ l, V !! reference l = Some l → vb_slot l = slot →
       ¬ certified_link c V (vb_round l + 2) anchor l) →
    justified c V slot later (LSSkip slot)
| indirect_commit anchor l :
    anchor_of slot later = Some anchor → V !! reference anchor = Some anchor →
    V !! reference l = Some l → vb_slot l = slot → slot_round slot ≠ GENESIS_ROUND →
    certified_link c V (vb_round l + 2) anchor l → justified c V slot later (LSCommit l)
| undecided : justified c V slot later (LSUndecided slot).

Lemma justified_slot c V slot later st : justified c V slot later st → status_slot st = slot.
Proof. by destruct 1. Qed.

(** Two statuses of one slot that are the same if both are decided. *)
Definition aligned (st1 st2 : LeaderStatus) : Prop :=
  status_slot st1 = status_slot st2 ∧
  (is_decided st1 = true → is_decided st2 = true → st1 = st2).

(** Two sequences of statuses, aligned as far as both go. *)
Fixpoint agree (l1 l2 : list LeaderStatus) : Prop :=
  match l1, l2 with
  | st1 :: l1, st2 :: l2 => aligned st1 st2 ∧ agree l1 l2
  | _, _ => True
  end.

Lemma anchor_agree slot l1 l2 x1 x2 :
  agree l1 l2 → anchor_of slot l1 = Some x1 → anchor_of slot l2 = Some x2 → x1 = x2.
Proof.
  revert l2. induction l1 as [|st1 l1 IH]; intros [|st2 l2]; simpl; try done.
  intros [[Hslot Hdec] Hag]. rewrite <-!status_slot_round, <-Hslot.
  destruct (_ <=? _); [|by apply IH].
  destruct st1, st2; simpl in *; try done; intros H1 H2.
  - specialize (Hdec eq_refl eq_refl). congruence.
  - by specialize (Hdec eq_refl eq_refl).
  - by specialize (Hdec eq_refl eq_refl).
  - by apply (IH l2).
Qed.

Section agreement.
Context (c : Committee) (Hc : committee_wf c).
Context (byz : gset AuthorityIndex) (Hbyz : set_stake c byz < validity_threshold c).

(** A committed leader is certified, in the view that commits it. *)
Lemma commit_certificate V slot later l :
  justified c V slot later (LSCommit l) →
  V !! reference l = Some l ∧ vb_slot l = slot ∧ slot_round slot ≠ GENESIS_ROUND ∧
  ∃ C, V !! reference C = Some C ∧ vb_round C = vb_round l + 2 ∧ certificate c V l C = true.
Proof.
  intros Hj. remember (LSCommit l) as st eqn:Hst. destruct Hj; simplify_eq.
  - split_and!; try done. by eapply support_certificate.
  - match goal with Hlink : certified_link _ _ _ _ _ |- _ => destruct Hlink as (b & ? & ? & _ & ?) end.
    split_and!; try done. eauto.
Qed.

(** If one validator commits a leader, no other decides its slot otherwise. *)
Lemma commit_wins V1 V2 slot later1 later2 l st2 :
  valid_dag c V1 → valid_dag c V2 → compatible byz V1 V2 → agree later1 later2 →
  justified c V1 slot later1 (LSCommit l) → justified c V2 slot later2 st2 →
  is_decided st2 = true → st2 = LSCommit l.
Proof.
  intros HV1 HV2 Hcomp Hag Hj1 Hj2 Hdec.
  destruct (commit_certificate _ _ _ _ Hj1) as (Hl & Hslot & Hgen & C & HC & HrC & Hcert).
  pose proof (cp_consistent _ _ _ Hcomp) as Hcons.
  assert (Hcommit : ∀ l2, justified c V2 slot later2 (LSCommit l2) → l2 = l).
  { intros l2 Hj. destruct (commit_certificate _ _ _ _ Hj) as (Hl2 & Hslot2 & _ & C2 & HC2 & HrC2 & Hcert2).
    assert (reference l = reference l2) as Href
      by (by eapply (certificate_unique c Hc byz Hbyz V1 V2 C C2); try congruence).
    symmetry. eapply Hcons; [exact Hl|]. by rewrite Href. }
  assert (Hlink : ∀ X, V2 !! reference X = Some X → certified_link c V2 (vb_round l + 2) X l →
    V2 !! reference l = Some l).
  { intros X HX (C2 & HC2 & HrC2 & _ & Hcert2).
    edestruct (certificate_leader c) as [l' Hl']; [done..|].
    by rewrite <-(Hcons _ _ _ Hl Hl') in Hl'. }
  remember st2 as st eqn:Hst. destruct Hj2; try done.
  - exfalso. rewrite <-Hslot in *.
    eapply (blame_no_certificate c Hc byz Hbyz V2 V1 C l); try done. by apply compatible_sym.
  - f_equal. apply Hcommit. by apply direct_commit.
  - exfalso.
    assert (Hlk : certified_link c V2 (vb_round l + 2) anchor l).
    { assert (Hrl : vb_round l = slot_round slot) by by rewrite <-Hslot.
      remember (LSCommit l) as st1 eqn:Hst1. destruct Hj1; simplify_eq.
      - eapply (support_certified_link c Hc byz Hbyz V1); try done. lia.
      - assert (anchor0 = anchor) as -> by (by eapply anchor_agree).
        by eapply (certified_link_view c byz V1). }
    match goal with Hno : _ → ∀ _, _ |- _ => by eapply Hno; [|eapply Hlink|..] end.
  - f_equal. apply Hcommit. by eapply indirect_commit.
Qed.

(** Two validators that decide a slot decide it alike. *)
Lemma decisions_agree V1 V2 slot later1 later2 st1 st2 :
  valid_dag c V1 → valid_dag c V2 → compatible byz V1 V2 → agree later1 later2 → agree later2 later1 →
  justified c V1 slot later1 st1 → justified c V2 slot later2 st2 → aligned st1 st2.
Proof.
  intros HV1 HV2 Hcomp Hag Hag' Hj1 Hj2.
  split; [by rewrite (justified_slot _ _ _ _ _ Hj1), (justified_slot _ _ _ _ _ Hj2)|].
  intros Hd1 Hd2. destruct st1 as [l|s|s]; [| |done].
  - symmetry. by apply (commit_wins V1 V2 slot later1 later2).
  - destruct st2 as [l2|s2|s2]; [| |done].
    + apply (commit_wins V2 V1 slot later2 later1); try done. by apply compatible_sym.
    + pose proof (justified_slot _ _ _ _ _ Hj1). pose proof (justified_slot _ _ _ _ _ Hj2). simpl in *.
      congruence.
Qed.
End agreement.
