(* ===== verification/Sequence.v ===== *)
(** The sequence of leaders of [UniversalCommitter::try_decide]
    ([consensus/core/src/universal_committer.rs]): it is returned on every causally complete
    DAG, and two validators' sequences extend each other. *)

From stdpp Require Import base strings numbers sorting gmap sets relations list.
From S2P Require Import Prelude Committee Block Dag StakeAggregator Commit BlockVerifier DagReader BaseCommitter Votes Decisions UniversalCommitter Agreement.

Open Scope N_scope.

(** ** Lists of statuses *)

(** Statuses of the slots, each justified by the ones after it. *)
Fixpoint justified_list (c : Committee) (V : dag) (slots : list Slot) (sts : list LeaderStatus) : Prop :=
  match slots, sts with
  | [], [] => True
  | slot :: slots, st :: sts => justified c V slot sts st ∧ justified_list c V slots sts
  | _, _ => False
  end.

Lemma aligned_sym st1 st2 : aligned st1 st2 → aligned st2 st1.
Proof. intros [? Heq]. split; [done|]. intros. symmetry. by apply Heq. Qed.

Lemma agree_sym l1 l2 : agree l1 l2 → agree l2 l1.
Proof.
  revert l2. induction l1 as [|st1 l1 IH]; intros [|st2 l2]; simpl; try done.
  intros [? ?]. split; [by apply aligned_sym|by apply IH].
Qed.

Lemma justified_list_agree c byz V1 V2 slots extra sts1 sts2 :
  committee_wf c → set_stake c byz < validity_threshold c →
  valid_dag c V1 → valid_dag c V2 → compatible byz V1 V2 →
  justified_list c V1 slots sts1 → justified_list c V2 (slots ++ extra) sts2 → agree sts1 sts2.
Proof.
  intros Hc Hbyz HV1 HV2 Hcomp. revert sts1 sts2.
  induction slots as [|slot slots IH]; intros [|st1 sts1] [|st2 sts2]; simpl; try done.
  intros [Hj1 Hl1] [Hj2 Hl2]. pose proof (IH _ _ Hl1 Hl2) as Hag. split; [|done].
  eapply (decisions_agree c Hc byz Hbyz V1 V2); try done. by apply agree_sym.
Qed.

Lemma justified_list_commit c V slots sts b :
  justified_list c V slots sts → LSCommit b ∈ sts → V !! reference b = Some b.
Proof.
  revert sts. induction slots as [|slot slots IH]; intros [|st sts]; simpl; try done.
  { intros _ []%not_elem_of_nil. }
  intros [Hj Hl] [Heq|Hin]%elem_of_cons; [|by eapply IH].
  rewrite <-Heq in Hj. by inversion Hj.
Qed.

Lemma justified_list_slots c V slots sts :
  justified_list c V slots sts → status_slot <$> sts = slots.
Proof.
  revert sts. induction slots as [|slot slots IH]; intros [|st sts]; simpl; try done.
  intros [Hj%justified_slot Hl%IH]. by rewrite Hj, <-Hl.
Qed.

Lemma anchor_of_Some slot later anchor :
  anchor_of slot later = Some anchor →
  LSCommit anchor ∈ later ∧ slot_round slot + 3 ≤ vb_round anchor.
Proof.
  induction later as [|st later IH]; simpl; [done|].
  destruct (N.leb_spec (slot_round slot + 3) (leader_status_round st)).
  - destruct st; simpl in *; intros Ha; simplify_eq; [split; [left|done]|].
    apply IH in Ha as [? ?]. split; [by right|done].
  - intros [? ?]%IH. split; [by right|done].
Qed.

(** ** The decided prefix *)

Lemma decided_sequence_total c leaders :
  (∀ st, st ∈ leaders.*1 → slot_authority (status_slot st) < committee_size c) →
  ∃ l, decided_sequence c leaders = Ok l.
Proof.
  induction leaders as [|[st dec] leaders IH]; intros Hauth; simpl; [by eexists|].
  destruct IH as [l Hl]; [intros x Hx; apply Hauth; by right|].
  destruct (_ =? _); [by exists l|].
  specialize (Hauth st ltac:(left)).
  destruct st as [b|s|s]; simpl in *; [| |by eexists].
  all: destruct (vec_index_lt (authorities c) _ Hauth) as [a Ha]; unfold committee_authority;
    rewrite Ha; simpl; rewrite Hl; by eexists.
Qed.

(** Aligned statuses give decided prefixes of which one extends the other. *)
Lemma decided_sequence_agree c leaders1 leaders2 l1 l2 :
  agree leaders1.*1 leaders2.*1 →
  decided_sequence c leaders1 = Ok l1 → decided_sequence c leaders2 = Ok l2 →
  l1 `prefix_of` l2 ∨ l2 `prefix_of` l1.
Proof.
  revert leaders2 l1 l2. induction leaders1 as [|[st1 dec1] leaders1 IH]; intros leaders2 l1 l2.
  { intros _ [= <-] _. left. apply prefix_nil. }
  destruct leaders2 as [|[st2 dec2] leaders2]; [intros _ _ [= <-]; right; apply prefix_nil|].
  cbn [fmap list_fmap agree fst decided_sequence]. intros [[Hslot Hdec] Hag].
  rewrite <-!status_slot_round, <-Hslot. destruct (_ =? _); [by apply IH|].
  destruct (into_decided_leader st1) as [d1|] eqn:Hd1; [|intros [= <-] _; left; apply prefix_nil].
  destruct (into_decided_leader st2) as [d2|] eqn:Hd2; [|intros _ [= <-]; right; apply prefix_nil].
  rewrite <-Hdec in Hd2 by (apply into_decided_leader_is_Some; eauto).
  replace d2 with d1 by congruence.
  intros (? & _ & (rest1 & Hr1 & [= <-])%bind_Ok)%bind_Ok (? & _ & (rest2 & Hr2 & [= <-])%bind_Ok)%bind_Ok.
  destruct (IH leaders2 rest1 rest2 Hag Hr1 Hr2); [left|right]; by apply prefix_cons.
Qed.

(** ** The loop *)

(** The slots up to the last decided one, exclusive. *)
Fixpoint slots_until (last_decided : Slot) (slots : list Slot) : list Slot :=
  match slots with
  | [] => []
  | slot :: slots =>
      if bool_decide (slot = last_decided) then [] else slot :: slots_until last_decided slots
  end.

Lemma slots_until_app last_decided l1 l2 :
  last_decided ∉ l1 → slots_until last_decided (l1 ++ l2) = l1 ++ slots_until last_decided l2.
Proof.
  induction l1 as [|s l1 IH]; intros Hn; simpl; [done|].
  apply not_elem_of_cons in Hn as [? ?]. rewrite bool_decide_eq_false_2 by done. by rewrite IH.
Qed.

Lemma slots_until_sub last_decided l s : s ∈ slots_until last_decided l → s ∈ l.
Proof.
  induction l as [|x l IH]; simpl; [done|]. case_bool_decide; [by intros ?%not_elem_of_nil|].
  rewrite !elem_of_cons. naive_solver.
Qed.

Lemma foldM_nested {A B C} (f : B → A → C → outcome A) (cs : list C) (bs : list B) (a : A) :
  foldM (λ a b, foldM (f b) a cs) a bs =
  foldM (λ a p, f p.1 a p.2) a (bs ≫= λ b, pair b <$> cs).
Proof.
  revert a. induction bs as [|b bs IH]; intros a; [done|]. cbn [foldM mbind list_bind].
  rewrite foldM_app.
  assert (Hin : ∀ a, foldM (λ a p, f p.1 a p.2) a (pair b <$> cs) = foldM (f b) a cs).
  { clear. induction cs as [|c cs IH]; intros a; [done|]. cbn.
    destruct (f b a c); [apply IH|done..]. }
  rewrite Hin. destruct (foldM (f b) a cs); [apply IH|done..].
Qed.

Section loop.
Context {L D : Type} `{LeaderElection L} `{DagReaderSpec D}.
Implicit Types self : UniversalCommitter L D.

(** The slot a committer is responsible for in a round. *)
Definition elected (round : Round) (committer : BaseCommitter L D) : option Slot :=
  match elect_leader committer round with Ok slot => slot | _ => None end.

(** What a validator's committer relies on: the committers read its DAG with waves of
    three rounds, the leader schedule elects authorities of the committee, the blocks were
    verified and accepted in causal order, and the rounds are far from overflowing. *)
Record committer_ok (byz : gset AuthorityIndex) self : Prop := {
  co_inv : dr_inv (uc_dag_state self);
  co_committee : dr_committee (uc_dag_state self) = committee (uc_context self);
  co_wf : committee_wf (committee (uc_context self));
  co_byz : set_stake (committee (uc_context self)) byz < validity_threshold (committee (uc_context self));
  co_valid : valid_dag (committee (uc_context self)) (dr_view (uc_dag_state self));
  co_honest : compatible byz (dr_view (uc_dag_state self)) (dr_view (uc_dag_state self));
  co_rounds : dr_highest_accepted_round (uc_dag_state self) + 3 < U32_MAX;
  co_committers committer : committer ∈ committers self →
    bc_dag_state committer = uc_dag_state self ∧ bc_context committer = uc_context self ∧
    wave_length (bc_options committer) = 3 ∧ round_offset (bc_options committer) < 2 ^ 32;
  co_schedule committer round : committer ∈ committers self →
    ∃ authority, ls_elect_leader (bc_leader_schedule committer) round
        (leader_offset (bc_options committer)) = Ok authority ∧
      authority < committee_size (committee (uc_context self));
}.

Context (byz : gset AuthorityIndex) (self : UniversalCommitter L D) (Hok : committer_ok byz self).
Let c : Committee := committee (uc_context self).
Let V : dag := dr_view (uc_dag_state self).

Lemma elect_leader_elected committer round :
  committer ∈ committers self →
  elect_leader committer round = Ok (elected round committer) ∧
  ∀ slot, elected round committer = Some slot →
    slot_round slot = round ∧ slot_authority slot < committee_size c ∧
    leader_round committer (wave_number committer round) = round.
Proof.
  intros Hin. unfold elected, elect_leader.
  destruct (co_schedule _ _ Hok committer round Hin) as (a & Ha & Hlt).
  destruct (N.eqb_spec (leader_round committer (wave_number committer round)) round) as [Heq|]; simpl; [|done].
  rewrite Ha. simpl. split; [done|]. by intros slot [= <-].
Qed.

(** In the validator's DAG at most one block of a slot is certified. *)
Lemma certified_once l1 l2 C1 C2 :
  V !! reference l1 = Some l1 → V !! reference l2 = Some l2 → vb_slot l1 = vb_slot l2 →
  V !! reference C1 = Some C1 → V !! reference C2 = Some C2 →
  vb_round C1 = vb_round l1 + 2 → vb_round C2 = vb_round l2 + 2 →
  certificate c V l1 C1 = true → certificate c V l2 C2 = true → l1 = l2.
Proof.
  intros Hl1 Hl2 Hslot HC1 HC2 Hr1 Hr2 Hc1 Hc2.
  assert (reference l1 = reference l2) as Href.
  { destruct Hok. by apply (certificate_unique c co_wf0 byz co_byz0 V V C1 C2). }
  rewrite Href in Hl1. congruence.
Qed.

(** A slot a committer is responsible for, among those [try_decide] looks at. *)
Lemma elected_slot_ok committer round slot :
  committer ∈ committers self → elected round committer = Some slot →
  dr_commit_round (uc_dag_state self) ≤ round →
  round ≤ dr_highest_accepted_round (uc_dag_state self) - 2 →
  options_ok committer ∧ leader_slot_ok committer slot.
Proof.
  intros Hin Hs Hlo Hhi. destruct (co_committers _ _ Hok committer Hin) as (Hd & _ & Hwl & Hro).
  apply (elect_leader_elected committer round Hin) in Hs as (<- & _ & Hlr).
  pose proof (co_rounds _ _ Hok). unfold options_ok, leader_slot_ok, MINIMUM_WAVE_LENGTH.
  rewrite Hwl, Hd. unfold U32_MAX in *. split_and!; try done; lia.
Qed.

(** The indirect rule looks for the anchor. *)
Lemma try_indirect_decide_anchor (committer : BaseCommitter L D) slot later :
  wave_length (bc_options committer) = 3 → slot_round slot + 3 < U32_MAX →
  try_indirect_decide committer slot later =
    match anchor_of slot later with
    | Some anchor => decide_leader_from_anchor committer anchor slot
    | None => Ok (LSUndecided slot)
    end.
Proof.
  intros Hwl Hr. unfold try_indirect_decide. rewrite Hwl, u32_add_small by (unfold U32_MAX in *; lia).
  induction later as [|st later IH]; simpl; [done|].
  rewrite filter_cons. destruct (_ <=? _); simpl; [|done]. by destruct st.
Qed.

(** The decision for one slot terminates, and it is justified. *)
Lemma decide_slot committer round slot slots leaders :
  committer ∈ committers self → elected round committer = Some slot →
  dr_commit_round (uc_dag_state self) ≤ round →
  round ≤ dr_highest_accepted_round (uc_dag_state self) - 2 →
  justified_list c V slots leaders →
  ∃ st, try_direct_decide committer slot = Ok st ∧
    (is_decided st = true → justified c V slot leaders st) ∧
    (is_decided st = false →
      ∃ st', try_indirect_decide committer slot leaders = Ok st' ∧ justified c V slot leaders st').
Proof.
  intros Hin Hs Hlo Hhi Hjl.
  destruct (elected_slot_ok _ _ _ Hin Hs Hlo Hhi) as [Hopt Hslot].
  destruct (co_committers _ _ Hok committer Hin) as (Hd & Hctx & Hwl & _).
  pose proof (co_inv _ _ Hok) as Hinv. pose proof (co_committee _ _ Hok) as Hcc.
  pose proof (co_wf _ _ Hok) as Hwf. pose proof (co_byz _ _ Hok) as Hbyz. rewrite <-Hd in Hinv, Hcc. rewrite <-Hctx in Hcc, Hwf.
  pose proof (try_direct_decide_spec committer Hinv Hwf Hcc slot Hopt Hslot) as Hdir.
  pose proof (decide_leader_from_anchor_spec committer Hinv Hwf Hcc slot) as Hind.
  rewrite Hwl, Hd, Hctx in *. fold c V in Hdir, Hind. cbv zeta in *.
  assert (Hdec : ∀ l, vb_slot l = slot → slot_round slot + 3 - 1 = vb_round l + 2).
  { intros l <-. simpl. lia. }
  destruct Hdir as (st & -> & Hst).
  { intros l1 l2 ? ? Hs1 Hs2 Hq1 Hq2. rewrite (Hdec l1 Hs1) in Hq1. rewrite (Hdec l2 Hs2) in Hq2.
    eapply support_certificate in Hq1 as (C1 & ? & ? & ?), Hq2 as (C2 & ? & ? & ?);
      try exact Hwf; try exact Hbyz.
    eapply (certified_once l1 l2 C1 C2); congruence. }
  exists st. split; [done|]. split.
  - destruct st as [l|s|s]; simpl; [|intros _|done].
    + intros _. destruct Hst as (? & Hs' & ? & Hq & _). apply direct_commit; try done. by rewrite <-(Hdec l).
    + destruct Hst as [-> ?]. by apply direct_skip.
  - intros _. rewrite try_indirect_decide_anchor; [|done|destruct Hslot as (_ & ? & _); lia].
    destruct (anchor_of slot leaders) as [anchor|] eqn:Hanchor; [|eexists; split; [done|constructor]].
    pose proof (anchor_of_Some _ _ _ Hanchor) as [Hain Har].
    pose proof (justified_list_commit _ _ _ _ _ Hjl Hain) as HA.
    destruct (Hind anchor Hopt Hslot HA) as (st' & -> & Hst').
    { intros l1 l2 ? ? Hs1 Hs2 (C1 & ? & Hr1 & _ & ?) (C2 & ? & Hr2 & _ & ?).
      rewrite (Hdec l1 Hs1) in Hr1. rewrite (Hdec l2 Hs2) in Hr2.
      eapply (certified_once l1 l2 C1 C2); congruence. }
    exists st'. split; [done|]. destruct st' as [l|s|s]; [| |done].
    + destruct Hst' as (? & ? & ? & Hlk). eapply indirect_commit; try done. by rewrite <-(Hdec l).
    + destruct Hst' as (-> & Hno). eapply indirect_skip; try done.
      intros Hg l Hl Hsl. rewrite <-(Hdec l Hsl). by apply Hno.
Qed.

(** The loops leave a justified status for each slot from the last decided one on. *)
Lemma decide_loop last_decided todo slots leaders :
  (∀ round committer, (round, committer) ∈ todo →
     committer ∈ committers self ∧ dr_commit_round (uc_dag_state self) ≤ round ∧
     round ≤ dr_highest_accepted_round (uc_dag_state self) - 2) →
  justified_list c V slots leaders.*1 →
  ∃ stopped leaders',
    foldM (λ st p, decide_step last_decided p.1 st p.2) (false, leaders) todo = Ok (stopped, leaders') ∧
    justified_list c V
      (rev (slots_until last_decided (omap (λ p, elected p.1 p.2) todo)) ++ slots) leaders'.*1.
Proof.
  revert slots leaders. induction todo as [|[round committer] todo IH]; intros slots leaders Htodo Hjl.
  { by eexists _, _. }
  destruct (Htodo round committer ltac:(left)) as (Hin & Hlo & Hhi).
  assert (Htodo' : ∀ r cm, (r, cm) ∈ todo → cm ∈ committers self ∧
    dr_commit_round (uc_dag_state self) ≤ r ∧ r ≤ dr_highest_accepted_round (uc_dag_state self) - 2).
  { intros r cm ?. apply Htodo. by right. }
  cbn [foldM fst snd omap list_omap]. unfold decide_step at 2.
  rewrite (proj1 (elect_leader_elected committer round Hin)). cbn [mbind outcome_bind].
  destruct (elected round committer) as [slot|] eqn:Hs; [|by apply IH].
  cbn [slots_until]. case_bool_decide as Heq.
  { exists true, leaders. split; [|done]. cbn. clear. induction todo as [|p todo IH]; [done|]. simpl. done. }
  destruct (decide_slot _ _ _ _ _ Hin Hs Hlo Hhi Hjl) as (st & -> & Hdirect & Hindirect).
  cbn [mbind outcome_bind rev]. rewrite <-app_assoc. cbn [app].
  destruct (is_decided st).
  - apply (IH (slot :: slots)); [done|]. simpl. auto.
  - destruct Hindirect as (st' & -> & Hj); [done|]. cbn [mbind outcome_bind].
    by apply (IH (slot :: slots)).
Qed.

(** The rounds and committers in the order of the loops. *)
Definition decision_todo (lo hi : Round) : list (Round * BaseCommitter L D) :=
  rev (range_inclusive lo hi) ≫= λ round, pair round <$> rev (committers self).

(** The slots [try_decide] looks at, in ascending order. *)
Definition decision_slots (last_decided : Slot) : list Slot :=
  rev (slots_until last_decided (omap (λ p, elected p.1 p.2)
    (decision_todo (slot_round last_decided) (dr_highest_accepted_round (uc_dag_state self) - 2)))).

Lemma elem_of_decision_todo lo hi round committer :
  (round, committer) ∈ decision_todo lo hi ↔ committer ∈ committers self ∧ lo ≤ round ≤ hi.
Proof.
  unfold decision_todo. rewrite list_elem_of_bind. split.
  - intros (r & (cm & [= -> ->] & Hcm)%list_elem_of_fmap & Hr).
    rewrite elem_of_rev in Hcm. by rewrite elem_of_rev, elem_of_range_inclusive in Hr.
  - intros [Hcm Hr]. exists round. rewrite list_elem_of_fmap. split.
    + exists committer. by rewrite elem_of_rev.
    + by rewrite elem_of_rev, elem_of_range_inclusive.
Qed.

(** [try_decide] returns the decided prefix of a list of justified statuses. *)
Lemma try_decide_statuses last_decided :
  dr_commit_round (uc_dag_state self) ≤ slot_round last_decided →
  ∃ leaders l, justified_list c V (decision_slots last_decided) leaders.*1 ∧
    decided_sequence c leaders = Ok l ∧ try_decide self last_decided = Ok l.
Proof.
  intros Hcr. unfold try_decide, decide_round. rewrite foldM_nested.
  set (lo := slot_round last_decided) in *. set (hi := _ - 2).
  fold (decision_todo lo hi).
  destruct (decide_loop last_decided (decision_todo lo hi) [] []) as (stopped & leaders & -> & Hjl).
  { intros round cm [? ?]%elem_of_decision_todo. split_and!; [done|lia..]. }
  { done. }
  rewrite app_nil_r in Hjl. change (justified_list c V (decision_slots last_decided) leaders.*1) in Hjl. cbn [mbind outcome_bind]. fold c.
  destruct (decided_sequence_total c leaders) as [l Hl].
  { intros st Hst. assert (status_slot st ∈ decision_slots last_decided) as Hin.
    { rewrite <-(justified_list_slots _ _ _ _ Hjl). by apply list_elem_of_fmap_2. }
    unfold decision_slots in Hin. rewrite elem_of_rev in Hin.
    apply slots_until_sub, list_elem_of_omap in Hin as ([r cm] & [Hcm _]%elem_of_decision_todo & Hel).
    by eapply (elect_leader_elected cm r Hcm). }
  by exists leaders, l.
Qed.
End loop.

(** ** What a run decides *)

Lemma decided_sequence_elem c V slots leaders l d :
  justified_list c V slots leaders.*1 → decided_sequence c leaders = Ok l → d ∈ l →
  ∃ later st, justified c V (decided_leader_slot d) later st ∧ into_decided_leader st = Some d.
Proof.
  revert slots l. induction leaders as [|[st dec] leaders IH]; intros [|slot slots] l; simpl; try done.
  { intros _ [= <-] ?%not_elem_of_nil. done. }
  intros [Hj Hjl]. destruct (_ =? _); [by apply (IH slots)|].
  destruct (into_decided_leader st) as [d'|] eqn:Hd; [|by intros [= <-] ?%not_elem_of_nil].
  intros (? & _ & (rest & Hr & [= <-])%bind_Ok)%bind_Ok [->|Hin]%elem_of_cons; [|by apply (IH slots rest)].
  exists leaders.*1, st. split; [|done]. pose proof (justified_slot _ _ _ _ _ Hj) as Hs.
  by destruct st; simplify_eq/=.
Qed.

Lemma decided_sequence_slots c V slots leaders l :
  justified_list c V slots leaders.*1 → decided_sequence c leaders = Ok l →
  (decided_leader_slot <$> l) `prefix_of` filter (λ s, slot_round s ≠ GENESIS_ROUND) slots.
Proof.
  revert slots l. induction leaders as [|[st dec] leaders IH]; intros [|slot slots] l; simpl; try done.
  { intros _ [= <-]. apply prefix_nil. }
  intros [Hj%justified_slot Hjl]. rewrite <-status_slot_round, Hj, filter_cons.
  destruct (N.eqb_spec (slot_round slot) GENESIS_ROUND) as [Hg|Hg].
  { rewrite decide_False by (intros ?; done). by apply IH. }
  rewrite decide_True by done.
  destruct (into_decided_leader st) as [d|] eqn:Hd; [|intros [= <-]; apply prefix_nil].
  intros (? & _ & (rest & Hr & [= <-])%bind_Ok)%bind_Ok. simpl.
  replace (decided_leader_slot d) with slot by by destruct st; simplify_eq/=.
  apply prefix_cons. by apply IH.
Qed.

(** ** Two runs *)

Lemma range_inclusive_split lo mid hi :
  lo ≤ mid + 1 → mid ≤ hi → range_inclusive lo hi = range_inclusive lo mid ++ range_inclusive (mid + 1) hi.
Proof.
  intros Hlo Hhi. unfold range_inclusive.
  replace (N.to_nat (hi + 1 - lo)) with (N.to_nat (mid + 1 - lo) + N.to_nat (hi + 1 - (mid + 1)))%nat by lia.
  rewrite seq_app, fmap_app. f_equal. rewrite Nat.add_0_l.
  pose proof (fmap_add_seq (N.to_nat (mid + 1 - lo)) 0 (N.to_nat (hi + 1 - (mid + 1)))) as Hs.
  rewrite Nat.add_0_r in Hs. rewrite <-Hs, <-list_fmap_compose.
  apply list_fmap_ext. intros i k _. simpl. lia.
Qed.

Section runs.
Context {L D : Type} `{LeaderElection L} `{DagReaderSpec D}.
Implicit Types self : UniversalCommitter L D.

(** The same committers, each over its own DAG. *)
Definition same_election self1 self2 : Prop :=
  Forall2 (λ c1 c2, bc_leader_schedule c1 = bc_leader_schedule c2 ∧ bc_options c1 = bc_options c2)
    (committers self1) (committers self2).

(** The slots of the rounds, in the order of the loops. *)
Definition elections self (lo hi : Round) : list Slot :=
  omap (λ p, elected p.1 p.2) (decision_todo self lo hi).

Lemma elections_round self lo hi slot : slot ∈ elections self lo hi → lo ≤ slot_round slot ≤ hi.
Proof.
  intros ([r cm] & [_ Hr]%elem_of_decision_todo & Hel)%list_elem_of_omap. simpl in Hel.
  unfold elected, elect_leader in Hel. destruct (negb _); [done|].
  destruct (ls_elect_leader _ _ _); by simplify_eq/=.
Qed.

Lemma elections_split self lo mid hi :
  lo ≤ mid + 1 → mid ≤ hi →
  elections self lo hi = elections self (mid + 1) hi ++ elections self lo mid.
Proof.
  intros Hlo Hhi. unfold elections, decision_todo.
  by rewrite (range_inclusive_split lo mid hi), rev_app_distr, bind_app, omap_app.
Qed.

Lemma elections_same self1 self2 lo hi :
  same_election self1 self2 → elections self1 lo hi = elections self2 lo hi.
Proof.
  intros Hsame. unfold elections, decision_todo.
  induction (rev (range_inclusive lo hi)) as [|r rs IH]; [done|].
  cbn [mbind list_bind]. rewrite !omap_app. f_equal; [|done].
  assert (Hrev : Forall2 (λ c1 c2, bc_leader_schedule c1 = bc_leader_schedule c2 ∧
    bc_options c1 = bc_options c2) (rev (committers self1)) (rev (committers self2))).
  { clear IH. induction Hsame; simpl; [done|]. apply Forall2_app; [done|]. by constructor. }
  clear IH Hsame. induction Hrev as [|c1 c2 l1 l2 [Hs Ho] _ IH]; [done|]. cbn.
  assert (elected r c1 = elected r c2) as ->.
  { unfold elected, elect_leader, leader_round, wave_number. by rewrite Hs, Ho. }
  destruct (elected r c2); [f_equal|]; apply IH.
Qed.

(** With more rounds, the slots are the same and more come after. *)
Lemma decision_slots_prefix self1 self2 last_decided :
  same_election self1 self2 →
  dr_highest_accepted_round (uc_dag_state self1) ≤ dr_highest_accepted_round (uc_dag_state self2) →
  decision_slots self1 last_decided `prefix_of` decision_slots self2 last_decided.
Proof.
  intros Hsame Hle. unfold decision_slots.
  fold (elections self1 (slot_round last_decided) (dr_highest_accepted_round (uc_dag_state self1) - 2)).
  fold (elections self2 (slot_round last_decided) (dr_highest_accepted_round (uc_dag_state self2) - 2)).
  set (lo := slot_round last_decided). set (h1 := _ - 2). set (h2 := dr_highest_accepted_round _ - 2).
  destruct (decide (h1 < lo)) as [Hlt|Hge].
  { assert (elections self1 lo h1 = []) as ->; [|apply prefix_nil].
    apply list_nil_subseteq. intros s ?%elections_round. lia. }
  rewrite (elections_split self2 lo h1 h2), (elections_same self1 self2) by (done || lia).
  rewrite slots_until_app, rev_app_distr; [by eexists|].
  intros ?%elections_round. lia.
Qed.

(** Resuming from a later slot, the slots are those after it. *)
Lemma decision_slots_resume self s0 s :
  s ∈ decision_slots self s0 →
  ∃ before, decision_slots self s0 = before ++ s :: decision_slots self s.
Proof.
  unfold decision_slots. set (hi := dr_highest_accepted_round _ - 2).
  fold (elections self (slot_round s0) hi) (elections self (slot_round s) hi).
  rewrite elem_of_rev. intros Hin.
  pose proof (elections_round _ _ _ _ (slots_until_sub _ _ _ Hin)) as Hr.
  assert (Hsplit : ∃ rest, elections self (slot_round s0) hi = elections self (slot_round s) hi ++ rest ∧
    s ∈ elections self (slot_round s) hi).
  { destruct (decide (slot_round s = slot_round s0)) as [Heq|Hne].
    - exists []. rewrite app_nil_r, Heq. split; [done|]. by eapply slots_until_sub.
    - exists (elections self (slot_round s0) (slot_round s - 1)).
      rewrite (elections_split self (slot_round s0) (slot_round s - 1) hi) by lia.
      replace (slot_round s - 1 + 1) with (slot_round s) by lia. split; [done|].
      apply slots_until_sub in Hin. rewrite (elections_split self _ (slot_round s - 1) hi) in Hin by lia.
      replace (slot_round s - 1 + 1) with (slot_round s) in Hin by lia.
      apply elem_of_app in Hin as [?|Hin%elections_round]; [done|lia]. }
  destruct Hsplit as (rest & Heq & Hs). rewrite Heq in *. clear Heq.
  assert (Hfirst : ∃ l1 l2, elections self (slot_round s) hi = l1 ++ s :: l2 ∧ s ∉ l1).
  { apply list_elem_of_split_l in Hs as (l1 & l2 & ? & ?). by exists l1, l2. }
  destruct Hfirst as (l1 & l2 & He & Hn1). rewrite He in *. clear He.
  rewrite (slots_until_app s l1) by done. cbn [slots_until]. rewrite bool_decide_eq_true_2, app_nil_r by done.
  assert (s0 ∉ l1) as Hn0.
  { intros (k1 & k2 & -> & ?)%list_elem_of_split_l. rewrite <-!app_assoc, slots_until_app in Hin by done.
    simpl in Hin. rewrite bool_decide_eq_true_2, app_nil_r in Hin by done. set_solver. }
  rewrite <-app_assoc, slots_until_app in Hin by done. rewrite <-app_assoc, slots_until_app by done.
  cbn [app slots_until] in *. rewrite rev_app_distr.
  case_bool_decide as Hs0; [subst; rewrite app_nil_r in Hin; done|].
  cbn [rev]. rewrite <-app_assoc. cbn [app]. by eexists.
Qed.
End runs.

(** The part of the decided prefix after a slot is the decided prefix of the statuses
    after it. *)
Lemma decided_sequence_after c V before s after leaders pre d rest :
  justified_list c V (before ++ s :: after) leaders.*1 → NoDup (before ++ s :: after) →
  decided_sequence c leaders = Ok (pre ++ d :: rest) → decided_leader_slot d = s →
  ∃ leaders', justified_list c V after leaders'.*1 ∧ decided_sequence c leaders' = Ok rest.
Proof.
  intros Hjl Hnd Hl Hd. revert leaders pre Hjl Hl Hnd.
  induction before as [|s' before IH]; intros [|[st dec] leaders] pre Hjl Hl Hnd; try done;
    pose proof (decided_sequence_slots _ _ _ _ _ Hjl Hl) as Hslots; rewrite fmap_app in Hslots;
    simpl in Hjl; destruct Hjl as [Hj Hjl];
    pose proof (justified_slot _ _ _ _ _ Hj) as Hst; simpl in Hl, Hnd; rewrite <-status_slot_round, Hst in Hl;
    apply NoDup_cons in Hnd as [Hnot Hnd].
  - assert (s ∈ filter (λ s, slot_round s ≠ GENESIS_ROUND) (s :: after)) as [Hg _]%list_elem_of_filter.
    { eapply elem_of_prefix; [|exact Hslots]. rewrite <-Hd. set_solver. }
    rewrite (proj2 (N.eqb_neq _ _)) in Hl by done.
    destruct (into_decided_leader st) as [d'|] eqn:Hd'; [|by destruct pre].
    apply bind_Ok in Hl as (? & _ & (rest' & Hr & Heq)%bind_Ok). injection Heq as Heq.
    destruct pre as [|d0 pre]; simplify_eq/=; [by exists leaders|].
    exfalso. apply Hnot. pose proof (decided_sequence_slots _ _ _ _ _ Hjl Hr) as Hpre.
    assert (decided_leader_slot d ∈ filter (λ s, slot_round s ≠ GENESIS_ROUND) after)
      as [_ ?]%list_elem_of_filter; [|done].
    eapply elem_of_prefix; [|exact Hpre]. set_solver.
  - destruct (_ =? _); [by eapply IH|].
    destruct (into_decided_leader st) as [d'|] eqn:Hd'; [|by destruct pre].
    apply bind_Ok in Hl as (? & _ & (rest' & Hr & Heq)%bind_Ok). injection Heq as Heq.
    destruct pre as [|d0 pre]; simplify_eq/=; [|by eapply IH].
    exfalso. apply Hnot. destruct st; simplify_eq/=; set_solver.
Qed.

Section theorems.
Context {L D : Type} `{LeaderElection L} `{DagReaderSpec D}.

(** Statuses justified in two validators' DAGs for slots of which one list extends the
    other agree, and so do their decided prefixes. *)
Lemma statuses_comparable (byz : gset AuthorityIndex) (self1 self2 : UniversalCommitter L D)
    slots1 slots2 leaders1 leaders2 l1 l2 :
  committer_ok byz self1 → committer_ok byz self2 →
  committee (uc_context self1) = committee (uc_context self2) →
  compatible byz (dr_view (uc_dag_state self1)) (dr_view (uc_dag_state self2)) →
  slots1 `prefix_of` slots2 ∨ slots2 `prefix_of` slots1 →
  justified_list (committee (uc_context self1)) (dr_view (uc_dag_state self1)) slots1 leaders1.*1 →
  justified_list (committee (uc_context self2)) (dr_view (uc_dag_state self2)) slots2 leaders2.*1 →
  decided_sequence (committee (uc_context self1)) leaders1 = Ok l1 →
  decided_sequence (committee (uc_context self2)) leaders2 = Ok l2 →
  l1 `prefix_of` l2 ∨ l2 `prefix_of` l1.
Proof.
  intros Hok1 Hok2 Hc Hcomp Hpre Hj1 Hj2. rewrite <-Hc in *. apply decided_sequence_agree.
  pose proof (co_wf _ _ Hok1). pose proof (co_byz _ _ Hok1). pose proof (co_valid _ _ Hok1).
  pose proof (co_valid _ _ Hok2) as HV2. rewrite <-Hc in HV2.
  destruct Hpre as [[extra ->]|[extra ->]].
  - by eapply (justified_list_agree _ byz (dr_view (uc_dag_state self1)) (dr_view (uc_dag_state self2)) slots1).
  - apply agree_sym.
    eapply (justified_list_agree _ byz (dr_view (uc_dag_state self2)) (dr_view (uc_dag_state self1)) slots2); try done.
    by apply compatible_sym.
Qed.

Lemma decision_slots_comparable (self1 self2 : UniversalCommitter L D) last_decided :
  same_election self1 self2 →
  decision_slots self1 last_decided `prefix_of` decision_slots self2 last_decided ∨
  decision_slots self2 last_decided `prefix_of` decision_slots self1 last_decided.
Proof.
  intros Hsame.
  destruct (N.le_ge_cases (dr_highest_accepted_round (uc_dag_state self1))
    (dr_highest_accepted_round (uc_dag_state self2))); [left|right]; apply decision_slots_prefix; try done.
  eapply Forall2_flip, Forall2_impl; [exact Hsame|]. by intros ? ? [-> ->].
Qed.

(** C7: [try_decide] never panics on a validator's DAG: it returns decisions for the leader
    slots after the last decided one, without gaps (genesis aside), and each block it commits
    is in the DAG and has a certificate there. *)
Theorem try_decide_total (byz : gset AuthorityIndex) (self : UniversalCommitter L D) last_decided :
  committer_ok byz self →
  dr_commit_round (uc_dag_state self) ≤ slot_round last_decided →
  let V := dr_view (uc_dag_state self) in
  ∃ l, try_decide self last_decided = Ok l ∧
    (decided_leader_slot <$> l) `prefix_of`
      filter (λ s, slot_round s ≠ GENESIS_ROUND) (decision_slots self last_decided) ∧
    ∀ b, DLCommit b ∈ l →
      V !! reference b = Some b ∧
      ∃ C, V !! reference C = Some C ∧ vb_round C = vb_round b + 2 ∧
        certificate (committee (uc_context self)) V b C = true.
Proof.
  intros Hok Hcr V. destruct (try_decide_statuses byz self Hok last_decided Hcr) as (leaders & l & Hjl & Hl & ->).
  exists l. split; [done|]. split; [by eapply decided_sequence_slots|].
  intros b Hb. destruct (decided_sequence_elem _ _ _ _ _ _ Hjl Hl Hb) as (later & st & Hj & Hst).
  destruct st; simplify_eq/=. destruct Hok.
  by eapply commit_certificate in Hj as (? & _ & _ & ?).
Qed.

Lemma sequences_comparable (byz : gset AuthorityIndex) (self1 self2 : UniversalCommitter L D) last_decided l1 l2 :
  committer_ok byz self1 → committer_ok byz self2 → same_election self1 self2 →
  committee (uc_context self1) = committee (uc_context self2) →
  compatible byz (dr_view (uc_dag_state self1)) (dr_view (uc_dag_state self2)) →
  dr_commit_round (uc_dag_state self1) ≤ slot_round last_decided →
  dr_commit_round (uc_dag_state self2) ≤ slot_round last_decided →
  try_decide self1 last_decided = Ok l1 → try_decide self2 last_decided = Ok l2 →
  l1 `prefix_of` l2 ∨ l2 `prefix_of` l1.
Proof.
  intros Hok1 Hok2 Hsame Hc Hcomp Hcr1 Hcr2 Hr1 Hr2.
  destruct (try_decide_statuses byz self1 Hok1 last_decided Hcr1) as (leaders1 & l1' & Hj1 & Hl1 & Ht1).
  destruct (try_decide_statuses byz self2 Hok2 last_decided Hcr2) as (leaders2 & l2' & Hj2 & Hl2 & Ht2).
  eapply (statuses_comparable byz self1 self2); try done; [|congruence..].
  by apply decision_slots_comparable.
Qed.

(** C6: Agreement.  Two validators of one committee and one leader schedule, whose DAGs
    agree on the blocks of honest authorities, decide sequences of leaders from the same slot
    of which one extends the other, whatever parts of the DAG each has. *)
Theorem try_decide_agreement (byz : gset AuthorityIndex) (self1 self2 : UniversalCommitter L D) last_decided l1 l2 :
  committer_ok byz self1 → committer_ok byz self2 → same_election self1 self2 →
  committee (uc_context self1) = committee (uc_context self2) →
  compatible byz (dr_view (uc_dag_state self1)) (dr_view (uc_dag_state self2)) →
  dr_commit_round (uc_dag_state self1) ≤ slot_round last_decided →
  dr_commit_round (uc_dag_state self2) ≤ slot_round last_decided →
  try_decide self1 last_decided = Ok l1 → try_decide self2 last_decided = Ok l2 →
  l1 `prefix_of` l2 ∨ l2 `prefix_of` l1.
Proof. apply sequences_comparable. Qed.

(** Agreement over time.  A validator that has already moved on to a later decided
    slot [s] continues with leaders that agree with what any other validator, which decides
    from an earlier slot [s0], decides after [s]. *)
Theorem try_decide_resume (byz : gset AuthorityIndex) (self1 self2 : UniversalCommitter L D) s0 s l1 pre d rest :
  committer_ok byz self1 → committer_ok byz self2 → same_election self1 self2 →
  committee (uc_context self1) = committee (uc_context self2) →
  compatible byz (dr_view (uc_dag_state self1)) (dr_view (uc_dag_state self2)) →
  dr_commit_round (uc_dag_state self1) ≤ slot_round s →
  dr_commit_round (uc_dag_state self2) ≤ slot_round s0 →
  NoDup (decision_slots self2 s0) →
  try_decide self1 s = Ok l1 → try_decide self2 s0 = Ok (pre ++ d :: rest) →
  decided_leader_slot d = s →
  l1 `prefix_of` rest ∨ rest `prefix_of` l1.
Proof.
  intros Hok1 Hok2 Hsame Hc Hcomp Hcr1 Hcr2 Hnd Hr1 Hr2 Hd.
  destruct (try_decide_statuses byz self1 Hok1 s Hcr1) as (leaders1 & l1' & Hj1 & Hl1 & Ht1).
  destruct (try_decide_statuses byz self2 Hok2 s0 Hcr2) as (leaders2 & l2' & Hj2 & Hl2 & Ht2).
  assert (l2' = pre ++ d :: rest) as -> by congruence.
  assert (s ∈ decision_slots self2 s0) as Hin.
  { pose proof (decided_sequence_slots _ _ _ _ _ Hj2 Hl2) as Hpre. rewrite fmap_app in Hpre. simpl in Hpre.
    assert (s ∈ filter (λ s, slot_round s ≠ GENESIS_ROUND) (decision_slots self2 s0))
      as [_ ?]%list_elem_of_filter; [|done].
    eapply elem_of_prefix; [|exact Hpre]. rewrite <-Hd. set_solver. }
  destruct (decision_slots_resume _ _ _ Hin) as [before Heq]. rewrite Heq in Hj2, Hnd.
  destruct (decided_sequence_after _ _ _ _ _ _ _ _ _ Hj2 Hnd Hl2 Hd) as (leaders' & Hj' & Hl').
  eapply (statuses_comparable byz self1 self2); try done; [|congruence].
  by apply decision_slots_comparable.
Qed.
End theorems.
