(* ===== verification/Linearizer.v ===== *)
(** The linearizer ([consensus/core/src/linearizer.rs]): it expands committed leaders into
    sub-dags, the blocks in the leader's history that are not committed yet, in a
    deterministic order, and records a commit for each. *)

From stdpp Require Import base strings numbers sorting gmap sets relations list.
From S2P Require Import Prelude Committee Block Dag StakeAggregator Commit Store DagState DagStateFacts Recovery.

Open Scope N_scope.

Section linearizer.
Context {St : Type} `{Store St} `{Crypto} `{CommitSerializer}.
Implicit Types d : DagState St.

(** The filter on the ancestors: not collected yet, and above the last committed round of
    its author. *)
Definition not_committed (last_committed_rounds : list Round) (committed : gset BlockRef)
    (ancestor : BlockRef) : outcome bool :=
  if bool_decide (ancestor ∈ committed) then Ok false
  else
    last_committed_round ← vec_index last_committed_rounds (br_author ancestor);
    Ok (last_committed_round <? br_round ancestor).

(** [buffer.push(ancestor.clone()); assert!(committed.insert(ancestor.reference()))]. *)
Definition push_ancestor (st : list VerifiedBlock * gset BlockRef) (ancestor : VerifiedBlock) :
    outcome (list VerifiedBlock * gset BlockRef) :=
  let '(buffer, committed) := st in
  _ ← assert_ (bool_decide (reference ancestor ∉ committed))
        "assertion failed: committed.insert(ancestor.reference())";
  Ok (ancestor :: buffer, {[reference ancestor]} ∪ committed).

(** The [while let] loop; the top of [buffer] is the head of the list. *)
Definition collect_step d (last_committed_rounds : list Round)
    (st : list VerifiedBlock * list VerifiedBlock * gset BlockRef) :
    outcome (flow (list VerifiedBlock * list VerifiedBlock * gset BlockRef) (list VerifiedBlock)) :=
  let '(buffer, to_commit, committed) := st in
  match buffer with
  | [] => Ok (Break to_commit)
  | x :: buffer =>
      let to_commit := to_commit ++ [x] in
      refs ← filterM (not_committed last_committed_rounds committed) (vb_ancestors x);
      ancestors ← get_blocks d refs;
      ancestors ← mapM (λ ancestor_opt,
          expect ancestor_opt "We should have all uncommitted blocks in dag state.") ancestors;
      '(buffer, committed) ← foldM push_ancestor (buffer, committed) ancestors;
      Ok (Continue (buffer, to_commit, committed))
  end.

Definition collect_sub_dag_and_commit d (leader_block : VerifiedBlock) :
    outcome (CommittedSubDag * TrustedCommit) :=
  let timestamp_ms := N.max (vb_timestamp_ms leader_block) (last_commit_timestamp_ms d) in
  let leader_block_ref := reference leader_block in
  to_commit ← while_loop (collect_step d (last_committed_rounds d))
                ([leader_block], [], {[leader_block_ref]});
  let to_commit := sort_sub_dag_blocks to_commit in
  let commit := commit_new (last_commit_index d +u32 1) (last_commit_digest d) timestamp_ms
                  leader_block_ref (reference <$> to_commit) in
  match bcs_commit commit with
  | RustErr _ => Panic "Failed to serialize commit"
  | RustOk serialized =>
      let commit := new_trusted commit serialized in
      Ok (committed_sub_dag_new leader_block_ref to_commit timestamp_ms (commit_reference commit), commit)
  end.

(** One iteration of [handle_commit]. *)
Definition handle_commit_step (st : list CommittedSubDag * DagState St) (leader_block : VerifiedBlock) :
    outcome (list CommittedSubDag * DagState St) :=
  let '(committed_sub_dags, d) := st in
  '(sub_dag, commit) ← collect_sub_dag_and_commit d leader_block;
  d ← add_commit d commit;
  Ok (committed_sub_dags ++ [sub_dag], d).

Definition handle_commit d (committed_leaders : list VerifiedBlock) :
    outcome (list CommittedSubDag * DagState St) :=
  '(committed_sub_dags, d) ← foldM handle_commit_step ([], d) committed_leaders;
  d ← (if bool_decide (committed_sub_dags = []) then Ok d else flush d);
  Ok (committed_sub_dags, d).

End linearizer.

(** ** What a sub-dag is *)

(** The reference is above the last committed round of its author. *)
Definition fresh (rounds : list Round) (r : BlockRef) : Prop :=
  ∃ lr, rounds !! N.to_nat (br_author r) = Some lr ∧ lr < br_round r.

(** A parent that is not committed yet. *)
Definition fresh_parent (V : dag) (rounds : list Round) (r1 r2 : BlockRef) : Prop :=
  parent V r1 r2 ∧ fresh rounds r2.

(** The references of the sub-dag of a leader: what it reaches over blocks that are not
    committed yet. *)
Abbreviation sub_dag_of V rounds := (rtc (fresh_parent V rounds)).

(** Blocks name each ancestor once. *)
Definition distinct_ancestors (V : dag) : Prop :=
  ∀ r b, V !! r = Some b → NoDup (vb_ancestors b).

Lemma sub_dag_history V rounds r1 r2 : sub_dag_of V rounds r1 r2 → history V r1 r2.
Proof. intros Hs. eapply rtc_congruence with (f := id); [|exact Hs]. by intros ? ? [? _]. Qed.

Lemma sub_dag_fresh V rounds r1 r2 : sub_dag_of V rounds r1 r2 → r2 = r1 ∨ fresh rounds r2.
Proof. induction 1 as [|r1 r2 r3 [_ Hf] _ IH]; [by left|]. destruct IH as [->|?]; auto. Qed.

(** ** Bounds on sets of references *)

Lemma NoDup_below (l : list N) n : NoDup l → (∀ x, x ∈ l → x < n) → N.of_nat (length l) ≤ n.
Proof.
  intros Hnd Hl. assert (length l ≤ N.to_nat n)%nat; [|lia].
  rewrite <-(length_fmap N.to_nat l). rewrite <-(length_seq (N.to_nat n) 0).
  apply submseteq_length, NoDup_submseteq.
  - apply NoDup_fmap; [apply _|done].
  - intros k (x & -> & Hx)%list_elem_of_fmap. apply elem_of_seq. specialize (Hl x Hx). lia.
Qed.

Lemma ref_code_inj r1 r2 : ref_in_bounds r1 → ref_in_bounds r2 → ref_code r1 = ref_code r2 → r1 = r2.
Proof.
  intros H1 H2 Heq. destruct (decide (r1 = r2)) as [|Hne]; [done|].
  destruct (ord_total r1 r2); [pose proof (ref_code_mono r1 r2)|pose proof (ref_code_mono r2 r1)];
    naive_solver lia.
Qed.

(** There are fewer blocks after genesis than iterations a loop may take. *)
Lemma refs_bound (s : gset BlockRef) :
  (∀ r, r ∈ s → ref_in_bounds r ∧ 0 < br_round r) → N.of_nat (size s) < 2 ^ N.of_nat LOOP_BITS.
Proof.
  intros Hs. pose proof (λ r Hr, ref_code_bound r (proj1 (Hs r Hr))) as Hb.
  assert (1 < 2 ^ N.of_nat LOOP_BITS) as Hpos by done.
  generalize dependent (2 ^ N.of_nat LOOP_BITS). intros n Hb Hpos.
  assert (N.of_nat (length ((λ r, ref_code r - 1) <$> elements s)) ≤ n - 1).
  { apply NoDup_below.
    - apply NoDup_fmap_2_strong; [|apply NoDup_elements].
      intros r1 r2 Hr1%elem_of_elements Hr2%elem_of_elements Heq.
      destruct (Hs r1 Hr1) as [? ?%ref_code_pos], (Hs r2 Hr2) as [? ?%ref_code_pos].
      apply ref_code_inj; [done..|]. lia.
    - intros x (r & -> & Hr%elem_of_elements)%list_elem_of_fmap.
      specialize (Hb r Hr). destruct (Hs r Hr) as [_ ?%ref_code_pos]. lia. }
  rewrite length_fmap in *. unfold size, set_size. simpl. lia.
Qed.

Section collect.
Context {St : Type} `{StoreSpec St} `{Crypto} `{CommitSerializer}.
Implicit Types d : DagState St.

(** The loop's state: the blocks collected and to be visited, each once, are of the
    sub-dag, and the uncommitted ancestors of those collected are among them. *)
Record collecting d (leader : BlockRef) (st : list VerifiedBlock * list VerifiedBlock * gset BlockRef) :
    Prop := {
  cl_refs : list_to_set (reference <$> st.1.1 ++ st.1.2) = st.2;
  cl_once : NoDup (reference <$> st.1.1 ++ st.1.2);
  cl_leader : leader ∈ st.2;
  cl_view b : b ∈ st.1.1 ++ st.1.2 → dag_view d !! reference b = Some b;
  cl_reached r : r ∈ st.2 → sub_dag_of (dag_view d) (last_committed_rounds d) leader r;
  cl_closed b a : b ∈ st.1.2 → a ∈ vb_ancestors b → fresh (last_committed_rounds d) a → a ∈ st.2;
}.

Lemma not_committed_spec d committed a :
  dag_wf d → br_author a < committee_size (committee (context d)) →
  ∃ res, not_committed (last_committed_rounds d) committed a = Ok res ∧
    (res = true ↔ a ∉ committed ∧ fresh (last_committed_rounds d) a).
Proof.
  intros Hwf Ha. unfold not_committed. case_bool_decide as Hin; [eexists; split; [done|]; split; [done|by intros []]|].
  destruct (lookup_lt_is_Some_2 (last_committed_rounds d) (N.to_nat (br_author a))) as [lr Hlr].
  { rewrite (wf_rounds_len _ Hwf). lia. }
  unfold vec_index. rewrite Hlr. simpl. eexists. split; [done|]. rewrite N.ltb_lt. unfold fresh.
  split; [by eauto|]. intros [_ (? & ? & ?)]. by simplify_eq.
Qed.

(** Pushing ancestors that are new, each once. *)
Lemma push_ancestors bs buffer committed :
  NoDup (reference <$> bs) → (∀ b, b ∈ bs → reference b ∉ committed) →
  foldM push_ancestor (buffer, committed) bs =
    Ok (rev bs ++ buffer, list_to_set (reference <$> bs) ∪ committed).
Proof.
  revert buffer committed. induction bs as [|b bs IH]; intros buffer committed Hnd Hnew.
  { simpl. by rewrite union_empty_l_L. }
  apply NoDup_cons in Hnd as [Hb Hnd]. cbn [foldM push_ancestor].
  rewrite bool_decide_eq_true_2 by (apply Hnew; left). cbn [assert_ mbind outcome_bind].
  rewrite IH; [|done|].
  - cbn [rev]. rewrite <-app_assoc. cbn [app]. do 2 f_equal. simpl. set_solver.
  - intros b' Hb'. apply not_elem_of_union. split; [|apply Hnew; by right].
    intros Heq%elem_of_singleton. apply Hb. rewrite <-Heq. by apply list_elem_of_fmap_2.
Qed.

Lemma view_blocks d (refs : list BlockRef) :
  dag_closed (dag_view d) → (∀ r, r ∈ refs → is_Some (dag_view d !! r)) →
  ∃ bs, (λ r, dag_view d !! r) <$> refs = Some <$> bs ∧ reference <$> bs = refs ∧
    ∀ b, b ∈ bs → dag_view d !! reference b = Some b.
Proof.
  intros HV. induction refs as [|r refs IH]; intros Hsome.
  { exists []. split_and!; [done..|]. by intros ? ?%not_elem_of_nil. }
  destruct IH as (bs & Hbs & Hr & Hin); [intros; apply Hsome; by right|].
  destruct (Hsome r ltac:(left)) as [b Hb]. exists (b :: bs). cbn.
  pose proof (dc_reference _ HV _ _ Hb) as Hrb. rewrite Hb, Hrb.
  split_and!; [by f_equal|by f_equal|]. intros b' [?|?]%elem_of_cons; [congruence|auto].
Qed.

(** One iteration finds the uncommitted ancestors of the block popped. *)
Lemma collect_ancestors_step d leader x buffer to_commit committed :
  dag_wf d → dag_closed (dag_view d) → distinct_ancestors (dag_view d) →
  collecting d leader (x :: buffer, to_commit, committed) →
  ∃ bs, collect_step d (last_committed_rounds d) (x :: buffer, to_commit, committed) =
      Ok (Continue (rev bs ++ buffer, to_commit ++ [x], list_to_set (reference <$> bs) ∪ committed)) ∧
    NoDup (reference <$> bs) ∧
    (∀ r, r ∈ reference <$> bs ↔ r ∈ vb_ancestors x ∧ r ∉ committed ∧ fresh (last_committed_rounds d) r) ∧
    (∀ b, b ∈ bs → dag_view d !! reference b = Some b).
Proof.
  intros Hwf HV Hdist Hcl. pose proof (cl_view _ _ _ Hcl x ltac:(left)) as Hx.
  assert (Hpres : ∀ a, a ∈ vb_ancestors x → is_Some (dag_view d !! a)) by eauto using dc_present.
  set (g a := match not_committed (last_committed_rounds d) committed a with Ok res => res | _ => false end).
  assert (Hg : ∀ a, a ∈ vb_ancestors x → not_committed (last_committed_rounds d) committed a = Ok (g a) ∧
    (g a = true ↔ a ∉ committed ∧ fresh (last_committed_rounds d) a)).
  { intros a [b Hb]%Hpres. apply view_reference in Hb as (_ & Hb & _); [|done].
    unfold g. by destruct (not_committed_spec d committed a Hwf Hb) as (res & -> & ?). }
  unfold collect_step. rewrite (filterM_pure _ g) by (intros a Ha; by apply Hg).
  cbn [mbind outcome_bind]. rewrite get_blocks_view by done. cbn [mbind outcome_bind].
  set (refs := filter _ _).
  assert (Hrefs : ∀ r, r ∈ refs ↔ r ∈ vb_ancestors x ∧ r ∉ committed ∧ fresh (last_committed_rounds d) r).
  { intros r. unfold refs. rewrite list_elem_of_filter. split; [intros [? ?]; by split; [|apply Hg]|].
    intros [? ?]. by split; [apply Hg|]. }
  destruct (view_blocks d refs HV) as (bs & Hbs & Hr & Hin); [intros r [? _]%Hrefs; auto|].
  rewrite (proj2 (mapM_expect _ _ _) Hbs). cbn [mbind outcome_bind].
  assert (Hnd : NoDup (reference <$> bs)) by (rewrite Hr; by eapply NoDup_filter, Hdist).
  rewrite push_ancestors; [|done|].
  - cbn [mbind outcome_bind]. exists bs. split_and!; [done..| |done]. by rewrite Hr.
  - intros b Hb%(list_elem_of_fmap_2 reference). rewrite Hr in Hb. by apply Hrefs in Hb as (_ & ? & _).
Qed.

(** An iteration keeps the invariant. *)
Lemma collecting_step d leader x buffer to_commit committed bs :
  collecting d leader (x :: buffer, to_commit, committed) →
  NoDup (reference <$> bs) →
  (∀ r, r ∈ reference <$> bs ↔ r ∈ vb_ancestors x ∧ r ∉ committed ∧ fresh (last_committed_rounds d) r) →
  (∀ b, b ∈ bs → dag_view d !! reference b = Some b) →
  collecting d leader (rev bs ++ buffer, to_commit ++ [x], list_to_set (reference <$> bs) ∪ committed).
Proof.
  intros [Hrefs Hnd Hl Hview Hreach Hclosed] Hndb Hbs Hvb. cbn [fst snd] in *.
  assert (Hperm : (rev bs ++ buffer) ++ to_commit ++ [x] ≡ₚ bs ++ x :: buffer ++ to_commit).
  { rewrite <-Permutation_rev, <-app_assoc. apply Permutation_app_head.
    rewrite (app_assoc buffer), Permutation_app_comm. done. }
  assert (Hx : reference x ∈ committed) by (rewrite <-Hrefs; simpl; set_solver).
  split; cbn [fst snd].
  - erewrite list_to_set_perm_L; [|apply fmap_Permutation; exact Hperm].
    rewrite fmap_app, list_to_set_app_L. by rewrite <-Hrefs.
  - rewrite Hperm, fmap_app. apply NoDup_app. split_and!; [done| |done].
    intros r (_ & Hn & _)%Hbs Hin. apply Hn. rewrite <-Hrefs. by apply elem_of_list_to_set.
  - set_solver.
  - intros b. rewrite Hperm. intros [?|?]%elem_of_app; auto.
  - intros r [Hr%elem_of_list_to_set|Hr]%elem_of_union; [|auto].
    apply Hbs in Hr as (Ha & _ & Hf). eapply rtc_r; [by apply Hreach|]. split; [|done].
    exists x. split; [|done]. apply Hview. left.
  - intros b a [Hb| ->%list_elem_of_singleton]%elem_of_app Ha Hf; apply elem_of_union.
    + right. eauto.
    + destruct (decide (a ∈ committed)); [by right|left]. apply elem_of_list_to_set, Hbs. done.
Qed.

(** The collection terminates with the blocks of the sub-dag, each once. *)
Lemma collect_loop d leader :
  dag_wf d → dag_closed (dag_view d) → distinct_ancestors (dag_view d) →
  dag_view d !! reference leader = Some leader → 0 < vb_round leader →
  ∃ l, while_loop (collect_step d (last_committed_rounds d)) ([leader], [], {[reference leader]}) = Ok l ∧
    NoDup (reference <$> l) ∧
    ∀ b, b ∈ l ↔ dag_view d !! reference b = Some b ∧
      sub_dag_of (dag_view d) (last_committed_rounds d) (reference leader) (reference b).
Proof.
  intros Hwf HV Hdist Hl Hround.
  set (T := filter (λ r, 0 < br_round r) (dom (dag_view d))).
  assert (HT : ∀ r, sub_dag_of (dag_view d) (last_committed_rounds d) (reference leader) r → r ∈ T).
  { intros r Hr. apply elem_of_filter. split.
    - destruct (sub_dag_fresh _ _ _ _ Hr) as [->|(lr & _ & ?)]; [done|lia].
    - apply elem_of_dom. eapply history_present; [done|by eapply sub_dag_history|eauto]. }
  apply (while_loop_measure (collecting d (reference leader)) _
    (λ st, N.of_nat (size T) - N.of_nat (length st.1.2))).
  - intros [[[|x buffer] to_commit] committed] Hcl.
    + eexists. split; [done|]. simpl. destruct Hcl as [Hrefs Hnd Hlead Hview Hreach Hclosed]; simpl in *.
      split; [done|]. intros b. split.
      * intros Hb. split; [auto|]. apply Hreach. rewrite <-Hrefs. apply elem_of_list_to_set.
        by apply list_elem_of_fmap_2.
      * intros [Hb Hr].
        assert (Hall : ∀ r, sub_dag_of (dag_view d) (last_committed_rounds d) (reference leader) r → r ∈ committed).
        { intros r. revert r. apply rtc_ind_r; [done|]. intros y z _ [(y' & Hy & Hz) Hf] Hyc.
          rewrite <-Hrefs in Hyc. apply elem_of_list_to_set, list_elem_of_fmap in Hyc as (y2 & -> & Hy2).
          rewrite (Hview _ Hy2) in Hy. injection Hy as <-. eauto. }
        apply Hall in Hr. rewrite <-Hrefs in Hr.
        apply elem_of_list_to_set, list_elem_of_fmap in Hr as (b' & Heq & Hb').
        assert (b = b') as -> by (apply Hview in Hb'; congruence). done.
    + destruct (collect_ancestors_step d _ _ _ _ _ Hwf HV Hdist Hcl) as (bs & -> & Hnd & Hbs & Hvb).
      eexists. split; [done|]. split; [by eapply collecting_step|]. simpl.
      assert (size committed ≤ size T)%nat as Hle.
      { apply subseteq_size. intros r Hr. apply HT, Hcl, Hr. }
      pose proof (cl_refs _ _ _ Hcl) as Hrefs. pose proof (cl_once _ _ _ Hcl) as Honce.
      cbn [fst snd] in Hrefs, Honce. rewrite <-Hrefs, size_list_to_set, length_fmap in Hle by done.
      cbn [app length] in Hle. rewrite length_app in Hle. rewrite length_app. simpl. lia.
  - split; simpl; [set_solver|apply NoDup_singleton|set_solver| | |].
    + by intros b ->%list_elem_of_singleton.
    + by intros r ->%elem_of_singleton.
    + by intros ? ? ?%not_elem_of_nil.
  - simpl. rewrite N.sub_0_r. apply refs_bound. intros r [Hr [b Hb]%elem_of_dom]%elem_of_filter.
    split; [by eapply dc_bounds|done].
Qed.
End collect.
