(* ===== verification/Linearization.v ===== *)
(** What the linearizer ([consensus/core/src/linearizer.rs]) outputs: the sub-dag of each
    leader, the chain of commits, and that validators with the same leaders output the same
    sub-dags. *)

From stdpp Require Import base strings numbers sorting gmap sets relations list.
From S2P Require Import Prelude Committee Block Dag StakeAggregator Commit Store DagState DagStateFacts Recovery Votes Linearizer.

Open Scope N_scope.

(** BCS encodes every commit. *)
Definition serializes `{CommitSerializer} : Prop := ∀ c, ∃ s, bcs_commit c = RustOk s.

(** Each commit names the digest of the one before it, and their timestamps do not go back. *)
Definition chained (cs : list TrustedCommit) : Prop :=
  ∀ i c c', cs !! i = Some c → cs !! S i = Some c' →
    commit_previous_digest c' = tc_digest c ∧ commit_timestamp_ms c ≤ commit_timestamp_ms c'.

Lemma chained_snoc cs c :
  chained cs →
  (∀ c', last cs = Some c' → commit_previous_digest c = tc_digest c' ∧ commit_timestamp_ms c' ≤ commit_timestamp_ms c) →
  chained (cs ++ [c]).
Proof.
  intros Hcs Hlast i c1 c2 H1 H2. apply lookup_app_Some in H2 as [H2|[Hle H2]].
  - eapply Hcs; [|done]. rewrite lookup_app_l in H1; [done|]. apply lookup_lt_Some in H2. lia.
  - apply list_lookup_singleton_Some in H2 as [Hi ->].
    rewrite lookup_app_l in H1 by lia. apply Hlast. rewrite last_lookup, <-H1. f_equal. lia.
Qed.

(** The blocks of an author are committed in the order of their rounds, and the blocks of a
    commit are below its leader. *)
Record commits_ordered (cs : list TrustedCommit) : Prop := {
  od_author i j c c' r r' : (i < j)%nat → cs !! i = Some c → cs !! j = Some c' →
    r ∈ commit_blocks c → r' ∈ commit_blocks c' → br_author r = br_author r' → br_round r < br_round r';
  od_below c r : c ∈ cs → r ∈ commit_blocks c → r = commit_leader c ∨ br_round r < commit_round c;
}.

Lemma commits_ordered_nil : commits_ordered [].
Proof. split; [done|]. by intros c r ?%not_elem_of_nil. Qed.

Lemma commits_ordered_snoc cs c :
  commits_ordered cs →
  (∀ c0 r r', c0 ∈ cs → r ∈ commit_blocks c0 → r' ∈ commit_blocks c →
     br_author r = br_author r' → br_round r < br_round r') →
  (∀ r, r ∈ commit_blocks c → r = commit_leader c ∨ br_round r < commit_round c) →
  commits_ordered (cs ++ [c]).
Proof.
  intros [Ho Hb] Hnew Hbelow. split.
  - intros i j c1 c2 r r' Hij Hi Hj Hr Hr' Ha. apply lookup_app_Some in Hj as [Hj|[Hle Hj]].
    + rewrite lookup_app_l in Hi by (apply lookup_lt_Some in Hj; lia). by apply (Ho i j c1 c2).
    + apply list_lookup_singleton_Some in Hj as [Hj ->]. rewrite lookup_app_l in Hi by lia.
      apply (Hnew c1); try done. by eapply list_elem_of_lookup_2.
  - intros c' r [?| ->%list_elem_of_singleton]%elem_of_app; [by apply Hb|by apply Hbelow].
Qed.

(** The references of the blocks of a sub-dag. *)
Definition sub_dag_refs (sd : CommittedSubDag) : list BlockRef := reference <$> sd_blocks sd.

Section linearization.
Context {St : Type} `{StoreSpec St} `{Crypto} `{CommitSerializer}.
Implicit Types d : DagState St.

(** The sub-dag and the commit of a leader: exactly the uncommitted blocks it reaches, each
    once, by round and author, under the next index. *)
Record sub_dag_ok d (leader : VerifiedBlock) (sd : CommittedSubDag) (c : TrustedCommit) : Prop := {
  so_leader : sd_leader sd = reference leader ∧ commit_leader c = reference leader;
  so_ref : sd_commit_ref sd = commit_reference c ∧ sd_reputation_scores_desc sd = [];
  so_index : commit_index c = last_commit_index d +u32 1;
  so_digest : commit_previous_digest c = last_commit_digest d;
  so_timestamp : commit_timestamp_ms c = N.max (vb_timestamp_ms leader) (last_commit_timestamp_ms d) ∧
    sd_timestamp_ms sd = commit_timestamp_ms c;
  so_refs : commit_blocks c = reference <$> sd_blocks sd;
  so_once : NoDup (commit_blocks c);
  so_sorted : StronglySorted (λ a b, sub_dag_leb a b = true) (sd_blocks sd);
  so_blocks b : b ∈ sd_blocks sd ↔ dag_view d !! reference b = Some b ∧
    sub_dag_of (dag_view d) (last_committed_rounds d) (reference leader) (reference b);
}.

Lemma collect_spec d leader :
  serializes → dag_wf d → dag_closed (dag_view d) → distinct_ancestors (dag_view d) →
  dag_view d !! reference leader = Some leader → 0 < vb_round leader →
  ∃ sd c, collect_sub_dag_and_commit d leader = Ok (sd, c) ∧ sub_dag_ok d leader sd c.
Proof.
  intros Hser Hwf HV Hdist Hl Hr. unfold collect_sub_dag_and_commit.
  destruct (collect_loop d leader) as (l & -> & Hnd & Hin); [done..|]. cbn [mbind outcome_bind].
  set (commit := commit_new _ _ _ _ _). destruct (Hser commit) as [s ->].
  eexists _, _. split; [done|]. split; try done.
  - change (NoDup (reference <$> sort_sub_dag_blocks l)). by rewrite sort_sub_dag_blocks_perm.
  - apply sort_sub_dag_blocks_sorted.
  - intros b. simpl. rewrite sort_sub_dag_blocks_perm. apply Hin.
Qed.

(** [collect_sub_dag_and_commit] never panics and terminates on a validator's DAG.  It
    returns exactly the blocks that the leader reaches over blocks above the last committed
    rounds, each once and in the order of round and author, and a commit of them with the
    next index, chained to the last commit. *)
Theorem collect_sub_dag_and_commit_spec d leader :
  serializes → dag_wf d → dag_closed (dag_view d) → distinct_ancestors (dag_view d) →
  dag_view d !! reference leader = Some leader → 0 < vb_round leader →
  ∃ sd c, collect_sub_dag_and_commit d leader = Ok (sd, c) ∧ sub_dag_ok d leader sd c.
Proof. apply collect_spec. Qed.

(** The commit of a sub-dag is the next one. *)
Lemma sub_dag_next d cs leader sd c :
  dag_wf d → dag_closed (dag_view d) → commits_wf d cs → N.of_nat (length cs) + 1 < U32_MAX →
  dag_view d !! reference leader = Some leader → 0 < vb_round leader →
  last_commit_round d ≤ vb_round leader → sub_dag_ok d leader sd c → next_commit d cs c.
Proof.
  intros Hwf HV Hcs Hlen Hl Hpos Hr Hok. pose proof (last_commit_index_length _ _ Hcs) as Hidx.
  destruct (so_leader _ _ _ _ Hok) as [_ Hlead].
  assert (commit_index c = N.of_nat (length cs) + 1) as Hi.
  { rewrite (so_index _ _ _ _ Hok), Hidx. apply u32_add_small. unfold U32_MAX in *. lia. }
  split; [done|lia| | |].
  - rewrite (proj1 (so_timestamp _ _ _ _ Hok)). lia.
  - unfold commit_round. by rewrite Hlead.
  - split.
    + rewrite (so_refs _ _ _ _ Hok), Hlead. apply list_elem_of_fmap_2, (so_blocks _ _ _ _ Hok). done.
    + intros r. rewrite (so_refs _ _ _ _ Hok). intros (b & -> & Hb)%list_elem_of_fmap.
      apply (so_blocks _ _ _ _ Hok) in Hb as [Hb Hs]. split; [by eexists|].
      unfold commit_round. rewrite Hlead. split.
      * destruct (sub_dag_fresh _ _ _ _ Hs) as [->|(lr & _ & ?)]; [done|lia].
      * by eapply history_round_le, sub_dag_history.
Qed.

(** ** Sequences of leaders *)

(** The leaders [handle_commit] is called with: blocks of the DAG of distinct slots, in the
    order of their rounds, above what is committed. *)
Record leaders_ok d (leaders : list VerifiedBlock) : Prop := {
  lo_view l : l ∈ leaders → dag_view d !! reference l = Some l ∧ 0 < vb_round l;
  lo_fresh l : l ∈ leaders → fresh (last_committed_rounds d) (reference l);
  lo_round l : l ∈ leaders → last_commit_round d ≤ vb_round l;
  lo_sorted : StronglySorted (λ a b, vb_round a ≤ vb_round b) leaders;
  lo_slots : NoDup (vb_slot <$> leaders);
}.

(** A block of the sub-dag is the leader or below it. *)
Lemma sub_dag_below d leader sd c r :
  dag_closed (dag_view d) → sub_dag_ok d leader sd c → r ∈ commit_blocks c →
  r = reference leader ∨ br_round r < vb_round leader.
Proof.
  intros HV Hok. rewrite (so_refs _ _ _ _ Hok). intros (b & -> & Hb)%list_elem_of_fmap.
  apply (so_blocks _ _ _ _ Hok) in Hb as [_ Hs%sub_dag_history%(history_round _ HV)].
  destruct Hs as [<-|?]; auto.
Qed.

(** The blocks of a sub-dag were not committed. *)
Lemma sub_dag_uncommitted d leader sd c r :
  fresh (last_committed_rounds d) (reference leader) → sub_dag_ok d leader sd c →
  r ∈ commit_blocks c → fresh (last_committed_rounds d) r.
Proof.
  intros Hf Hok. rewrite (so_refs _ _ _ _ Hok). intros (b & -> & Hb)%list_elem_of_fmap.
  apply (so_blocks _ _ _ _ Hok) in Hb as [_ Hs%sub_dag_fresh]. destruct Hs as [->|?]; done.
Qed.

(** The leaders left are above what the commit of the first one commits. *)
Lemma leaders_ok_tail d d' leader leaders sd c :
  dag_closed (dag_view d) → leaders_ok d (leader :: leaders) → sub_dag_ok d leader sd c →
  dag_view d' = dag_view d → last_commit d' = Some c →
  (∀ a lr, last_committed_rounds d !! a = Some lr → is_Some (last_committed_rounds d' !! a)) →
  (∀ a lr', last_committed_rounds d' !! a = Some lr' →
     ∃ lr, last_committed_rounds d !! a = Some lr ∧
       (lr' = lr ∨ ∃ r, r ∈ commit_blocks c ∧ N.to_nat (br_author r) = a ∧ br_round r = lr')) →
  leaders_ok d' leaders.
Proof.
  intros HV [Hview Hfresh Hround Hsort Hslots] Hok Hv Hlast Hlen Hrounds.
  apply StronglySorted_inv in Hsort as [Hsort Hfirst]. rewrite Forall_forall in Hfirst.
  apply NoDup_cons in Hslots as [Hnot Hslots].
  assert (last_commit_round d' = vb_round leader) as Hlr.
  { unfold last_commit_round. rewrite Hlast. simpl. unfold commit_round. by rewrite (proj2 (so_leader _ _ _ _ Hok)). }
  split; [|intros l Hl..|done|done].
  - intros l Hl. rewrite Hv. apply Hview. by right.
  - destruct (Hfresh l ltac:(by right)) as (lr & Hlrl & Hlt).
    destruct (Hlen _ _ Hlrl) as [lr' Hlr']. exists lr'. split; [done|].
    destruct (Hrounds _ _ Hlr') as (lr0 & Hlr0 & Hcase). simplify_eq.
    destruct Hcase as [->|(r & Hr & Ha & <-)]; [done|].
    specialize (Hfirst l Hl). simpl.
    destruct (sub_dag_below _ _ _ _ _ HV Hok Hr) as [->|?]; [|simpl in *; lia].
    assert (vb_round leader ≠ vb_round l); [|simpl in *; lia].
    intros Heq. apply Hnot. apply list_elem_of_fmap. exists l. split; [|done].
    unfold vb_slot. f_equal; [done|]. simpl in Ha. lia.
  - rewrite Hlr. by apply Hfirst.
Qed.

(** Committing one leader. *)
Lemma commit_leader_step d cs leader leaders :
  serializes → dag_wf d → dag_closed (dag_view d) → distinct_ancestors (dag_view d) →
  commits_wf d cs → chained cs → N.of_nat (length cs) + 1 < U32_MAX → leaders_ok d (leader :: leaders) →
  ∃ sd c d', collect_sub_dag_and_commit d leader = Ok (sd, c) ∧ add_commit d c = Ok d' ∧
    sub_dag_ok d leader sd c ∧ dag_wf d' ∧ dag_view d' = dag_view d ∧
    commits_wf d' (cs ++ [c]) ∧ chained (cs ++ [c]) ∧ leaders_ok d' leaders ∧
    (∀ r, fresh (last_committed_rounds d') r → fresh (last_committed_rounds d) r ∧ r ∉ commit_blocks c) ∧
    (commits_ordered cs → commits_ordered (cs ++ [c])).
Proof.
  intros Hser Hwf HV Hdist Hcs Hch Hlen Hlo.
  destruct (lo_view _ _ Hlo leader ltac:(left)) as [Hl Hpos].
  destruct (collect_spec d leader) as (sd & c & Hcol & Hok); [done..|].
  destruct (add_commit_next d cs c) as (d' & Hadd & Hwf' & Hcs' & Hv & Hlast & _ & Hrounds & Hctx & Hbuf); [done..| |].
  { apply (sub_dag_next d cs leader sd c); try done. apply (lo_round _ _ Hlo). left. }
  exists sd, c, d'. split_and!; try done.
  - apply chained_snoc; [done|]. intros c' Hc'.
    rewrite (so_digest _ _ _ _ Hok), (proj1 (so_timestamp _ _ _ _ Hok)).
    unfold last_commit_digest, last_commit_timestamp_ms. rewrite (cw_last _ _ Hcs), Hc'. split; [done|lia].
  - apply (leaders_ok_tail d d' leader leaders sd c); try done.
    + intros a lr Ha. apply lookup_lt_is_Some_2. apply lookup_lt_Some in Ha.
      rewrite (wf_rounds_len _ Hwf'). rewrite (wf_rounds_len _ Hwf) in Ha.
      by rewrite Hctx.
    + intros a lr' Ha. destruct (Hrounds _ _ Ha) as (lr & ? & _ & _ & ?). eauto.
  - intros r (lr' & Hlr' & Hlt). destruct (Hrounds _ _ Hlr') as (lr & Hlr & Hle & Hall & _). split.
    + exists lr. split; [done|lia].
    + intros Hin. specialize (Hall r Hin eq_refl). lia.
  - intros Hord. apply commits_ordered_snoc; [done| |].
    + intros c0 r r' Hc0 Hr Hr' Ha.
      destruct (sub_dag_uncommitted d leader sd c r') as (lr & Hlr & Hlt); try done.
      { apply (lo_fresh _ _ Hlo). left. }
      rewrite <-Ha in Hlr. pose proof (committed_rounds_above _ _ _ _ _ Hwf Hcs Hc0 Hr Hlr). lia.
    + unfold commit_round. rewrite (proj2 (so_leader _ _ _ _ Hok)). intros r Hr. by eapply sub_dag_below.
Qed.

(** The commit records the sub-dag: it can be rebuilt from the commit and the blocks. *)
Definition recorded d (sd : CommittedSubDag) (c : TrustedCommit) : Prop :=
  sd = committed_sub_dag_new (commit_leader c) (sd_blocks sd) (commit_timestamp_ms c) (commit_reference c) ∧
  commit_blocks c = sub_dag_refs sd ∧ commit_leader c ∈ commit_blocks c ∧
  ∀ b, b ∈ sd_blocks sd → dag_view d !! reference b = Some b ∧ br_round (reference b) ≠ GENESIS_ROUND.

Lemma sub_dag_recorded d leader sd c :
  dag_view d !! reference leader = Some leader → 0 < vb_round leader →
  sub_dag_ok d leader sd c → recorded d sd c.
Proof.
  intros Hl Hpos Hok. pose proof Hok as [[Hsl Hcl] [Hr Hs] _ _ [_ Hts] Hrefs _ _ Hb]. split_and!.
  - destruct sd; simpl in *; unfold committed_sub_dag_new; f_equal; congruence.
  - done.
  - rewrite Hrefs, Hcl. apply list_elem_of_fmap_2, Hb. done.
  - intros b [Hv Hsub]%Hb. split; [done|]. unfold GENESIS_ROUND.
    destruct (sub_dag_fresh _ _ _ _ Hsub) as [->|(lr & _ & ?)]; simpl in *; lia.
Qed.

Record validator_ok d : Prop := {
  vo_wf : dag_wf d;
  vo_closed : dag_closed (dag_view d);
  vo_distinct : distinct_ancestors (dag_view d);
}.

(** The commit that follows [cs], made by [collect_sub_dag_and_commit] on a DAG state with the
    commits [cs] and some of the blocks of [V]. *)
Definition commit_made (cm : Committee) (V : dag) (cs : list TrustedCommit) (leader : VerifiedBlock)
    (sd : CommittedSubDag) (c : TrustedCommit) : Prop :=
  ∃ d, validator_ok d ∧ commits_wf d cs ∧ dag_view d ⊆ V ∧ committee (context d) = cm ∧
    dag_view d !! reference leader = Some leader ∧ 0 < vb_round leader ∧
    collect_sub_dag_and_commit d leader = Ok (sd, c).

(** The commits of a sequence of leaders. *)
Inductive commits_made (cm : Committee) (V : dag) :
    list TrustedCommit → list VerifiedBlock → list CommittedSubDag → list TrustedCommit → Prop :=
| made_nil cs : commits_made cm V cs [] [] []
| made_cons cs leader sd c leaders sds new :
    commit_made cm V cs leader sd c → commits_made cm V (cs ++ [c]) leaders sds new →
    commits_made cm V cs (leader :: leaders) (sd :: sds) (c :: new).

(** What commits and [flush] leave alone. *)
Definition same_frame d d' : Prop :=
  context d' = context d ∧ highest_accepted_round d' = highest_accepted_round d ∧
  unscored_committed_subdags d' = unscored_committed_subdags d.

Lemma add_commit_frame d c d' : add_commit d c = Ok d' → same_frame d d'.
Proof. unfold add_commit. intros Hadd. apply bind_Ok in Hadd as ([] & _ & Hadd); inv_ok; done. Qed.

Lemma flush_frame d d' : flush d = Ok d' → same_frame d d'.
Proof.
  unfold flush. set (x := if mysticeti_leader_scoring_and_schedule _ then _ else _).
  assert (Hx : same_frame d x.2).
  { unfold x. destruct (mysticeti_leader_scoring_and_schedule _); [done|]. by destruct (last _). }
  destruct x as [info d1]. simpl in Hx. destruct (_ && _); [by intros [= <-]|].
  intros (st & _ & Hf)%bind_Ok. destruct (evict_all _ _ _ _) as [refs blocks]. by injection Hf as <-.
Qed.

(** What committing the leaders adds to the commits [cs] of [d]. *)
Record committed_leaders d (cs : list TrustedCommit) (leaders : list VerifiedBlock)
    (sds : list CommittedSubDag) d' (new : list TrustedCommit) : Prop := {
  cm_wf : dag_wf d';
  cm_view : dag_view d' = dag_view d;
  cm_commits : commits_wf d' (cs ++ new);
  cm_chained : chained (cs ++ new);
  cm_leaders : sd_leader <$> sds = reference <$> leaders;
  cm_recorded : Forall2 (recorded d) sds new;
  cm_once : NoDup (sds ≫= sub_dag_refs);
  cm_uncommitted r : r ∈ sds ≫= sub_dag_refs → fresh (last_committed_rounds d) r;
  cm_done r : fresh (last_committed_rounds d') r →
    fresh (last_committed_rounds d) r ∧ r ∉ sds ≫= sub_dag_refs;
  cm_ordered : commits_ordered cs → commits_ordered (cs ++ new);
  cm_frame : same_frame d d';
  cm_made : commits_made (committee (context d)) (dag_view d) cs leaders sds new;
}.

Lemma handle_commit_loop d cs leaders acc :
  serializes → dag_wf d → dag_closed (dag_view d) → distinct_ancestors (dag_view d) →
  commits_wf d cs → chained cs → N.of_nat (length cs + length leaders) < U32_MAX → leaders_ok d leaders →
  ∃ sds d' new, foldM handle_commit_step (acc, d) leaders = Ok (acc ++ sds, d') ∧
    committed_leaders d cs leaders sds d' new.
Proof.
  intros Hser. revert d cs acc. induction leaders as [|leader leaders IH];
    intros d cs acc Hwf HV Hdist Hcs Hch Hlen Hlo.
  { exists [], d, []. simpl. rewrite app_nil_r. split; [done|].
    split; rewrite ?app_nil_r; try done; [by apply NoDup_nil|by intros ? ?%not_elem_of_nil| |constructor].
    intros r ?. split; [done|apply not_elem_of_nil]. }
  destruct (commit_leader_step d cs leader leaders) as
    (sd & c & d1 & Hcol & Hadd & Hok & Hwf1 & Hv1 & Hcs1 & Hch1 & Hlo1 & Hdone1 & Hord1);
    [done..|simpl in Hlen; lia|done|].
  destruct (IH d1 (cs ++ [c]) (acc ++ [sd])) as (sds & d' & new & Hf & Hcl);
    [done|by rewrite Hv1|by rewrite Hv1|done|done|rewrite length_app; simpl in *; lia|done|].
  exists (sd :: sds), d', (c :: new). split.
  { cbn [foldM]. unfold handle_commit_step at 2. rewrite Hcol. cbn [mbind outcome_bind]. rewrite Hadd.
    cbn [mbind outcome_bind]. rewrite Hf, <-app_assoc. done. }
  assert (Hrefs : sub_dag_refs sd = commit_blocks c) by by rewrite (so_refs _ _ _ _ Hok).
  destruct Hcl as [Hwf' Hv Hcs' Hch' Hl' Hr' Ho' Hu' Hd' Hord' Hfr' Hm'].
  pose proof (add_commit_frame _ _ _ Hadd) as Hfr1. rewrite <-app_assoc in Hcs', Hch', Hord'.
  split; try done.
  - by rewrite Hv.
  - simpl. f_equal; [apply Hok|done].
  - constructor; [|by eapply Forall2_impl; [exact Hr'|unfold recorded; rewrite Hv1]].
    destruct (lo_view _ _ Hlo leader ltac:(left)). by eapply sub_dag_recorded.
  - simpl. rewrite Hrefs. apply NoDup_app. split_and!; [apply Hok| |done].
    intros r Hr (_ & Hn)%Hu'%Hdone1. done.
  - intros r. simpl. rewrite Hrefs. intros [Hr|Hr]%elem_of_app.
    + eapply sub_dag_uncommitted; [|done..]. apply (lo_fresh _ _ Hlo). left.
    + by apply Hu', Hdone1 in Hr as [? _].
  - intros r (Hr%Hdone1 & Hn)%Hd'. simpl. rewrite Hrefs, not_elem_of_app. naive_solver.
  - intros Hord. by apply Hord', Hord1.
  - destruct Hfr' as (? & ? & ?), Hfr1 as (? & ? & ?). split_and!; congruence.
  - rewrite Hv1, (proj1 Hfr1) in Hm'. econstructor; [|exact Hm'].
    exists d. destruct (lo_view _ _ Hlo leader ltac:(left)). by split_and!.
Qed.

Lemma handle_commit_Ok d cs leaders :
  serializes → dag_wf d → dag_closed (dag_view d) → distinct_ancestors (dag_view d) →
  commits_wf d cs → chained cs → N.of_nat (length cs + length leaders) < U32_MAX → leaders_ok d leaders →
  ∃ sds d' new, handle_commit d leaders = Ok (sds, d') ∧ committed_leaders d cs leaders sds d' new ∧
    (leaders ≠ [] → commits_of (store d') = insert_commits (cs ++ new) ∅ ∧
       ∀ r b, dag_view d !! r = Some b → br_round r ≠ GENESIS_ROUND → blocks_of (store d') !! r = Some b).
Proof.
  intros Hser Hwf HV Hdist Hcs Hch Hlen Hlo. unfold handle_commit.
  destruct (handle_commit_loop d cs leaders []) as (sds & d1 & new & -> & Hcl); [done..|].
  cbn [mbind outcome_bind app]. case_bool_decide as Hnil.
  - exists sds, d1, new. split; [done|]. split; [done|]. intros Hne.
    pose proof (cm_leaders _ _ _ _ _ _ Hcl) as Hl. subst sds. by destruct leaders.
  - destruct Hcl as [Hwf1 Hv1 Hcs1 Hch1 Hl Hr Ho Hu Hd Hord Hfr Hm].
    destruct (flush_outcome d1 Hwf1) as (d' & Hf & Hwf' & Hv' & Hblocks & _ & _ & _ & _ & _ & _ & Hrounds & _).
    destruct (flush_commits_wf d1 d' _ Hwf1 Hcs1 Hf) as [Hcs' Hstored]. rewrite Hf.
    exists sds, d', new. split; [done|]. split.
    + pose proof (flush_frame _ _ Hf) as (? & ? & ?). destruct Hfr as (? & ? & ?).
      split; try done; [congruence| |split_and!; congruence]. by rewrite Hrounds.
    + intros _. split; [done|]. by rewrite <-Hv1.
Qed.

(** A sub-dag is loaded from a store that has its blocks. *)
Lemma load_recorded d (s : St) sd c :
  store_inv s → recorded d sd c →
  (∀ r b, dag_view d !! r = Some b → br_round r ≠ GENESIS_ROUND → blocks_of s !! r = Some b) →
  load_committed_subdag_from_store s c = Ok sd.
Proof.
  intros Hs (Heq & Hrefs & Hlead & Hin) Hblocks. apply load_committed_subdag_spec; [done|].
  exists (sd_blocks sd). split_and!; [|done..]. rewrite Hrefs. unfold sub_dag_refs.
  apply Forall2_fmap_l, Forall_Forall2_diag, Forall_forall. intros b [Hb Hr]%Hin. by apply Hblocks.
Qed.

(** C8: [handle_commit] never panics on leaders of the DAG in the order of their rounds:
    it outputs one sub-dag per leader, no block is output twice or was committed before,
    the commits are chained after those the validator has, and all of them are in the
    store when it returns. *)
Theorem handle_commit_spec d cs leaders :
  serializes → dag_wf d → dag_closed (dag_view d) → distinct_ancestors (dag_view d) →
  commits_wf d cs → chained cs → N.of_nat (length cs + length leaders) < U32_MAX → leaders_ok d leaders →
  ∃ sds d' new, handle_commit d leaders = Ok (sds, d') ∧ committed_leaders d cs leaders sds d' new ∧
    (leaders ≠ [] → commits_of (store d') = insert_commits (cs ++ new) ∅ ∧
       ∀ r b, dag_view d !! r = Some b → br_round r ≠ GENESIS_ROUND → blocks_of (store d') !! r = Some b).
Proof. apply handle_commit_Ok. Qed.

(** C13: What [handle_commit] outputs can be recovered from storage: loading any of the
    commits it made gives back exactly the sub-dag it returned. *)
Theorem handle_commit_recoverable d cs leaders sds d' :
  serializes → dag_wf d → dag_closed (dag_view d) → distinct_ancestors (dag_view d) →
  commits_wf d cs → chained cs → N.of_nat (length cs + length leaders) < U32_MAX → leaders_ok d leaders →
  handle_commit d leaders = Ok (sds, d') →
  ∃ new, Forall2 (λ sd c, commits_of (store d') !! (commit_index c, tc_digest c) = Some c ∧
      load_committed_subdag_from_store (store d') c = Ok sd) sds new.
Proof.
  intros Hser Hwf HV Hdist Hcs Hch Hlen Hlo Hh.
  destruct (handle_commit_Ok d cs leaders) as (sds' & d2 & new & Hh2 & Hcl & Hst); [done..|].
  rewrite Hh in Hh2. injection Hh2 as <- <-. exists new.
  pose proof (cm_recorded _ _ _ _ _ _ Hcl) as Hrec.
  destruct (decide (leaders = [])) as [->|Hne].
  { pose proof (cm_leaders _ _ _ _ _ _ Hcl) as Hl. destruct sds; [|done]. by inversion Hrec. }
  destruct (Hst Hne) as [Hcommits Hblocks].
  assert (Hn : numbered (cs ++ new)) by exact (cw_index _ _ (cm_commits _ _ _ _ _ _ Hcl)).
  apply Forall2_same_length_lookup. split; [by eapply Forall2_length|]. intros i sd c Hsd Hc.
  pose proof (Forall2_lookup_lr _ _ _ _ _ _ Hrec Hsd Hc) as Hsc. split.
  - rewrite Hcommits. apply insert_commits_lookup; [done|]. apply list_elem_of_fmap. exists c.
    split; [done|]. apply elem_of_app. right. by eapply list_elem_of_lookup_2.
  - eapply load_recorded; [apply (wf_store _ (cm_wf _ _ _ _ _ _ Hcl))|done|done].
Qed.
End linearization.

(** ** Two validators *)

Lemma iter_pow2_ext {A B} (I : A → Prop) (body1 body2 : A → outcome (flow A B)) n a :
  (∀ a, I a → body1 a = body2 a) → (∀ a a', I a → body1 a = Ok (Continue a') → I a') → I a →
  iter_pow2 n body1 a = iter_pow2 n body2 a ∧ ∀ a', iter_pow2 n body1 a = Ok (Continue a') → I a'.
Proof.
  intros Heq Hinv. revert a. induction n as [|n IH]; intros a Ha; simpl; [eauto|].
  destruct (IH a Ha) as [<- Hc]. destruct (iter_pow2 n body1 a) as [[a1|b]|msg|]; simpl; try done.
  apply IH. by apply Hc.
Qed.

Lemma while_loop_ext {A B} (I : A → Prop) (body1 body2 : A → outcome (flow A B)) a :
  (∀ a, I a → body1 a = body2 a) → (∀ a a', I a → body1 a = Ok (Continue a') → I a') → I a →
  while_loop body1 a = while_loop body2 a.
Proof.
  intros Heq Hinv Ha. unfold while_loop. generalize LOOP_BITS. intros n.
  by destruct (iter_pow2_ext I body1 body2 n a Heq Hinv Ha) as [<- _].
Qed.

Lemma push_ancestors_buffer bs st st' :
  foldM push_ancestor st bs = Ok st' → st'.1 = rev bs ++ st.1.
Proof.
  revert st. induction bs as [|b bs IH]; intros [buffer committed]; simpl; [by intros [= <-]|].
  destruct (bool_decide _); simpl; [|done]. intros ->%IH. simpl. by rewrite <-app_assoc.
Qed.

Lemma filterM_elem {A} (f : A → outcome bool) l k x : filterM f l = Ok k → x ∈ k → x ∈ l.
Proof.
  revert k. induction l as [|y l IH]; intros k; simpl; [by intros [= <-]|].
  intros (keep & _ & (k' & Hk & [= <-])%bind_Ok)%bind_Ok.
  destruct keep; rewrite ?elem_of_cons; naive_solver.
Qed.

Section validators.
Context {St : Type} `{StoreSpec St} `{Crypto} `{CommitSerializer}.
Context (d1 d2 : DagState St).
Context (Hwf1 : dag_wf d1) (Hwf2 : dag_wf d2).
Context (HV1 : dag_closed (dag_view d1)) (HV2 : dag_closed (dag_view d2)).
Context (Hcons : consistent (dag_view d1) (dag_view d2)).

(** The step of the loop reads the same blocks in both DAGs. *)
Lemma collect_step_same rounds buffer to_commit committed :
  (∀ b, b ∈ buffer → dag_view d1 !! reference b = Some b ∧ dag_view d2 !! reference b = Some b) →
  collect_step d1 rounds (buffer, to_commit, committed) = collect_step d2 rounds (buffer, to_commit, committed) ∧
  ∀ buffer' to_commit' committed',
    collect_step d1 rounds (buffer, to_commit, committed) = Ok (Continue (buffer', to_commit', committed')) →
    ∀ b, b ∈ buffer' → dag_view d1 !! reference b = Some b ∧ dag_view d2 !! reference b = Some b.
Proof.
  intros Hbuf. destruct buffer as [|x buffer]; [done|]. destruct (Hbuf x ltac:(left)) as [Hx1 Hx2].
  unfold collect_step.
  destruct (filterM (not_committed rounds committed) (vb_ancestors x)) as [refs| |] eqn:Hrefs; [|done..].
  cbn [mbind outcome_bind].
  pose proof (λ r, filterM_elem _ _ _ r Hrefs) as Hsub.
  assert (Hsame : ∀ r, r ∈ refs → dag_view d1 !! r = dag_view d2 !! r).
  { intros r Hr%Hsub. destruct (dc_present _ HV1 _ _ _ Hx1 Hr) as [b1 Hb1].
    destruct (dc_present _ HV2 _ _ _ Hx2 Hr) as [b2 Hb2]. rewrite Hb1, Hb2. f_equal. by eapply Hcons. }
  rewrite !get_blocks_view by done. cbn [mbind outcome_bind].
  assert ((λ r, dag_view d1 !! r) <$> refs = (λ r, dag_view d2 !! r) <$> refs) as <-.
  { apply list_fmap_ext. intros i r Hi. apply Hsame. by eapply list_elem_of_lookup_2. }
  split; [done|]. intros buffer' to_commit' committed' Hstep b Hb.
  apply bind_Ok in Hstep as (bs & Hbs%mapM_expect & Hstep).
  apply bind_Ok in Hstep as ([buf com] & Hpush%push_ancestors_buffer & [= -> _ _]). simpl in Hpush. subst buffer'.
  apply elem_of_app in Hb as [Hb|Hb]; [|apply Hbuf; by right].
  assert (Some b ∈ (λ r, dag_view d1 !! r) <$> refs) as (r & Hr & Hin)%list_elem_of_fmap.
  { rewrite Hbs. apply list_elem_of_fmap_2. by rewrite list_elem_of_In, in_rev, <-list_elem_of_In. }
  symmetry in Hr. rewrite (dc_reference _ HV1 _ _ Hr). by rewrite <-(Hsame r Hin).
Qed.

(** With the same commits, a leader has the same sub-dag and commit. *)
Lemma collect_same leader :
  last_commit d1 = last_commit d2 → last_committed_rounds d1 = last_committed_rounds d2 →
  dag_view d1 !! reference leader = Some leader → dag_view d2 !! reference leader = Some leader →
  collect_sub_dag_and_commit d1 leader = collect_sub_dag_and_commit d2 leader.
Proof.
  intros Hlast Hrounds Hl1 Hl2. unfold collect_sub_dag_and_commit, last_commit_timestamp_ms,
    last_commit_index, last_commit_digest. rewrite Hlast, Hrounds.
  erewrite (while_loop_ext (λ st, ∀ b, b ∈ st.1.1 → dag_view d1 !! reference b = Some b ∧
    dag_view d2 !! reference b = Some b)); [done|..].
  - intros [[buffer to_commit] committed] Hbuf. by apply collect_step_same.
  - intros [[buffer to_commit] committed] [[buffer' to_commit'] committed'] Hbuf.
    by apply collect_step_same.
  - simpl. by intros b ->%list_elem_of_singleton.
Qed.
End validators.

Section same_output.
Context {St : Type} `{StoreSpec St} `{Crypto} `{CommitSerializer}.
Implicit Types d : DagState St.

(** What two validators have in common before they commit the same leaders. *)
Record common_commits d1 d2 (cs : list TrustedCommit) : Prop := {
  sc_committee : committee (context d1) = committee (context d2);
  sc_commits1 : commits_wf d1 cs;
  sc_commits2 : commits_wf d2 cs;
  sc_chained : chained cs;
  sc_consistent : consistent (dag_view d1) (dag_view d2);
}.

Lemma handle_commit_loop_same d1 d2 cs leaders acc :
  serializes → validator_ok d1 → validator_ok d2 → common_commits d1 d2 cs →
  N.of_nat (length cs + length leaders) < U32_MAX → leaders_ok d1 leaders → leaders_ok d2 leaders →
  ∃ sds d1' d2', foldM handle_commit_step (acc, d1) leaders = Ok (sds, d1') ∧
    foldM handle_commit_step (acc, d2) leaders = Ok (sds, d2').
Proof.
  intros Hser. revert d1 d2 cs acc. induction leaders as [|leader leaders IH];
    intros d1 d2 cs acc [Hwf1 HV1 Hd1] [Hwf2 HV2 Hd2] [Hcc Hcs1 Hcs2 Hch Hcons] Hlen Hlo1 Hlo2.
  { by eexists _, _, _. }
  destruct (commit_leader_step d1 cs leader leaders) as
    (sd & c & d1' & Hcol1 & Hadd1 & _ & Hwf1' & Hv1 & Hcs1' & Hch' & Hlo1' & _);
    [done..|simpl in Hlen; lia|done|].
  destruct (commit_leader_step d2 cs leader leaders) as
    (sd2 & c2 & d2' & Hcol2 & Hadd2 & _ & Hwf2' & Hv2 & Hcs2' & _ & Hlo2' & _);
    [done..|simpl in Hlen; lia|done|].
  assert (collect_sub_dag_and_commit d1 leader = collect_sub_dag_and_commit d2 leader) as Hsame.
  { apply collect_same; try done.
    - by rewrite (cw_last _ _ Hcs1), (cw_last _ _ Hcs2).
    - pose proof (cw_rounds _ _ Hcs1) as Hr1. pose proof (cw_rounds _ _ Hcs2) as Hr2.
      rewrite Hcc in Hr1. congruence.
    - apply (lo_view _ _ Hlo1). left.
    - apply (lo_view _ _ Hlo2). left. }
  rewrite Hcol1, Hcol2 in Hsame. injection Hsame as <- <-.
  cbn [foldM]. unfold handle_commit_step at 2 4. rewrite Hcol1, Hcol2. cbn [mbind outcome_bind].
  rewrite Hadd1, Hadd2. cbn [mbind outcome_bind].
  assert (Hctx : ∀ d d', add_commit d c = Ok d' → context d' = context d) by by intros d d' [? _]%add_commit_frame.
  apply (IH d1' d2' (cs ++ [c])); [by split; rewrite ?Hv1|by split; rewrite ?Hv2| | |done..].
  - split; [by rewrite (Hctx _ _ Hadd1), (Hctx _ _ Hadd2)|done..|by rewrite Hv1, Hv2].
  - rewrite length_app. simpl in *. lia.
Qed.
End same_output.
