(* ===== verification/TotalOrder.v ===== *)
(** The output of consensus: from the DAG through [UniversalCommitter::try_decide]
    ([consensus/core/src/universal_committer.rs]) and [Linearizer::handle_commit]
    ([consensus/core/src/linearizer.rs]), validators output the same sub-dags in the same
    order. *)

From stdpp Require Import base strings numbers sorting gmap sets relations list.
From S2P Require Import Prelude Committee Block Dag StakeAggregator Commit Store DagState DagStateFacts Recovery BlockVerifier DagReader BaseCommitter Votes Decisions UniversalCommitter Agreement Sequence Linearizer Linearization.

Open Scope N_scope.

Lemma slots_until_prefix last_decided l : slots_until last_decided l `prefix_of` l.
Proof.
  induction l as [|s l IH]; simpl; [done|].
  case_bool_decide; [apply prefix_nil|by apply prefix_cons].
Qed.

(** ** The leaders [try_decide] commits *)

Section leaders.
Context {L D : Type} `{LeaderElection L} `{DagReaderSpec D}.
Implicit Types self : UniversalCommitter L D.

(** The loops go from the highest round down. *)
Lemma elections_sorted self lo hi :
  StronglySorted (λ a b, slot_round b ≤ slot_round a) (elections self lo hi).
Proof.
  remember (N.to_nat (hi + 1 - lo)) as n eqn:Hn. revert lo Hn.
  induction n as [|n IH]; intros lo Hn.
  { assert (elections self lo hi = []) as ->; [|constructor].
    apply list_nil_subseteq. intros s ?%elections_round. lia. }
  rewrite (elections_split self lo lo hi) by lia. apply StronglySorted_app_2; [|apply IH; lia|].
  - intros x y ?%elections_round ?%elections_round. lia.
  - assert (Hall : ∀ s, s ∈ elections self lo lo → slot_round s = lo) by (intros s ?%elections_round; lia).
    induction (elections self lo lo) as [|s l IHl]; [constructor|]. constructor.
    + apply IHl. intros. apply Hall. by right.
    + apply Forall_forall. intros t Ht. rewrite (Hall s), (Hall t); [done|by right|left].
Qed.

Lemma decision_slots_sorted self last_decided :
  StronglySorted (λ a b, slot_round a ≤ slot_round b) (decision_slots self last_decided).
Proof.
  unfold decision_slots. fold (elections self (slot_round last_decided)
    (dr_highest_accepted_round (uc_dag_state self) - 2)).
  eapply StronglySorted_sublist; [by apply rev_prefix_sublist, slots_until_prefix|].
  apply (StronglySorted_rev (λ a b, slot_round b ≤ slot_round a)), elections_sorted.
Qed.

Lemma decision_slots_round self last_decided s :
  s ∈ decision_slots self last_decided → slot_round last_decided ≤ slot_round s.
Proof.
  unfold decision_slots. rewrite elem_of_rev. intros Hs%slots_until_sub.
  by apply (elections_round self) in Hs as [? _].
Qed.

Lemma committed_slots_sublist (l : list DecidedLeader) :
  vb_slot <$> omap into_committed_block l `sublist_of` decided_leader_slot <$> l.
Proof.
  induction l as [|[b|s] l IH]; [constructor|..].
  - by apply sublist_skip.
  - by apply sublist_cons.
Qed.

(** The committed leaders are of distinct slots, in the order of the rounds. *)
Lemma committed_leaders_sorted slots (l : list DecidedLeader) :
  StronglySorted (λ a b, slot_round a ≤ slot_round b) slots → NoDup slots →
  (decided_leader_slot <$> l) `prefix_of` filter (λ s, slot_round s ≠ GENESIS_ROUND) slots →
  StronglySorted (λ a b, vb_round a ≤ vb_round b) (omap into_committed_block l) ∧
  NoDup (vb_slot <$> omap into_committed_block l) ∧
  ∀ b, b ∈ omap into_committed_block l → vb_slot b ∈ slots ∧ vb_round b ≠ GENESIS_ROUND.
Proof.
  intros Hs Hnd Hpre.
  assert (vb_slot <$> omap into_committed_block l `sublist_of` filter (λ s, slot_round s ≠ GENESIS_ROUND) slots)
    as Hsub by (etrans; [apply committed_slots_sublist|by apply prefix_sublist]).
  split_and!.
  - assert (StronglySorted (λ a b, slot_round a ≤ slot_round b) (vb_slot <$> omap into_committed_block l)) as Hss.
    { eapply StronglySorted_sublist; [exact Hsub|]. eapply StronglySorted_sublist; [apply sublist_filter|done]. }
    clear -Hss. induction (omap into_committed_block l) as [|b bs IH]; [constructor|].
    apply StronglySorted_inv in Hss as [Hss Hb]. constructor; [by apply IH|].
    change (Forall (λ s, slot_round (vb_slot b) ≤ slot_round s) (vb_slot <$> bs)) in Hb.
    by rewrite Forall_fmap in Hb.
  - eapply sublist_NoDup; [|exact Hsub]. by apply NoDup_filter.
  - intros b Hb%(list_elem_of_fmap_2 vb_slot). eapply elem_of_sublist in Hb; [|exact Hsub].
    apply list_elem_of_filter in Hb as [? ?]. done.
Qed.
End leaders.

(** ** The sub-dags two validators output *)

Section total_order.
Context {L St : Type} `{LeaderElection L} `{StoreSpec St} `{Crypto} `{CommitSerializer}.
Implicit Types self : UniversalCommitter L (DagState St).

(** The slots still to be decided are distinct, and nothing is committed there. *)
Definition slots_ahead self (last_decided : Slot) : Prop :=
  NoDup (decision_slots self last_decided) ∧
  last_commit_round (uc_dag_state self) ≤ slot_round last_decided ∧
  ∀ s, s ∈ decision_slots self last_decided → slot_round s ≠ GENESIS_ROUND →
    ∃ lr, last_committed_rounds (uc_dag_state self) !! N.to_nat (slot_authority s) = Some lr ∧ lr < slot_round s.

(** What [try_decide] commits can be handed to [handle_commit]. *)
Lemma try_decide_leaders byz self last_decided l :
  committer_ok byz self → slots_ahead self last_decided → try_decide self last_decided = Ok l →
  leaders_ok (uc_dag_state self) (omap into_committed_block l).
Proof.
  intros Hok (Hnd & Hcr & Hahead) Hl. set (d := uc_dag_state self).
  destruct (try_decide_statuses byz self Hok last_decided Hcr) as (leaders & l' & Hjl & Hseq & Hl').
  assert (l' = l) as -> by congruence.
  pose proof (decided_sequence_slots _ _ _ _ _ Hjl Hseq) as Hpre.
  destruct (committed_leaders_sorted (decision_slots self last_decided) l) as (Hsort & Hslots & Hin);
    [apply decision_slots_sorted|done..|].
  pose proof (co_inv _ _ Hok) as [Hwf HV]. fold d in Hwf.
  assert (Hview : ∀ b, b ∈ omap into_committed_block l → dag_view d !! reference b = Some b).
  { intros b (dl & Hdl & Hb)%list_elem_of_omap. destruct dl as [b'|]; simplify_eq/=.
    destruct (decided_sequence_elem _ _ _ _ _ _ Hjl Hseq Hdl) as (later & st & Hj & Hst).
    destruct st; simplify_eq/=. by inversion Hj. }
  assert (Hround : ∀ b, b ∈ omap into_committed_block l → last_commit_round d ≤ vb_round b).
  { intros b [Hs _]%Hin. pose proof (decision_slots_round _ _ _ Hs). simpl in *. unfold d. lia. }
  split; [|intros b Hb..|done|done].
  - intros b Hb. split; [by apply Hview|]. apply Hin in Hb as [_ Hg]. unfold GENESIS_ROUND in Hg. lia.
  - apply Hin in Hb as [Hs Hg]. by apply (Hahead (vb_slot b)).
  - by apply Hround.
Qed.

Lemma handle_commit_step_snoc (d : DagState St) d' leader acc acc' :
  handle_commit_step (acc, d) leader = Ok (acc', d') → ∃ sd, acc' = acc ++ [sd].
Proof.
  unfold handle_commit_step. generalize (collect_sub_dag_and_commit d leader). intros res Hstep.
  apply bind_Ok in Hstep as ([sd c] & _ & Hstep). apply bind_Ok in Hstep as (d2 & _ & [= <- _]). eauto.
Qed.

Lemma handle_commit_step_prefix (d : DagState St) d' leaders acc sds :
  foldM handle_commit_step (acc, d) leaders = Ok (sds, d') → acc `prefix_of` sds.
Proof.
  intros Hf. eapply (foldM_Ok_inv _ (λ st, acc `prefix_of` st.1)) in Hf; [done..|].
  intros [acc1 d1] leader [acc2 d2] Hpre _ [sd Heq]%handle_commit_step_snoc. simpl in *. subst acc2.
  by apply prefix_app_r.
Qed.

Lemma leaders_ok_prefix (d : DagState St) l1 l2 : leaders_ok d (l1 ++ l2) → leaders_ok d l1.
Proof.
  intros [Hv Hf Hr Hs Hn]. rewrite fmap_app in Hn.
  split; [intros l Hl..| |]; [apply Hv|apply Hf|apply Hr|..]; try (apply elem_of_app; by left).
  - by eapply StronglySorted_app_1_l.
  - by apply NoDup_app in Hn as [? _].
Qed.

(** One more leader list, one more sub-dag list. *)
Lemma handle_commit_prefix (d1 d2 : DagState St) cs l1 l2 sds1 sds2 d1' d2' :
  serializes → validator_ok d1 → validator_ok d2 → common_commits d1 d2 cs →
  N.of_nat (length cs + length l1) < U32_MAX →
  leaders_ok d1 l1 → leaders_ok d2 l2 → l1 `prefix_of` l2 →
  handle_commit d1 l1 = Ok (sds1, d1') → handle_commit d2 l2 = Ok (sds2, d2') →
  sds1 `prefix_of` sds2.
Proof.
  intros Hser Hv1 Hv2 Hsame Hlen Hlo1 Hlo2 [more ->] Hh1 Hh2.
  destruct (handle_commit_loop_same d1 d2 cs l1 []) as (sds & e1 & e2 & Hf1 & Hf2);
    [done..|by eapply leaders_ok_prefix|].
  unfold handle_commit in Hh1, Hh2. rewrite Hf1 in Hh1. rewrite foldM_app, Hf2 in Hh2.
  cbn [mbind outcome_bind] in Hh1, Hh2.
  apply bind_Ok in Hh1 as (? & _ & [= <- _]).
  apply bind_Ok in Hh2 as ([sds' e] & Hf & Hh2). apply bind_Ok in Hh2 as (? & _ & [= <- _]).
  by eapply handle_commit_step_prefix.
Qed.

(** C5: Total order.  Two validators with the same commits so far, whatever parts of the
    DAG each has, that decide leaders from the same slot and linearize them, output
    sequences of sub-dags of which one extends the other: the same blocks, in the same
    order, under the same commit references. *)
Theorem total_order byz self1 self2 last_decided cs l1 l2 sds1 sds2 d1' d2' :
  serializes → committer_ok byz self1 → committer_ok byz self2 → same_election self1 self2 →
  compatible byz (dag_view (uc_dag_state self1)) (dag_view (uc_dag_state self2)) →
  committee (uc_context self1) = committee (uc_context self2) →
  validator_ok (uc_dag_state self1) → validator_ok (uc_dag_state self2) →
  common_commits (uc_dag_state self1) (uc_dag_state self2) cs →
  slots_ahead self1 last_decided → slots_ahead self2 last_decided →
  N.of_nat (length cs + length l1) < U32_MAX → N.of_nat (length cs + length l2) < U32_MAX →
  try_decide self1 last_decided = Ok l1 → try_decide self2 last_decided = Ok l2 →
  handle_commit (uc_dag_state self1) (omap into_committed_block l1) = Ok (sds1, d1') →
  handle_commit (uc_dag_state self2) (omap into_committed_block l2) = Ok (sds2, d2') →
  sds1 `prefix_of` sds2 ∨ sds2 `prefix_of` sds1.
Proof.
  intros Hser Hok1 Hok2 Helect Hcomp Hcc Hv1 Hv2 Hsame Ha1 Ha2 Hlen1 Hlen2 Ht1 Ht2 Hh1 Hh2.
  pose proof (try_decide_leaders byz self1 last_decided l1 Hok1 Ha1 Ht1) as Hlo1.
  pose proof (try_decide_leaders byz self2 last_decided l2 Hok2 Ha2 Ht2) as Hlo2.
  assert (Hle : ∀ l, (length (omap into_committed_block l) ≤ length l)%nat).
  { intros l. pose proof (sublist_length _ _ (committed_slots_sublist l)) as Hl. by rewrite !length_fmap in Hl. }
  pose proof (Hle l1). pose proof (Hle l2).
  destruct (sequences_comparable byz self1 self2 last_decided l1 l2) as [Hp|Hp]; try done.
  { apply Ha1. } { apply Ha2. }
  - left. eapply (handle_commit_prefix (uc_dag_state self1) (uc_dag_state self2)); try done; [lia|by apply prefix_omap].
  - right. eapply (handle_commit_prefix (uc_dag_state self2) (uc_dag_state self1) cs); try done; [|lia|by apply prefix_omap].
    destruct Hsame. split; try done. by apply consistent_sym.
Qed.
End total_order.

(** Blocks that passed verification make a DAG that the committers can use. *)
Lemma verified_blocks_dag {St} `{StoreSpec St} `{Crypto} (d : DagState St) genesis_refs :
  dag_wf d → dag_closed (dag_view d) →
  (∀ r b, dag_view d !! r = Some b → 0 < br_round r →
     block_valid (committee (context d)) genesis_refs (inner (block b))) →
  valid_dag (committee (context d)) (dag_view d) ∧ validator_ok d.
Proof.
  intros Hwf HV Hver.
  assert (Hdist : distinct_ancestors (dag_view d)).
  { intros r b Hb. destruct (decide (br_round r = 0)) as [Hr|Hr].
    - rewrite view_genesis in Hb by done.
      apply (genesis_lookup _ _ _ Hwf) in Hb as (_ & _ & -> & _). constructor.
    - destruct (Hver r b Hb) as [_ _ _ [_ Hnd _ _ _ _]]; [lia|]. by apply NoDup_fmap_1 in Hnd. }
  split; [|by split]. split; [done| |].
  - intros r b Hb. by apply view_reference in Hb as (_ & ? & _).
  - intros r b Hb Hr. destruct (Hver r b Hb Hr) as [_ _ _ [_ _ _ _ _ Hq]].
    pose proof (dc_reference _ HV _ _ Hb) as <-. exact Hq.
Qed.

(** Verification suffices.  If the blocks after genesis of a causally complete DAG have
    passed [verify], the DAG is what agreement and linearization need: every block names a
    quorum of parents of the previous round, and each ancestor once. *)
Theorem verified_dag_valid {St} `{StoreSpec St} `{Crypto} (d : DagState St) genesis_refs :
  dag_wf d → dag_closed (dag_view d) →
  (∀ r b, dag_view d !! r = Some b → 0 < br_round r →
     block_valid (committee (context d)) genesis_refs (inner (block b))) →
  valid_dag (committee (context d)) (dag_view d) ∧ validator_ok d.
Proof. apply verified_blocks_dag. Qed.
