(* ===== verification/TransactionConsumer.v ===== *)
(** Transactions on their way into blocks ([consensus/core/src/transaction.rs]): clients submit
    batches over a channel, and the consumer takes from it what fits into the next block. *)

From stdpp Require Import base strings numbers sorting gmap sets relations list.
From S2P Require Import Prelude Committee Block.

Open Scope N_scope.

Definition MAX_PENDING_TRANSACTIONS : N := 2000.
Definition MAX_CONSUMED_TRANSACTIONS_PER_REQUEST : N := 5000.

(** The sender of the acknowledgement is identified by a number. *)
Record TransactionsGuard := mkTransactionsGuard {
  guard_transactions : list Transaction;
  included_in_block_ack : N;
}.

(** The receiving end of the channel is the queue of the batches in it. *)
Record TransactionConsumer := mkTransactionConsumer {
  tx_receiver : list TransactionsGuard;
  max_consumed_bytes_per_request : N;
  max_consumed_transactions_per_request : N;
  pending_transactions : option TransactionsGuard;
}.

Definition transaction_consumer_new (tx_receiver : list TransactionsGuard)
    (consensus_max_transactions_in_block_bytes : N) (max_consumed_transactions_per_request : option N) :
    TransactionConsumer :=
  mkTransactionConsumer tx_receiver consensus_max_transactions_in_block_bytes
    (default MAX_CONSUMED_TRANSACTIONS_PER_REQUEST max_consumed_transactions_per_request) None.

Definition tx_len (tx : Transaction) : N := N.of_nat (length (data tx)).

(** The variables that the closure [handle_txs] of [next] updates. *)
Record Pull := mkPull {
  pull_transactions : list Transaction;
  pull_acks : list N;
  pull_total_size : N;
}.

(** The closure of [filter_map] in [handle_txs]: the transactions that do not fit are kept. *)
Fixpoint pull_txs (self : TransactionConsumer) (txs : list Transaction) (pull : Pull) :
    list Transaction * Pull :=
  match txs with
  | [] => ([], pull)
  | tx :: txs =>
      if (max_consumed_bytes_per_request self <? pull_total_size pull +u64 tx_len tx)
         || (max_consumed_transactions_per_request self <=? N.of_nat (length (pull_transactions pull)))
      then
        let '(remaining_txs, pull) := pull_txs self txs pull in
        (tx :: remaining_txs, pull)
      else
        pull_txs self txs
          (mkPull (pull_transactions pull ++ [tx]) (pull_acks pull) (pull_total_size pull +u64 tx_len tx))
  end.

(** [handle_txs]. *)
Definition handle_txs (self : TransactionConsumer) (t : TransactionsGuard) (pull : Pull) :
    option TransactionsGuard * Pull :=
  let '(remaining_txs, pull) := pull_txs self (guard_transactions t) pull in
  match remaining_txs with
  | [] => (None, mkPull (pull_transactions pull) (pull_acks pull ++ [included_in_block_ack t]) (pull_total_size pull))
  | _ :: _ => (Some (mkTransactionsGuard remaining_txs (included_in_block_ack t)), pull)
  end.

(** The [while] loop of [next] over the channel. *)
Fixpoint pull_channel (self : TransactionConsumer) (tx_receiver : list TransactionsGuard)
    (pending : option TransactionsGuard) (pull : Pull) :
    list TransactionsGuard * option TransactionsGuard * Pull :=
  match pending with
  | Some _ => (tx_receiver, pending, pull)
  | None =>
      match tx_receiver with
      | [] => ([], None, pull)
      | t :: tx_receiver =>
          let '(pending, pull) := handle_txs self t pull in
          pull_channel self tx_receiver pending pull
      end
  end.

(** [next]: the transactions, the acknowledgements to send when they are in a block, and
    the consumer. *)
Definition next (self : TransactionConsumer) : list Transaction * list N * TransactionConsumer :=
  let pull := mkPull [] [] 0 in
  let '(pending, pull) :=
    match pending_transactions self with
    | Some t => handle_txs self t pull
    | None => (None, pull)
    end in
  let '(tx_receiver, pending, pull) := pull_channel self (tx_receiver self) pending pull in
  (pull_transactions pull, pull_acks pull,
   mkTransactionConsumer tx_receiver (max_consumed_bytes_per_request self)
     (max_consumed_transactions_per_request self) pending).

(** ** The client *)

Inductive ClientError : Type :=
| ConsensusShuttingDown (e : string)
| OversizedTransaction (size max : N).

(** The channel: [MAX_PENDING_TRANSACTIONS] batches at most, open or closed. *)
Record Channel := mkChannel {
  chan_queue : list TransactionsGuard;
  chan_open : bool;
}.

(** [submit_no_wait].  [None] is a sender that waits, on a channel that is full. *)
Definition submit_no_wait (max_transaction_size : N) (chan : Channel) (transactions : list bytes) (ack : N) :
    option (Result N ClientError * Channel) :=
  match list_find (λ t, max_transaction_size < N.of_nat (length t)) transactions with
  | Some (_, transaction) =>
      Some (RustErr (OversizedTransaction (N.of_nat (length transaction)) max_transaction_size), chan)
  | None =>
      let t := mkTransactionsGuard (mkTransaction <$> transactions) ack in
      if negb (chan_open chan) then Some (RustErr (ConsensusShuttingDown "channel closed"), chan)
      else if MAX_PENDING_TRANSACTIONS <=? N.of_nat (length (chan_queue chan)) then None
      else Some (RustOk ack, mkChannel (chan_queue chan ++ [t]) true)
  end.

(** ** What the consumer guarantees *)

(** The batches that are left, in order. *)
Definition batches (self : TransactionConsumer) : list TransactionsGuard :=
  option_list (pending_transactions self) ++ tx_receiver self.

Definition batch_txs (l : list TransactionsGuard) : list Transaction := l ≫= guard_transactions.

Definition txs_size (txs : list Transaction) : N := sum_N tx_len txs.

(** [tx] does not fit beside the transactions of [txs]. *)
Definition over_limit (self : TransactionConsumer) (txs : list Transaction) (tx : Transaction) : Prop :=
  max_consumed_bytes_per_request self < txs_size txs + tx_len tx ∨
  max_consumed_transactions_per_request self ≤ N.of_nat (length txs).

Record within_limits (self : TransactionConsumer) (txs : list Transaction) : Prop := {
  wl_bytes : txs_size txs ≤ max_consumed_bytes_per_request self;
  wl_count : N.of_nat (length txs) ≤ max_consumed_transactions_per_request self;
}.

(** One call of [next] split the batches [l] into those that it consumed whole, the part it
    took of the next one, and what is left. *)
Inductive split_batches (l : list TransactionsGuard) (txs : list Transaction) (acks : list N)
    (left : list TransactionsGuard) : Prop :=
| split_whole :
    left = [] → txs = batch_txs l → acks = included_in_block_ack <$> l → split_batches l txs acks left
| split_part consumed t rest taken kept :
    l = consumed ++ t :: rest →
    txs = batch_txs consumed ++ taken →
    guard_transactions t ≡ₚ taken ++ kept → taken `sublist_of` guard_transactions t →
    kept `sublist_of` guard_transactions t → kept ≠ [] →
    acks = included_in_block_ack <$> consumed →
    left = mkTransactionsGuard kept (included_in_block_ack t) :: rest →
    split_batches l txs acks left.

(** [pull] is what was collected, and its size did not overflow. *)
Record pull_ok (self : TransactionConsumer) (pull : Pull) : Prop := {
  pull_size : pull_total_size pull = txs_size (pull_transactions pull);
  pull_limits : within_limits self (pull_transactions pull);
}.

Lemma txs_size_app txs txs' : txs_size (txs ++ txs') = txs_size txs + txs_size txs'.
Proof. unfold txs_size. induction txs as [|tx txs IH]; simpl; lia. Qed.

Lemma batch_txs_app l l' : batch_txs (l ++ l') = batch_txs l ++ batch_txs l'.
Proof. unfold batch_txs. by rewrite bind_app. Qed.

Lemma over_limit_app self txs txs' tx : over_limit self txs tx → over_limit self (txs ++ txs') tx.
Proof. unfold over_limit. rewrite txs_size_app, length_app. intros []; [left | right]; lia. Qed.

Lemma pull_txs_spec self txs pull rem pull' :
  pull_ok self pull → pull_total_size pull + txs_size txs < 2 ^ 64 →
  pull_txs self txs pull = (rem, pull') →
  ∃ taken,
    txs ≡ₚ taken ++ rem ∧ taken `sublist_of` txs ∧ rem `sublist_of` txs ∧
    (rem = [] → taken = txs) ∧
    pull_transactions pull' = pull_transactions pull ++ taken ∧ pull_acks pull' = pull_acks pull ∧
    pull_ok self pull' ∧ ∀ tx, tx ∈ rem → over_limit self (pull_transactions pull') tx.
Proof.
  revert pull rem pull'. induction txs as [|tx txs IH]; intros pull rem pull' Hok Hsz Hp; simpl in Hp.
  - injection Hp as <- <-. exists []. split_and!; try done; [by rewrite app_nil_r |].
    by intros tx Htx%not_elem_of_nil.
  - change (txs_size (tx :: txs)) with (tx_len tx + txs_size txs) in Hsz.
    rewrite u64_add_small in Hp by lia.
    destruct Hok as [Hps [Hl1 Hl2]].
    destruct (orb _ _) eqn:Hfull in Hp.
    + destruct (pull_txs self txs pull) as [rem0 pull0] eqn:E. injection Hp as <- <-.
      destruct (IH pull rem0 pull0) as (taken & Hperm & Hs1 & Hs2 & _ & Ht & Ha & Hok' & Hov);
        [by repeat split | lia | done |].
      exists taken. rewrite <- Permutation_middle, <- Hperm.
      split_and!; [done | by apply sublist_cons | by apply sublist_skip | done | done | done | done |].
      intros tx' [->|Htx']%elem_of_cons; [| by apply Hov].
      rewrite Ht. apply over_limit_app. unfold over_limit. rewrite <- Hps.
      apply orb_true_iff in Hfull as [?%N.ltb_lt|?%N.leb_le]; [by left | by right].
    + apply orb_false_iff in Hfull as [?%N.ltb_ge ?%N.leb_gt].
      destruct (IH (mkPull (pull_transactions pull ++ [tx]) (pull_acks pull) (pull_total_size pull + tx_len tx))
        rem pull') as (taken & Hperm & Hs1 & Hs2 & Hnil & Ht & Ha & Hok' & Hov); [| simpl; lia | done |].
      { repeat split; simpl; rewrite ?txs_size_app, ?length_app, <- ?Hps; unfold txs_size; simpl; lia. }
      exists (tx :: taken). simpl in Ht, Ha |- *. rewrite <- Hperm.
      split_and!; [done | by apply sublist_skip | by apply sublist_cons | | | done | done | done].
      * intros Hr. by rewrite Hnil.
      * by rewrite Ht, <- app_assoc.
Qed.

(** What one batch turns into: it is consumed whole, or a part of it is kept. *)
Lemma handle_txs_spec self t pull pending pull' :
  pull_ok self pull → pull_total_size pull + txs_size (guard_transactions t) < 2 ^ 64 →
  handle_txs self t pull = (pending, pull') →
  pull_ok self pull' ∧
  match pending with
  | None =>
      pull_transactions pull' = pull_transactions pull ++ guard_transactions t ∧
      pull_acks pull' = pull_acks pull ++ [included_in_block_ack t]
  | Some t' => ∃ taken,
      guard_transactions t ≡ₚ taken ++ guard_transactions t' ∧ guard_transactions t' ≠ [] ∧
      taken `sublist_of` guard_transactions t ∧ guard_transactions t' `sublist_of` guard_transactions t ∧
      included_in_block_ack t' = included_in_block_ack t ∧
      pull_transactions pull' = pull_transactions pull ++ taken ∧ pull_acks pull' = pull_acks pull ∧
      ∀ tx, tx ∈ guard_transactions t' → over_limit self (pull_transactions pull') tx
  end.
Proof.
  unfold handle_txs. intros Hok Hsz Hh.
  destruct (pull_txs self (guard_transactions t) pull) as [rem pull0] eqn:E.
  destruct (pull_txs_spec _ _ _ _ _ Hok Hsz E) as (taken & Hperm & Hs1 & Hs2 & Hnil & Ht & Ha & [Hok1 Hok2] & Hov).
  destruct rem as [|tx rem]; injection Hh as <- <-; simpl.
  - rewrite Ha. split; [by split |]. split; [by rewrite Ht, Hnil | done].
  - split; [by split |]. by exists taken.
Qed.

Lemma pull_channel_spec self l pull l' pending pull' :
  pull_ok self pull → pull_total_size pull + txs_size (batch_txs l) < 2 ^ 64 →
  pull_channel self l None pull = (l', pending, pull') →
  pull_ok self pull' ∧
  (∀ t tx, pending = Some t → tx ∈ guard_transactions t → over_limit self (pull_transactions pull') tx) ∧
  (pending = None → l' = []) ∧
  ∃ txs acks,
    pull_transactions pull' = pull_transactions pull ++ txs ∧ pull_acks pull' = pull_acks pull ++ acks ∧
    split_batches l txs acks (option_list pending ++ l').
Proof.
  revert pull. induction l as [|t l IH]; intros pull Hok Hsz Hp; simpl in Hp.
  - injection Hp as <- <- <-. split_and!; [done | done | done |]. exists [], []. rewrite !app_nil_r.
    split_and!; [done | done | by apply split_whole].
  - destruct (handle_txs self t pull) as [p pull0] eqn:E.
    change (batch_txs (t :: l)) with (guard_transactions t ++ batch_txs l) in Hsz.
    rewrite txs_size_app in Hsz.
    destruct (handle_txs_spec self t pull p pull0) as [Hok0 Hspec]; [done | lia | done |].
    destruct p as [t'|].
    + destruct Hspec as (taken & Hperm & Hne & Hs1 & Hs2 & Hack & Ht & Ha & Hov).
      destruct l; injection Hp as <- <- <-; (split_and!; [done | by intros ? tx [= <-]; apply Hov | done |]);
        exists taken, []; rewrite app_nil_r; (split_and!; [done | done |]);
        eapply (split_part _ _ _ _ [] t _ taken (guard_transactions t'));
        try done; rewrite <- Hack; by destruct t'.
    + destruct Hspec as [Ht Ha].
      destruct (IH pull0) as (Hok' & Hov & Hnone & txs & acks & Ht' & Ha' & Hsplit); [done | | done |].
      { destruct Hok0 as [-> _]. destruct Hok as [Hps _]. rewrite Ht, txs_size_app. lia. }
      split_and!; [done | done | done |].
      exists (guard_transactions t ++ txs), (included_in_block_ack t :: acks).
      rewrite Ht', Ht, Ha', Ha, <- !app_assoc. split_and!; [done | done |].
      destruct Hsplit as [Hl -> ->|consumed t' rest taken kept -> -> ? ? ? ? -> ->]; [by apply split_whole |].
      eapply (split_part _ _ _ _ (t :: consumed) t' rest taken kept); try done.
      simpl. by rewrite <- app_assoc.
Qed.

(** [next] handles the part of a batch that is pending as the head of the channel. *)
Lemma next_eq self :
  next self =
    let '(rx, pending, pull) := pull_channel self (batches self) None (mkPull [] [] 0) in
    (pull_transactions pull, pull_acks pull,
     mkTransactionConsumer rx (max_consumed_bytes_per_request self)
       (max_consumed_transactions_per_request self) pending).
Proof.
  unfold next, batches. destruct (pending_transactions self) as [t|]; simpl; [| done].
  by destruct (handle_txs self t (mkPull [] [] 0)).
Qed.

Lemma next_split self txs acks self' :
  txs_size (batch_txs (batches self)) < 2 ^ 64 → next self = (txs, acks, self') →
  within_limits self txs ∧ split_batches (batches self) txs acks (batches self') ∧
  (∀ t tx, pending_transactions self' = Some t → tx ∈ guard_transactions t → over_limit self txs tx) ∧
  (pending_transactions self' = None → tx_receiver self' = []) ∧
  max_consumed_bytes_per_request self' = max_consumed_bytes_per_request self ∧
  max_consumed_transactions_per_request self' = max_consumed_transactions_per_request self.
Proof.
  intros Hsz Hn. rewrite next_eq in Hn.
  destruct (pull_channel self (batches self) None _) as [[rx pending] pull] eqn:E.
  injection Hn as <- <- <-.
  destruct (pull_channel_spec self (batches self) (mkPull [] [] 0) rx pending pull)
    as ([Hps Hlim] & Hov & Hnone & txs & acks & Ht & Ha & Hsplit); [| by simpl | done |].
  { repeat split; apply N.le_0_l. }
  simpl in Ht, Ha. by subst.
Qed.

(** Nothing is lost or duplicated. *)
Lemma split_batches_perm l txs acks left :
  split_batches l txs acks left → batch_txs l ≡ₚ txs ++ batch_txs left.
Proof.
  intros [-> -> _|consumed t rest taken kept -> -> Hperm _ _ _ _ ->]; [by rewrite app_nil_r |].
  rewrite batch_txs_app, <- app_assoc. apply Permutation_app_head.
  change (batch_txs (?t :: rest)) with (guard_transactions t ++ batch_txs rest). simpl.
  by rewrite Hperm, app_assoc.
Qed.

(** one pull of transactions for a block.  It respects both limits of the block, it splits
    what was waiting exactly into what it returns and what still waits, a client is acknowledged
    exactly when the last of its transactions is returned, in the order of submission, and it
    only stops because the batch it stopped at holds nothing more that would fit. *)
Theorem next_spec self txs acks self' :
  txs_size (batch_txs (batches self)) < 2 ^ 64 → next self = (txs, acks, self') →
  within_limits self txs ∧
  batch_txs (batches self) ≡ₚ txs ++ batch_txs (batches self') ∧
  split_batches (batches self) txs acks (batches self') ∧
  match pending_transactions self' with
  | Some t => ∀ tx, tx ∈ guard_transactions t → over_limit self txs tx
  | None => batches self' = []
  end.
Proof.
  intros Hsz Hn. destruct (next_split _ _ _ _ Hsz Hn) as (Hlim & Hsplit & Hov & Hnone & _).
  split_and!; [done | by eapply split_batches_perm | done |].
  unfold batches. destruct (pending_transactions self') as [t|]; [by intros tx; apply Hov | by rewrite Hnone].
Qed.

(** ** Every transaction gets into a block *)

(** The transactions and acknowledgements of [n] calls. *)
Fixpoint next_n (n : nat) (self : TransactionConsumer) : list Transaction * list N * TransactionConsumer :=
  match n with
  | O => ([], [], self)
  | S n =>
      let '(txs, acks, self) := next self in
      let '(txs', acks', self) := next_n n self in
      (txs ++ txs', acks ++ acks', self)
  end.

(** Each transaction fits into a block of its own. *)
Record all_fit (self : TransactionConsumer) : Prop := {
  af_bytes : ∀ tx, tx ∈ batch_txs (batches self) → tx_len tx ≤ max_consumed_bytes_per_request self;
  af_count : 0 < max_consumed_transactions_per_request self;
  af_total : txs_size (batch_txs (batches self)) < 2 ^ 64;
}.

Lemma split_batches_acks l txs acks left :
  split_batches l txs acks left →
  included_in_block_ack <$> l = acks ++ (included_in_block_ack <$> left).
Proof.
  intros [-> _ ->|consumed t rest taken kept -> _ _ _ _ _ -> ->]; [by rewrite app_nil_r |].
  by rewrite fmap_app.
Qed.

Lemma txs_size_perm txs txs' : txs ≡ₚ txs' → txs_size txs = txs_size txs'.
Proof. unfold txs_size. induction 1; simpl; lia. Qed.

(** A call keeps the conditions, and takes a transaction unless it takes everything. *)
Lemma next_progress self txs acks self' :
  all_fit self → next self = (txs, acks, self') →
  all_fit self' ∧ (txs = [] → batches self' = []).
Proof.
  intros [Hb Hc Ht] Hn.
  destruct (next_split _ _ _ _ Ht Hn) as (_ & Hsplit & Hov & Hnone & Emb & Emc).
  pose proof (split_batches_perm _ _ _ _ Hsplit) as Hperm. split.
  - split; rewrite ?Emb, ?Emc; [| done |].
    + intros tx Htx. apply Hb. rewrite Hperm. apply elem_of_app. by right.
    + rewrite (txs_size_perm _ _ Hperm), txs_size_app in Ht. lia.
  - intros ->. revert Hov Hnone. unfold batches at 1.
    destruct (pending_transactions self') as [t|] eqn:Ep; [| by intros _ ->].
    intros Hov _. destruct (guard_transactions t) as [|tx l] eqn:Et.
    + destruct Hsplit as [Hl _ _|consumed t' rest taken kept _ _ _ _ _ Hne _ Hl];
        unfold batches in Hl; rewrite Ep in Hl; simpl in Hl; [done |].
      injection Hl as -> _. by simpl in Et.
    + destruct (Hov t tx eq_refl) as [Ho|Ho]; [rewrite Et; left | |].
      * assert (tx ∈ batch_txs (batches self)) as ?%Hb; [| cbn in Ho; lia].
        rewrite Hperm. unfold batches. rewrite Ep. unfold batch_txs. simpl. rewrite Et. left.
      * simpl in Ho. lia.
Qed.

(** C32: every submitted transaction gets into a block.  If each transaction fits into a block,
    as many calls as there are transactions, and one more, return all the transactions that
    were waiting, each of them once, and acknowledge all the batches in the order in which they
    were submitted. *)
Theorem next_complete self n :
  all_fit self → (length (batch_txs (batches self)) < n)%nat →
  let '(txs, acks, self') := next_n n self in
  txs ≡ₚ batch_txs (batches self) ∧ acks = included_in_block_ack <$> batches self ∧ batches self' = [].
Proof.
  assert (∀ m self, batches self = [] → next_n m self = ([], [], self)) as Hstop.
  { induction m as [|m IH]; intros c Hc; [done |]. simpl. rewrite next_eq, Hc. simpl.
    unfold batches in Hc. destruct c as [rx mb mc [t|]]; [done |]. simpl in Hc. subst rx. simpl.
    by rewrite IH. }
  revert self. induction n as [|n IH]; intros self Hfit Hn; [lia |]. simpl.
  destruct (next self) as [[txs acks] self'] eqn:E.
  destruct (next_progress _ _ _ _ Hfit E) as [Hfit' Hnil].
  destruct (next_split _ _ _ _ (af_total _ Hfit) E) as (_ & Hsplit & _).
  pose proof (split_batches_perm _ _ _ _ Hsplit) as Hperm.
  pose proof (split_batches_acks _ _ _ _ Hsplit) as Hacks.
  destruct txs as [|tx txs].
  - rewrite Hstop by auto. rewrite Hperm, Hacks, Hnil, !app_nil_r by done. done.
  - specialize (IH self' Hfit'). destruct (next_n n self') as [[txs' acks'] self''].
    destruct IH as (IHt & -> & IHb); [rewrite Hperm in Hn; simpl in Hn; rewrite length_app in Hn; lia |].
    split_and!; [by rewrite IHt | done | done].
Qed.

(** ** Submitting *)

(** a submission is refused when one of its transactions is over the size limit, and nothing
    of it is then submitted; otherwise, on an open channel with room, the whole batch is the last
    that the consumer will see, so with a limit within the consumer's every submitted
    transaction fits into a block. *)
Theorem submit_no_wait_spec max chan txs ack :
  match submit_no_wait max chan txs ack with
  | Some (RustErr (OversizedTransaction size m), chan') =>
      chan' = chan ∧ m = max ∧ max < size ∧ ∃ tx, tx ∈ txs ∧ size = N.of_nat (length tx)
  | Some (RustErr (ConsensusShuttingDown _), chan') => chan' = chan ∧ chan_open chan = false
  | Some (RustOk ack', chan') =>
      ack' = ack ∧ chan_open chan' = true ∧
      batch_txs (chan_queue chan') = batch_txs (chan_queue chan) ++ (mkTransaction <$> txs) ∧
      included_in_block_ack <$> chan_queue chan' = (included_in_block_ack <$> chan_queue chan) ++ [ack] ∧
      N.of_nat (length (chan_queue chan')) ≤ MAX_PENDING_TRANSACTIONS ∧
      ∀ tx, tx ∈ mkTransaction <$> txs → tx_len tx ≤ max
  | None => MAX_PENDING_TRANSACTIONS ≤ N.of_nat (length (chan_queue chan))
  end.
Proof.
  unfold submit_no_wait. destruct (list_find _ txs) as [[i tx]|] eqn:Ef.
  - apply list_find_Some in Ef as (Hi & Hlt & _). split_and!; [done | done | done |].
    exists tx. split; [by eapply list_elem_of_lookup_2 | done].
  - apply list_find_None in Ef. destruct (chan_open chan); simpl; [| done].
    case N.leb_spec; intros Hq; [done |]. simpl.
    rewrite batch_txs_app, fmap_app, length_app. unfold batch_txs at 2. simpl. rewrite app_nil_r.
    split_and!; [done | done | done | done | simpl; lia |].
    intros tx (tx' & -> & Htx)%list_elem_of_fmap. rewrite Forall_forall in Ef.
    specialize (Ef _ Htx). unfold tx_len. simpl. lia.
Qed.
