(* ===== verification/LeaderScoring.v ===== *)
(** Reputation scores of the authorities, from the sub-dags committed since the last change
    of the leader schedule ([consensus/core/src/leader_scoring.rs] and
    [leader_scoring_strategy.rs]). *)

From stdpp Require Import base strings numbers sorting gmap sets relations list.
From S2P Require Import Prelude Committee Block Dag StakeAggregator Commit Store.

Open Scope N_scope.

(** ** The blocks to score *)

Record UnscoredSubdag := mkUnscoredSubdag {
  us_context : Context;
  us_commit_range : CommitRange;
  us_committed_leaders : list BlockRef;
  us_blocks : gmap BlockRef VerifiedBlock;
}.

(** The closure of [UnscoredSubdag::new] over the sub-dags: the leaders and the blocks, with
    the check that the commit indices are contiguous. *)
Fixpoint collect_subdags (previous_subdag : option CommittedSubDag) (subdags : list CommittedSubDag) :
    outcome (list BlockRef * list VerifiedBlock) :=
  match subdags with
  | [] => Ok ([], [])
  | subdag :: subdags =>
      _ ← match previous_subdag with
          | None => Ok ()
          | Some previous_subdag =>
              assert_ (cr_index (sd_commit_ref subdag) =? cr_index (sd_commit_ref previous_subdag) +u32 1)
                "Non-contiguous commit index"
          end;
      '(leaders, blocks) ← collect_subdags (Some subdag) subdags;
      Ok (sd_leader subdag :: leaders, sd_blocks subdag ++ blocks)
  end.

Definition unscored_subdag_new (context : Context) (subdags : list CommittedSubDag) :
    outcome UnscoredSubdag :=
  '(committed_leaders, blocks) ← collect_subdags None subdags;
  let blocks := insert_blocks blocks ∅ in
  first ← expect (head subdags) "called `Option::unwrap()` on a `None` value";
  last ← expect (last subdags) "called `Option::unwrap()` on a `None` value";
  let commit_range := mkCommitRange (cr_index (sd_commit_ref first))
                        (cr_index (sd_commit_ref last) +u32 1) in
  _ ← assert_ (negb (bool_decide (blocks = ∅))) "Attempted to create UnscoredSubdag with no blocks";
  Ok (mkUnscoredSubdag context commit_range committed_leaders blocks).

Definition us_get_block (self : UnscoredSubdag) (block_ref : BlockRef) : option VerifiedBlock :=
  us_blocks self !! block_ref.

(** The loop of [find_supported_leader_block] over the ancestors; [find] is the recursive
    call.  A missing ancestor ends the search. *)
Fixpoint us_find_in_ancestors (self : UnscoredSubdag) (leader_slot : Slot)
    (find : VerifiedBlock → outcome (option BlockRef)) (ancestors : list BlockRef) :
    outcome (option BlockRef) :=
  match ancestors with
  | [] => Ok None
  | ancestor :: ancestors =>
      if bool_decide (slot_of_ref ancestor = leader_slot) then Ok (Some ancestor)
      else if br_round ancestor <=? slot_round leader_slot then
        us_find_in_ancestors self leader_slot find ancestors
      else
        match us_get_block self ancestor with
        | Some block =>
            support ← find block;
            match support with
            | Some support => Ok (Some support)
            | None => us_find_in_ancestors self leader_slot find ancestors
            end
        | None => Ok None
        end
  end.

(** As in the base committer, the distance to the leader's round bounds the recursion. *)
Fixpoint us_find_supported_fuel (fuel : nat) (self : UnscoredSubdag) (leader_slot : Slot)
    (from : VerifiedBlock) : outcome (option BlockRef) :=
  if vb_round from <? slot_round leader_slot then Ok None
  else
    match fuel with
    | O => OutOfFuel
    | S fuel =>
        us_find_in_ancestors self leader_slot (us_find_supported_fuel fuel self leader_slot)
          (vb_ancestors from)
    end.

Definition us_find_supported_leader_block (self : UnscoredSubdag) (leader_slot : Slot)
    (from : VerifiedBlock) : outcome (option BlockRef) :=
  us_find_supported_fuel (S (N.to_nat (vb_round from - slot_round leader_slot))) self leader_slot from.

Definition us_is_vote (self : UnscoredSubdag) (potential_vote leader_block : VerifiedBlock) :
    outcome bool :=
  let reference := reference leader_block in
  let leader_slot := slot_of_ref reference in
  supported ← us_find_supported_leader_block self leader_slot potential_vote;
  Ok (bool_decide (supported = Some reference)).

(** The loop of [is_certificate]. *)
Fixpoint us_is_certificate_loop (self : UnscoredSubdag) (leader_block : VerifiedBlock)
    (references : list BlockRef) (all_votes : gmap BlockRef bool)
    (agg : StakeAggregator QuorumThreshold) : outcome (bool * gmap BlockRef bool) :=
  match references with
  | [] => Ok (false, all_votes)
  | reference :: references =>
      '(vote, all_votes) ←
        match all_votes !! reference with
        | Some vote => Ok (vote, all_votes)
        | None =>
            match us_get_block self reference with
            | Some potential_vote =>
                vote ← us_is_vote self potential_vote leader_block;
                Ok (vote, <[reference := vote]> all_votes)
            | None => Ok (false, all_votes)
            end
        end;
      if vote : bool then
        '(reached, agg) ← aggregator_add agg (br_author reference) (committee (us_context self));
        if reached : bool then Ok (true, all_votes)
        else us_is_certificate_loop self leader_block references all_votes agg
      else us_is_certificate_loop self leader_block references all_votes agg
  end.

Definition us_is_certificate (self : UnscoredSubdag) (potential_certificate leader_block : VerifiedBlock)
    (all_votes : gmap BlockRef bool) : outcome (bool * gmap BlockRef bool) :=
  us_is_certificate_loop self leader_block (vb_ancestors potential_certificate) all_votes aggregator_new.

Definition us_get_blocks_at_slot (self : UnscoredSubdag) (slot : Slot) : outcome (list VerifiedBlock) :=
  blocks ← bt_range
    (Included (mkBlockRef (slot_round slot) (slot_authority slot) DIGEST_MIN))
    (Included (mkBlockRef (slot_round slot) (slot_authority slot) DIGEST_MAX))
    (us_blocks self);
  Ok blocks.*2.

Definition us_get_blocks_at_round (self : UnscoredSubdag) (round : Round) : outcome (list VerifiedBlock) :=
  blocks ← bt_range
    (Included (mkBlockRef round 0 DIGEST_MIN))
    (Excluded (mkBlockRef (round +u32 1) 0 DIGEST_MIN))
    (us_blocks self);
  Ok blocks.*2.

(** ** Scoring strategies *)

Inductive ScoringStrategy : Type :=
| CertifiedVoteScoringStrategyV2
| CertifiedVoteScoringStrategyV1
| VoteScoringStrategy
| CertificateScoringStrategy.

(** [scores_per_authority[authority] += score]. *)
Definition add_score (authority : AuthorityIndex) (score : N) (scores : list N) : outcome (list N) :=
  old ← vec_index scores authority;
  vec_set scores authority (old +u64 score).

(** What the strategies start with: no scores, and the block of the leader.  [None] when
    the slot has no block among those to score. *)
Definition leader_block_to_score (subdag : UnscoredSubdag) (leader_slot : Slot) :
    outcome (option VerifiedBlock) :=
  leader_blocks ← us_get_blocks_at_slot subdag leader_slot;
  if bool_decide (leader_blocks = []) then Ok None
  else
    _ ← assert_ (N.of_nat (length leader_blocks) =? 1) "assertion failed: leader_blocks.len() == 1";
    leader_block ← expect (head leader_blocks) "called `Option::unwrap()` on a `None` value";
    Ok (Some leader_block).

Definition no_scores (subdag : UnscoredSubdag) : list N :=
  replicate (N.to_nat (committee_size (committee (us_context subdag)))) 0.

(** The votes that the certified vote strategies gather: whether the block is a vote, and
    the stake of the blocks of the decision round that name it. *)
Abbreviation certified_votes := (gmap BlockRef (bool * StakeAggregator QuorumThreshold)).

Definition gather_vote (subdag : UnscoredSubdag) (leader_block : VerifiedBlock)
    (authority : AuthorityIndex) (all_votes : certified_votes) (reference : BlockRef) :
    outcome certified_votes :=
  match all_votes !! reference with
  | Some (is_vote, stake_agg) =>
      if is_vote : bool then
        '(_, stake_agg) ← aggregator_add stake_agg authority (committee (us_context subdag));
        Ok (<[reference := (is_vote, stake_agg)]> all_votes)
      else Ok all_votes
  | None =>
      match us_get_block subdag reference with
      | Some potential_vote =>
          is_vote ← us_is_vote subdag potential_vote leader_block;
          '(_, stake_agg) ← aggregator_add aggregator_new authority (committee (us_context subdag));
          Ok (<[reference := (is_vote, stake_agg)]> all_votes)
      | None => Ok all_votes
      end
  end.

Definition gather_votes (subdag : UnscoredSubdag) (leader_block : VerifiedBlock)
    (decision_blocks : list VerifiedBlock) : outcome certified_votes :=
  foldM (λ all_votes potential_cert,
      foldM (gather_vote subdag leader_block (br_author (reference potential_cert))) all_votes
        (vb_ancestors potential_cert))
    ∅ decision_blocks.

(** [CertifiedVoteScoringStrategyV2::calculate_scores_for_leader]. *)
Definition certified_vote_v2_scores (subdag : UnscoredSubdag) (leader_slot : Slot) : outcome (list N) :=
  let decision_round := slot_round leader_slot +u32 DEFAULT_WAVE_LENGTH -u32 1 in
  leader_block ← leader_block_to_score subdag leader_slot;
  match leader_block with
  | None => Ok (no_scores subdag)
  | Some leader_block =>
      decision_blocks ← us_get_blocks_at_round subdag decision_round;
      all_votes ← gather_votes subdag leader_block decision_blocks;
      foldM (λ scores '(vote_ref, (is_vote, stake_agg)),
          if is_vote : bool then add_score (br_author vote_ref) (agg_stake stake_agg) scores
          else Ok scores)
        (no_scores subdag) (map_to_list all_votes)
  end.

(** [CertifiedVoteScoringStrategyV1::calculate_scores_for_leader]. *)
Definition certified_vote_v1_scores (subdag : UnscoredSubdag) (leader_slot : Slot) : outcome (list N) :=
  let decision_round := slot_round leader_slot +u32 DEFAULT_WAVE_LENGTH -u32 1 in
  leader_block ← leader_block_to_score subdag leader_slot;
  match leader_block with
  | None => Ok (no_scores subdag)
  | Some leader_block =>
      decision_blocks ← us_get_blocks_at_round subdag decision_round;
      all_votes ← gather_votes subdag leader_block decision_blocks;
      foldM (λ scores '(vote_ref, (is_vote, stake_agg)),
          if is_vote && reached_threshold stake_agg (committee (us_context subdag))
          then add_score (br_author vote_ref) 1 scores
          else Ok scores)
        (no_scores subdag) (map_to_list all_votes)
  end.

(** [VoteScoringStrategy::calculate_scores_for_leader]. *)
Definition vote_scores (subdag : UnscoredSubdag) (leader_slot : Slot) : outcome (list N) :=
  leader_block ← leader_block_to_score subdag leader_slot;
  match leader_block with
  | None => Ok (no_scores subdag)
  | Some leader_block =>
      let voting_round := slot_round leader_slot +u32 1 in
      voting_blocks ← us_get_blocks_at_round subdag voting_round;
      foldM (λ scores potential_vote,
          is_vote ← us_is_vote subdag potential_vote leader_block;
          if is_vote : bool then add_score (vb_author potential_vote) 1 scores else Ok scores)
        (no_scores subdag) voting_blocks
  end.

(** [CertificateScoringStrategy::calculate_scores_for_leader]. *)
Definition certificate_scores (subdag : UnscoredSubdag) (leader_slot : Slot) : outcome (list N) :=
  let decision_round := slot_round leader_slot +u32 DEFAULT_WAVE_LENGTH -u32 1 in
  leader_block ← leader_block_to_score subdag leader_slot;
  match leader_block with
  | None => Ok (no_scores subdag)
  | Some leader_block =>
      decision_blocks ← us_get_blocks_at_round subdag decision_round;
      '(scores, _) ← foldM (λ '(scores, all_votes) potential_cert,
          '(certificate, all_votes) ← us_is_certificate subdag potential_cert leader_block all_votes;
          scores ← (if certificate : bool
                    then add_score (br_author (reference potential_cert)) 1 scores else Ok scores);
          Ok (scores, all_votes))
        (no_scores subdag, ∅) decision_blocks;
      Ok scores
  end.

Definition calculate_scores_for_leader (strategy : ScoringStrategy) (subdag : UnscoredSubdag)
    (leader_slot : Slot) : outcome (list N) :=
  match strategy with
  | CertifiedVoteScoringStrategyV2 => certified_vote_v2_scores subdag leader_slot
  | CertifiedVoteScoringStrategyV1 => certified_vote_v1_scores subdag leader_slot
  | VoteScoringStrategy => vote_scores subdag leader_slot
  | CertificateScoringStrategy => certificate_scores subdag leader_slot
  end.

(** [leader_scoring_round_range]: the rounds whose leaders can be scored. *)
Definition leader_scoring_round_range (strategy : ScoringStrategy) (min_round max_round : Round) :
    outcome (Round * Round) :=
  match strategy with
  | VoteScoringStrategy =>
      _ ← assert_ (min_round <? max_round) "assertion failed: min_round < max_round";
      Ok (min_round, max_round)
  | CertifiedVoteScoringStrategyV2 | CertifiedVoteScoringStrategyV1 | CertificateScoringStrategy =>
      _ ← assert_ (min_round <? max_round -u32 1) "assertion failed: min_round < max_round - 1";
      Ok (min_round, max_round - 1)
  end.

(** ** The calculator *)

Record ReputationScoreCalculator := mkReputationScoreCalculator {
  calc_commit_range : CommitRange;
  calc_scores_per_authority : list N;
  calc_unscored_subdag : UnscoredSubdag;
  calc_scoring_strategy : ScoringStrategy;
}.

Definition calculator_new (context : Context) (unscored_subdags : list CommittedSubDag)
    (scoring_strategy : ScoringStrategy) : outcome ReputationScoreCalculator :=
  let num_authorities := N.to_nat (committee_size (committee context)) in
  _ ← assert_ (negb (bool_decide (length unscored_subdags = 0%nat)))
        "Attempted to calculate scores with no unscored subdags";
  unscored_subdag ← unscored_subdag_new context unscored_subdags;
  Ok (mkReputationScoreCalculator (us_commit_range unscored_subdag) (replicate num_authorities 0)
        unscored_subdag scoring_strategy).

(** [add_scores]. *)
Definition add_scores (scores_per_authority scores : list N) : outcome (list N) :=
  _ ← assert_ (N.of_nat (length scores) =? N.of_nat (length scores_per_authority))
        "assertion failed: scores.len() == self.scores_per_authority.len()";
  foldM (λ acc '(authority_idx, score), add_score authority_idx score acc) scores_per_authority
    (enumerate scores).

Definition calculate (self : ReputationScoreCalculator) : outcome ReputationScores :=
  scores_per_authority ← foldM (λ scores_per_authority leader,
      let leader_slot := slot_of_ref leader in
      scores ← calculate_scores_for_leader (calc_scoring_strategy self) (calc_unscored_subdag self) leader_slot;
      add_scores scores_per_authority scores)
    (calc_scores_per_authority self) (us_committed_leaders (calc_unscored_subdag self));
  Ok (mkReputationScores scores_per_authority (calc_commit_range self)).

(** [ReputationScores::authorities_by_score]. *)
Definition authorities_by_score (self : ReputationScores) (context : Context) :
    outcome (list (AuthorityIndex * N)) :=
  mapM (λ '(index, score),
      authority ← expect (to_authority_index (committee context) index) "Should be a valid AuthorityIndex";
      Ok (authority, score))
    (enumerate (scores_per_authority self)).

(** [ReputationScores::update_metrics], of which only the lookups matter. *)
Definition scores_update_metrics (self : ReputationScores) (context : Context) : outcome () :=
  foldM (λ _ '(index, _),
      authority_index ← expect (to_authority_index (committee context) index)
                          "Should be a valid AuthorityIndex";
      _ ← committee_authority (committee context) authority_index;
      Ok ())
    () (enumerate (scores_per_authority self)).
