(* ===== verification/LeaderScoringFacts.v ===== *)
(** What scoring guarantees: on committed sub-dags it never panics, whatever the strategy, and
    the votes strategy counts the votes for the committed leaders. *)

From stdpp Require Import base strings numbers sorting gmap sets relations list.
From S2P Require Import Prelude Committee Block Dag StakeAggregator Commit Store DagState DagStateFacts LeaderScoring.

Open Scope N_scope.

(** ** Adding up scores *)

Lemma sum_enumerate_from i k (l : list N) :
  sum_N (λ p, if decide (N.of_nat (k + i) = p.1) then p.2 else 0) (enumerate_from (N.of_nat k) l) =
    default 0 (l !! i).
Proof.
  revert i k. induction l as [|x l IH]; intros i k; [done|]. simpl. destruct i as [|i].
  - rewrite Nat.add_0_r, decide_True by done. rewrite sum_N_zero; [simpl; lia|].
    intros [j y] Hj%elem_of_enumerate_from. rewrite decide_False by (simpl; lia). done.
  - rewrite decide_False by lia. simpl. rewrite <-(IH i (S k)).
    replace (N.of_nat k + 1) with (N.of_nat (S k)) by lia.
    apply sum_N_ext. intros p _. by replace (k + S i)%nat with (S k + i)%nat by lia.
Qed.

Section scores.
Context (n : nat).

(** Scores of [n] authorities, in [u64]. *)
Definition scores_ok (scores : list N) : Prop := length scores = n ∧ ∀ s, s ∈ scores → s < 2 ^ 64.

Lemma zero_scores_ok : scores_ok (replicate n 0).
Proof. split; [apply length_replicate|]. intros s [-> _]%elem_of_replicate. done. Qed.

Lemma add_score_Ok a w scores :
  scores_ok scores → (N.to_nat a < n)%nat →
  ∃ scores', add_score a w scores = Ok scores' ∧ scores_ok scores' ∧
    ∀ i s, scores !! i = Some s →
      scores' !! i = Some (wrap64 (s + if decide (N.of_nat i = a) then w else 0)).
Proof.
  intros [Hlen Hb] Ha. destruct (lookup_lt_is_Some_2 scores (N.to_nat a)) as [old Hold]; [lia|].
  unfold add_score, vec_set, vec_index. rewrite Hold. simpl. eexists. split; [done|]. split; [split|].
  - by rewrite length_insert.
  - intros s (i & Hi)%list_elem_of_lookup. apply list_lookup_insert_Some in Hi as [(_ & <- & _)|[_ Hi]].
    + apply N.mod_lt. done.
    + by eapply Hb, list_elem_of_lookup_2.
  - intros i s Hi. destruct (decide (N.of_nat i = a)) as [<-|Hne].
    + rewrite Nat2N.id in *. rewrite list_lookup_insert_eq by lia. by simplify_eq.
    + rewrite list_lookup_insert_ne by lia. rewrite N.add_0_r, wrap64_small; [done|].
      by eapply Hb, list_elem_of_lookup_2.
Qed.

(** A loop that adds to each authority what the elements give it. *)
Lemma score_fold {A} (f : list N → A → outcome (list N)) (key : A → AuthorityIndex) (w : A → N) l scores :
  scores_ok scores →
  (∀ scores x, scores_ok scores → x ∈ l →
     f scores x = add_score (key x) (w x) scores ∧ (N.to_nat (key x) < n)%nat ∨
     f scores x = Ok scores ∧ w x = 0) →
  ∃ scores', foldM f scores l = Ok scores' ∧ scores_ok scores' ∧
    ∀ i s, scores !! i = Some s →
      scores' !! i = Some (wrap64 (s + sum_N (λ x, if decide (N.of_nat i = key x) then w x else 0) l)).
Proof.
  revert scores. induction l as [|x l IH]; intros scores Hs Hf.
  { exists scores. split_and!; [done..|]. intros i s Hi. simpl. rewrite N.add_0_r, wrap64_small; [done|].
    by eapply Hs, list_elem_of_lookup_2. }
  assert (∃ scores1, f scores x = Ok scores1 ∧ scores_ok scores1 ∧ ∀ i s, scores !! i = Some s →
    scores1 !! i = Some (wrap64 (s + if decide (N.of_nat i = key x) then w x else 0))) as (scores1 & Hx & Hs1 & Hl1).
  { destruct (Hf scores x Hs) as [[-> Hk]|[-> Hw]]; [left|by apply add_score_Ok|].
    exists scores. split_and!; [done..|]. intros i s Hi. rewrite Hw.
    destruct (decide _); rewrite N.add_0_r, wrap64_small; try done; by eapply Hs, list_elem_of_lookup_2. }
  destruct (IH scores1 Hs1) as (scores' & Hf' & Hs' & Hl'); [intros; apply Hf; [done|by right]|].
  exists scores'. cbn [foldM]. rewrite Hx. split_and!; [done..|]. intros i s Hi.
  rewrite (Hl' i _ (Hl1 i s Hi)). simpl. f_equal. unfold wrap64.
  rewrite N.Div0.add_mod_idemp_l. f_equal. lia.
Qed.
End scores.

(** ** Scoring one leader *)

(** The votes of an authority for a leader: its blocks of the next round that name it. *)
Definition votes_for (V : dag) (leader : BlockRef) (a : AuthorityIndex) : N :=
  N.of_nat (size (filter (λ p, br_author p.1 = a ∧ br_round p.1 = br_round leader + 1 ∧
    leader ∈ vb_ancestors p.2) V)).

Section unscored.
Context (u : UnscoredSubdag).
Let c : Committee := committee (us_context u).
Let n : nat := N.to_nat (committee_size c).

(** Blocks of the committee under their references, with ancestors in earlier rounds, and
    rounds far from overflowing. *)
Record unscored_wf : Prop := {
  uw_committee : committee_wf c;
  uw_reference r b : us_blocks u !! r = Some b → reference b = r ∧ ref_in_bounds r;
  uw_author r b : us_blocks u !! r = Some b → br_author r < committee_size c;
  uw_bound r b : us_blocks u !! r = Some b → br_round r + 3 < U32_MAX;
  uw_round r b a : us_blocks u !! r = Some b → a ∈ vb_ancestors b → br_round a < br_round r;
  uw_distinct r b : us_blocks u !! r = Some b → NoDup (br_author <$> vb_ancestors b);
}.
Context (Hu : unscored_wf).

(** The search for a supported block terminates. *)
Lemma us_find_total fuel slot from :
  (∀ a, a ∈ vb_ancestors from → br_round a < vb_round from) →
  vb_round from - slot_round slot < N.of_nat fuel →
  ∃ o, us_find_supported_fuel fuel u slot from = Ok o.
Proof.
  revert from. induction fuel as [|fuel IH]; intros from Hanc Hfuel; [lia|]. simpl.
  destruct (vb_round from <? slot_round slot) eqn:Hlt; reflect_bools; [by eexists|].
  revert Hanc. generalize (vb_ancestors from). intros ancs Hanc.
  induction ancs as [|a ancs IHa]; simpl; [by eexists|].
  case_bool_decide; [by eexists|].
  destruct (br_round a <=? slot_round slot) eqn:Hle; reflect_bools; [apply IHa; intros; apply Hanc; by right|].
  unfold us_get_block. destruct (us_blocks u !! a) as [b|] eqn:Hb; [|by eexists].
  destruct (uw_reference Hu _ _ Hb) as [Hr _]. pose proof (Hanc a ltac:(left)).
  assert (vb_round b = br_round a) as Hbr by by rewrite <-Hr.
  destruct (IH b) as [o ->]; [intros a' Ha'; rewrite Hbr; by eapply uw_round|lia|]. simpl.
  destruct o; [by eexists|]. apply IHa. intros. apply Hanc. by right.
Qed.

Lemma us_is_vote_total r b leader :
  us_blocks u !! r = Some b → ∃ v, us_is_vote u b leader = Ok v.
Proof.
  intros Hb. destruct (uw_reference Hu _ _ Hb) as [Hr _].
  unfold us_is_vote, us_find_supported_leader_block.
  edestruct us_find_total as [o ->]; [|rewrite Nat2N.inj_succ, N2Nat.id; apply N.lt_succ_diag_r|by eexists].
  intros a Ha. rewrite <-(reference_round b), Hr. by eapply uw_round.
Qed.

(** A block of the next round votes for the leader it names. *)
Lemma us_is_vote_direct r b leader :
  us_blocks u !! r = Some b → br_round r = vb_round leader + 1 →
  us_is_vote u b leader = Ok (bool_decide (reference leader ∈ vb_ancestors b)).
Proof.
  intros Hb Hround. destruct (uw_reference Hu _ _ Hb) as [Hr _].
  assert (Hanc : ∀ a, a ∈ vb_ancestors b → br_round a ≤ vb_round leader).
  { intros a Ha. pose proof (uw_round Hu _ _ _ Hb Ha). lia. }
  pose proof (uw_distinct Hu _ _ Hb) as Hnd.
  unfold us_is_vote, us_find_supported_leader_block. simpl.
  rewrite (proj2 (N.ltb_ge (vb_round b) (vb_round leader))) by (rewrite <-(reference_round b), Hr; lia).
  generalize (us_find_supported_fuel (N.to_nat (vb_round b - vb_round leader)) u (slot_of_ref (reference leader))).
  intros find. revert Hanc Hnd. generalize (vb_ancestors b). intros ancs.
  induction ancs as [|a ancs IH]; intros Hanc Hnd.
  { done. }
  simpl in Hnd. apply NoDup_cons in Hnd as [Hni Hnd].
  cbn [us_find_in_ancestors].
  destruct (decide (slot_of_ref a = slot_of_ref (reference leader))) as [Hslot|Hslot].
  - rewrite (bool_decide_eq_true_2 _ Hslot). simpl. f_equal. apply bool_decide_ext. split; [intros [= ->]; left|].
    intros [->|Hin]%elem_of_cons; [done|]. exfalso. apply Hni. injection Hslot as _ ->.
    change (vb_author leader) with (br_author (reference leader)). by apply list_elem_of_fmap_2.
  - rewrite (bool_decide_eq_false_2 _ Hslot). simpl. rewrite (proj2 (N.leb_le _ _)) by (apply Hanc; left).
    rewrite IH; [|intros; apply Hanc; by right|done]. f_equal. apply bool_decide_ext.
    rewrite elem_of_cons. split; [by right|]. intros [<-|?]; [done|done].
Qed.

(** At most one block at the leader's slot. *)
Definition one_block (slot : Slot) : Prop :=
  ∀ r1 b1 r2 b2, us_blocks u !! r1 = Some b1 → us_blocks u !! r2 = Some b2 →
    slot_of_ref r1 = slot → slot_of_ref r2 = slot → r1 = r2.

Lemma leader_block_to_score_Ok slot :
  one_block slot →
  (∃ b, leader_block_to_score u slot = Ok (Some b) ∧ us_blocks u !! reference b = Some b ∧ vb_slot b = slot) ∨
  (leader_block_to_score u slot = Ok None ∧ ∀ b, us_blocks u !! reference b = Some b → vb_slot b ≠ slot).
Proof.
  intros Hone. unfold leader_block_to_score, us_get_blocks_at_slot.
  destruct (blocks_at_slot (us_blocks u) slot (uw_reference Hu)) as (l & -> & Hnd & Hin). simpl.
  case_bool_decide as Hnil; [right|left].
  { split; [done|]. intros b Hb Hs. apply (not_elem_of_nil b). rewrite <-Hnil. by apply Hin. }
  destruct (l.*2) as [|b [|b' bs]]; [done| |].
  - exists b. split; [done|]. apply Hin. left.
  - exfalso. destruct (proj1 (Hin b)) as [Hb Hs]; [left|]. destruct (proj1 (Hin b')) as [Hb' Hs'];
      [right; left|].
    assert (reference b = reference b') as Heq by by eapply Hone.
    rewrite Heq in Hb. rewrite Hb' in Hb. injection Hb as ->.
    apply NoDup_cons in Hnd as [Hni _]. apply Hni. left.
Qed.

Lemma us_blocks_at_round round :
  round < U32_MAX →
  ∃ l, us_get_blocks_at_round u round = Ok l ∧ NoDup l ∧
    ∀ b, b ∈ l ↔ us_blocks u !! reference b = Some b ∧ vb_round b = round.
Proof.
  intros Hr. unfold us_get_blocks_at_round.
  destruct (blocks_at_round (us_blocks u) round) as (l & -> & Hnd & Hin);
    [intros r b Hb; by apply (uw_reference Hu _ _ Hb)|done|].
  by exists l.*2.
Qed.

(** ** Votes *)

Lemma vote_scores_Ok leader :
  one_block (slot_of_ref leader) → is_Some (us_blocks u !! leader) →
  ∃ scores, vote_scores u (slot_of_ref leader) = Ok scores ∧ scores_ok n scores ∧
    ∀ a, (a < n)%nat → scores !! a = Some (wrap64 (votes_for (us_blocks u) leader (N.of_nat a))).
Proof.
  intros Hone [lb Hlb]. destruct (uw_reference Hu _ _ Hlb) as [Hlr _].
  pose proof (uw_bound Hu _ _ Hlb) as Hbd. unfold vote_scores.
  destruct (leader_block_to_score_Ok _ Hone) as [(b & -> & Hb & Hs)|[_ Hno]].
  2:{ exfalso. apply (Hno lb); [by rewrite Hlr|]. by rewrite <-Hlr. }
  assert (reference b = leader) as Hbl by by eapply (Hone _ _ _ _ Hb Hlb).
  simpl. rewrite u32_add_small by (unfold U32_MAX in *; lia).
  destruct (us_blocks_at_round (br_round leader + 1)) as (vbs & -> & Hnd & Hin); [unfold U32_MAX in *; lia|]. simpl.
  destruct (score_fold n (λ scores potential_vote,
      is_vote ← us_is_vote u potential_vote b;
      if is_vote : bool then add_score (vb_author potential_vote) 1 scores else Ok scores) vb_author
      (λ v, if decide (leader ∈ vb_ancestors v) then 1 else 0) vbs (no_scores u))
    as (scores & -> & Hok & Hl); [apply zero_scores_ok| |].
  { intros scores v _ [Hv Hr]%Hin. rewrite (us_is_vote_direct _ _ _ Hv), Hbl by
      (rewrite <-(reference_round b), Hbl; exact Hr).
    simpl. case_bool_decide; [left|right]; rewrite ?decide_True, ?decide_False by done; [|done].
    split; [done|]. pose proof (uw_author Hu _ _ Hv). simpl in *. unfold n. lia. }
  exists scores. split_and!; [done..|]. intros a Ha.
  rewrite (Hl a 0) by (apply lookup_replicate; split; [done|exact Ha]). f_equal. f_equal. rewrite N.add_0_l.
  rewrite (sum_N_ext _ (λ v, if decide (vb_author v = N.of_nat a ∧ leader ∈ vb_ancestors v) then 1 else 0)).
  2:{ intros v _. repeat destruct (decide _); naive_solver. }
  rewrite sum_indicator. unfold votes_for. f_equal. rewrite <-(length_map_to_list _).
  rewrite <-(length_fmap snd). apply Permutation_length, NoDup_Permutation.
  - by apply NoDup_filter.
  - apply (NoDup_fmap_1 reference). rewrite <-list_fmap_compose.
    rewrite (list_fmap_ext _ fst); [apply NoDup_fst_map_to_list|].
    intros i [r v] Hi%list_elem_of_lookup_2%elem_of_map_to_list%map_lookup_filter_Some.
    simpl. by apply (uw_reference Hu), Hi.
  - intros v. rewrite list_elem_of_filter, list_elem_of_fmap, Hin. split.
    + intros ([Ha' Hv] & Hb' & Hr). exists (reference v, v). split; [done|].
      apply elem_of_map_to_list, map_lookup_filter_Some. done.
    + intros ([r v'] & -> & Hv%elem_of_map_to_list%map_lookup_filter_Some). simpl in *.
      destruct Hv as (Hv & Ha' & Hr & Hanc). destruct (uw_reference Hu _ _ Hv) as [<- _]. done.
Qed.
(** ** The other strategies *)

Definition gathered (all_votes : certified_votes) : Prop :=
  ∀ r v agg, all_votes !! r = Some (v, agg) → is_Some (us_blocks u !! r) ∧ aggregator_wf c agg.

Lemma gather_vote_Ok leader a all_votes r :
  a < committee_size c → gathered all_votes →
  ∃ all_votes', gather_vote u leader a all_votes r = Ok all_votes' ∧ gathered all_votes'.
Proof.
  intros Ha Hg. unfold gather_vote. fold c. pose proof (uw_committee Hu) as Hc.
  destruct (all_votes !! r) as [[v agg]|] eqn:Hr.
  - destruct (Hg _ _ _ Hr) as [Hin Hagg]. destruct v; [|by eexists].
    destruct (aggregator_add_Ok c Hc agg a Hagg Ha) as (agg' & -> & _ & Hagg'). simpl.
    eexists. split; [done|]. intros r' v' agg2 [[<- [= <- <-]]|[_ ?]]%lookup_insert_Some; [done|by eapply Hg].
  - unfold us_get_block. destruct (us_blocks u !! r) as [b|] eqn:Hb; [|by eexists].
    destruct (us_is_vote_total r b leader Hb) as [v ->]. simpl.
    destruct (aggregator_add_Ok (T := QuorumThreshold) c Hc aggregator_new a (aggregator_new_wf c Hc) Ha) as (agg' & -> & _ & Hagg').
    simpl. eexists. split; [done|].
    intros r' v' agg2 [[<- [= <- <-]]|[_ ?]]%lookup_insert_Some; [by rewrite Hb|by eapply Hg].
Qed.

Lemma gather_votes_Ok leader bs :
  (∀ b, b ∈ bs → us_blocks u !! reference b = Some b) →
  ∃ all_votes, gather_votes u leader bs = Ok all_votes ∧ gathered all_votes.
Proof.
  intros Hbs. apply foldM_inv; [by intros r v agg ?%lookup_empty_Some|].
  intros all_votes b Hg Hb. apply foldM_inv; [done|]. intros all_votes' r Hg' _.
  apply gather_vote_Ok; [|done]. eapply (uw_author Hu), Hbs, Hb.
Qed.

Lemma decision_round_small leader :
  br_round leader + 3 < U32_MAX →
  slot_round (slot_of_ref leader) +u32 DEFAULT_WAVE_LENGTH -u32 1 = br_round leader + 2.
Proof.
  unfold U32_MAX, DEFAULT_WAVE_LENGTH, MINIMUM_WAVE_LENGTH. simpl. intros.
  rewrite u32_add_small by lia. rewrite u32_sub_small by lia. lia.
Qed.

(** Cached votes are for blocks to score. *)
Definition cached_votes (all_votes : gmap BlockRef bool) : Prop :=
  ∀ r v, all_votes !! r = Some v → is_Some (us_blocks u !! r).

Lemma us_is_certificate_Ok b leader all_votes :
  cached_votes all_votes →
  ∃ v all_votes', us_is_certificate u b leader all_votes = Ok (v, all_votes') ∧ cached_votes all_votes'.
Proof.
  pose proof (uw_committee Hu) as Hc. unfold us_is_certificate.
  generalize (aggregator_new_wf (T := QuorumThreshold) c Hc). generalize (aggregator_new (T := QuorumThreshold)).
  generalize (vb_ancestors b). intros refs. revert all_votes.
  induction refs as [|r refs IH]; intros all_votes agg Hagg Hcache; [by eexists _, _|]. cbn [us_is_certificate_loop]. fold c.
  assert (∃ v all_votes', match all_votes !! r with
      | Some vote => Ok (vote, all_votes)
      | None => match us_get_block u r with
                | Some potential_vote => vote ← us_is_vote u potential_vote leader; Ok (vote, <[r:=vote]> all_votes)
                | None => Ok (false, all_votes)
                end
      end = Ok (v, all_votes') ∧ cached_votes all_votes' ∧ (v = true → is_Some (us_blocks u !! r)))
    as (v & all_votes' & -> & Hcache' & Hv).
  { destruct (all_votes !! r) as [v|] eqn:Hr; [exists v, all_votes; eauto|].
    unfold us_get_block. destruct (us_blocks u !! r) as [p|] eqn:Hp; [|by exists false, all_votes].
    destruct (us_is_vote_total r p leader Hp) as [v ->]. simpl. eexists _, _. split_and!; [done| |by eauto].
    intros r' v' [[<- _]|[_ ?]]%lookup_insert_Some; [by rewrite Hp|by eapply Hcache]. }
  simpl. destruct v; [|by apply IH]. destruct (Hv eq_refl) as [p Hp].
  destruct (aggregator_add_Ok c Hc agg (br_author r) Hagg (uw_author Hu _ _ Hp)) as (agg' & -> & _ & Hagg').
  simpl. destruct (is_threshold _ _ _); [by eexists _, _|by apply IH].
Qed.

(** Scoring a leader whose slot has one block never panics, whatever the strategy. *)
Lemma calculate_scores_total strategy leader :
  one_block (slot_of_ref leader) → is_Some (us_blocks u !! leader) →
  ∃ scores, calculate_scores_for_leader strategy u (slot_of_ref leader) = Ok scores ∧ scores_ok n scores.
Proof.
  intros Hone [lb Hlb]. pose proof (uw_bound Hu _ _ Hlb) as Hbd.
  assert (Hkey : ∀ all_votes r v agg, gathered all_votes → (r, (v, agg)) ∈ map_to_list all_votes →
    (N.to_nat (br_author r) < n)%nat).
  { intros all_votes r v agg Hg Hr%elem_of_map_to_list. destruct (Hg _ _ _ Hr) as [[b Hb] _].
    pose proof (uw_author Hu _ _ Hb). unfold n. lia. }
  destruct strategy; simpl;
    [| |destruct (vote_scores_Ok leader Hone) as (scores & ? & ? & _); [by eexists|by exists scores]|].
  all: unfold certified_vote_v2_scores, certified_vote_v1_scores, certificate_scores.
  all: fold c; rewrite (decision_round_small leader Hbd).
  all: destruct (leader_block_to_score_Ok _ Hone) as [(b & -> & _)|[-> _]];
    [|simpl; eexists; split; [done|apply zero_scores_ok]].
  all: simpl; destruct (us_blocks_at_round (br_round leader + 2)) as (dbs & -> & _ & Hdbs);
    [unfold U32_MAX in *; lia|]; simpl.
  1-2: destruct (gather_votes_Ok b dbs) as (all_votes & -> & Hg); [by intros ? []%Hdbs|]; simpl.
  - edestruct (score_fold (A := BlockRef * (bool * StakeAggregator QuorumThreshold)) n (λ scores '(vote_ref, (is_vote, stake_agg)),
        if is_vote : bool then add_score (br_author vote_ref) (agg_stake stake_agg) scores else Ok scores)
        (λ p, br_author p.1) (λ p, if p.2.1 then agg_stake p.2.2 else 0)) as (scores & -> & Hok & _);
      [apply zero_scores_ok| |by exists scores].
    intros scores [r [[] agg]] _ Hr; [left|right; done]. split; [done|]. by eapply Hkey.
  - edestruct (score_fold (A := BlockRef * (bool * StakeAggregator QuorumThreshold)) n (λ scores '(vote_ref, (is_vote, stake_agg)),
        if is_vote && reached_threshold stake_agg c then add_score (br_author vote_ref) 1 scores else Ok scores)
        (λ p, br_author p.1) (λ p, if p.2.1 && reached_threshold p.2.2 c then 1 else 0)) as (scores & -> & Hok & _);
      [apply zero_scores_ok| |by exists scores].
    intros scores [r [v agg]] _ Hr. simpl. destruct (v && _); [left|right; done]. split; [done|]. by eapply Hkey.
  - edestruct (foldM_inv (λ '(scores, all_votes) potential_cert,
          '(certificate, all_votes) ← us_is_certificate u potential_cert b all_votes;
          scores ← (if certificate : bool
                    then add_score (br_author (reference potential_cert)) 1 scores else Ok scores);
          Ok (scores, all_votes)) (λ st, scores_ok n st.1 ∧ cached_votes st.2)) as ([scores all_votes] & -> & [Hok _]);
      [split; [apply zero_scores_ok|intros r v; simpl; by rewrite lookup_empty]| |by exists scores].
    intros [scores all_votes] db [Hs Hcache] [Hdb _]%Hdbs. simpl in *.
    destruct (us_is_certificate_Ok db b all_votes Hcache) as (v & all_votes' & -> & Hcache'). simpl.
    destruct v; simpl; [|by eexists].
    destruct (add_score_Ok n (vb_author db) 1 scores Hs) as (scores' & -> & Hs' & _); [|by eexists].
    pose proof (uw_author Hu _ _ Hdb). unfold n. simpl in *. lia.
Qed.
End unscored.

(** ** Scoring the committed sub-dags *)

(** The sub-dags of consecutive commits: each has its leader, whose slot no other block of
    the sub-dags is in, and blocks of the committee. *)
Record subdags_ok (c : Committee) (subdags : list CommittedSubDag) : Prop := {
  sds_nonempty : subdags ≠ [];
  sds_index i sd sd' : subdags !! i = Some sd → subdags !! S i = Some sd' →
    cr_index (sd_commit_ref sd') = cr_index (sd_commit_ref sd) + 1;
  sds_bound sd : sd ∈ subdags → cr_index (sd_commit_ref sd) < U32_MAX;
  sds_leader sd : sd ∈ subdags → ∃ b, b ∈ sd_blocks sd ∧ reference b = sd_leader sd;
  sds_slot sd sd' b : sd ∈ subdags → sd' ∈ subdags → b ∈ sd_blocks sd' →
    vb_slot b = slot_of_ref (sd_leader sd) → reference b = sd_leader sd;
  sds_block sd b : sd ∈ subdags → b ∈ sd_blocks sd →
    vb_author b < committee_size c ∧ ref_in_bounds (reference b) ∧ vb_round b + 3 < U32_MAX ∧
    NoDup (br_author <$> vb_ancestors b) ∧ ∀ a, a ∈ vb_ancestors b → br_round a < vb_round b;
  sds_unique b b' : b ∈ subdags ≫= sd_blocks → b' ∈ subdags ≫= sd_blocks → reference b = reference b' → b = b';
}.

(** The blocks to score. *)
Definition unscored_blocks (subdags : list CommittedSubDag) : dag := insert_blocks (subdags ≫= sd_blocks) ∅.

Lemma collect_subdags_Ok prev subdags :
  (∀ sd p, head subdags = Some sd → prev = Some p →
     cr_index (sd_commit_ref sd) = cr_index (sd_commit_ref p) + 1) →
  (∀ i sd sd', subdags !! i = Some sd → subdags !! S i = Some sd' →
     cr_index (sd_commit_ref sd') = cr_index (sd_commit_ref sd) + 1) →
  (∀ sd, sd ∈ subdags → cr_index (sd_commit_ref sd) < U32_MAX) →
  collect_subdags prev subdags = Ok (sd_leader <$> subdags, subdags ≫= sd_blocks).
Proof.
  revert prev. induction subdags as [|sd subdags IH]; intros prev Hprev Hi Hb; [done|]. cbn [collect_subdags].
  assert (match prev with
    | None => Ok ()
    | Some p => assert_ (cr_index (sd_commit_ref sd) =? cr_index (sd_commit_ref p) +u32 1) "Non-contiguous commit index"
    end = Ok ()) as ->.
  { destruct prev as [p|]; [|done]. pose proof (Hprev sd p eq_refl eq_refl) as Hp.
    pose proof (Hb sd ltac:(left)). rewrite u32_add_small by (unfold U32_MAX in *; lia).
    by rewrite (proj2 (N.eqb_eq _ _)). }
  cbn [mbind outcome_bind]. rewrite IH; [done| | |intros; apply Hb; by right].
  - intros sd' p Hhd [= <-]. apply (Hi 0%nat); [done|]. by rewrite head_lookup in Hhd.
  - intros i. apply (Hi (S i)).
Qed.

Section calculator.
Context (context : Context) (subdags : list CommittedSubDag).
Let c : Committee := committee context.
Let n : nat := N.to_nat (committee_size c).
Context (Hc : committee_wf c) (Hok : subdags_ok c subdags).

Lemma unscored_blocks_lookup r b :
  unscored_blocks subdags !! r = Some b ↔ reference b = r ∧ ∃ sd, sd ∈ subdags ∧ b ∈ sd_blocks sd.
Proof.
  unfold unscored_blocks. rewrite insert_blocks_lookup by exact (sds_unique _ _ Hok).
  rewrite lookup_empty, list_elem_of_bind. naive_solver.
Qed.

(** The range of the commits. *)
Definition subdags_range : CommitRange :=
  mkCommitRange (from_option (λ sd, cr_index (sd_commit_ref sd)) 0 (head subdags))
    (from_option (λ sd, cr_index (sd_commit_ref sd)) 0 (last subdags) + 1).

Lemma calculator_new_Ok strategy :
  calculator_new context subdags strategy =
    Ok (mkReputationScoreCalculator subdags_range (replicate n 0)
      (mkUnscoredSubdag context subdags_range (sd_leader <$> subdags) (unscored_blocks subdags)) strategy).
Proof.
  pose proof (sds_nonempty _ _ Hok) as Hne. unfold calculator_new.
  rewrite bool_decide_eq_false_2 by (by intros ?%nil_length_inv). simpl.
  unfold unscored_subdag_new. rewrite collect_subdags_Ok; [|done|apply Hok|apply Hok].
  cbn [mbind outcome_bind]. fold (unscored_blocks subdags).
  destruct (last subdags) as [sdl|] eqn:Hl; [|by apply last_None in Hl].
  destruct (head subdags) as [sdh|] eqn:Hh; [|by destruct subdags]. simpl.
  rewrite bool_decide_eq_false_2.
  2:{ intros He. destruct (sds_leader _ _ Hok sdl) as (b & Hb & _); [by apply last_Some_elem_of|].
      assert (unscored_blocks subdags !! reference b = Some b) as Hu; [|by rewrite He, lookup_empty in Hu].
      apply unscored_blocks_lookup. split; [done|]. exists sdl. split; [by apply last_Some_elem_of|done]. }
  simpl. unfold subdags_range. rewrite Hl, Hh. simpl.
  pose proof (sds_bound _ _ Hok sdl ltac:(by apply last_Some_elem_of)).
  rewrite u32_add_small by (unfold U32_MAX in *; lia). done.
Qed.

Let u : UnscoredSubdag :=
  mkUnscoredSubdag context subdags_range (sd_leader <$> subdags) (unscored_blocks subdags).

Lemma calculator_unscored_wf : unscored_wf u.
Proof.
  assert (Hall : ∀ r b, unscored_blocks subdags !! r = Some b → reference b = r ∧
    vb_author b < committee_size c ∧ ref_in_bounds (reference b) ∧ vb_round b + 3 < U32_MAX ∧
    NoDup (br_author <$> vb_ancestors b) ∧ ∀ a, a ∈ vb_ancestors b → br_round a < vb_round b).
  { intros r b (Hr & sd & Hsd & Hb)%unscored_blocks_lookup. split; [done|]. by apply (sds_block _ _ Hok sd). }
  split; simpl; [done|intros r b Hb|intros r b Hb|intros r b Hb|intros r b a Hb|intros r b Hb];
    destruct (Hall r b Hb) as (<- & ? & ? & ? & ? & Hanc); auto.
Qed.

Lemma leader_in_unscored sd : sd ∈ subdags → is_Some (us_blocks u !! sd_leader sd).
Proof.
  intros Hsd. destruct (sds_leader _ _ Hok sd Hsd) as (b & Hb & Hr). exists b.
  apply unscored_blocks_lookup. eauto.
Qed.

Lemma leader_one_block sd : sd ∈ subdags → one_block u (slot_of_ref (sd_leader sd)).
Proof.
  intros Hsd r1 b1 r2 b2. simpl. rewrite !unscored_blocks_lookup.
  intros (<- & sd1 & Hsd1 & Hb1) (<- & sd2 & Hsd2 & Hb2) Hs1 Hs2.
  rewrite (sds_slot _ _ Hok sd sd1 b1), (sds_slot _ _ Hok sd sd2 b2); done.
Qed.

Lemma add_scores_Ok scores new :
  scores_ok n scores → scores_ok n new →
  ∃ scores', add_scores scores new = Ok scores' ∧ scores_ok n scores' ∧
    ∀ i s t, scores !! i = Some s → new !! i = Some t → scores' !! i = Some (wrap64 (s + t)).
Proof.
  intros Hs [Hlen _]. unfold add_scores.
  rewrite (proj2 (N.eqb_eq _ _)) by (rewrite Hlen; f_equal; symmetry; apply Hs). simpl.
  destruct (score_fold n (λ acc '(authority_idx, score), add_score authority_idx score acc) fst snd
    (enumerate new) scores Hs) as (scores' & -> & Hok' & Hl).
  - intros acc [i x] _ Hi. left. split; [done|]. simpl.
    apply elem_of_enumerate_from in Hi. rewrite Hlen in Hi. lia.
  - exists scores'. split_and!; [done..|]. intros i s t Hi Ht. rewrite (Hl i s Hi).
    do 3 f_equal. etrans; [exact (sum_enumerate_from i 0 new)|by rewrite Ht].
Qed.

(** The scores add up what each leader gives. *)
Lemma calculate_Ok strategy (score_of : BlockRef → AuthorityIndex → N) :
  (∀ sd, sd ∈ subdags → ∃ scores,
     calculate_scores_for_leader strategy u (slot_of_ref (sd_leader sd)) = Ok scores ∧ scores_ok n scores ∧
     ∀ i, (i < n)%nat → scores !! i = Some (wrap64 (score_of (sd_leader sd) (N.of_nat i)))) →
  ∃ calc scores, calculator_new context subdags strategy = Ok calc ∧
    calculate calc = Ok (mkReputationScores scores subdags_range) ∧ scores_ok n scores ∧
    ∀ i, (i < n)%nat → scores !! i = Some (wrap64 (sum_N (λ sd, score_of (sd_leader sd) (N.of_nat i)) subdags)).
Proof.
  intros Hstep.
  assert (∀ sds scores, (∀ sd, sd ∈ sds → sd ∈ subdags) → scores_ok n scores →
    ∃ scores', foldM (λ scores_per_authority leader,
        scores ← calculate_scores_for_leader strategy u (slot_of_ref leader);
        add_scores scores_per_authority scores) scores (sd_leader <$> sds) = Ok scores' ∧ scores_ok n scores' ∧
      ∀ i s, scores !! i = Some s → scores' !! i =
        Some (wrap64 (s + sum_N (λ sd, score_of (sd_leader sd) (N.of_nat i)) sds))) as Hloop.
  { induction sds as [|sd sds IH]; intros scores Hin Hs.
    { exists scores. split_and!; [done..|]. intros i s Hi. simpl. rewrite N.add_0_r, wrap64_small; [done|].
      by eapply Hs, list_elem_of_lookup_2. }
    destruct (Hstep sd) as (new & Hnew & Hnok & Hnl); [apply Hin; left|].
    destruct (add_scores_Ok scores new Hs Hnok) as (scores1 & Hadd & Hok1 & Hl1).
    destruct (IH scores1) as (scores' & Hf & Hok' & Hl'); [intros; apply Hin; by right|done|].
    exists scores'. cbn [foldM list_fmap fmap]. rewrite Hnew. cbn [mbind outcome_bind]. rewrite Hadd.
    split_and!; [done..|]. intros i s Hi.
    assert (i < n)%nat as Hlt by (rewrite <-(proj1 Hs); by eapply lookup_lt_Some).
    rewrite (Hl' i _ (Hl1 i s _ Hi (Hnl i Hlt))). simpl. f_equal. unfold wrap64.
    rewrite N.Div0.add_mod_idemp_l. generalize (score_of (sd_leader sd) (N.of_nat i)). intros x.
    rewrite (N.add_comm s), <-N.add_assoc, N.Div0.add_mod_idemp_l. f_equal. lia. }
  destruct (Hloop subdags (replicate n 0)) as (scores & Hf & Hsok & Hl); [done|apply zero_scores_ok|].
  eexists _, scores. split; [apply calculator_new_Ok|]. unfold calculate. simpl. fold u. rewrite Hf.
  split_and!; [done..|]. intros i Hi. rewrite (Hl i 0); [done|]. by apply lookup_replicate.
Qed.

Lemma scores_total strategy :
  ∃ calc scores, calculator_new context subdags strategy = Ok calc ∧
    calculate calc = Ok (mkReputationScores scores subdags_range) ∧
    N.of_nat (length scores) = committee_size (committee context).
Proof.
  pose proof calculator_unscored_wf as Hu.
  destruct (calculate_Ok strategy (λ leader a,
    match calculate_scores_for_leader strategy u (slot_of_ref leader) with
    | Ok scores => default 0 (scores !! N.to_nat a)
    | _ => 0
    end)) as (calc & scores & Hn & Hcalc & [Hlen _] & _).
  - intros sd Hsd. destruct (calculate_scores_total u Hu strategy (sd_leader sd)) as (scores & -> & Hs);
      [by apply leader_one_block|by apply leader_in_unscored|].
    exists scores. split_and!; [done..|]. intros i Hi. rewrite Nat2N.id.
    destruct (lookup_lt_is_Some_2 scores i) as [x Hx]; [by rewrite (proj1 Hs)|].
    rewrite Hx. simpl. rewrite wrap64_small; [done|]. by eapply Hs, list_elem_of_lookup_2.
  - exists calc, scores. split_and!; [done..|]. rewrite Hlen. apply N2Nat.id.
Qed.

(** C30: Reputation scores.  On the sub-dags of consecutive commits, scoring never panics,
    whatever the strategy, and covers the range of the commits; with the votes strategy the
    score of an authority is the number of its blocks that name a committed leader of the
    round before. *)
Theorem reputation_scores_spec :
  (∀ strategy, ∃ calc scores, calculator_new context subdags strategy = Ok calc ∧
     calculate calc = Ok (mkReputationScores scores subdags_range) ∧
     N.of_nat (length scores) = committee_size (committee context)) ∧
  ∃ calc scores, calculator_new context subdags VoteScoringStrategy = Ok calc ∧
    calculate calc = Ok (mkReputationScores scores subdags_range) ∧
    ∀ a, a < committee_size (committee context) → scores !! N.to_nat a =
      Some (wrap64 (sum_N (λ sd, votes_for (unscored_blocks subdags) (sd_leader sd) a) subdags)).
Proof.
  pose proof calculator_unscored_wf as Hu. split; [apply scores_total|].
  destruct (calculate_Ok VoteScoringStrategy (votes_for (unscored_blocks subdags)))
    as (calc & scores & Hn & Hcalc & _ & Hl).
  - intros sd Hsd. apply (vote_scores_Ok u Hu (sd_leader sd));
      [by apply leader_one_block|by apply leader_in_unscored].
  - exists calc, scores. split_and!; [done..|]. intros a Ha.
    rewrite (Hl (N.to_nat a)) by (unfold n, c; lia). by rewrite N2Nat.id.
Qed.
End calculator.
