(* ===== verification/LeaderSchedule.v ===== *)
(** The leader schedule ([consensus/core/src/leader_schedule.rs]): leaders drawn by stake,
    with the authorities of the worst reputation swapped for those of the best.

    The random number generator and the sampling functions of the crate [rand] are the class
    [Rand]; each use seeds a fresh [StdRng], so that a sample is a function of the seed. *)

From stdpp Require Import base strings numbers sorting gmap sets relations list.
From S2P Require Import Prelude Committee Block Dag StakeAggregator Commit Store DagState BaseCommitter LeaderScoring.

Open Scope N_scope.

(** ** Sampling *)

Class Rand := {
  rand_shuffle {A : Type} : bytes → list A → list A;
  rand_choose {A : Type} : bytes → list A → option A;
  (** The weight is converted to [f32]. *)
  rand_choose_multiple_weighted {A : Type} : bytes → list A → N → (A → N) → Result (list A) string;
}.

(** What [rand] documents: a shuffle permutes the elements; a choice is an element, and there
    is none exactly for an empty slice; a weighted choice of all the elements gives each of
    them once, in some order, when there is a weight. *)
Class RandSpec `{Rand} : Prop := {
  rand_shuffle_perm {A} seed (l : list A) : rand_shuffle seed l ≡ₚ l;
  rand_choose_nil {A} seed : rand_choose seed ([] : list A) = None;
  rand_choose_elem {A} seed (l : list A) : l ≠ [] → ∃ x, rand_choose seed l = Some x ∧ x ∈ l;
  rand_choose_weighted_perm {A} seed (l : list A) (weight : A → N) :
    (∃ x, x ∈ l ∧ 0 < weight x) →
    ∃ l', rand_choose_multiple_weighted seed l (N.of_nat (length l)) weight = RustOk l' ∧ l' ≡ₚ l;
}.

(** ** The swap table *)

Record LeaderSwapTable := mkLeaderSwapTable {
  good_nodes : list (AuthorityIndex * string * Stake);
  bad_nodes : gmap AuthorityIndex (string * Stake);
  reputation_scores_desc : list (AuthorityIndex * N);
  table_reputation_scores : ReputationScores;
}.

Definition leader_swap_table_default : LeaderSwapTable :=
  mkLeaderSwapTable [] ∅ [] reputation_scores_default.

(** The loop of [retrieve_first_nodes]; the state is the stake so far. *)
Fixpoint retrieve_loop (context : Context) (stake_threshold : N) (stake_so_far : Stake)
    (authorities : list (AuthorityIndex * N)) : outcome (list (AuthorityIndex * string * Stake)) :=
  match authorities with
  | [] => Ok []
  | (authority_idx, _) :: authorities =>
      s ← committee_stake (committee context) authority_idx;
      let stake_so_far := stake_so_far +u64 s in
      if (stake_threshold *u64 total_stake (committee context)) / 100 <? stake_so_far then Ok []
      else
        authority ← committee_authority (committee context) authority_idx;
        rest ← retrieve_loop context stake_threshold stake_so_far authorities;
        Ok ((authority_idx, hostname authority, stake authority) :: rest)
  end.

Definition retrieve_first_nodes (context : Context) (authorities : list (AuthorityIndex * N))
    (stake_threshold : N) : outcome (list (AuthorityIndex * string * Stake)) :=
  retrieve_loop context stake_threshold 0 authorities.

Section leader_schedule.
Context `{Rand}.

(** [LeaderSwapTable::new_inner]. *)
Definition leader_swap_table_new_inner (context : Context) (swap_stake_threshold : N)
    (commit_index : CommitIndex) (reputation_scores : ReputationScores) : outcome LeaderSwapTable :=
  _ ← assert_ (swap_stake_threshold <=? 33) "The swap_stake_threshold should be in range [0 - 33]";
  if bool_decide (scores_per_authority reputation_scores = []) then Ok leader_swap_table_default
  else
    let seed_bytes := replicate 28 Byte.x00 ++ le_bytes 4 commit_index in
    by_score ← authorities_by_score reputation_scores context;
    _ ← assert_ (N.of_nat (length by_score) =? committee_size (committee context))
          "assertion failed: authorities_by_score.len() == context.committee.size()";
    let by_score := rand_shuffle seed_bytes by_score in
    let by_score := sort_by (λ a1 a2, a2.2 <=? a1.2) by_score in
    good_nodes ← retrieve_first_nodes context by_score swap_stake_threshold;
    bad_nodes ← retrieve_first_nodes context (rev by_score) swap_stake_threshold;
    let bad_nodes := foldl (λ m '(idx, hostname, stake), <[idx := (hostname, stake)]> m) ∅ bad_nodes in
    Ok (mkLeaderSwapTable good_nodes bad_nodes by_score reputation_scores).

(** [LeaderSwapTable::new]. *)
Definition leader_swap_table_new (context : Context) (commit_index : CommitIndex)
    (reputation_scores : ReputationScores) : outcome LeaderSwapTable :=
  leader_swap_table_new_inner context (consensus_bad_nodes_stake_threshold context) commit_index
    reputation_scores.

Definition swap (self : LeaderSwapTable) (leader : AuthorityIndex) (leader_round : Round)
    (leader_offset : N) : outcome (option AuthorityIndex) :=
  if bool_decide (is_Some (bad_nodes self !! leader)) then
    _ ← assert_ (leader_offset =? 0) "Swap for multi-leader case not implemented yet.";
    let seed_bytes := replicate 24 Byte.x00 ++ le_bytes 4 leader_round ++ le_bytes 4 leader_offset in
    '(idx, _, _) ← expect (rand_choose seed_bytes (good_nodes self))
                     "There should be at least one good node available";
    Ok (Some idx)
  else Ok None.

(** ** The schedule *)

Record LeaderSchedule := mkLeaderSchedule {
  leader_swap_table : LeaderSwapTable;
  ls_context : Context;
  num_commits_per_schedule : N;
  scoring_strategy : ScoringStrategy;
}.

Definition CONSENSUS_COMMITS_PER_SCHEDULE : N := 300.

(** [choose_scoring_strategy]; the argument is the environment variable
    [CONSENSUS_SCORING_STRATEGY]. *)
Definition choose_scoring_strategy (env : option string) : ScoringStrategy :=
  match env with
  | Some name =>
      if bool_decide (name = "vote"%string) then VoteScoringStrategy
      else if bool_decide (name = "certified_vote_v1"%string) then CertifiedVoteScoringStrategyV1
      else if bool_decide (name = "certified_vote_v2"%string) then CertifiedVoteScoringStrategyV2
      else if bool_decide (name = "certificate"%string) then CertificateScoringStrategy
      else VoteScoringStrategy
  | None => VoteScoringStrategy
  end.

Definition leader_schedule_new (env : option string) (context : Context)
    (leader_swap_table : LeaderSwapTable) : LeaderSchedule :=
  mkLeaderSchedule leader_swap_table context CONSENSUS_COMMITS_PER_SCHEDULE (choose_scoring_strategy env).

Definition elect_leader_stake_based (self : LeaderSchedule) (round : Round) (offset : N) :
    outcome AuthorityIndex :=
  let c := committee (ls_context self) in
  _ ← assert_ (offset <? committee_size c) "assertion failed: (offset as usize) < self.context.committee.size()";
  let seed_bytes := replicate 28 Byte.x00 ++ le_bytes 4 round in
  let choices := (λ '(index, authority), (index, stake authority)) <$> committee_authorities c in
  match rand_choose_multiple_weighted seed_bytes choices (committee_size c) snd with
  | RustErr _ => Panic "Weighted choice error: stake values incorrect!"
  | RustOk chosen =>
      '(leader_index, _) ← expect (head (drop (N.to_nat offset) chosen))
                             "called `Option::unwrap()` on a `None` value";
      Ok leader_index
  end.

(** [LeaderSchedule::elect_leader]. *)
#[export] Instance schedule_elect_leader : LeaderElection LeaderSchedule := λ self round leader_offset,
  leader ← elect_leader_stake_based self round leader_offset;
  swapped ← swap (leader_swap_table self) leader round leader_offset;
  Ok (default leader swapped).

Definition set_swap_table (table : LeaderSwapTable) (self : LeaderSchedule) : LeaderSchedule :=
  mkLeaderSchedule table (ls_context self) (num_commits_per_schedule self) (scoring_strategy self).

Definition update_leader_swap_table (self : LeaderSchedule) (table : LeaderSwapTable) :
    outcome LeaderSchedule :=
  let old_commit_range := scores_commit_range (table_reputation_scores (leader_swap_table self)) in
  let new_commit_range := scores_commit_range (table_reputation_scores table) in
  _ ← (if bool_decide (old_commit_range = mkCommitRange 0 0) then Ok ()
       else assert_ (is_next_range old_commit_range new_commit_range)
              "The new LeaderSwapTable has an invalid CommitRange");
  Ok (set_swap_table table self).

Section with_store.
Context {St : Type} `{Store St} `{Crypto}.
Implicit Types d : DagState St.

(** [LeaderSchedule::from_store]. *)
Definition leader_schedule_from_store (env : option string) (context : Context) d : outcome LeaderSchedule :=
  commit_info ← recover_last_commit_info d;
  leader_swap_table ← match commit_info with
    | None => Ok leader_swap_table_default
    | Some (last_commit_ref, last_commit_info) =>
        leader_swap_table_new context (cr_index last_commit_ref) (reputation_scores last_commit_info)
    end;
  Ok (leader_schedule_new env context leader_swap_table).

Definition commits_until_leader_schedule_update (self : LeaderSchedule) d : outcome N :=
  let count := unscored_committed_subdags_count d in
  _ ← assert_ (count <=? num_commits_per_schedule self)
        "Unscored committed subdags count exceeds the number of commits per schedule";
  Ok (num_commits_per_schedule self - count).

Definition update_leader_schedule (self : LeaderSchedule) d : outcome (LeaderSchedule * DagState St) :=
  let '(unscored_subdags, d) := take_unscored_committed_subdags d in
  calculator ← calculator_new (ls_context self) unscored_subdags (scoring_strategy self);
  reputation_scores ← calculate calculator;
  _ ← scores_update_metrics reputation_scores (ls_context self);
  last_subdag ← expect (last unscored_subdags) "called `Option::unwrap()` on a `None` value";
  table ← leader_swap_table_new (ls_context self) (cr_index (sd_commit_ref last_subdag)) reputation_scores;
  self ← update_leader_swap_table self table;
  d ← add_commit_info d reputation_scores;
  Ok (self, d).
End with_store.
End leader_schedule.
