(* ===== verification/LeaderScheduleFacts.v ===== *)
(** What the leader schedule guarantees: the swap table takes the best and the worst
    authorities up to the stake threshold, elections give authorities of the committee and
    never a swapped one, and updates follow each other. *)

From stdpp Require Import base strings numbers sorting gmap sets relations list.
From S2P Require Import Prelude Committee Block Dag StakeAggregator Commit Store DagState DagStateFacts BaseCommitter LeaderScoring LeaderScoringFacts LeaderSchedule.

Open Scope N_scope.

(** ** Retrieving the first nodes *)

Definition node_index (p : AuthorityIndex * string * Stake) : AuthorityIndex := p.1.1.

Section retrieve.
Context (context : Context).
Local Abbreviation c := (committee context).
Context (Hc : committee_wf c).

(** The stake of a list of authorities. *)
Definition list_stake (l : list AuthorityIndex) : N := sum_N (stake_of c) l.

Lemma list_stake_cons a l : list_stake (a :: l) = stake_of c a + list_stake l.
Proof. done. Qed.

Lemma list_stake_le l : NoDup l → (∀ a, a ∈ l → a < committee_size c) → list_stake l ≤ total_stake c.
Proof.
  intros Hnd Hlt. unfold list_stake.
  transitivity (set_stake c (list_to_set l)); [|by apply set_stake_le_total].
  assert (sum_N (stake_of c) l = set_stake c (list_to_set l)) as ->; [|done].
  induction l as [|a l IH]; [by rewrite set_stake_empty|].
  apply NoDup_cons in Hnd as [Ha Hnd]. simpl. rewrite IH; [|done|intros; apply Hlt; by right].
  rewrite set_stake_insert; [done|apply Hlt; left|]. by rewrite elem_of_list_to_set.
Qed.

(** The threshold as an amount of stake. *)
Definition stake_limit (threshold : N) : N := threshold * total_stake c / 100.

(** The longest prefix whose stake is within the limit. *)
Lemma retrieve_loop_Ok threshold acc (l : list (AuthorityIndex * N)) :
  threshold * total_stake c < 2 ^ 64 → (∀ p, p ∈ l → p.1 < committee_size c) → acc + list_stake l.*1 ≤ total_stake c →
  ∃ nodes, retrieve_loop context threshold acc l = Ok nodes ∧
    node_index <$> nodes `prefix_of` l.*1 ∧
    (nodes ≠ [] → acc + list_stake (node_index <$> nodes) ≤ stake_limit threshold) ∧
    (∀ p rest, l.*1 = (node_index <$> nodes) ++ p :: rest →
       stake_limit threshold < acc + list_stake (node_index <$> nodes) + stake_of c p).
Proof.
  intros Hthr. pose proof (wf_bound _ Hc) as Hbound. revert acc.
  induction l as [|[a s] l IH]; intros acc Hin Hacc.
  { exists []. split_and!; [done..|]. intros p rest H. by destruct (app_cons_not_nil [] rest p H). }
  pose proof (Hin (a, s) ltac:(left)) as Ha. simpl in Ha. rewrite fmap_cons, list_stake_cons in Hacc. cbn [fst] in Hacc.
  cbn [retrieve_loop]. rewrite committee_stake_Ok by done. cbn [mbind outcome_bind].
  rewrite u64_add_small by lia. rewrite u64_mul_small by exact Hthr. fold (stake_limit threshold).
  destruct (stake_limit threshold <? acc + stake_of c a) eqn:Hlim; reflect_bools.
  { exists []. split_and!; [done|apply prefix_nil|done|]. simpl. intros p rest [= <- <-]. lia. }
  unfold committee_authority. destruct (vec_index_lt (authorities c) a) as [au ->]; [exact Ha|].
  cbn [mbind outcome_bind].
  destruct (IH (acc + stake_of c a)) as (nodes & -> & Hpre & Hsum & Hmax); [intros; apply Hin; by right|lia|].
  eexists. split; [done|]. rewrite !fmap_cons. cbn [fst node_index]. rewrite list_stake_cons. split_and!.
  - by apply prefix_cons.
  - intros _. destruct (decide (nodes = [])) as [->|Hne]; [simpl; unfold list_stake; simpl; lia|].
    specialize (Hsum Hne). lia.
  - intros p rest [= Hl]. specialize (Hmax p rest Hl). lia.
Qed.
End retrieve.

(** ** The swap table *)

Lemma bad_nodes_lookup (nodes : list (AuthorityIndex * string * Stake)) a :
  is_Some ((foldl (λ m '(idx, hostname, stake), <[idx := (hostname, stake)]> m) ∅ nodes
    : gmap AuthorityIndex (string * Stake)) !! a) ↔ a ∈ node_index <$> nodes.
Proof.
  induction nodes as [|[[idx h] s] nodes IH] using rev_ind.
  { cbn [foldl fmap list_fmap]. rewrite lookup_empty, elem_of_nil. split; [|done]. intros Hs. by apply is_Some_None in Hs. }
  rewrite foldl_snoc, fmap_app, elem_of_app, <-IH, lookup_insert_is_Some'.
  change (node_index <$> [(idx, h, s)]) with [idx]. rewrite list_elem_of_singleton.
  split; [intros [->|?]|intros [?| ->]]; auto.
Qed.

(** The order of the authorities by score, and the good and the bad nodes at its ends: as many as
    the limit of stake allows, so that the next authority would exceed it. *)
Record swap_table_ok (context : Context) (threshold : N) (t : LeaderSwapTable) : Prop := {
  st_perm : reputation_scores_desc t ≡ₚ enumerate (scores_per_authority (table_reputation_scores t));
  st_sorted : StronglySorted (λ p q, q.2 ≤ p.2) (reputation_scores_desc t);
  st_good : node_index <$> good_nodes t `prefix_of` (reputation_scores_desc t).*1;
  st_good_stake : list_stake context (node_index <$> good_nodes t) ≤ stake_limit context threshold;
  st_good_max a rest : (reputation_scores_desc t).*1 = (node_index <$> good_nodes t) ++ a :: rest →
    stake_limit context threshold < list_stake context (node_index <$> good_nodes t) + stake_of (committee context) a;
  st_bad : ∃ bad, bad `suffix_of` (reputation_scores_desc t).*1 ∧
    (∀ a, is_Some (bad_nodes t !! a) ↔ a ∈ bad) ∧ list_stake context bad ≤ stake_limit context threshold ∧
    ∀ a rest, (reputation_scores_desc t).*1 = rest ++ a :: bad →
      stake_limit context threshold < list_stake context bad + stake_of (committee context) a;
  st_disjoint a : a ∈ node_index <$> good_nodes t → bad_nodes t !! a = None;
  st_better a sa b sb : a ∈ node_index <$> good_nodes t → is_Some (bad_nodes t !! b) →
    (a, sa) ∈ reputation_scores_desc t → (b, sb) ∈ reputation_scores_desc t → sb ≤ sa;
  st_replaced : (∀ a, a < committee_size (committee context) →
    stake_of (committee context) a ≤ stake_limit context threshold) → good_nodes t ≠ [];
}.

Lemma authorities_by_score_Ok scores context :
  N.of_nat (length (scores_per_authority scores)) = committee_size (committee context) →
  authorities_by_score scores context = Ok (enumerate (scores_per_authority scores)).
Proof.
  intros Hlen. unfold authorities_by_score. apply mapM_Ok.
  apply Forall_Forall2_diag, Forall_forall. intros [i s] Hi%elem_of_enumerate_from.
  unfold to_authority_index. rewrite (proj2 (N.ltb_lt _ _)) by lia. done.
Qed.

Lemma enumerate_from_fst {A} k (l : list A) :
  (enumerate_from k l).*1 = (λ i, k + N.of_nat i) <$> seq 0 (length l).
Proof.
  revert k. induction l as [|x l IH]; intros k; [done|]. simpl. f_equal; [lia|].
  rewrite IH, <-fmap_S_seq. rewrite <-list_fmap_compose. apply list_fmap_ext. intros. simpl. lia.
Qed.

Lemma enumerate_fst {A} (l : list A) c :
  N.of_nat (length l) = committee_size c → (enumerate l).*1 = indices c.
Proof.
  intros Hlen. unfold enumerate, indices. rewrite enumerate_from_fst.
  replace (length l) with (length (authorities c)) by (unfold committee_size in Hlen; lia).
  apply list_fmap_ext. intros. lia.
Qed.

Lemma list_stake_app context l1 l2 : list_stake context (l1 ++ l2) = list_stake context l1 + list_stake context l2.
Proof. unfold list_stake. induction l1 as [|a l1 IH]; simpl; lia. Qed.

Lemma list_stake_perm context l1 l2 : l1 ≡ₚ l2 → list_stake context l1 = list_stake context l2.
Proof. unfold list_stake. induction 1; simpl; lia. Qed.

Lemma indices_stake context : committee_wf (committee context) →
  list_stake context (indices (committee context)) = total_stake (committee context).
Proof.
  intros Hc. unfold list_stake, indices. rewrite sum_N_fmap, (wf_total _ Hc), (sum_N_lookup stake).
  apply sum_N_ext. intros i _. unfold stake_of. simpl. by rewrite Nat2N.id.
Qed.

(** A prefix and a suffix that overlap cover the list. *)
Lemma prefix_suffix_overlap {A} (p s l : list A) x :
  NoDup l → p `prefix_of` l → s `suffix_of` l → x ∈ p → x ∈ s →
  ∃ p' m s', p = p' ++ m ∧ s = m ++ s' ∧ l = p' ++ m ++ s'.
Proof.
  intros Hnd [k ->] [k' Hl] Hp Hs. destruct (app_eq_inv _ _ _ _ Hl) as [(m & -> & ->)|(m & -> & ->)].
  - exists k', m, k. by rewrite <-app_assoc.
  - exfalso. apply NoDup_app in Hnd as (_ & Hno & _). apply (Hno x Hp). apply elem_of_app. by right.
Qed.

Lemma suffix_rev {A} (p l : list A) : p `prefix_of` rev l → rev p `suffix_of` l.
Proof. intros [k Hk]. exists (rev k). by rewrite <-rev_app_distr, <-Hk, rev_involutive. Qed.

Section table.
Context `{RandSpec}.
Context (context : Context).
Local Abbreviation c := (committee context).
Context (Hc : committee_wf c).

(** The first nodes of a list of all the authorities in some order. *)
Lemma retrieve_first_nodes_Ok threshold (l : list (AuthorityIndex * N)) :
  threshold * total_stake c < 2 ^ 64 → l.*1 ≡ₚ indices c →
  ∃ nodes, retrieve_first_nodes context l threshold = Ok nodes ∧
    node_index <$> nodes `prefix_of` l.*1 ∧
    list_stake context (node_index <$> nodes) ≤ stake_limit context threshold ∧
    (∀ a rest, l.*1 = (node_index <$> nodes) ++ a :: rest →
       stake_limit context threshold < list_stake context (node_index <$> nodes) + stake_of c a) ∧
    ((∀ a, a < committee_size c → stake_of c a ≤ stake_limit context threshold) → nodes ≠ []).
Proof.
  intros Hthr Hperm.
  assert (Hin : ∀ a, a ∈ l.*1 → a < committee_size c) by (intros a; rewrite Hperm; by apply elem_of_indices).
  destruct (retrieve_loop_Ok context Hc threshold 0 l Hthr) as (nodes & Hn & Hpre & Hsum & Hmax).
  - intros p Hp. by apply Hin, list_elem_of_fmap_2.
  - rewrite (list_stake_perm _ _ _ Hperm), indices_stake by done. lia.
  - exists nodes. split_and!; [done..| | |].
    + destruct (decide (nodes = [])) as [->|Hne]; [apply N.le_0_l|]. by apply Hsum.
    + intros a rest Ha. specialize (Hmax a rest Ha). lia.
    + intros Hall ->. simpl in Hmax.
      destruct (l.*1) as [|a rest] eqn:Hl.
      { apply Permutation_nil_l in Hperm. pose proof (indices_stake _ Hc) as Ht. rewrite <-Hperm in Ht.
        pose proof (wf_positive _ Hc). unfold list_stake in Ht. simpl in Ht. lia. }
      specialize (Hmax a rest eq_refl). specialize (Hall a (Hin a ltac:(left))).
      unfold list_stake in Hmax. simpl in Hmax. lia.
Qed.

(** The ends of the order that are within the threshold do not overlap. *)
Lemma ends_disjoint threshold (l good bad : list AuthorityIndex) a :
  threshold ≤ 33 → l ≡ₚ indices c → good `prefix_of` l → bad `suffix_of` l →
  list_stake context good ≤ stake_limit context threshold →
  list_stake context bad ≤ stake_limit context threshold → a ∈ good → a ∈ bad → False.
Proof.
  intros H33 Hidx Hgood Hbad Hgs Hbs Hg Hb.
  destruct (prefix_suffix_overlap good bad l a) as (p & m & s & Hp & Hs & Hl);
    [rewrite Hidx; apply NoDup_indices|done..|].
  pose proof (indices_stake _ Hc) as Ht. rewrite <-(list_stake_perm _ _ _ Hidx), Hl, !list_stake_app in Ht.
  rewrite Hp, list_stake_app in Hgs. rewrite Hs, list_stake_app in Hbs.
  pose proof (wf_positive _ Hc). unfold stake_limit in *.
  assert (threshold * total_stake c / 100 ≤ 33 * total_stake c / 100) by (apply N.Div0.div_le_mono; nia).
  pose proof (N.Div0.mul_div_le (33 * total_stake c) 100). lia.
Qed.

(** What comes first in the order has the better score. *)
Lemma prefix_better (L : list (AuthorityIndex * N)) good a sa b sb :
  NoDup L.*1 → StronglySorted (λ p q, q.2 ≤ p.2) L → good `prefix_of` L.*1 →
  a ∈ good → b ∉ good → (a, sa) ∈ L → (b, sb) ∈ L → sb ≤ sa.
Proof.
  intros Hnd Hsorted [k Hk] Ha Hb Hsa Hsb. apply fmap_app_inv in Hk as (L1 & L2 & -> & -> & ->).
  rewrite fmap_app in Hnd. apply NoDup_app in Hnd as (_ & Hno & _).
  apply elem_of_app in Hsa as [Hsa|Hsa%(list_elem_of_fmap_2 fst)]; [|by destruct (Hno a Ha)].
  apply elem_of_app in Hsb as [Hsb%(list_elem_of_fmap_2 fst)|Hsb]; [done|].
  exact (StronglySorted_app_1_elem_of _ _ _ _ _ Hsorted Hsa Hsb).
Qed.

(** The order by score. *)
Lemma sorted_by_score scores seed
    (L := sort_by (λ a1 a2, a2.2 <=? a1.2) (rand_shuffle seed (enumerate (scores_per_authority scores)))) :
  N.of_nat (length (scores_per_authority scores)) = committee_size c →
  L ≡ₚ enumerate (scores_per_authority scores) ∧ L.*1 ≡ₚ indices c ∧ StronglySorted (λ p q, q.2 ≤ p.2) L.
Proof.
  intros Hlen. assert (HL : L ≡ₚ enumerate (scores_per_authority scores)).
  { unfold L. by rewrite sort_by_perm, rand_shuffle_perm. }
  split_and!; [done|by rewrite HL, (enumerate_fst _ c Hlen)|].
  eapply StronglySorted_weaken; [|apply sort_by_sorted].
  - intros p q Hpq. simpl in Hpq. by apply N.leb_le.
  - intros p q. simpl. rewrite !N.leb_le. lia.
  - intros p q r. simpl. rewrite !N.leb_le. lia.
Qed.

Lemma scores_nonempty scores :
  N.of_nat (length (scores_per_authority scores)) = committee_size c → scores_per_authority scores ≠ [].
Proof.
  intros Hlen He. rewrite He in Hlen. pose proof (indices_stake _ Hc) as Ht. pose proof (wf_positive _ Hc).
  unfold indices, committee_size in *. simpl in Hlen.
  assert (length (authorities c) = 0%nat) as Hz by lia. rewrite Hz in Ht. unfold list_stake in Ht. simpl in Ht. lia.
Qed.

Lemma leader_swap_table_Ok threshold commit_index scores :
  threshold ≤ 33 → threshold * total_stake c < 2 ^ 64 →
  N.of_nat (length (scores_per_authority scores)) = committee_size c →
  ∃ t, leader_swap_table_new_inner context threshold commit_index scores = Ok t ∧
    table_reputation_scores t = scores ∧ swap_table_ok context threshold t.
Proof.
  intros H33 Hthr Hlen. unfold leader_swap_table_new_inner.
  rewrite (proj2 (N.leb_le _ _)) by done. cbn [assert_ mbind outcome_bind].
  rewrite bool_decide_eq_false_2 by by apply scores_nonempty.
  rewrite authorities_by_score_Ok by done. cbn [mbind outcome_bind].
  assert (Hlen' : N.of_nat (length (enumerate (scores_per_authority scores))) = committee_size c).
  { rewrite <-(length_fmap fst), (enumerate_fst _ c Hlen). unfold indices, committee_size. by rewrite length_fmap, length_seq. }
  rewrite (proj2 (N.eqb_eq _ _) Hlen'). cbn [assert_ mbind outcome_bind].
  destruct (sorted_by_score scores (replicate 28 Byte.x00 ++ le_bytes 4 commit_index) Hlen) as (HL & Hidx & Hsorted).
  set (L := sort_by _ (rand_shuffle _ _)) in *.
  destruct (retrieve_first_nodes_Ok threshold L Hthr Hidx) as (good & -> & Hgood & Hgs & Hgm & Hrep).
  destruct (retrieve_first_nodes_Ok threshold (rev L) Hthr) as (bad & -> & Hbad & Hbs & Hbm & _).
  { rewrite <-Hidx, <-Permutation_rev. done. }
  cbn [mbind outcome_bind]. eexists. split; [done|]. split; [done|].
  assert (Hsuf : rev (node_index <$> bad) `suffix_of` L.*1) by (apply suffix_rev; by rewrite <-map_rev).
  rewrite (list_stake_perm _ _ (rev (node_index <$> bad))) in Hbs, Hbm by apply Permutation_rev.
  assert (Hdis : ∀ a, a ∈ node_index <$> good → a ∈ node_index <$> bad → False).
  { intros a Hg Hb. by apply (ends_disjoint threshold L.*1 (node_index <$> good) (rev (node_index <$> bad)) a);
      rewrite ?elem_of_rev. }
  split; simpl; try done.
  - exists (rev (node_index <$> bad)). split_and!; [done| |done|].
    + intros a. by rewrite bad_nodes_lookup, elem_of_rev.
    + intros a rest Hl. apply (Hbm a (rev rest)). replace ((rev L).*1) with (rev L.*1) by (symmetry; apply map_rev).
      rewrite Hl, rev_app_distr. simpl.
      by rewrite rev_involutive, <-app_assoc.
  - intros a Ha. apply eq_None_not_Some. rewrite bad_nodes_lookup. eauto.
  - intros a sa b sb Ha. rewrite bad_nodes_lookup. intros Hb. apply (prefix_better _ (node_index <$> good)); try done;
      [rewrite Hidx; apply NoDup_indices|eauto].
Qed.

(** C31: The swap table.  Whatever the tie-break, the good and the bad nodes are those with
    the best and the worst scores, as many as together have at most the threshold of stake: with
    the next authority in the order either would exceed it.  No authority is both, no bad node
    has a better score than a good one, and there is a good node when no authority alone
    exceeds the threshold. *)
Theorem leader_swap_table_spec threshold commit_index scores :
  threshold ≤ 33 → threshold * total_stake c < 2 ^ 64 →
  N.of_nat (length (scores_per_authority scores)) = committee_size c →
  ∃ t, leader_swap_table_new_inner context threshold commit_index scores = Ok t ∧
    table_reputation_scores t = scores ∧ swap_table_ok context threshold t.
Proof. apply leader_swap_table_Ok. Qed.
End table.

(** ** Elections *)

(** A table that can replace each bad node by a good one. *)
Record table_ok (context : Context) (t : LeaderSwapTable) : Prop := {
  tk_good a : a ∈ node_index <$> good_nodes t →
    a < committee_size (committee context) ∧ bad_nodes t !! a = None;
  tk_replace : good_nodes t = [] → bad_nodes t = ∅;
}.

Lemma default_table_ok context : table_ok context leader_swap_table_default.
Proof. split; [by intros a ?%not_elem_of_nil|done]. Qed.

Lemma swap_table_table_ok context threshold t :
  swap_table_ok context threshold t →
  N.of_nat (length (scores_per_authority (table_reputation_scores t))) = committee_size (committee context) →
  (∀ a, a < committee_size (committee context) →
     stake_of (committee context) a ≤ stake_limit context threshold) →
  table_ok context t.
Proof.
  intros Ht Hlen Hall. split.
  - intros a Ha. split; [|by eapply st_disjoint]. apply elem_of_indices. rewrite <-(enumerate_fst _ _ Hlen).
    rewrite <-(st_perm _ _ _ Ht). destruct (st_good _ _ _ Ht) as [k ->]. apply elem_of_app. by left.
  - intros Hno. by destruct (st_replaced _ _ _ Ht Hall).
Qed.

Section elections.
Context `{RandSpec} (ls : LeaderSchedule).
Local Abbreviation c := (committee (ls_context ls)).
Context (Hc : committee_wf c) (Ht : table_ok (ls_context ls) (leader_swap_table ls)).

Lemma choices_fst : ((λ '(index, authority), (index, stake authority)) <$> committee_authorities c).*1 = indices c.
Proof.
  unfold committee_authorities, indices. rewrite <-list_fmap_compose, fmap_imap.
  apply list_eq. intros i. rewrite list_lookup_imap, list_lookup_fmap.
  destruct (authorities c !! i) as [au|] eqn:Hi; simpl.
  - rewrite lookup_seq_lt by by eapply lookup_lt_Some. done.
  - rewrite lookup_seq_ge by by apply lookup_ge_None. done.
Qed.

Lemma choices_weight :
  ∃ x, x ∈ ((λ '(index, authority), (index, stake authority)) <$> committee_authorities c) ∧ 0 < x.2.
Proof.
  set (choices := _ <$> _). destruct (decide (Exists (λ x, 0 < x.2) choices)) as [Hex|Hno].
  { apply Exists_exists in Hex as (x & ? & ?). eauto. }
  exfalso. pose proof (wf_positive _ Hc) as Hpos. rewrite (wf_total _ Hc), sum_N_zero in Hpos; [lia|].
  intros au (i & Hi)%list_elem_of_lookup. apply not_Exists_Forall in Hno; [|apply _].
  rewrite Forall_forall in Hno. specialize (Hno (N.of_nat i, stake au)). simpl in Hno.
  assert ((N.of_nat i, stake au) ∈ choices); [|lia || (specialize (Hno ltac:(done)); lia)].
  apply list_elem_of_fmap. exists (N.of_nat i, au). split; [done|].
  apply list_elem_of_lookup. exists i. unfold committee_authorities. by rewrite list_lookup_imap, Hi.
Qed.

(** The order in which the offsets of a round elect the authorities. *)
Lemma stake_based_order round :
  ∃ order, order ≡ₚ indices c ∧
    ∀ offset, offset < committee_size c → ∃ a, order !! N.to_nat offset = Some a ∧
      elect_leader_stake_based ls round offset = Ok a.
Proof.
  destruct (rand_choose_weighted_perm (replicate 28 Byte.x00 ++ le_bytes 4 round) _ snd choices_weight)
    as (chosen & Hch & Hperm).
  exists chosen.*1. assert (Hidx : chosen.*1 ≡ₚ indices c) by by rewrite Hperm, choices_fst.
  assert (Hlen : length chosen = length (authorities c)).
  { rewrite <-(length_fmap fst), Hidx. unfold indices. by rewrite length_fmap, length_seq. }
  split; [done|]. intros offset Hoff.
  destruct (lookup_lt_is_Some_2 chosen (N.to_nat offset)) as [[a s] Ha]; [unfold committee_size in Hoff; lia|].
  exists a. split; [by rewrite list_lookup_fmap, Ha|].
  unfold elect_leader_stake_based. rewrite (proj2 (N.ltb_lt _ _)) by done. cbn [assert_ mbind outcome_bind].
  rewrite length_fmap in Hch. unfold committee_authorities in Hch at 2. rewrite length_imap in Hch.
  unfold committee_size. rewrite Hch. rewrite head_lookup, lookup_drop, Nat.add_0_r, Ha. done.
Qed.

(** The leader of a round. *)
Lemma elect_leader_first round :
  ∃ a, ls_elect_leader ls round 0 = Ok a ∧ a < committee_size c ∧
    bad_nodes (leader_swap_table ls) !! a = None.
Proof.
  destruct (stake_based_order round) as (order & Hperm & Ho).
  destruct (Ho 0) as (leader & Hl & He).
  { pose proof (indices_stake _ Hc) as Hsum. pose proof (wf_positive _ Hc).
    unfold indices, committee_size in *. destruct (authorities c); [unfold list_stake in Hsum; simpl in Hsum; lia|simpl; lia]. }
  assert (leader < committee_size c) as Hlt.
  { apply elem_of_indices. rewrite <-Hperm. by eapply list_elem_of_lookup_2. }
  unfold ls_elect_leader, schedule_elect_leader. rewrite He. cbn [mbind outcome_bind]. unfold swap.
  case_bool_decide as Hbad.
  - cbn [N.eqb assert_ mbind outcome_bind].
    destruct (rand_choose_elem (replicate 24 Byte.x00 ++ le_bytes 4 round ++ le_bytes 4 0)
      (good_nodes (leader_swap_table ls))) as ([[a h] s] & -> & Ha).
    { intros Hno. rewrite (tk_replace _ _ Ht Hno), lookup_empty in Hbad. by apply is_Some_None in Hbad. }
    simpl. exists a. split; [done|]. apply (tk_good _ _ Ht). apply (list_elem_of_fmap_2 node_index) in Ha. exact Ha.
  - simpl. exists leader. split_and!; [done..|]. by apply eq_None_not_Some.
Qed.

(** Elections.  In every round the offsets elect all the authorities, each once, by
    stake; with the swap table, [elect_leader] of the first offset never panics and elects an
    authority of the committee that is not a bad node. *)
Theorem elect_leader_spec round :
  (∃ order, order ≡ₚ indices c ∧
     ∀ offset, offset < committee_size c → ∃ a, order !! N.to_nat offset = Some a ∧
       elect_leader_stake_based ls round offset = Ok a) ∧
  ∃ a, ls_elect_leader ls round 0 = Ok a ∧ a < committee_size c ∧
    bad_nodes (leader_swap_table ls) !! a = None.
Proof. split; [apply stake_based_order|apply elect_leader_first]. Qed.
End elections.
