(* ===== verification/Slots.v ===== *)
(** The leader slots of the pipelined committers that the core builds
    ([consensus/core/src/universal_committer.rs], [consensus/core/src/core.rs]): one slot in each
    round, that of the authority the schedule elects. *)

From stdpp Require Import base strings numbers sorting gmap sets relations list.
From S2P Require Import Prelude Committee Block Dag StakeAggregator Commit BlockVerifier Store DagState DagStateFacts Recovery DagReader BaseCommitter Votes Decisions UniversalCommitter Pipeline Agreement Sequence Linearizer Linearization TotalOrder.

Open Scope N_scope.

(** ** One slot per round *)

Definition slot_at (e : Round → AuthorityIndex) (r : Round) : Slot := mkSlot r (e r).

(** The slots from that of [s], exclusive, to the round [hi]; when the round of [s] has another
    leader, that leader's slot is among them. *)
Definition slots_from (e : Round → AuthorityIndex) (s : Slot) (hi : Round) : list Slot :=
  filter (λ x, x ≠ s) (slot_at e <$> range_inclusive (slot_round s) hi).

Lemma elem_of_slots_from e s hi x :
  x ∈ slots_from e s hi ↔ slot_round s ≤ slot_round x ≤ hi ∧ x = slot_at e (slot_round x) ∧ x ≠ s.
Proof.
  unfold slots_from. rewrite list_elem_of_filter, list_elem_of_fmap. setoid_rewrite elem_of_range_inclusive.
  split.
  - intros [Hne (r & -> & Hr)]. done.
  - intros (Hr & Hx & Hne). split; [done|]. exists (slot_round x). done.
Qed.

Lemma range_inclusive_sorted lo hi : StronglySorted N.lt (range_inclusive lo hi).
Proof.
  unfold range_inclusive. generalize 0%nat. induction (N.to_nat (hi + 1 - lo)) as [|n IH]; intros k; simpl;
    [constructor|]. constructor; [apply IH|]. apply Forall_forall.
  intros x (i & -> & Hi)%list_elem_of_fmap. apply elem_of_seq in Hi. lia.
Qed.

Lemma slots_from_sorted e s hi : StronglySorted (λ a b, slot_round a < slot_round b) (slots_from e s hi).
Proof.
  unfold slots_from. eapply StronglySorted_sublist; [apply sublist_filter|].
  induction (range_inclusive_sorted (slot_round s) hi) as [|r l _ IH Hr]; simpl; constructor; [done|].
  by rewrite Forall_fmap.
Qed.

Lemma slots_from_NoDup e s hi : NoDup (slots_from e s hi).
Proof. by eapply (StronglySorted_lt_NoDup slot_round), slots_from_sorted. Qed.

(** The slots after genesis among them. *)
Definition live_slots (e : Round → AuthorityIndex) (s : Slot) (hi : Round) : list Slot :=
  filter (λ x, x ≠ s) (slot_at e <$> range_inclusive (N.max 1 (slot_round s)) hi).

Lemma elem_of_live_slots e s hi x :
  x ∈ live_slots e s hi ↔
  slot_round s ≤ slot_round x ≤ hi ∧ 0 < slot_round x ∧ x = slot_at e (slot_round x) ∧ x ≠ s.
Proof.
  unfold live_slots. rewrite list_elem_of_filter, list_elem_of_fmap. setoid_rewrite elem_of_range_inclusive.
  split.
  - intros [Hne (r & -> & Hr)]. simpl. split_and!; [lia..|done|done].
  - intros (Hr & Hpos & Hx & Hne). split; [done|]. exists (slot_round x). split; [done|lia].
Qed.

Lemma range_inclusive_empty lo hi : hi < lo → range_inclusive lo hi = [].
Proof. intros Hlt. unfold range_inclusive. by replace (N.to_nat (hi + 1 - lo)) with 0%nat by lia. Qed.

Lemma range_inclusive_single r : range_inclusive r r = [r].
Proof. unfold range_inclusive. replace (N.to_nat (r + 1 - r)) with 1%nat by lia. cbn. by rewrite N.add_0_r. Qed.

(** They are of consecutive rounds.  The first is the round of [s] when it now has another leader. *)
Definition next_round (e : Round → AuthorityIndex) (s : Slot) : Round :=
  if bool_decide (0 < slot_round s ∧ e (slot_round s) ≠ slot_authority s) then slot_round s else slot_round s + 1.

Lemma live_slots_next e s hi : live_slots e s hi = slot_at e <$> range_inclusive (next_round e s) hi.
Proof.
  assert (Hkeep : ∀ lo, slot_round s < lo ∨ slot_at e (slot_round s) ≠ s →
    filter (λ x, x ≠ s) (slot_at e <$> range_inclusive lo hi) = slot_at e <$> range_inclusive lo hi).
  { intros lo Hlo. apply list_filter_all. intros x (r & -> & Hr%elem_of_range_inclusive)%list_elem_of_fmap.
    intros Hx. destruct Hlo as [Hlo|Hlo]; [rewrite <-Hx in Hlo; simpl in Hlo; lia|].
    apply Hlo. rewrite <-Hx at 2. by rewrite <-Hx. }
  unfold live_slots, next_round. case_bool_decide as Hnext.
  - rewrite N.max_r by lia. apply Hkeep. right. intros Hs. apply (proj2 Hnext). by rewrite <-Hs at 2.
  - destruct (decide (slot_round s = 0)) as [Hz|Hz]; [rewrite Hz; apply Hkeep; lia|].
    assert (Hs : slot_at e (slot_round s) = s).
    { destruct s as [r a]. unfold slot_at. simpl in *. f_equal. destruct (decide (e r = a)); [done|]. destruct Hnext. lia. }
    rewrite N.max_r by lia. destruct (decide (slot_round s ≤ hi)) as [Hle|Hgt].
    + rewrite (range_inclusive_split (slot_round s) (slot_round s) hi), fmap_app, filter_app by lia.
      rewrite Hkeep by lia. rewrite range_inclusive_single. cbn. by rewrite decide_False by (rewrite Hs; tauto).
    + rewrite !range_inclusive_empty by lia. done.
Qed.

Lemma live_slots_lookup e s hi i x : live_slots e s hi !! i = Some x → x = slot_at e (next_round e s + N.of_nat i).
Proof.
  rewrite live_slots_next. intros (r & -> & Hr)%list_lookup_fmap_Some. unfold range_inclusive in Hr.
  apply list_lookup_fmap_Some in Hr as (k & -> & [-> _]%lookup_seq). done.
Qed.

Lemma slots_from_live e s hi :
  ∃ g, slots_from e s hi = g ++ live_slots e s hi ∧ ∀ x, x ∈ g → slot_round x = GENESIS_ROUND.
Proof.
  unfold slots_from, live_slots. destruct (decide (slot_round s = 0)) as [Hs|Hs].
  - rewrite Hs. destruct (decide (hi < 1)) as [Hlt|Hge].
    + exists (filter (λ x, x ≠ s) (slot_at e <$> range_inclusive 0 hi)). split.
      * assert (range_inclusive (N.max 1 0) hi = []) as ->; [|by rewrite app_nil_r].
        apply list_nil_subseteq. intros r. rewrite elem_of_range_inclusive. lia.
      * intros x [_ (r & -> & Hr%elem_of_range_inclusive)%list_elem_of_fmap]%list_elem_of_filter.
        simpl. unfold GENESIS_ROUND. lia.
    + rewrite (range_inclusive_split 0 0 hi), fmap_app, filter_app by lia. eexists. split; [done|].
      intros x [_ (r & -> & Hr%elem_of_range_inclusive)%list_elem_of_fmap]%list_elem_of_filter.
      simpl. unfold GENESIS_ROUND. lia.
  - exists []. split; [|by intros x ?%not_elem_of_nil]. by rewrite N.max_r by lia.
Qed.

Lemma live_slots_sorted e s hi : StronglySorted (λ a b, slot_round a < slot_round b) (live_slots e s hi).
Proof.
  unfold live_slots. eapply StronglySorted_sublist; [apply sublist_filter|].
  induction (range_inclusive_sorted (N.max 1 (slot_round s)) hi) as [|r l _ IH Hr]; simpl; constructor; [done|].
  by rewrite Forall_fmap.
Qed.

Lemma live_slots_prefix e s hi hi' : hi ≤ hi' → live_slots e s hi `prefix_of` live_slots e s hi'.
Proof.
  intros Hle. unfold live_slots. destruct (decide (hi < N.max 1 (slot_round s))) as [Hlt|Hge].
  - assert (range_inclusive (N.max 1 (slot_round s)) hi = []) as ->; [|apply prefix_nil].
    apply list_nil_subseteq. intros r. rewrite elem_of_range_inclusive. lia.
  - rewrite (range_inclusive_split _ hi hi'), fmap_app, filter_app by lia. by eexists.
Qed.

Lemma live_slots_length e s hi : N.of_nat (length (live_slots e s hi)) ≤ hi + 1 - slot_round s.
Proof.
  unfold live_slots. pose proof (length_filter (λ x, x ≠ s) (slot_at e <$> range_inclusive (N.max 1 (slot_round s)) hi)) as Hl.
  rewrite length_fmap in Hl. unfold range_inclusive in Hl at 2. rewrite length_fmap, length_seq in Hl. lia.
Qed.

(** Two sorted lists of the same slots are the same. *)
Lemma sorted_slots_unique l1 l2 :
  StronglySorted (λ a b, slot_round a < slot_round b) l1 →
  StronglySorted (λ a b, slot_round a < slot_round b) l2 →
  (∀ x, x ∈ l1 ↔ x ∈ l2) → l1 = l2.
Proof.
  intros H1. revert l2. induction H1 as [|x l1 Hl1 IH Hx]; intros l2 H2 Heq.
  - symmetry. apply list_nil_subseteq. intros y Hy. by apply Heq.
  - destruct H2 as [|y l2 Hl2 Hy]; [specialize (Heq x); set_solver|].
    rewrite Forall_forall in Hx, Hy.
    assert (x = y) as <-.
    { pose proof (proj1 (Heq x) ltac:(left)) as [|Hxy]%elem_of_cons; [done|].
      pose proof (proj2 (Heq y) ltac:(left)) as [|Hyx]%elem_of_cons; [done|].
      specialize (Hx y Hyx). specialize (Hy x Hxy). simpl in *. lia. }
    f_equal. apply IH; [done|]. intros z. split; intros Hz.
    + pose proof (proj1 (Heq z) ltac:(by right)) as [->|]%elem_of_cons; [|done]. specialize (Hx x Hz). simpl in Hx. lia.
    + pose proof (proj2 (Heq z) ltac:(by right)) as [->|]%elem_of_cons; [|done]. specialize (Hy x Hz). simpl in Hy. lia.
Qed.

(** After one of the slots come the slots from it on. *)
Lemma live_slots_split e s hi before x after :
  live_slots e s hi = before ++ x :: after → after = live_slots e x hi.
Proof.
  intros Heq. pose proof (live_slots_sorted e s hi) as Hs. rewrite Heq in Hs.
  assert (Hx : x ∈ live_slots e s hi) by (rewrite Heq; set_solver).
  apply elem_of_live_slots in Hx as (Hr & Hpos & Hxe & Hne).
  pose proof (StronglySorted_app_1_r _ _ _ Hs) as Hs2. apply StronglySorted_inv in Hs2 as [Hafter Hgt].
  rewrite Forall_forall in Hgt.
  apply sorted_slots_unique; [done|apply live_slots_sorted|]. intros y.
  rewrite elem_of_live_slots. split.
  - intros Hy. specialize (Hgt y Hy).
    assert (y ∈ live_slots e s hi) as (? & ? & ? & ?)%elem_of_live_slots by (rewrite Heq; set_solver).
    split_and!; try done; try lia. intros ->. simpl in Hgt. lia.
  - intros (Hyr & Hyp & Hye & Hyx).
    assert (slot_round x < slot_round y) as Hlt.
    { destruct (decide (slot_round x = slot_round y)) as [Hrr|]; [|lia].
      destruct Hyx. rewrite Hye, Hxe. by rewrite Hrr. }
    assert (y ∈ live_slots e s hi) as Hy.
    { apply elem_of_live_slots. split_and!; try done; try lia. intros ->. lia. }
    rewrite Heq in Hy. apply elem_of_app in Hy as [Hy|[->|Hy]%elem_of_cons]; [|done|done].
    exfalso. pose proof (StronglySorted_app_1_elem_of _ _ _ y x Hs Hy ltac:(left)) as Hyx'. simpl in Hyx'. lia.
Qed.

(** ** The committers *)

Definition pipeline_options : list BaseCommitterOptions :=
  [mkBaseCommitterOptions 3 0 0; mkBaseCommitterOptions 3 0 1; mkBaseCommitterOptions 3 0 2].

Section pipelined.
Context {L D : Type} `{LeaderElection L} `{DagReader D}.
Context (ctx : Context) (ls : L) (d : D) (e : Round → AuthorityIndex).
Context (He : ∀ r, ls_elect_leader ls r 0 = Ok (e r)).

(** The committers of the core. *)
Definition pipelined_committer : UniversalCommitter L D :=
  mkUniversalCommitter ctx d (mkBaseCommitter ctx ls d <$> pipeline_options).

(** The committer of an offset is responsible for the rounds of that residue. *)
Lemma elected_offset k r :
  k < 3 → r < U32_MAX →
  elected r (mkBaseCommitter ctx ls d (mkBaseCommitterOptions 3 0 k)) =
    if r mod 3 =? k then Some (slot_at e r) else None.
Proof.
  intros Hk Hr.
  pose proof (stage_leader_round (with_pipeline true (universal_committer_builder_new ctx ls d)) k 0 r
    ltac:(done) Hk ltac:(done) ltac:(unfold U32_MAX in *; lia)) as Hstage.
  change (stage_committer _ k 0) with (mkBaseCommitter ctx ls d (mkBaseCommitterOptions 3 0 k)) in Hstage.
  change (ucb_wave_length _) with 3 in Hstage. unfold elected, elect_leader.
  destruct (N.eqb_spec (leader_round (mkBaseCommitter ctx ls d (mkBaseCommitterOptions 3 0 k))
    (wave_number (mkBaseCommitter ctx ls d (mkBaseCommitterOptions 3 0 k)) r)) r) as [Heq|Hne]; cbn [negb].
  - apply Hstage in Heq as ->. rewrite N.eqb_refl. cbn. by rewrite He.
  - destruct (N.eqb_spec (r mod 3) k) as [Hk'|]; [|done]. by destruct Hne; apply Hstage.
Qed.

Lemma round_elections r :
  r < U32_MAX → omap (λ p, elected p.1 p.2) (pair r <$> rev (committers pipelined_committer)) = [slot_at e r].
Proof.
  intros Hr. cbn. rewrite !elected_offset by (done || lia).
  pose proof (N.mod_lt r 3 ltac:(done)) as Hm. revert Hm. generalize (r mod 3). intros m Hm.
  assert (m = 0 ∨ m = 1 ∨ m = 2) as [->|[->| ->]] by lia; done.
Qed.

Lemma elections_pipelined lo hi :
  hi < U32_MAX → elections pipelined_committer lo hi = rev (slot_at e <$> range_inclusive lo hi).
Proof.
  intros Hhi. unfold elections, decision_todo. rewrite <-map_rev.
  assert (∀ r, r ∈ rev (range_inclusive lo hi) → r < U32_MAX) as Hr.
  { intros r. rewrite elem_of_rev, elem_of_range_inclusive. lia. }
  induction (rev (range_inclusive lo hi)) as [|r l IH]; [done|].
  cbn [mbind list_bind]. rewrite omap_app, round_elections by (apply Hr; left).
  cbn. f_equal. apply IH. intros; apply Hr; by right.
Qed.

Lemma decision_slots_pipelined s :
  dr_highest_accepted_round d < U32_MAX →
  decision_slots pipelined_committer s = slots_from e s (dr_highest_accepted_round d - 2).
Proof.
  intros Hhi. unfold decision_slots. cbn [uc_dag_state pipelined_committer].
  change (omap _ (decision_todo ?x ?y ?z)) with (elections x y z).
  set (hi := _ - 2). rewrite elections_pipelined by (unfold hi; lia). unfold slots_from.
  destruct (decide (hi < slot_round s)) as [Hlt|Hge].
  { assert (range_inclusive (slot_round s) hi = []) as ->; [|done].
    apply list_nil_subseteq. intros r. rewrite elem_of_range_inclusive. lia. }
  rewrite (range_inclusive_split _ (slot_round s) hi) by lia.
  assert (range_inclusive (slot_round s) (slot_round s) = [slot_round s]) as ->.
  { unfold range_inclusive. replace (N.to_nat (slot_round s + 1 - slot_round s)) with 1%nat by lia.
    simpl. f_equal. lia. }
  set (l := slot_at e <$> range_inclusive (slot_round s + 1) hi).
  assert (s ∉ l) as Hs.
  { intros (r & -> & Hr%elem_of_range_inclusive)%list_elem_of_fmap. simpl in Hr. lia. }
  rewrite fmap_app, rev_app_distr. fold l. cbn [fmap list_fmap rev app].
  rewrite slots_until_app by by rewrite elem_of_rev. rewrite rev_app_distr, rev_involutive, filter_cons.
  assert (filter (λ x, x ≠ s) l = l) as ->.
  { apply list_filter_all. intros x Hx ->. done. }
  cbn [slots_until]. case_bool_decide as Hd; [rewrite decide_False by naive_solver|rewrite decide_True by done]; done.
Qed.
End pipelined.
