(* ===== verification/Periods.v ===== *)
(** What a validator has decided under one leader schedule, over several calls of
    [UniversalCommitter::try_decide] on a growing DAG
    ([consensus/core/src/universal_committer.rs], [consensus/core/src/core.rs]): the decisions of
    all the calls are justified together, so two validators' decisions under the same schedule
    extend each other. *)

From stdpp Require Import base strings numbers sorting gmap sets relations list.
From S2P Require Import Prelude Committee Block Dag StakeAggregator Commit BlockVerifier DagReader BaseCommitter Votes Decisions UniversalCommitter Agreement Sequence TotalOrder Slots.

Open Scope N_scope.

(** ** A larger DAG *)

Section larger.
Context (c : Committee) (Hc : committee_wf c).
Context (byz : gset AuthorityIndex) (Hbyz : set_stake c byz < validity_threshold c).

Lemma quorum_at_mono V V' round (P P' : VerifiedBlock → Prop) :
  V ⊆ V' → (∀ b, V !! reference b = Some b → P b → P' b) →
  quorum_at c V round P → quorum_at c V' round P'.
Proof.
  intros Hsub HP (s & Hs & Hb). exists s. split; [done|]. intros h Hh.
  destruct (Hb h Hh) as (b & HV & Hr & Ha & Hpb). exists b. split_and!; [|done|done|by apply HP].
  by eapply lookup_weaken.
Qed.

Lemma compatible_mono V V' : V ⊆ V' → compatible byz V' V' → compatible byz V V'.
Proof.
  intros Hsub [Hcons Hhon]. split.
  - intros r x y Hx Hy. eapply Hcons; [|done]. by eapply lookup_weaken.
  - intros x y Hx Hy. apply Hhon; [|done]. by eapply lookup_weaken.
Qed.

(** A decision stays justified when the DAG grows. *)
Lemma justified_mono V V' slot later st :
  valid_dag c V → valid_dag c V' → V ⊆ V' → compatible byz V' V' →
  justified c V slot later st → justified c V' slot later st.
Proof.
  intros HV HV' Hsub Hhon. pose proof (compatible_mono V V' Hsub Hhon) as Hcomp.
  pose proof (vd_closed _ _ HV) as HC. pose proof (vd_closed _ _ HV') as HC'.
  assert (Hin : ∀ r b, V !! r = Some b → V' !! r = Some b) by (intros; by eapply lookup_weaken).
  assert (Hcert : ∀ l b, V !! reference b = Some b → certificate c V l b = certificate c V' l b).
  { intros l b Hb. apply certificate_view; [done|done|apply Hcomp|..].
    - by apply (closed_complete _ _ _ HC Hb).
    - by apply (closed_complete _ _ _ HC' (Hin _ _ Hb)). }
  intros [Hq|l Hl Hs Hg Hq|anchor Ha HA Hr Hno|anchor l Ha HA Hl Hs Hg Hlk|].
  - apply direct_skip. eapply quorum_at_mono; [done| |exact Hq]. done.
  - apply direct_commit; [by apply Hin|done|done|]. eapply quorum_at_mono; [done| |exact Hq].
    intros b Hb. simpl. by rewrite (Hcert l b Hb).
  - apply (indirect_skip _ _ _ _ anchor); [done|by apply Hin|done|]. intros Hg l Hl Hs Hlk.
    assert (certified_link c V (vb_round l + 2) anchor l) as Hlk'.
    { eapply (certified_link_view c byz V'); try done; [by apply compatible_sym|by apply Hin]. }
    apply (Hno Hg l); [|done|done].
    destruct Hlk' as (C & HCl & HrC & _ & Hcc).
    edestruct (certificate_leader c) as [l' Hl']; [done|exact Hbyz|exact HV|exact HCl|exact HrC|exact Hcc|].
    pose proof (Hin _ _ Hl') as Hl''. rewrite Hl in Hl''. by injection Hl'' as ->.
  - apply (indirect_commit _ _ _ _ anchor); try done; [by apply Hin..|].
    eapply (certified_link_view c byz V); try done. by apply Hin.
  - constructor.
Qed.

Lemma justified_list_mono V V' slots sts :
  valid_dag c V → valid_dag c V' → V ⊆ V' → compatible byz V' V' →
  justified_list c V slots sts → justified_list c V' slots sts.
Proof.
  intros HV HV' Hsub Hhon. revert sts. induction slots as [|slot slots IH]; intros [|st sts]; simpl; try done.
  intros [Hj Hl]. split; [by apply (justified_mono V V')|by apply IH].
Qed.
End larger.

(** ** More decisions *)

(** The statuses of [l2] are for the slots of [l1] and more, and keep the decisions of [l1]. *)
Fixpoint refines (l1 l2 : list LeaderStatus) : Prop :=
  match l1, l2 with
  | [], _ => True
  | st1 :: l1, st2 :: l2 =>
      status_slot st1 = status_slot st2 ∧ (is_decided st1 = true → st2 = st1) ∧ refines l1 l2
  | _, _ => False
  end.

Lemma refines_app pre l1 l2 : refines l1 l2 → refines (pre ++ l1) (pre ++ l2).
Proof. intros Hr. induction pre as [|st pre IH]; simpl; auto. Qed.

Lemma anchor_refines slot l1 l2 anchor :
  refines l1 l2 → anchor_of slot l1 = Some anchor → anchor_of slot l2 = Some anchor.
Proof.
  revert l2. induction l1 as [|st1 l1 IH]; intros [|st2 l2]; simpl; try done.
  intros (Hs & Hd & Hr). rewrite <-!status_slot_round, <-Hs.
  destruct (_ <=? _); [|by apply IH].
  destruct st1; simpl in *; [by rewrite (Hd eq_refl)|rewrite (Hd eq_refl); by apply IH|done].
Qed.

Lemma justified_refines c V slot later later' st :
  refines later later' → justified c V slot later st → justified c V slot later' st.
Proof.
  intros Hr [Hq|l Hl Hs Hg Hq|anchor Ha HA Hrd Hno|anchor l Ha HA Hl Hs Hg Hlk|].
  - by apply direct_skip.
  - by apply direct_commit.
  - apply (indirect_skip _ _ _ _ anchor); try done. by eapply anchor_refines.
  - apply (indirect_commit _ _ _ _ anchor); try done. by eapply anchor_refines.
  - constructor.
Qed.

(** The decisions of both. *)
Fixpoint join (l1 l2 : list LeaderStatus) : list LeaderStatus :=
  match l1, l2 with
  | [], _ => l2
  | _, [] => l1
  | st1 :: l1, st2 :: l2 => (if is_decided st1 then st1 else st2) :: join l1 l2
  end.

Lemma refines_refl l : refines l l.
Proof. induction l; simpl; auto. Qed.

Lemma join_refines l1 l2 : agree l1 l2 → refines l1 (join l1 l2) ∧ refines l2 (join l1 l2).
Proof.
  revert l2. induction l1 as [|st1 l1 IH]; intros [|st2 l2]; simpl; try done.
  - intros _. split; [done|]. split_and!; [done|done|apply refines_refl].
  - intros _. split; [|done]. split_and!; [done|done|apply refines_refl].
  - intros [[Hs Hd] Hag]. destruct (IH l2 Hag) as [Hr1 Hr2].
    destruct (is_decided st1) eqn:E1; split; split_and!; try done.
    intros E2. by apply Hd.
Qed.

(** The slots of the longer list. *)
Lemma justified_list_join c V slots1 slots2 slots l1 l2 :
  justified_list c V slots1 l1 → justified_list c V slots2 l2 → agree l1 l2 →
  slots1 `prefix_of` slots → slots2 `prefix_of` slots → slots = slots1 ∨ slots = slots2 →
  justified_list c V slots (join l1 l2).
Proof.
  revert slots1 slots2 l1 l2. induction slots as [|slot slots IH]; intros slots1 slots2 l1 l2 H1 H2 Hag P1 P2 Hlen.
  { apply prefix_nil_inv in P1 as ->. apply prefix_nil_inv in P2 as ->. by destruct l1, l2. }
  destruct slots1 as [|s1 slots1]; [|destruct slots2 as [|s2 slots2]].
  { destruct l1; [|done]. destruct Hlen as [?| ->]; [done|exact H2]. }
  { destruct l2; [|done]. destruct Hlen as [->|?]; [|done]. by destruct l1. }
  destruct l1 as [|st1 l1]; [done|]. destruct l2 as [|st2 l2]; [done|].
  pose proof (prefix_cons_inv_1 _ _ _ _ P1) as ->. pose proof (prefix_cons_inv_1 _ _ _ _ P2) as ->.
  pose proof (prefix_cons_inv_2 _ _ _ _ P1) as P1'. pose proof (prefix_cons_inv_2 _ _ _ _ P2) as P2'.
  destruct H1 as [J1 H1], H2 as [J2 H2], Hag as [Hal Hag]. simpl.
  destruct (join_refines l1 l2 Hag) as [R1 R2]. split.
  - destruct (is_decided st1); [by apply (justified_refines _ _ _ l1)|by apply (justified_refines _ _ _ l2)].
  - apply (IH slots1 slots2); try done. destruct Hlen; simplify_eq; auto.
Qed.

Lemma justified_list_app c V s1 s2 l1 l2 :
  length l1 = length s1 → justified_list c V (s1 ++ s2) (l1 ++ l2) → justified_list c V s2 l2.
Proof.
  revert l1. induction s1 as [|s s1 IH]; intros [|l l1] Hlen; simpl; try done.
  intros [_ ?]. apply (IH l1); [by injection Hlen|done].
Qed.

Lemma justified_list_replace c V s1 s2 s2' l1 l2 l2' :
  length l1 = length s1 → justified_list c V (s1 ++ s2) (l1 ++ l2) → justified_list c V s2' l2' →
  refines l2 l2' → justified_list c V (s1 ++ s2') (l1 ++ l2').
Proof.
  revert l1. induction s1 as [|s s1 IH]; intros [|l l1] Hlen; simpl; try done.
  intros [Hj Hl] Hl' Hr. split; [|by apply IH; [injection Hlen|..]].
  eapply justified_refines; [|exact Hj]. by apply refines_app.
Qed.

Lemma justified_list_length c V slots sts : justified_list c V slots sts → length sts = length slots.
Proof.
  revert sts. induction slots as [|s slots IH]; intros [|st sts]; simpl; try done. intros [_ Hl]. by rewrite (IH sts).
Qed.

(** ** The decisions under one schedule *)

Definition committed_status (st : LeaderStatus) : option VerifiedBlock :=
  match st with LSCommit b => Some b | _ => None end.

(** Under the schedule [e], from the slot [s0] on, all slots up to [s] have been decided, with
    the committed leaders [leaders]; the decisions are justified by the blocks of [V]. *)
Definition decided_so_far (c : Committee) (V : dag) (e : Round → AuthorityIndex) (s0 s : Slot)
    (leaders : list VerifiedBlock) : Prop :=
  ∃ hi dec rest, justified_list c V (live_slots e s0 hi) (dec ++ rest) ∧
    Forall (λ st, is_decided st = true) dec ∧ omap committed_status dec = leaders ∧
    s = default s0 (last (status_slot <$> dec)).

Lemma live_slots_zero e s : live_slots e s 0 = [].
Proof.
  unfold live_slots. assert (range_inclusive (N.max 1 (slot_round s)) 0 = []) as ->; [|done].
  apply list_nil_subseteq. intros r. rewrite elem_of_range_inclusive. lia.
Qed.

Lemma decided_start c V e s0 : decided_so_far c V e s0 s0 [].
Proof. exists 0, [], []. by rewrite live_slots_zero. Qed.

Lemma join_decided pre post l :
  Forall (λ st, is_decided st = true) pre → join (pre ++ post) l = pre ++ join post (drop (length pre) l).
Proof.
  revert l. induction pre as [|st pre IH]; intros l Hpre; simpl; [done|].
  apply Forall_cons in Hpre as [Hst Hpre]. destruct l as [|st' l]; simpl.
  - f_equal. by destruct post.
  - by rewrite Hst, IH.
Qed.

(** The slots left after the decided ones. *)
Lemma slots_left e s0 hi hi' (dec rest : list LeaderStatus) :
  status_slot <$> dec ++ rest = live_slots e s0 hi → hi ≤ hi' →
  live_slots e s0 hi' = (status_slot <$> dec) ++ live_slots e (default s0 (last (status_slot <$> dec))) hi'.
Proof.
  intros Hs Hle. destruct (live_slots_prefix e s0 hi hi' Hle) as [more Hmore].
  destruct dec as [|st dec _] using rev_ind; [done|].
  rewrite fmap_app in Hs |- *. rewrite fmap_app in Hs. cbn [fmap list_fmap] in Hs |- *. rewrite last_snoc. cbn [default].
  rewrite <-Hs, <-!app_assoc in Hmore. cbn [app] in Hmore.
  rewrite <-app_assoc. cbn [app]. rewrite Hmore. do 2 f_equal. by apply live_slots_split in Hmore.
Qed.

Lemma decided_last (dec pre : list LeaderStatus) :
  pre ≠ [] → last (status_slot <$> dec ++ pre) = last (status_slot <$> pre).
Proof.
  intros Hne. destruct pre as [|st pre _] using rev_ind; [done|]. rewrite app_assoc, !fmap_app. cbn [fmap list_fmap]. by rewrite !last_snoc.
Qed.

Section decided.
Context (c : Committee) (Hc : committee_wf c).
Context (byz : gset AuthorityIndex) (Hbyz : set_stake c byz < validity_threshold c).

Lemma decided_mono V V' e s0 s leaders :
  valid_dag c V → valid_dag c V' → V ⊆ V' → compatible byz V' V' →
  decided_so_far c V e s0 s leaders → decided_so_far c V' e s0 s leaders.
Proof.
  intros HV HV' Hsub Hhon (hi & dec & rest & Hj & Hd). exists hi, dec, rest. split; [|done].
  by apply (justified_list_mono c Hc byz Hbyz V).
Qed.

(** More decisions, from the slot reached. *)
Lemma decided_extend V e s0 s leaders hi' pre post :
  valid_dag c V → compatible byz V V → decided_so_far c V e s0 s leaders →
  justified_list c V (live_slots e s hi') (pre ++ post) → Forall (λ st, is_decided st = true) pre →
  decided_so_far c V e s0 (default s (last (status_slot <$> pre))) (leaders ++ omap committed_status pre).
Proof.
  intros HV Hhon (hi & dec & rest & Hj & Hdec & <- & Hs) Hj' Hpre.
  pose proof (justified_list_slots _ _ _ _ Hj) as Hslots.
  assert (Hlen : length dec = length (status_slot <$> dec)) by by rewrite length_fmap.
  pose proof (slots_left e s0 hi hi dec rest Hslots ltac:(lia)) as Hleft. rewrite <-Hs in Hleft.
  assert (Hrest : justified_list c V (live_slots e s hi) rest).
  { rewrite Hleft in Hj. by apply (justified_list_app c V (status_slot <$> dec) _ dec). }
  set (h := N.max hi hi').
  assert (Hcmp : live_slots e s hi' `prefix_of` live_slots e s h ∧ live_slots e s hi `prefix_of` live_slots e s h ∧
    (live_slots e s h = live_slots e s hi' ∨ live_slots e s h = live_slots e s hi)).
  { unfold h. destruct (N.max_spec hi hi') as [[? ->]|[? ->]];
      split_and!; try (apply live_slots_prefix; lia); auto. }
  destruct Hcmp as (P1 & P2 & Hor).
  assert (Hag : agree (pre ++ post) rest).
  { destruct (N.le_ge_cases hi hi') as [Hle|Hle].
    - apply agree_sym. destruct (live_slots_prefix e s hi hi' Hle) as [extra Hx]. rewrite Hx in Hj'.
      by eapply (justified_list_agree c byz V V).
    - destruct (live_slots_prefix e s hi' hi Hle) as [extra Hx]. rewrite Hx in Hrest.
      by eapply (justified_list_agree c byz V V). }
  pose proof (justified_list_join c V _ _ _ _ _ Hj' Hrest Hag P1 P2 Hor) as HJ.
  rewrite join_decided in HJ by done.
  exists h, (dec ++ pre), (join post (drop (length pre) rest)). split_and!.
  - rewrite (slots_left e s0 hi h dec rest Hslots) by (unfold h; lia). rewrite <-Hs, <-app_assoc.
    eapply (justified_list_replace c V _ (live_slots e s hi) _ dec rest); [done| |done|].
    + by rewrite <-Hleft.
    + rewrite <-join_decided by done. by apply join_refines.
  - by apply Forall_app.
  - by rewrite omap_app.
  - destruct pre as [|st pre]; [by rewrite app_nil_r|]. rewrite decided_last by done.
    destruct (last (status_slot <$> st :: pre)) eqn:El; [done|]. by apply last_None in El.
Qed.

(** Two validators under the same schedule. *)
Lemma decided_comparable V1 V2 e s0 s1 s2 leaders1 leaders2 :
  valid_dag c V1 → valid_dag c V2 → compatible byz V1 V2 →
  decided_so_far c V1 e s0 s1 leaders1 → decided_so_far c V2 e s0 s2 leaders2 →
  leaders1 `prefix_of` leaders2 ∨ leaders2 `prefix_of` leaders1.
Proof.
  intros HV1 HV2 Hcomp (hi1 & dec1 & rest1 & Hj1 & Hd1 & <- & _) (hi2 & dec2 & rest2 & Hj2 & Hd2 & <- & _).
  assert (Hag : agree (dec1 ++ rest1) (dec2 ++ rest2)).
  { destruct (N.le_ge_cases hi1 hi2) as [Hle|Hle].
    - destruct (live_slots_prefix e s0 hi1 hi2 Hle) as [extra Hx]. rewrite Hx in Hj2.
      by eapply (justified_list_agree c byz V1 V2).
    - apply agree_sym. destruct (live_slots_prefix e s0 hi2 hi1 Hle) as [extra Hx]. rewrite Hx in Hj1.
      eapply (justified_list_agree c byz V2 V1); try done. by apply compatible_sym. }
  assert (dec1 `prefix_of` dec2 ∨ dec2 `prefix_of` dec1) as [?|?]; [|left|right]; try by apply prefix_omap.
  clear Hj1 Hj2. revert dec2 Hd2 Hag.
  induction Hd1 as [|st1 dec1 Hst1 Hd1 IH]; intros dec2 Hd2 Hag; [left; apply prefix_nil|].
  destruct Hd2 as [|st2 dec2 Hst2 Hd2]; [right; apply prefix_nil|].
  destruct Hag as [[_ Heq] Hag]. rewrite <-(Heq Hst1 Hst2).
  destruct (IH dec2 Hd2 Hag); [left|right]; by apply prefix_cons.
Qed.
End decided.

(** ** The decisions of a call *)

Definition decided_status (dl : DecidedLeader) : LeaderStatus :=
  match dl with DLCommit b => LSCommit b | DLSkip s => LSSkip s end.

Lemma decided_status_slot dl : status_slot (decided_status dl) = decided_leader_slot dl.
Proof. by destruct dl. Qed.

Lemma committed_decided_status (l : list DecidedLeader) : omap committed_status (decided_status <$> l) = omap into_committed_block l.
Proof. induction l as [|[b|s] l IH]; [done|..]; cbn; [f_equal|]; exact IH. Qed.

Lemma decided_status_decided (l : list DecidedLeader) : Forall (λ st, is_decided st = true) (decided_status <$> l).
Proof. apply Forall_fmap, Forall_forall. by intros [b|s] _. Qed.

Lemma decided_status_slots (l : list DecidedLeader) : status_slot <$> (decided_status <$> l) = decided_leader_slot <$> l.
Proof. rewrite <-list_fmap_compose. apply list_fmap_ext. intros. apply decided_status_slot. Qed.

Lemma decided_sequence_prefix c leaders l :
  (∀ st, st ∈ leaders.*1 → slot_round (status_slot st) ≠ GENESIS_ROUND) → decided_sequence c leaders = Ok l →
  ∃ post, leaders.*1 = (decided_status <$> l) ++ post.
Proof.
  revert l. induction leaders as [|[st dec] leaders IH]; intros l Hg; [intros [= <-]; by exists []|].
  cbn [decided_sequence]. rewrite <-status_slot_round.
  rewrite (proj2 (N.eqb_neq _ _)) by (apply Hg; left).
  destruct (into_decided_leader st) as [dl|] eqn:Hdl; [|intros [= <-]; by eexists].
  intros (? & _ & (rest & Hr & [= <-])%bind_Ok)%bind_Ok.
  destruct (IH rest) as [post Hpost]; [intros; apply Hg; by right|done|].
  exists post. rewrite !fmap_cons, Hpost. cbn [app]. f_equal. by destruct st; simplify_eq/=.
Qed.

Lemma decided_sequence_skip c la lb :
  (∀ st, st ∈ la.*1 → slot_round (status_slot st) = GENESIS_ROUND) →
  decided_sequence c (la ++ lb) = decided_sequence c lb.
Proof.
  induction la as [|[st dec] la IH]; intros Hg; [done|]. cbn [app decided_sequence].
  rewrite <-status_slot_round, Hg by left. cbn [N.eqb GENESIS_ROUND]. apply IH. intros; apply Hg; by right.
Qed.

Section call.
Context {L D : Type} `{LeaderElection L} `{DagReaderSpec D}.
Context (byz : gset AuthorityIndex) (ctx : Context) (ls : L) (d : D) (e : Round → AuthorityIndex).
Context (Hok : committer_ok byz (pipelined_committer ctx ls d)).
Context (He : ∀ r, ls_elect_leader ls r 0 = Ok (e r)).

(** [try_decide] decides a prefix of the slots left under the schedule. *)
Lemma try_decide_pipelined s :
  dr_commit_round d ≤ slot_round s →
  ∃ l post, try_decide (pipelined_committer ctx ls d) s = Ok l ∧
    justified_list (committee ctx) (dr_view d) (live_slots e s (dr_highest_accepted_round d - 2))
      ((decided_status <$> l) ++ post).
Proof.
  intros Hcr. destruct (try_decide_statuses byz _ Hok s Hcr) as (leaders & l & Hjl & Hseq & Ht).
  pose proof (co_rounds _ _ Hok) as Hhi. cbn [uc_dag_state pipelined_committer uc_context] in *.
  rewrite (decision_slots_pipelined ctx ls d e) in Hjl by (done || lia).
  set (hi := _ - 2) in *. destruct (slots_from_live e s hi) as (g & Hg & Hzero). rewrite Hg in Hjl.
  pose proof (justified_list_slots _ _ _ _ Hjl) as Hslots.
  apply fmap_app_inv in Hslots as (sg & sl & Hsg & Hsl & Hsplit).
  apply fmap_app_inv in Hsplit as (la & lb & -> & -> & ->).
  rewrite decided_sequence_skip in Hseq.
  2:{ intros st Hst. apply Hzero. rewrite Hsg. by apply list_elem_of_fmap_2. }
  assert (Hjb : justified_list (committee ctx) (dr_view d) (live_slots e s hi) lb.*1).
  { rewrite fmap_app in Hjl. eapply justified_list_app; [|exact Hjl]. by rewrite Hsg, !length_fmap. }
  destruct (decided_sequence_prefix (committee ctx) lb l) as [post Hpost]; [|done|].
  { intros st Hst%(list_elem_of_fmap_2 status_slot). rewrite <-Hsl in Hst.
    apply elem_of_live_slots in Hst as (_ & Hpos & _). unfold GENESIS_ROUND. lia. }
  exists l, post. split; [done|]. by rewrite <-Hpost.
Qed.
End call.

(** ** The position of the last decided slot *)

Definition commit_slot (c : TrustedCommit) : Slot := slot_of_ref (commit_leader c).

Lemma commit_slot_round c : slot_round (commit_slot c) = commit_round c.
Proof. done. Qed.

(** The commits [cs], the first [j] of them under earlier schedules, and the last decided slot
    [ld].  Within a schedule the rounds of the leaders increase; the first commit of a schedule
    may be of the same round as the one before it. *)
Record position_ok (cs : list TrustedCommit) (j : nat) (e : Round → AuthorityIndex) (ld : Slot) : Prop := {
  po_start : (j ≤ length cs)%nat;
  po_positive c : c ∈ cs → 0 < commit_round c;
  po_round c : c ∈ cs → commit_round c ≤ slot_round ld;
  po_slot c : c ∈ cs → commit_slot c = slot_at e (slot_round ld) → commit_slot c = ld;
  po_elected : (j < length cs)%nat → ld = slot_at e (slot_round ld);
  po_strict i k c c' : (i < k)%nat → (j ≤ S k)%nat → k ≠ j → cs !! i = Some c → cs !! k = Some c' →
    commit_round c < commit_round c';
  po_two i c c' : cs !! i = Some c → cs !! S (S i) = Some c' → commit_round c < commit_round c';
}.

Lemma position_start e ld : position_ok [] 0 e ld.
Proof. split; simpl; try done; try lia; by intros c ?%not_elem_of_nil. Qed.

(** A round has at most two commits. *)
Lemma position_length cs j e ld :
  position_ok cs j e ld → N.of_nat (length cs) ≤ 2 * slot_round ld.
Proof.
  intros Hp.
  assert (Hk : ∀ n i c, cs !! i = Some c → (i ≤ 2 * n + 1)%nat → (2 * n ≤ i)%nat → N.of_nat n < commit_round c).
  { induction n as [|n IH]; intros i c Hi H1 H2.
    - apply list_elem_of_lookup_2 in Hi. apply (po_positive _ _ _ _ Hp) in Hi. lia.
    - destruct i as [|[|i]]; [lia..|].
      destruct (lookup_lt_is_Some_2 cs i) as [c0 Hc0]; [apply lookup_lt_Some in Hi; lia|].
      pose proof (po_two _ _ _ _ Hp i c0 c Hc0 Hi). pose proof (IH i c0 Hc0). lia. }
  destruct (last cs) as [c|] eqn:Hl; [|apply last_None in Hl as ->; simpl; lia].
  pose proof (po_round _ _ _ _ Hp c ltac:(by apply last_Some_elem_of)) as Hr.
  rewrite last_lookup in Hl. pose proof (Hk (pred (length cs) / 2)%nat _ c Hl).
  pose proof (Nat.div_mod_eq (pred (length cs)) 2). pose proof (Nat.mod_upper_bound (pred (length cs)) 2).
  lia.
Qed.

(** The commits that come next, for slots decided after [ld]. *)
Section advance.
Context (cs : list TrustedCommit) (j : nat) (e : Round → AuthorityIndex) (ld : Slot).
Context (Hp : position_ok cs j e ld).
Context (hi : Round) (slots : list Slot) (ld' : Slot) (new : list TrustedCommit).
Context (Hslots : slots `prefix_of` live_slots e ld hi) (Hlast : last slots = Some ld').
Context (Hnew : (commit_slot <$> new) `sublist_of` slots).

Lemma decided_slots_sorted : StronglySorted (λ a b, slot_round a < slot_round b) slots.
Proof. eapply StronglySorted_sublist; [by apply prefix_sublist|apply live_slots_sorted]. Qed.

Lemma decided_slot_live x : x ∈ slots →
  slot_round ld ≤ slot_round x ∧ 0 < slot_round x ∧ x = slot_at e (slot_round x) ∧ x ≠ ld ∧
  slot_round x ≤ slot_round ld'.
Proof.
  intros Hx. pose proof (elem_of_prefix _ _ _ Hx Hslots) as (? & ? & ? & ?)%elem_of_live_slots.
  split_and!; [lia|done..|]. pose proof decided_slots_sorted as Hs.
  apply last_Some in Hlast as [l' Hl']. rewrite Hl' in Hs, Hx.
  apply elem_of_app in Hx as [Hx| ->%list_elem_of_singleton]; [|done].
  pose proof (StronglySorted_app_1_elem_of _ _ _ x ld' Hs Hx ltac:(left)) as Hlt. simpl in Hlt. lia.
Qed.

Lemma new_commit_slot c : c ∈ new → commit_slot c ∈ slots.
Proof. intros Hc%(list_elem_of_fmap_2 commit_slot). by eapply elem_of_sublist. Qed.

Lemma new_commits_sorted : StronglySorted (λ a b, commit_round a < commit_round b) new.
Proof.
  pose proof (StronglySorted_sublist _ _ _ Hnew decided_slots_sorted) as Hs. clear -Hs.
  induction new as [|c l IH]; [constructor|]. apply StronglySorted_inv in Hs as [Hs Hc].
  constructor; [by apply IH|].
  change (Forall (λ s, slot_round (commit_slot c) < slot_round s) (commit_slot <$> l)) in Hc.
  by rewrite Forall_fmap in Hc.
Qed.

(** An old and a new commit. *)
Lemma old_new_round c c' : c ∈ cs → c' ∈ new → commit_round c ≤ slot_round ld ≤ commit_round c'.
Proof.
  intros Hc Hc'%new_commit_slot%decided_slot_live. pose proof (po_round _ _ _ _ Hp c Hc).
  rewrite commit_slot_round in Hc'. lia.
Qed.

Lemma old_new_strict c c' :
  (j < length cs)%nat → c ∈ cs → c' ∈ new → commit_round c < commit_round c'.
Proof.
  intros Hj Hc Hc'. pose proof (old_new_round c c' Hc Hc').
  apply new_commit_slot, decided_slot_live in Hc' as (_ & _ & Hel & Hne & _).
  assert (commit_round c' ≠ slot_round ld); [|lia]. intros Heq. apply Hne.
  by rewrite Hel, (po_elected _ _ _ _ Hp Hj), commit_slot_round, Heq.
Qed.

Lemma advance_strict i k c c' :
  (i < k)%nat → (j ≤ S k)%nat → k ≠ j → (cs ++ new) !! i = Some c → (cs ++ new) !! k = Some c' →
  commit_round c < commit_round c'.
Proof.
  intros Hik Hjk Hne Hi Hk. pose proof (po_start _ _ _ _ Hp) as Hstart.
  apply lookup_app_Some in Hk as [Hk|[Hlen Hk]].
  { rewrite lookup_app_l in Hi by (apply lookup_lt_Some in Hk; lia). by apply (po_strict _ _ _ _ Hp i k). }
  apply lookup_app_Some in Hi as [Hi|[Hlen' Hi]].
  - destruct (decide (j < length cs)%nat) as [Hj|Hj].
    { apply old_new_strict; [done|by eapply list_elem_of_lookup_2..]. }
    destruct (lookup_lt_is_Some_2 new 0) as [c0 Hc0]; [apply lookup_lt_Some in Hk; lia|].
    pose proof (old_new_round c c0 ltac:(by eapply list_elem_of_lookup_2) ltac:(by eapply list_elem_of_lookup_2)).
    pose proof (sorted_lookup_lt commit_round new 0 (k - length cs) c0 c' new_commits_sorted ltac:(lia) Hc0 Hk). lia.
  - apply (sorted_lookup_lt commit_round new (i - length cs) (k - length cs)); [apply new_commits_sorted|lia|done..].
Qed.

Lemma position_advance : position_ok (cs ++ new) j e ld'.
Proof.
  pose proof (po_start _ _ _ _ Hp) as Hstart.
  destruct (decided_slot_live ld') as (Hle & _ & Hel & _); [by apply last_Some_elem_of|].
  split.
  - rewrite length_app. lia.
  - intros c [Hc|Hc%new_commit_slot%decided_slot_live]%elem_of_app; [by apply (po_positive _ _ _ _ Hp)|apply Hc].
  - intros c [Hc|Hc%new_commit_slot%decided_slot_live]%elem_of_app; [|apply Hc].
    pose proof (po_round _ _ _ _ Hp c Hc). lia.
  - intros c _ ->. done.
  - done.
  - apply advance_strict.
  - intros i c c' Hi Hk. destruct (decide (S (S i) = j)) as [Hj|Hj].
    + apply lookup_app_Some in Hk as [Hk|[Hlen Hk]].
      { rewrite lookup_app_l in Hi by (apply lookup_lt_Some in Hk; lia). by apply (po_two _ _ _ _ Hp i). }
      rewrite lookup_app_l in Hi by lia.
      destruct (lookup_lt_is_Some_2 cs (S i)) as [c1 Hc1]; [lia|].
      pose proof (po_strict _ _ _ _ Hp i (S i) c c1 ltac:(lia) ltac:(lia) ltac:(lia) Hi Hc1).
      pose proof (old_new_round c1 c' ltac:(by eapply list_elem_of_lookup_2) ltac:(by eapply list_elem_of_lookup_2)). lia.
    + destruct (decide (j ≤ S (S (S i)))%nat).
      * apply (advance_strict i (S (S i))); (done || lia).
      * rewrite lookup_app_l in Hi, Hk by lia. by apply (po_two _ _ _ _ Hp i).
Qed.
End advance.

(** The schedule changes after at least two commits; the last one was decided last. *)
Lemma position_change cs j e e' ld c :
  position_ok cs j e ld → (j + 2 ≤ length cs)%nat → last cs = Some c → commit_slot c = ld →
  position_ok cs (length cs) e' ld.
Proof.
  intros Hp Hj Hl Hc. split; try lia; try apply Hp.
  - intros c' (i & Hi)%list_elem_of_lookup Heq. rewrite last_lookup in Hl.
    destruct (decide (i = pred (length cs))) as [->|Hne]; [by simplify_eq|].
    apply lookup_lt_Some in Hi as Hlt.
    pose proof (po_strict _ _ _ _ Hp i (pred (length cs)) c' c ltac:(lia) ltac:(lia) ltac:(lia) Hi Hl).
    assert (commit_round c' = commit_round c); [|lia]. by rewrite <-!commit_slot_round, Heq, Hc.
  - intros i k c1 c2 Hik Hk Hne. apply (po_strict _ _ _ _ Hp); try lia.
Qed.
