(* ===== verification/History.v ===== *)
(** The commits of a validator over all its leader schedules
    ([consensus/core/src/core.rs], [consensus/core/src/linearizer.rs],
    [consensus/core/src/leader_schedule.rs]): what they were made from, and that the histories of
    two validators extend each other. *)

From stdpp Require Import base strings numbers sorting gmap sets relations list.
From S2P Require Import Prelude Committee Block Dag StakeAggregator Commit BlockVerifier Store DagState DagStateFacts Recovery DagReader BaseCommitter Votes Decisions UniversalCommitter Agreement Sequence Linearizer Linearization TotalOrder Slots Periods LeaderScoring LeaderSchedule.

Open Scope N_scope.

(** ** What commits are made from *)

Section made.
Context {St : Type} `{StoreSpec St} `{Crypto} `{CommitSerializer}.
Implicit Types V : dag.

Lemma commit_made_mono cm V V' cs leader sd c :
  V ⊆ V' → commit_made cm V cs leader sd c → commit_made cm V' cs leader sd c.
Proof.
  intros Hsub (d & Hv & Hcs & Hd & ? & ? & ? & ?). exists d. split_and!; try done. by etrans.
Qed.

Lemma commits_made_mono cm V V' cs leaders sds new :
  V ⊆ V' → commits_made cm V cs leaders sds new → commits_made cm V' cs leaders sds new.
Proof. intros Hsub. induction 1; econstructor; [by eapply commit_made_mono|done]. Qed.

Lemma commits_made_app cm V cs leaders1 leaders2 sds1 sds2 new1 new2 :
  commits_made cm V cs leaders1 sds1 new1 → commits_made cm V (cs ++ new1) leaders2 sds2 new2 →
  commits_made cm V cs (leaders1 ++ leaders2) (sds1 ++ sds2) (new1 ++ new2).
Proof.
  induction 1 as [|cs leader sd c leaders sds new Hc Hmade IH]; simpl; [by rewrite app_nil_r|].
  intros Hm2. econstructor; [done|]. apply IH. by rewrite <-app_assoc.
Qed.

Lemma commits_made_length cm V cs leaders sds new :
  commits_made cm V cs leaders sds new → length sds = length leaders ∧ length new = length leaders.
Proof. induction 1; simpl; [done|]. split; f_equal; tauto. Qed.

(** Two validators make the same commit of a leader after the same commits. *)
Lemma commit_made_same cm V1 V2 cs leader sd1 sd2 c1 c2 :
  consistent V1 V2 → commit_made cm V1 cs leader sd1 c1 → commit_made cm V2 cs leader sd2 c2 →
  sd1 = sd2 ∧ c1 = c2.
Proof.
  intros Hcons (d1 & [Hwf1 HC1 _] & Hcs1 & Hs1 & Hcm1 & Hl1 & _ & Hcol1)
    (d2 & [Hwf2 HC2 _] & Hcs2 & Hs2 & Hcm2 & Hl2 & _ & Hcol2).
  rewrite (collect_same d1 d2) in Hcol1; try done; [by rewrite Hcol1 in Hcol2; simplify_eq| | |].
  - intros r x y Hx Hy. eapply Hcons; by eapply lookup_weaken.
  - by rewrite (cw_last _ _ Hcs1), (cw_last _ _ Hcs2).
  - pose proof (cw_rounds _ _ Hcs1) as Hr1. pose proof (cw_rounds _ _ Hcs2) as Hr2.
    rewrite Hcm1 in Hr1. rewrite Hcm2 in Hr2. congruence.
Qed.

Lemma commits_made_prefix cm V1 V2 cs leaders1 leaders2 sds1 sds2 new1 new2 :
  consistent V1 V2 → commits_made cm V1 cs leaders1 sds1 new1 → commits_made cm V2 cs leaders2 sds2 new2 →
  leaders1 `prefix_of` leaders2 → sds1 `prefix_of` sds2 ∧ new1 `prefix_of` new2.
Proof.
  intros Hcons Hm1. revert leaders2 sds2 new2.
  induction Hm1 as [|cs leader sd c leaders sds new Hc _ IH]; intros leaders2 sds2 new2 Hm2 Hpre.
  { split; apply prefix_nil. }
  destruct Hm2 as [|cs leader2 sd2 c2 leaders2 sds2 new2 Hc2 Hm2]; [by apply prefix_nil_not in Hpre|].
  pose proof (prefix_cons_inv_1 _ _ _ _ Hpre) as <-. apply prefix_cons_inv_2 in Hpre.
  destruct (commit_made_same _ _ _ _ _ _ _ _ _ Hcons Hc Hc2) as [<- <-].
  destruct (IH _ _ _ Hm2 Hpre). split; by apply prefix_cons.
Qed.
End made.

(** ** Schedules *)

Section schedules.
Context `{Rand}.

(** The leader of a round. *)
Definition elected_by (ls : LeaderSchedule) (r : Round) : AuthorityIndex :=
  match ls_elect_leader ls r 0 with Ok a => a | _ => 0 end.

(** Validators have the same schedule, in their own contexts. *)
Record same_schedule (ls1 ls2 : LeaderSchedule) : Prop := {
  ss_table : leader_swap_table ls1 = leader_swap_table ls2;
  ss_committee : committee (ls_context ls1) = committee (ls_context ls2);
  ss_threshold : consensus_bad_nodes_stake_threshold (ls_context ls1) =
    consensus_bad_nodes_stake_threshold (ls_context ls2);
  ss_commits : num_commits_per_schedule ls1 = num_commits_per_schedule ls2;
  ss_strategy : scoring_strategy ls1 = scoring_strategy ls2;
}.

Lemma elected_by_same ls1 ls2 r : same_schedule ls1 ls2 → elected_by ls1 r = elected_by ls2 r.
Proof.
  intros [Ht Hc _ _ _]. unfold elected_by, ls_elect_leader, schedule_elect_leader, elect_leader_stake_based.
  by rewrite Ht, Hc.
Qed.

(** The schedule after the sub-dags [sds] were scored. *)
Definition rescored (ls : LeaderSchedule) (sds : list CommittedSubDag) (ls' : LeaderSchedule) : Prop :=
  ∃ calc scores sd table, calculator_new (ls_context ls) sds (scoring_strategy ls) = Ok calc ∧
    calculate calc = Ok scores ∧ last sds = Some sd ∧
    leader_swap_table_new (ls_context ls) (cr_index (sd_commit_ref sd)) scores = Ok table ∧
    ls' = set_swap_table table ls.

End schedules.

(** The scores depend on the committee and the blocks only. *)
Section scores.
Context (u1 u2 : UnscoredSubdag).
Context (Hblocks : us_blocks u1 = us_blocks u2).
Context (Hcommittee : committee (us_context u1) = committee (us_context u2)).

Lemma us_find_same fuel slot b : us_find_supported_fuel fuel u1 slot b = us_find_supported_fuel fuel u2 slot b.
Proof.
  revert b. induction fuel as [|fuel IH]; intros b; simpl; [done|]. destruct (_ <? _); [done|].
  induction (vb_ancestors b) as [|a l IHl]; simpl; [done|]. unfold us_get_block. rewrite IHl, Hblocks.
  repeat case_match; try done. by rewrite IH.
Qed.

Lemma us_is_vote_same v l : us_is_vote u1 v l = us_is_vote u2 v l.
Proof. unfold us_is_vote, us_find_supported_leader_block. by rewrite us_find_same. Qed.

Lemma us_is_certificate_same b l votes : us_is_certificate u1 b l votes = us_is_certificate u2 b l votes.
Proof.
  unfold us_is_certificate. generalize (aggregator_new (T := QuorumThreshold)).
  revert votes. induction (vb_ancestors b) as [|r rs IH]; intros votes agg; simpl; [done|].
  unfold us_get_block. rewrite Hblocks, Hcommittee.
  case_match; cbn [mbind outcome_bind]; [|case_match; [rewrite us_is_vote_same|]].
  all: repeat (case_match; cbn [mbind outcome_bind]); try done.
  all: try (destruct (us_is_vote _ _ _) as [[]| |]; cbn [mbind outcome_bind]; try done).
  all: destruct (aggregator_add _ _ _) as [[[] ?]| |]; cbn [mbind outcome_bind]; done.
Qed.

Lemma gather_votes_same l bs : gather_votes u1 l bs = gather_votes u2 l bs.
Proof.
  apply foldM_ext. intros votes b _. apply foldM_ext. intros votes' r _. unfold gather_vote, us_get_block.
  rewrite Hblocks, Hcommittee. destruct (votes' !! r) as [[]|]; [done|]. destruct (us_blocks u2 !! r); [|done]. by rewrite us_is_vote_same.
Qed.

Lemma scores_for_leader_same strategy slot :
  calculate_scores_for_leader strategy u1 slot = calculate_scores_for_leader strategy u2 slot.
Proof.
  destruct strategy; simpl; unfold certified_vote_v2_scores, certified_vote_v1_scores, vote_scores,
    certificate_scores, leader_block_to_score, us_get_blocks_at_slot, us_get_blocks_at_round, no_scores;
    rewrite Hblocks, Hcommittee; apply outcome_bind_ext; intros [l|]; try done;
    apply outcome_bind_ext; intros bs; rewrite ?gather_votes_same; try done.
  - apply foldM_ext. intros acc b _. by rewrite us_is_vote_same.
  - f_equal. apply foldM_ext. intros [acc votes] b _. by rewrite us_is_certificate_same.
Qed.
End scores.

Lemma calculate_context ctx1 ctx2 range scores unscored_range leaders blocks strategy :
  committee ctx1 = committee ctx2 →
  calculate (mkReputationScoreCalculator range scores (mkUnscoredSubdag ctx1 unscored_range leaders blocks) strategy) =
  calculate (mkReputationScoreCalculator range scores (mkUnscoredSubdag ctx2 unscored_range leaders blocks) strategy).
Proof.
  intros Hc. unfold calculate. simpl. f_equal. apply foldM_ext. intros acc leader _.
  by rewrite (scores_for_leader_same _ (mkUnscoredSubdag ctx2 unscored_range leaders blocks)).
Qed.

Lemma calculator_same ctx1 ctx2 sds strategy calc1 calc2 :
  committee ctx1 = committee ctx2 → calculator_new ctx1 sds strategy = Ok calc1 →
  calculator_new ctx2 sds strategy = Ok calc2 → calculate calc1 = calculate calc2.
Proof.
  intros Hc. unfold calculator_new, unscored_subdag_new. rewrite <-Hc.
  destruct (assert_ _ _); [|done..]. cbn [mbind outcome_bind].
  destruct (collect_subdags None sds) as [[leaders blocks]| |]; [|done..]. cbn [mbind outcome_bind].
  destruct (expect (head sds) _); [|done..]. cbn [mbind outcome_bind].
  destruct (expect (last sds) _); [|done..]. cbn [mbind outcome_bind].
  destruct (assert_ _ _); [|done..]. cbn [mbind outcome_bind].
  intros [= <-] [= <-]. by apply calculate_context.
Qed.

Lemma retrieve_same ctx1 ctx2 l threshold :
  committee ctx1 = committee ctx2 → retrieve_first_nodes ctx1 l threshold = retrieve_first_nodes ctx2 l threshold.
Proof.
  intros Hc. unfold retrieve_first_nodes. generalize 0. induction l as [|[a s] l IH]; intros acc; simpl; [done|].
  rewrite Hc. apply outcome_bind_ext. intros st. destruct (_ <? _); [done|].
  apply outcome_bind_ext. intros au. by rewrite IH.
Qed.

Lemma rescored_same `{Rand} ls1 ls2 sds ls1' ls2' :
  same_schedule ls1 ls2 → rescored ls1 sds ls1' → rescored ls2 sds ls2' → same_schedule ls1' ls2'.
Proof.
  intros [Ht Hc Hth Hn Hst] (calc1 & scores1 & sd1 & t1 & Hnew1 & Hcalc1 & Hl1 & Ht1 & ->)
    (calc2 & scores2 & sd2 & t2 & Hnew2 & Hcalc2 & Hl2 & Ht2 & ->).
  rewrite Hst in Hnew1. pose proof (calculator_same _ _ _ _ _ _ Hc Hnew1 Hnew2) as Heq.
  assert (scores1 = scores2) as <- by congruence. assert (sd1 = sd2) as <- by congruence.
  split; simpl; try done. enough (Ok t1 = Ok t2) by congruence. rewrite <-Ht1, <-Ht2.
  unfold leader_swap_table_new, leader_swap_table_new_inner, authorities_by_score. rewrite Hth, Hc.
  apply outcome_bind_ext. intros _. case_bool_decide; [done|].
  apply outcome_bind_ext. intros by_score. apply outcome_bind_ext. intros _.
  by rewrite !(retrieve_same _ _ _ _ Hc).
Qed.

(** ** Histories *)

Section history.
Context {St : Type} `{StoreSpec St} `{Crypto} `{CommitSerializer} `{Rand}.
Implicit Types V : dag.

(** The slot from which a schedule decides: that of the last commit before it. *)
Definition starts_at (cs : list TrustedCommit) (s0 : Slot) : Prop :=
  match last cs with
  | Some c => s0 = commit_slot c
  | None => slot_round s0 = GENESIS_ROUND
  end.

(** The sub-dags as they are sent under the schedule [ls]. *)
Definition scored_by (ls : LeaderSchedule) (sds : list CommittedSubDag) : list CommittedSubDag :=
  (λ sd, update_scores sd (reputation_scores_desc (leader_swap_table ls))) <$> sds.

(** What is committed under the schedule [ls] after the commits [past], up to the decided slot
    [ld]. *)
Record period V (ls : LeaderSchedule) (past : list TrustedCommit) (ld : Slot)
    (sds : list CommittedSubDag) (new : list TrustedCommit) : Prop := {
  pd_decided : ∃ s0 leaders, starts_at past s0 ∧
    decided_so_far (committee (ls_context ls)) V (elected_by ls) s0 ld leaders ∧
    commits_made (St := St) (committee (ls_context ls)) V past leaders sds new;
}.

(** The schedule after [k] full periods with the commits [cs] and the sub-dags [out] sent, from
    the first schedule [ls0]. *)
Inductive history V (ls0 : LeaderSchedule) :
    LeaderSchedule → nat → list TrustedCommit → list CommittedSubDag → Prop :=
| history_start : history V ls0 ls0 0 [] []
| history_next ls k past out ld sds new ls' :
    history V ls0 ls k past out → period V ls past ld sds new →
    length new = N.to_nat (num_commits_per_schedule ls) → rescored ls (scored_by ls sds) ls' →
    history V ls0 ls' (S k) (past ++ new) (out ++ scored_by ls sds).

Lemma history_static V ls0 ls k cs out :
  history V ls0 ls k cs out →
  ls_context ls = ls_context ls0 ∧ num_commits_per_schedule ls = num_commits_per_schedule ls0 ∧
  scoring_strategy ls = scoring_strategy ls0 ∧ length cs = (k * N.to_nat (num_commits_per_schedule ls0))%nat.
Proof.
  induction 1 as [|ls k past out ld sds new ls' _ (Hc & Hn & Hs & Hl) _ Hlen (? & ? & ? & ? & _ & _ & _ & _ & ->)];
    [done|].
  simpl. rewrite length_app, Hl, Hlen, Hn. split_and!; [done..|lia].
Qed.

(** The first periods of a history, and what was committed next. *)
Lemma history_earlier V ls0 ls k cs out k' :
  history V ls0 ls k cs out → (k' < k)%nat →
  ∃ ls' past out' ld sds new, history V ls0 ls' k' past out' ∧ period V ls' past ld sds new ∧
    length new = N.to_nat (num_commits_per_schedule ls0) ∧
    past ++ new `prefix_of` cs ∧ out' ++ scored_by ls' sds `prefix_of` out.
Proof.
  induction 1 as [|ls k past out ld sds new ls' Hh IH Hp Hlen _]; intros Hk; [lia|].
  destruct (decide (k' = k)) as [->|Hne].
  - exists ls, past, out, ld, sds, new. split_and!; try done.
    rewrite Hlen. by destruct (history_static _ _ _ _ _ _ Hh) as (_ & -> & _).
  - destruct IH as (ls1 & past1 & out1 & ld1 & sds1 & new1 & ? & ? & ? & ? & ?); [lia|].
    exists ls1, past1, out1, ld1, sds1, new1. split_and!; try done; by apply prefix_app_r.
Qed.

Lemma live_slots_genesis e s s' hi :
  slot_round s = GENESIS_ROUND → slot_round s' = GENESIS_ROUND → live_slots e s hi = live_slots e s' hi.
Proof.
  intros Hs Hs'. apply sorted_slots_unique; [apply live_slots_sorted..|]. intros x.
  rewrite !elem_of_live_slots, Hs, Hs'. unfold GENESIS_ROUND in *.
  split; intros (? & ? & ? & _); (split_and!; [lia..|done|intros ->; lia]).
Qed.

Lemma decided_restart c V e s0 s0' ld leaders cs :
  starts_at cs s0 → starts_at cs s0' → decided_so_far c V e s0 ld leaders →
  ∃ ld', decided_so_far c V e s0' ld' leaders.
Proof.
  unfold starts_at. destruct (last cs); [intros -> ->; eauto|]. intros Hs Hs' (hi & dec & rest & Hj & Hd & Hl & _).
  eexists. exists hi, dec, rest. by rewrite (live_slots_genesis _ _ s0).
Qed.
End history.

Section agreement.
Context {St : Type} `{StoreSpec St} `{Crypto} `{CommitSerializer} `{Rand}.
Context (c : Committee) (Hc : committee_wf c).
Context (byz : gset AuthorityIndex) (Hbyz : set_stake c byz < validity_threshold c).
Context (V1 V2 : dag) (HV1 : valid_dag c V1) (HV2 : valid_dag c V2) (Hcomp : compatible byz V1 V2).
Abbreviation period := (period (St := St)).
Abbreviation history := (history (St := St)).

Lemma elected_by_ext ls1 ls2 V s0 ld leaders :
  same_schedule ls1 ls2 → decided_so_far c V (elected_by ls1) s0 ld leaders →
  decided_so_far c V (elected_by ls2) s0 ld leaders.
Proof.
  intros Hs (hi & dec & rest & Hj & Hd). exists hi, dec, rest. split; [|done].
  assert (live_slots (elected_by ls2) s0 hi = live_slots (elected_by ls1) s0 hi) as ->; [|done].
  unfold live_slots. f_equal. apply list_fmap_ext. intros _ r _. unfold slot_at. by rewrite (elected_by_same ls1 ls2).
Qed.

(** What two validators commit under the same schedule. *)
Lemma period_comparable ls1 ls2 past ld1 ld2 sds1 sds2 new1 new2 :
  same_schedule ls1 ls2 → committee (ls_context ls1) = c →
  period V1 ls1 past ld1 sds1 new1 → period V2 ls2 past ld2 sds2 new2 →
  (sds1 `prefix_of` sds2 ∧ new1 `prefix_of` new2) ∨ (sds2 `prefix_of` sds1 ∧ new2 `prefix_of` new1).
Proof.
  intros Hs Hc1 [(s1 & leaders1 & Hs1 & Hd1 & Hm1)] [(s2 & leaders2 & Hs2 & Hd2 & Hm2)].
  pose proof (ss_committee _ _ Hs) as Hcc. rewrite <-Hcc in Hd2, Hm2. rewrite Hc1 in *.
  destruct (decided_restart _ _ _ _ _ _ _ _ Hs1 Hs2 Hd1) as [ld1' Hd1'].
  apply (elected_by_ext ls1 ls2) in Hd1'; [|done].
  pose proof (cp_consistent _ _ _ Hcomp) as Hcons.
  destruct (decided_comparable c Hc byz Hbyz V1 V2 _ _ _ _ _ _ HV1 HV2 Hcomp Hd1' Hd2); [left|right].
  - by apply (commits_made_prefix c V1 V2 past leaders1 leaders2).
  - apply consistent_sym in Hcons. by apply (commits_made_prefix c V2 V1 past leaders2 leaders1).
Qed.

Lemma period_length V ls past ld sds new : period V ls past ld sds new → length sds = length new.
Proof. intros [(? & ? & _ & _ & [Hl1 Hl2]%commits_made_length)]. congruence. Qed.

(** The one that has committed less, or as much. *)
Lemma period_shorter ls1 ls2 past ld1 ld2 sds1 sds2 new1 new2 :
  same_schedule ls1 ls2 → committee (ls_context ls1) = c →
  period V1 ls1 past ld1 sds1 new1 → period V2 ls2 past ld2 sds2 new2 → (length new1 ≤ length new2)%nat →
  sds1 `prefix_of` sds2 ∧ new1 `prefix_of` new2.
Proof.
  intros Hs Hc1 Hp1 Hp2 Hlen. pose proof (period_length _ _ _ _ _ _ Hp1) as Hl1.
  pose proof (period_length _ _ _ _ _ _ Hp2) as Hl2.
  destruct (period_comparable ls1 ls2 past ld1 ld2 sds1 sds2 new1 new2) as [?|[Hsds Hnew]]; try done.
  pose proof (prefix_length _ _ Hsds). pose proof (prefix_length _ _ Hnew).
  rewrite (prefix_length_eq _ _ Hsds), (prefix_length_eq _ _ Hnew) by lia. done.
Qed.

(** The schedules of two validators after the same number of periods. *)
Lemma history_same ls01 ls02 ls1 ls2 k cs1 cs2 out1 out2 :
  same_schedule ls01 ls02 → committee (ls_context ls01) = c →
  history V1 ls01 ls1 k cs1 out1 → history V2 ls02 ls2 k cs2 out2 →
  cs1 = cs2 ∧ out1 = out2 ∧ same_schedule ls1 ls2.
Proof.
  intros Hs0 Hc0 Hh1. revert ls2 cs2 out2 Hc0.
  induction Hh1 as [|ls1 k past1 out1 ld1 sds1 new1 ls1' Hh1 IH Hp1 Hlen1 Hr1]; intros ls2' cs2 out2.
  { intros _ Hh2. by inversion Hh2; subst. }
  intros Hc0 Hh2. revert Hc0.
  inversion Hh2 as [|ls2 k' past2 out2' ld2 sds2 new2 ls2'' Hh2' Hp2 Hlen2 Hr2]; subst. intros Hc0.
  destruct (IH _ _ _ Hc0 Hh2') as (<- & <- & Hs).
  assert (committee (ls_context ls1) = c) as Hc1.
  { by destruct (history_static _ _ _ _ _ _ Hh1) as (-> & _). }
  assert (length new1 = length new2) as Hlen by (rewrite Hlen1, Hlen2; by rewrite (ss_commits _ _ Hs)).
  destruct (period_shorter ls1 ls2 past1 ld1 ld2 sds1 sds2 new1 new2) as [Hsds Hnew]; try done; [lia|].
  pose proof (period_length _ _ _ _ _ _ Hp1). pose proof (period_length _ _ _ _ _ _ Hp2).
  apply prefix_length_eq in Hsds as <-; [|lia]. apply prefix_length_eq in Hnew as <-; [|lia].
  assert (scored_by ls1 sds1 = scored_by ls2 sds1) as Hsc by (unfold scored_by; by rewrite (ss_table _ _ Hs)).
  split_and!; [done|by rewrite Hsc|]. rewrite <-Hsc in Hr2. by apply (rescored_same ls1 ls2 (scored_by ls1 sds1)).
Qed.

(** The validator that is not in a later period. *)
Lemma history_behind ls01 ls02 ls1 ls2 k1 k2 past1 past2 out1 out2 ld1 ld2 sds1 sds2 new1 new2 :
  same_schedule ls01 ls02 → committee (ls_context ls01) = c → (k1 ≤ k2)%nat →
  history V1 ls01 ls1 k1 past1 out1 → period V1 ls1 past1 ld1 sds1 new1 →
  ((k1 < k2)%nat → (length new1 ≤ N.to_nat (num_commits_per_schedule ls01))%nat) →
  history V2 ls02 ls2 k2 past2 out2 → period V2 ls2 past2 ld2 sds2 new2 →
  let cs1 := past1 ++ new1 in let cs2 := past2 ++ new2 in
  let sent1 := out1 ++ scored_by ls1 sds1 in let sent2 := out2 ++ scored_by ls2 sds2 in
  (cs1 `prefix_of` cs2 ∧ sent1 `prefix_of` sent2) ∨ (cs2 `prefix_of` cs1 ∧ sent2 `prefix_of` sent1).
Proof.
  intros Hs0 Hc0 Hk Hh1 Hp1 Hlen Hh2 Hp2. simpl.
  assert (committee (ls_context ls1) = c) as Hc1.
  { by destruct (history_static _ _ _ _ _ _ Hh1) as (-> & _). }
  destruct (decide (k1 = k2)) as [->|Hne].
  - destruct (history_same ls01 ls02 ls1 ls2 k2 past1 past2 out1 out2) as (<- & <- & Hs); try done.
    unfold scored_by. rewrite (ss_table _ _ Hs).
    destruct (period_comparable ls1 ls2 past1 ld1 ld2 sds1 sds2 new1 new2) as [[Hsds Hnew]|[Hsds Hnew]]; try done;
      [left|right]; split; apply prefix_app; try done; by apply prefix_fmap.
  - destruct (history_earlier _ _ _ _ _ _ k1 Hh2) as (ls & past & out & ld & sds & new & Hh & Hp & Hl & Hpre & Hpo); [lia|].
    destruct (history_same ls01 ls02 ls1 ls k1 past1 past out1 out) as (<- & <- & Hs); try done.
    destruct (period_shorter ls1 ls past1 ld1 ld sds1 sds new1 new) as [Hsds Hnew]; try done.
    { rewrite Hl, <-(ss_commits _ _ Hs0). apply Hlen. lia. }
    left. split.
    + etrans; [by apply prefix_app|]. by apply prefix_app_r.
    + unfold scored_by in *. rewrite (ss_table _ _ Hs). etrans; [apply prefix_app; by apply prefix_fmap|].
      by apply prefix_app_r.
Qed.
End agreement.

(** ** Growing histories *)

Section growing.
Context {St : Type} `{StoreSpec St} `{Crypto} `{CommitSerializer} `{Rand}.
Context (c : Committee) (Hc : committee_wf c).
Context (byz : gset AuthorityIndex) (Hbyz : set_stake c byz < validity_threshold c).
Abbreviation period := (period (St := St)).
Abbreviation history := (history (St := St)).

Lemma period_mono V V' ls past ld sds new :
  valid_dag c V → valid_dag c V' → V ⊆ V' → compatible byz V' V' → committee (ls_context ls) = c →
  period V ls past ld sds new → period V' ls past ld sds new.
Proof.
  intros HV HV' Hsub Hhon Hls [(s0 & leaders & Hs & Hd & Hm)]. rewrite Hls in *.
  split. exists s0, leaders. rewrite Hls. split_and!; [done| |by eapply commits_made_mono].
  by apply (decided_mono c Hc byz Hbyz V V').
Qed.

Lemma history_mono V V' ls0 ls k cs out :
  valid_dag c V → valid_dag c V' → V ⊆ V' → compatible byz V' V' → committee (ls_context ls0) = c →
  history V ls0 ls k cs out → history V' ls0 ls k cs out.
Proof.
  intros HV HV' Hsub Hhon Hls. induction 1 as [|ls k past out ld sds new ls' Hh IH Hp Hlen Hr]; [constructor|].
  econstructor; [done| |done|done]. apply (period_mono V V'); try done.
  by destruct (history_static _ _ _ _ _ _ Hh) as (-> & _).
Qed.

Lemma period_start V ls past s0 : starts_at past s0 → period V ls past s0 [] [].
Proof. intros Hs. split. exists s0, []. split_and!; [done|apply decided_start|constructor]. Qed.

(** A call of [try_decide] decides the leaders [l], and more slots may be left undecided. *)
Lemma period_extend V ls past ld sds new hi (l : list DecidedLeader) post sds' new' :
  valid_dag c V → compatible byz V V → committee (ls_context ls) = c →
  period V ls past ld sds new →
  justified_list c V (live_slots (elected_by ls) ld hi) ((decided_status <$> l) ++ post) →
  commits_made (St := St) c V (past ++ new) (omap into_committed_block l) sds' new' →
  period V ls past (default ld (last (decided_leader_slot <$> l))) (sds ++ sds') (new ++ new').
Proof.
  intros HV Hhon Hls [(s0 & leaders & Hs & Hd & Hm)] Hj Hm'. rewrite Hls in *.
  split. exists s0, (leaders ++ omap into_committed_block l). rewrite Hls.
  split_and!; [done| |by eapply commits_made_app].
  rewrite <-committed_decided_status, <-decided_status_slots.
  by apply (decided_extend c Hc byz Hbyz V _ _ _ _ hi _ post), decided_status_decided.
Qed.
End growing.
