(* ===== verification/CommitObserver.v ===== *)
(** The commit observer ([consensus/core/src/commit_observer.rs]): it has the linearizer turn
    committed leaders into sub-dags, sends them to the consumer of the consensus output, and
    sends again after a restart what the consumer has not processed. *)

From stdpp Require Import base strings numbers sorting gmap sets relations list.
From S2P Require Import Prelude Committee Block Dag StakeAggregator Commit Store DagState DagStateFacts Recovery Linearizer Linearization LeaderScoring LeaderSchedule.

Open Scope N_scope.

(** The channel to the consumer: what was sent, and how many more sub-dags the receiver takes
    before it is dropped, if it is ([None] if it stays).  The DAG state, its store and the
    leader schedule are shared with the other components, and arguments of the operations. *)
Record CommitObserver := mkCommitObserver {
  sender_sent : list CommittedSubDag;
  receiver_takes : option nat;
}.

(** [sender.send]; [None] is the error of a channel whose receiver was dropped. *)
Definition sender_send (self : CommitObserver) (sd : CommittedSubDag) : option CommitObserver :=
  match receiver_takes self with
  | Some O => None
  | Some (S n) => Some (mkCommitObserver (sender_sent self ++ [sd]) (Some n))
  | None => Some (mkCommitObserver (sender_sent self ++ [sd]) None)
  end.

(** The loop of [handle_commit] over the sub-dags. *)
Fixpoint send_sub_dags (self : CommitObserver) (scores : list (AuthorityIndex * N))
    (sent_sub_dags committed_sub_dags : list CommittedSubDag) :
    ConsensusResult (list CommittedSubDag) * CommitObserver :=
  match committed_sub_dags with
  | [] => (RustOk sent_sub_dags, self)
  | committed_sub_dag :: committed_sub_dags =>
      let committed_sub_dag := update_scores committed_sub_dag scores in
      match sender_send self committed_sub_dag with
      | None => (RustErr Shutdown, self)
      | Some self => send_sub_dags self scores (sent_sub_dags ++ [committed_sub_dag]) committed_sub_dags
      end
  end.

Section commit_observer.
Context {St : Type} `{Store St} `{Crypto} `{CommitSerializer}.
Implicit Types d : DagState St.

(** [CommitObserver::handle_commit]. *)
Definition observer_handle_commit (self : CommitObserver) d (schedule : LeaderSchedule)
    (committed_leaders : list VerifiedBlock) :
    outcome (ConsensusResult (list CommittedSubDag) * CommitObserver * DagState St) :=
  '(committed_sub_dags, d) ← handle_commit d committed_leaders;
  let '(res, self) :=
    send_sub_dags self (reputation_scores_desc (leader_swap_table schedule)) [] committed_sub_dags in
  Ok (res, self, d).

(** The body of the loop of [recover_and_send_commits]. *)
Definition resend_commit (store : St) (schedule : LeaderSchedule) (num_unsent_commits : N)
    (st : CommitObserver * CommitIndex) (p : nat * TrustedCommit) :
    outcome (CommitObserver * CommitIndex) :=
  let '(self, last_sent_commit_index) := st in
  let '(index, commit) := p in
  _ ← assert_ (commit_index commit =? last_sent_commit_index +u32 1)
        "assertion failed: commit.index() == last_sent_commit_index + 1";
  committed_sub_dag ← load_committed_subdag_from_store store commit;
  let committed_sub_dag :=
    if N.of_nat index =? num_unsent_commits - 1
    then update_scores committed_sub_dag (reputation_scores_desc (leader_swap_table schedule))
    else committed_sub_dag in
  self ← expect (sender_send self committed_sub_dag)
           "Failed to send commit during recovery, probably due to shutdown";
  Ok (self, last_sent_commit_index +u32 1).

Definition recover_and_send_commits (self : CommitObserver) (store : St) (schedule : LeaderSchedule)
    (last_processed_commit_index : CommitIndex) : outcome CommitObserver :=
  last_commit ← unwrap_store (store_read_last_commit store) "Reading the last commit should not fail";
  nothing_left ← match last_commit with
    | Some last_commit =>
        let last_commit_index := commit_index last_commit in
        _ ← assert_ (last_processed_commit_index <=? last_commit_index)
              "assertion failed: last_commit_index >= last_processed_commit_index";
        Ok (last_commit_index =? last_processed_commit_index)
    | None => Ok false
    end;
  if nothing_left : bool then Ok self
  else
    unsent_commits ← store_scan_commits store (mkCommitRange (last_processed_commit_index +u32 1) U32_MAX);
    unsent_commits ← unwrap_store unsent_commits "Scanning commits should not fail";
    let num_unsent_commits := N.of_nat (length unsent_commits) in
    '(self, _) ← foldM (resend_commit store schedule num_unsent_commits)
                   (self, last_processed_commit_index) (imap (λ i c, (i, c)) unsent_commits);
    Ok self.

(** [CommitObserver::new]; the arguments are the channel, the store, the schedule and
    [last_processed_commit_index] of the [CommitConsumer]. *)
Definition commit_observer_new (sender : CommitObserver) (store : St) (schedule : LeaderSchedule)
    (last_processed_commit_index : CommitIndex) : outcome CommitObserver :=
  recover_and_send_commits sender store schedule last_processed_commit_index.
End commit_observer.

(** ** What is sent *)

(** A receiver that stays gets everything. *)
Lemma send_sub_dags_open self scores acc sds :
  receiver_takes self = None →
  send_sub_dags self scores acc sds =
    (RustOk (acc ++ ((λ sd, update_scores sd scores) <$> sds)),
     mkCommitObserver (sender_sent self ++ ((λ sd, update_scores sd scores) <$> sds)) None).
Proof.
  revert self acc. induction sds as [|sd sds IH]; intros [sent takes] acc; simpl; intros ->.
  - by rewrite !app_nil_r.
  - unfold sender_send. simpl. rewrite IH by done. simpl. by rewrite <- !app_assoc.
Qed.

(** One that is dropped got a prefix, in order, and the call reports the shutdown. *)
Lemma send_sub_dags_dropped self scores acc sds n :
  receiver_takes self = Some n →
  ∃ k, send_sub_dags self scores acc sds =
    (if bool_decide (length sds ≤ n)%nat then RustOk (acc ++ ((λ sd, update_scores sd scores) <$> sds))
     else RustErr Shutdown,
     mkCommitObserver (sender_sent self ++ take n ((λ sd, update_scores sd scores) <$> sds)) (Some k)).
Proof.
  revert self acc n. induction sds as [|sd sds IH]; intros [sent takes] acc n; simpl; intros ->.
  - exists n. by rewrite take_nil, !app_nil_r.
  - unfold sender_send. simpl. destruct n as [|n].
    + exists 0%nat. by rewrite bool_decide_eq_false_2, app_nil_r by lia.
    + destruct (IH (mkCommitObserver (sent ++ [update_scores sd scores]) (Some n))
        (acc ++ [update_scores sd scores]) n) as [k ->]; [done |].
      exists k. simpl. rewrite <- !app_assoc. f_equal.
      by rewrite (bool_decide_ext _ (S (length sds) ≤ S n)%nat) by lia.
Qed.

(** What a restart sends of the sub-dags [sds]: the last one carries the scores. *)
Definition resent (scores : list (AuthorityIndex * N)) (sds : list CommittedSubDag) : list CommittedSubDag :=
  imap (λ i sd, if bool_decide (S i = length sds) then update_scores sd scores else sd) sds.

Section sent.
Context {St : Type} `{StoreSpec St} `{Crypto} `{CommitSerializer}.
Implicit Types d : DagState St.

(** The loop of the recovery over the commits after the first [k]. *)
Lemma resend_commits (s : St) schedule num self k i0 sds l :
  receiver_takes self = None → Forall2 (λ sd c, load_committed_subdag_from_store s c = Ok sd) sds l →
  (∀ j c, l !! j = Some c → commit_index c = k + N.of_nat j + 1) →
  k + N.of_nat (length l) ≤ U32_MAX →
  foldM (resend_commit s schedule num) (self, k) (imap (λ i c, ((i0 + i)%nat, c)) l) =
    Ok (mkCommitObserver (sender_sent self ++ imap (λ i sd,
          if N.of_nat (i0 + i) =? num - 1
          then update_scores sd (reputation_scores_desc (leader_swap_table schedule)) else sd) sds) None,
        k + N.of_nat (length l)).
Proof.
  intros Hr Hl. revert self k i0 Hr.
  induction Hl as [|sd c sds l Hsd _ IH]; intros [sent takes] k i0; simpl; intros ->; intros Hi Hb.
  { rewrite app_nil_r. do 2 f_equal. lia. }
  unfold sender_send. rewrite (Hi 0%nat c eq_refl), Hsd. rewrite u32_add_small by (unfold U32_MAX in *; lia).
  replace (k + N.of_nat 0 + 1 =? k + 1) with true by (symmetry; apply N.eqb_eq; lia). simpl.
  specialize (IH (mkCommitObserver (sent ++ [if N.of_nat (i0 + 0) =? num - 1
    then update_scores sd (reputation_scores_desc (leader_swap_table schedule)) else sd]) None) (k + 1) (S i0)).
  etrans; [etrans; [|apply IH] |]; [| done | | lia |].
  - f_equal. apply imap_ext. intros i c' _. simpl. by rewrite Nat.add_succ_r.
  - intros j c' Hj. rewrite (Hi (S j) c') by done. lia.
  - simpl. rewrite <- app_assoc. do 2 f_equal; [| lia]. do 2 f_equal. simpl. f_equal.
    apply imap_ext. intros i sd' _. simpl. by rewrite Nat.add_succ_r.
Qed.

(** What the recovery sends from a store with the commits [cs], of which the consumer has
    processed the first [i]. *)
Lemma recover_and_send_Ok self (s : St) schedule cs sds i :
  store_inv s → commits_of s = insert_commits cs ∅ → numbered cs → N.of_nat (length cs) < U32_MAX →
  Forall2 (λ sd c, load_committed_subdag_from_store s c = Ok sd) sds (drop i cs) →
  (i ≤ length cs)%nat → receiver_takes self = None →
  recover_and_send_commits self s schedule (N.of_nat i) =
    Ok (mkCommitObserver (sender_sent self ++
          resent (reputation_scores_desc (leader_swap_table schedule)) sds) None).
Proof.
  intros Hs Hcs Hn Hb Hsds Hi Hr. unfold recover_and_send_commits.
  rewrite store_read_last_commit_spec, Hcs, (last_stored_commit cs) by done. simpl.
  assert (length sds = length cs - i)%nat as Hlen.
  { by rewrite (Forall2_length _ _ _ Hsds), length_drop. }
  assert (match last cs with
    | Some last_commit =>
        _ ← assert_ (N.of_nat i <=? commit_index last_commit)
              "assertion failed: last_commit_index >= last_processed_commit_index";
        Ok (commit_index last_commit =? N.of_nat i)
    | None => Ok false
    end = Ok (bool_decide (cs ≠ [] ∧ i = length cs))) as ->.
  { destruct (last cs) as [c|] eqn:Hl.
    - apply last_Some in Hl as [cs' ->]. destruct (numbered_snoc _ _ Hn) as [_ ->].
      rewrite length_app in *. simpl in *.
      replace (N.of_nat i <=? N.of_nat (length cs') + 1) with true by (symmetry; apply N.leb_le; lia).
      simpl. f_equal. apply eq_bool_prop_intro. rewrite bool_decide_spec, Is_true_true, N.eqb_eq.
      split; [intros; split; [by destruct cs' | lia] | lia].
    - apply last_None in Hl as ->. by rewrite bool_decide_eq_false_2 by (by intros [? _]). }
  simpl. case_bool_decide as Hdone.
  - destruct Hdone as [_ ->]. destruct sds; [| simpl in Hlen; lia]. destruct self as [sent takes].
    simpl in *. subst. unfold resent. simpl. by rewrite app_nil_r.
  - rewrite u32_add_small by (unfold U32_MAX in *; lia).
    rewrite (scan_stored_commits s cs) by done. simpl.
    rewrite (resend_commits s schedule _ self (N.of_nat i) 0 sds (drop i cs)); [| done | done | |].
    + simpl. do 3 f_equal. apply imap_ext. intros j sd Hj%lookup_lt_Some. rewrite length_drop. simpl.
      rewrite <- Hlen. destruct (N.eqb_spec (N.of_nat j) (N.of_nat (length sds) - 1)); case_bool_decide; done || lia.
    + intros j c. rewrite lookup_drop. intros ->%Hn. lia.
    + rewrite length_drop. lia.
Qed.

(** [handle_commit] of the observer with a receiver that stays. *)
Lemma observer_handle_commit_Ok self d cs schedule leaders :
  serializes → dag_wf d → dag_closed (dag_view d) → distinct_ancestors (dag_view d) →
  commits_wf d cs → chained cs → N.of_nat (length cs + length leaders) < U32_MAX → leaders_ok d leaders →
  ∃ sds d' new, handle_commit d leaders = Ok (sds, d') ∧ committed_leaders d cs leaders sds d' new ∧
    ∀ res self', observer_handle_commit self d schedule leaders = Ok (res, self', d') ↔
      send_sub_dags self (reputation_scores_desc (leader_swap_table schedule)) [] sds = (res, self').
Proof.
  intros Hser Hwf HV Hdist Hcs Hch Hlen Hlo.
  destruct (handle_commit_Ok d cs leaders) as (sds & d' & new & Hh & Hcl & _); [done..|].
  exists sds, d', new. split_and!; [done | done |]. intros res self'.
  unfold observer_handle_commit. rewrite Hh. simpl.
  destruct (send_sub_dags _ _ _ _) as [res0 self0]. split; congruence.
Qed.

(** C29: the output of consensus is exactly-once for a consumer that reports what it processed.
    [handle_commit] of the observer sends the sub-dags of the committed leaders, in order; if the
    receiver is dropped, it got the first ones and the call reports the shutdown.  Whatever was
    received, after a restart from the store a consumer that has processed any number [i] of
    them is sent exactly the others, in order, the last with the current scores. *)
Theorem observer_exactly_once self d cs schedule leaders :
  serializes → dag_wf d → dag_closed (dag_view d) → distinct_ancestors (dag_view d) →
  commits_wf d cs → chained cs → N.of_nat (length cs + length leaders) < U32_MAX → leaders_ok d leaders →
  leaders ≠ [] →
  ∃ sds d' new res self',
    handle_commit d leaders = Ok (sds, d') ∧ committed_leaders d cs leaders sds d' new ∧
    observer_handle_commit self d schedule leaders = Ok (res, self', d') ∧
    (let scored := (λ sd, update_scores sd (reputation_scores_desc (leader_swap_table schedule))) <$> sds in
     match receiver_takes self with
     | None => res = RustOk scored ∧ sender_sent self' = sender_sent self ++ scored
     | Some n =>
         sender_sent self' = sender_sent self ++ take n scored ∧
         res = if bool_decide (length sds ≤ n)%nat then RustOk scored else RustErr Shutdown
     end) ∧
    ∀ schedule' i, (i ≤ length sds)%nat →
      commit_observer_new (mkCommitObserver [] None) (store d') schedule' (N.of_nat (length cs + i)) =
        Ok (mkCommitObserver (resent (reputation_scores_desc (leader_swap_table schedule')) (drop i sds)) None).
Proof.
  intros Hser Hwf HV Hdist Hcs Hch Hlen Hlo Hne.
  destruct (handle_commit_Ok d cs leaders) as (sds & d' & new & Hh & Hcl & Hst); [done..|].
  destruct (Hst Hne) as [Hcommits Hblocks].
  destruct (send_sub_dags self (reputation_scores_desc (leader_swap_table schedule)) [] sds) as [res self'] eqn:Hs.
  exists sds, d', new, res, self'. unfold observer_handle_commit. rewrite Hh. simpl. rewrite Hs.
  split_and!; [done | done | done | |].
  - destruct (receiver_takes self) as [n|] eqn:Ht.
    + destruct (send_sub_dags_dropped self (reputation_scores_desc (leader_swap_table schedule)) [] sds n)
        as [k Hk]; [done |]. rewrite Hs in Hk. by injection Hk as -> ->.
    + rewrite send_sub_dags_open in Hs by done. by injection Hs as <- <-.
  - intros schedule' i Hi. destruct Hcl as [Hwf' _ Hcs' _ _ Hrec _ _ _ _].
    pose proof (Forall2_length _ _ _ Hrec) as Hl.
    unfold commit_observer_new. rewrite (recover_and_send_Ok _ _ _ (cs ++ new) (drop i sds)); try done.
    + apply Hwf'.
    + exact (cw_index _ _ Hcs').
    + exact (cw_bound _ _ Hcs').
    + rewrite drop_app_ge, Nat.add_comm, Nat.add_sub by lia. apply Forall2_drop.
      eapply Forall2_impl; [exact Hrec |]. intros sd c Hsc. eapply load_recorded; [apply Hwf' | done | done].
    + rewrite length_app. lia.
Qed.
End sent.
