(* ===== verification/CacheFacts.v ===== *)
(** What the queries of the DAG state's cache return ([consensus/core/src/dag_state.rs]): the last
    blocks of the authorities, from which the core proposes. *)

From stdpp Require Import base strings numbers sorting gmap sets relations list.
From S2P Require Import Prelude Committee Block Dag Commit Store DagState DagStateFacts LeaderScoringFacts.

Open Scope N_scope.

Section cache.
Context {St : Type} `{StoreSpec St} `{Crypto}.
Implicit Types d : DagState St.
Local Abbreviation size_of d := (committee_size (committee (context d))).

(** The genesis blocks, in the order of the authorities. *)
Lemma genesis_values d :
  dag_wf d → genesis_blocks (context d) = Ok (bt_values (genesis d)).
Proof.
  intros Hwf. destruct (wf_genesis _ Hwf) as (gl & Hgl & Hg). rewrite Hgl. f_equal.
  assert (((λ b, (reference b, b)) <$> gl) = bt_items (genesis d)) as Hitems.
  { apply bt_items_unique.
    - apply StronglySorted_lookup_intro. intros i j x y Hij.
      rewrite !list_lookup_fmap_Some. intros (b & -> & Hb) (b' & -> & Hb'). simpl.
      destruct (genesis_blocks_lookup _ _ _ _ Hgl Hb) as (Hr & Ha & _).
      destruct (genesis_blocks_lookup _ _ _ _ Hgl Hb') as (Hr' & Ha' & _).
      apply ref_leb_spec. simpl. rewrite Hr, Hr', Ha, Ha'. lia.
    - rewrite <-list_fmap_compose. simpl. apply NoDup_fmap_2_strong.
      + intros x y Hx Hy Heq. simpl in Heq. by eapply genesis_refs_inj.
      + apply NoDup_alt. intros i j b Hi Hj.
        destruct (genesis_blocks_lookup _ _ _ _ Hgl Hi) as (_ & Ha & _).
        destruct (genesis_blocks_lookup _ _ _ _ Hgl Hj) as (_ & Ha' & _). lia.
    - intros r b. rewrite Hg, insert_blocks_lookup by (intros; by eapply genesis_refs_inj).
      rewrite lookup_empty, list_elem_of_fmap. naive_solver. }
  unfold bt_values. rewrite <-Hitems, <-list_fmap_compose. simpl. by rewrite list_fmap_id.
Qed.

(** The last reference of an author in a range of rounds. *)
Lemma last_ref_in_range (refs : gset BlockRef) a lo end_round :
  (∀ r, r ∈ refs → br_author r = a) → lo ≤ end_round →
  ∃ l, bt_set_range (Included (mkBlockRef lo a DIGEST_MIN)) (Excluded (mkBlockRef end_round a DIGEST_MIN)) refs = Ok l ∧
    match last l with
    | Some r => r ∈ refs ∧ lo ≤ br_round r < end_round ∧
        ∀ r', r' ∈ refs → br_round r' < end_round → br_round r' ≤ br_round r
    | None => ∀ r', r' ∈ refs → lo ≤ br_round r' → end_round ≤ br_round r'
    end.
Proof.
  intros Ha Hle. unfold bt_set_range.
  assert (range_valid (Included (mkBlockRef lo a DIGEST_MIN)) (Excluded (mkBlockRef end_round a DIGEST_MIN)) = true) as ->.
  { simpl. apply ref_leb_spec. simpl. unfold DIGEST_MIN. lia. }
  cbn [assert_ mbind outcome_bind]. eexists. split; [done|]. set (l := filter _ _).
  assert (Hin : ∀ r, r ∈ l ↔ r ∈ refs ∧ lo ≤ br_round r < end_round).
  { intros r. unfold l, in_range, ord_ltb. rewrite list_elem_of_filter, elem_of_bt_elements, andb_true_iff, negb_true_iff.
    rewrite <-not_true_iff_false, !ref_leb_spec. simpl. unfold DIGEST_MIN.
    split; intros [H1' H2']; [|pose proof (Ha r H1')]; [pose proof (Ha r H2')|]; (split; [|done || lia]); try done; lia. }
  destruct (last l) as [r|] eqn:Hlast.
  - assert (Hr : r ∈ l) by by apply last_Some_elem_of. apply Hin in Hr as [Hr Hb]. split_and!; [done|lia..|].
    intros r' Hr' Hlt. destruct (decide (lo ≤ br_round r')) as [Hlo|]; [|lia].
    assert (Hr'l : r' ∈ l) by by apply Hin. apply last_Some in Hlast as [l' Hl'].
    assert (Hs : StronglySorted (λ x y, ord_leb x y = true) l).
    { unfold l. eapply StronglySorted_sublist; [apply sublist_filter|apply bt_elements_sorted]. }
    rewrite Hl' in Hs, Hr'l. apply elem_of_app in Hr'l as [Hr'l| ->%list_elem_of_singleton]; [|done].
    pose proof (StronglySorted_app_1_elem_of _ _ _ r' r Hs Hr'l ltac:(left)) as Hord. by apply ref_leb_round in Hord.
  - apply last_None in Hlast. intros r' Hr' Hlo. destruct (decide (br_round r' < end_round)) as [Hlt|]; [|lia].
    exfalso. apply (not_elem_of_nil r'). rewrite <-Hlast. by apply Hin.
Qed.

(** The last cached block of an authority below a round, or its genesis block. *)
Definition last_block_of d (end_round : Round) (a : AuthorityIndex) (b : VerifiedBlock) : Prop :=
  dag_view d !! reference b = Some b ∧ vb_author b = a ∧ vb_round b < end_round ∧
  ∀ r lr, is_Some (recent_blocks d !! r) → br_author r = a → br_round r < end_round →
    last_committed_rounds d !! N.to_nat a = Some lr → eviction_round lr (cached_rounds d) < br_round r →
    br_round r ≤ vb_round b.

(** Nothing at or above the round before is evicted. *)
Definition not_evicted d (end_round : Round) : Prop :=
  end_round = GENESIS_ROUND + 1 ∨
  ∀ a lr, last_committed_rounds d !! a = Some lr → eviction_round lr (cached_rounds d) < end_round - 1.

Lemma genesis_value d i b :
  dag_wf d → bt_values (genesis d) !! i = Some b →
  dag_view d !! reference b = Some b ∧ vb_author b = N.of_nat i ∧ vb_round b = GENESIS_ROUND.
Proof.
  intros Hwf Hb. destruct (genesis_blocks_lookup _ _ _ _ (genesis_values d Hwf) Hb) as (Hr & Ha & _).
  split_and!; [|done..]. assert (Hin : b ∈ bt_values (genesis d)) by by eapply list_elem_of_lookup_2.
  apply elem_of_bt_values in Hin as [r Hg]. pose proof (genesis_lookup d r b Hwf Hg) as (-> & Hr' & _).
  by rewrite view_genesis by done.
Qed.

Lemma recent_in_view d r b : dag_wf d → recent_blocks d !! r = Some b → dag_view d !! r = Some b.
Proof.
  intros Hwf Hb. rewrite view_not_genesis; [by rewrite Hb|done|].
  apply (wf_recent _ Hwf) in Hb as (_ & _ & ? & _). unfold GENESIS_ROUND. lia.
Qed.

(** One authority. *)
Lemma last_cached_step_Ok d end_round blocks i refs :
  dag_wf d → not_evicted d end_round → GENESIS_ROUND + 1 < end_round ≤ U32_MAX →
  length blocks = length (recent_refs d) → recent_refs d !! i = Some refs →
  (∀ b, blocks !! i = Some b → dag_view d !! reference b = Some b ∧ vb_author b = N.of_nat i ∧ vb_round b = GENESIS_ROUND) →
  ∃ b,
    last_cached_step d end_round blocks (N.of_nat i, refs) = Ok (<[i := b]> blocks) ∧ last_block_of d end_round (N.of_nat i) b.
Proof.
  intros Hwf Hev Hend Hlen Hrefs Hgen. unfold GENESIS_ROUND in Hend, Hev.
  pose proof (lookup_lt_Some _ _ _ Hrefs) as Hi. pose proof (wf_refs_len _ Hwf) as Hn.
  unfold last_cached_step, to_authority_index. rewrite (proj2 (N.ltb_lt _ _)) by lia. cbn [expect mbind outcome_bind].
  unfold authority_eviction_round, vec_index. rewrite Nat2N.id.
  destruct (lookup_lt_is_Some_2 (last_committed_rounds d) i) as [lr Hlr]; [rewrite (wf_rounds_len _ Hwf); lia|].
  rewrite Hlr. cbn [expect mbind outcome_bind].
  destruct Hev as [->|Hev]; [unfold GENESIS_ROUND in Hend; lia|]. specialize (Hev i lr Hlr).
  rewrite (proj2 (N.leb_gt _ _)) by lia. set (lo := eviction_round lr (cached_rounds d)) in *.
  assert (lo +u32 1 = lo + 1) as -> by (unfold U32_MAX in *; apply wrap32_small; unfold U32_MAX; lia).
  destruct (lookup_lt_is_Some_2 blocks i) as [g Hg]; [lia|].
  destruct (last_ref_in_range refs (N.of_nat i) (lo + 1) end_round) as (l & -> & Hl);
    [intros r Hr; by apply (wf_recent_refs _ Hwf _ _ Hrefs) in Hr as [? _]|lia|].
  cbn [mbind outcome_bind]. destruct (last l) as [r|].
  - destruct Hl as (Hr & Hb & Hmax). apply (wf_recent_refs _ Hwf _ _ Hrefs) in Hr as [Ha [b Hb']].
    rewrite Hb'. cbn [expect mbind outcome_bind]. exists b.
    pose proof (wf_recent _ Hwf _ _ Hb') as (Href & _). split.
    + unfold vec_set, vec_index. rewrite Nat2N.id, Hg. done.
    + split_and!; [by rewrite Href; apply recent_in_view|by rewrite <-Href in Ha|rewrite <-Href in Hb; simpl in Hb; lia|].
      intros r' lr' Hr' Ha' Hlt _ _. rewrite <-Href in Hmax. apply Hmax; [|done].
      by apply (wf_recent_refs _ Hwf _ _ Hrefs).
  - exists g. destruct (Hgen g Hg) as (Hv & Ha & Hr0). split; [by rewrite list_insert_id|].
    split_and!; [done..|rewrite Hr0; unfold GENESIS_ROUND; lia|].
    intros r lr' Hr Ha' Hlt Hlr' Hlo. rewrite Nat2N.id, Hlr in Hlr'. injection Hlr' as <-.
    assert (end_round ≤ br_round r); [|lia]. apply Hl; [by apply (wf_recent_refs _ Hwf _ _ Hrefs)|fold lo in Hlo; lia].
Qed.

(** [get_last_cached_block_per_authority] returns exactly when nothing it would need is evicted,
    and then it returns the last block of every authority below the round. *)
Lemma last_cached_blocks d end_round :
  dag_wf d → not_evicted d end_round → GENESIS_ROUND < end_round ≤ U32_MAX →
  ∃ l, get_last_cached_block_per_authority d end_round = Ok l ∧ N.of_nat (length l) = size_of d ∧
    ∀ i b, l !! i = Some b → last_block_of d end_round (N.of_nat i) b.
Proof.
  intros Hwf Hev Hend. pose proof (genesis_blocks_length _ _ (genesis_values d Hwf)) as Hlen.
  unfold get_last_cached_block_per_authority. unfold GENESIS_ROUND in *.
  rewrite (proj2 (N.eqb_neq _ _)) by lia. destruct (N.eqb_spec end_round (0 + 1)) as [->|Hne].
  - eexists. split; [done|]. split; [done|]. intros i b Hb. destruct (genesis_value d i b Hwf Hb) as (Hv & Ha & Hr0).
    split_and!; [done..|rewrite Hr0; unfold GENESIS_ROUND; lia|]. intros r lr _ _ Hr Hl Hlt. lia.
  - destruct (foldM_enumerate_inv (last_cached_step d end_round)
      (λ k blocks, length blocks = length (recent_refs d) ∧
         ∀ i b, blocks !! i = Some b → (i < k → last_block_of d end_round (N.of_nat i) b)%nat ∧
           (k ≤ i → dag_view d !! reference b = Some b ∧ vb_author b = N.of_nat i ∧ vb_round b = GENESIS_ROUND)%nat)
      0 (recent_refs d) (bt_values (genesis d))) as (l & Hf & Hl & Hall).
    + split; [rewrite (wf_refs_len _ Hwf); lia|]. intros i b Hb. split; [lia|]. intros _. by apply genesis_value.
    + intros i refs blocks Hrefs [Hl HI]. simpl in HI |- *.
      destruct (last_cached_step_Ok d end_round blocks i refs) as (b & Hf & Hb); [done..|unfold GENESIS_ROUND; lia|done|done| |].
      { intros b Hb. by apply (HI i b). }
      exists (<[i:=b]> blocks). split; [exact Hf|]. rewrite length_insert. split; [done|].
      intros j b' Hj. apply list_lookup_insert_Some in Hj as [(<- & <- & _)|[Hne' Hj]].
      * split; [done|lia].
      * destruct (HI j b' Hj). split; [intros ?|intros ?]; [assert (j < i)%nat by lia|assert (i ≤ j)%nat by lia]; auto.
    + exists l. split; [exact Hf|]. rewrite Hl. split; [rewrite (wf_refs_len _ Hwf); lia|].
      intros i b Hb. apply Hall; [done|]. apply lookup_lt_Some in Hb. simpl. lia.
Qed.

Lemma last_cached_returns d end_round l :
  dag_wf d → end_round ≤ U32_MAX → get_last_cached_block_per_authority d end_round = Ok l →
  GENESIS_ROUND < end_round ∧ not_evicted d end_round.
Proof.
  intros Hwf Hend Hf. unfold get_last_cached_block_per_authority in Hf. unfold not_evicted.
  destruct (N.eqb_spec end_round GENESIS_ROUND) as [->|Hne]; [done|]. unfold GENESIS_ROUND in *.
  destruct (N.eqb_spec end_round (0 + 1)) as [->|Hne1]; [split; [lia|by left]|]. split; [lia|]. right.
  intros a lr Hlr. destruct (lookup_lt_is_Some_2 (recent_refs d) a) as [refs Hrefs].
  { apply lookup_lt_Some in Hlr. rewrite (wf_rounds_len _ Hwf) in Hlr. by rewrite (wf_refs_len _ Hwf). }
  destruct (foldM_Ok_elem _ _ _ _ (N.of_nat a, refs) Hf) as (b1 & b2 & Hs).
  { by apply (enumerate_from_lookup _ 0). }
  unfold last_cached_step in Hs. apply bind_Ok in Hs as (i & Hi & Hs).
  unfold to_authority_index in Hi. destruct (_ <? _); [|done]. injection Hi as <-.
  apply bind_Ok in Hs as (ev & Hev & Hs). unfold authority_eviction_round, vec_index in Hev.
  rewrite Nat2N.id, Hlr in Hev. injection Hev as <-.
  destruct (N.leb_spec (end_round - 1) (eviction_round lr (cached_rounds d))); [done|lia].
Qed.
End cache.
