(* ===== verification/Core.v ===== *)
(** The core of a validator ([consensus/core/src/core.rs]): it adds blocks to the DAG, advances
    the threshold clock, proposes blocks, and commits leaders; and the thread that runs it
    ([consensus/core/src/core_thread.rs]). *)

From stdpp Require Import base strings numbers sorting gmap sets relations list.
From S2P Require Import Prelude Committee Block Dag StakeAggregator ThresholdClock Commit BlockVerifier Store DagState BlockManager DagReader BaseCommitter UniversalCommitter Linearizer TransactionConsumer LeaderScoring LeaderSchedule CommitObserver.

Open Scope N_scope.

Definition NUM_LEADERS_PER_ROUND : N := 1.
Definition MAX_COMMIT_VOTES_PER_BLOCK : N := 100.

(** ** Signals *)

(** The blocks that were broadcast, whether somebody is subscribed to them, and the last round
    that was signalled. *)
Record CoreSignals := mkCoreSignals {
  tx_block_broadcast : list VerifiedBlock;
  block_subscribers : bool;
  new_round_sender : Round;
}.

(** [CoreSignals::new_block]. *)
Definition signal_new_block (context : Context) (self : CoreSignals) (block : VerifiedBlock) :
    ConsensusResult CoreSignals :=
  if 1 <? committee_size (committee context) then
    if block_subscribers self
    then RustOk (mkCoreSignals (tx_block_broadcast self ++ [block]) true (new_round_sender self))
    else RustErr Shutdown
  else RustOk self.

(** [CoreSignals::new_round]. *)
Definition signal_new_round (self : CoreSignals) (round_number : Round) : CoreSignals :=
  mkCoreSignals (tx_block_broadcast self) (block_subscribers self) round_number.

(** ** The state *)

(** The DAG state and the leader schedule, which the source shares by reference between the
    core, the committer and the commit observer, are fields of the core.  [acknowledged] are
    the batches whose clients were told of their inclusion. *)
Record Core (St : Type) := mkCore {
  core_context : Context;
  threshold_clock : ThresholdClock;
  transaction_consumer : TransactionConsumer;
  block_manager : BlockManager;
  committer_options : list BaseCommitterOptions;
  last_proposed_block : VerifiedBlock;
  last_included_ancestors : list (option BlockRef);
  last_decided_leader : Slot;
  leader_schedule : LeaderSchedule;
  commit_observer : CommitObserver;
  signals : CoreSignals;
  block_signer : ProtocolKeyPair;
  dag_state : DagState St;
  acknowledged : list N;
}.
Arguments mkCore {St}.
Arguments core_context {St}.
Arguments threshold_clock {St}.
Arguments transaction_consumer {St}.
Arguments block_manager {St}.
Arguments committer_options {St}.
Arguments last_proposed_block {St}.
Arguments last_included_ancestors {St}.
Arguments last_decided_leader {St}.
Arguments leader_schedule {St}.
Arguments commit_observer {St}.
Arguments signals {St}.
Arguments block_signer {St}.
Arguments dag_state {St}.
Arguments acknowledged {St}.

(** What an operation reads of the clock, in the order in which it reads it: for the delay
    since the last proposal, for the timestamp of the block, and when the block is accepted. *)
Record Readings := mkReadings {
  now_delay : BlockTimestampMs;
  now_propose : BlockTimestampMs;
  now_accept : BlockTimestampMs;
}.

(** The readings after a sleep. *)
Definition sleep_ms (ms : N) (t : Readings) : Readings :=
  mkReadings (now_delay t + ms) (now_propose t + ms) (now_accept t + ms).

Section core.
Context {St : Type} `{Store St} `{Crypto, BlockVerifier} `{CommitSerializer} `{Rand}.
Implicit Types self : Core St.

Definition with_clock (tc : ThresholdClock) (sig : CoreSignals) self : Core St :=
  mkCore (core_context self) tc (transaction_consumer self) (block_manager self)
    (committer_options self) (last_proposed_block self) (last_included_ancestors self)
    (last_decided_leader self) (leader_schedule self) (commit_observer self) sig
    (block_signer self) (dag_state self) (acknowledged self).

Definition with_blocks (bm : BlockManager) (d : DagState St) self : Core St :=
  mkCore (core_context self) (threshold_clock self) (transaction_consumer self) bm
    (committer_options self) (last_proposed_block self) (last_included_ancestors self)
    (last_decided_leader self) (leader_schedule self) (commit_observer self) (signals self)
    (block_signer self) d (acknowledged self).

Definition with_consumer (tcr : TransactionConsumer) self : Core St :=
  mkCore (core_context self) (threshold_clock self) tcr (block_manager self)
    (committer_options self) (last_proposed_block self) (last_included_ancestors self)
    (last_decided_leader self) (leader_schedule self) (commit_observer self) (signals self)
    (block_signer self) (dag_state self) (acknowledged self).

Definition with_included (included : list (option BlockRef)) self : Core St :=
  mkCore (core_context self) (threshold_clock self) (transaction_consumer self) (block_manager self)
    (committer_options self) (last_proposed_block self) included
    (last_decided_leader self) (leader_schedule self) (commit_observer self) (signals self)
    (block_signer self) (dag_state self) (acknowledged self).

Definition with_proposed (block : VerifiedBlock) (acks : list N) self : Core St :=
  mkCore (core_context self) (threshold_clock self) (transaction_consumer self) (block_manager self)
    (committer_options self) block (last_included_ancestors self)
    (last_decided_leader self) (leader_schedule self) (commit_observer self) (signals self)
    (block_signer self) (dag_state self) (acknowledged self ++ acks).

Definition with_decided (slot : Slot) self : Core St :=
  mkCore (core_context self) (threshold_clock self) (transaction_consumer self) (block_manager self)
    (committer_options self) (last_proposed_block self) (last_included_ancestors self)
    slot (leader_schedule self) (commit_observer self) (signals self)
    (block_signer self) (dag_state self) (acknowledged self).

Definition with_schedule (schedule : LeaderSchedule) (d : DagState St) self : Core St :=
  mkCore (core_context self) (threshold_clock self) (transaction_consumer self) (block_manager self)
    (committer_options self) (last_proposed_block self) (last_included_ancestors self)
    (last_decided_leader self) schedule (commit_observer self) (signals self)
    (block_signer self) d (acknowledged self).

Definition with_output (observer : CommitObserver) (d : DagState St) self : Core St :=
  mkCore (core_context self) (threshold_clock self) (transaction_consumer self) (block_manager self)
    (committer_options self) (last_proposed_block self) (last_included_ancestors self)
    (last_decided_leader self) (leader_schedule self) observer (signals self)
    (block_signer self) d (acknowledged self).

(** The committer: its base committers have the options that [build] gave them, and read the
    current DAG state and leader schedule. *)
Definition core_committer self : UniversalCommitter LeaderSchedule (DagState St) :=
  mkUniversalCommitter (core_context self) (dag_state self)
    (mkBaseCommitter (core_context self) (leader_schedule self) (dag_state self) <$> committer_options self).

Abbreviation core_result A := (outcome (ConsensusResult A * Core St)).

(** [?] on the result of an operation of the core. *)
Definition try_core {A B} (m : core_result A) (k : A → Core St → core_result B) : core_result B :=
  '(res, self) ← m;
  match res with
  | RustOk a => k a self
  | RustErr e => Ok (RustErr e, self)
  end.

(** ** Leaders *)

(** [Core::leaders]. *)
Definition core_leaders self (round : Round) : outcome (list Slot) :=
  authorities ← get_leaders (core_committer self) round;
  Ok (mkSlot round <$> (authorities : list AuthorityIndex)).

Definition first_leader self (round : Round) : outcome AuthorityIndex :=
  leaders ← core_leaders self round;
  leader ← expect (head leaders) "called `Option::unwrap()` on a `None` value";
  Ok (slot_authority leader).

(** The loop of [leaders_exist]. *)
Fixpoint all_leaders_cached (d : DagState St) (leaders : list Slot) : outcome bool :=
  match leaders with
  | [] => Ok true
  | leader :: leaders =>
      exists_ ← contains_cached_block_at_slot d leader;
      if exists_ : bool then all_leaders_cached d leaders else Ok false
  end.

Definition leaders_exist self (round : Round) : outcome bool :=
  leaders ← core_leaders self round;
  all_leaders_cached (dag_state self) leaders.

Definition last_proposed_timestamp_ms self : BlockTimestampMs := vb_timestamp_ms (last_proposed_block self).

Definition last_proposed_round self : Round := vb_round (last_proposed_block self).

(** ** Proposing *)

(** The filter on the last blocks of the authorities: of the others, and above what was
    included already. *)
Definition to_include self (block : VerifiedBlock) : outcome bool :=
  if vb_author block =? own_index (core_context self) then Ok false
  else
    last_included ← vec_index (last_included_ancestors self) (vb_author block);
    Ok (match last_included with
        | Some last_block_ref => br_round last_block_ref <? vb_round block
        | None => true
        end).

Definition ancestors_to_propose self (clock_round : Round) : outcome (list VerifiedBlock * Core St) :=
  let c := committee (core_context self) in
  ancestors ← get_last_cached_block_per_authority (dag_state self) clock_round;
  _ ← assert_ (N.of_nat (length ancestors) =? committee_size c)
        "Fatal error, number of returned ancestors don't match committee size.";
  others ← filterM (to_include self) ancestors;
  let ancestors := last_proposed_block self :: others in
  included ← foldM (λ included ancestor, vec_set included (vb_author ancestor) (Some (reference ancestor)))
               (last_included_ancestors self) ancestors;
  quorum ← foldM (λ agg ancestor,
      '(_, agg) ← aggregator_add (T := QuorumThreshold) agg (vb_author ancestor) c;
      Ok agg)
    aggregator_new (filter (λ block, vb_round block = clock_round -u32 1) ancestors);
  _ ← assert_ (reached_threshold quorum c) "Fatal error, quorum not reached for parent round";
  Ok (ancestors, with_included included self).

(** [add_accepted_blocks]. *)
Definition add_accepted_blocks self (accepted_blocks : list VerifiedBlock) : outcome (Core St) :=
  '(new_round, tc) ← clock_add_blocks (committee (core_context self)) (threshold_clock self)
                       (reference <$> accepted_blocks);
  Ok (with_clock tc
        match new_round with
        | Some new_round => signal_new_round (signals self) new_round
        | None => signals self
        end self).

(** The guard of [try_new_block] when the proposal is not forced. *)
Definition ready_to_propose self (t : Readings) (quorum_round : Round) : outcome bool :=
  exist ← leaders_exist self quorum_round;
  if negb exist then Ok false
  else Ok (negb (now_delay t - last_proposed_timestamp_ms self <? min_round_delay_ms (core_context self))).

(** The part of [try_new_block] from the choice of the ancestors on. *)
Definition propose_block self (t : Readings) (clock_round : Round) : outcome (VerifiedBlock * Core St) :=
  '(ancestors, self) ← ancestors_to_propose self clock_round;
  let now := now_propose t in
  _ ← assert_ (forallb (λ block, vb_timestamp_ms block <=? now) ancestors)
        "Violation: ancestor block has timestamp greater than current timestamp";
  let '(transactions, acks, consumer) := next (transaction_consumer self) in
  let self := with_consumer consumer self in
  let '(commit_votes, d) := take_commit_votes (dag_state self) MAX_COMMIT_VOTES_PER_BLOCK in
  let block := V1 (mkBlockV1 (epoch (committee (core_context self))) clock_round
    (own_index (core_context self)) now (reference <$> ancestors) transactions commit_votes []) in
  match signed_block_new block (block_signer self) with
  | RustErr _ => Panic "Block signing failed."
  | RustOk signed_block =>
      match bcs_signed_block signed_block with
      | RustErr _ => Panic "Block serialization failed."
      | RustOk serialized =>
          let verified_block := new_verified signed_block serialized in
          '(bm, d, accepted_blocks, missing) ←
            try_accept_blocks (now_accept t) (block_manager self) d [verified_block];
          _ ← assert_ (N.of_nat (length accepted_blocks) =? 1) "assertion failed: accepted_blocks.len() == 1";
          _ ← assert_ (bool_decide (missing = ∅)) "assertion failed: missing.is_empty()";
          self ← add_accepted_blocks (with_blocks bm d self) [verified_block];
          d ← flush (dag_state self);
          Ok (verified_block, with_proposed verified_block acks (with_blocks (block_manager self) d self))
      end
  end.

Definition try_new_block self (t : Readings) (force : bool) : outcome (option VerifiedBlock * Core St) :=
  let clock_round := get_round (threshold_clock self) in
  if clock_round <=? last_proposed_round self then Ok (None, self)
  else
    let quorum_round := get_round (threshold_clock self) - 1 in
    ready ← (if force then Ok true else ready_to_propose self t quorum_round);
    if negb ready then Ok (None, self)
    else
      leader ← first_leader self quorum_round;
      _ ← committee_authority (committee (core_context self)) leader;
      '(block, self) ← propose_block self t clock_round;
      Ok (Some block, self).

(** ** Committing *)

(** [commit_observer.handle_commit]. *)
Definition core_handle_commit self (leaders : list VerifiedBlock) : core_result (list CommittedSubDag) :=
  '(res, observer, d) ← observer_handle_commit (commit_observer self) (dag_state self)
                          (leader_schedule self) leaders;
  Ok (res, with_output observer d self).

(** [try_commit] without leader scoring. *)
Definition try_commit_unscored self : core_result (list CommittedSubDag) :=
  decided_leaders ← try_decide (core_committer self) (last_decided_leader self);
  let self :=
    match last decided_leaders with
    | Some last => with_decided (decided_leader_slot last) self
    | None => self
    end in
  core_handle_commit self (omap into_committed_block decided_leaders).

(** The commits that are left under the current schedule; when none is, the schedule changes. *)
Definition commits_until_update self : outcome (N * Core St) :=
  until ← commits_until_leader_schedule_update (leader_schedule self) (dag_state self);
  if until =? 0 then
    '(schedule, d) ← update_leader_schedule (leader_schedule self) (dag_state self);
    let self := with_schedule schedule d self in
    until ← commits_until_leader_schedule_update (leader_schedule self) (dag_state self);
    Ok (until, self)
  else Ok (until, self).

(** One iteration of the loop of [try_commit] with leader scoring; the state is
    [committed_subdags] and the core. *)
Definition try_commit_step (st : list CommittedSubDag * Core St) :
    outcome (flow (list CommittedSubDag * Core St) (ConsensusResult (list CommittedSubDag) * Core St)) :=
  let '(committed_subdags, self) := st in
  '(until, self) ← commits_until_update self;
  _ ← assert_ (0 <? until) "assertion failed: commits_until_update > 0";
  decided_leaders ← try_decide (core_committer self) (last_decided_leader self);
  match last decided_leaders with
  | None => Ok (Break (RustOk committed_subdags, self))
  | Some last_decided =>
      let sequenced_leaders := omap into_committed_block decided_leaders in
      '(sequenced_leaders, self) ←
        (if until <=? N.of_nat (length sequenced_leaders) then
           let sequenced_leaders := take (N.to_nat until) sequenced_leaders in
           last_leader ← expect (last sequenced_leaders) "called `Option::unwrap()` on a `None` value";
           Ok (sequenced_leaders, with_decided (vb_slot last_leader) self)
         else Ok (sequenced_leaders, with_decided (decided_leader_slot last_decided) self));
      if bool_decide (sequenced_leaders = []) then Ok (Break (RustOk committed_subdags, self))
      else
        '(res, self) ← core_handle_commit self sequenced_leaders;
        match res with
        | RustErr e => Ok (Break (RustErr e, self))
        | RustOk subdags =>
            let d := add_unscored_committed_subdags (dag_state self) subdags in
            Ok (Continue (committed_subdags ++ subdags, with_output (commit_observer self) d self))
        end
  end.

Definition try_commit self : core_result (list CommittedSubDag) :=
  if negb (mysticeti_leader_scoring_and_schedule (core_context self)) then try_commit_unscored self
  else while_loop try_commit_step ([], self).

(** ** The operations *)

Definition try_propose self (t : Readings) (force : bool) : core_result (option VerifiedBlock) :=
  '(block, self) ← try_new_block self t force;
  match block with
  | None => Ok (RustOk None, self)
  | Some block =>
      match signal_new_block (core_context self) (signals self) block with
      | RustErr e => Ok (RustErr e, self)
      | RustOk sig =>
          let self := with_clock (threshold_clock self) sig self in
          try_core (try_commit self) (λ _ self, Ok (RustOk (Some block), self))
      end
  end.

(** [Core::new_block]. *)
Definition core_new_block self (t : Readings) (round : Round) (force : bool) :
    core_result (option VerifiedBlock) :=
  if last_proposed_round self <? round then try_propose self t force
  else Ok (RustOk None, self).

(** [Core::add_blocks]; [now] is the time at which the blocks are accepted. *)
Definition core_add_blocks self (now : BlockTimestampMs) (t : Readings) (blocks : list VerifiedBlock) :
    core_result (gset BlockRef) :=
  '(bm, d, accepted_blocks, missing) ← try_accept_blocks now (block_manager self) (dag_state self) blocks;
  let self := with_blocks bm d self in
  if bool_decide (accepted_blocks = []) then Ok (RustOk missing, self)
  else
    self ← add_accepted_blocks self accepted_blocks;
    try_core (try_commit self) (λ _ self,
    try_core (try_propose self t false) (λ _ self,
    Ok (RustOk missing, self))).

Definition core_get_missing_blocks self : gset BlockRef := missing_blocks (block_manager self).

(** [result.unwrap()] on a result of the core. *)
Definition unwrap_core {A} (m : core_result A) : outcome (A * Core St) :=
  '(res, self) ← m;
  match res with
  | RustOk a => Ok (a, self)
  | RustErr _ => Panic "called `Result::unwrap()` on an `Err` value"
  end.

(** [Core::recover]: [now] is read first, and [t] is what the proposal would read without the
    sleep. *)
Definition core_recover self (now : BlockTimestampMs) (t : Readings) : outcome (Core St) :=
  ancestor_blocks ← get_last_cached_block_per_authority (dag_state self) U32_MAX;
  let max_ancestor_timestamp := foldl (λ ts b, N.max ts (vb_timestamp_ms b)) 0 ancestor_blocks in
  let wait_ms := max_ancestor_timestamp - now in
  let t := if 0 <? wait_ms then sleep_ms wait_ms t else t in
  last_quorum ← last_quorum (dag_state self);
  self ← add_accepted_blocks self last_quorum;
  '(_, self) ← unwrap_core (try_commit self);
  '(proposed, self) ← unwrap_core (try_propose self t true);
  match proposed with
  | Some _ => Ok self
  | None =>
      _ ← assert_ (GENESIS_ROUND <? vb_round (last_proposed_block self))
            "At minimum a block of round higher that genesis should have been produced during recovery";
      match signal_new_block (core_context self) (signals self) (last_proposed_block self) with
      | RustErr _ => Panic "called `Result::unwrap()` on an `Err` value"
      | RustOk sig => Ok (with_clock (threshold_clock self) sig self)
      end
  end.

(** The builder of [Core::new]. *)
Definition core_committer_options (context : Context) (schedule : LeaderSchedule) (d : DagState St) :
    outcome (list BaseCommitterOptions) :=
  uc ← universal_committer_build
         (with_pipeline true (with_number_of_leaders NUM_LEADERS_PER_ROUND
            (universal_committer_builder_new context schedule d)));
  Ok (bc_options <$> committers uc).

(** [Core::new]. *)
Definition core_new (context : Context) (schedule : LeaderSchedule) (consumer : TransactionConsumer)
    (bm : BlockManager) (observer : CommitObserver) (sig : CoreSignals) (block_signer : ProtocolKeyPair)
    (d : DagState St) (now : BlockTimestampMs) (t : Readings) : outcome (Core St) :=
  last_decided_leader ← last_commit_leader d;
  options ← core_committer_options context schedule d;
  last_proposed_block ← get_last_block_for_authority d (own_index context);
  included ← foldM (λ included ancestor, vec_set included (br_author ancestor) (Some ancestor))
               (replicate (N.to_nat (committee_size (committee context))) None)
               (vb_ancestors last_proposed_block);
  core_recover (mkCore context (clock_new 0) consumer bm options last_proposed_block included
    last_decided_leader schedule observer sig block_signer d []) now t.

(** ** The core thread *)

(** The commands, with the time at which they are processed. *)
Inductive CoreThreadCommand : Type :=
| AddBlocks (blocks : list VerifiedBlock) (now : BlockTimestampMs) (t : Readings)
| NewBlock (round : Round) (force : bool) (t : Readings)
| GetMissing.

(** The body of the loop of [CoreThread::run], with the answer that is sent back. *)
Definition run_command self (command : CoreThreadCommand) : core_result (option (gset BlockRef)) :=
  match command with
  | AddBlocks blocks now t =>
      try_core (core_add_blocks self now t blocks) (λ missing self, Ok (RustOk (Some missing), self))
  | NewBlock round force t =>
      try_core (core_new_block self t round force) (λ _ self, Ok (RustOk None, self))
  | GetMissing => Ok (RustOk (Some (core_get_missing_blocks self)), self)
  end.

(** [CoreThread::run] over the commands it receives. *)
Fixpoint core_thread_run self (commands : list CoreThreadCommand) : core_result () :=
  match commands with
  | [] => Ok (RustOk (), self)
  | command :: commands =>
      try_core (run_command self command) (λ _ self, core_thread_run self commands)
  end.
End core.
