(* ===== verification/CoreInvariant.v ===== *)
(** The invariant of the core ([consensus/core/src/core.rs]) on its DAG, its commits and its leader
    schedule, and how deciding slots and changing the schedule preserve it. *)

From stdpp Require Import base strings numbers sorting gmap sets relations list.
From S2P Require Import Prelude Committee Block Dag StakeAggregator ThresholdClock Commit BlockVerifier Store DagState DagStateFacts Recovery BlockManager DagReader BaseCommitter Votes Decisions UniversalCommitter Agreement Sequence Linearizer Linearization TotalOrder LeaderScoring LeaderScoringFacts LeaderSchedule LeaderScheduleFacts Slots Periods History TransactionConsumer CommitObserver Core.

Open Scope N_scope.

(** ** The DAG of a validator *)

Section dag.
Context {St : Type} `{StoreSpec St} `{Crypto} `{CommitSerializer}.
Context (byz : gset AuthorityIndex) (genesis_refs : gset BlockRef).
Implicit Types d : DagState St.

(** All blocks passed verification; the Byzantine authorities [byz] have less than a third of the
    stake, the others do not equivocate; and rounds are far from overflowing. *)
Record dag_ok d : Prop := {
  dk_wf : dag_wf d;
  dk_closed : dag_closed (dag_view d);
  dk_blocks r b : dag_view d !! r = Some b → 0 < br_round r →
    block_valid (committee (context d)) genesis_refs (inner (block b));
  dk_honest : compatible byz (dag_view d) (dag_view d);
  dk_byz : set_stake (committee (context d)) byz < validity_threshold (committee (context d));
  dk_rounds : 2 * (highest_accepted_round d + 3) < U32_MAX;
}.

Lemma view_round_highest d r b : dag_wf d → dag_view d !! r = Some b → br_round r ≤ highest_accepted_round d.
Proof.
  intros Hwf Hb. destruct (decide (br_round r = GENESIS_ROUND)) as [Hr|Hr]; [unfold GENESIS_ROUND in Hr; lia|].
  rewrite view_not_genesis in Hb by done. destruct (recent_blocks d !! r) as [b'|] eqn:Hrec.
  { by apply (wf_recent _ Hwf) in Hrec as (_ & _ & _ & _ & ?). }
  simpl in Hb. destruct (wf_stored _ Hwf _ _ Hb) as [Hpos Ha].
  destruct (lookup_lt_is_Some_2 (last_committed_rounds d) (N.to_nat (br_author r))) as [lr Hlr].
  { rewrite (wf_rounds_len _ Hwf). lia. }
  pose proof (wf_evicted _ Hwf _ _ _ Hb Hrec Hlr) as Hev. unfold eviction_round in Hev.
  destruct (wf_committed _ Hwf _ _ Hlr) as (r' & [b' Hb'] & _ & Hr'); [lia|].
  apply (wf_recent _ Hwf) in Hb' as (_ & _ & _ & _ & ?). lia.
Qed.

Lemma dag_ok_valid d : dag_ok d → valid_dag (committee (context d)) (dag_view d) ∧ validator_ok d.
Proof. intros Hd. apply (verified_blocks_dag d genesis_refs); apply Hd. Qed.

Lemma dag_ok_same d d' :
  dag_ok d → dag_wf d' → dag_view d' = dag_view d → same_frame d d' → dag_ok d'.
Proof.
  intros [Hwf HC Hb Hh Hz Hr] Hwf' Hv (Hctx & Hhi & _). split; rewrite ?Hv, ?Hctx, ?Hhi; try done.
Qed.

(** The sub-dag of a commit that was made. *)
Lemma commit_made_recorded d cs leader sd c :
  serializes → dag_ok d →
  commit_made (St := St) (committee (context d)) (dag_view d) cs leader sd c →
  recorded d sd c ∧ commit_leader c = reference leader ∧ dag_view d !! reference leader = Some leader.
Proof.
  intros Hser Hd (d0 & [Hwf HC Hdist] & Hcs & Hsub & _ & Hl & Hpos & Hcol).
  destruct (collect_spec d0 leader) as (sd' & c' & Hcol' & Hok); [done..|]. rewrite Hcol in Hcol'. simplify_eq.
  split_and!; [|apply Hok|by eapply lookup_weaken].
  destruct (sub_dag_recorded d0 leader sd' c') as (? & ? & ? & Hb); [done..|]. split_and!; try done.
  intros b Hin. destruct (Hb b Hin). split; [by eapply lookup_weaken|done].
Qed.

Lemma commits_made_recorded d cs leaders sds new :
  serializes → dag_ok d →
  commits_made (St := St) (committee (context d)) (dag_view d) cs leaders sds new →
  Forall2 (recorded d) sds new ∧ commit_leader <$> new = reference <$> leaders.
Proof.
  intros Hser Hd. induction 1 as [|cs leader sd c leaders sds new Hc _ [IH1 IH2]]; [done|].
  destruct (commit_made_recorded _ _ _ _ _ Hser Hd Hc) as (? & Hl & _).
  split; [by constructor|]. rewrite !fmap_cons. by rewrite Hl, IH2.
Qed.

(** The sub-dags of the commits [new], with any scores. *)
Section scorable.
Context (d : DagState St) (past new : list TrustedCommit) (sds : list CommittedSubDag).
Context (scores : list (AuthorityIndex * N)).
Context (Hd : dag_ok d) (Hcs : commits_wf d (past ++ new)) (Hord : commits_ordered (past ++ new)).
Context (Hrec : Forall2 (recorded d) sds new).
Let scored : list CommittedSubDag := (λ sd, update_scores sd scores) <$> sds.

Lemma scored_commit i sd :
  scored !! i = Some sd →
  ∃ c, (past ++ new) !! (length past + i)%nat = Some c ∧ sd_leader sd = commit_leader c ∧
    cr_index (sd_commit_ref sd) = N.of_nat (length past + i) + 1 ∧ commit_leader c ∈ commit_blocks c ∧
    commit_blocks c = reference <$> sd_blocks sd ∧
    ∀ b, b ∈ sd_blocks sd → dag_view d !! reference b = Some b ∧ br_round (reference b) ≠ GENESIS_ROUND.
Proof.
  unfold scored. rewrite list_lookup_fmap_Some. intros (sd0 & -> & Hi).
  destruct (Forall2_lookup_l _ _ _ _ _ Hrec Hi) as (c & Hc & Hsd & Hrefs & Hl & Hb).
  exists c. rewrite lookup_app_r by lia. replace (length past + i - length past)%nat with i by lia.
  split; [done|]. rewrite Hsd. simpl. split_and!; try done.
  apply (cw_index _ _ Hcs). rewrite lookup_app_r by lia. by replace (length past + i - length past)%nat with i by lia.
Qed.

Lemma scored_block sd b : sd ∈ scored → b ∈ sd_blocks sd → dag_view d !! reference b = Some b ∧ 0 < vb_round b.
Proof.
  intros (i & Hi)%list_elem_of_lookup Hb. destruct (scored_commit i sd Hi) as (c & _ & _ & _ & _ & _ & Hin).
  destruct (Hin b Hb) as [? Hr]. split; [done|]. unfold GENESIS_ROUND in Hr. simpl in Hr. lia.
Qed.

(** No other committed block is in the slot of a leader. *)
Lemma scored_slot sd sd' b :
  sd ∈ scored → sd' ∈ scored → b ∈ sd_blocks sd' → vb_slot b = slot_of_ref (sd_leader sd) → reference b = sd_leader sd.
Proof.
  intros (i & Hi)%list_elem_of_lookup (i' & Hi')%list_elem_of_lookup Hb Hslot.
  destruct (scored_commit i sd Hi) as (c & Hc & Hl & _ & Hin & _).
  destruct (scored_commit i' sd' Hi') as (c' & Hc' & _ & _ & _ & Hrefs & _).
  assert (Hb' : reference b ∈ commit_blocks c') by (rewrite Hrefs; by apply list_elem_of_fmap_2).
  rewrite Hl in Hslot |- *. injection Hslot as Hr Ha.
  destruct (lt_eq_lt_dec i i') as [[Hlt|Heq]|Hgt].
  - pose proof (od_author _ Hord (length past + i) (length past + i') c c' (commit_leader c) (reference b) ltac:(lia) Hc Hc' Hin Hb' ltac:(done)) as Hlt'.
    simpl in *. lia.
  - subst i'. rewrite Hc in Hc'. injection Hc' as <-.
    destruct (od_below _ Hord c (reference b)) as [?|Hlt]; [by eapply list_elem_of_lookup_2|done|done|].
    unfold commit_round in Hlt. simpl in Hlt. lia.
  - pose proof (od_author _ Hord (length past + i') (length past + i) c' c (reference b) (commit_leader c) ltac:(lia) Hc' Hc Hb' Hin ltac:(done)) as Hlt'.
    simpl in *. lia.
Qed.

Lemma scorable : new ≠ [] → subdags_ok (committee (context d)) scored.
Proof.
  intros Hne. pose proof (cw_bound _ _ Hcs) as Hbound. rewrite length_app in Hbound.
  pose proof (Forall2_length _ _ _ Hrec) as Hlen.
  split.
  - unfold scored. intros Hnil%fmap_nil_inv. subst sds. by destruct new.
  - intros i sd sd' Hi Hi'. destruct (scored_commit i sd Hi) as (? & _ & _ & -> & _).
    destruct (scored_commit (S i) sd' Hi') as (? & _ & _ & -> & _). lia.
  - intros sd (i & Hi)%list_elem_of_lookup. destruct (scored_commit i sd Hi) as (? & _ & _ & -> & _).
    apply lookup_lt_Some in Hi. unfold scored in Hi. rewrite length_fmap in Hi. lia.
  - intros sd (i & Hi)%list_elem_of_lookup. destruct (scored_commit i sd Hi) as (c & _ & -> & _ & Hl & Hrefs & _).
    rewrite Hrefs in Hl. apply list_elem_of_fmap in Hl as (b & ? & ?). eauto.
  - apply scored_slot.
  - intros sd b Hsd Hb. destruct (scored_block sd b Hsd Hb) as [Hv Hpos].
    destruct (view_reference _ _ _ (dk_wf _ Hd) Hv) as (_ & Ha & Hr).
    destruct (dk_blocks _ Hd _ _ Hv Hpos) as [_ _ _ [_ Hnd _ Hanc _ _]].
    pose proof (view_round_highest _ _ _ (dk_wf _ Hd) Hv). pose proof (dk_rounds _ Hd).
    split_and!; [done| |simpl in *; lia|done..].
    destruct Hr as [Hr|[_ ?]]; [|done]. unfold GENESIS_ROUND in Hr. simpl in Hr. lia.
  - intros b b' (sd & Hb & Hsd)%list_elem_of_bind (sd' & Hb' & Hsd')%list_elem_of_bind Heq.
    destruct (scored_block sd b Hsd Hb) as [Hv _]. destruct (scored_block sd' b' Hsd' Hb') as [Hv' _].
    rewrite Heq in Hv. congruence.
Qed.

(** The range of their commits. *)
Lemma scored_range : new ≠ [] →
  subdags_range scored =
    mkCommitRange (N.of_nat (length past) + 1) (N.of_nat (length past + length new) + 1).
Proof.
  intros Hne. pose proof (Forall2_length _ _ _ Hrec) as Hlen.
  assert (Hl : (0 < length scored)%nat).
  { unfold scored. rewrite length_fmap, Hlen. destruct new; [done|simpl; lia]. }
  destruct (lookup_lt_is_Some_2 scored 0) as [sd0 Hs0]; [done|].
  destruct (lookup_lt_is_Some_2 scored (pred (length scored))) as [sd1 Hs1]; [lia|].
  unfold subdags_range. rewrite head_lookup, last_lookup, Hs0, Hs1. simpl.
  destruct (scored_commit _ _ Hs0) as (? & _ & _ & -> & _). destruct (scored_commit _ _ Hs1) as (? & _ & _ & -> & _).
  unfold scored in *. rewrite length_fmap, Hlen in *. f_equal; lia.
Qed.
End scorable.
End dag.

(** ** The leader schedule *)

(** What leader scoring needs: no authority alone exceeds the stake that may be swapped. *)
Record scoring_ok (ctx : Context) (ls : LeaderSchedule) : Prop := {
  sl_commits : 2 ≤ num_commits_per_schedule ls;
  sl_threshold : consensus_bad_nodes_stake_threshold ctx ≤ 33;
  sl_stake : consensus_bad_nodes_stake_threshold ctx * total_stake (committee ctx) < 2 ^ 64;
  sl_limit a : a < committee_size (committee ctx) →
    stake_of (committee ctx) a ≤ stake_limit ctx (consensus_bad_nodes_stake_threshold ctx);
}.

Record schedule_ok (ctx : Context) (ls : LeaderSchedule) : Prop := {
  sl_context : ls_context ls = ctx;
  sl_table : table_ok ctx (leader_swap_table ls);
  sl_scoring : mysticeti_leader_scoring_and_schedule ctx = true → scoring_ok ctx ls;
}.

(** The commits that the table was computed from: the last full period before [past] ends. *)
Definition table_range (n : N) (past : list TrustedCommit) : CommitRange :=
  match past with
  | [] => mkCommitRange 0 0
  | _ => mkCommitRange (N.of_nat (length past) + 1 - n) (N.of_nat (length past) + 1)
  end.

Lemma scores_update_metrics_Ok scores ctx :
  N.of_nat (length (scores_per_authority scores)) = committee_size (committee ctx) →
  scores_update_metrics scores ctx = Ok ().
Proof.
  intros Hlen. unfold scores_update_metrics.
  edestruct (foldM_inv (λ (_ : ()) '((index, _) : N * N),
      authority_index ← expect (to_authority_index (committee ctx) index) "Should be a valid AuthorityIndex";
      _ ← committee_authority (committee ctx) authority_index;
      Ok ()) (λ _, True)) as ([] & Hf & _); [done| |exact Hf].
  intros [] [i x] _ Hi%elem_of_enumerate_from. exists (). split; [|done].
  unfold to_authority_index. rewrite (proj2 (N.ltb_lt _ _)) by lia. cbn [expect mbind outcome_bind].
  unfold committee_authority. destruct (vec_index_lt (authorities (committee ctx)) i) as [a ->]; [|done].
  unfold committee_size in Hlen. lia.
Qed.

Section schedule.
Context {St : Type} `{StoreSpec St} `{Crypto} `{CommitSerializer} `{RandSpec}.
Context (byz : gset AuthorityIndex) (genesis_refs : gset BlockRef).
Implicit Types d : DagState St.
Abbreviation dag_ok := (dag_ok byz genesis_refs).

Lemma schedule_elects ctx ls r :
  committee_wf (committee ctx) → schedule_ok ctx ls →
  ls_elect_leader ls r 0 = Ok (elected_by ls r) ∧ elected_by ls r < committee_size (committee ctx).
Proof.
  intros Hc [Hctx Ht _]. subst ctx. destruct (elect_leader_first ls Hc Ht r) as (a & Ha & Hlt & _).
  unfold elected_by. by rewrite Ha.
Qed.

(** The state after the sub-dags were taken and the commit info was added. *)
Lemma dag_ok_info d info : dag_ok d →
  dag_ok (set_to_write (blocks_to_write d) (commits_to_write d) info (set_unscored [] d)).
Proof.
  intros [Hwf HC Hb Hh Hz Hr]. split; [|exact HC|exact Hb|exact Hh|exact Hz|exact Hr].
  destruct Hwf. split; assumption.
Qed.

Lemma commits_wf_info d cs c scores :
  commits_wf d cs → last cs = Some c →
  commits_wf (set_to_write (blocks_to_write d) (commits_to_write d)
    (commit_info_to_write d ++ [(commit_reference c, mkCommitInfo (last_committed_rounds d) scores)])
    (set_unscored [] d)) cs.
Proof.
  intros [Hi Hb Hl Hs Hr Hok Hinfo Hw] Hlast. split; try done.
  - intros c' Hc'. by destruct (Hok c' Hc').
  - intros r info [Hin|[= -> ->]%list_elem_of_singleton]%elem_of_app; [by apply Hw|]. simpl.
    rewrite last_lookup in Hlast. apply Hi in Hlast as Hidx.
    apply lookup_lt_Some in Hlast. unfold info_ok. rewrite Hidx.
    split_and!; [lia..|]. by rewrite take_ge by lia.
Qed.

Lemma leader_swap_table_new_Ok ctx index scores :
  committee_wf (committee ctx) → consensus_bad_nodes_stake_threshold ctx ≤ 33 →
  consensus_bad_nodes_stake_threshold ctx * total_stake (committee ctx) < 2 ^ 64 →
  (∀ a, a < committee_size (committee ctx) →
     stake_of (committee ctx) a ≤ stake_limit ctx (consensus_bad_nodes_stake_threshold ctx)) →
  N.of_nat (length (scores_per_authority scores)) = committee_size (committee ctx) →
  ∃ t, leader_swap_table_new ctx index scores = Ok t ∧ table_reputation_scores t = scores ∧ table_ok ctx t.
Proof.
  intros Hc H33 Hst Hlim Hlen.
  destruct (leader_swap_table_Ok ctx Hc _ index scores H33 Hst Hlen) as (t & Ht & Hsc & Hok).
  exists t. split_and!; [done..|]. eapply swap_table_table_ok; [done|by rewrite Hsc|done].
Qed.

(** [update_leader_schedule] after the commits [new] under the schedule [ls]. *)
Lemma update_leader_schedule_Ok d ls past new sds :
  dag_ok d → commits_wf d (past ++ new) → commits_ordered (past ++ new) → Forall2 (recorded d) sds new →
  new ≠ [] → context d = ls_context ls → scoring_ok (ls_context ls) ls →
  unscored_committed_subdags d = scored_by ls sds →
  length new = N.to_nat (num_commits_per_schedule ls) →
  scores_commit_range (table_reputation_scores (leader_swap_table ls)) =
    table_range (num_commits_per_schedule ls) past →
  (past = [] ∨ num_commits_per_schedule ls ≤ N.of_nat (length past)) →
  ∃ ls' info, let d' := set_to_write (blocks_to_write d) (commits_to_write d) info (set_unscored [] d) in
    update_leader_schedule ls d = Ok (ls', d') ∧ commits_wf d' (past ++ new) ∧
    rescored ls (scored_by ls sds) ls' ∧ table_ok (ls_context ls) (leader_swap_table ls') ∧
    scores_commit_range (table_reputation_scores (leader_swap_table ls')) =
      table_range (num_commits_per_schedule ls) (past ++ new).
Proof.
  intros Hd Hcs Hord Hrec Hne Hctx Hsl Hun Hlen Hrange Hpast.
  pose proof (wf_committee _ (dk_wf _ _ _ Hd)) as Hc. rewrite Hctx in Hc.
  pose proof (scorable byz genesis_refs d past new sds (reputation_scores_desc (leader_swap_table ls)) Hd Hcs Hord Hrec Hne)
    as Hok.
  pose proof (scored_range d past new sds (reputation_scores_desc (leader_swap_table ls)) Hcs Hord Hrec Hne) as Hrg.
  fold (scored_by ls sds) in Hok, Hrg. rewrite Hctx in Hok.
  destruct (scores_total (ls_context ls) (scored_by ls sds) Hc Hok (scoring_strategy ls)) as (calc & scores & Hnew & Hcalc & Hsl').
  destruct (last (scored_by ls sds)) as [sd|] eqn:Hlast.
  2:{ apply last_None in Hlast. by destruct (sds_nonempty _ _ Hok). }
  destruct Hsl as [Hn2 H33 Hst Hlim].
  destruct (leader_swap_table_new_Ok (ls_context ls) (cr_index (sd_commit_ref sd))
    (mkReputationScores scores (subdags_range (scored_by ls sds)))) as (t & Ht & Htsc & Htok); [done..|].
  destruct (last (past ++ new)) as [c|] eqn:Hlc; [|by apply last_None, app_nil in Hlc as [_ ?]].
  exists (set_swap_table t ls), (commit_info_to_write d ++ [(commit_reference c,
    mkCommitInfo (last_committed_rounds d) (mkReputationScores scores (subdags_range (scored_by ls sds))))]).
  simpl. rewrite Htsc. split_and!.
  - unfold update_leader_schedule, take_unscored_committed_subdags. rewrite Hun, Hnew. cbn [mbind outcome_bind].
    rewrite Hcalc. cbn [mbind outcome_bind]. rewrite scores_update_metrics_Ok by done. cbn [mbind outcome_bind].
    rewrite Hlast. cbn [expect mbind outcome_bind]. rewrite Ht. cbn [mbind outcome_bind].
    unfold update_leader_swap_table. rewrite Htsc, Hrange. cbn [scores_commit_range]. rewrite Hrg.
    assert ((if bool_decide (table_range (num_commits_per_schedule ls) past = mkCommitRange 0 0) then Ok ()
      else assert_ (is_next_range (table_range (num_commits_per_schedule ls) past)
        (mkCommitRange (N.of_nat (length past) + 1) (N.of_nat (length past + length new) + 1)))
        "The new LeaderSwapTable has an invalid CommitRange") = Ok ()) as ->.
    { case_bool_decide; [done|]. destruct past as [|c0 past]; [done|]. destruct Hpast as [|Hpast]; [done|].
      unfold is_next_range, table_range, range_len. cbn [range_start range_end].
      rewrite (proj2 (N.eqb_eq _ _)), N.eqb_refl; [done|]. lia. }
    cbn [mbind outcome_bind]. unfold add_commit_info. cbn [unscored_committed_subdags set_unscored length].
    rewrite bool_decide_eq_true_2 by done. cbn [assert_ mbind outcome_bind].
    change (last_commit (set_unscored [] d)) with (last_commit d). rewrite (cw_last _ _ Hcs), Hlc.
    cbn [expect mbind outcome_bind]. done.
  - by apply commits_wf_info.
  - by exists calc, (mkReputationScores scores (subdags_range (scored_by ls sds))), sd, t.
  - done.
  - rewrite Hrg. unfold table_range. destruct (past ++ new) as [|c0 l] eqn:Hl; [by apply app_nil in Hl as [_ ?]|].
    rewrite <-Hl, length_app. cbn [scores_commit_range]. f_equal. lia.
Qed.
End schedule.

(** ** The invariant of the core *)

Section committing.
Context {St : Type} `{StoreSpec St} `{Crypto, BlockVerifier} `{CommitSerializer} `{RandSpec}.
Context {byz : gset AuthorityIndex} {genesis_refs : gset BlockRef}.
Implicit Types self : Core St.
Abbreviation dag_ok := (dag_ok byz genesis_refs).

(** The core has made the commits [past] under earlier schedules, and [new], with the sub-dags
    [sds], under the current one; it has sent all of them.  [ls0] is the first schedule. *)
Record committing (ls0 : LeaderSchedule) self (k : nat) (past : list TrustedCommit)
    (out sds : list CommittedSubDag) (new : list TrustedCommit) : Prop := {
  ck_dag : dag_ok (dag_state self);
  ck_commits : commits_wf (dag_state self) (past ++ new);
  ck_chained : chained (past ++ new);
  ck_ordered : commits_ordered (past ++ new);
  ck_context : context (dag_state self) = core_context self;
  ck_options : committer_options self = pipeline_options;
  ck_schedule : schedule_ok (core_context self) (leader_schedule self);
  ck_highest : slot_round (last_decided_leader self) ≤ highest_accepted_round (dag_state self);
  ck_position : position_ok (past ++ new) (length past) (elected_by (leader_schedule self))
    (last_decided_leader self);
  ck_history : history (St := St) (dag_view (dag_state self)) ls0 (leader_schedule self) k past out;
  ck_period : period (St := St) (dag_view (dag_state self)) (leader_schedule self) past
    (last_decided_leader self) sds new;
  ck_sent : sender_sent (commit_observer self) = out ++ scored_by (leader_schedule self) sds;
}.

(** With leader scoring, the sub-dags of the schedule are kept until they are scored. *)
Record scoring self (past : list TrustedCommit) (sds : list CommittedSubDag) (new : list TrustedCommit) : Prop := {
  sr_unscored : unscored_committed_subdags (dag_state self) = scored_by (leader_schedule self) sds;
  sr_count : N.of_nat (length new) ≤ num_commits_per_schedule (leader_schedule self);
  sr_full c : N.of_nat (length new) = num_commits_per_schedule (leader_schedule self) → last new = Some c →
    commit_slot c = last_decided_leader self;
  sr_range : scores_commit_range (table_reputation_scores (leader_swap_table (leader_schedule self))) =
    table_range (num_commits_per_schedule (leader_schedule self)) past;
}.

Section step.
Context (ls0 : LeaderSchedule) (self : Core St) (k : nat) (past : list TrustedCommit).
Context (out sds : list CommittedSubDag) (new : list TrustedCommit).
Context (Hser : serializes) (Hck : committing ls0 self k past out sds new).
Local Abbreviation d := (dag_state self).
Local Abbreviation c := (committee (context (dag_state self))).
Local Abbreviation V := (dag_view (dag_state self)).
Local Abbreviation ls := (leader_schedule self).
Local Abbreviation ld := (last_decided_leader self).

Lemma core_committee_wf : committee_wf c.
Proof. exact (wf_committee _ (dk_wf _ _ _ (ck_dag _ _ _ _ _ _ _ Hck))). Qed.

Lemma core_ls_context : ls_context ls = context d.
Proof. rewrite (ck_context _ _ _ _ _ _ _ Hck). apply Hck. Qed.

Lemma core_elects r : ls_elect_leader ls r 0 = Ok (elected_by ls r) ∧ elected_by ls r < committee_size c.
Proof.
  rewrite (ck_context _ _ _ _ _ _ _ Hck). apply schedule_elects; [|apply Hck].
  rewrite <-(ck_context _ _ _ _ _ _ _ Hck). apply core_committee_wf.
Qed.

Lemma core_committer_pipelined : core_committer self = pipelined_committer (context d) ls d.
Proof.
  unfold core_committer, pipelined_committer. by rewrite (ck_options _ _ _ _ _ _ _ Hck), (ck_context _ _ _ _ _ _ _ Hck).
Qed.

Lemma core_valid : valid_dag c V ∧ validator_ok d.
Proof. exact (dag_ok_valid _ _ _ (ck_dag _ _ _ _ _ _ _ Hck)). Qed.

Lemma core_committer_ok : committer_ok byz (core_committer self).
Proof.
  rewrite core_committer_pipelined. destruct (ck_dag _ _ _ _ _ _ _ Hck) as [Hwf HC _ Hh Hb Hr].
  split; cbn [uc_context uc_dag_state pipelined_committer]; try done.
  - apply core_committee_wf.
  - apply core_valid.
  - simpl. lia.
  - intros bc (o & -> & Ho)%list_elem_of_fmap. unfold pipeline_options in Ho. simpl.
    split_and!; [done..| |]; repeat (apply elem_of_cons in Ho as [->|Ho]; [done|]); by apply not_elem_of_nil in Ho.
  - intros bc r (o & -> & Ho)%list_elem_of_fmap. simpl. exists (elected_by ls r).
    assert (leader_offset o = 0) as ->; [|apply core_elects]. unfold pipeline_options in Ho.
    repeat (apply elem_of_cons in Ho as [->|Ho]; [done|]). by apply not_elem_of_nil in Ho.
Qed.

Lemma last_commit_below : last_commit_round d ≤ slot_round ld.
Proof.
  unfold last_commit_round. rewrite (cw_last _ _ (ck_commits _ _ _ _ _ _ _ Hck)).
  destruct (last (past ++ new)) as [c0|] eqn:Hl; [|apply N.le_0_l].
  apply (po_round _ _ _ _ (ck_position _ _ _ _ _ _ _ Hck)). by apply last_Some_elem_of.
Qed.

(** [try_decide] in the core. *)
Lemma core_try_decide :
  ∃ l post, try_decide (core_committer self) ld = Ok l ∧
    justified_list c V (live_slots (elected_by ls) ld (highest_accepted_round d - 2))
      ((decided_status <$> l) ++ post).
Proof.
  pose proof core_committer_ok as Hok. rewrite core_committer_pipelined in Hok |- *.
  exact (try_decide_pipelined byz (context d) ls d (elected_by ls) Hok (λ r, proj1 (core_elects r)) ld last_commit_below).
Qed.

(** The leaders decided in a call. *)
Section decided.
Context (l : list DecidedLeader) (post : list LeaderStatus).
Local Abbreviation slots := (live_slots (elected_by ls) ld (highest_accepted_round d - 2)).
Local Abbreviation leaders := (omap into_committed_block l).
Context (Hj : justified_list c V slots ((decided_status <$> l) ++ post)).

Lemma decided_slots_prefix : (decided_leader_slot <$> l) `prefix_of` slots.
Proof.
  pose proof (justified_list_slots _ _ _ _ Hj) as Hs. rewrite fmap_app, decided_status_slots in Hs.
  rewrite <-Hs. by eexists.
Qed.

Lemma decided_leader_block b : b ∈ leaders → V !! reference b = Some b.
Proof.
  intros (dl & Hdl & Hb)%list_elem_of_omap. destruct dl as [b'|]; simplify_eq/=.
  eapply justified_list_commit; [exact Hj|]. apply elem_of_app. left. by apply (list_elem_of_fmap_2 decided_status) in Hdl.
Qed.

(** No block of the author at or above the slot is committed. *)
Lemma live_slot_fresh x : x ∈ slots →
  ∃ lr, last_committed_rounds d !! N.to_nat (slot_authority x) = Some lr ∧ lr < slot_round x.
Proof.
  intros (Hr & Hpos & Hx & Hne)%elem_of_live_slots.
  pose proof (ck_dag _ _ _ _ _ _ _ Hck) as Hd. pose proof (ck_position _ _ _ _ _ _ _ Hck) as Hp.
  pose proof (dk_wf _ _ _ Hd) as Hwf.
  destruct (lookup_lt_is_Some_2 (last_committed_rounds d) (N.to_nat (slot_authority x))) as [lr Hlr].
  { rewrite (wf_rounds_len _ Hwf). pose proof (proj2 (core_elects (slot_round x))) as Ha.
    rewrite Hx. simpl. lia. }
  exists lr. split; [done|].
  destruct (committed_rounds_spec d _ _ lr Hwf (ck_commits _ _ _ _ _ _ _ Hck) Hlr) as [_ [->|(c0 & r & Hc0 & Hin & Ha & Hlr')]];
    [done|].
  pose proof (po_round _ _ _ _ Hp c0 Hc0) as Hle.
  destruct (od_below _ (ck_ordered _ _ _ _ _ _ _ Hck) c0 r Hc0 Hin) as [->|Hlt]; [|lia].
  unfold commit_round in Hle. destruct (decide (lr < slot_round x)) as [|Hge]; [done|]. destruct Hne.
  assert (commit_slot c0 = x) as Hcx.
  { unfold commit_slot, slot_of_ref. destruct x as [xr xa]. simpl in *. f_equal; lia. }
  rewrite <-Hcx. apply (po_slot _ _ _ _ Hp c0 Hc0). rewrite Hcx, Hx. simpl.
  f_equal. lia.
Qed.

Lemma decided_leaders_ok : leaders_ok d leaders.
Proof.
  pose proof decided_slots_prefix as Hpre.
  destruct (committed_leaders_sorted slots l) as (Hsort & Hnd & Hin).
  - eapply StronglySorted_weaken; [|apply live_slots_sorted]. intros a b. simpl. lia.
  - apply (StronglySorted_lt_NoDup slot_round), live_slots_sorted.
  - rewrite list_filter_all; [done|]. intros x (_ & Hpos & _)%elem_of_live_slots. unfold GENESIS_ROUND. lia.
  - split; [|intros b Hb..|done|done].
    + intros b Hb. split; [by apply decided_leader_block|]. apply Hin in Hb as [_ Hg]. unfold GENESIS_ROUND in Hg. lia.
    + apply Hin in Hb as [Hs _]. by apply live_slot_fresh in Hs.
    + apply Hin in Hb as [Hs _]. apply elem_of_live_slots in Hs as ([Hr _] & _).
      etrans; [exact last_commit_below|exact Hr].
Qed.

Lemma decided_leaders_bound : N.of_nat (length (past ++ new) + length leaders) < U32_MAX.
Proof.
  pose proof (position_length _ _ _ _ (ck_position _ _ _ _ _ _ _ Hck)) as Hlen.
  pose proof (ck_highest _ _ _ _ _ _ _ Hck) as Hh. pose proof (dk_rounds _ _ _ (ck_dag _ _ _ _ _ _ _ Hck)) as Hr.
  pose proof (prefix_length _ _ decided_slots_prefix) as Hl.
  pose proof (live_slots_length (elected_by ls) ld (highest_accepted_round d - 2)) as Hll.
  pose proof (sublist_length _ _ (committed_slots_sublist l)) as Hle. rewrite !length_fmap in Hle.
  rewrite length_fmap in Hl. lia.
Qed.

(** The slots of the commits that [handle_commit] makes. *)
Lemma committed_slots (d' : DagState St) sds' new' :
  committed_leaders d (past ++ new) leaders sds' d' new' → commit_slot <$> new' = vb_slot <$> leaders.
Proof.
  intros Hcl. pose proof (commits_made_recorded byz genesis_refs d _ _ _ _ Hser (ck_dag _ _ _ _ _ _ _ Hck)
    (cm_made _ _ _ _ _ _ Hcl)) as [_ Hl].
  apply (f_equal (fmap slot_of_ref)) in Hl. by rewrite <-!list_fmap_compose in Hl.
Qed.

Lemma decided_last_highest ld' :
  last (decided_leader_slot <$> l) = Some ld' → slot_round ld' ≤ highest_accepted_round d.
Proof.
  intros Hl%last_Some_elem_of. pose proof (elem_of_prefix _ _ _ Hl decided_slots_prefix) as (? & _)%elem_of_live_slots. lia.
Qed.

(** Committing them, whatever the observer sends afterwards. *)
Lemma handle_decided ld' :
  last (decided_leader_slot <$> l) = Some ld' →
  ∃ sds' d' new', handle_commit d leaders = Ok (sds', d') ∧ same_frame d d' ∧ dag_view d' = V ∧
    commit_slot <$> new' = vb_slot <$> leaders ∧ length sds' = length leaders ∧
    ∀ obs, sender_sent obs = sender_sent (commit_observer self) ++ scored_by ls sds' →
      committing ls0 (with_output obs d' (with_decided ld' self)) k past out (sds ++ sds') (new ++ new').
Proof.
  intros Hlast. destruct core_valid as [HV [Hwf HC Hdist]].
  pose proof (ck_dag _ _ _ _ _ _ _ Hck) as Hd.
  destruct (handle_commit_Ok d (past ++ new) leaders) as (sds' & d' & new' & Hh & Hcl & _); try done;
    [apply Hck|apply Hck|apply decided_leaders_bound|apply decided_leaders_ok|].
  pose proof (committed_slots d' sds' new' Hcl) as Hslots.
  exists sds', d', new'. split_and!; [done|apply Hcl|apply Hcl|done|by destruct (commits_made_length _ _ _ _ _ _ (cm_made _ _ _ _ _ _ Hcl))|].
  intros obs Hobs. destruct Hcl as [Hwf' Hv Hcs' Hch' _ _ _ _ _ Hord' Hfr Hm]. pose proof Hfr as (Hctx & Hhi & _).
  rewrite <-app_assoc in Hcs', Hch', Hord'.
  split; simpl; try apply Hck; try done.
  - by apply (dag_ok_same _ _ d).
  - apply Hord', Hck.
  - rewrite Hctx. apply Hck.
  - rewrite Hhi. by apply decided_last_highest.
  - rewrite app_assoc. eapply position_advance; [apply Hck|apply decided_slots_prefix|done|].
    rewrite Hslots. apply committed_slots_sublist.
  - rewrite Hv. apply Hck.
  - rewrite Hv. replace ld' with (default ld (last (decided_leader_slot <$> l))) by by rewrite Hlast.
    eapply (period_extend c core_committee_wf byz (dk_byz _ _ _ Hd)); try done.
    + apply Hd.
    + by rewrite core_ls_context.
    + apply Hck.
  - rewrite Hobs, (ck_sent _ _ _ _ _ _ _ Hck), <-app_assoc. unfold scored_by. by rewrite fmap_app.
Qed.
End decided.

(** ** Changing the schedule *)

Lemma history_past : past = [] ∨ num_commits_per_schedule ls ≤ N.of_nat (length past).
Proof.
  destruct (history_static _ _ _ _ _ _ (ck_history _ _ _ _ _ _ _ Hck)) as (_ & Hn & _ & Hl).
  rewrite Hn. destruct k as [|k']; [left|right; nia]. by destruct past.
Qed.

Lemma period_recorded : Forall2 (recorded d) sds new.
Proof.
  destruct (ck_period _ _ _ _ _ _ _ Hck) as [(s0 & leaders & _ & _ & Hm)]. rewrite core_ls_context in Hm.
  by destruct (commits_made_recorded byz genesis_refs d _ _ _ _ Hser (ck_dag _ _ _ _ _ _ _ Hck) Hm).
Qed.

Lemma core_scoring_ok : mysticeti_leader_scoring_and_schedule (core_context self) = true → scoring_ok (ls_context ls) ls.
Proof.
  intros Hflag. rewrite core_ls_context, (ck_context _ _ _ _ _ _ _ Hck).
  by apply (sl_scoring _ _ (ck_schedule _ _ _ _ _ _ _ Hck)).
Qed.

(** The period is full: the schedule changes. *)
Lemma change_schedule :
  mysticeti_leader_scoring_and_schedule (core_context self) = true → scoring self past sds new →
  N.of_nat (length new) = num_commits_per_schedule ls →
  ∃ ls' d', update_leader_schedule ls d = Ok (ls', d') ∧ dag_view d' = V ∧
    highest_accepted_round d' = highest_accepted_round d ∧ last_commit d' = last_commit d ∧
    num_commits_per_schedule ls' = num_commits_per_schedule ls ∧
    committing ls0 (with_schedule ls' d' self) (S k) (past ++ new) (out ++ scored_by ls sds) [] [] ∧
    scoring (with_schedule ls' d' self) (past ++ new) [] [].
Proof.
  intros Hflag [Hun Hcount Hfull Hrange] Hn. pose proof (core_scoring_ok Hflag) as Hsl.
  pose proof (sl_commits _ _ Hsl) as Hn2.
  assert (Hne : new ≠ []) by (intros ->; simpl in Hn; lia).
  destruct (update_leader_schedule_Ok byz genesis_refs d ls past new sds) as (ls' & info & Hup & Hcs' & Hresc & Htok & Hrg');
    [apply Hck|apply Hck|apply Hck|apply period_recorded|done|by rewrite core_ls_context|done|done|lia|done|
     apply history_past|].
  simpl in Hup. destruct (last new) as [c0|] eqn:Hl; [|by apply last_None in Hl].
  assert (Hlast : last (past ++ new) = Some c0).
  { apply last_Some in Hl as [new' ->]. by rewrite app_assoc, last_snoc. }
  assert (Hls' : ls' = set_swap_table (leader_swap_table ls') ls).
  { destruct Hresc as (? & ? & ? & t & _ & _ & _ & _ & ->). done. }
  eexists ls', _. split; [exact Hup|].
  split_and!; try done; [by rewrite Hls'| |].
  2:{ split; simpl; [done|lia|intros c' Hz; rewrite Hls' in Hz; simpl in Hz; lia|]. rewrite Hrg'. by rewrite Hls'. }
  split; simpl; rewrite ?app_nil_r; try apply Hck.
  - by apply dag_ok_info, Hck.
  - done.
  - split.
    + rewrite Hls'. simpl. apply Hck.
    + rewrite <-(ck_context _ _ _ _ _ _ _ Hck), <-core_ls_context. done.
    + intros _. rewrite core_ls_context, (ck_context _ _ _ _ _ _ _ Hck) in Hsl. rewrite Hls'. by destruct Hsl.
  - eapply position_change; [apply Hck|rewrite length_app; lia|done|]. by apply Hfull.
  - econstructor; [apply Hck|apply Hck|lia|done].
  - apply period_start. unfold starts_at. rewrite Hlast. symmetry. by apply Hfull.
Qed.
End step.
End committing.
