(* ===== verification/CoreCommit.v ===== *)
(** Committing in the core ([consensus/core/src/core.rs], [try_commit]): it preserves the invariant
    of the core, never panics, and stops only when nothing more can be committed; and the commits
    of two validators extend each other over all their leader schedules. *)

From stdpp Require Import base strings numbers sorting gmap sets relations list.
From S2P Require Import Prelude Committee Block Dag StakeAggregator ThresholdClock Commit BlockVerifier Store DagState DagStateFacts Recovery BlockManager DagReader BaseCommitter Votes Decisions UniversalCommitter Agreement Sequence Linearizer Linearization TotalOrder LeaderScoring LeaderScoringFacts LeaderSchedule LeaderScheduleFacts Slots Periods History TransactionConsumer CommitObserver Core CoreInvariant.

Open Scope N_scope.

Section committing.
Context {St : Type} `{StoreSpec St} `{Crypto, BlockVerifier} `{CommitSerializer} `{RandSpec}.
Context {byz : gset AuthorityIndex} {genesis_refs : gset BlockRef}.
Implicit Types self : Core St.
Abbreviation committing := (committing (byz := byz) (genesis_refs := genesis_refs)).

(** ** Committing *)

(** What committing leaves alone. *)
Record commit_frame self self' : Prop := {
  cf_context : core_context self' = core_context self;
  cf_clock : threshold_clock self' = threshold_clock self;
  cf_consumer : transaction_consumer self' = transaction_consumer self;
  cf_manager : block_manager self' = block_manager self;
  cf_proposed : last_proposed_block self' = last_proposed_block self;
  cf_included : last_included_ancestors self' = last_included_ancestors self;
  cf_signals : signals self' = signals self;
  cf_signer : block_signer self' = block_signer self;
  cf_acknowledged : acknowledged self' = acknowledged self;
  cf_view : dag_view (dag_state self') = dag_view (dag_state self);
  cf_highest : highest_accepted_round (dag_state self') = highest_accepted_round (dag_state self);
  cf_commits : num_commits_per_schedule (leader_schedule self') = num_commits_per_schedule (leader_schedule self);
}.

Lemma commit_frame_refl self : commit_frame self self.
Proof. by split. Qed.

Lemma commit_frame_trans self1 self2 self3 :
  commit_frame self1 self2 → commit_frame self2 self3 → commit_frame self1 self3.
Proof. intros [] []. split; congruence. Qed.

(** The observer sends all the sub-dags, or its receiver was dropped. *)
Lemma send_outcome obs scores sds res obs' :
  send_sub_dags obs scores [] sds = (res, obs') →
  (res = RustOk ((λ sd, update_scores sd scores) <$> sds) ∧
   sender_sent obs' = sender_sent obs ++ ((λ sd, update_scores sd scores) <$> sds) ∧
   (receiver_takes obs = None → receiver_takes obs' = None)) ∨
  (res = RustErr Shutdown ∧ receiver_takes obs ≠ None).
Proof.
  intros Hs. destruct (receiver_takes obs) as [n|] eqn:Hr.
  - destruct (send_sub_dags_dropped obs scores [] sds n Hr) as [m Hm]. rewrite Hs in Hm. simplify_eq.
    case_bool_decide as Hle; [left|by right]. split_and!; [done| |done]. simpl.
    by rewrite take_ge by (rewrite length_fmap; lia).
  - rewrite send_sub_dags_open in Hs by done. simplify_eq. by left.
Qed.

(** Committing the decided leaders [l], up to the slot [ld']. *)
Lemma commit_decided ls0 self k past out sds new (l : list DecidedLeader) post ld' :
  serializes → committing ls0 self k past out sds new →
  justified_list (committee (context (dag_state self))) (dag_view (dag_state self))
    (live_slots (elected_by (leader_schedule self)) (last_decided_leader self)
       (highest_accepted_round (dag_state self) - 2)) ((decided_status <$> l) ++ post) →
  last (decided_leader_slot <$> l) = Some ld' →
  ∃ res self', core_handle_commit (with_decided ld' self) (omap into_committed_block l) = Ok (res, self') ∧
    leader_schedule self' = leader_schedule self ∧ last_decided_leader self' = ld' ∧
    unscored_committed_subdags (dag_state self') = unscored_committed_subdags (dag_state self) ∧
    match res with
    | RustErr e => e = Shutdown ∧ receiver_takes (commit_observer self) ≠ None
    | RustOk sds1 => ∃ sds' new', sds1 = scored_by (leader_schedule self) sds' ∧
        committing ls0 self' k past out (sds ++ sds') (new ++ new') ∧ commit_frame self self' ∧
        commit_slot <$> new' = vb_slot <$> omap into_committed_block l ∧
        length sds' = length (omap into_committed_block l) ∧
        sender_sent (commit_observer self') = sender_sent (commit_observer self) ++ sds1 ∧
        (receiver_takes (commit_observer self) = None → receiver_takes (commit_observer self') = None)
    end.
Proof.
  intros Hser Hck Hj Hlast.
  destruct (handle_decided ls0 self k past out sds new Hser Hck l post Hj ld' Hlast)
    as (sds' & d' & new' & Hh & (Hctx & Hhi & Hun) & Hv & Hslots & Hlen & Hcommit).
  unfold core_handle_commit, observer_handle_commit. simpl. rewrite Hh. simpl.
  destruct (send_sub_dags _ _ [] sds') as [res obs'] eqn:Hsend. eexists res, _. split; [done|]. simpl.
  split_and!; [done..|]. apply send_outcome in Hsend as [(-> & Hsent & Hopen)|[-> Hr]]; [|done].
  exists sds', new'. pose proof (Hcommit obs' Hsent) as Hck'. by split_and!.
Qed.

(** ** The loop of [try_commit] *)

Lemma unscored_count ls0 self k past out sds new :
  committing ls0 self k past out sds new → scoring self past sds new →
  commits_until_leader_schedule_update (leader_schedule self) (dag_state self) =
    Ok (num_commits_per_schedule (leader_schedule self) - N.of_nat (length new)).
Proof.
  intros Hck [Hun Hcount _ _]. unfold commits_until_leader_schedule_update, unscored_committed_subdags_count.
  rewrite Hun. unfold scored_by. rewrite length_fmap, (period_length _ _ _ _ _ _ (ck_period _ _ _ _ _ _ _ Hck)).
  by rewrite (proj2 (N.leb_le _ _)).
Qed.

Lemma commits_until_update_Ok ls0 self k past out sds new :
  serializes → mysticeti_leader_scoring_and_schedule (core_context self) = true →
  committing ls0 self k past out sds new → scoring self past sds new →
  ∃ until self' k' past' out' sds' new', commits_until_update self = Ok (until, self') ∧
    committing ls0 self' k' past' out' sds' new' ∧ scoring self' past' sds' new' ∧
    past' ++ new' = past ++ new ∧ 0 < until ∧
    until = num_commits_per_schedule (leader_schedule self') - N.of_nat (length new') ∧
    commit_frame self self' ∧ commit_observer self' = commit_observer self.
Proof.
  intros Hser Hflag Hck Hsr. unfold commits_until_update. rewrite (unscored_count ls0 self k past out sds new) by done.
  cbn [mbind outcome_bind]. destruct (N.eqb_spec (num_commits_per_schedule (leader_schedule self) - N.of_nat (length new)) 0)
    as [Hz|Hnz].
  - destruct (change_schedule ls0 self k past out sds new Hser Hck Hflag Hsr)
      as (ls' & d' & -> & Hv & Hhi & _ & Hn & Hck' & Hsr'); [pose proof (sr_count _ _ _ _ Hsr); lia|].
    cbn [mbind outcome_bind]. rewrite (unscored_count _ _ _ _ _ _ _ Hck' Hsr'). cbn [mbind outcome_bind].
    pose proof (core_scoring_ok ls0 self k past out sds new Hck Hflag) as [Hn2 _ _ _].
    eexists _, _, _, _, _, _, _. split; [done|]. split; [exact Hck'|]. split; [done|]. rewrite app_nil_r. simpl.
    split_and!; [done|lia|done| |done]. by split.
  - eexists _, self, k, past, out, sds, new. split; [done|]. split_and!; try done; lia.
Qed.

(** The decided leaders up to the last of the first [n] that commit. *)
Lemma truncate_decided (l : list DecidedLeader) n b :
  last (take n (omap into_committed_block l)) = Some b →
  ∃ l1 l2, l = l1 ++ l2 ∧ omap into_committed_block l1 = take n (omap into_committed_block l) ∧
    last (decided_leader_slot <$> l1) = Some (vb_slot b).
Proof.
  revert n. induction l as [|dl l IH]; intros n Hl; [by destruct n|].
  destruct dl as [b0|s]; cbn [omap list_omap into_committed_block] in *.
  - destruct n as [|n]; [done|]. cbn [take] in *.
    destruct (take n (omap into_committed_block l)) as [|b1 bs] eqn:Ht.
    + injection Hl as <-. by exists [DLCommit b0], l.
    + rewrite last_cons_cons, <-Ht in Hl. destruct (IH n Hl) as (l1 & l2 & -> & Ho & Hlast).
      exists (DLCommit b0 :: l1), l2. split_and!; [done|by rewrite <-Ht, <-Ho|].
      rewrite fmap_cons. by destruct l1.
  - destruct (IH n Hl) as (l1 & l2 & -> & Ho & Hlast). exists (DLSkip s :: l1), l2.
    split_and!; [done..|]. rewrite fmap_cons. by destruct l1.
Qed.

(** Deciding slots without a commit. *)
Lemma skip_decided ls0 self k past out sds new (l : list DecidedLeader) post ld' :
  serializes → committing ls0 self k past out sds new →
  justified_list (committee (context (dag_state self))) (dag_view (dag_state self))
    (live_slots (elected_by (leader_schedule self)) (last_decided_leader self)
       (highest_accepted_round (dag_state self) - 2)) ((decided_status <$> l) ++ post) →
  last (decided_leader_slot <$> l) = Some ld' → omap into_committed_block l = [] →
  committing ls0 (with_decided ld' self) k past out sds new.
Proof.
  intros Hser Hck Hj Hlast Hnone.
  destruct (handle_decided ls0 self k past out sds new Hser Hck l post Hj ld' Hlast)
    as (sds' & d' & new' & Hh & _ & _ & Hslots & Hlen & Hcommit).
  rewrite Hnone in Hh, Hslots, Hlen. injection Hh as <- <-. apply fmap_nil_inv in Hslots as ->.
  specialize (Hcommit (commit_observer self)). rewrite !app_nil_r in Hcommit. by apply Hcommit.
Qed.

(** Adding the sub-dags to those to score. *)
Lemma committing_unscored ls0 self k past out sds new unscored :
  committing ls0 self k past out sds new →
  committing ls0 (with_output (commit_observer self) (set_unscored unscored (dag_state self)) self) k past out sds new.
Proof.
  intros Hck. split; simpl; try apply Hck.
  - destruct (ck_dag _ _ _ _ _ _ _ Hck) as [Hwf HC Hb Hh Hz Hr].
    split; [|exact HC|exact Hb|exact Hh|exact Hz|exact Hr]. destruct Hwf. split; assumption.
  - destruct (ck_commits _ _ _ _ _ _ _ Hck) as [Hi Hb Hl Hs Hr Hok Hinfo Hw]. split; try done.
    intros c' Hc'. by destruct (Hok c' Hc').
Qed.

(** The leaders that are committed under the schedule, of which [until] are left. *)
Lemma choose_leaders self (l : list DecidedLeader) last_decided until :
  last l = Some last_decided → 0 < until →
  let leaders := omap into_committed_block l in
  ∃ l1 l2 ld', l = l1 ++ l2 ∧ last (decided_leader_slot <$> l1) = Some ld' ∧
    N.of_nat (length (omap into_committed_block l1)) ≤ until ∧
    (N.of_nat (length (omap into_committed_block l1)) = until →
       ∃ b, last (omap into_committed_block l1) = Some b ∧ vb_slot b = ld') ∧
    (l2 = [] ∨ omap into_committed_block l1 ≠ []) ∧
    (if until <=? N.of_nat (length leaders) then
       let leaders := take (N.to_nat until) leaders in
       last_leader ← expect (last leaders) "called `Option::unwrap()` on a `None` value";
       Ok (leaders, with_decided (vb_slot last_leader) self)
     else Ok (leaders, with_decided (decided_leader_slot last_decided) self)) =
      Ok (omap into_committed_block l1, with_decided ld' self).
Proof.
  intros Hlast Hu leaders. destruct (N.leb_spec until (N.of_nat (length leaders))) as [Hle|Hlt].
  - destruct (last (take (N.to_nat until) leaders)) as [b|] eqn:Hb.
    2:{ apply last_None in Hb. apply (f_equal length) in Hb. rewrite length_take in Hb. simpl in Hb. lia. }
    destruct (truncate_decided l (N.to_nat until) b Hb) as (l1 & l2 & -> & Ho & Hld).
    exists l1, l2, (vb_slot b). fold leaders in Ho. rewrite Ho. cbv zeta. rewrite Hb. rewrite length_take.
    split_and!; try done; [lia|by exists b|]. right. intros Hz. by rewrite Hz in Hb.
  - exists l, [], (decided_leader_slot last_decided). fold leaders. rewrite app_nil_r.
    split_and!; try done; [by rewrite fmap_last, Hlast|lia|lia|by left].
Qed.

(** The state of the loop: what was committed since the start. *)
Definition loop_inv ls0 self0 (cs0 : list TrustedCommit) (st : list CommittedSubDag * Core St) : Prop :=
  ∃ k past out sds new more, committing ls0 st.2 k past out sds new ∧ scoring st.2 past sds new ∧
    past ++ new = cs0 ++ more ∧ length more = length st.1 ∧ commit_frame self0 st.2 ∧
    sender_sent (commit_observer st.2) = sender_sent (commit_observer self0) ++ st.1 ∧
    (receiver_takes (commit_observer self0) = None → receiver_takes (commit_observer st.2) = None).

(** The loop leaves when no leader is decided to commit, or the receiver was dropped. *)
Definition loop_result ls0 self0 cs0 (p : ConsensusResult (list CommittedSubDag) * Core St) : Prop :=
  match p.1 with
  | RustErr e => e = Shutdown ∧ receiver_takes (commit_observer self0) ≠ None
  | RustOk sds => loop_inv ls0 self0 cs0 (sds, p.2) ∧
      ∃ slot l, try_decide (core_committer p.2) slot = Ok l ∧ omap into_committed_block l = [] ∧
        last_decided_leader p.2 = default slot (last (decided_leader_slot <$> l))
  end.

Lemma step_last_index ls0 self k past out sds new :
  committing ls0 self k past out sds new → last_commit_index (dag_state self) = N.of_nat (length (past ++ new)).
Proof. intros Hck. apply last_commit_index_length, Hck. Qed.

(** The sub-dags of the commits are kept to be scored. *)
Lemma scoring_extend self self' past sds new sds' new' (leaders : list VerifiedBlock) :
  scoring self past sds new → leader_schedule self' = leader_schedule self →
  unscored_committed_subdags (dag_state self') = unscored_committed_subdags (dag_state self) ++ scored_by (leader_schedule self) sds' →
  commit_slot <$> new' = vb_slot <$> leaders →
  N.of_nat (length leaders) ≤ num_commits_per_schedule (leader_schedule self) - N.of_nat (length new) →
  (N.of_nat (length leaders) = num_commits_per_schedule (leader_schedule self) - N.of_nat (length new) →
     ∃ b, last leaders = Some b ∧ vb_slot b = last_decided_leader self') →
  scoring self' past (sds ++ sds') (new ++ new').
Proof.
  intros [Hun Hcount _ Hrange] Hls Hun' Hslots Hle Hfull.
  assert (length new' = length leaders) as Hlen by by rewrite <-(length_fmap commit_slot), Hslots, length_fmap.
  split; rewrite ?Hls; try done.
  - rewrite Hun', Hun. unfold scored_by. by rewrite fmap_app.
  - rewrite length_app. lia.
  - intros c Hn Hlast. rewrite length_app in Hn. destruct Hfull as (b & Hb & <-); [lia|].
    apply last_Some in Hb as [ls1 ->]. destruct new' as [|c' new' _] using rev_ind.
    { rewrite length_app in Hlen. simpl in Hlen. lia. }
    rewrite app_assoc, last_snoc in Hlast. injection Hlast as ->. rewrite !fmap_app in Hslots.
    apply app_inj_2 in Hslots as [_ Hs]; [|done].
    change ([commit_slot c] = [vb_slot b]) in Hs. congruence.
Qed.

(** Committing leaders in an iteration. *)
Lemma step_commit ls0 self0 cs0 acc self (l : list DecidedLeader) post ld' :
  serializes → loop_inv ls0 self0 cs0 (acc, self) →
  justified_list (committee (context (dag_state self))) (dag_view (dag_state self))
    (live_slots (elected_by (leader_schedule self)) (last_decided_leader self)
       (highest_accepted_round (dag_state self) - 2)) ((decided_status <$> l) ++ post) →
  last (decided_leader_slot <$> l) = Some ld' → omap into_committed_block l ≠ [] →
  let left := num_commits_per_schedule (leader_schedule self) - unscored_committed_subdags_count (dag_state self) in
  N.of_nat (length (omap into_committed_block l)) ≤ left →
  (N.of_nat (length (omap into_committed_block l)) = left →
     ∃ b, last (omap into_committed_block l) = Some b ∧ vb_slot b = ld') →
  ∃ res self', core_handle_commit (with_decided ld' self) (omap into_committed_block l) = Ok (res, self') ∧
    match res with
    | RustErr e => e = Shutdown ∧ receiver_takes (commit_observer self0) ≠ None
    | RustOk subdags =>
        let self' := with_output (commit_observer self') (add_unscored_committed_subdags (dag_state self') subdags) self' in
        loop_inv ls0 self0 cs0 (acc ++ subdags, self') ∧
        last_commit_index (dag_state self) < last_commit_index (dag_state self') < U32_MAX
    end.
Proof.
  intros Hser (k & past & out & sds & new & more & Hck & Hsr & Hcs & Hmore & Hfr & Hsent & Hrecv) Hj Hld Hne left Hle Hfull.
  simpl in *. assert (left = num_commits_per_schedule (leader_schedule self) - N.of_nat (length new)) as Hleft.
  { unfold left, unscored_committed_subdags_count. rewrite (sr_unscored _ _ _ _ Hsr). unfold scored_by.
    by rewrite length_fmap, (period_length _ _ _ _ _ _ (ck_period _ _ _ _ _ _ _ Hck)). }
  destruct (commit_decided ls0 self k past out sds new l post ld' Hser Hck Hj Hld)
    as (res & self' & Hh & Hls & Hld' & Hun & Hres).
  exists res, self'. split; [done|]. destruct res as [subdags|e].
  2:{ destruct Hres as [-> Hr]. split; [done|]. intros Hz. by apply Hr, Hrecv. }
  destruct Hres as (sds' & new' & -> & Hck' & Hfr' & Hslots & Hlen & Hsent' & Hrecv').
  assert (Hlen' : length new' = length (omap into_committed_block l)).
  { by rewrite <-(length_fmap commit_slot), Hslots, length_fmap. }
  pose proof (committing_unscored _ _ _ _ _ _ _ (unscored_committed_subdags (dag_state self') ++
    scored_by (leader_schedule self) sds') Hck') as Hck''. split.
  - exists k, past, out, (sds ++ sds'), (new ++ new'), (more ++ new'). simpl. split_and!; try done.
    + eapply (scoring_extend self); try done; simpl; [by rewrite Hun|lia|]. intros Hz. rewrite Hld'. apply Hfull. lia.
    + by rewrite !app_assoc, Hcs.
    + unfold scored_by. rewrite !length_app, length_fmap. lia.
    + pose proof (commit_frame_trans _ _ _ Hfr Hfr') as []. by split.
    + by rewrite Hsent', Hsent, app_assoc.
    + intros Hz. by apply Hrecv', Hrecv.
  - change (last_commit_index (dag_state self) < last_commit_index (dag_state self') < U32_MAX).
    rewrite (step_last_index _ _ _ _ _ _ _ Hck), (step_last_index _ _ _ _ _ _ _ Hck').
    pose proof (cw_bound _ _ (ck_commits _ _ _ _ _ _ _ Hck')) as Hb. rewrite !length_app in *.
    assert (length (omap into_committed_block l) ≠ 0%nat) by by destruct (omap into_committed_block l). lia.
Qed.

(** After the schedule was updated, if it had to be. *)
Lemma loop_update ls0 self0 cs0 acc self :
  serializes → mysticeti_leader_scoring_and_schedule (core_context self0) = true → loop_inv ls0 self0 cs0 (acc, self) →
  ∃ until self', commits_until_update self = Ok (until, self') ∧ loop_inv ls0 self0 cs0 (acc, self') ∧ 0 < until ∧
    until = num_commits_per_schedule (leader_schedule self') - unscored_committed_subdags_count (dag_state self') ∧
    last_commit_index (dag_state self') = last_commit_index (dag_state self).
Proof.
  intros Hser Hflag (k & past & out & sds & new & more & Hck & Hsr & Hcs & Hmore & Hfr & Hsent & Hrecv). simpl in *.
  rewrite <-(cf_context _ _ Hfr) in Hflag.
  destruct (commits_until_update_Ok ls0 self k past out sds new Hser Hflag Hck Hsr)
    as (until & self' & k' & past' & out' & sds' & new' & Hcu & Hck' & Hsr' & Hcs' & Hu & Hun & Hfr' & Hobs').
  exists until, self'. split_and!; [done| |done| |].
  - exists k', past', out', sds', new', more. simpl. rewrite Hcs', Hobs'. split_and!; try done.
    by eapply commit_frame_trans.
  - rewrite Hun. unfold unscored_committed_subdags_count. rewrite (sr_unscored _ _ _ _ Hsr'). unfold scored_by.
    by rewrite length_fmap, (period_length _ _ _ _ _ _ (ck_period _ _ _ _ _ _ _ Hck')).
  - by rewrite (step_last_index _ _ _ _ _ _ _ Hck), (step_last_index _ _ _ _ _ _ _ Hck'), Hcs'.
Qed.

Lemma try_commit_step_Ok ls0 self0 cs0 st :
  serializes → mysticeti_leader_scoring_and_schedule (core_context self0) = true → loop_inv ls0 self0 cs0 st →
  ∃ r, try_commit_step st = Ok r ∧
    match r with
    | Continue st' => loop_inv ls0 self0 cs0 st' ∧
        U32_MAX - last_commit_index (dag_state st'.2) < U32_MAX - last_commit_index (dag_state st.2)
    | Break p => loop_result ls0 self0 cs0 p
    end.
Proof.
  intros Hser Hflag Hinv. destruct st as [acc self0']. simpl.
  destruct (loop_update ls0 self0 cs0 acc self0' Hser Hflag Hinv) as (until & self & -> & Hinv1 & Hu & Hun & Hidx).
  clear Hinv. pose proof Hinv1 as (k & past & out & sds & new & more & Hck & Hsr & Hcs & Hmore & Hfr & Hsent & Hrecv).
  cbn [mbind outcome_bind fst snd] in *. rewrite (proj2 (N.ltb_lt _ _) Hu). cbn [assert_ mbind outcome_bind].
  destruct (core_try_decide ls0 self k past out sds new Hck) as (l & post & Hl & Hj). rewrite Hl.
  cbn [mbind outcome_bind]. destruct (last l) as [last_decided|] eqn:Hlast.
  2:{ apply last_None in Hlast as ->. eexists. split; [done|]. split; [exact Hinv1|].
      by exists (last_decided_leader self), []. }
  destruct (choose_leaders self l last_decided until Hlast Hu) as (l1 & l2 & ld' & -> & Hld & Hle & Hfull & Hall & Hch).
  cbv zeta in Hch. rewrite Hch. cbn [mbind outcome_bind]. rewrite fmap_app, <-app_assoc in Hj.
  case_bool_decide as Hnone.
  - destruct Hall as [->|?]; [|done]. rewrite app_nil_r in Hl.
    pose proof (skip_decided _ _ _ _ _ _ _ _ _ _ Hser Hck Hj Hld Hnone) as Hck'.
    eexists. split; [done|]. split; simpl; [|exists (last_decided_leader self), l1; by rewrite Hld].
    exists k, past, out, sds, new, more. split_and!; try done; [|by destruct Hfr; split].
    destruct Hsr as [Hun1 Hc1 Hf1 Hr1]. split; try done. simpl. intros c Hz.
    unfold unscored_committed_subdags_count in Hun. rewrite Hun1 in Hun. unfold scored_by in Hun.
    rewrite length_fmap, (period_length _ _ _ _ _ _ (ck_period _ _ _ _ _ _ _ Hck)) in Hun. lia.
  - destruct (step_commit ls0 self0 cs0 acc self l1 _ ld' Hser Hinv1 Hj Hld Hnone) as (res & self' & -> & Hres);
      [by rewrite <-Hun..|]. cbn [mbind outcome_bind]. destruct res as [subdags|e]; eexists; (split; [done|]); [|done].
    destruct Hres as [Hinv' Hlt]. split; [done|]. simpl in *. rewrite <-Hidx. lia.
Qed.

(** ** [try_commit] *)

(** The core has made the commits [cs], from the first schedule [ls0]. *)
Definition core_ok ls0 self (cs : list TrustedCommit) : Prop :=
  ∃ k past out sds new, cs = past ++ new ∧ committing ls0 self k past out sds new ∧
    if mysticeti_leader_scoring_and_schedule (core_context self) then scoring self past sds new else k = 0%nat.

(** Before the first commit. *)
Lemma core_ok_start self :
  dag_ok byz genesis_refs (dag_state self) → commits_wf (dag_state self) [] →
  context (dag_state self) = core_context self → committer_options self = pipeline_options →
  schedule_ok (core_context self) (leader_schedule self) →
  slot_round (last_decided_leader self) = GENESIS_ROUND → sender_sent (commit_observer self) = [] →
  (mysticeti_leader_scoring_and_schedule (core_context self) = true →
     unscored_committed_subdags (dag_state self) = [] ∧
     scores_commit_range (table_reputation_scores (leader_swap_table (leader_schedule self))) = mkCommitRange 0 0) →
  core_ok (leader_schedule self) self [].
Proof.
  intros Hd Hcs Hctx Hopt Hls Hld Hsent Hsc. exists 0%nat, [], [], [], []. split; [done|]. split.
  - split; simpl; try done.
    + apply commits_ordered_nil.
    + rewrite Hld. apply N.le_0_l.
    + apply position_start.
    + constructor.
    + by apply period_start.
  - destruct (mysticeti_leader_scoring_and_schedule _) eqn:Hflag; [|done]. destruct (Hsc eq_refl) as [Hun Hr].
    split; simpl; try done. apply N.le_0_l.
Qed.

Lemma with_output_same self : with_output (commit_observer self) (dag_state self) self = self.
Proof. by destruct self. Qed.

(** What [try_commit] returns. *)
Definition committed_result ls0 self (cs : list TrustedCommit)
    (p : ConsensusResult (list CommittedSubDag) * Core St) : Prop :=
  match p.1 with
  | RustErr e => e = Shutdown ∧ receiver_takes (commit_observer self) ≠ None
  | RustOk sds => ∃ more, core_ok ls0 p.2 (cs ++ more) ∧ length more = length sds ∧ commit_frame self p.2 ∧
      sender_sent (commit_observer p.2) = sender_sent (commit_observer self) ++ sds ∧
      (receiver_takes (commit_observer self) = None → receiver_takes (commit_observer p.2) = None)
  end.

Lemma try_commit_unscored_Ok ls0 self cs :
  serializes → mysticeti_leader_scoring_and_schedule (core_context self) = false → core_ok ls0 self cs →
  ∃ p, try_commit_unscored self = Ok p ∧ committed_result ls0 self cs p.
Proof.
  intros Hser Hflag (k & past & out & sds & new & -> & Hck & Hk). rewrite Hflag in Hk.
  unfold try_commit_unscored. destruct (core_try_decide ls0 self k past out sds new Hck) as (l & post & -> & Hj).
  cbn [mbind outcome_bind]. destruct (last l) as [dl|] eqn:Hlast.
  - assert (Hld : last (decided_leader_slot <$> l) = Some (decided_leader_slot dl)) by by rewrite fmap_last, Hlast.
    destruct (commit_decided ls0 self k past out sds new l post _ Hser Hck Hj Hld) as (res & self' & -> & _ & _ & _ & Hres).
    exists (res, self'). split; [done|]. unfold committed_result. cbn [fst snd]. destruct res as [sds1|e]; [|done].
    destruct Hres as (sds' & new' & -> & Hck' & Hfr & Hslots & Hlen & Hsent & Hrecv). exists new'. split_and!; try done.
    + exists k, past, out, (sds ++ sds'), (new ++ new'). rewrite (cf_context _ _ Hfr), Hflag, app_assoc. done.
    + unfold scored_by. by rewrite length_fmap, Hlen, <-(length_fmap commit_slot), Hslots, length_fmap.
  - apply last_None in Hlast as ->. unfold core_handle_commit, observer_handle_commit. simpl. rewrite with_output_same.
    exists (RustOk [], self). split; [done|]. exists []. simpl. rewrite !app_nil_r. split_and!; try done.
    exists k, past, out, sds, new. by rewrite Hflag.
Qed.

Lemma try_commit_Ok ls0 self cs :
  serializes → core_ok ls0 self cs →
  ∃ p, try_commit self = Ok p ∧ committed_result ls0 self cs p ∧
    (mysticeti_leader_scoring_and_schedule (core_context self) = true → ∀ sds, p.1 = RustOk sds →
     ∃ slot l, try_decide (core_committer p.2) slot = Ok l ∧ omap into_committed_block l = [] ∧
        last_decided_leader p.2 = default slot (last (decided_leader_slot <$> l))).
Proof.
  intros Hser Hok. unfold try_commit. destruct (mysticeti_leader_scoring_and_schedule (core_context self)) eqn:Hflag; simpl.
  - destruct Hok as (k & past & out & sds & new & -> & Hck & Hsr). rewrite Hflag in Hsr.
    destruct (while_loop_measure (loop_inv ls0 self (past ++ new)) (loop_result ls0 self (past ++ new))
      (λ st, U32_MAX - last_commit_index (dag_state st.2)) try_commit_step ([], self)) as (p & Hp & Hres).
    + intros st Hst. by apply try_commit_step_Ok.
    + exists k, past, out, sds, new, []. simpl. rewrite !app_nil_r. by split_and!.
    + apply N.le_lt_trans with U32_MAX; [apply N.le_sub_l|]. by vm_compute.
    + exists p. split; [done|]. unfold loop_result, committed_result in *. destruct p as [[sds1|e] self']; simpl in *; [|done].
      destruct Hres as [(k' & past' & out' & sds' & new' & more & Hck' & Hsr' & Hcs' & Hlen & Hfr & Hsent & Hrecv) Hfin].
      simpl in *. split; [|by intros _ ? [= <-]]. exists more. split_and!; try done.
      exists k', past', out', sds', new'. by rewrite (cf_context _ _ Hfr), Hflag.
  - destruct (try_commit_unscored_Ok ls0 self cs Hser Hflag Hok) as (p & Hp & Hres). by exists p.
Qed.

(** C4: Committing.  [try_commit] of the core never panics and terminates, with and without
    leader scoring, and keeps the invariant of the core: it makes commits after those it had,
    and has sent their sub-dags, in order, unless the receiver of the output was dropped, which
    it reports.  With leader scoring it changes the schedule as often as needed, and leaves only
    when no further leader is decided to commit. *)
Theorem try_commit_spec ls0 self cs :
  serializes → core_ok ls0 self cs →
  ∃ p, try_commit self = Ok p ∧ committed_result ls0 self cs p ∧
    (mysticeti_leader_scoring_and_schedule (core_context self) = true → ∀ sds, p.1 = RustOk sds →
     ∃ slot l, try_decide (core_committer p.2) slot = Ok l ∧ omap into_committed_block l = [] ∧
        last_decided_leader p.2 = default slot (last (decided_leader_slot <$> l))).
Proof. apply try_commit_Ok. Qed.

(** C38: The rounds of the leaders.  The next decisions of the core are for one slot in each round,
    without a gap, of the authority that the schedule elects there.  They start in the round after
    that of the last decided slot; but when the schedule now elects another authority in that
    round they start in that same round, which may get a second leader.  No round gets a third:
    the rounds of the commits increase from each commit to the one after the next. *)
Theorem decided_rounds ls0 self cs :
  core_ok ls0 self cs →
  let s := last_decided_leader self in
  let e := elected_by (leader_schedule self) in
  (∀ r, ls_elect_leader (leader_schedule self) r 0 = Ok (e r)) ∧
  (∃ l, try_decide (core_committer self) s = Ok l ∧
     ∀ i dl, l !! i = Some dl → decided_leader_slot dl = slot_at e (next_round e s + N.of_nat i)) ∧
  (∀ i c c', cs !! i = Some c → cs !! S (S i) = Some c' → commit_round c < commit_round c').
Proof.
  intros (k & past & out & sds & new & -> & Hck & _) s e. split_and!.
  - intros r. by apply (core_elects _ _ _ _ _ _ _ Hck).
  - destruct (core_try_decide _ _ _ _ _ _ _ Hck) as (l & post & Hl & Hj). exists l. split; [done|]. intros i dl Hi.
    apply (live_slots_lookup _ _ (highest_accepted_round (dag_state self) - 2)).
    eapply prefix_lookup_Some; [|by eapply decided_slots_prefix]. by rewrite list_lookup_fmap, Hi.
  - apply (po_two _ _ _ _ (ck_position _ _ _ _ _ _ _ Hck)).
Qed.

(** One of two validators is not in a later period. *)
Lemma cores_comparable ls01 ls02 self1 self2 k1 k2 past1 past2 out1 out2 sds1 sds2 new1 new2 :
  same_schedule ls01 ls02 → compatible byz (dag_view (dag_state self1)) (dag_view (dag_state self2)) →
  committing ls01 self1 k1 past1 out1 sds1 new1 → committing ls02 self2 k2 past2 out2 sds2 new2 →
  (k1 ≤ k2)%nat → ((k1 < k2)%nat → scoring self1 past1 sds1 new1) →
  (past1 ++ new1 `prefix_of` past2 ++ new2 ∧
     sender_sent (commit_observer self1) `prefix_of` sender_sent (commit_observer self2)) ∨
  (past2 ++ new2 `prefix_of` past1 ++ new1 ∧
     sender_sent (commit_observer self2) `prefix_of` sender_sent (commit_observer self1)).
Proof.
  intros Hs Hcomp Hck1 Hck2 Hk Hsr. pose proof (ck_dag _ _ _ _ _ _ _ Hck1) as Hd1.
  destruct (core_valid _ _ _ _ _ _ _ Hck1) as [HV1 _]. destruct (core_valid _ _ _ _ _ _ _ Hck2) as [HV2 _].
  destruct (history_static _ _ _ _ _ _ (ck_history _ _ _ _ _ _ _ Hck1)) as (Hc1 & Hn1 & _).
  destruct (history_static _ _ _ _ _ _ (ck_history _ _ _ _ _ _ _ Hck2)) as (Hc2 & _).
  rewrite (core_ls_context _ _ _ _ _ _ _ Hck1) in Hc1. rewrite (core_ls_context _ _ _ _ _ _ _ Hck2) in Hc2.
  rewrite Hc2, <-(ss_committee _ _ Hs), <-Hc1 in HV2.
  rewrite (ck_sent _ _ _ _ _ _ _ Hck1), (ck_sent _ _ _ _ _ _ _ Hck2).
  eapply (history_behind (committee (context (dag_state self1))) (core_committee_wf _ _ _ _ _ _ _ Hck1)
    byz (dk_byz _ _ _ Hd1) _ _ HV1 HV2 Hcomp ls01 ls02); try done; try apply Hck1; try apply Hck2.
  - by rewrite <-Hc1.
  - intros Hlt. pose proof (sr_count _ _ _ _ (Hsr Hlt)) as Hle. rewrite Hn1 in Hle. lia.
Qed.

(** Agreement of whole histories.  Two validators with the same first schedule, whose DAGs
    agree on the blocks of honest authorities, have made sequences of commits and output
    sequences of sub-dags of which one extends the other, however their [try_commit] calls were
    interleaved with the growth of their DAGs and however often their schedules changed. *)
Lemma cores_agree ls01 ls02 self1 self2 cs1 cs2 :
  same_schedule ls01 ls02 → compatible byz (dag_view (dag_state self1)) (dag_view (dag_state self2)) →
  mysticeti_leader_scoring_and_schedule (core_context self1) =
    mysticeti_leader_scoring_and_schedule (core_context self2) →
  core_ok ls01 self1 cs1 → core_ok ls02 self2 cs2 →
  (cs1 `prefix_of` cs2 ∧ sender_sent (commit_observer self1) `prefix_of` sender_sent (commit_observer self2)) ∨
  (cs2 `prefix_of` cs1 ∧ sender_sent (commit_observer self2) `prefix_of` sender_sent (commit_observer self1)).
Proof.
  intros Hs Hcomp Hflag (k1 & past1 & out1 & sds1 & new1 & -> & Hck1 & Hsr1)
    (k2 & past2 & out2 & sds2 & new2 & -> & Hck2 & Hsr2). rewrite <-Hflag in Hsr2.
  destruct (decide (k1 ≤ k2)%nat) as [Hle|Hgt].
  - eapply cores_comparable; try done. intros Hlt.
    destruct (mysticeti_leader_scoring_and_schedule _); [done|lia].
  - apply or_comm. eapply (cores_comparable ls02 ls01); try done; [|by apply compatible_sym|lia|].
    + destruct Hs. by split.
    + intros Hlt. destruct (mysticeti_leader_scoring_and_schedule _); [done|lia].
Qed.
End committing.
