(* ===== verification/CoreRun.v ===== *)
(** Runs of the core ([consensus/core/src/core.rs] and [core_thread.rs]): every command that the
    core thread processes keeps the invariant of the core, adds at most one block of its own, in a
    new round, and that block passes verification. *)

From stdpp Require Import base strings numbers sorting gmap sets relations list.
From S2P Require Import Prelude Committee Block Dag StakeAggregator ThresholdClock Commit BlockVerifier Store DagState DagStateFacts Recovery BlockManager BlockManagerFacts DagReader BaseCommitter Votes Decisions UniversalCommitter Agreement Sequence Linearizer Linearization TotalOrder LeaderScoring LeaderScoringFacts LeaderSchedule LeaderScheduleFacts Slots Periods History TransactionConsumer CommitObserver CacheFacts Core CoreInvariant CoreCommit.

Open Scope N_scope.

(** The rounds that a run may use, far from the end of [u32]. *)
Definition round_limit : Round := U32_MAX / 2 - 3.

Lemma round_limit_fits r : r ≤ round_limit → 2 * (r + 3) < U32_MAX.
Proof.
  assert (round_limit = 2147483644 ∧ U32_MAX = 4294967295) as [-> ->] by (split; vm_compute; reflexivity). lia.
Qed.

(** ** The blocks of a run *)

Section world.
Context `{Crypto}.
Context (byz : gset AuthorityIndex) (c : Committee) (G : gmap BlockRef VerifiedBlock).

(** A block that verification accepts, in a round that the run may use. *)
Record block_ok (b : VerifiedBlock) : Prop := {
  bo_valid : block_valid c (dom G) (inner (block b));
  bo_bounds : ref_in_bounds (reference b);
  bo_limit : vb_round b ≤ round_limit;
}.

(** The blocks that exist in the network: digests do not collide, and honest authorities, those
    outside [byz], have one block per round. *)
Record world_ok (W : list VerifiedBlock) : Prop := {
  wo_blocks b : b ∈ W → block_ok b;
  wo_unique b b' : b ∈ W → b' ∈ W → reference b = reference b' → b = b';
  wo_honest b b' : b ∈ W → b' ∈ W → vb_author b = vb_author b' → vb_author b ∉ byz →
    vb_round b = vb_round b' → b = b';
}.

Lemma world_ok_nil : world_ok [].
Proof. by split; intros b; intros; exfalso; eapply not_elem_of_nil. Qed.

(** A new block. *)
Lemma world_ok_cons W b :
  world_ok W → block_ok b →
  (∀ x, x ∈ W → reference x = reference b → x = b) →
  (vb_author b ∉ byz → ∀ x, x ∈ W → vb_author x = vb_author b → vb_round x ≠ vb_round b) →
  world_ok (b :: W).
Proof.
  intros [Hb Hu Hh] Hok Hnew Hround. split.
  - intros x [->|?]%elem_of_cons; auto.
  - intros x y [->|Hx]%elem_of_cons [->|Hy]%elem_of_cons Heq; auto. symmetry. auto.
  - intros x y [->|Hx]%elem_of_cons [->|Hy]%elem_of_cons Ha Hz Hr; auto.
    + by destruct (Hround Hz y Hy).
    + rewrite Ha in Hz. by destruct (Hround Hz x Hx).
Qed.

(** A DAG of these blocks. *)
Definition in_world (W : list VerifiedBlock) (V : dag) : Prop :=
  ∀ r b, V !! r = Some b → reference b = r ∧ (G !! r = Some b ∨ b ∈ W).

Lemma in_world_mono W W' V : W ⊆ W' → in_world W V → in_world W' V.
Proof. intros HW HV r b Hb. destruct (HV r b Hb) as [? [?|?]]; auto. Qed.

(** The genesis blocks: one per authority, in round 0. *)
Record genesis_ok : Prop := {
  gn_round r b : G !! r = Some b → br_round r = GENESIS_ROUND;
  gn_unique r r' b b' : G !! r = Some b → G !! r' = Some b' → br_author r = br_author r' → b = b';
}.

Lemma world_compatible W V1 V2 :
  genesis_ok → world_ok W → in_world W V1 → in_world W V2 → compatible byz V1 V2.
Proof.
  intros [Hg Hgu] [Hb Hu Hh] HV1 HV2.
  assert (Hpos : ∀ b r, G !! reference b = Some r → b ∈ W → False).
  { intros b r Hr%Hg [[_ Hpos _ _] _ _]%Hb. unfold GENESIS_ROUND in Hr. simpl in Hr. unfold vb_round in Hr. lia. }
  split.
  - intros r x y Hx Hy. destruct (HV1 r x Hx) as [Hr Hx'], (HV2 r y Hy) as [Hr' Hy'].
    destruct Hx' as [Hx'|Hx'], Hy' as [Hy'|Hy']; [congruence|..|apply Hu; congruence].
    + exfalso. subst r. apply (Hpos y x); congruence.
    + exfalso. subst r. apply (Hpos x y); congruence.
  - intros x y Hx Hy Ha Hz Hr. destruct (HV1 _ x Hx) as [_ Hx'], (HV2 _ y Hy) as [_ Hy'].
    assert (Hround : ∀ b b', G !! reference b = Some b' → vb_round b = 0) by (intros b b' Hb0%Hg; exact Hb0).
    destruct Hx' as [Hx'|Hx'], Hy' as [Hy'|Hy']; [by eapply Hgu| | |by apply Hh].
    + apply Hround in Hx'. destruct (Hb y Hy') as [[_ Hp _ _] _ _]. unfold vb_round in *. lia.
    + apply Hround in Hy'. destruct (Hb x Hx') as [[_ Hp _ _] _ _]. unfold vb_round in *. lia.
Qed.
End world.

(** The genesis blocks of a DAG state. *)
Lemma genesis_blocks_committee `{Crypto} ctx1 ctx2 :
  committee ctx1 = committee ctx2 → genesis_blocks ctx1 = genesis_blocks ctx2.
Proof. unfold genesis_blocks. by intros ->. Qed.

Section genesis.
Context {St : Type} `{StoreSpec St} `{Crypto}.
Implicit Types d : DagState St.

Lemma genesis_same d1 d2 :
  dag_wf d1 → dag_wf d2 → committee (context d1) = committee (context d2) → genesis d1 = genesis d2.
Proof.
  intros Hwf1 Hwf2 Hc. destruct (wf_genesis _ Hwf1) as (gl1 & Hgl1 & ->).
  destruct (wf_genesis _ Hwf2) as (gl2 & Hgl2 & ->). rewrite (genesis_blocks_committee _ _ Hc) in Hgl1. congruence.
Qed.

Lemma dag_genesis_ok d : dag_wf d → genesis_ok (genesis d).
Proof.
  intros Hwf. split.
  - by intros r b (_ & ? & _)%(genesis_lookup _ _ _ Hwf).
  - intros r r' b b' Hb Hb' Ha. destruct (genesis_lookup d r b Hwf Hb) as (Hr & Hr0 & _).
    destruct (genesis_lookup d r' b' Hwf Hb') as (Hr' & Hr0' & _).
    destruct (wf_genesis _ Hwf) as (gl & Hgl & Hg). rewrite Hg in Hb, Hb'.
    rewrite insert_blocks_lookup in Hb, Hb' by (intros; by eapply genesis_refs_inj).
    destruct Hb as [[Hb _]|[? _]], Hb' as [[Hb' _]|[? _]]; [|by rewrite lookup_empty in *..].
    apply list_elem_of_lookup in Hb as [i Hi]. apply list_elem_of_lookup in Hb' as [j Hj].
    destruct (genesis_blocks_lookup _ _ _ _ Hgl Hi) as (_ & Hai & _).
    destruct (genesis_blocks_lookup _ _ _ _ Hgl Hj) as (_ & Haj & _).
    assert (i = j) as ->; [|congruence]. subst r r'. simpl in Ha. lia.
Qed.
End genesis.

(** The blocks that were broadcast. *)
Abbreviation broadcasts self := (tx_block_broadcast (signals self)).

(** ** Growing DAGs *)

Section run.
Context {St : Type} `{StoreSpec St} `{Crypto, BlockVerifier} `{CommitSerializer} `{RandSpec}.
Context {byz : gset AuthorityIndex} {G : gmap BlockRef VerifiedBlock}.
Implicit Types (d : DagState St) (self : Core St).
Abbreviation dag_ok := (dag_ok byz (dom G)).
Abbreviation core_ok := (core_ok (byz := byz) (genesis_refs := dom G)).
Abbreviation committing := (committing (byz := byz) (genesis_refs := dom G)).

(** The DAG grows and the rest that committing reads stays. *)
Record core_grows self self' : Prop := {
  gr_context : core_context self' = core_context self;
  gr_options : committer_options self' = committer_options self;
  gr_decided : last_decided_leader self' = last_decided_leader self;
  gr_schedule : leader_schedule self' = leader_schedule self;
  gr_observer : commit_observer self' = commit_observer self;
  gr_dag_context : context (dag_state self') = context (dag_state self);
  gr_view : dag_view (dag_state self) ⊆ dag_view (dag_state self');
  gr_highest : highest_accepted_round (dag_state self) ≤ highest_accepted_round (dag_state self');
  gr_unscored : unscored_committed_subdags (dag_state self') = unscored_committed_subdags (dag_state self);
  gr_commits cs : commits_wf (dag_state self) cs → commits_wf (dag_state self') cs;
}.

Lemma core_grows_same self self' :
  core_context self' = core_context self → committer_options self' = committer_options self →
  last_decided_leader self' = last_decided_leader self → leader_schedule self' = leader_schedule self →
  commit_observer self' = commit_observer self → dag_state self' = dag_state self → core_grows self self'.
Proof. intros Hctx Ho Hld Hls Hobs Hd. by split; rewrite ?Hd. Qed.

Lemma core_grows_trans self1 self2 self3 : core_grows self1 self2 → core_grows self2 self3 → core_grows self1 self3.
Proof. intros [] []. split; try congruence; [by etrans|by etrans|eauto]. Qed.

Lemma committing_grows ls0 self self' k past out sds new :
  committing ls0 self k past out sds new → dag_ok (dag_state self') → core_grows self self' →
  committing ls0 self' k past out sds new.
Proof.
  intros Hck Hd' [Hctx Ho Hld Hls Hobs Hdc Hsub Hhi Hun Hcs]. pose proof (ck_dag _ _ _ _ _ _ _ Hck) as Hd.
  pose proof (wf_committee _ (dk_wf _ _ _ Hd)) as Hc.
  destruct (dag_ok_valid _ _ _ Hd) as [HV _]. destruct (dag_ok_valid _ _ _ Hd') as [HV' _]. rewrite Hdc in HV'.
  pose proof (dk_honest _ _ _ Hd') as Hhon. pose proof (core_ls_context _ _ _ _ _ _ _ Hck) as Hlc.
  destruct (history_static _ _ _ _ _ _ (ck_history _ _ _ _ _ _ _ Hck)) as (Hls0 & _).
  split; rewrite ?Hctx, ?Ho, ?Hld, ?Hls, ?Hobs, ?Hdc; try apply Hck; try done.
  - apply Hcs, Hck.
  - etrans; [apply Hck|done].
  - apply (history_mono (committee (context (dag_state self))) Hc byz (dk_byz _ _ _ Hd) (dag_view (dag_state self)));
      try done; [by rewrite <-Hls0, Hlc|apply Hck].
  - apply (period_mono (committee (context (dag_state self))) Hc byz (dk_byz _ _ _ Hd) (dag_view (dag_state self)));
      try done; [by rewrite Hlc|apply Hck].
Qed.

Lemma core_ok_grows ls0 self self' cs :
  core_ok ls0 self cs → dag_ok (dag_state self') → core_grows self self' → core_ok ls0 self' cs.
Proof.
  intros (k & past & out & sds & new & -> & Hck & Hsr) Hd Hgr. exists k, past, out, sds, new.
  split; [done|]. split; [by eapply committing_grows|]. rewrite (gr_context _ _ Hgr).
  destruct (mysticeti_leader_scoring_and_schedule _); [|done].
  destruct Hsr as [Hu Hn Hf Hr]. split; rewrite ?(gr_schedule _ _ Hgr), ?(gr_unscored _ _ Hgr), ?(gr_decided _ _ Hgr); done.
Qed.

(** Accepted blocks do not touch the commits. *)
Lemma grown_commits_wf P d d' cs : dag_grows P d d' → commits_wf d cs → commits_wf d' cs.
Proof.
  intros [Hsub _ Hsame _ _] [Hi Hb Hl Hs Hr Hok Hinfo Hw].
  destruct Hsame as (Hctx & _ & Hlc & Hrounds & _ & _ & Hcw & Hiw & Hst & _).
  split; rewrite ?Hctx, ?Hlc, ?Hrounds, ?Hcw, ?Hiw, ?Hst; try done.
  intros c Hc. destruct (Hok c Hc) as [? Hbl]. split; [done|]. intros r Hr'. destruct (Hbl r Hr') as ([x Hx] & ?).
  split; [|done]. exists x. by eapply lookup_weaken.
Qed.

(** ** The invariant of a run *)

(** The core has blocks of [W] only, [W] has no block of its own above the last one it proposed,
    and that one is in its DAG. *)
Record running (W : list VerifiedBlock) (ls0 : LeaderSchedule) self (cs : list TrustedCommit) : Prop := {
  rn_ok : core_ok ls0 self cs;
  rn_genesis : genesis (dag_state self) = G;
  rn_world : in_world G W (dag_view (dag_state self));
  rn_manager : manager_blocks (λ b, b ∈ W) (block_manager self);
  rn_limit : highest_accepted_round (dag_state self) ≤ round_limit;
  rn_own : own_index (core_context self) < committee_size (committee (core_context self));
  rn_honest : own_index (core_context self) ∉ byz;
  rn_author : vb_author (last_proposed_block self) = own_index (core_context self);
  rn_proposed : dag_view (dag_state self) !! reference (last_proposed_block self) = Some (last_proposed_block self);
  rn_above b : b ∈ W → vb_author b = own_index (core_context self) → vb_round b ≤ last_proposed_round self;
}.

Lemma core_ok_dag ls0 self cs : core_ok ls0 self cs →
  dag_ok (dag_state self) ∧ commits_wf (dag_state self) cs ∧ context (dag_state self) = core_context self.
Proof. intros (k & past & out & sds & new & -> & Hck & _). split_and!; apply Hck. Qed.

(** The DAG of a validator is fine whenever its blocks are. *)
Lemma world_dag_ok W d :
  dag_wf d → dag_closed (dag_view d) → genesis d = G → world_ok byz (committee (context d)) G W →
  in_world G W (dag_view d) → set_stake (committee (context d)) byz < validity_threshold (committee (context d)) →
  highest_accepted_round d ≤ round_limit → dag_ok d.
Proof.
  intros Hwf HC HG HW HV Hbyz Hhi. split; try done.
  - intros r b Hb Hpos. destruct (HV r b Hb) as [_ [Hg|Hin]]; [|by apply HW].
    rewrite <-HG in Hg. apply (genesis_lookup _ _ _ Hwf) in Hg as (_ & Hr & _). unfold GENESIS_ROUND in Hr. lia.
  - eapply world_compatible; try done. rewrite <-HG. by apply dag_genesis_ok.
  - by apply round_limit_fits.
Qed.

Lemma running_dag W ls0 self cs : running W ls0 self cs →
  dag_ok (dag_state self) ∧ context (dag_state self) = core_context self.
Proof. intros Hrn. destruct (core_ok_dag _ _ _ (rn_ok _ _ _ _ Hrn)) as (? & _ & ?). done. Qed.

Lemma block_ok_well_formed c ctx b : committee ctx = c → block_ok c G b → well_formed ctx b.
Proof.
  intros <- [[_ Hpos Ha [_ _ _ Hround _ _]] Hbo _]. split_and!; try done.
Qed.

(** Accepting blocks of a larger world. *)
Lemma running_accept W W' ls0 self cs now blocks bm d' accepted missing :
  running W ls0 self cs → W ⊆ W' → world_ok byz (committee (core_context self)) G W' → Forall (.∈ W') blocks →
  try_accept_blocks now (block_manager self) (dag_state self) blocks = Ok (bm, d', accepted, missing) →
  dag_ok d' ∧ core_grows self (with_blocks bm d' self) ∧ genesis d' = G ∧ in_world G W' (dag_view d') ∧
  manager_blocks (λ b, b ∈ W') bm ∧ highest_accepted_round d' ≤ round_limit.
Proof.
  intros Hrn HWW HW Hbl Hacc. destruct (running_dag _ _ _ _ Hrn) as [Hd Hctx].
  destruct (try_accept_blocks_grows (core_context self) (λ b, b ∈ W')
    (λ b Hb, block_ok_well_formed _ _ b eq_refl (wo_blocks _ _ _ _ HW b Hb))
    now (block_manager self) (dag_state self) blocks bm d' accepted missing) as ([Hwf' Hctx' HC'] & Hbm & Hgr); [|..|done|].
  - split; [apply Hd|done|apply Hd].
  - intros r sb Hsb. by apply HWW, (rn_manager _ _ _ _ Hrn r).
  - done.
  - pose proof Hgr as [Hsub Hnew Hsame Hhi Hbound]. pose proof Hsame as (_ & Hg & _ & _ & Hun & _).
    assert (HG : genesis d' = G) by by rewrite Hg, (rn_genesis _ _ _ _ Hrn).
    assert (Hhi' : highest_accepted_round d' ≤ round_limit).
    { apply Hbound; [apply Hrn|]. intros b Hb. by apply (wo_blocks _ _ _ _ HW) in Hb as [_ _ ?]. }
    assert (HV' : in_world G W' (dag_view d')).
    { intros r b Hb. split; [by eapply view_reference|]. destruct (Hnew r b Hb) as [Hold|?]; [|by right].
      destruct (rn_world _ _ _ _ Hrn r b Hold) as [_ [?|?]]; auto. }
    split_and!; try done.
    + apply (world_dag_ok W'); try done; rewrite Hctx'; [done|]. rewrite <-Hctx. apply Hd.
    + split; simpl; try done; [congruence|]. intros cs'. by eapply grown_commits_wf.
Qed.

(** The clock, the signals, the consumer and what was included are not read by the invariant. *)
Lemma running_same W ls0 self self' cs :
  running W ls0 self cs → core_context self' = core_context self →
  committer_options self' = committer_options self → last_decided_leader self' = last_decided_leader self →
  leader_schedule self' = leader_schedule self → commit_observer self' = commit_observer self →
  dag_state self' = dag_state self → block_manager self' = block_manager self →
  last_proposed_block self' = last_proposed_block self → running W ls0 self' cs.
Proof.
  intros Hrn Hctx Ho Hld Hls Hobs Hd Hbm Hlp. unfold last_proposed_round in *.
  split; unfold last_proposed_round; rewrite ?Hctx, ?Hd, ?Hbm, ?Hlp; try apply Hrn.
  apply (core_ok_grows _ self); [apply Hrn|rewrite Hd; by eapply running_dag|by apply core_grows_same].
Qed.

Lemma running_add_accepted W ls0 self cs accepted self' :
  running W ls0 self cs → add_accepted_blocks self accepted = Ok self' → running W ls0 self' cs.
Proof.
  intros Hrn Ha. unfold add_accepted_blocks in Ha. apply bind_Ok in Ha as ([nr tc] & _ & Ha). injection Ha as <-.
  by apply (running_same _ _ self).
Qed.

(** Committing. *)
Lemma running_commit W ls0 self cs sds self' :
  serializes → running W ls0 self cs → try_commit self = Ok (RustOk sds, self') →
  ∃ more, running W ls0 self' (cs ++ more) ∧ commit_frame self self' ∧
    sender_sent (commit_observer self') = sender_sent (commit_observer self) ++ sds.
Proof.
  intros Hser Hrn Hc. destruct (try_commit_Ok ls0 self cs Hser (rn_ok _ _ _ _ Hrn)) as (p & Hp & Hres & _).
  rewrite Hc in Hp. injection Hp as <-. destruct Hres as (more & Hok & _ & Hfr & Hsent & _). simpl in *.
  exists more. split_and!; [|done..]. destruct (core_ok_dag _ _ _ Hok) as (Hd' & _ & Hctx').
  destruct (running_dag _ _ _ _ Hrn) as [Hd Hctx].
  split; unfold last_proposed_round;
    rewrite ?(cf_context _ _ Hfr), ?(cf_manager _ _ Hfr), ?(cf_proposed _ _ Hfr), ?(cf_view _ _ Hfr), ?(cf_highest _ _ Hfr);
    try apply Hrn; [done|].
  rewrite <-(rn_genesis _ _ _ _ Hrn). apply genesis_same; [apply Hd'|apply Hd|].
  by rewrite Hctx', Hctx, (cf_context _ _ Hfr).
Qed.

(** ** Proposing *)

(** The candidates for ancestors: one per authority, below the round, all in the DAG. *)
Lemma cached_candidates W ls0 self cs clock_round l :
  running W ls0 self cs → clock_round ≤ U32_MAX →
  get_last_cached_block_per_authority (dag_state self) clock_round = Ok l →
  NoDup (vb_author <$> l) ∧
  ∀ b, b ∈ l → dag_view (dag_state self) !! reference b = Some b ∧ vb_round b < clock_round.
Proof.
  intros Hrn Hr Hl. destruct (running_dag _ _ _ _ Hrn) as [Hd Hctx]. pose proof (dk_wf _ _ _ Hd) as Hwf.
  destruct (last_cached_returns _ _ _ Hwf Hr Hl) as [Hpos Hev].
  destruct (last_cached_blocks _ clock_round Hwf Hev) as (l' & Hl' & _ & Hall); [done|].
  rewrite Hl in Hl'. injection Hl' as <-. split.
  - apply NoDup_alt. intros i j a. rewrite !list_lookup_fmap_Some. intros (b & -> & Hb) (b' & Ha & Hb').
    apply Hall in Hb as (_ & Hb & _). apply Hall in Hb' as (_ & Hb' & _). lia.
  - intros b [i Hb]%list_elem_of_lookup. apply Hall in Hb as (? & _ & ? & _). done.
Qed.

Lemma proposed_ancestors W ls0 self cs clock_round ancestors self' :
  running W ls0 self cs → last_proposed_round self < clock_round ≤ U32_MAX →
  ancestors_to_propose self clock_round = Ok (ancestors, self') →
  (∃ included, self' = with_included included self) ∧
  ancestors_valid (committee (core_context self)) (dom G) (own_index (core_context self)) clock_round
    (reference <$> ancestors).
Proof.
  intros Hrn Hr Ha. destruct (running_dag _ _ _ _ Hrn) as [Hd Hctx]. pose proof (dk_wf _ _ _ Hd) as Hwf.
  pose proof (wf_committee _ Hwf) as Hc. rewrite Hctx in Hc.
  unfold ancestors_to_propose in Ha. apply bind_Ok in Ha as (l & Hl & Ha).
  destruct (cached_candidates _ _ _ _ _ _ Hrn (proj2 Hr) Hl) as [Hnd Hall].
  apply bind_Ok in Ha as (_ & _ & Ha). apply bind_Ok in Ha as (others & Ho & Ha).
  destruct (filterM_sublist _ _ _ Ho) as [Hsub Hkeep].
  apply bind_Ok in Ha as (included & _ & Ha). apply bind_Ok in Ha as (quorum & Hq & Ha).
  apply bind_Ok in Ha as (_ & Hreach%assert_Ok & Ha). injection Ha as <- <-. split; [by exists included|].
  set (anc := last_proposed_block self :: others) in *.
  assert (Hin : ∀ b, b ∈ anc → dag_view (dag_state self) !! reference b = Some b ∧ vb_round b < clock_round).
  { intros b [->|Hb]%elem_of_cons; [split; [apply Hrn|apply Hr]|]. apply Hall. by eapply elem_of_sublist. }
  assert (Haut : ∀ b, b ∈ anc → vb_author b < committee_size (committee (core_context self))).
  { intros b [Hb _]%Hin. apply (view_reference _ _ _ Hwf) in Hb as (_ & Hb & _). by rewrite Hctx in Hb. }
  split.
  - exists (reference (last_proposed_block self)), (reference <$> others). split; [done|apply Hrn].
  - rewrite <-list_fmap_compose. unfold anc. rewrite fmap_cons. constructor.
    + simpl. rewrite (rn_author _ _ _ _ Hrn). intros (b & Hb & Hbo)%list_elem_of_fmap. simpl in Hb.
      apply Hkeep in Hbo. unfold to_include in Hbo. rewrite <-Hb, N.eqb_refl in Hbo. done.
    + eapply sublist_NoDup; [exact Hnd|]. by apply (fmap_sublist vb_author).
  - intros r (b & -> & Hb)%list_elem_of_fmap. by apply Haut.
  - intros r (b & -> & Hb)%list_elem_of_fmap. by apply Hin.
  - intros r (b & -> & Hb)%list_elem_of_fmap Hg. apply Hin in Hb as [Hb _].
    rewrite view_genesis, (rn_genesis _ _ _ _ Hrn) in Hb by done. by apply elem_of_dom.
  - set (parents := filter (λ b, vb_round b = clock_round -u32 1) anc) in *.
    destruct (add_votes_wf (T := QuorumThreshold) (committee (core_context self)) aggregator_new (vb_author <$> parents) Hc)
      as (agg & Hagg & Hv & [Hst _]); [by apply aggregator_new_wf| |].
    { intros v (b & -> & [_ Hb]%list_elem_of_filter)%list_elem_of_fmap. by apply Haut. }
    unfold add_votes in Hagg. rewrite foldM_fmap in Hagg. rewrite Hagg in Hq. injection Hq as <-.
    unfold reached_threshold in Hreach. rewrite Hst, Hv in Hreach.
    rewrite <-Hreach. unfold is_threshold, quorum_is_threshold. do 2 f_equal. apply set_eq. intros a.
    change (votes aggregator_new) with (∅ : gset AuthorityIndex). rewrite union_empty_r_L. unfold parent_authors.
    rewrite !elem_of_list_to_set, !list_elem_of_fmap. split.
    + intros (r & -> & [Hr' (b & -> & Hb)%list_elem_of_fmap]%list_elem_of_filter). exists b. split; [done|].
      apply list_elem_of_filter. split; [|done]. simpl in Hr'. rewrite u32_sub_small; unfold U32_MAX in Hr; lia.
    + intros (b & -> & [Hr' Hb]%list_elem_of_filter). exists (reference b). split; [done|].
      apply list_elem_of_filter. split; [|by apply list_elem_of_fmap_2]. simpl.
      rewrite u32_sub_small in Hr' by (unfold U32_MAX in Hr; lia). lia.
Qed.

(** A change of the DAG state that keeps its blocks. *)
Lemma running_view W ls0 self self' cs :
  running W ls0 self cs → core_grows self self' → dag_ok (dag_state self') →
  dag_view (dag_state self') = dag_view (dag_state self) →
  highest_accepted_round (dag_state self') = highest_accepted_round (dag_state self) →
  block_manager self' = block_manager self → last_proposed_block self' = last_proposed_block self →
  running W ls0 self' cs.
Proof.
  intros Hrn Hgr Hd' Hv Hhi Hbm Hlp. destruct (running_dag _ _ _ _ Hrn) as [Hd Hctx].
  split; unfold last_proposed_round; rewrite ?(gr_context _ _ Hgr), ?Hv, ?Hhi, ?Hbm, ?Hlp; try apply Hrn.
  - by eapply core_ok_grows; [apply Hrn|..].
  - rewrite <-(rn_genesis _ _ _ _ Hrn). apply genesis_same; [apply Hd'|apply Hd|].
    by rewrite (gr_dag_context _ _ Hgr).
Qed.

Lemma running_pending W ls0 self cs votes :
  running W ls0 self cs →
  running W ls0 (with_blocks (block_manager self) (set_pending_votes votes (dag_state self)) self) cs.
Proof.
  intros Hrn. destruct (running_dag _ _ _ _ Hrn) as [Hd Hctx]. apply (running_view _ _ self); try done.
  - split; try done. intros cs' [Hi Hb Hl Hs Hr Hok Hinfo Hw]. split; try done. intros c Hc.
    by destruct (Hok c Hc).
  - destruct Hd as [Hwf HC Hb Hh Hz Hr]. split; [|exact HC|exact Hb|exact Hh|exact Hz|exact Hr].
    destruct Hwf. split; assumption.
Qed.

(** A flush of the DAG state. *)
Lemma running_flush W ls0 self cs d' :
  running W ls0 self cs → flush (dag_state self) = Ok d' →
  running W ls0 (with_blocks (block_manager self) d' self) cs ∧ dag_view d' = dag_view (dag_state self).
Proof.
  intros Hrn Hf. destruct (running_dag _ _ _ _ Hrn) as [Hd Hctx]. pose proof (dk_wf _ _ _ Hd) as Hwf.
  destruct (flush_outcome _ Hwf) as (d2 & Hf2 & Hwf' & Hv & _). rewrite Hf in Hf2. injection Hf2 as <-.
  pose proof (flush_frame _ _ Hf) as (Hc' & Hhi & Hun). split; [|done]. apply (running_view _ _ self); try done.
  - split; simpl; try done; [by rewrite Hv|by rewrite Hhi|]. intros cs' Hcs'. exact (proj1 (flush_commits_wf _ _ _ Hwf Hcs' Hf)).
  - by apply (dag_ok_same _ _ (dag_state self)).
Qed.

(** Digests are 32 bytes. *)
Definition digests_bounded : Prop := ∀ bs, blake2b256 bs ≤ DIGEST_MAX.

(** The block that is proposed. *)
Lemma proposed_block_ok W ls0 self cs clock_round ancestors self' now txs cvotes signed serialized :
  digests_bounded → running W ls0 self cs → last_proposed_round self < clock_round ≤ round_limit →
  ancestors_to_propose self clock_round = Ok (ancestors, self') →
  signed_block_new (V1 (mkBlockV1 (epoch (committee (core_context self))) clock_round
    (own_index (core_context self)) now (reference <$> ancestors) txs cvotes [])) (block_signer self) = RustOk signed →
  let b := new_verified signed serialized in
  block_ok (committee (core_context self)) G b ∧ vb_author b = own_index (core_context self) ∧
  vb_round b = clock_round ∧ vb_ancestors b = reference <$> ancestors ∧ vb_timestamp_ms b = now.
Proof.
  intros Hdig Hrn Hr Ha Hs. destruct (running_dag _ _ _ _ Hrn) as [Hd Hctx].
  pose proof (wf_committee _ (dk_wf _ _ _ Hd)) as Hc. rewrite Hctx in Hc.
  assert (Hlim : round_limit ≤ U32_MAX) by by vm_compute.
  destruct (proposed_ancestors W ls0 self cs clock_round ancestors self') as [_ Hanc]; [done|lia|done|].
  unfold signed_block_new, try_ in Hs. destruct (compute_block_signature _ _) as [sg|e]; [|done]. injection Hs as <-.
  split_and!; try done. split; simpl.
  - split; [done|change (0 < clock_round); lia|apply Hrn|done].
  - pose proof (rn_own _ _ _ _ Hrn). pose proof (wf_size _ Hc). split_and!; [change (clock_round ≤ U32_MAX); lia|change (own_index (core_context self) ≤ U32_MAX); lia|apply Hdig].
  - change (clock_round ≤ round_limit). lia.
Qed.

(** A block of its own in a new round extends the world. *)
Lemma propose_world W ls0 self cs b :
  running W ls0 self cs → world_ok byz (committee (core_context self)) G W →
  block_ok (committee (core_context self)) G b → vb_author b = own_index (core_context self) →
  last_proposed_round self < vb_round b → world_ok byz (committee (core_context self)) G (b :: W).
Proof.
  intros Hrn HW Hb Ha Hr. apply world_ok_cons; try done.
  - intros x Hx Heq. exfalso. assert (vb_author x = vb_author b ∧ vb_round x = vb_round b) as [Hxa Hxr].
    { unfold reference in Heq. by injection Heq. }
    pose proof (rn_above _ _ _ _ Hrn x Hx ltac:(congruence)). lia.
  - intros _ x Hx Hxa Hxr. pose proof (rn_above _ _ _ _ Hrn x Hx ltac:(congruence)). lia.
Qed.

(** The ancestors it chose are in its DAG. *)
Lemma proposed_follow W ls0 self cs clock_round ancestors self' now :
  running W ls0 self cs → last_proposed_round self < clock_round ≤ U32_MAX →
  ancestors_to_propose self clock_round = Ok (ancestors, self') →
  forallb (λ block, vb_timestamp_ms block <=? now) ancestors = true →
  ∀ r, r ∈ reference <$> ancestors → ∃ x, dag_view (dag_state self) !! r = Some x ∧ vb_timestamp_ms x ≤ now.
Proof.
  intros Hrn Hr Ha Hts r (x & -> & Hx)%list_elem_of_fmap. exists x. split.
  - unfold ancestors_to_propose in Ha. apply bind_Ok in Ha as (l & Hl & Ha).
    destruct (cached_candidates _ _ _ _ _ _ Hrn (proj2 Hr) Hl) as [_ Hall].
    apply bind_Ok in Ha as (_ & _ & Ha). apply bind_Ok in Ha as (others & Ho & Ha).
    destruct (filterM_sublist _ _ _ Ho) as [Hsub _]. apply bind_Ok in Ha as (? & _ & Ha).
    apply bind_Ok in Ha as (? & _ & Ha). apply bind_Ok in Ha as (? & _ & Ha). injection Ha as <- _.
    apply elem_of_cons in Hx as [->|Hx]; [apply Hrn|]. apply Hall. by eapply elem_of_sublist.
  - rewrite forallb_forall in Hts. apply N.leb_le, Hts. by apply list_elem_of_In.
Qed.

(** The core after its own block was accepted. *)
Lemma running_proposed `{!BlockVerifierSpec} W ls0 self cs b now bm d' accepted missing self' :
  running W ls0 self cs → world_ok byz (committee (core_context self)) G W →
  block_ok (committee (core_context self)) G b → vb_author b = own_index (core_context self) →
  last_proposed_round self < vb_round b → follows (dag_view (dag_state self)) b →
  try_accept_blocks now (block_manager self) (dag_state self) [b] = Ok (bm, d', accepted, missing) → accepted ≠ [] →
  core_context self' = core_context self → committer_options self' = committer_options self →
  last_decided_leader self' = last_decided_leader self → leader_schedule self' = leader_schedule self →
  commit_observer self' = commit_observer self → dag_state self' = d' → block_manager self' = bm →
  last_proposed_block self' = b → running (b :: W) ls0 self' cs.
Proof.
  intros Hrn HW Hb Ha Hr Hfol Hacc Hne Hctx Ho Hld Hls Hobs Hd Hbm Hlp.
  pose proof (propose_world W ls0 self cs b Hrn HW Hb Ha Hr) as HW'.
  destruct (running_accept W (b :: W) ls0 self cs now [b] bm d' accepted missing) as (Hd' & Hgr & HG & HV & Hbm' & Hhi);
    [done|by apply list_subseteq_cons|done|by repeat constructor|done|].
  assert (Hin : dag_view d' !! reference b = Some b).
  { destruct (running_dag _ _ _ _ Hrn) as [Hdag Hc].
    destruct (try_accept_follows (core_context self) (λ x, x ∈ b :: W)
      (λ x Hx, block_ok_well_formed _ _ x eq_refl (wo_blocks _ _ _ _ HW' x Hx))
      now (block_manager self) (dag_state self) b bm d' accepted missing) as [y Hy].
    - split; [apply Hdag|done|apply Hdag].
    - intros r sb Hsb. right. by apply (rn_manager _ _ _ _ Hrn r).
    - left.
    - done.
    - done.
    - done.
    - rewrite Hy. f_equal. destruct (HV _ _ Hy) as [Hry [Hg|Hyw]].
      + exfalso. rewrite <-HG in Hg. apply (genesis_lookup _ _ _ (dk_wf _ _ _ Hd')) in Hg as (_ & Hg & _).
        unfold GENESIS_ROUND in Hg. change (vb_round b = 0) in Hg. lia.
      + apply (wo_unique _ _ _ _ HW'); [done|left|done]. }
  split; unfold last_proposed_round; rewrite ?Hctx, ?Hd, ?Hbm, ?Hlp; try done; try apply Hrn.
  - apply (core_ok_grows _ self); [apply Hrn|by rewrite Hd|].
    eapply core_grows_trans; [exact Hgr|by apply core_grows_same].
  - intros x [->|Hx]%elem_of_cons Hxa; [done|]. pose proof (rn_above _ _ _ _ Hrn x Hx Hxa). lia.
Qed.

Lemma propose_block_running `{!BlockVerifierSpec} W ls0 self cs t clock_round b self' :
  digests_bounded → running W ls0 self cs → world_ok byz (committee (core_context self)) G W →
  last_proposed_round self < clock_round ≤ round_limit → propose_block self t clock_round = Ok (b, self') →
  running (b :: W) ls0 self' cs ∧ world_ok byz (committee (core_context self)) G (b :: W) ∧
  last_proposed_block self' = b ∧ vb_round b = clock_round ∧ vb_author b = own_index (core_context self) ∧
  core_context self' = core_context self ∧ commit_observer self' = commit_observer self.
Proof.
  intros Hdig Hrn HW Hr Hp. assert (Hlim : round_limit ≤ U32_MAX) by by vm_compute.
  unfold propose_block in Hp. apply bind_Ok in Hp as ([ancestors self1] & Ha & Hp).
  apply bind_Ok in Hp as (_ & Hts%assert_Ok & Hp).
  destruct (proposed_ancestors W ls0 self cs clock_round ancestors self1) as [[included ->] _]; [done|lia|done|].
  pose proof (proposed_follow W ls0 self cs clock_round ancestors _ (now_propose t) Hrn ltac:(lia) Ha Hts) as Hfol.
  destruct (next _) as [[transactions acks] consumer] eqn:Hnext. cbn [transaction_consumer with_included] in Hnext.
  destruct (take_commit_votes _ _) as [commit_votes d1] eqn:Htake. cbn [dag_state with_consumer with_included] in Htake.
  injection Htake as _ Hd1.
  destruct (signed_block_new _ _) as [signed|e] eqn:Hsign; [|done].
  destruct (bcs_signed_block signed) as [serialized|e]; [|done].
  cbn [core_context block_signer with_consumer with_included] in Hsign.
  destruct (proposed_block_ok W ls0 self cs clock_round ancestors _ (now_propose t) transactions commit_votes signed serialized
    Hdig Hrn ltac:(lia) Ha Hsign) as (Hb & Hba & Hbr & Hbanc & Hbts).
  set (vb := new_verified signed serialized) in *.
  assert (Hlt : last_proposed_round self < vb_round vb) by (rewrite Hbr; lia).
  pose proof (propose_world W ls0 self cs vb Hrn HW Hb Hba Hlt) as HW'.
  apply bind_Ok in Hp as ([[[bm d] accepted] missing] & Hacc & Hp).
  apply bind_Ok in Hp as (_ & Hlen%assert_Ok & Hp). apply bind_Ok in Hp as (_ & _ & Hp).
  cbn [block_manager with_consumer with_included] in Hacc.
  apply bind_Ok in Hp as (self3 & Hadd & Hp). apply bind_Ok in Hp as (d3 & Hfl & Hp). injection Hp as <- <-.
  unfold add_accepted_blocks in Hadd. apply bind_Ok in Hadd as ([nr tc] & _ & Hadd). injection Hadd as <-.
  subst d1. pose proof (running_pending W ls0 self cs (drop (N.to_nat MAX_COMMIT_VOTES_PER_BLOCK) (pending_commit_votes (dag_state self))) Hrn) as Hrn1.
  pose proof (running_proposed W ls0 _ cs vb (now_accept t) bm d accepted missing
    (with_proposed vb acks (with_blocks bm d self)) Hrn1 HW Hb Hba Hlt) as Hrn2.
  assert (Hrn3 : running (vb :: W) ls0 (with_proposed vb acks (with_blocks bm d self)) cs).
  { apply Hrn2; try done.
    - intros r Hr'. rewrite Hbts. apply Hfol. by rewrite <-Hbanc.
    - intros ->. done. }
  cbn [dag_state with_clock with_blocks] in Hfl.
  destruct (running_flush _ _ _ _ d3 Hrn3 Hfl) as [Hrn4 _].
  split_and!; try done. by apply (running_same _ _ _ _ _ Hrn4).
Qed.

(** ** Commands *)

(** Committing does not touch the last proposed block. *)
Lemma core_handle_commit_proposed self leaders res self' :
  core_handle_commit self leaders = Ok (res, self') → last_proposed_block self' = last_proposed_block self.
Proof.
  unfold core_handle_commit. intros Hh. apply bind_Ok in Hh as ([[r obs] d] & _ & Hh). by injection Hh as <- <-.
Qed.

Lemma commits_until_update_proposed self until self' :
  commits_until_update self = Ok (until, self') → last_proposed_block self' = last_proposed_block self.
Proof.
  unfold commits_until_update. intros Hc. apply bind_Ok in Hc as (u & _ & Hc).
  destruct (u =? 0); [|by injection Hc as <- <-]. apply bind_Ok in Hc as ([ls d] & _ & Hc).
  apply bind_Ok in Hc as (u' & _ & Hc). by injection Hc as <- <-.
Qed.

Lemma try_commit_step_proposed st r :
  try_commit_step st = Ok r →
  last_proposed_block match r with Continue st' => st'.2 | Break p => p.2 end = last_proposed_block st.2.
Proof.
  destruct st as [acc self]. unfold try_commit_step. intros Hs. apply bind_Ok in Hs as ([until self1] & H1' & Hs).
  apply commits_until_update_proposed in H1'. apply bind_Ok in Hs as (_ & _ & Hs). apply bind_Ok in Hs as (l & _ & Hs).
  destruct (last l) as [dl|]; [|by injection Hs as <-]. apply bind_Ok in Hs as ([leaders self2] & H2' & Hs).
  assert (last_proposed_block self2 = last_proposed_block self1) as Heq.
  { destruct (_ <=? _); [apply bind_Ok in H2' as (b & _ & H2')|]; by injection H2' as <- <-. }
  case_bool_decide; [injection Hs as <-; simpl; congruence|].
  apply bind_Ok in Hs as ([res self3] & H3' & Hs). apply core_handle_commit_proposed in H3'.
  destruct res; injection Hs as <-; simpl; congruence.
Qed.

Lemma try_commit_proposed self p :
  try_commit self = Ok p → last_proposed_block p.2 = last_proposed_block self.
Proof.
  unfold try_commit. destruct (negb _).
  - unfold try_commit_unscored. intros Hc. apply bind_Ok in Hc as (l & _ & Hc). destruct p as [res self'].
    apply core_handle_commit_proposed in Hc. simpl. by destruct (last l).
  - intros Hw. refine (while_loop_inv (λ st, last_proposed_block st.2 = last_proposed_block self)
      (λ p, last_proposed_block p.2 = last_proposed_block self) _ _ _ _ _ Hw); [|done].
    intros st r Hst Hs%try_commit_step_proposed. destruct r; congruence.
Qed.

(** The block that a step of the core has proposed. *)
Definition proposed_blocks self self' : list VerifiedBlock :=
  if last_proposed_round self <? last_proposed_round self' then [last_proposed_block self'] else [].

(** A step of the core that returned: the invariant holds in the world with its new block. *)
Record advances (W : list VerifiedBlock) (ls0 : LeaderSchedule) self (cs : list TrustedCommit) self' : Prop := {
  ad_running : ∃ more, running (proposed_blocks self self' ++ W) ls0 self' (cs ++ more);
  ad_world : world_ok byz (committee (core_context self)) G (proposed_blocks self self' ++ W);
  ad_context : core_context self' = core_context self;
  ad_round : last_proposed_round self ≤ last_proposed_round self';
  ad_sent : sender_sent (commit_observer self) `prefix_of` sender_sent (commit_observer self');
  ad_broadcasts b : b ∈ broadcasts self' →
    b ∈ broadcasts self ∨ b = last_proposed_block self' ∧ GENESIS_ROUND < vb_round b;
}.

Lemma proposed_blocks_same self self' : last_proposed_block self' = last_proposed_block self → proposed_blocks self self' = [].
Proof. intros Hp. unfold proposed_blocks, last_proposed_round. by rewrite Hp, N.ltb_irrefl. Qed.

(** A step before which only the DAG, the clock and the like changed. *)
Lemma advances_after W ls0 self self1 self' cs :
  last_proposed_block self1 = last_proposed_block self → core_context self1 = core_context self →
  sender_sent (commit_observer self) `prefix_of` sender_sent (commit_observer self1) →
  broadcasts self1 = broadcasts self → advances W ls0 self1 cs self' → advances W ls0 self cs self'.
Proof.
  intros Hp Hctx Hs Hbc [Hrn HW Hc Hr Hs' Hb]. rewrite Hbc in Hb. unfold proposed_blocks, last_proposed_round in *. rewrite Hp in *. rewrite Hctx in *.
  split; unfold proposed_blocks, last_proposed_round; try done; by etrans.
Qed.

(** Commits before it are kept. *)
Lemma advances_commits W ls0 self cs more self' : advances W ls0 self (cs ++ more) self' → advances W ls0 self cs self'.
Proof. intros [[more' Hrn] HW Hc Hr Hs Hb]. split; try done. exists (more ++ more'). by rewrite app_assoc. Qed.

Lemma running_advances W ls0 self self' cs more :
  running W ls0 self' (cs ++ more) → world_ok byz (committee (core_context self)) G W →
  core_context self' = core_context self → last_proposed_block self' = last_proposed_block self →
  sender_sent (commit_observer self) `prefix_of` sender_sent (commit_observer self') →
  broadcasts self' = broadcasts self → advances W ls0 self cs self'.
Proof.
  intros Hrn HW Hc Hp Hs Hb. pose proof (proposed_blocks_same _ _ Hp) as Hn.
  split; rewrite ?Hn; try done; [by exists more|unfold last_proposed_round; by rewrite Hp|].
  rewrite Hb. by left.
Qed.

(** Only the signal of a new block broadcasts. *)
Lemma add_accepted_broadcasts self accepted self' :
  add_accepted_blocks self accepted = Ok self' → broadcasts self' = broadcasts self.
Proof.
  unfold add_accepted_blocks. intros ([nr tc] & _ & [= <-])%bind_Ok. simpl. by destruct nr.
Qed.

Lemma signal_new_block_broadcasts ctx sig b sig' :
  signal_new_block ctx sig b = RustOk sig' → ∀ x, x ∈ tx_block_broadcast sig' → x ∈ tx_block_broadcast sig ∨ x = b.
Proof.
  unfold signal_new_block. destruct (_ <? _); [|intros [= <-]; by left]. destruct (block_subscribers sig); [|done].
  intros [= <-] x [?|?%list_elem_of_singleton]%elem_of_app; auto.
Qed.

Lemma propose_block_broadcasts self t clock_round b self' :
  propose_block self t clock_round = Ok (b, self') → broadcasts self' = broadcasts self.
Proof.
  unfold propose_block. intros ([ancs self1] & Ha & Hp)%bind_Ok.
  assert (signals self1 = signals self) as Hs1.
  { unfold ancestors_to_propose in Ha. apply bind_Ok in Ha as (l & _ & Ha). apply bind_Ok in Ha as (_ & _ & Ha).
    apply bind_Ok in Ha as (others & _ & Ha). apply bind_Ok in Ha as (inc & _ & Ha).
    apply bind_Ok in Ha as (q & _ & Ha). apply bind_Ok in Ha as (_ & _ & Ha). by injection Ha as _ <-. }
  apply bind_Ok in Hp as (_ & _ & Hp). destruct (next _) as [[txs acks] consumer].
  destruct (take_commit_votes _ _) as [cv d1]. destruct (signed_block_new _ _) as [signed|e]; [|done].
  destruct (bcs_signed_block signed) as [ser|e]; [|done].
  apply bind_Ok in Hp as ([[[bm d] acc] miss] & _ & Hp). apply bind_Ok in Hp as (_ & _ & Hp).
  apply bind_Ok in Hp as (_ & _ & Hp). apply bind_Ok in Hp as (self3 & Hadd%add_accepted_broadcasts & Hp).
  apply bind_Ok in Hp as (d3 & _ & [= _ <-]). simpl. rewrite Hadd. simpl. by rewrite Hs1.
Qed.

Section steps.
Context `{!BlockVerifierSpec}.
Context (Hser : serializes) (Hdig : digests_bounded).

(** A new block is in the current round of the clock, above the last one. *)
Lemma try_new_block_round self t force b self' :
  try_new_block self t force = Ok (Some b, self') →
  last_proposed_block self' = b ∧ vb_round b = get_round (threshold_clock self) ∧
  last_proposed_round self < get_round (threshold_clock self) ∧
  propose_block self t (get_round (threshold_clock self)) = Ok (b, self').
Proof.
  unfold try_new_block. destruct (N.leb_spec (get_round (threshold_clock self)) (last_proposed_round self)); [done|].
  intros Hf. apply bind_Ok in Hf as (ready & _ & Hf). destruct ready; [|done]. simpl in Hf.
  apply bind_Ok in Hf as (leader & _ & Hf). apply bind_Ok in Hf as (_ & _ & Hf).
  apply bind_Ok in Hf as ([b' self1] & Hp & Hf). injection Hf as <- <-.
  split_and!; [..|done|done]; unfold propose_block in Hp;
    apply bind_Ok in Hp as ([ancs self2] & _ & Hp); apply bind_Ok in Hp as (_ & _ & Hp);
    destruct (next _) as [[txs acks] consumer]; destruct (take_commit_votes _ _) as [cv d1];
    destruct (signed_block_new _ _) as [signed|e] eqn:Hs; try done;
    destruct (bcs_signed_block signed) as [ser|e]; try done;
    apply bind_Ok in Hp as ([[[bm d] acc] miss] & _ & Hp); apply bind_Ok in Hp as (_ & _ & Hp);
    apply bind_Ok in Hp as (_ & _ & Hp); apply bind_Ok in Hp as (self3 & _ & Hp);
    apply bind_Ok in Hp as (d3 & _ & Hp); injection Hp as <- <-; [done|].
  unfold signed_block_new, try_ in Hs. destruct (compute_block_signature _ _); [|done]. by injection Hs as <-.
Qed.

Lemma try_propose_advances W ls0 self cs t force res self' :
  running W ls0 self cs → world_ok byz (committee (core_context self)) G W →
  try_propose self t force = Ok (RustOk res, self') → last_proposed_round self' ≤ round_limit →
  advances W ls0 self cs self'.
Proof.
  intros Hrn HW Hp Hlim. unfold try_propose in Hp. apply bind_Ok in Hp as ([[b|] self1] & Hnew & Hp).
  2:{ injection Hp as <- <-. assert (self1 = self) as ->.
      { unfold try_new_block in Hnew. destruct (_ <=? _); [by injection Hnew|].
        apply bind_Ok in Hnew as (ready & _ & Hnew). destruct ready; [|by injection Hnew].
        simpl in Hnew. apply bind_Ok in Hnew as (? & _ & Hnew). apply bind_Ok in Hnew as (? & _ & Hnew).
        by apply bind_Ok in Hnew as ([] & _ & ?). }
      eapply (running_advances _ _ _ _ _ []); [by rewrite app_nil_r|done..]. }
  destruct (try_new_block_round _ _ _ _ _ Hnew) as (Hlp & Hbr & Hlt & Hprop).
  destruct (signal_new_block _ _ _) as [sig|e] eqn:Hsig; [|done].
  unfold try_core in Hp. apply bind_Ok in Hp as ([res1 self2] & Hc & Hp).
  pose proof (try_commit_proposed _ _ Hc) as Hlp2. simpl in Hlp2. destruct res1 as [sds|e]; [|done]. injection Hp as <- <-.
  unfold last_proposed_round in Hlim. rewrite Hlp2, Hlp, Hbr in Hlim.
  destruct (propose_block_running W ls0 self cs t _ b self1 Hdig Hrn HW (conj Hlt Hlim) Hprop)
    as (Hrn1 & HW1 & _ & _ & Hba & Hctx1 & Hobs1).
  assert (Hrn2 : running (b :: W) ls0 (with_clock (threshold_clock self1) sig self1) cs) by by apply (running_same _ _ self1).
  destruct (running_commit _ _ _ _ _ _ Hser Hrn2 Hc) as (more & Hrn3 & Hfr & Hsent).
  assert (Hn : proposed_blocks self self2 = [b]).
  { unfold proposed_blocks, last_proposed_round. rewrite Hlp2, Hlp, Hbr. by rewrite (proj2 (N.ltb_lt _ _)). }
  split; rewrite ?Hn; [by exists more|done|by rewrite (cf_context _ _ Hfr)|..].
  - unfold last_proposed_round in *. rewrite Hlp2, Hlp, Hbr. lia.
  - rewrite Hsent. simpl. rewrite Hobs1. by apply prefix_app_r.
  - intros x Hx. rewrite (cf_signals _ _ Hfr) in Hx. cbn [signals with_clock] in Hx.
    apply (signal_new_block_broadcasts _ _ _ _ Hsig) in Hx as [Hx| ->].
    + left. by rewrite <-(propose_block_broadcasts _ _ _ _ _ Hprop).
    + right. rewrite Hlp2. split; [by rewrite <-Hlp|]. unfold GENESIS_ROUND. lia.
Qed.

Lemma core_add_blocks_advances W ls0 self cs now t blocks res self' :
  running W ls0 self cs → world_ok byz (committee (core_context self)) G W → Forall (.∈ W) blocks →
  core_add_blocks self now t blocks = Ok (RustOk res, self') → last_proposed_round self' ≤ round_limit →
  advances W ls0 self cs self'.
Proof.
  intros Hrn HW Hbl Hf Hlim. unfold core_add_blocks in Hf. apply bind_Ok in Hf as ([[[bm d] acc] miss] & Hacc & Hf).
  destruct (running_accept W W ls0 self cs now blocks bm d acc miss) as (Hd' & Hgr & HG & HV & Hbm & Hhi); [done..|].
  assert (Hrn1 : running W ls0 (with_blocks bm d self) cs).
  { split; try done; try apply Hrn; [by eapply core_ok_grows; [apply Hrn|..]|].
    simpl. eapply lookup_weaken; [apply Hrn|apply Hgr]. }
  case_bool_decide.
  { injection Hf as <- <-. by eapply (running_advances _ _ _ _ _ []); [rewrite app_nil_r|..]. }
  apply bind_Ok in Hf as (self2 & Hadd & Hf). pose proof (running_add_accepted _ _ _ _ _ _ Hrn1 Hadd) as Hrn2.
  unfold add_accepted_blocks in Hadd. apply bind_Ok in Hadd as ([nr tc] & _ & Hadd). injection Hadd as <-.
  unfold try_core in Hf. apply bind_Ok in Hf as ([[sds|e] self3] & Hc & Hf); [|done].
  destruct (running_commit _ _ _ _ _ _ Hser Hrn2 Hc) as (more & Hrn3 & Hfr & Hsent).
  apply bind_Ok in Hf as ([[r|e] self4] & Hp & Hf); [|done]. injection Hf as <- <-.
  apply advances_commits with more. apply (advances_after _ _ _ self3).
  - by rewrite (cf_proposed _ _ Hfr).
  - by rewrite (cf_context _ _ Hfr).
  - rewrite Hsent. by apply prefix_app_r.
  - rewrite (cf_signals _ _ Hfr). simpl. by destruct nr.
  - eapply try_propose_advances; [done|by rewrite (cf_context _ _ Hfr)|done..].
Qed.

Lemma unwrap_core_Ok {A} (m : outcome (ConsensusResult A * Core St)) a self :
  unwrap_core m = Ok (a, self) → m = Ok (RustOk a, self).
Proof.
  unfold unwrap_core. intros Hm. apply bind_Ok in Hm as ([[a'|e] self'] & -> & Hm); [|done]. by injection Hm as <- <-.
Qed.

Lemma core_recover_advances W ls0 self cs now t self' :
  running W ls0 self cs → world_ok byz (committee (core_context self)) G W →
  core_recover self now t = Ok self' → last_proposed_round self' ≤ round_limit →
  advances W ls0 self cs self'.
Proof.
  intros Hrn HW Hf Hlim. unfold core_recover in Hf. apply bind_Ok in Hf as (ancs & _ & Hf).
  apply bind_Ok in Hf as (quorum & _ & Hf). apply bind_Ok in Hf as (self1 & Hadd & Hf).
  pose proof (running_add_accepted _ _ _ _ _ _ Hrn Hadd) as Hrn1.
  unfold add_accepted_blocks in Hadd. apply bind_Ok in Hadd as ([nr tc] & _ & Hadd). injection Hadd as <-.
  apply bind_Ok in Hf as ([sds self2] & Hc%unwrap_core_Ok & Hf).
  destruct (running_commit _ _ _ _ _ _ Hser Hrn1 Hc) as (more & Hrn2 & Hfr & Hsent).
  apply bind_Ok in Hf as ([proposed self3] & Hp%unwrap_core_Ok & Hf).
  assert (Hsame : last_proposed_block self' = last_proposed_block self3 ∧ core_context self' = core_context self3 ∧
    (advances W ls0 self2 (cs ++ more) self3 → advances W ls0 self2 (cs ++ more) self')).
  { destruct proposed; [by injection Hf as <-|]. apply bind_Ok in Hf as (_ & Hpos%assert_Ok & Hf).
    destruct (signal_new_block _ _ _) as [sig|e] eqn:Hsig; [|done]. injection Hf as <-. split_and!; [done..|].
    intros [[m' Hr] Hw Hc' Hround Hs Hb]. split; try done; [exists m'; by apply (running_same _ _ self3)|].
    intros x [Hx| ->]%(signal_new_block_broadcasts _ _ _ _ Hsig); [by apply Hb|right].
    split; [done|]. by apply N.ltb_lt. }
  destruct Hsame as (Hlp & _ & Hadv). unfold last_proposed_round in Hlim. rewrite Hlp in Hlim.
  apply advances_commits with more. apply (advances_after _ _ _ self2).
  - by rewrite (cf_proposed _ _ Hfr).
  - by rewrite (cf_context _ _ Hfr).
  - rewrite Hsent. by apply prefix_app_r.
  - rewrite (cf_signals _ _ Hfr). simpl. by destruct nr.
  - apply Hadv. eapply try_propose_advances; [done|by rewrite (cf_context _ _ Hfr)|done..].
Qed.

(** The blocks that a command delivers. *)
Definition command_blocks (command : CoreThreadCommand) : list VerifiedBlock :=
  match command with AddBlocks blocks _ _ => blocks | _ => [] end.

Lemma run_command_advances W ls0 self cs command res self' :
  running W ls0 self cs → world_ok byz (committee (core_context self)) G W → Forall (.∈ W) (command_blocks command) →
  run_command self command = Ok (RustOk res, self') → last_proposed_round self' ≤ round_limit →
  advances W ls0 self cs self'.
Proof.
  intros Hrn HW Hbl Hf Hlim. destruct command as [blocks now t|round force t|]; simpl in Hf, Hbl.
  - unfold try_core in Hf. apply bind_Ok in Hf as ([[r|e] self1] & Hadd & Hf); [|done]. injection Hf as <- <-.
    by eapply core_add_blocks_advances.
  - unfold try_core in Hf. apply bind_Ok in Hf as ([[r|e] self1] & Hnew & Hf); [|done]. injection Hf as <- <-.
    unfold core_new_block in Hnew. destruct (_ <? _); [by eapply try_propose_advances|].
    injection Hnew as <- <-. by eapply (running_advances _ _ _ _ _ []); [rewrite app_nil_r|..].
  - injection Hf as <- <-. by eapply (running_advances _ _ _ _ _ []); [rewrite app_nil_r|..].
Qed.
End steps.
End run.
