(* ===== verification/AuthorityNode.v ===== *)
(** The start of a validator ([consensus/core/src/authority_node.rs]): the components are built
    over the store, and the core recovers and proposes its first block. *)

From stdpp Require Import base strings numbers sorting gmap sets relations list.
From S2P Require Import Prelude Committee Block Dag StakeAggregator ThresholdClock Commit BlockVerifier Store DagState DagStateFacts Recovery BlockManager BlockManagerFacts DagReader BaseCommitter UniversalCommitter Agreement Linearizer Linearization TransactionConsumer LeaderScoring LeaderScoringFacts LeaderSchedule LeaderScheduleFacts Slots Periods History CommitObserver CacheFacts Core CoreInvariant CoreCommit CoreRun.

Open Scope N_scope.

Section start.
Context {St : Type} `{Store St} `{Crypto, BlockVerifier} `{CommitSerializer} `{Rand}.

(** [AuthorityNode::start], up to the core; [store] is what [RocksDBStore::new] opens, [env] the
    environment variable of the scoring strategy, [sender] the channel of the commit consumer. *)
Definition authority_node_start (env : option string) (context : Context) (store : St)
    (tx_consumer : TransactionConsumer) (sender : CommitObserver) (last_processed_commit_index : CommitIndex)
    (core_signals : CoreSignals) (protocol_keypair : ProtocolKeyPair) (now : BlockTimestampMs) (t : Readings) :
    outcome (Core St) :=
  _ ← assert_ (is_valid_index (committee context) (own_index context))
        "assertion failed: committee.is_valid_index(own_index)";
  dag_state ← dag_state_new context store;
  let block_manager := block_manager_new context in
  leader_schedule ←
    (if mysticeti_leader_scoring_and_schedule context
     then leader_schedule_from_store env context dag_state
     else Ok (leader_schedule_new env context leader_swap_table_default));
  commit_observer ← commit_observer_new sender store leader_schedule last_processed_commit_index;
  core_new context leader_schedule tx_consumer block_manager commit_observer core_signals protocol_keypair
    dag_state now t.
End start.

(** ** The first start *)

Section first_start.
Context {St : Type} `{StoreSpec St} `{Crypto, BlockVerifier} `{!BlockVerifierSpec} `{CommitSerializer} `{RandSpec}.
Context (byz : gset AuthorityIndex) (ctx : Context) (gl : list VerifiedBlock) (s : St).
Context (Hc : committee_wf (committee ctx)) (Hgl : genesis_blocks ctx = Ok gl).
Context (Hcached : 0 < wrap32 (dag_state_cached_rounds ctx)).
Context (Hbyz : set_stake (committee ctx) byz < validity_threshold (committee ctx)).

(** The store is empty. *)
Record store_empty : Prop := {
  se_inv : store_inv s;
  se_blocks : blocks_of s = ∅;
  se_commits : commits_of s = ∅;
  se_info : commit_info_of s = ∅;
}.
Context (Hs : store_empty).

Local Abbreviation G := (insert_blocks gl ∅).
Local Abbreviation d0 := (fresh_state ctx gl s).

Lemma fresh_state_wf : dag_wf d0 ∧ commits_wf d0 [] ∧ dag_view d0 = G.
Proof.
  destruct Hs as [Hinv Hb Hcm Hi]. pose proof (fresh_persisted ctx gl s Hc Hgl Hcached Hinv Hb Hcm Hi) as [Hwf Hcs _ _].
  split_and!; [done..|]. unfold dag_view. simpl. rewrite Hb. by rewrite !(right_id_L ∅ (∪)).
Qed.

Lemma genesis_in_world W : in_world G W (dag_view d0).
Proof.
  destruct fresh_state_wf as (Hwf & _ & Hv). intros r b Hb. split; [by eapply view_reference|]. rewrite Hv in Hb. by left.
Qed.

Lemma fresh_dag_ok W : world_ok byz (committee ctx) G W → dag_ok byz (dom G) d0.
Proof.
  intros HW. destruct fresh_state_wf as (Hwf & _ & Hv). apply (world_dag_ok W); try done.
  - rewrite Hv. split.
    + intros r b Hb. by apply (genesis_lookup d0 r b Hwf).
    + intros r b (_ & Hr & _)%(genesis_lookup d0 r b Hwf) Hpos. unfold GENESIS_ROUND in Hr. lia.
    + intros r b a (_ & _ & Ha & _)%(genesis_lookup d0 r b Hwf) Hin. rewrite Ha in Hin. by apply not_elem_of_nil in Hin.
    + intros r b a (_ & _ & Ha & _)%(genesis_lookup d0 r b Hwf) Hin. rewrite Ha in Hin. by apply not_elem_of_nil in Hin.
  - apply genesis_in_world.
Qed.

(** The last block of the validator is its genesis block. *)
Lemma fresh_last_block a b :
  get_last_block_for_authority d0 a = Ok b →
  vb_author b = a ∧ vb_round b = GENESIS_ROUND ∧ dag_view d0 !! reference b = Some b.
Proof.
  destruct fresh_state_wf as (Hwf & _ & Hv). unfold get_last_block_for_authority. intros Hl.
  apply bind_Ok in Hl as (refs & Hr & Hl). unfold vec_index in Hr. simpl in Hr.
  destruct (replicate _ _ !! _) as [refs'|] eqn:Hrep; [|done]. injection Hr as <-.
  apply lookup_replicate in Hrep as [-> _]. change (bt_last (∅ : gset BlockRef)) with (@None BlockRef) in Hl.
  cbn [genesis fresh_state] in Hl. apply bind_Ok in Hl as ([r b'] & Hh & Hl). injection Hl as ->.
  destruct (filter _ _) as [|p l] eqn:Hfil; [done|]. injection Hh as ->.
  assert (Hin : (r, b) ∈ filter (λ p, br_author p.1 = a) (bt_items G)) by (rewrite Hfil; left).
  apply list_elem_of_filter in Hin as [Ha Hin]. apply elem_of_bt_items in Hin.
  destruct (genesis_lookup d0 r b Hwf Hin) as (Href & Hr0 & _). rewrite Hv, Href.
  simpl in Ha. subst r. done.
Qed.

Lemma fresh_last_leader slot : last_commit_leader d0 = Ok slot → slot_round slot = GENESIS_ROUND.
Proof.
  destruct fresh_state_wf as (Hwf & _ & _). unfold last_commit_leader. simpl. intros Hl.
  apply bind_Ok in Hl as (r & Hr & Hl). injection Hl as <-. destruct (bt_items G) as [|[r' b] l] eqn:Hi; [done|].
  injection Hr as ->. assert (Hin : (r, b) ∈ bt_items G) by (rewrite Hi; left). apply elem_of_bt_items in Hin.
  by apply (genesis_lookup d0 r b Hwf).
Qed.

Lemma core_options_pipelined schedule (d : DagState St) :
  core_committer_options ctx schedule d = Ok pipeline_options.
Proof. reflexivity. Qed.

(** Nothing was sent before. *)
Lemma fresh_observer sender schedule last observer :
  last < U32_MAX → commit_observer_new sender s schedule last = Ok observer → observer = sender.
Proof.
  destruct Hs as [Hinv _ Hcm _]. intros Hlast. unfold commit_observer_new, recover_and_send_commits.
  rewrite store_read_last_commit_spec, Hcm by done.
  assert (bt_last_key_value (∅ : gmap CommitKey TrustedCommit) = None) as -> by reflexivity.
  cbn [fmap option_fmap option_map unwrap_store mbind outcome_bind].
  rewrite store_scan_commits_spec, Hcm; [|done|].
  - cbn [unwrap_store mbind outcome_bind]. assert (bt_items (∅ : gmap CommitKey TrustedCommit) = []) as -> by reflexivity.
    simpl. by intros [= <-].
  - cbn [range_start range_end]. rewrite u32_add_small; unfold U32_MAX in *; lia.
Qed.

(** The first start of an honest validator, in a world without blocks of its own. *)
Lemma first_start_advances W env tx_consumer sender last sig key now t core :
  serializes → digests_bounded →
  own_index ctx ∉ byz → world_ok byz (committee ctx) G W → (∀ b, b ∈ W → vb_author b ≠ own_index ctx) →
  (mysticeti_leader_scoring_and_schedule ctx = true →
     scoring_ok ctx (leader_schedule_new env ctx leader_swap_table_default)) →
  sender_sent sender = [] → last < U32_MAX →
  authority_node_start env ctx s tx_consumer sender last sig key now t = Ok core →
  last_proposed_round core ≤ round_limit →
  ∃ self0, last_proposed_round self0 = GENESIS_ROUND ∧ core_context self0 = ctx ∧ signals self0 = sig ∧
    advances (byz := byz) (G := G) W (leader_schedule_new env ctx leader_swap_table_default) self0 [] core.
Proof.
  intros Hser Hdig Hown HW Hnone Hsc Hsent Hlast Hst Hlim. destruct fresh_state_wf as (Hwf & Hcs & Hv).
  pose proof Hs as [Hinv Hb Hcm Hi]. unfold authority_node_start in Hst.
  apply bind_Ok in Hst as (_ & Hidx%assert_Ok & Hst). unfold is_valid_index in Hidx. apply N.ltb_lt in Hidx.
  rewrite (fresh_dag_state ctx gl s) in Hst by done. cbn [mbind outcome_bind] in Hst.
  apply bind_Ok in Hst as (schedule & Hsched & Hst).
  assert (schedule = leader_schedule_new env ctx leader_swap_table_default) as ->.
  { destruct (mysticeti_leader_scoring_and_schedule ctx); [|by injection Hsched].
    unfold leader_schedule_from_store, recover_last_commit_info in Hsched. simpl in Hsched.
    rewrite store_read_last_commit_info_spec, Hi in Hsched by done.
    assert (bt_last_key_value (∅ : gmap CommitKey CommitInfo) = None) as Hn by reflexivity. rewrite Hn in Hsched.
    by injection Hsched. }
  apply bind_Ok in Hst as (observer & Hobs & Hst).
  assert (observer = sender) as -> by by eapply fresh_observer.
  unfold core_new in Hst.
  apply bind_Ok in Hst as (ld & Hld%fresh_last_leader & Hst). rewrite core_options_pipelined in Hst.
  cbn [mbind outcome_bind] in Hst. apply bind_Ok in Hst as (last_block & Hlb & Hst).
  apply fresh_last_block in Hlb as (Hla & Hlr & Hlv). apply bind_Ok in Hst as (included & _ & Hst).
  match type of Hst with core_recover ?self _ _ = _ => exists self end. split_and!; [done..|].
  eapply core_recover_advances; [done|done| |done|done|done].
  split; try done; [|apply genesis_in_world|intros b Hbw Hba; by destruct (Hnone b Hbw)].
  match goal with |- core_ok _ ?self _ => apply (core_ok_start self) end; simpl; try done; [by apply (fresh_dag_ok W)|].
  split; [done|apply default_table_ok|done].
Qed.
End first_start.
