(* ===== verification/NetworkRun.v ===== *)
(** A network of validators: each honest authority starts once ([authority_node.rs]) and runs the
    commands of its core thread ([core_thread.rs]); Byzantine authorities make any blocks that
    pass verification; blocks are delivered in any order, any number of times, or never.  In every
    reachable state honest authorities have not equivocated, and what two of them have output is
    the same up to the end of the shorter output. *)

From stdpp Require Import base strings numbers sorting gmap sets relations list.
From S2P Require Import Prelude Committee Block Dag StakeAggregator ThresholdClock Commit BlockVerifier Store DagState DagStateFacts Recovery BlockManager BlockManagerFacts DagReader BaseCommitter UniversalCommitter Agreement Linearizer Linearization TransactionConsumer LeaderScoring LeaderSchedule LeaderScheduleFacts Slots Periods History CommitObserver Core CoreInvariant CoreCommit CoreRun AuthorityNode.

Open Scope N_scope.

(** The honest validators that have started, and the blocks that exist. *)
Record Net (St : Type) := mkNet {
  nodes : gmap AuthorityIndex (Core St);
  world : list VerifiedBlock;
}.
Arguments mkNet {St}.
Arguments nodes {St}.
Arguments world {St}.

(** What all validators agree on before they start: the committee, the genesis blocks, and the
    configuration of leader scoring. *)
Record NetConfig := mkNetConfig {
  nc_committee : Committee;
  nc_genesis : list VerifiedBlock;
  nc_scoring : bool;
  nc_threshold : N;
  nc_strategy : option string;
}.

Section network.
Context {St : Type} `{StoreSpec St} `{Crypto, BlockVerifier} `{!BlockVerifierSpec} `{CommitSerializer} `{RandSpec}.
Context (cfg : NetConfig) (byz : gset AuthorityIndex).
Implicit Types (n : Net St) (core : Core St).

Definition genesis_map : gmap BlockRef VerifiedBlock := insert_blocks (nc_genesis cfg) ∅.

Definition first_schedule (ctx : Context) : LeaderSchedule :=
  leader_schedule_new (nc_strategy cfg) ctx leader_swap_table_default.

(** The context of a validator. *)
Record node_context (a : AuthorityIndex) (ctx : Context) : Prop := {
  nx_own : own_index ctx = a;
  nx_committee : committee ctx = nc_committee cfg;
  nx_scoring : mysticeti_leader_scoring_and_schedule ctx = nc_scoring cfg;
  nx_threshold : consensus_bad_nodes_stake_threshold ctx = nc_threshold cfg;
  nx_cached : 0 < wrap32 (dag_state_cached_rounds ctx);
  nx_scoring_ok : nc_scoring cfg = true → scoring_ok ctx (first_schedule ctx);
}.

(** ** Steps *)

(** All that a validator has made: the blocks of its own in its DAG, that is in its cache and in
    its store, besides the genesis block, and the blocks that it has broadcast. *)
Definition own_blocks core : list VerifiedBlock :=
  filter (λ b, vb_author b = own_index (core_context core) ∧ GENESIS_ROUND < vb_round b)
    (map_to_list (dag_view (dag_state core))).*2.
Definition made core : list VerifiedBlock := remove_dups (own_blocks core ++ broadcasts core).

(** What it makes in a step. *)
Definition new_blocks core core' : list VerifiedBlock := filter (.∉ made core) (made core').

Lemma new_blocks_same core : new_blocks core core = [].
Proof. apply elem_of_nil_inv. intros b [? ?]%list_elem_of_filter. done. Qed.

Inductive net_step : Net St → Net St → Prop :=
(** An honest validator starts for the first time. *)
| net_start n a ctx s tx_consumer sender last sig key now t core :
    a ∉ byz → nodes n !! a = None → node_context a ctx → store_empty s →
    sender_sent sender = [] → last < U32_MAX → tx_block_broadcast sig = [] →
    authority_node_start (nc_strategy cfg) ctx s tx_consumer sender last sig key now t = Ok core →
    last_proposed_round core ≤ round_limit →
    net_step n (mkNet (<[a := core]> (nodes n)) (made core ++ world n))
(** The core thread of a validator processes a command; the blocks it gets exist, and so do from
    then on the blocks that it makes. *)
| net_command n a core command res core' :
    nodes n !! a = Some core → Forall (.∈ world n) (command_blocks command) →
    run_command core command = Ok (RustOk res, core') → last_proposed_round core' ≤ round_limit →
    net_step n (mkNet (<[a := core']> (nodes n)) (new_blocks core core' ++ world n))
(** A Byzantine authority makes a block; digests do not collide. *)
| net_byzantine n b :
    vb_author b ∈ byz → block_ok (nc_committee cfg) genesis_map b →
    (∀ x, x ∈ world n → reference x = reference b → x = b) →
    net_step n (mkNet (nodes n) (b :: world n)).

Definition net_init : Net St := mkNet ∅ [].
Definition reachable : Net St → Prop := rtc net_step net_init.

(** ** The invariant *)

Context (Hser : serializes) (Hdig : digests_bounded).
Context (Hc : committee_wf (nc_committee cfg)).
Context (Hgl : ∀ ctx, committee ctx = nc_committee cfg → genesis_blocks ctx = Ok (nc_genesis cfg)).
Context (Hbyz : set_stake (nc_committee cfg) byz < validity_threshold (nc_committee cfg)).

Abbreviation running := (running (byz := byz) (G := genesis_map)).

(** What a validator has broadcast are blocks of its own. *)
Definition broadcasts_own (W : list VerifiedBlock) core : Prop :=
  ∀ b, b ∈ broadcasts core → b ∈ W ∧ vb_author b = own_index (core_context core).

Record net_ok n : Prop := {
  no_world : world_ok byz (nc_committee cfg) genesis_map (world n);
  no_node a core : nodes n !! a = Some core →
    node_context a (core_context core) ∧ broadcasts_own (world n) core ∧
    ∃ cs, running (world n) (first_schedule (core_context core)) core cs;
  no_started b : b ∈ world n → vb_author b ∉ byz → is_Some (nodes n !! vb_author b);
}.

Lemma net_init_ok : net_ok net_init.
Proof.
  split; [apply world_ok_nil|intros a core Ha; simpl in Ha; by rewrite lookup_empty in Ha|intros b Hb; by apply not_elem_of_nil in Hb].
Qed.

(** Blocks of others do not disturb a validator. *)
Lemma running_mono W W' ls0 core cs :
  running W ls0 core cs → W ⊆ W' →
  (∀ b, b ∈ W' → b ∈ W ∨ vb_author b ≠ own_index (core_context core)) → running W' ls0 core cs.
Proof.
  intros [Hok HG HV Hbm Hlim Hown Hhon Ha Hp Hab] HW Hnew. split; try done.
  - by eapply in_world_mono.
  - intros r sb Hsb. by apply HW, (Hbm r).
  - intros b Hb Hba. destruct (Hnew b Hb) as [Hin|Hne]; [by apply Hab|done].
Qed.

(** Only which blocks there are matters. *)
Lemma running_same_blocks W W' ls0 core cs :
  (∀ b, b ∈ W ↔ b ∈ W') → running W ls0 core cs → running W' ls0 core cs.
Proof. intros HW Hrn. apply (running_mono W); [done|intros b; apply HW|]. intros b Hb%HW. by left. Qed.

Lemma world_ok_same_blocks c W W' :
  (∀ b, b ∈ W ↔ b ∈ W') → world_ok byz c genesis_map W → world_ok byz c genesis_map W'.
Proof. intros HW [Hb Hu Hh]. split; intros b; setoid_rewrite <-HW; auto. Qed.

(** What is in the DAG of a validator and what it has made are blocks of the world. *)
Lemma view_in_world W ls0 core cs r b :
  running W ls0 core cs → dag_view (dag_state core) !! r = Some b → GENESIS_ROUND < vb_round b → b ∈ W.
Proof.
  intros Hrn Hv Hpos. destruct (running_dag _ _ _ _ Hrn) as [Hd _]. pose proof (dk_wf _ _ _ Hd) as Hwf.
  destruct (rn_world _ _ _ _ Hrn _ _ Hv) as [<- [Hg|?]]; [|done]. rewrite <-(rn_genesis _ _ _ _ Hrn) in Hg.
  apply (genesis_lookup _ _ _ Hwf) in Hg as (_ & Hg & _). change (vb_round b = GENESIS_ROUND) in Hg. lia.
Qed.

Lemma elem_of_own_blocks core b :
  dag_wf (dag_state core) → b ∈ own_blocks core ↔
  dag_view (dag_state core) !! reference b = Some b ∧ vb_author b = own_index (core_context core) ∧ GENESIS_ROUND < vb_round b.
Proof.
  intros Hwf. unfold own_blocks. rewrite list_elem_of_filter. split.
  - intros [Hb ([r b'] & -> & Hin%elem_of_map_to_list)%list_elem_of_fmap]. split; [|done]. simpl in *.
    by destruct (view_reference _ _ _ Hwf Hin) as [-> _].
  - intros [Hv Hb]. split; [done|]. apply list_elem_of_fmap. exists (reference b, b). split; [done|]. by apply elem_of_map_to_list.
Qed.

Lemma made_in_world W ls0 core cs b :
  running W ls0 core cs → broadcasts_own W core → b ∈ made core → b ∈ W ∧ vb_author b = own_index (core_context core).
Proof.
  intros Hrn Hbc [Hb|Hb]%elem_of_remove_dups%elem_of_app; [|by apply Hbc].
  destruct (running_dag _ _ _ _ Hrn) as [Hd _]. pose proof (dk_wf _ _ _ Hd) as Hwf.
  apply elem_of_own_blocks in Hb as (Hv & Ha & Hr); [|done]. split; [|done]. by eapply view_in_world.
Qed.

(** A step of a core makes the block that it proposes, and nothing else. *)
Lemma advances_made W ls0 core cs core' :
  advances (byz := byz) (G := genesis_map) W ls0 core cs core' → broadcasts_own W core →
  broadcasts_own (proposed_blocks core core' ++ W) core' ∧ proposed_blocks core core' ⊆ made core'.
Proof.
  intros [[more Hrn] _ Hcc _ _ Hb] Hbc. destruct (running_dag _ _ _ _ Hrn) as [Hd _]. pose proof (dk_wf _ _ _ Hd) as Hwf.
  assert (Hlast : GENESIS_ROUND < last_proposed_round core' → last_proposed_block core' ∈ own_blocks core').
  { intros Hr. apply elem_of_own_blocks; [done|]. split_and!; [apply Hrn..|done]. }
  split.
  - intros b [Hin|[-> Hr]]%Hb.
    + destruct (Hbc b Hin) as [? Ha]. split; [|by rewrite Hcc]. apply elem_of_app. by right.
    + split; [|apply Hrn]. eapply view_in_world; [done|apply Hrn|done].
  - intros b Hp. unfold proposed_blocks in Hp. destruct (N.ltb_spec (last_proposed_round core) (last_proposed_round core'));
      [|by apply not_elem_of_nil in Hp]. apply list_elem_of_singleton in Hp as ->.
    apply elem_of_remove_dups, elem_of_app. left. apply Hlast. unfold GENESIS_ROUND. lia.
Qed.

(** A validator has moved to [core'] and has made [l]. *)
Lemma net_ok_update n a core core' cs l :
  net_ok n → a ∉ byz → node_context a (core_context core) → committee (core_context core) = nc_committee cfg →
  advances (byz := byz) (G := genesis_map) (world n) (first_schedule (core_context core)) core cs core' →
  broadcasts_own (world n) core →
  (∀ b, b ∈ l → b ∈ made core') → (∀ b, b ∈ made core' → b ∈ l ∨ b ∈ world n) →
  net_ok (mkNet (<[a := core']> (nodes n)) (l ++ world n)).
Proof.
  intros [HW Hn Hst] Ha Hctx Hcom Hadv Hbc Hl Hl'. destruct (advances_made _ _ _ _ _ Hadv Hbc) as [Hbc' Hp].
  destruct Hadv as [[more Hrn] HW' Hcc _ _ _]. rewrite Hcom in HW'.
  assert (Hown : ∀ b, b ∈ made core' → b ∈ proposed_blocks core core' ++ world n ∧ vb_author b = a).
  { intros b Hb. destruct (made_in_world _ _ _ _ b Hrn Hbc' Hb) as [? Hba]. split; [done|].
    by rewrite Hba, Hcc, (nx_own _ _ Hctx). }
  assert (Heq : ∀ b, b ∈ proposed_blocks core core' ++ world n ↔ b ∈ l ++ world n).
  { intros b. split.
    - intros [Hb%Hp%Hl'|?]%elem_of_app; apply elem_of_app; tauto.
    - intros [Hb%Hl%Hown|?]%elem_of_app; [apply Hb|]. apply elem_of_app. by right. }
  split; simpl.
  - by apply (world_ok_same_blocks _ _ _ Heq).
  - intros a' core2 [[<- <-]|[Hne Ha']]%lookup_insert_Some.
    + rewrite Hcc. split_and!; [done| |exists (cs ++ more); by apply (running_same_blocks _ _ _ _ _ Heq)].
      intros b Hb. rewrite <-Heq. by apply Hbc'.
    + destruct (Hn a' core2 Ha') as (Hctx' & Hbc2 & [cs' Hrn']). split_and!; [done| |exists cs'].
      * intros b Hb. destruct (Hbc2 b Hb). split; [|done]. apply elem_of_app. by right.
      * apply (running_mono (world n)); [done|by apply list_subseteq_app_r|].
        intros b [Hb%Hl%Hown|Hb]%elem_of_app; [right|by left]. destruct Hb as [_ ->]. by rewrite (nx_own _ _ Hctx').
  - intros b [Hb%Hl%Hown|Hb]%elem_of_app Hba.
    + destruct Hb as [_ ->]. rewrite lookup_insert_eq. eauto.
    + rewrite lookup_insert_is_Some'. auto.
Qed.

Lemma net_step_ok n n' : net_ok n → net_step n n' → net_ok n'.
Proof.
  intros Hok Hstep. pose proof Hok as [HW Hn Hst].
  destruct Hstep as [n a ctx s tx_consumer sender last sig key now t core Ha Hnone Hctx Hs Hsent Hlast Hsig Hrun Hlim|
    n a core command res core' Hcore Hbl Hrun Hlim|n b Hb Hbok Hcol].
  - pose proof Hctx as [Hown Hcom Hsc _ Hcached Hsok].
    destruct (first_start_advances byz ctx (nc_genesis cfg) s ltac:(by rewrite Hcom) (Hgl ctx Hcom) Hcached
      ltac:(by rewrite Hcom) Hs (world n) (nc_strategy cfg) tx_consumer sender last sig key now t core)
      as (self0 & Hr0 & Hc0 & Hs0 & Hadv); try done.
    + by rewrite Hown.
    + by rewrite Hcom.
    + intros b Hb Hba. destruct (Hst b Hb) as [x Hx]; congruence.
    + rewrite Hsc. done.
    + apply (net_ok_update n a self0 core []); rewrite ?Hc0; try done; [|by left].
      intros b Hb. rewrite Hs0, Hsig in Hb. by apply not_elem_of_nil in Hb.
  - destruct (Hn a core Hcore) as (Hctx & Hbc & [cs Hrn]). pose proof Hctx as [Hown Hcom _ _ _ _].
    apply (net_ok_update n a core core' cs); try done.
    + rewrite <-Hown. apply Hrn.
    + apply (run_command_advances Hser Hdig (world n) (first_schedule (core_context core)) core cs command res); try done. by rewrite Hcom.
    + intros b [_ Hb]%list_elem_of_filter. done.
    + intros b Hb. destruct (decide (b ∈ made core)) as [Hold|Hnew].
      * right. by apply (made_in_world _ _ _ _ b Hrn Hbc).
      * left. by apply list_elem_of_filter.
  - split; simpl.
    + by apply world_ok_cons.
    + intros a core Ha. destruct (Hn a core Ha) as (Hctx & Hbc & [cs Hrn]). split_and!; [done| |exists cs].
      * intros x Hx. destruct (Hbc x Hx). split; [by right|done].
      * apply (running_mono (world n)); [done|by apply list_subseteq_cons|].
        intros x [->|Hx]%elem_of_cons; [right|by left]. intros Heq. apply (rn_honest _ _ _ _ Hrn). by rewrite <-Heq.
    + intros x [->|Hx]%elem_of_cons Hx'; [done|by apply Hst].
Qed.

Lemma reachable_ok n : reachable n → net_ok n.
Proof.
  intros Hr. assert (∀ n0, net_ok n0 → rtc net_step n0 n → net_ok n) as Hgen.
  { clear Hr. intros n0 Hok Hr. induction Hr as [|n0 n1 n2 Hs _ IH]; [done|]. by apply IH, (net_step_ok n0). }
  by apply (Hgen net_init net_init_ok).
Qed.

(** ** Properties *)

(** C3: In every reachable state of the network, whatever was sent and in whatever order: an
    honest authority has at most one block in a round among all the blocks that were ever made,
    and all its blocks pass verification.  The blocks meant are all those that validators hold
    and send: what a validator has broadcast, and what it holds as its own, are such blocks with
    it as the author, and so is every block in its DAG, besides the genesis blocks. *)
Theorem honest_no_equivocation n :
  reachable n →
  (∀ b b', b ∈ world n → b' ∈ world n → vb_author b ∉ byz →
     block_valid (nc_committee cfg) (dom genesis_map) (inner (block b)) ∧
     (vb_author b = vb_author b' → vb_round b = vb_round b' → b = b')) ∧
  (∀ a core, nodes n !! a = Some core →
     (∀ b, b ∈ own_blocks core ∨ b ∈ broadcasts core → b ∈ world n ∧ vb_author b = a) ∧
     (∀ r b, dag_view (dag_state core) !! r = Some b → GENESIS_ROUND < vb_round b → b ∈ world n)).
Proof.
  intros Hr%reachable_ok. split.
  - intros b b' Hb Hb' Hh. destruct (no_world _ Hr) as [Hv _ Hu]. split; [by apply Hv|]. auto.
  - intros a core Ha. destruct (no_node _ Hr a core Ha) as (Hctx & Hbc & [cs Hrn]). split.
    + intros b Hb. rewrite <-(nx_own _ _ Hctx). apply (made_in_world _ _ _ _ b Hrn Hbc).
      apply elem_of_remove_dups, elem_of_app. done.
    + intros r b Hv Hpos. by apply (view_in_world _ _ _ _ r b Hrn).
Qed.

(** C1: In every reachable state of the network the outputs of any two honest validators agree:
    one has sent to its consumer a prefix of the sub-dags that the other has sent, with the same
    blocks, order, commit references and reputation scores, over all changes of the leader
    schedule. *)
Theorem network_agreement n a1 a2 core1 core2 :
  reachable n → nodes n !! a1 = Some core1 → nodes n !! a2 = Some core2 →
  sender_sent (commit_observer core1) `prefix_of` sender_sent (commit_observer core2) ∨
  sender_sent (commit_observer core2) `prefix_of` sender_sent (commit_observer core1).
Proof.
  intros Hr%reachable_ok Hc1 Hc2. destruct (no_node _ Hr _ _ Hc1) as (Hx1 & _ & [cs1 Hrn1]).
  destruct (no_node _ Hr _ _ Hc2) as (Hx2 & _ & [cs2 Hrn2]).
  destruct (cores_agree (byz := byz) (genesis_refs := dom genesis_map) (first_schedule (core_context core1))
    (first_schedule (core_context core2)) core1 core2 cs1 cs2) as [[_ ?]|[_ ?]]; [| | |apply Hrn1|apply Hrn2|by left|by right].
  - destruct Hx1, Hx2. split; simpl; congruence.
  - eapply world_compatible; [|apply Hr|apply Hrn1|apply Hrn2].
    rewrite <-(rn_genesis _ _ _ _ Hrn1). apply dag_genesis_ok. destruct (running_dag _ _ _ _ Hrn1) as [Hd _]. apply Hd.
  - destruct Hx1, Hx2. congruence.
Qed.
End network.
