(* ===== verification/CoreThread.v ===== *)
(** The interface through which the other tasks of a validator reach its core
    ([consensus/core/src/core_thread.rs]), the dispatcher of the core thread that implements it,
    and a dispatcher that only records what it is sent. *)

From stdpp Require Import base strings numbers gmap sets list.
From S2P Require Import Prelude Committee Block Commit BlockVerifier Store DagState LeaderSchedule Core.

Open Scope N_scope.

Inductive CoreError : Type := CoreShutdown.

(** The trait [CoreThreadDispatcher]; [D] is the state of everything behind it. *)
Class CoreThreadDispatcher (D : Type) := {
  dispatch_add_blocks : D → list VerifiedBlock → outcome (Result (gset BlockRef) CoreError * D);
  dispatch_new_block : D → Round → bool → outcome (Result () CoreError * D);
  dispatch_get_missing_blocks : D → outcome (Result (gset BlockRef) CoreError * D);
}.

(** What a task may ask of the core. *)
Inductive Request : Type :=
| RequestAddBlocks (blocks : list VerifiedBlock)
| RequestNewBlock (round : Round) (force : bool)
| RequestGetMissing.

(** A request arrives at the core, in order, unless the core has stopped. *)
Definition arrives {A} (before : list Request) (r : Request) (res : Result A CoreError) (after : list Request) : Prop :=
  after = before ++ [r] ∨ res = RustErr CoreShutdown ∧ after = before.

(** What the implementations promise: every request that is answered has arrived. *)
Class CoreThreadDispatcherSpec (D : Type) `{CoreThreadDispatcher D} := {
  arrived : D → list Request;
  arrived_add_blocks d blocks res d' :
    dispatch_add_blocks d blocks = Ok (res, d') → arrives (arrived d) (RequestAddBlocks blocks) res (arrived d');
  arrived_new_block d round force res d' :
    dispatch_new_block d round force = Ok (res, d') → arrives (arrived d) (RequestNewBlock round force) res (arrived d');
  arrived_get_missing_blocks d res d' :
    dispatch_get_missing_blocks d = Ok (res, d') → arrives (arrived d) RequestGetMissing res (arrived d');
}.

(** ** The core thread *)

Section channel.
Context {St : Type} `{Store St} `{Crypto, BlockVerifier} `{CommitSerializer} `{Rand}.

(** The core behind its channel: [ct_alive] holds while the thread runs, [ct_clock n] is what the
    [n]-th command reads of the clock, and [ct_commands] the commands processed so far. *)
Record ChannelCoreThreadDispatcher := mkChannelCoreThreadDispatcher {
  ct_core : Core St;
  ct_alive : bool;
  ct_clock : nat → BlockTimestampMs * Readings;
  ct_commands : list CoreThreadCommand;
}.

(** [send] of a command and the wait for its answer.  The thread ends when the core shuts down,
    and panics on any other error. *)
Definition channel_send (self : ChannelCoreThreadDispatcher)
    (command : BlockTimestampMs → Readings → CoreThreadCommand) :
    outcome (Result (option (gset BlockRef)) CoreError * ChannelCoreThreadDispatcher) :=
  if negb (ct_alive self) then Ok (RustErr CoreShutdown, self)
  else
    let '(now, t) := ct_clock self (length (ct_commands self)) in
    '(res, core) ← run_command (ct_core self) (command now t);
    let commands := ct_commands self ++ [command now t] in
    match res with
    | RustOk answer => Ok (RustOk answer, mkChannelCoreThreadDispatcher core true (ct_clock self) commands)
    | RustErr Shutdown =>
        Ok (RustErr CoreShutdown, mkChannelCoreThreadDispatcher core false (ct_clock self) commands)
    | RustErr _ => Panic "Fatal error occurred"
    end.

Definition answer_refs (res : Result (option (gset BlockRef)) CoreError) : Result (gset BlockRef) CoreError :=
  match res with RustOk answer => RustOk (default ∅ answer) | RustErr e => RustErr e end.

#[export] Instance channel_dispatcher : CoreThreadDispatcher ChannelCoreThreadDispatcher := {
  dispatch_add_blocks self blocks :=
    '(res, self) ← channel_send self (AddBlocks blocks);
    Ok (answer_refs res, self);
  dispatch_new_block self round force :=
    '(res, self) ← channel_send self (λ _, NewBlock round force);
    Ok (match res with RustOk _ => RustOk () | RustErr e => RustErr e end, self);
  dispatch_get_missing_blocks self :=
    '(res, self) ← channel_send self (λ _ _, GetMissing);
    Ok (answer_refs res, self);
}.

Definition request_of (command : CoreThreadCommand) : Request :=
  match command with
  | AddBlocks blocks _ _ => RequestAddBlocks blocks
  | NewBlock round force _ => RequestNewBlock round force
  | GetMissing => RequestGetMissing
  end.

Definition arrived_commands (self : ChannelCoreThreadDispatcher) : list Request := request_of <$> ct_commands self.

Lemma channel_send_arrives self command r res self' :
  (∀ now t, request_of (command now t) = r) → channel_send self command = Ok (res, self') →
  arrives (arrived_commands self) r res (arrived_commands self').
Proof.
  intros Hr. unfold channel_send, arrives, arrived_commands. destruct (ct_alive self); simpl; [|intros [= <- <-]; by right].
  destruct (ct_clock self _) as [now t]. intros ([r1 core] & _ & Hres)%bind_Ok.
  destruct r1 as [answer|[]]; try done; injection Hres as <- <-; left; simpl; by rewrite fmap_app, <-(Hr now t).
Qed.

Lemma arrives_answer {A B} (f : Result A CoreError → Result B CoreError) before r res after :
  f (RustErr CoreShutdown) = RustErr CoreShutdown →
  arrives before r res after → arrives before r (f res) after.
Proof. intros Hf [Ha|[-> Ha]]; [by left|by right]. Qed.

#[export] Program Instance channel_dispatcher_spec : CoreThreadDispatcherSpec ChannelCoreThreadDispatcher := {
  arrived := arrived_commands;
}.
Next Obligation.
  intros d blocks res d' ([r d1] & Hs%(channel_send_arrives _ _ (RequestAddBlocks blocks)) & [= <- <-])%bind_Ok; [|done].
  by apply arrives_answer.
Qed.
Next Obligation.
  intros d round force res d' ([r d1] & Hs%(channel_send_arrives _ _ (RequestNewBlock round force)) & [= <- <-])%bind_Ok; [|done].
  by apply (arrives_answer (λ res, match res with RustOk _ => RustOk () | RustErr e => RustErr e end)).
Qed.
Next Obligation.
  intros d res d' ([r d1] & Hs%(channel_send_arrives _ _ RequestGetMissing) & [= <- <-])%bind_Ok; [|done].
  by apply arrives_answer.
Qed.
End channel.
Arguments ChannelCoreThreadDispatcher : clear implicits.

(** ** A recorder *)

(** Records the requests; [rd_answer] gives the missing blocks from what has been sent, until the
    core stops. *)
Record RecordingDispatcher := mkRecordingDispatcher {
  rd_requests : list Request;
  rd_answer : list Request → Result (gset BlockRef) CoreError;
}.

Definition record (self : RecordingDispatcher) (r : Request) : Result (gset BlockRef) CoreError * RecordingDispatcher :=
  let requests := rd_requests self ++ [r] in
  (rd_answer self requests, mkRecordingDispatcher requests (rd_answer self)).

#[export] Instance recording_dispatcher : CoreThreadDispatcher RecordingDispatcher := {
  dispatch_add_blocks self blocks := Ok (record self (RequestAddBlocks blocks));
  dispatch_new_block self round force :=
    let '(res, self) := record self (RequestNewBlock round force) in
    Ok (match res with RustOk _ => RustOk () | RustErr e => RustErr e end, self);
  dispatch_get_missing_blocks self := Ok (record self RequestGetMissing);
}.

#[export] Program Instance recording_dispatcher_spec : CoreThreadDispatcherSpec RecordingDispatcher := {
  arrived := rd_requests;
}.
Next Obligation. intros d blocks res d' [= <- <-]. by left. Qed.
Next Obligation. intros d round force res d' [= <- <-]. by left. Qed.
Next Obligation. intros d res d' [= <- <-]. by left. Qed.
