(* ===== verification/LeaderTimeout.v ===== *)
(** The leader timeout ([consensus/core/src/leader_timeout.rs]): for every new round it asks the
    core for a block, first after the minimum delay between rounds, and then, forced, after the
    leader timeout. *)

From stdpp Require Import base strings numbers gmap sets list.
From S2P Require Import Prelude Committee Block CoreThread.

Open Scope N_scope.

(** The variables of [LeaderTimeoutTask::run]; times are in milliseconds. *)
Record LeaderTimeoutTask (D : Type) := mkLeaderTimeoutTask {
  lt_dispatcher : D;
  leader_round : Round;
  min_leader_round_timed_out : bool;
  max_leader_round_timed_out : bool;
  min_leader_timeout : N;
  max_leader_timeout : N;
}.
Arguments mkLeaderTimeoutTask {D}.
Arguments lt_dispatcher {D}.
Arguments leader_round {D}.
Arguments min_leader_round_timed_out {D}.
Arguments max_leader_round_timed_out {D}.
Arguments min_leader_timeout {D}.
Arguments max_leader_timeout {D}.

(** The branches of the loop: a timer is polled, a new round has been received, or the task is
    stopped. *)
Inductive TimeoutEvent : Type :=
| MinTimer (now : N)
| MaxTimer (now : N)
| NewRound (round : Round) (now : N)
| StopTimeout.

Section timeout.
Context {D : Type} `{CoreThreadDispatcher D} (params : Parameters).
Implicit Types self : LeaderTimeoutTask D.

(** The start of [run], at the round it reads first. *)
Definition leader_timeout_start (dispatcher : D) (round : Round) (now : N) : LeaderTimeoutTask D :=
  mkLeaderTimeoutTask dispatcher round false false (now + min_round_delay params) (now + leader_timeout params).

(** The loop has ended when there is no state any more. *)
Definition leader_timeout_step (event : TimeoutEvent) self : outcome (option (LeaderTimeoutTask D)) :=
  match event with
  | MinTimer now =>
      if (min_leader_timeout self <=? now) && negb (min_leader_round_timed_out self) then
        '(res, d) ← dispatch_new_block (lt_dispatcher self) (leader_round self) false;
        Ok (match res with
            | RustErr _ => None
            | RustOk _ => Some (mkLeaderTimeoutTask d (leader_round self) true (max_leader_round_timed_out self)
                                  (min_leader_timeout self) (max_leader_timeout self))
            end)
      else Ok (Some self)
  | MaxTimer now =>
      if (max_leader_timeout self <=? now) && negb (max_leader_round_timed_out self) then
        '(res, d) ← dispatch_new_block (lt_dispatcher self) (leader_round self) true;
        Ok (match res with
            | RustErr _ => None
            | RustOk _ => Some (mkLeaderTimeoutTask d (leader_round self) (min_leader_round_timed_out self) true
                                  (min_leader_timeout self) (max_leader_timeout self))
            end)
      else Ok (Some self)
  | NewRound round now =>
      Ok (Some (mkLeaderTimeoutTask (lt_dispatcher self) round false false
                  (now + min_round_delay params) (now + leader_timeout params)))
  | StopTimeout => Ok None
  end.

Fixpoint leader_timeout_run (events : list TimeoutEvent) self : outcome (option (LeaderTimeoutTask D)) :=
  match events with
  | [] => Ok (Some self)
  | event :: events =>
      self ← leader_timeout_step event self;
      match self with Some self => leader_timeout_run events self | None => Ok None end
  end.
End timeout.

(** ** Properties *)

Section timeout_facts.
Context {D : Type} `{CoreThreadDispatcherSpec D} (params : Parameters).
Implicit Types self : LeaderTimeoutTask D.

(** The new rounds come in increasing order. *)
Fixpoint increasing_rounds (round : Round) (events : list TimeoutEvent) : Prop :=
  match events with
  | [] => True
  | NewRound round' _ :: events => round < round' ∧ increasing_rounds round' events
  | _ :: events => increasing_rounds round events
  end.

(** The time at which the last round was received. *)
Definition last_reset (now : N) (events : list TimeoutEvent) : N :=
  foldl (λ t event, match event with NewRound _ now => now | _ => t end) now events.

(** The requests [rs] that were made before the state, in which the timers were last set at
    [reset]. *)
Record timeout_inv (d0 : D) (reset : N) (rs : list Request) self : Prop := {
  ti_arrived : arrived (lt_dispatcher self) = arrived d0 ++ rs;
  ti_once : NoDup rs;
  ti_requests r : r ∈ rs → ∃ round force, r = RequestNewBlock round force ∧ round ≤ leader_round self;
  ti_min : RequestNewBlock (leader_round self) false ∈ rs ↔ min_leader_round_timed_out self = true;
  ti_max : RequestNewBlock (leader_round self) true ∈ rs ↔ max_leader_round_timed_out self = true;
  ti_min_timer : min_leader_timeout self = reset + min_round_delay params;
  ti_max_timer : max_leader_timeout self = reset + leader_timeout params;
}.

(** A request for the round that was not made yet. *)
Lemma timeout_inv_request d0 reset rs self d (force : bool) :
  timeout_inv d0 reset rs self →
  (if force then max_leader_round_timed_out self else min_leader_round_timed_out self) = false →
  arrived d = arrived (lt_dispatcher self) ++ [RequestNewBlock (leader_round self) force] →
  timeout_inv d0 reset (rs ++ [RequestNewBlock (leader_round self) force])
    (mkLeaderTimeoutTask d (leader_round self)
      (if force then min_leader_round_timed_out self else true) (if force then true else max_leader_round_timed_out self)
      (min_leader_timeout self) (max_leader_timeout self)).
Proof.
  intros [Ha Ho Hr Hmin Hmax Ht1 Ht2] Hflag Hd. split; simpl; try done.
  - by rewrite Hd, Ha, (assoc (++)).
  - apply NoDup_app. split; [done|]. split; [|apply NoDup_singleton]. intros r Hin ->%list_elem_of_singleton.
    destruct force; [apply Hmax in Hin|apply Hmin in Hin]; congruence.
  - intros r [Hin| ->%list_elem_of_singleton]%elem_of_app; [by apply Hr|]. by eexists _, _.
  - rewrite elem_of_app, list_elem_of_singleton, Hmin. destruct force; [|naive_solver]. split; [intros [?|[=]]; done|by left].
  - rewrite elem_of_app, list_elem_of_singleton, Hmax. destruct force; [naive_solver|]. split; [intros [?|[=]]; done|by left].
Qed.

Lemma leader_timeout_step_inv d0 reset rs self event self' :
  timeout_inv d0 reset rs self → increasing_rounds (leader_round self) [event] →
  leader_timeout_step params event self = Ok (Some self') →
  ∃ rs', timeout_inv d0 (last_reset reset [event]) rs' self' ∧
    leader_round self' = match event with NewRound round _ => round | _ => leader_round self end.
Proof.
  intros Hinv Hinc Hstep. destruct event as [now|now|round now|]; simpl in *.
  - destruct (_ && _) eqn:Hb; [|injection Hstep as <-; by exists rs]. apply andb_true_iff in Hb as [_ Hb%negb_true_iff].
    apply bind_Ok in Hstep as ([[u|e] d] & Hd & Hstep); [|done]. injection Hstep as <-.
    apply arrived_new_block in Hd as [Hd|[? _]]; [|done]. eexists. split; [|done]. by apply (timeout_inv_request d0 reset rs self d false).
  - destruct (_ && _) eqn:Hb; [|injection Hstep as <-; by exists rs]. apply andb_true_iff in Hb as [_ Hb%negb_true_iff].
    apply bind_Ok in Hstep as ([[u|e] d] & Hd & Hstep); [|done]. injection Hstep as <-.
    apply arrived_new_block in Hd as [Hd|[? _]]; [|done]. eexists. split; [|done]. by apply (timeout_inv_request d0 reset rs self d true).
  - injection Hstep as <-. exists rs. split; [|done]. destruct Hinv as [Ha Ho Hr Hmin Hmax Ht1 Ht2]. destruct Hinc as [Hlt _].
    split; simpl; try done.
    + intros r Hin. destruct (Hr r Hin) as (rd & f & -> & Hle). eexists _, _. split; [done|lia].
    + split; [|done]. intros Hin. destruct (Hr _ Hin) as (rd & f & [= <- _] & Hle). lia.
    + split; [|done]. intros Hin. destruct (Hr _ Hin) as (rd & f & [= <- _] & Hle). lia.
  - done.
Qed.

Lemma leader_timeout_run_inv d0 reset rs self events self' :
  timeout_inv d0 reset rs self → increasing_rounds (leader_round self) events →
  leader_timeout_run params events self = Ok (Some self') →
  ∃ rs', timeout_inv d0 (last_reset reset events) rs' self'.
Proof.
  revert reset rs self. induction events as [|event events IH]; intros reset rs self Hinv Hinc Hrun.
  { injection Hrun as <-. eauto. }
  cbn [leader_timeout_run] in Hrun. apply bind_Ok in Hrun as ([self1|] & Hstep & Hrun); [|done].
  destruct (leader_timeout_step_inv d0 reset rs self event self1) as (rs1 & Hinv1 & Hround); [done| |done|].
  { by destruct event; simpl in *; [..|split; [apply Hinc|]|]. }
  apply (IH (last_reset reset [event]) rs1 self1); [done| |done]. rewrite Hround. by destruct event; simpl in *; [..|apply Hinc|].
Qed.

(** C26: The leader timeout asks the core for a block at most twice per round: once without force,
    not before the minimum delay after the round was received, and once with force, not before
    the leader timeout.  The flags of a state say which of the two requests for its round have
    been made, and when its timers have expired the missing ones are made. *)
Theorem leader_timeout_spec d round now events self :
  increasing_rounds round events →
  leader_timeout_run params events (leader_timeout_start params d round now) = Ok (Some self) →
  ∃ rs, arrived (lt_dispatcher self) = arrived d ++ rs ∧ NoDup rs ∧
    (∀ r, r ∈ rs → ∃ round force, r = RequestNewBlock round force ∧ round ≤ leader_round self) ∧
    (∀ (force : bool) t, let reset := last_reset now events in
       let delay := if force then leader_timeout params else min_round_delay params in
       let event := if force then MaxTimer t else MinTimer t in
       (leader_timeout_step params event self = Ok (Some self) ∧
          (t < reset + delay ∨ RequestNewBlock (leader_round self) force ∈ rs)) ∨
       (reset + delay ≤ t ∧ RequestNewBlock (leader_round self) force ∉ rs ∧
          ∀ res d', dispatch_new_block (lt_dispatcher self) (leader_round self) force = Ok (RustOk res, d') →
            ∃ self', leader_timeout_step params event self = Ok (Some self') ∧ lt_dispatcher self' = d' ∧
              leader_round self' = leader_round self)).
Proof.
  intros Hinc Hrun. apply (leader_timeout_run_inv d now []) in Hrun as [rs Hinv]; [|split; simpl; try done|done].
  - destruct Hinv as [Ha Ho Hr Hmin Hmax Ht1 Ht2]. exists rs. split; [done|]. split; [done|]. split; [done|].
    intros force t. cbv zeta. destruct force; simpl.
    + rewrite Ht2, Hmax. destruct (N.leb_spec (last_reset now events + leader_timeout params) t) as [Hle|Hlt]; [|left; auto].
      destruct (max_leader_round_timed_out self); simpl; [left; auto|right]. split; [done|]. split; [done|].
      intros res d' ->. simpl. eauto.
    + rewrite Ht1, Hmin. destruct (N.leb_spec (last_reset now events + min_round_delay params) t) as [Hle|Hlt]; [|left; auto].
      destruct (min_leader_round_timed_out self); simpl; [left; auto|right]. split; [done|]. split; [done|].
      intros res d' ->. simpl. eauto.
  - by rewrite app_nil_r.
  - constructor.
  - by intros r ?%not_elem_of_nil.
  - split; [by intros ?%not_elem_of_nil|done].
  - split; [by intros ?%not_elem_of_nil|done].
Qed.
End timeout_facts.
