(* ===== verification/Subscriber.v ===== *)
(** The subscriptions to the block streams of the peers ([consensus/core/src/subscriber.rs]) and
    the arithmetic of [Duration] and [f32] by which they delay their retries. *)

From Stdlib Require Import SpecFloat.
From stdpp Require Import base strings numbers gmap sets list sorting.
From S2P Require Import Prelude Committee Block Store DagState.

Open Scope N_scope.

(** ** Durations *)

(** A [Duration] is a number of nanoseconds, and an [f32] a binary float of 24 bits of precision. *)
Definition NANOS_PER_SEC : N := 1000000000.
Definition duration_from_secs (secs : N) : N := secs * NANOS_PER_SEC.
Definition duration_from_millis (millis : N) : N := millis * 1000000.

Definition f32_from (n : N) : spec_float := binary_normalize 24 128 (Z.of_N n) 0 false.

Definition as_secs_f32 (d : N) : spec_float :=
  SFadd 24 128 (f32_from (d / NANOS_PER_SEC)) (SFdiv 24 128 (f32_from (d mod NANOS_PER_SEC)) (f32_from NANOS_PER_SEC)).

(** [n / d] rounded to the nearest number, and to the even one of two. *)
Definition div_ties_even (n d : N) : N :=
  let q := n / d in
  let rest := 2 * (n mod d) in
  if (rest <? d) || (rest =? d) && N.even q then q else q + 1.

(** [Duration::from_secs_f32] rounds to nanoseconds; it panics on a negative number, one of more
    seconds than a [u64] has, and one that is not finite. *)
Definition from_secs_f32 (x : spec_float) : outcome N :=
  match x with
  | S754_zero _ => Ok 0
  | S754_finite false m e =>
      let d := match e with
               | Zneg e => div_ties_even (Npos m * NANOS_PER_SEC) (2 ^ Npos e)
               | e => Npos m * 2 ^ Z.to_N e * NANOS_PER_SEC
               end in
      if d / NANOS_PER_SEC <=? U64_MAX then Ok d
      else Panic "can not convert float seconds to Duration: value is either too big or NaN"
  | S754_finite true _ _ => Panic "can not convert float seconds to Duration: value is negative"
  | _ => Panic "can not convert float seconds to Duration: value is either too big or NaN"
  end.

Definition duration_mul_f32 (d : N) (rhs : spec_float) : outcome N := from_secs_f32 (SFmul 24 128 rhs (as_secs_f32 d)).

(** ** Subscriptions *)

Definition IMMEDIATE_RETRIES : Z := 3.
Definition INITIAL_RETRY_INTERVAL : N := duration_from_millis 100.
Definition MAX_RETRY_INTERVAL : N := duration_from_secs 10.

(** The [f32] that is the nearest to 1.2. *)
Definition RETRY_INTERVAL_MULTIPLIER : spec_float := SFdiv 24 128 (f32_from 12) (f32_from 10).

(** The part of the trait [NetworkService] that a subscription uses. *)
Class NetworkService (S : Type) := {
  service_send_block : S → AuthorityIndex → bytes → outcome (ConsensusResult () * S);
}.

(** The variables of [subscription_loop]; [sub_streaming] holds in the inner loop. *)
Record Subscription := mkSubscription {
  sub_last_received : Round;
  sub_retries : Z;
  sub_delay : N;
  sub_streaming : bool;
}.

Definition subscription_start (last_received : Round) : Subscription :=
  mkSubscription last_received 0 INITIAL_RETRY_INTERVAL false.

(** How the loop waits before it subscribes. *)
Inductive Wait : Type :=
| Sleep (d : N)
| YieldNow
| NoWait.

(** The start of an iteration of the outer loop.  The number of retries stays far below the
    largest [i64]. *)
Definition before_attempt (self : Subscription) : outcome (Wait * Subscription) :=
  '(wait, delay) ←
    (if (IMMEDIATE_RETRIES <? sub_retries self)%Z then
       delay ← duration_mul_f32 (sub_delay self) RETRY_INTERVAL_MULTIPLIER;
       Ok (Sleep (sub_delay self), N.min delay MAX_RETRY_INTERVAL)
     else if (0 <? sub_retries self)%Z then Ok (YieldNow, sub_delay self)
     else Ok (NoWait, INITIAL_RETRY_INTERVAL));
  Ok (wait, mkSubscription (sub_last_received self) (sub_retries self + 1) delay (sub_streaming self)).

(** What happens to a subscription: [subscribe_blocks] succeeds or fails, and the stream yields a
    block or ends. *)
Inductive SubscriptionEvent : Type :=
| Attempt (success : bool)
| Next (item : option bytes).

Section subscription.
Context {S : Type} `{NetworkService S} (peer : AuthorityIndex).

(** A step of [subscription_loop], with the wait when it subscribes.  An event of the other loop
    does not occur. *)
Definition subscription_step (event : SubscriptionEvent) (service : S) (self : Subscription) :
    outcome (option Wait * S * Subscription) :=
  match event, sub_streaming self with
  | Attempt success, false =>
      '(wait, self) ← before_attempt self;
      Ok (Some wait, service, mkSubscription (sub_last_received self) (sub_retries self) (sub_delay self) success)
  | Next (Some block), true =>
      '(_, service) ← service_send_block service peer block;
      Ok (None, service, mkSubscription (sub_last_received self) 0 (sub_delay self) true)
  | Next None, true =>
      Ok (None, service, mkSubscription (sub_last_received self) (sub_retries self + 1) (sub_delay self) false)
  | _, _ => Ok (None, service, self)
  end.

Fixpoint subscription_run (events : list SubscriptionEvent) (service : S) (self : Subscription) :
    outcome (list Wait * S * Subscription) :=
  match events with
  | [] => Ok ([], service, self)
  | event :: events =>
      '(wait, service, self) ← subscription_step event service self;
      '(waits, service, self) ← subscription_run events service self;
      Ok (option_list wait ++ waits, service, self)
  end.
End subscription.

(** ** The subscriber *)

(** The running subscriptions of a validator, by peer. *)
Record Subscriber (S : Type) := mkSubscriber {
  sr_service : S;
  sr_subscriptions : list (option Subscription);
}.
Arguments mkSubscriber {S}.
Arguments sr_service {S}.
Arguments sr_subscriptions {S}.

Section subscriber.
Context {S : Type} `{NetworkService S} {St : Type} `{Store St} (context : Context).
Implicit Types self : Subscriber S.

Definition subscriber_new (service : S) : Subscriber S :=
  mkSubscriber service (replicate (N.to_nat (committee_size (committee context))) None).

(** [unsubscribe_locked] aborts the task; it reads the authority for its host name. *)
Definition unsubscribe_locked self (peer : AuthorityIndex) : outcome (Subscriber S) :=
  _ ← vec_index (sr_subscriptions self) peer;
  _ ← committee_authority (committee context) peer;
  Ok (mkSubscriber (sr_service self) (<[N.to_nat peer := None]> (sr_subscriptions self))).

Definition subscribe (dag_state : DagState St) self (peer : AuthorityIndex) : outcome (Subscriber S) :=
  if peer =? own_index context then Ok self
  else
    last_block ← get_last_block_for_authority dag_state peer;
    self ← unsubscribe_locked self peer;
    _ ← committee_authority (committee context) peer;
    Ok (mkSubscriber (sr_service self)
          (<[N.to_nat peer := Some (subscription_start (vb_round last_block))]> (sr_subscriptions self))).

Definition subscriber_stop self : outcome (Subscriber S) :=
  foldM (λ self peer, unsubscribe_locked self peer) self (committee_authorities (committee context)).*1.

(** The events of the subscriber: calls of its methods, and those of a subscription. *)
Inductive SubscriberEvent : Type :=
| Subscribe (dag_state : DagState St) (peer : AuthorityIndex)
| StopSubscriber
| OfSubscription (peer : AuthorityIndex) (event : SubscriptionEvent).

Definition subscriber_step (event : SubscriberEvent) self : outcome (Subscriber S) :=
  match event with
  | Subscribe dag_state peer => subscribe dag_state self peer
  | StopSubscriber => subscriber_stop self
  | OfSubscription peer event =>
      match mjoin (sr_subscriptions self !! N.to_nat peer) with
      | Some subscription =>
          '(_, service, subscription) ← subscription_step peer event (sr_service self) subscription;
          Ok (mkSubscriber service (<[N.to_nat peer := Some subscription]> (sr_subscriptions self)))
      | None => Ok self
      end
  end.

Definition subscriber_run (events : list SubscriberEvent) self : outcome (Subscriber S) :=
  foldM (λ self event, subscriber_step event self) self events.
End subscriber.

(** ** Properties *)

(** The delays before [n] more retries, from the delay [d]. *)
Fixpoint retry_delays (n : nat) (d : N) : list N :=
  d :: match n with
       | O => []
       | Datatypes.S n => match duration_mul_f32 d RETRY_INTERVAL_MULTIPLIER with
                | Ok d => retry_delays n (N.min d MAX_RETRY_INTERVAL)
                | _ => []
                end
       end.

(** All the delays that occur: the twenty-seventh is the longest. *)
Definition all_delays : list N := retry_delays 26 INITIAL_RETRY_INTERVAL.

Lemma all_delays_next d :
  d ∈ all_delays →
  ∃ d', duration_mul_f32 d RETRY_INTERVAL_MULTIPLIER = Ok d' ∧
    N.min d' MAX_RETRY_INTERVAL ∈ all_delays ∧ d ≤ N.min d' MAX_RETRY_INTERVAL.
Proof.
  assert (forallb (λ d, match duration_mul_f32 d RETRY_INTERVAL_MULTIPLIER with
            | Ok d' => bool_decide (N.min d' MAX_RETRY_INTERVAL ∈ all_delays) && (d <=? N.min d' MAX_RETRY_INTERVAL)
            | _ => false end) all_delays = true) as Hall by (vm_compute; reflexivity).
  intros Hd%list_elem_of_In. apply (proj1 (List.forallb_forall _ _) Hall) in Hd. clear Hall. cbv beta in Hd.
  generalize dependent (duration_mul_f32 d RETRY_INTERVAL_MULTIPLIER).
  intros [d'| |] Hd; [|discriminate Hd|discriminate Hd].
  apply andb_true_iff in Hd as [?%bool_decide_eq_true ?%N.leb_le]. eauto.
Qed.

Lemma all_delays_bounds d : d ∈ all_delays → INITIAL_RETRY_INTERVAL ≤ d ≤ MAX_RETRY_INTERVAL.
Proof.
  assert (forallb (λ d, (INITIAL_RETRY_INTERVAL <=? d) && (d <=? MAX_RETRY_INTERVAL)) all_delays = true) as Hall
    by (vm_compute; reflexivity).
  intros Hd%list_elem_of_In. apply (proj1 (List.forallb_forall _ _) Hall) in Hd. clear Hall.
  by apply andb_true_iff in Hd as [?%N.leb_le ?%N.leb_le].
Qed.

Section subscription_facts.
Context {S : Type} `{NetworkService S} (peer : AuthorityIndex).
Implicit Types self : Subscription.

(** The blocks that the stream yields. *)
Fixpoint streamed (streaming : bool) (events : list SubscriptionEvent) : list bytes :=
  match events with
  | [] => []
  | event :: events =>
      match event, streaming with
      | Attempt success, false => streamed success events
      | Next (Some block), true => block :: streamed true events
      | Next None, true => streamed false events
      | _, _ => streamed streaming events
      end
  end.

(** What the service does with them. *)
Definition send_all (service : S) (blocks : list bytes) : outcome S :=
  foldM (λ service block, '(_, service) ← service_send_block service peer block; Ok service) service blocks.

Definition slept (wait : Wait) : option N := match wait with Sleep d => Some d | _ => None end.

(** The loop after its first attempt: it has retries to count, or is in the inner loop. *)
Record subscription_started self : Prop := {
  started_retries : ((if sub_streaming self then 0 else 1) ≤ sub_retries self)%Z;
  started_delay : sub_delay self ∈ all_delays;
}.

Lemma before_attempt_started self :
  sub_streaming self = false → subscription_started self →
  ∃ wait self', before_attempt self = Ok (wait, self') ∧ wait ≠ NoWait ∧ (∀ d, wait = Sleep d → d = sub_delay self) ∧
    sub_last_received self' = sub_last_received self ∧ (1 ≤ sub_retries self')%Z ∧
    sub_delay self' ∈ all_delays ∧ sub_delay self ≤ sub_delay self'.
Proof.
  intros Hs [Hr Hd]. rewrite Hs in Hr. unfold before_attempt. destruct (Z.ltb_spec IMMEDIATE_RETRIES (sub_retries self)) as [Hlt|_].
  - destruct (all_delays_next _ Hd) as (d' & -> & Hin & Hle). cbn [mbind outcome_bind].
    eexists _, _. split; [done|]. split; [done|]. split; [by intros d [= ->]|]. cbn. split; [done|]. split; [lia|done].
  - destruct (Z.ltb_spec 0 (sub_retries self)) as [_|]; [|lia]. cbn [mbind outcome_bind].
    eexists _, _. split; [done|]. split; [done|]. split; [done|]. cbn. split; [done|]. split; [lia|]. split; [done|lia].
Qed.

(** A step keeps the loop started, and the delay does not go down. *)
Lemma subscription_step_started service self event :
  (∀ s b, ∃ r, service_send_block s peer b = Ok r) → subscription_started self →
  ∃ wait service' self', subscription_step peer event service self = Ok (wait, service', self') ∧
    subscription_started self' ∧ wait ≠ Some NoWait ∧ (∀ d, wait = Some (Sleep d) → d = sub_delay self) ∧
    sub_last_received self' = sub_last_received self ∧ sub_delay self ≤ sub_delay self' ∧
    ∀ events, send_all service (streamed (sub_streaming self) (event :: events)) =
      send_all service' (streamed (sub_streaming self') events).
Proof.
  intros Htot Hst. unfold subscription_step. destruct event as [success|[block|]]; destruct (sub_streaming self) eqn:Hs.
  - eexists _, _, _. split; [done|]. rewrite Hs. split_and!; try done.
  - destruct (before_attempt_started self Hs Hst) as (wait & self' & -> & Hw & Hsl & Hl & Hr & Hd & Hle). cbn [mbind outcome_bind].
    eexists _, _, _. split; [done|]. split; [split; cbn; [destruct success; lia|done]|]. split; [congruence|].
    split; [intros d [= ->]; auto|]. done.
  - destruct (Htot service block) as [[r service'] Hsend]. rewrite Hsend. cbn [mbind outcome_bind].
    eexists _, _, _. split; [done|]. split; [split; cbn; [lia|apply Hst]|]. split_and!; try done.
    intros events. cbn. unfold send_all. cbn. by rewrite Hsend.
  - eexists _, _, _. split; [done|]. rewrite Hs. split_and!; try done.
  - eexists _, _, _. split; [done|]. split; [split; cbn; [|apply Hst]|split_and!; done].
    destruct Hst as [Hr _]. rewrite Hs in Hr. lia.
  - eexists _, _, _. split; [done|]. rewrite Hs. split_and!; try done.
Qed.

Lemma subscription_run_started events service self :
  (∀ s b, ∃ r, service_send_block s peer b = Ok r) → subscription_started self →
  ∃ waits service' self', subscription_run peer events service self = Ok (waits, service', self') ∧
    send_all service (streamed (sub_streaming self) events) = Ok service' ∧
    sub_last_received self' = sub_last_received self ∧ NoWait ∉ waits ∧
    Forall (λ d, sub_delay self ≤ d ≤ MAX_RETRY_INTERVAL) (omap slept waits) ∧ StronglySorted N.le (omap slept waits).
Proof.
  intros Htot. revert service self. induction events as [|event events IH]; intros service self Hst.
  { eexists [], _, _. split_and!; try done; try apply not_elem_of_nil; by constructor. }
  destruct (subscription_step_started service self event Htot Hst) as (wait & s1 & self1 & Hstep & Hst1 & Hno & Hsl & Hl & Hle & Hsend).
  destruct (IH s1 self1 Hst1) as (waits & s2 & self2 & Hrun & Hall & Hl2 & Hno2 & Hb & Hsort).
  cbn [subscription_run]. rewrite Hstep. cbn [mbind outcome_bind]. rewrite Hrun. cbn [mbind outcome_bind].
  eexists _, _, _. split; [done|]. rewrite Hsend. split; [done|]. split; [congruence|].
  assert (Forall (λ d, sub_delay self ≤ d ≤ MAX_RETRY_INTERVAL) (omap slept waits)) as Hb'.
  { eapply Forall_impl; [exact Hb|]. cbn. lia. }
  destruct wait as [[d| |]|]; cbn [option_list app]; try done.
  - rewrite (Hsl d eq_refl). split; [set_solver|]. pose proof (all_delays_bounds _ (started_delay _ Hst)).
    split; constructor; try done; [lia|]. eapply Forall_impl; [exact Hb'|]. cbn. lia.
  - split; [set_solver|]. by split.
Qed.

Lemma subscription_step_first success service last_received :
  subscription_step peer (Attempt success) service (subscription_start last_received) =
    Ok (Some NoWait, service, mkSubscription last_received 1 INITIAL_RETRY_INTERVAL success).
Proof. reflexivity. Qed.

(** C27: A subscription to a peer passes every block of its streams to the service, in order, and
    goes on whatever the service answers.  It subscribes at once, retries without delay or with
    one between a hundred milliseconds and ten seconds, and always from the same round.  The
    delays never become shorter again: no block that it receives resets them. *)
Theorem subscription_spec last_received events service :
  (∀ s b, ∃ r, service_send_block s peer b = Ok r) →
  ∃ waits service' self, subscription_run peer events service (subscription_start last_received) = Ok (waits, service', self) ∧
    send_all service (streamed false events) = Ok service' ∧ sub_last_received self = last_received ∧
    NoWait ∉ tail waits ∧ (∀ wait, head waits = Some wait → wait = NoWait) ∧
    Forall (λ d, INITIAL_RETRY_INTERVAL ≤ d ≤ MAX_RETRY_INTERVAL) (omap slept waits) ∧
    StronglySorted N.le (omap slept waits).
Proof.
  intros Htot. revert service. induction events as [|event events IH]; intros service.
  { eexists [], _, _. split_and!; try done; try apply not_elem_of_nil; by constructor. }
  destruct event as [success|[block|]].
  - destruct (subscription_run_started events service (mkSubscription last_received 1 INITIAL_RETRY_INTERVAL success) Htot)
      as (waits & s' & self & Hrun & Hsend & Hl & Hno & Hb & Hsort).
    { split; [by destruct success|]. unfold all_delays. left. }
    exists (NoWait :: waits), s', self. cbn [subscription_run]. rewrite subscription_step_first. cbn [mbind outcome_bind].
    rewrite Hrun. split; [done|]. split; [done|]. split; [done|]. split; [done|]. split; [by intros wait [= ->]|]. by split.
  - destruct (IH service) as (waits & s' & self & Hrun & Hrest).
    exists waits, s', self. cbn [subscription_run]. change (subscription_step peer _ service _) with
      (Ok (@None Wait, service, subscription_start last_received)). cbn [mbind outcome_bind]. by rewrite Hrun.
  - destruct (IH service) as (waits & s' & self & Hrun & Hrest).
    exists waits, s', self. cbn [subscription_run]. change (subscription_step peer _ service _) with
      (Ok (@None Wait, service, subscription_start last_received)). cbn [mbind outcome_bind]. by rewrite Hrun.
Qed.
End subscription_facts.
