(* ===== verification/CommitVotes.v ===== *)
(** Votes on commits ([consensus/core/src/commit_syncer.rs]): [CommitVoteMonitor] finds the highest
    commit that a quorum has voted for, and [verify_commits] checks that commits received from a
    peer are certified by a quorum. *)

From stdpp Require Import base strings numbers sorting gmap sets list.
From S2P Require Import Prelude Committee Block Dag StakeAggregator Commit BlockVerifier Linearization.

Open Scope N_scope.

(** ** The monitor *)

Record CommitVoteMonitor := mkCommitVoteMonitor {
  cvm_context : Context;
  highest_voted_commits : list CommitIndex;
}.

Definition commit_vote_monitor_new (context : Context) : CommitVoteMonitor :=
  mkCommitVoteMonitor context (replicate (N.to_nat (committee_size (committee context))) 0).

(** One vote of the loop of [observe]. *)
Definition observe_vote (author : AuthorityIndex) (highest : list CommitIndex) (vote : CommitRef) :
    outcome (list CommitIndex) :=
  current ← vec_index highest author;
  if current <? cr_index vote then vec_set highest author (cr_index vote) else Ok highest.

Definition observe (self : CommitVoteMonitor) (block : VerifiedBlock) : outcome CommitVoteMonitor :=
  highest ← foldM (observe_vote (vb_author block)) (highest_voted_commits self) (vb_commit_votes block);
  Ok (mkCommitVoteMonitor (cvm_context self) highest).

(** The loop of [quorum_commit_index]. *)
Fixpoint quorum_loop (quorum_threshold total_stake : Stake) (l : list (CommitIndex * Stake)) : CommitIndex :=
  match l with
  | [] => GENESIS_COMMIT_INDEX
  | (commit_index, stake) :: l =>
      let total_stake := total_stake +u64 stake in
      if quorum_threshold <=? total_stake then commit_index else quorum_loop quorum_threshold total_stake l
  end.

Definition quorum_commit_index (self : CommitVoteMonitor) : CommitIndex :=
  let c := committee (cvm_context self) in
  let highest_voted_commits :=
    (λ p, (p.1, stake p.2.2)) <$> zip (highest_voted_commits self) (committee_authorities c) in
  quorum_loop (quorum_threshold c) 0 (sort_by (λ a b, ord_leb b a) highest_voted_commits).

(** ** Certified commits *)

Section verify_commits.
Context `{Crypto, TransactionVerifier, BcsParser}.

(** The check of a commit against the ones before it. *)
Definition check_sequence (peer : AuthorityIndex) (start : CommitIndex)
    (commits : list (CommitDigest * Commit)) (commit : Commit) : ConsensusResult () :=
  match last commits with
  | None =>
      if cv1_index (commit_v1 commit) =? start then RustOk ()
      else RustErr (UnexpectedStartCommit peer start commit)
  | Some (last_commit_digest, last_commit) =>
      if negb (cv1_index (commit_v1 commit) =? cv1_index (commit_v1 last_commit) +u32 1)
         || negb (cv1_previous_digest (commit_v1 commit) =? last_commit_digest)
      then RustErr (UnexpectedCommitSequence peer last_commit commit)
      else RustOk ()
  end.

(** The loop over the serialized commits. *)
Fixpoint parse_commits (peer : AuthorityIndex) (start end_ : CommitIndex)
    (commits : list (CommitDigest * Commit)) (serialized_commits : list bytes) :
    ConsensusResult (list (CommitDigest * Commit)) :=
  match serialized_commits with
  | [] => RustOk commits
  | serialized :: serialized_commits =>
      try_ (map_err MalformedCommit (parse_commit serialized)) (λ commit,
      let digest := blake2b256 serialized in
      try_ (check_sequence peer start commits commit) (λ _,
      if end_ <? cv1_index (commit_v1 commit) then RustOk commits
      else parse_commits peer start end_ (commits ++ [(digest, commit)]) serialized_commits))
  end.

(** The loop over the serialized blocks. *)
Fixpoint count_votes (context : Context) (block_verifier : SignedBlockVerifier) (end_commit_ref : CommitRef)
    (stake_aggregator : StakeAggregator QuorumThreshold) (serialized_blocks : list bytes) :
    outcome (ConsensusResult (StakeAggregator QuorumThreshold)) :=
  match serialized_blocks with
  | [] => Ok (RustOk stake_aggregator)
  | serialized :: serialized_blocks =>
      match map_err MalformedBlock (parse_signed_block serialized) with
      | RustErr e => Ok (RustErr e)
      | RustOk block =>
          verified ← verify block_verifier block;
          match verified with
          | RustErr e => Ok (RustErr e)
          | RustOk _ =>
              stake_aggregator ← foldM (λ agg vote,
                  if bool_decide (vote = end_commit_ref) then
                    '(_, agg) ← aggregator_add agg (block_author (inner block)) (committee context);
                    Ok agg
                  else Ok agg)
                stake_aggregator (block_commit_votes (inner block));
              count_votes context block_verifier end_commit_ref stake_aggregator serialized_blocks
          end
      end
  end.

(** [Inner::verify_commits]. *)
Definition verify_commits (context : Context) (block_verifier : SignedBlockVerifier) (peer : AuthorityIndex)
    (start end_ : CommitIndex) (serialized_commits serialized_blocks : list bytes) :
    outcome (ConsensusResult (list TrustedCommit)) :=
  match parse_commits peer start end_ [] serialized_commits with
  | RustErr e => Ok (RustErr e)
  | RustOk commits =>
      match last commits with
      | None => Ok (RustErr (NoCommitReceived peer))
      | Some (end_commit_digest, end_commit) =>
          let end_commit_ref := mkCommitRef (cv1_index (commit_v1 end_commit)) end_commit_digest in
          counted ← count_votes context block_verifier end_commit_ref aggregator_new serialized_blocks;
          match counted with
          | RustErr e => Ok (RustErr e)
          | RustOk stake_aggregator =>
              if negb (reached_threshold stake_aggregator (committee context)) then
                Ok (RustErr (NotEnoughCommitVotes (agg_stake stake_aggregator) peer end_commit))
              else
                Ok (RustOk ((λ p, new_trusted p.1.2 p.2) <$> zip commits serialized_commits))
          end
      end
  end.
End verify_commits.

(** *** What it computes *)

(** The stake that voted for [s] or above. *)
Definition stake_from (s : CommitIndex) (l : list (CommitIndex * Stake)) : N :=
  sum_N (λ p, if s <=? p.1 then p.2 else 0) l.

Lemma stake_from_all l s : (∀ p, p ∈ l → s ≤ p.1) → stake_from s l = sum_N snd l.
Proof. intros Hl. apply sum_N_ext. intros p Hp. by rewrite (proj2 (N.leb_le _ _) (Hl p Hp)). Qed.

Lemma stake_from_le l s : stake_from s l ≤ sum_N snd l.
Proof. apply sum_N_mono. intros p _. destruct (s <=? p.1); lia. Qed.

Lemma stake_from_none l s : (∀ p, p ∈ l → p.1 < s) → stake_from s l = 0.
Proof. intros Hl. apply sum_N_zero. intros p Hp. by rewrite (proj2 (N.leb_gt _ _) (Hl p Hp)). Qed.

(** On a list sorted by index, from the highest. *)
Lemma quorum_loop_spec threshold total l :
  StronglySorted (λ p q, q.1 ≤ p.1) l → total < threshold → threshold ≤ total + sum_N snd l →
  total + sum_N snd l < 2 ^ 64 →
  let q := quorum_loop threshold total l in
  threshold ≤ total + stake_from q l ∧ ∀ s, q < s → total + stake_from s l < threshold.
Proof.
  intros Hs. revert total. induction Hs as [|[i st] l Hs IH Hhd]; intros total Hlt Hle Hov; simpl in *; [lia|].
  rewrite Forall_forall in Hhd. simpl in Hhd. rewrite u64_add_small by lia.
  destruct (N.leb_spec threshold (total + st)) as [Hr|Hr].
  - unfold stake_from. simpl. rewrite N.leb_refl. split.
    + lia.
    + intros s Hs'. rewrite (proj2 (N.leb_gt _ _) Hs'). fold (stake_from s l).
      rewrite stake_from_none; [lia|]. intros p Hp%Hhd. lia.
  - destruct (IH (total + st)) as [Hq Hmax]; [lia..|].
    set (q := quorum_loop threshold (total + st) l) in *. unfold stake_from in *. simpl. split.
    + destruct (N.leb_spec q i) as [|Hqi]; [lia|]. exfalso.
      assert (stake_from q l = 0) as Hz by (apply stake_from_none; intros p Hp%Hhd; lia). unfold stake_from in Hz. lia.
    + intros s Hs'. pose proof (Hmax s Hs'). destruct (s <=? i); lia.
Qed.

Section monitor.
Context (self : CommitVoteMonitor).
Local Abbreviation c := (committee (cvm_context self)).
Local Abbreviation highest := (highest_voted_commits self).

(** The authorities whose highest vote is [s] or above. *)
Definition voters_from (s : CommitIndex) : gset AuthorityIndex :=
  list_to_set (filter (λ a, s ≤ default 0 (highest !! N.to_nat a)) (indices c)).

Context (Hc : committee_wf c) (Hlen : N.of_nat (length highest) = committee_size c).

Local Abbreviation pairs := ((λ p, (p.1, stake p.2.2)) <$> zip highest (committee_authorities c)).

Lemma pairs_stake (f : CommitIndex → bool) :
  sum_N (λ p : CommitIndex * Stake, if f p.1 then p.2 else 0) pairs =
  sum_N (λ a, if f (default 0 (highest !! N.to_nat a)) then stake_of c a else 0) (indices c).
Proof.
  unfold committee_size in Hlen. rewrite sum_N_fmap, (sum_N_lookup _ (zip _ _)). unfold indices. rewrite sum_N_fmap.
  rewrite length_zip. unfold committee_authorities. rewrite length_imap.
  replace (length highest `min` length (authorities c))%nat with (length (authorities c)) by lia.
  apply sum_N_ext. intros i Hi%elem_of_seq. unfold compose, stake_of. rewrite Nat2N.id.
  destruct (lookup_lt_is_Some_2 highest i) as [h Hh]; [lia|].
  destruct (lookup_lt_is_Some_2 (authorities c) i) as [a Ha]; [lia|].
  rewrite lookup_zip_with, Hh, list_lookup_imap, Ha. done.
Qed.

Lemma pairs_total : sum_N snd pairs = total_stake c.
Proof.
  rewrite total_stake_indices by done. exact (pairs_stake (λ _, true)).
Qed.

Lemma voters_stake s : set_stake c (voters_from s) = stake_from s pairs.
Proof.
  unfold stake_from. rewrite (pairs_stake (λ i, s <=? i)). unfold set_stake. apply sum_N_ext. intros a Ha.
  unfold voters_from. destruct (N.leb_spec s (default 0 (highest !! N.to_nat a))).
  - rewrite decide_True; [done|]. rewrite elem_of_list_to_set, list_elem_of_filter. done.
  - rewrite decide_False; [done|]. rewrite elem_of_list_to_set, list_elem_of_filter. intros [? _]. lia.
Qed.

(** The quorum commit index is the highest index that a quorum has voted for. *)
Lemma quorum_commit_index_max :
  let q := quorum_commit_index self in
  reached_quorum c (set_stake c (voters_from q)) = true ∧
  ∀ s, q < s → reached_quorum c (set_stake c (voters_from s)) = false.
Proof.
  unfold quorum_commit_index. set (l := sort_by _ _).
  assert (Hp : l ≡ₚ pairs) by apply sort_by_perm.
  assert (Hs : StronglySorted (λ p q : CommitIndex * Stake, q.1 ≤ p.1) l).
  { eapply StronglySorted_weaken; [|apply sort_by_sorted].
    - intros p q [Hle _]%ord_prod_leb. by apply N.leb_le in Hle.
    - intros p q. destruct (ord_total p q); auto.
    - intros p q r Hpq Hqr. by eapply ord_trans. }
  pose proof (wf_quorum _ Hc) as Hq. pose proof (wf_positive _ Hc) as Hpos. pose proof (wf_bound _ Hc) as Hb.
  destruct (quorum_loop_spec (quorum_threshold c) 0 l Hs) as [Hreach Hmax].
  - rewrite Hq. by apply N.add_pos_r.
  - rewrite (sum_N_perm _ _ _ Hp), pairs_total, Hq.
    pose proof (N.Div0.div_lt_upper_bound (2 * total_stake c) 3 (total_stake c) ltac:(lia)). lia.
  - rewrite (sum_N_perm _ _ _ Hp), pairs_total. lia.
  - assert (Hst : ∀ s, stake_from s l = set_stake c (voters_from s)).
    { intros s. rewrite voters_stake. by apply sum_N_perm. }
    unfold reached_quorum. split.
    + rewrite <-Hst. apply N.leb_le. lia.
    + intros s Hlt. rewrite <-Hst. apply N.leb_gt. specialize (Hmax s Hlt). lia.
Qed.
End monitor.

(** *** What it has observed *)

Lemma observe_votes_Ok author highest (vs : list CommitRef) :
  (N.to_nat author < length highest)%nat →
  ∃ highest', foldM (observe_vote author) highest vs = Ok highest' ∧ length highest' = length highest ∧
    ∀ a s, s ≤ default 0 (highest' !! a) ↔
      s ≤ default 0 (highest !! a) ∨ (a = N.to_nat author ∧ ∃ v, v ∈ vs ∧ s ≤ cr_index v).
Proof.
  revert highest. induction vs as [|v vs IH]; intros highest Hlt.
  { exists highest. split_and!; [done..|]. intros a s. split; [by left|]. intros [?|(_ & v & Hv & _)]; [done|].
    by apply not_elem_of_nil in Hv. }
  cbn [foldM]. destruct (lookup_lt_is_Some_2 highest (N.to_nat author)) as [h Hh]; [done|].
  assert (∃ highest1, observe_vote author highest v = Ok highest1 ∧ length highest1 = length highest ∧
    ∀ a s, s ≤ default 0 (highest1 !! a) ↔ s ≤ default 0 (highest !! a) ∨ (a = N.to_nat author ∧ s ≤ cr_index v))
    as (highest1 & -> & Hlen & H1).
  { unfold observe_vote, vec_set, vec_index. rewrite Hh. cbn [expect mbind outcome_bind].
    destruct (N.ltb_spec h (cr_index v)) as [Hv|Hv].
    - eexists. split; [done|]. rewrite length_insert. split; [done|]. intros a s.
      destruct (decide (a = N.to_nat author)) as [->|Hne].
      + rewrite list_lookup_insert_eq, Hh by done. simpl. split; [by right|]. intros [?|[_ ?]]; lia.
      + rewrite list_lookup_insert_ne by done. naive_solver.
    - eexists. split; [done|]. split; [done|]. intros a s. split; [by left|]. intros [?|[-> ?]]; [done|].
      rewrite Hh. simpl. lia. }
  destruct (IH highest1) as (highest' & Hf & Hlen' & H'); [by rewrite Hlen|].
  exists highest'. split_and!; [done|by rewrite Hlen', Hlen|]. intros a s. rewrite H', H1.
  setoid_rewrite elem_of_cons. naive_solver.
Qed.

(** The authorities that have voted for [s] or above in the blocks. *)
Definition index_voters (blocks : list VerifiedBlock) (s : CommitIndex) : gset AuthorityIndex :=
  list_to_set (vb_author <$> filter (λ b, Exists (λ v, s ≤ cr_index v) (vb_commit_votes b)) blocks).

Lemma elem_of_index_voters blocks s a :
  a ∈ index_voters blocks s ↔ ∃ b v, b ∈ blocks ∧ vb_author b = a ∧ v ∈ vb_commit_votes b ∧ s ≤ cr_index v.
Proof.
  unfold index_voters. rewrite elem_of_list_to_set, list_elem_of_fmap. split.
  - intros (b & -> & [(v & Hv & Hs)%Exists_exists Hb]%list_elem_of_filter). eauto 10.
  - intros (b & v & Hb & <- & Hv & Hs). exists b. split; [done|]. apply list_elem_of_filter.
    split; [|done]. apply Exists_exists. eauto.
Qed.

(** The monitor after the blocks. *)
Definition observed (context : Context) (blocks : list VerifiedBlock) (m : CommitVoteMonitor) : Prop :=
  cvm_context m = context ∧ N.of_nat (length (highest_voted_commits m)) = committee_size (committee context) ∧
  ∀ a s, 0 < s → s ≤ default 0 (highest_voted_commits m !! N.to_nat a) ↔ a ∈ index_voters blocks s.

Lemma observed_new context : observed context [] (commit_vote_monitor_new context).
Proof.
  unfold commit_vote_monitor_new. split_and!; simpl; [done|rewrite length_replicate; lia|].
  intros a s Hs. rewrite elem_of_index_voters. split.
  - destruct (replicate _ _ !! _) as [x|] eqn:Hx; simpl; [apply lookup_replicate in Hx as [-> _]|]; lia.
  - intros (b & v & Hb & _). by apply not_elem_of_nil in Hb.
Qed.

Lemma observe_Ok context blocks m b :
  observed context blocks m → vb_author b < committee_size (committee context) →
  ∃ m', observe m b = Ok m' ∧ observed context (blocks ++ [b]) m'.
Proof.
  intros (Hctx & Hlen & Hobs) Ha. unfold observe.
  destruct (observe_votes_Ok (vb_author b) (highest_voted_commits m) (vb_commit_votes b)) as (h & -> & Hl & Hh); [lia|].
  eexists. split; [done|]. split_and!; simpl; [done|by rewrite Hl|]. intros a s Hs.
  rewrite Hh, Hobs, !elem_of_index_voters by done. setoid_rewrite elem_of_app. setoid_rewrite list_elem_of_singleton. split.
  - intros [(b' & v & Hb' & ? & ? & ?)|[Heq (v & Hv & Hsv)]]; [eauto 10|].
    exists b, v. split_and!; [by right|lia|done..].
  - intros (b' & v & [Hb'| ->] & Hba & Hv & Hsv); [left; eauto 10|right]. split; [lia|eauto].
Qed.

Lemma observe_blocks_Ok context blocks m bs :
  observed context blocks m → Forall (λ b, vb_author b < committee_size (committee context)) bs →
  ∃ m', foldM observe m bs = Ok m' ∧ observed context (blocks ++ bs) m'.
Proof.
  revert blocks m. induction bs as [|b bs IH]; intros blocks m Hobs Hall.
  { exists m. by rewrite app_nil_r. }
  apply Forall_cons in Hall as [Hb Hall]. destruct (observe_Ok context blocks m b Hobs Hb) as (m1 & Hm1 & Hobs1).
  destruct (IH _ _ Hobs1 Hall) as (m' & Hf & Hobs'). exists m'. cbn [foldM]. rewrite Hm1. split; [done|].
  by rewrite <-app_assoc in Hobs'.
Qed.

Lemma observed_voters context blocks m s :
  observed context blocks m → Forall (λ b, vb_author b < committee_size (committee context)) blocks →
  0 < s → voters_from m s = index_voters blocks s.
Proof.
  intros (Hctx & Hlen & Hobs) Hall Hs. apply set_eq. intros a. unfold voters_from.
  rewrite elem_of_list_to_set, list_elem_of_filter, Hobs, Hctx by done. split; [by intros [? _]|].
  intros Ha. split; [done|]. apply elem_of_index_voters in Ha as (b & v & Hb & <- & _).
  rewrite Forall_forall in Hall. specialize (Hall b Hb). unfold indices. apply list_elem_of_fmap.
  exists (N.to_nat (vb_author b)). rewrite N2Nat.id. split; [done|]. apply elem_of_seq. unfold committee_size in Hall. lia.
Qed.

(** C20: The commit vote monitor never panics on blocks of the committee, and after any blocks its
    quorum commit index is exactly the highest index that authorities with a quorum of the stake
    have voted for, or for a later one; 0 when there is none.  It never decreases. *)
Theorem quorum_commit_index_spec context blocks :
  committee_wf (committee context) → Forall (λ b, vb_author b < committee_size (committee context)) blocks →
  ∃ m, foldM observe (commit_vote_monitor_new context) blocks = Ok m ∧
    let q := quorum_commit_index m in
    (0 < q → reached_quorum (committee context) (set_stake (committee context) (index_voters blocks q)) = true) ∧
    (∀ s, q < s → reached_quorum (committee context) (set_stake (committee context) (index_voters blocks s)) = false) ∧
    ∀ b, vb_author b < committee_size (committee context) →
      ∃ m', observe m b = Ok m' ∧ q ≤ quorum_commit_index m'.
Proof.
  intros Hc Hall. destruct (observe_blocks_Ok context [] (commit_vote_monitor_new context) blocks) as (m & Hm & Hobs);
    [apply observed_new|done|]. simpl in Hobs. exists m. split; [done|].
  pose proof Hobs as (Hctx & Hlen & _).
  destruct (quorum_commit_index_max m) as [Hq Hmax]; [by rewrite Hctx|by rewrite Hctx|]. rewrite Hctx in Hq, Hmax.
  cbv zeta. split_and!.
  - intros Hpos. rewrite <-(observed_voters context blocks m) by done. done.
  - intros s Hs. rewrite <-(observed_voters context blocks m) by (done || lia). by apply Hmax.
  - intros b Hb. destruct (observe_Ok context blocks m b Hobs Hb) as (m' & Hm' & Hobs'). exists m'. split; [done|].
    pose proof Hobs' as (Hctx' & Hlen' & _). destruct (quorum_commit_index_max m') as [_ Hmax']; [by rewrite Hctx'|by rewrite Hctx'|].
    rewrite Hctx' in Hmax'. destruct (N.le_gt_cases (quorum_commit_index m) (quorum_commit_index m')) as [|Hgt]; [done|].
    exfalso. specialize (Hmax' _ Hgt). rewrite (observed_voters context (blocks ++ [b]) m') in Hmax'; [|done| |lia].
    2:{ apply Forall_app. split; [done|by constructor]. }
    rewrite (observed_voters context blocks m) in Hq by (done || lia).
    unfold reached_quorum in *. apply N.leb_le in Hq. apply N.leb_gt in Hmax'.
    assert (set_stake (committee context) (index_voters blocks (quorum_commit_index m)) ≤
            set_stake (committee context) (index_voters (blocks ++ [b]) (quorum_commit_index m))); [|lia].
    apply set_stake_mono. intros a. rewrite !elem_of_index_voters. setoid_rewrite elem_of_app. naive_solver.
Qed.

(** *** What [verify_commits] accepts *)

Section verify_commits_facts.
Context `{Crypto, TransactionVerifier, BcsParser}.

(** The commits received so far: parsed, in sequence, and within the range. *)
Record sequence_ok (start end_ : CommitIndex) (ss : list bytes) (l : list (CommitDigest * Commit)) : Prop := {
  sq_parsed : Forall2 (λ s p, parse_commit s = RustOk p.2 ∧ p.1 = blake2b256 s) ss l;
  sq_index i p : l !! i = Some p → cv1_index (commit_v1 p.2) = start + N.of_nat i ∧ cv1_index (commit_v1 p.2) ≤ end_;
  sq_chained i p p' : l !! i = Some p → l !! S i = Some p' → cv1_previous_digest (commit_v1 p'.2) = p.1;
}.

Lemma check_sequence_ok peer start end_ ss l s commit :
  end_ < U32_MAX → sequence_ok start end_ ss l → parse_commit s = RustOk commit →
  check_sequence peer start l commit = RustOk () → cv1_index (commit_v1 commit) ≤ end_ →
  sequence_ok start end_ (ss ++ [s]) (l ++ [(blake2b256 s, commit)]).
Proof.
  intros He [Hp Hi Hch] Hs Hck Hle. unfold check_sequence in Hck. destruct l as [|[d0 c0] l' _] using rev_ind.
  - inversion Hp; subst. simpl in Hck. destruct (N.eqb_spec (cv1_index (commit_v1 commit)) start) as [Heq|]; [|done].
    split; simpl; [by repeat constructor| |].
    + intros i p [-> <-]%list_lookup_singleton_Some. simpl. split; lia.
    + done.
  - rewrite last_snoc in Hck. set (l := l' ++ [(d0, c0)]) in *.
    destruct (N.eqb_spec (cv1_index (commit_v1 commit)) (cv1_index (commit_v1 c0) +u32 1)) as [Hidx|]; [|done].
    destruct (N.eqb_spec (cv1_previous_digest (commit_v1 commit)) d0) as [Hprev|]; [|done].
    assert (Hlast : l !! length l' = Some (d0, c0)) by (unfold l; by rewrite list_lookup_middle).
    destruct (Hi _ _ Hlast) as [Hi0 Hi0e]. simpl in Hi0, Hi0e.
    assert (Hlen : length l = S (length l')) by (unfold l; rewrite length_app; simpl; lia).
    rewrite u32_add_small in Hidx by (unfold U32_MAX in He; lia). split.
    + apply Forall2_app; [done|by repeat constructor].
    + intros i p Hip. apply lookup_app_Some in Hip as [Hip|[Hge Hip]]; [by apply Hi|].
      apply list_lookup_singleton_Some in Hip as [Hi' <-]. simpl. lia.
    + intros i p p' Hip Hip'. apply lookup_app_Some in Hip' as [Hip'|[Hge Hip']].
      * eapply Hch; [|done]. rewrite lookup_app_l in Hip; [done|]. apply lookup_lt_Some in Hip'. lia.
      * apply list_lookup_singleton_Some in Hip' as [Hi' <-]. rewrite lookup_app_l in Hip by lia.
        assert (i = length l') as -> by lia. rewrite Hlast in Hip. injection Hip as <-. done.
Qed.

Lemma parse_commits_sequence peer start end_ ss l rest l' :
  end_ < U32_MAX → sequence_ok start end_ ss l → parse_commits peer start end_ l rest = RustOk l' →
  ∃ k, sequence_ok start end_ (ss ++ take k rest) l'.
Proof.
  intros He. revert ss l. induction rest as [|s rest IH]; intros ss l Hl Hp; simpl in Hp.
  { injection Hp as <-. exists 0%nat. by rewrite app_nil_r. }
  destruct (parse_commit s) as [commit|e] eqn:Hs; [|done]. simpl in Hp.
  destruct (check_sequence peer start l commit) as [[]|e] eqn:Hck; [|done]. simpl in Hp.
  destruct (N.ltb_spec end_ (cv1_index (commit_v1 commit))) as [Hgt|Hle].
  { injection Hp as <-. exists 0%nat. by rewrite app_nil_r. }
  destruct (IH (ss ++ [s]) (l ++ [(blake2b256 s, commit)])) as [k Hk]; [by eapply check_sequence_ok|done|].
  exists (S k). by rewrite <-app_assoc in Hk.
Qed.

(** The authors of the blocks that vote for the commit. *)
Definition digest_voters (blocks : list SignedBlock) (r : CommitRef) : gset AuthorityIndex :=
  list_to_set ((block_author ∘ inner) <$> filter (λ b, r ∈ block_commit_votes (inner b)) blocks).

Section counting.
Context (context : Context) (v : SignedBlockVerifier).
Local Abbreviation c := (committee context).
Context (Hc : committee_wf c) (Hv : committee (bv_context v) = c).

Lemma verified_author b : verify v b = Ok (RustOk ()) → block_author (inner b) < committee_size c.
Proof.
  intros Hb. destruct (verify_accepts v b) as (r & Hr & Hiff); [by rewrite Hv|]. rewrite Hb in Hr. injection Hr as <-.
  destruct (proj1 Hiff eq_refl) as [[_ _ Ha _] _]. by rewrite Hv in Ha.
Qed.

Lemma count_block_votes (r : CommitRef) (agg : StakeAggregator QuorumThreshold) a (vs : list CommitRef) :
  aggregator_wf c agg → a < committee_size c →
  ∃ agg', foldM (λ agg vote, if bool_decide (vote = r)
      then '(_, agg) ← aggregator_add agg a c; Ok agg else Ok agg) agg vs = Ok agg' ∧
    aggregator_wf c agg' ∧ votes agg' = (if decide (r ∈ vs) then {[a]} else ∅) ∪ votes agg.
Proof.
  intros Hagg Ha. revert agg Hagg. induction vs as [|x vs IH]; intros agg Hagg.
  { exists agg. split_and!; [done..|]. rewrite decide_False by apply not_elem_of_nil. set_solver. }
  cbn [foldM]. case_bool_decide as Hx.
  - subst x. destruct (aggregator_add_Ok c Hc agg a Hagg Ha) as (agg1 & Hadd & Hvo & Hwf1). rewrite Hadd.
    cbn [mbind outcome_bind]. destruct (IH agg1 Hwf1) as (agg2 & -> & Hwf2 & Hvo2). exists agg2. split_and!; [done..|].
    rewrite Hvo2, Hvo. rewrite (decide_True (P := r ∈ r :: vs)) by left. destruct (decide (r ∈ vs)); set_solver.
  - cbn [mbind outcome_bind]. destruct (IH agg Hagg) as (agg2 & -> & Hwf2 & Hvo2). exists agg2. split_and!; [done..|].
    rewrite Hvo2. destruct (decide (r ∈ vs)) as [Hin|Hnin].
    + by rewrite decide_True by by right.
    + rewrite decide_False; [done|]. by intros [?|?]%elem_of_cons.
Qed.

Lemma count_votes_Ok r agg ss :
  aggregator_wf c agg →
  ∃ res, count_votes context v r agg ss = Ok res ∧
    ∀ agg', res = RustOk agg' → aggregator_wf c agg' ∧
      ∃ blocks, Forall2 (λ s b, parse_signed_block s = RustOk b ∧ verify v b = Ok (RustOk ())) ss blocks ∧
        votes agg' = digest_voters blocks r ∪ votes agg.
Proof.
  revert agg. induction ss as [|s ss IH]; intros agg Hagg; simpl.
  { eexists. split; [done|]. intros agg' [= <-]. split; [done|]. exists []. split; [done|]. unfold digest_voters. simpl. set_solver. }
  destruct (parse_signed_block s) as [b|e] eqn:Hs; simpl; [|by eexists].
  destruct (verify_accepts v b) as (res & Hr & _); [by rewrite Hv|]. rewrite Hr. cbn [mbind outcome_bind].
  destruct res as [[]|e]; [|by eexists].
  destruct (count_block_votes r agg (block_author (inner b)) (block_commit_votes (inner b)) Hagg) as (agg1 & Hf & Hwf1 & Hv1);
    [by apply verified_author|]. rewrite Hf. cbn [mbind outcome_bind].
  destruct (IH agg1 Hwf1) as (res & -> & Hres). exists res. split; [done|]. intros agg' Heq.
  destruct (Hres agg' Heq) as (Hwf' & blocks & Hbl & Hvo). split; [done|]. exists (b :: blocks). split; [by constructor|].
  rewrite Hvo, Hv1. unfold digest_voters. rewrite filter_cons. destruct (decide (r ∈ block_commit_votes (inner b))); simpl; set_solver.
Qed.
End counting.

(** The accepted commits. *)
Record accepted_commits (start end_ : CommitIndex) (ss : list bytes) (cs : list TrustedCommit) : Prop := {
  ac_nonempty : cs ≠ [];
  ac_index i c : cs !! i = Some c → commit_index c = start + N.of_nat i ∧ commit_index c ≤ end_;
  ac_chained i c c' : cs !! i = Some c → cs !! S i = Some c' → commit_previous_digest c' = tc_digest c;
  ac_received i c : cs !! i = Some c → ss !! i = Some (tc_serialized c) ∧
    parse_commit (tc_serialized c) = RustOk (tc_inner c) ∧ tc_digest c = blake2b256 (tc_serialized c);
}.

Lemma sequence_accepted start end_ ss k (l : list (CommitDigest * Commit)) :
  sequence_ok start end_ (take k ss) l → l ≠ [] →
  let cs := (λ p, new_trusted p.1.2 p.2) <$> zip l ss in
  accepted_commits start end_ ss cs ∧ length cs = length l ∧
  ∀ i p, l !! i = Some p → ∃ c, cs !! i = Some c ∧ commit_reference c = mkCommitRef (cv1_index (commit_v1 p.2)) p.1.
Proof.
  intros [Hp Hi Hch] Hne cs.
  assert (Hlen : (length l ≤ length ss)%nat).
  { pose proof (Forall2_length _ _ _ Hp) as Hl. rewrite length_take in Hl. lia. }
  assert (Hget : ∀ i c, cs !! i = Some c → ∃ p s, l !! i = Some p ∧ ss !! i = Some s ∧ c = new_trusted p.2 s ∧
    parse_commit s = RustOk p.2 ∧ p.1 = blake2b256 s).
  { intros i c. unfold cs. rewrite list_lookup_fmap_Some. intros ([p s] & -> & Hz).
    rewrite lookup_zip_Some in Hz. destruct Hz as [Hlp Hss]. exists p, s.
    destruct (Forall2_lookup_r _ _ _ _ _ Hp Hlp) as (s' & Hs' & Hps & Hd).
    apply lookup_take_Some in Hs' as [Hs' _]. rewrite Hss in Hs'. injection Hs' as <-. done. }
  split; [split|split].
  - intros Hnil. unfold cs in Hnil. apply fmap_nil_inv in Hnil. destruct l as [|p l]; [done|]. destruct ss; simpl in *; [lia|done].
  - intros i c (p & s & Hlp & _ & -> & _)%Hget. by apply Hi.
  - intros i c c' (p & s & Hlp & _ & -> & _ & Hd)%Hget (p' & s' & Hlp' & _ & -> & _)%Hget. simpl.
    rewrite <-Hd. by eapply Hch.
  - intros i c (p & s & Hlp & Hs & -> & Hps & _)%Hget. done.
  - unfold cs. rewrite length_fmap, length_zip. lia.
  - intros i p Hlp. destruct (lookup_lt_is_Some_2 ss i) as [s Hs]; [apply lookup_lt_Some in Hlp; lia|].
    exists (new_trusted p.2 s). split.
    + unfold cs. rewrite list_lookup_fmap, lookup_zip_with, Hlp. simpl. by rewrite Hs.
    + destruct (Forall2_lookup_r _ _ _ _ _ Hp Hlp) as (s' & Hs' & _ & Hd).
      apply lookup_take_Some in Hs' as [Hs' _]. rewrite Hs in Hs'. injection Hs' as <-.
      unfold commit_reference, commit_index. simpl. by rewrite Hd.
Qed.

(** Whatever a peer answers, [verify_commits] never panics; what it accepts is a non-empty
    sequence of commits from the start of the range on, within the range, each naming the digest
    of the one before, and verified blocks of authorities with a quorum of the stake, among those
    received, vote for the last of them. *)
Lemma verify_commits_certified context v peer start end_ ss bs :
  committee_wf (committee context) → committee (bv_context v) = committee context → end_ < U32_MAX →
  ∃ res, verify_commits context v peer start end_ ss bs = Ok res ∧
    ∀ cs, res = RustOk cs → accepted_commits start end_ ss cs ∧
      ∃ blocks c, Forall2 (λ s b, parse_signed_block s = RustOk b ∧ verify v b = Ok (RustOk ())) bs blocks ∧
        last cs = Some c ∧
        reached_quorum (committee context) (set_stake (committee context) (digest_voters blocks (commit_reference c))) = true.
Proof.
  intros Hc Hv He. unfold verify_commits.
  destruct (parse_commits peer start end_ [] ss) as [l|e] eqn:Hp; [|by eexists].
  destruct (parse_commits_sequence peer start end_ [] [] ss l He) as [k Hl]; [|done|].
  { split; [constructor|done..]. }
  simpl in Hl. destruct (last l) as [[d cm]|] eqn:Hlast; [|by eexists].
  destruct (count_votes_Ok context v Hc Hv (mkCommitRef (cv1_index (commit_v1 cm)) d) aggregator_new bs) as (res & -> & Hres);
    [by apply aggregator_new_wf|]. cbn [mbind outcome_bind]. destruct res as [agg|e]; [|by eexists].
  destruct (Hres agg eq_refl) as ([Hst _] & blocks & Hbl & Hvo).
  destruct (reached_threshold agg (committee context)) eqn:Hr; simpl; [|by eexists].
  eexists. split; [done|]. intros cs [= <-].
  destruct (sequence_accepted start end_ ss k l Hl) as (Hacc & Hlen & Hall).
  { intros ->. done. }
  split; [done|]. rewrite last_lookup in Hlast. destruct (Hall _ _ Hlast) as (c & Hcs & Href). simpl in Href.
  exists blocks, c. split; [done|]. split; [by rewrite last_lookup, Hlen|]. rewrite Href.
  unfold reached_threshold in Hr. rewrite Hst, Hvo in Hr.
  change (votes aggregator_new) with (∅ : gset AuthorityIndex) in Hr. by rewrite union_empty_r_L in Hr.
Qed.

(** ** Properties *)

(** The commits that the honest validators have made, as they serialize them. *)
Record honest_chain (chain : list TrustedCommit) : Prop := {
  hc_index i c : chain !! i = Some c → commit_index c = N.of_nat i + 1;
  hc_chained i c c' : chain !! i = Some c → chain !! S i = Some c' → commit_previous_digest c' = tc_digest c;
  hc_parses c : c ∈ chain → parse_commit (tc_serialized c) = RustOk (tc_inner c);
  hc_digest c : c ∈ chain → tc_digest c = blake2b256 (tc_serialized c);
}.

(** The verified blocks of honest authorities, among those received, vote for commits of the chain. *)
Definition honest_votes (v : SignedBlockVerifier) (byz : gset AuthorityIndex) (bs : list bytes) (chain : list TrustedCommit) : Prop :=
  ∀ s b r, s ∈ bs → parse_signed_block s = RustOk b → verify v b = Ok (RustOk ()) → block_author (inner b) ∉ byz →
    r ∈ block_commit_votes (inner b) → ∃ c, c ∈ chain ∧ commit_reference c = r.

(** Going back from a common commit. *)
Lemma same_chain chain start end_ ss cs k i c :
  honest_chain chain → accepted_commits start end_ ss cs → 0 < start →
  (∀ c s, c ∈ chain → s ∈ ss → blake2b256 s = tc_digest c → s = tc_serialized c) →
  cs !! (i + k)%nat = Some c → chain !! (N.to_nat start - 1 + (i + k))%nat = Some c →
  ∀ c', cs !! i = Some c' → chain !! (N.to_nat start - 1 + i)%nat = Some c'.
Proof.
  intros Hch Hacc Hst Hcoll. revert i c. induction k as [|k IH]; intros i c Hc Hchain c' Hc'.
  { rewrite Nat.add_0_r in Hc, Hchain. congruence. }
  rewrite Nat.add_succ_r, <-Nat.add_succ_l in Hc, Hchain.
  destruct (lookup_lt_is_Some_2 cs (S i)) as [c1 Hc1]; [apply lookup_lt_Some in Hc; lia|].
  pose proof (IH (S i) c Hc Hchain c1 Hc1) as Hc1'.
  pose proof (ac_chained _ _ _ _ Hacc _ _ _ Hc' Hc1) as Hprev.
  destruct (lookup_lt_is_Some_2 chain (N.to_nat start - 1 + i)) as [x Hx]; [apply lookup_lt_Some in Hc1'; lia|].
  rewrite Nat.add_succ_r in Hc1'. pose proof (hc_chained _ Hch _ _ _ Hx Hc1') as Hprev'.
  destruct (ac_received _ _ _ _ Hacc _ _ Hc') as (Hs & Hparse & Hd).
  assert (Hxin : x ∈ chain) by by eapply list_elem_of_lookup_2.
  assert (tc_serialized c' = tc_serialized x) as Hser.
  { apply (Hcoll x); [done|by eapply list_elem_of_lookup_2|congruence]. }
  rewrite Hx. f_equal. pose proof (hc_parses _ Hch x Hxin) as Hpx. rewrite <-Hser, Hparse in Hpx.
  injection Hpx as Hin. destruct x, c'. simpl in *. congruence.
Qed.

(** C14: Certified commits are the honest ones.  When the honest validators have made the commits
    of one chain and vote only for those, the Byzantine authorities have less than the validity
    threshold of stake, and digests do not collide, the commits that [verify_commits] accepts are
    exactly the ones of the chain, from the start of the range on. *)
Theorem accepted_commits_honest context v peer start end_ ss bs cs byz chain :
  committee_wf (committee context) → committee (bv_context v) = committee context → 0 < start → end_ < U32_MAX →
  set_stake (committee context) byz < validity_threshold (committee context) →
  honest_chain chain → honest_votes v byz bs chain →
  (∀ c s, c ∈ chain → s ∈ ss → blake2b256 s = tc_digest c → s = tc_serialized c) →
  verify_commits context v peer start end_ ss bs = Ok (RustOk cs) →
  cs ≠ [] ∧ ∀ i c, cs !! i = Some c → chain !! (N.to_nat start - 1 + i)%nat = Some c.
Proof.
  intros Hc Hv Hst He Hbyz Hch Hvotes Hcoll Hver.
  destruct (verify_commits_certified context v peer start end_ ss bs Hc Hv He) as (res & Hres & Hok).
  rewrite Hver in Hres. injection Hres as <-. destruct (Hok cs eq_refl) as (Hacc & blocks & c & Hbl & Hlast & Hq).
  split; [apply Hacc|].
  destruct (quorum_overlap_honest _ _ _ byz Hc Hbyz Hq Hq) as (a & Ha & _ & Hhon & _).
  unfold digest_voters in Ha. rewrite elem_of_list_to_set, list_elem_of_fmap in Ha.
  destruct Ha as (b & -> & [Hvote Hb]%list_elem_of_filter).
  apply list_elem_of_lookup in Hb as [j Hb]. destruct (Forall2_lookup_r _ _ _ _ _ Hbl Hb) as (s & Hs0 & Hp0 & Hverb).
  destruct (Hvotes s b _ (list_elem_of_lookup_2 _ _ _ Hs0) Hp0 Hverb Hhon Hvote) as (x & Hx & Href).
  rewrite last_lookup in Hlast. destruct (ac_received _ _ _ _ Hacc _ _ Hlast) as (Hs & Hparse & Hd).
  destruct (ac_index _ _ _ _ Hacc _ _ Hlast) as [Hidx _].
  assert (commit_index x = commit_index c ∧ tc_digest x = tc_digest c) as [Hxi Hxd].
  { unfold commit_reference in Href. by injection Href. }
  apply list_elem_of_lookup in Hx as [m Hm]. pose proof (hc_index _ Hch _ _ Hm) as Hmi.
  assert (Hxin : x ∈ chain) by by eapply list_elem_of_lookup_2.
  assert (tc_serialized c = tc_serialized x) as Hser.
  { apply (Hcoll x); [done|by eapply list_elem_of_lookup_2|congruence]. }
  assert (x = c) as ->.
  { pose proof (hc_parses _ Hch x Hxin) as Hpx. rewrite <-Hser, Hparse in Hpx. injection Hpx as Hin.
    destruct x, c. simpl in *. congruence. }
  intros i c' Hi. pose proof (lookup_lt_Some _ _ _ Hi) as Hlt.
  apply (same_chain chain start end_ ss cs (pred (length cs) - i) i c); try done.
  - by replace (i + (pred (length cs) - i))%nat with (pred (length cs)) by lia.
  - rewrite <-Hm. f_equal. lia.
Qed.
End verify_commits_facts.
