(* ===== verification/CommitSyncer.v ===== *)
(** Commit synchronization ([consensus/core/src/commit_syncer.rs]): a validator that has fallen
    behind the commits of a quorum fetches ranges of certified commits and their blocks from
    other authorities, several ranges at a time, and sends the blocks to its core in the order of
    the commits. *)

From stdpp Require Import base strings numbers sorting gmap sets list.
From S2P Require Import Prelude Committee Block Dag StakeAggregator Commit BlockVerifier CoreThread CommitVotes.

Open Scope N_scope.

(** ** The authorities to fetch from *)

(** An [Instant] is a number of milliseconds. *)
Definition FETCH_RETRY_BASE_INTERVAL : N := 1000.
Definition FETCH_RETRY_INTERVAL_LIMIT : N := 30.

(** The next time an authority is available, its consecutive failures, and its index. *)
Record FetchState := mkFetchState {
  available_authorities : gset (N * N * AuthorityIndex);
}.

Definition peer_indices (context : Context) : list AuthorityIndex :=
  filter (λ index, index ≠ own_index context) (fst <$> committee_authorities (committee context)).

(** [FetchState::new]; [shuffle] is what the random generator does, [now i] the [i]-th reading of
    the clock. *)
Definition fetch_state_new (context : Context) (shuffle : list AuthorityIndex → list AuthorityIndex)
    (now : nat → N) : FetchState :=
  mkFetchState (list_to_set (imap (λ i index, (now i, 0, index)) (shuffle (peer_indices context)))).

(** [available_authorities.pop_first()]. *)
Definition pop_available (self : FetchState) : option (N * N * AuthorityIndex * FetchState) :=
  a ← bt_first (available_authorities self);
  Some (a, mkFetchState (available_authorities self ∖ {[a]})).

(** The authority is available again, after a success or a failure. *)
Definition fetch_succeeded (self : FetchState) (now : N) (authority : AuthorityIndex) : FetchState :=
  mkFetchState ({[(now, 0, authority)]} ∪ available_authorities self).

Definition fetch_failed (self : FetchState) (now retries : N) (authority : AuthorityIndex) : FetchState :=
  mkFetchState ({[(now + FETCH_RETRY_BASE_INTERVAL * N.min retries FETCH_RETRY_INTERVAL_LIMIT,
                   N.min (retries + 1) U32_MAX, authority)]} ∪ available_authorities self).

(** ** A fetch from one authority *)

Section fetch.
Context `{Crypto, TransactionVerifier, BcsParser}.

(** The checks of one received block against the reference that was requested. *)
Definition check_fetched (peer : AuthorityIndex) (requested : BlockRef) (signed_block : SignedBlock) (serialized : bytes) :
    ConsensusResult VerifiedBlock :=
  let received := mkBlockRef (block_round (inner signed_block)) (block_author (inner signed_block)) (blake2b256 serialized) in
  if bool_decide (requested = received) then RustOk (new_verified signed_block serialized)
  else RustErr (UnexpectedBlockForCommit peer requested received).

(** Steps 5 to 7 of [fetch_once], on the answer to one request. *)
Definition check_blocks (peer : AuthorityIndex) (request_block_refs : list BlockRef) (serialized_blocks : list bytes) :
    ConsensusResult (list VerifiedBlock) :=
  if negb (length request_block_refs =? length serialized_blocks)%nat then
    RustErr (UnexpectedNumberOfBlocksFetched peer (N.of_nat (length request_block_refs)) (N.of_nat (length serialized_blocks)))
  else
    try_ (collect_results ((λ s, map_err MalformedBlock (parse_signed_block s)) <$> serialized_blocks)) (λ signed_blocks,
    collect_results ((λ p, check_fetched peer p.1.1 p.1.2 p.2) <$>
      zip (zip request_block_refs signed_blocks) serialized_blocks)).

(** Step 8: the time at which the clock has passed the timestamps of the blocks. *)
Definition wait_for_timestamps (now : BlockTimestampMs) (blocks : list VerifiedBlock) : BlockTimestampMs :=
  foldl (λ now block, now + (vb_timestamp_ms block - now)) now blocks.

(** Steps 3 to 8 of [fetch_once], on the answer of the authority; [fetch_blocks] are its answers
    to the requests for blocks, and [now] the time when they have arrived.  With the result comes
    the time at which it is returned. *)
Definition fetch_verified (context : Context) (params : Parameters) (block_verifier : SignedBlockVerifier)
    (target_authority : AuthorityIndex) (start end_ : CommitIndex) (serialized_commits serialized_blocks : list bytes)
    (fetch_blocks : list BlockRef → ConsensusResult (list bytes)) (now : BlockTimestampMs) :
    outcome (ConsensusResult (list TrustedCommit * list VerifiedBlock * BlockTimestampMs)) :=
  verified ← verify_commits context block_verifier target_authority start end_ serialized_commits serialized_blocks;
  match verified with
  | RustErr e => Ok (RustErr e)
  | RustOk commits =>
      let block_refs := commits ≫= commit_blocks in
      requests ← chunks block_refs (max_blocks_per_fetch params);
      match collect_results ((λ refs, try_ (fetch_blocks refs) (check_blocks target_authority refs)) <$> requests) with
      | RustErr e => Ok (RustErr e)
      | RustOk fetched_blocks =>
          let fetched_blocks := concat fetched_blocks in
          Ok (RustOk (commits, fetched_blocks, wait_for_timestamps now fetched_blocks))
      end
  end.

(** The answers of the authorities during a fetch. *)
Record NetworkClient := mkNetworkClient {
  client_fetch_commits : AuthorityIndex → CommitIndex → CommitIndex → ConsensusResult (list bytes * list bytes);
  client_fetch_blocks : AuthorityIndex → list BlockRef → list Round → ConsensusResult (list bytes);
}.

(** [fetch_once], when no other fetch runs; [now] is the time of the answers. *)
Definition fetch_once (context : Context) (params : Parameters) (block_verifier : SignedBlockVerifier)
    (network_client : NetworkClient) (now : N) (fetch_state : FetchState) (start end_ : CommitIndex) :
    outcome (ConsensusResult (list TrustedCommit * list VerifiedBlock * BlockTimestampMs) * FetchState) :=
  match pop_available fetch_state with
  | None => Ok (RustErr NoAvailableAuthorityToFetchCommits, fetch_state)
  | Some (_, retries, target_authority, fetch_state) =>
      match client_fetch_commits network_client target_authority start end_ with
      | RustErr e => Ok (RustErr e, fetch_failed fetch_state now retries target_authority)
      | RustOk (serialized_commits, serialized_blocks) =>
          let fetch_state := fetch_succeeded fetch_state now target_authority in
          result ← fetch_verified context params block_verifier target_authority start end_ serialized_commits serialized_blocks
            (λ refs, client_fetch_blocks network_client target_authority refs []) now;
          Ok (result, fetch_state)
      end
  end.
End fetch.

(** ** The schedule loop *)

(** A task that runs [fetch_loop] on a range of commits: it has no authority, it waits for the
    answer of one, or it verifies the answer and fetches the blocks. *)
Inductive FetchPhase : Type :=
| Starting
| Asking (retries : N) (authority : AuthorityIndex)
| Verifying (authority : AuthorityIndex) (serialized_commits serialized_blocks : list bytes).

Record FetchTask := mkFetchTask {
  task_start : CommitIndex;
  task_end : CommitIndex;
  task_phase : FetchPhase;
}.

(** The variables of [schedule_loop], and the state that the tasks share. *)
Record Syncer := mkSyncer {
  inflight_fetches : list FetchTask;
  pending_fetches : gset (CommitIndex * CommitIndex);
  fetched_blocks : gmap (CommitIndex * CommitIndex) (list VerifiedBlock);
  highest_scheduled_index : option CommitIndex;
  synced_commit_index : CommitIndex;
  fetch_state : FetchState;
}.

Definition syncer_new (fetch_state : FetchState) (last_commit_index : CommitIndex) : Syncer :=
  mkSyncer [] ∅ ∅ None last_commit_index fetch_state.

Definition with_synced (synced : CommitIndex) (s : Syncer) : Syncer :=
  mkSyncer (inflight_fetches s) (pending_fetches s) (fetched_blocks s) (highest_scheduled_index s) synced (fetch_state s).

Definition with_pending (pending : gset (CommitIndex * CommitIndex)) (highest : option CommitIndex) (s : Syncer) : Syncer :=
  mkSyncer (inflight_fetches s) pending (fetched_blocks s) highest (synced_commit_index s) (fetch_state s).

Definition with_fetched (fetched : gmap (CommitIndex * CommitIndex) (list VerifiedBlock)) (s : Syncer) : Syncer :=
  mkSyncer (inflight_fetches s) (pending_fetches s) fetched (highest_scheduled_index s) (synced_commit_index s) (fetch_state s).

Definition with_tasks (tasks : list FetchTask) (fs : FetchState) (s : Syncer) : Syncer :=
  mkSyncer tasks (pending_fetches s) (fetched_blocks s) (highest_scheduled_index s) (synced_commit_index s) fs.

(** The loop ['pending]. *)
Fixpoint schedule_ranges (batch_size quorum_commit_index : CommitIndex) (prev_ends : list CommitIndex) (s : Syncer) : Syncer :=
  match prev_ends with
  | [] => s
  | prev_end :: prev_ends =>
      let range_start := prev_end +u32 1 in
      let range_end := prev_end +u32 batch_size in
      if quorum_commit_index <? range_end then s
      else schedule_ranges batch_size quorum_commit_index prev_ends
             (with_pending ({[(range_start, range_end)]} ∪ pending_fetches s) (Some range_end) s)
  end.

(** The first branch of the loop: the interval ticks. *)
Definition on_tick (params : Parameters) (quorum_commit_index local_commit_index : CommitIndex) (s : Syncer) : outcome Syncer :=
  let s := with_synced (N.max (synced_commit_index s) local_commit_index) s in
  let fetch_after_index := N.max (synced_commit_index s) (default 0 (highest_scheduled_index s)) in
  prev_ends ← range_step_by fetch_after_index quorum_commit_index (commit_sync_batch_size params);
  Ok (schedule_ranges (commit_sync_batch_size params) quorum_commit_index prev_ends s).

Section schedule.
Context {D : Type} `{CoreThreadDispatcher D}.

(** An iteration of the loop ['fetched]; it leaves with [false] when the core has stopped. *)
Definition process_one (st : Syncer * D) : outcome (flow (Syncer * D) (bool * Syncer * D)) :=
  let '(s, d) := st in
  match bt_first_key_value (fetched_blocks s) with
  | None => Ok (Break (true, s, d))
  | Some ((fetched_start, fetched_end), blocks) =>
      if fetched_start <=? synced_commit_index s +u32 1 then
        let s := with_fetched (delete (fetched_start, fetched_end) (fetched_blocks s)) s in
        if fetched_end <=? synced_commit_index s then Ok (Continue (s, d))
        else
          '(res, d) ← dispatch_add_blocks d blocks;
          match res with
          | RustErr _ => Ok (Break (false, s, d))
          | RustOk _ => Ok (Continue (with_synced (N.max (synced_commit_index s) fetched_end) s, d))
          end
      else Ok (Break (true, s, d))
  end.

Definition process_fetched (s : Syncer) (d : D) : outcome (bool * Syncer * D) := while_loop process_one (s, d).

(** The second branch: a fetch has finished. *)
Definition on_fetched (target_end : CommitIndex) (commits : list TrustedCommit) (blocks : list VerifiedBlock)
    (last_commit_index : CommitIndex) (s : Syncer) (d : D) : outcome (bool * Syncer * D) :=
  match head commits, last commits with
  | Some first, Some final =>
      let commit_start := commit_index first in
      let commit_end := commit_index final in
      let s :=
        if commit_end <? target_end
        then with_pending ({[(commit_end +u32 1, target_end)]} ∪ pending_fetches s) (highest_scheduled_index s) s
        else s in
      let s := with_synced (N.max (synced_commit_index s) last_commit_index) s in
      let s :=
        if synced_commit_index s <? commit_end
        then with_fetched (<[(commit_start, commit_end) := blocks]> (fetched_blocks s)) s
        else s in
      process_fetched s d
  | _, _ => Panic "assertion failed: !commits.is_empty()"
  end.
End schedule.

Definition target_parallel_fetches (context : Context) (params : Parameters) (s : Syncer) : N :=
  N.max (N.min (N.min (commit_sync_parallel_fetches params) (committee_size (committee context) * 2 / 3))
               (commit_sync_batches_ahead params - N.of_nat (size (fetched_blocks s)))) 1.

(** The loop after the [select], which starts fetches. *)
Definition start_fetches (context : Context) (params : Parameters) (s : Syncer) : outcome Syncer :=
  let target := target_parallel_fetches context params s in
  while_loop (λ s,
    if target <=? N.of_nat (length (inflight_fetches s)) then Ok (Break s)
    else
      match bt_first (pending_fetches s) with
      | None => Ok (Break s)
      | Some (start, end_) =>
          Ok (Continue (mkSyncer (inflight_fetches s ++ [mkFetchTask start end_ Starting])
            (pending_fetches s ∖ {[(start, end_)]}) (fetched_blocks s) (highest_scheduled_index s)
            (synced_commit_index s) (fetch_state s)))
      end) s.

(** ** Runs *)

(** What happens to the loop and its tasks: a tick of the interval, with the quorum and local
    commit indices it reads; the task at an index pops an authority; it gets the answer to its
    request for commits; it gets its blocks, and the loop takes its result, reading the local
    commit index. *)
Inductive SyncerEvent : Type :=
| Tick (quorum_commit_index local_commit_index : CommitIndex)
| TaskPops (i : nat)
| TaskAnswered (i : nat) (now : N) (answer : ConsensusResult (list bytes * list bytes))
| TaskFetches (i : nat) (fetch_blocks : list BlockRef → ConsensusResult (list bytes)) (now : BlockTimestampMs)
    (last_commit_index : CommitIndex).

Section run.
Context {D : Type} `{CoreThreadDispatcher D} `{Crypto, TransactionVerifier, BcsParser}.
Context (context : Context) (params : Parameters) (block_verifier : SignedBlockVerifier).

Definition set_phase (i : nat) (task : FetchTask) (phase : FetchPhase) (fs : FetchState) (s : Syncer) : Syncer :=
  with_tasks (<[i := mkFetchTask (task_start task) (task_end task) phase]> (inflight_fetches s)) fs s.

(** Step 1 of [fetch_once].  Without an authority the task sleeps and tries again. *)
Definition task_pops (i : nat) (task : FetchTask) (s : Syncer) : Syncer :=
  match pop_available (fetch_state s) with
  | None => s
  | Some (_, retries, target_authority, fs) => set_phase i task (Asking retries target_authority) fs s
  end.

(** Step 2 of [fetch_once]; [fetch_loop] starts over after an error. *)
Definition task_answered (i : nat) (task : FetchTask) (retries : N) (target_authority : AuthorityIndex) (now : N)
    (answer : ConsensusResult (list bytes * list bytes)) (s : Syncer) : Syncer :=
  match answer with
  | RustOk (serialized_commits, serialized_blocks) =>
      set_phase i task (Verifying target_authority serialized_commits serialized_blocks)
        (fetch_succeeded (fetch_state s) now target_authority) s
  | RustErr _ => set_phase i task Starting (fetch_failed (fetch_state s) now retries target_authority) s
  end.

(** The rest of [fetch_once], and the branch of the loop that takes its result.  There is no
    state any more when the loop has ended. *)
Definition task_fetches (i : nat) (task : FetchTask) (target_authority : AuthorityIndex)
    (serialized_commits serialized_blocks : list bytes) (fetch_blocks : list BlockRef → ConsensusResult (list bytes))
    (now : BlockTimestampMs) (last_commit_index : CommitIndex) (s : Syncer) (d : D) : outcome (option Syncer * D) :=
  result ← fetch_verified context params block_verifier target_authority (task_start task) (task_end task)
    serialized_commits serialized_blocks fetch_blocks now;
  match result with
  | RustErr _ => Ok (Some (set_phase i task Starting (fetch_state s) s), d)
  | RustOk (commits, blocks, _) =>
      let s := with_tasks (delete i (inflight_fetches s)) (fetch_state s) s in
      '(alive, s, d) ← on_fetched (task_end task) commits blocks last_commit_index s d;
      if alive : bool then s ← start_fetches context params s; Ok (Some s, d) else Ok (None, d)
  end.

Definition syncer_step (event : SyncerEvent) (s : Syncer) (d : D) : outcome (option Syncer * D) :=
  match event with
  | Tick quorum_commit_index local_commit_index =>
      s ← on_tick params quorum_commit_index local_commit_index s;
      s ← start_fetches context params s;
      Ok (Some s, d)
  | TaskPops i =>
      Ok (match inflight_fetches s !! i with
          | Some (mkFetchTask _ _ Starting as task) => Some (task_pops i task s)
          | _ => Some s
          end, d)
  | TaskAnswered i now answer =>
      Ok (match inflight_fetches s !! i with
          | Some (mkFetchTask _ _ (Asking retries authority) as task) => Some (task_answered i task retries authority now answer s)
          | _ => Some s
          end, d)
  | TaskFetches i fetch_blocks now last_commit_index =>
      match inflight_fetches s !! i with
      | Some (mkFetchTask _ _ (Verifying authority serialized_commits serialized_blocks) as task) =>
          task_fetches i task authority serialized_commits serialized_blocks fetch_blocks now last_commit_index s d
      | _ => Ok (Some s, d)
      end
  end.

Fixpoint syncer_run (events : list SyncerEvent) (s : Syncer) (d : D) : outcome (option Syncer * D) :=
  match events with
  | [] => Ok (Some s, d)
  | event :: events =>
      '(s, d) ← syncer_step event s d;
      match s with Some s => syncer_run events s d | None => Ok (None, d) end
  end.
End run.
