(* ===== verification/CommitSyncerFacts.v ===== *)
(** Commit synchronization is correct: what a fetch returns is certified and complete, the
    schedule loop sends the blocks of certified commits to the core in order and without gaps,
    loses no scheduled range, keeps its bounds, and never runs out of authorities. *)

From stdpp Require Import base strings numbers sorting gmap sets list.
From S2P Require Import Prelude Committee Block Dag StakeAggregator Commit BlockVerifier CoreThread CommitVotes CommitSyncer.

Open Scope N_scope.

(** ** One fetch *)

Section fetch_facts.
Context `{Crypto, TransactionVerifier, BcsParser}.
Context (context : Context) (params : Parameters) (v : SignedBlockVerifier).

(** The blocks that are accepted are those requested, with the received bytes. *)
Lemma check_blocks_Ok peer refs ss blocks :
  check_blocks peer refs ss = RustOk blocks →
  reference <$> blocks = refs ∧ Forall2 (λ b s, parse_signed_block s = RustOk (block b) ∧ serialized b = s) blocks ss.
Proof.
  unfold check_blocks. destruct (Nat.eqb_spec (length refs) (length ss)) as [Hlen|]; [|done]. simpl.
  destruct (collect_results _) as [sbs|e] eqn:Hs; [|done]. apply collect_results_Ok in Hs. simpl.
  intros Hb%collect_results_Ok. revert refs blocks sbs Hlen Hs Hb.
  induction ss as [|s ss IH]; intros [|r refs] blocks [|sb sbs] Hlen Hs Hb; simpl in *; try done.
  { by destruct blocks. }
  destruct blocks as [|b blocks]; [done|]. simpl in Hb. injection Hb as Hb1 Hb. injection Hs as Hs1 Hs.
  injection Hlen as Hlen. destruct (IH refs blocks sbs Hlen Hs Hb) as [<- Hall].
  unfold check_fetched in Hb1. case_bool_decide as Hr; [|done]. injection Hb1 as <-.
  split; [by rewrite fmap_cons, Hr|]. constructor; [|done]. simpl. split; [|done].
  destruct (parse_signed_block s); [|done]. by injection Hs1 as ->.
Qed.

Lemma wait_ge now bs : now ≤ wait_for_timestamps now bs.
Proof.
  unfold wait_for_timestamps. revert now. induction bs as [|b bs IH]; intros now; simpl; [done|].
  specialize (IH (now + (vb_timestamp_ms b - now))). lia.
Qed.

Lemma wait_for_timestamps_ge now bs b : b ∈ bs → vb_timestamp_ms b ≤ wait_for_timestamps now bs.
Proof.
  revert now. induction bs as [|x bs IH]; intros now; [by intros ?%not_elem_of_nil|].
  intros [->|Hb]%elem_of_cons; [|by apply IH].
  pose proof (wait_ge (now + (vb_timestamp_ms x - now)) bs). unfold wait_for_timestamps in *. simpl. lia.
Qed.

(** The commits from [start] to [last], with their blocks. *)
Definition certified_range (start last_ : CommitIndex) (blocks : list VerifiedBlock) : Prop :=
  ∃ peer end_ ss bs commits c,
    verify_commits context v peer start end_ ss bs = Ok (RustOk commits) ∧
    last commits = Some c ∧ commit_index c = last_ ∧ reference <$> blocks = commits ≫= commit_blocks.

Lemma concat_requests peer (fetch_blocks : list BlockRef → ConsensusResult (list bytes)) requests fetched :
  collect_results ((λ refs, try_ (fetch_blocks refs) (check_blocks peer refs)) <$> requests) = RustOk fetched →
  reference <$> concat fetched = concat requests.
Proof.
  intros Hf%collect_results_Ok. revert fetched Hf.
  induction requests as [|refs requests IH]; intros [|bs fetched] Hf; simpl in *; try done.
  injection Hf as Hbs Hf. rewrite fmap_app, (IH fetched Hf). f_equal.
  destruct (fetch_blocks refs) as [ss|e]; [|done]. simpl in Hbs. by apply check_blocks_Ok in Hbs as [Hbs _].
Qed.

Lemma accepted_range start end_ ss commits :
  accepted_commits start end_ ss commits →
  ∃ first final, head commits = Some first ∧ last commits = Some final ∧
    commit_index first = start ∧ start ≤ commit_index final ≤ end_.
Proof.
  intros Hacc. pose proof (ac_nonempty _ _ _ _ Hacc) as Hne.
  destruct commits as [|first commits]; [done|].
  destruct (last (first :: commits)) as [final|] eqn:Hlast; [|by apply last_None in Hlast].
  exists first, final. split_and!; try done.
  - pose proof (ac_index _ _ _ _ Hacc 0 first eq_refl). lia.
  - rewrite last_lookup in Hlast. pose proof (ac_index _ _ _ _ Hacc _ _ Hlast). lia.
  - rewrite last_lookup in Hlast. pose proof (ac_index _ _ _ _ Hacc _ _ Hlast). lia.
Qed.
Context (Hc : committee_wf (committee context)) (Hv : committee (bv_context v) = committee context).
Context (Hmax : 0 < max_blocks_per_fetch params).

Lemma fetch_verified_Ok peer start end_ ss bs fetch_blocks now :
  end_ < U32_MAX →
  ∃ res, fetch_verified context params v peer start end_ ss bs fetch_blocks now = Ok res ∧
    ∀ commits blocks t, res = RustOk (commits, blocks, t) →
      verify_commits context v peer start end_ ss bs = Ok (RustOk commits) ∧
      accepted_commits start end_ ss commits ∧
      reference <$> blocks = commits ≫= commit_blocks ∧
      now ≤ t ∧ ∀ b, b ∈ blocks → vb_timestamp_ms b ≤ t.
Proof.
  intros He. unfold fetch_verified.
  destruct (verify_commits_certified context v peer start end_ ss bs Hc Hv He) as (res & -> & Hok). simpl.
  destruct res as [commits|e]; [|by eexists].
  assert (∃ requests, chunks (commits ≫= commit_blocks) (max_blocks_per_fetch params) = Ok requests) as [requests Hch].
  { unfold chunks. destruct (N.eqb_spec (max_blocks_per_fetch params) 0); [lia|]. simpl. eauto. }
  rewrite Hch. simpl. apply chunks_Ok in Hch as (_ & Hcat & _).
  destruct (collect_results _) as [fetched|e] eqn:Hf; [|by eexists].
  eexists. split; [done|]. intros commits' blocks t [= <- <- <-].
  split; [done|]. split; [by apply Hok|]. split; [|split; [apply wait_ge|intros b; apply wait_for_timestamps_ge]].
  rewrite <-Hcat. by eapply concat_requests.
Qed.

End fetch_facts.

(** ** The schedule loop *)

(** A list after the replacement of an element. *)
Lemma insert_perm {A} (l : list A) i x y : l !! i = Some x → <[i := y]> l ≡ₚ y :: delete i l.
Proof.
  intros Hi. rewrite insert_take_drop by (by eapply lookup_lt_Some). rewrite delete_take_drop.
  by rewrite Permutation_middle.
Qed.

Lemma length_omap_le {A B} (f : A → option B) l : (length (omap f l) ≤ length l)%nat.
Proof. induction l as [|x l IH]; csimpl; [done|]. destruct (f x); csimpl; lia. Qed.

(** One element without a value. *)
Lemma length_omap_lt {A B} (f : A → option B) l x : x ∈ l → f x = None → (length (omap f l) < length l)%nat.
Proof.
  intros (l1 & l2 & ->)%list_elem_of_split Hx. rewrite omap_app, !length_app. csimpl. rewrite Hx.
  pose proof (length_omap_le f l1). pose proof (length_omap_le f l2). lia.
Qed.

Section invariant.
Context `{Crypto, TransactionVerifier, BcsParser}.
Context (context : Context) (params : Parameters) (v : SignedBlockVerifier).
Implicit Types (s : Syncer) (a b k : CommitIndex) (t : FetchTask).

(** The authority that a task waits for with a request for commits.  When it has answered it may be
    asked by other tasks, while the blocks of its commits are still being fetched from it. *)
Definition asking_commits t : option AuthorityIndex :=
  match task_phase t with Asking _ authority => Some authority | _ => None end.

(** The range is scheduled, and not fetched yet. *)
Definition to_fetch s a b : Prop :=
  (a, b) ∈ pending_fetches s ∨ ∃ t, t ∈ inflight_fetches s ∧ task_start t = a ∧ task_end t = b.

(** The commit is in a range that is pending, being fetched, or fetched. *)
Definition scheduled s k : Prop :=
  ∃ a b, a ≤ k ≤ b ∧ (to_fetch s a b ∨ is_Some (fetched_blocks s !! (a, b))).

(** The commit has reached the core, or is scheduled. *)
Definition handled s k : Prop := k ≤ synced_commit_index s ∨ scheduled s k.

Definition batch_range a b : Prop := 0 < a ≤ b ∧ b < U32_MAX ∧ b < a + commit_sync_batch_size params.

(** The most fetches that run at a time. *)
Definition parallel_cap : N :=
  N.max (N.min (commit_sync_parallel_fetches params) (committee_size (committee context) * 2 / 3)) 1.

Record syncer_ok s : Prop := {
  so_to_fetch a b : to_fetch s a b → batch_range a b;
  so_fetched a b blocks : fetched_blocks s !! (a, b) = Some blocks → batch_range a b ∧ certified_range context v a b blocks;
  so_synced : synced_commit_index s < U32_MAX;
  so_highest : default 0 (highest_scheduled_index s) < U32_MAX;
  so_cover k : 0 < k ≤ default 0 (highest_scheduled_index s) → handled s k;
  so_authorities : (elements (available_authorities (fetch_state s))).*2 ++ omap asking_commits (inflight_fetches s) ≡ₚ peer_indices context;
  so_parallel : N.of_nat (length (inflight_fetches s)) ≤ parallel_cap;
}.

(** *** The interval ticks *)

Lemma syncer_ok_synced s k : syncer_ok s → k < U32_MAX → syncer_ok (with_synced (N.max (synced_commit_index s) k) s).
Proof.
  intros [Ht Hf Hs Hh Hcov Ha Hp] Hk. split; try done; simpl; [lia|].
  intros k' Hk'. destruct (Hcov k' Hk') as [?|?]; [left; simpl; lia|by right].
Qed.

Lemma to_fetch_pending s a b a' b' highest :
  to_fetch (with_pending ({[(a, b)]} ∪ pending_fetches s) highest s) a' b' ↔ (a' = a ∧ b' = b) ∨ to_fetch s a' b'.
Proof. unfold to_fetch. simpl. rewrite elem_of_union, elem_of_singleton. naive_solver. Qed.

(** The index after which the next ranges are fetched. *)
Definition fetch_after s : N := N.max (synced_commit_index s) (default 0 (highest_scheduled_index s)).

Lemma schedule_ranges_ok quorum (l : list CommitIndex) s :
  let batch := commit_sync_batch_size params in
  0 < batch → quorum + batch < U32_MAX → syncer_ok s →
  (∀ i x, l !! i = Some x ↔ x = fetch_after s + N.of_nat i * batch ∧ x ≤ quorum) →
  let s' := schedule_ranges batch quorum l s in
  syncer_ok s' ∧ synced_commit_index s' = synced_commit_index s ∧ (∀ k, scheduled s k → scheduled s' k) ∧
  ∀ k, 0 < k → k + batch ≤ quorum → handled s' k.
Proof.
  intros batch Hb Hq. revert s. induction l as [|x l IH]; intros s Hok Hl; simpl.
  - split; [done|]. split; [done|]. split; [done|]. intros k Hk Hkq. assert (quorum < fetch_after s).
    { destruct (N.lt_ge_cases quorum (fetch_after s)); [done|]. exfalso.
      assert (([] : list CommitIndex) !! 0%nat = Some (fetch_after s)) as Hnil by (apply Hl; split; lia). done. }
    unfold fetch_after in *. destruct (N.le_gt_cases k (synced_commit_index s)); [by left|].
    apply (so_cover _ Hok). lia.
  - destruct (proj1 (Hl 0%nat x) eq_refl) as [Hx Hxq]. rewrite N.mul_0_l, N.add_0_r in Hx.
    rewrite !u32_add_small by (unfold U32_MAX in *; lia).
    destruct (N.ltb_spec quorum (x + batch)) as [Hlt|Hle].
    + split; [done|]. split; [done|]. split; [done|]. intros k Hk Hkq.
      destruct (N.le_gt_cases k (synced_commit_index s)); [by left|]. apply (so_cover _ Hok). unfold fetch_after in *. lia.
    + destruct Hok as [Ht Hf Hs Hh Hcov Ha Hp].
      assert (Hkeep : ∀ k, scheduled s k →
        scheduled (with_pending ({[(x + 1, x + batch)]} ∪ pending_fetches s) (Some (x + batch)) s) k).
      { intros k (a & b & Hab & Hin). exists a, b. split; [done|]. rewrite to_fetch_pending. naive_solver. }
      destruct (IH (with_pending ({[(x + 1, x + batch)]} ∪ pending_fetches s) (Some (x + batch)) s)) as (Hok' & Hsy & Hkeep' & Hall).
      * split; try done; simpl.
        -- intros a b [[-> ->]|Hab]%to_fetch_pending; [|by apply Ht]. unfold batch_range, batch, U32_MAX in *. lia.
        -- lia.
        -- intros k Hk. assert (Hcase : k ≤ x ∨ x < k) by lia. destruct Hcase as [Hkx|Hkx].
           ++ unfold fetch_after in Hx. destruct (N.le_gt_cases k (synced_commit_index s)); [by left|].
              destruct (Hcov k) as [?|?]; [lia|by left|]. right. auto.
           ++ right. exists (x + 1), (x + batch). split; [lia|]. left. apply to_fetch_pending. by left.
      * intros i y. unfold fetch_after in *. simpl. specialize (Hl (S i) y). simpl in Hl. rewrite Hl, Hx.
        assert (N.max (synced_commit_index s) (N.max (synced_commit_index s) (default 0 (highest_scheduled_index s)) + batch)
          = N.max (synced_commit_index s) (default 0 (highest_scheduled_index s)) + batch) as -> by lia.
        rewrite Nat2N.inj_succ. split; intros [-> ?]; split; lia.
      * split; [done|]. split; [done|]. split; [auto|done].
Qed.

(** After a tick, all commits of the quorum but those of a last, partial batch are scheduled. *)
Lemma on_tick_ok quorum local s :
  0 < commit_sync_batch_size params → quorum + commit_sync_batch_size params < U32_MAX → local < U32_MAX → syncer_ok s →
  ∃ s', on_tick params quorum local s = Ok s' ∧ syncer_ok s' ∧
    synced_commit_index s' = N.max (synced_commit_index s) local ∧ (∀ k, handled s k → handled s' k) ∧
    ∀ k, 0 < k → k + commit_sync_batch_size params ≤ quorum → handled s' k.
Proof.
  intros Hb Hq Hl Hok. unfold on_tick. pose proof (syncer_ok_synced s local Hok Hl) as Hok1.
  set (s1 := with_synced _ s) in *.
  assert (∃ l, range_step_by (fetch_after s1) quorum (commit_sync_batch_size params) = Ok l) as [l Hr].
  { unfold range_step_by. destruct (N.eqb_spec (commit_sync_batch_size params) 0); [lia|]. simpl. eauto. }
  unfold fetch_after in Hr. rewrite Hr. simpl. eexists. split; [done|].
  apply elem_of_range_step_by in Hr as [_ Hr].
  destruct (schedule_ranges_ok quorum l s1) as (Hok' & Hsy & Hkeep & Hall); [done..|].
  split; [done|]. split; [done|]. split; [|done]. intros k [Hk|Hk]; [left; rewrite Hsy; simpl; lia|right; by apply Hkeep].
Qed.

(** *** Fetches are started *)

Lemma target_cap s : target_parallel_fetches context params s ≤ parallel_cap.
Proof. unfold target_parallel_fetches, parallel_cap. lia. Qed.

Lemma start_one_ok s a b :
  syncer_ok s → (a, b) ∈ pending_fetches s → N.of_nat (length (inflight_fetches s)) < parallel_cap →
  let s' := mkSyncer (inflight_fetches s ++ [mkFetchTask a b Starting]) (pending_fetches s ∖ {[(a, b)]})
              (fetched_blocks s) (highest_scheduled_index s) (synced_commit_index s) (fetch_state s) in
  syncer_ok s' ∧ ∀ k, scheduled s k → scheduled s' k.
Proof.
  intros [Ht Hf Hs Hh Hcov Ha Hp] Hab Hlen s'.
  assert (Hto : ∀ x y, to_fetch s' x y ↔ to_fetch s x y).
  { intros x y. unfold to_fetch, s'. simpl. rewrite elem_of_difference, elem_of_singleton. setoid_rewrite elem_of_app.
    setoid_rewrite list_elem_of_singleton. destruct (decide ((x, y) = (a, b))) as [[= -> ->]|Hne]; naive_solver. }
  assert (Hsch : ∀ k, scheduled s k → scheduled s' k).
  { intros k (x & y & Hxy & Hin). exists x, y. split; [done|]. by rewrite Hto. }
  split; [|done]. split; try done.
  - intros x y Hxy. by apply Ht, Hto.
  - intros k Hk. destruct (Hcov k Hk); [by left|right; auto].
  - simpl. rewrite omap_app. simpl. by rewrite app_nil_r.
  - simpl. rewrite length_app. simpl. lia.
Qed.

Lemma start_fetches_ok s :
  committee_wf (committee context) → syncer_ok s →
  ∃ s', start_fetches context params s = Ok s' ∧ syncer_ok s' ∧ synced_commit_index s' = synced_commit_index s ∧
    ∀ k, scheduled s k → scheduled s' k.
Proof.
  intros Hc Hok. unfold start_fetches.
  pose proof (target_cap s) as Hcap. set (target := target_parallel_fetches context params s) in *.
  refine (while_loop_measure
    (λ s', syncer_ok s' ∧ synced_commit_index s' = synced_commit_index s ∧ ∀ k, scheduled s k → scheduled s' k)
    _ (λ s', target - N.of_nat (length (inflight_fetches s'))) _ s _ _ _).
  - intros s' (Hok' & Hsy & Hsch). destruct (N.leb_spec target (N.of_nat (length (inflight_fetches s')))) as [|Hlt]; [by eexists|].
    destruct (bt_first (pending_fetches s')) as [[a b]|] eqn:Hfirst; [|by eexists].
    apply bt_first_Some in Hfirst as [Hab _]. destruct (start_one_ok s' a b) as [Hok2 Hsch2]; [done..|lia|].
    eexists. split; [done|]. cbn -[length]. rewrite length_app. simpl. split; [|lia]. split; [done|]. split; [done|]. auto.
  - done.
  - pose proof (wf_size _ Hc) as Hsz. unfold parallel_cap, U32_MAX in *.
    assert (committee_size (committee context) * 2 / 3 < 2 ^ 33) by (apply N.Div0.div_lt_upper_bound; lia).
    assert (2 ^ 33 < 2 ^ N.of_nat LOOP_BITS) by (apply N.pow_lt_mono_r; unfold LOOP_BITS; lia). lia.
Qed.

(** *** Tasks and authorities *)

Lemma pop_available_Some fs x fs' :
  pop_available fs = Some (x, fs') → elements (available_authorities fs) ≡ₚ x :: elements (available_authorities fs').
Proof.
  unfold pop_available. destruct (bt_first _) as [y|] eqn:Hy; [|done]. intros [= -> <-]. simpl.
  apply bt_first_Some in Hy as [Hx _].
  rewrite (union_difference_singleton_L x (available_authorities fs)) at 1 by done.
  apply elements_union_singleton. set_solver.
Qed.

Lemma pop_available_None fs : pop_available fs = None → available_authorities fs = ∅.
Proof. unfold pop_available. destruct (bt_first _) eqn:Hy; [done|]. intros _. by apply bt_first_None in Hy. Qed.

Lemma available_again (X : gset (N * N * AuthorityIndex)) x :
  x.2 ∉ (elements X).*2 → (elements ({[x]} ∪ X)).*2 ≡ₚ x.2 :: (elements X).*2.
Proof.
  intros Hx. rewrite elements_union_singleton; [done|]. intros Hin. apply Hx.
  apply list_elem_of_fmap. exists x. split; [done|]. by apply elem_of_elements.
Qed.

Lemma authorities_indices c : (committee_authorities c).*1 = indices c.
Proof.
  unfold committee_authorities, indices. rewrite fmap_imap. apply list_eq. intros i. rewrite list_lookup_fmap, list_lookup_imap.
  destruct (authorities c !! i) eqn:Hi; simpl.
  - rewrite lookup_seq_lt by (by eapply lookup_lt_Some). done.
  - rewrite lookup_seq_ge by (by apply lookup_ge_None_1). done.
Qed.

Lemma peer_indices_NoDup : NoDup (peer_indices context).
Proof. unfold peer_indices. rewrite authorities_indices. apply NoDup_filter, NoDup_indices. Qed.

Lemma peer_indices_length :
  own_index context < committee_size (committee context) →
  N.of_nat (length (peer_indices context)) + 1 = committee_size (committee context).
Proof.
  intros Hown. assert (own_index context :: peer_indices context ≡ₚ indices (committee context)) as Hperm.
  { unfold peer_indices. rewrite authorities_indices. apply NoDup_Permutation; [|apply NoDup_indices|].
    - constructor; [|apply NoDup_filter, NoDup_indices]. rewrite list_elem_of_filter. naive_solver.
    - intros x. rewrite elem_of_cons, list_elem_of_filter, elem_of_indices. destruct (decide (x = own_index context)); naive_solver. }
  apply Permutation_length in Hperm. unfold indices in Hperm. rewrite length_fmap, length_seq in Hperm.
  simpl in Hperm. unfold committee_size. lia.
Qed.

(** A task goes on to another phase. *)
Lemma set_phase_ok s i t phase fs :
  syncer_ok s → inflight_fetches s !! i = Some t →
  (elements (available_authorities fs)).*2 ++
    omap asking_commits (mkFetchTask (task_start t) (task_end t) phase :: delete i (inflight_fetches s)) ≡ₚ peer_indices context →
  syncer_ok (set_phase i t phase fs s) ∧ ∀ k, scheduled s k → scheduled (set_phase i t phase fs s) k.
Proof.
  intros [Ht Hf Hs Hh Hcov Ha Hp] Hi Hperm. pose proof (insert_perm _ _ _ (mkFetchTask (task_start t) (task_end t) phase) Hi) as Hins.
  assert (Hto : ∀ x y, to_fetch (set_phase i t phase fs s) x y ↔ to_fetch s x y).
  { intros x y. unfold to_fetch, set_phase. simpl. setoid_rewrite Hins. setoid_rewrite elem_of_cons.
    setoid_rewrite (delete_Permutation _ _ _ Hi) at 2. setoid_rewrite elem_of_cons. split.
    - intros [?|(t' & [->|Hin] & Hx & Hy)]; [by left|right; exists t; auto|right; exists t'; auto].
    - intros [?|(t' & [->|Hin] & Hx & Hy)]; [by left|right; eexists; split; [by left|done]|right; exists t'; auto]. }
  assert (Hsch : ∀ k, scheduled s k → scheduled (set_phase i t phase fs s) k).
  { intros k (x & y & Hxy & Hin). exists x, y. split; [done|]. by rewrite Hto. }
  split; [|done]. split; try done.
  - intros x y Hxy. by apply Ht, Hto.
  - intros k Hk. destruct (Hcov k Hk); [by left|right; auto].
  - simpl. rewrite <-Hperm. f_equiv. by rewrite Hins.
  - simpl. by rewrite length_insert.
Qed.

Lemma authorities_split s i t :
  syncer_ok s → inflight_fetches s !! i = Some t →
  (elements (available_authorities (fetch_state s))).*2 ++ omap asking_commits (t :: delete i (inflight_fetches s)) ≡ₚ peer_indices context.
Proof. intros Hok Hi. rewrite <-(delete_Permutation _ _ _ Hi). apply Hok. Qed.

Lemma asking_cons t l :
  omap asking_commits (t :: l) = match asking_commits t with Some a => a :: omap asking_commits l | None => omap asking_commits l end.
Proof. done. Qed.

Lemma task_pops_ok s i t :
  syncer_ok s → inflight_fetches s !! i = Some t → task_phase t = Starting →
  syncer_ok (task_pops i t s) ∧ ∀ k, scheduled s k → scheduled (task_pops i t s) k.
Proof.
  intros Hok Hi Hph. unfold task_pops. destruct (pop_available _) as [[[[tm r] a] fs]|] eqn:Hpop; [|done].
  apply set_phase_ok; [done..|]. rewrite <-(authorities_split s i t Hok Hi). apply pop_available_Some in Hpop. rewrite Hpop.
  assert (asking_commits t = None) as Hask by (unfold asking_commits; by rewrite Hph). rewrite !asking_cons, Hask. simpl. by rewrite Permutation_middle.
Qed.

(** The authority that a task asked was not available to others. *)
Lemma asked_not_available s i t retries a :
  syncer_ok s → inflight_fetches s !! i = Some t → task_phase t = Asking retries a →
  a ∉ (elements (available_authorities (fetch_state s))).*2.
Proof.
  intros Hok Hi Hph Hin. pose proof peer_indices_NoDup as Hnd. rewrite <-(authorities_split s i t Hok Hi) in Hnd.
  apply NoDup_app in Hnd as (_ & Hnd & _). apply (Hnd a Hin). apply list_elem_of_omap. exists t. split; [by left|].
  unfold asking_commits. by rewrite Hph.
Qed.

Lemma task_answered_ok s i t retries a now answer :
  syncer_ok s → inflight_fetches s !! i = Some t → task_phase t = Asking retries a →
  syncer_ok (task_answered i t retries a now answer s) ∧ ∀ k, scheduled s k → scheduled (task_answered i t retries a now answer s) k.
Proof.
  intros Hok Hi Hph. pose proof (asked_not_available s i t retries a Hok Hi Hph) as Hna.
  pose proof (authorities_split s i t Hok Hi) as Hperm. 
  assert (asking_commits t = Some a) as Hask by (unfold asking_commits; by rewrite Hph). rewrite asking_cons, Hask in Hperm.
  unfold task_answered. destruct answer as [[cs bs]|e]; apply set_phase_ok; try done; simpl;
    rewrite available_again by done; simpl; by rewrite <-Hperm, <-Permutation_middle.
Qed.

(** *** Fetched blocks are sent to the core *)

(** The requests of batches of blocks, each with the range of its commits. *)
Abbreviation Batch := (CommitIndex * CommitIndex * list VerifiedBlock)%type.

Definition requests_of (batches : list Batch) : list Request := (λ p, RequestAddBlocks p.2) <$> batches.

(** The batches bring all commits up to [synced], but those up to [local], without gaps and in the
    order of the commits. *)
Record delivered (local : CommitIndex) (batches : list Batch) (synced : CommitIndex) : Prop := {
  dl_certified p : p ∈ batches → certified_range context v p.1.1 p.1.2 p.2;
  dl_increasing : StronglySorted (λ p q : Batch, p.1.2 < q.1.2) batches;
  dl_synced p : p ∈ batches → p.1.2 ≤ synced;
  dl_no_gap k : 0 < k ≤ synced → k ≤ local ∨ ∃ p, p ∈ batches ∧ p.1.1 ≤ k ≤ p.1.2;
}.

Lemma delivered_local local batches synced k :
  delivered local batches synced → delivered (N.max local k) batches (N.max synced k).
Proof.
  intros [Hce Hin Hs Hg]. split; try done.
  - intros p Hp%Hs. lia.
  - intros j Hj. destruct (N.le_gt_cases j k); [left; lia|]. destruct (Hg j) as [?|?]; [lia|left; lia|by right].
Qed.

Lemma StronglySorted_snoc {A} (R : relation A) l x :
  StronglySorted R l → (∀ y, y ∈ l → R y x) → StronglySorted R (l ++ [x]).
Proof.
  intros Hl Hx. induction Hl as [|y l Hl IH Hy]; simpl; [by repeat constructor|].
  constructor; [apply IH; intros z Hz; apply Hx; by right|].
  apply Forall_app. split; [done|]. constructor; [|constructor]. apply Hx. by left.
Qed.

Lemma delivered_next local batches synced a b blocks :
  delivered local batches synced → certified_range context v a b blocks → a ≤ synced + 1 → synced < b →
  delivered local (batches ++ [(a, b, blocks)]) b.
Proof.
  intros [Hce Hin Hs Hg] Hab Ha Hb. split.
  - intros p [Hp| ->%list_elem_of_singleton]%elem_of_app; [by apply Hce|done].
  - apply StronglySorted_snoc; [done|]. intros p Hp%Hs. simpl. lia.
  - intros p [Hp%Hs| ->%list_elem_of_singleton]%elem_of_app; [lia|done].
  - intros k Hk. destruct (N.le_gt_cases k synced) as [Hks|Hks].
    + destruct (Hg k) as [?|(p & Hp & Hkp)]; [lia|by left|]. right. exists p. split; [apply elem_of_app; by left|done].
    + right. exists (a, b, blocks). split; [apply elem_of_app; right; by left|simpl; lia].
Qed.

(** A fetched range leaves the map. *)
Lemma fetched_delete_ok s a b blocks :
  syncer_ok s → fetched_blocks s !! (a, b) = Some blocks →
  let s' := with_synced (N.max (synced_commit_index s) b) (with_fetched (delete (a, b) (fetched_blocks s)) s) in
  syncer_ok s' ∧ ∀ k, handled s k → handled s' k.
Proof.
  intros [Ht Hf Hs Hh Hcov Ha Hp] Hab s'.
  assert (Hto : ∀ k, handled s k → handled s' k).
  { intros k [Hk|(x & y & Hxy & Hin)]; [left; simpl; lia|].
    destruct (decide ((x, y) = (a, b))) as [[= -> ->]|Hne]; [left; simpl; lia|]. right. exists x, y. split; [done|].
    destruct Hin as [Hin|Hin]; [by left|right]. simpl. by rewrite lookup_delete_ne. }
  split; [|done]. split; try done.
  - intros x y bl Hxy. simpl in Hxy. apply lookup_delete_Some in Hxy as [_ Hxy]. by apply Hf.
  - simpl. destruct (Hf _ _ _ Hab) as [(_ & ? & _) _]. lia.
  - intros k Hk. by apply Hto, Hcov.
Qed.

(** The state with which [on_fetched] processes the fetched blocks. *)
Definition task_done s i t commit_end blocks last_commit_index : Syncer :=
  let s := with_tasks (delete i (inflight_fetches s)) (fetch_state s) s in
  let s :=
    if commit_end <? task_end t
    then with_pending ({[(commit_end +u32 1, task_end t)]} ∪ pending_fetches s) (highest_scheduled_index s) s
    else s in
  let s := with_synced (N.max (synced_commit_index s) last_commit_index) s in
  if synced_commit_index s <? commit_end
  then with_fetched (<[(task_start t, commit_end) := blocks]> (fetched_blocks s)) s
  else s.

Lemma task_done_to_fetch s i t commit_end blocks last_commit_index a b :
  inflight_fetches s !! i = Some t → commit_end < U32_MAX →
  (to_fetch (task_done s i t commit_end blocks last_commit_index) a b →
     (a = commit_end + 1 ∧ b = task_end t ∧ commit_end < task_end t) ∨ to_fetch s a b) ∧
  (to_fetch s a b → (a = task_start t ∧ b = task_end t) ∨ to_fetch (task_done s i t commit_end blocks last_commit_index) a b) ∧
  (commit_end < task_end t → to_fetch (task_done s i t commit_end blocks last_commit_index) (commit_end + 1) (task_end t)).
Proof.
  intros Hi Hce. pose proof (delete_Permutation _ _ _ Hi) as Hperm. unfold to_fetch.
  assert (inflight_fetches (task_done s i t commit_end blocks last_commit_index) = delete i (inflight_fetches s)) as ->.
  { unfold task_done. by destruct (commit_end <? task_end t), (_ <? _). }
  assert (pending_fetches (task_done s i t commit_end blocks last_commit_index) =
    if commit_end <? task_end t then {[(commit_end + 1, task_end t)]} ∪ pending_fetches s else pending_fetches s) as ->.
  { rewrite <-(u32_add_small commit_end 1) by (unfold U32_MAX in *; lia).
    unfold task_done. by destruct (commit_end <? task_end t), (_ <? _). }
  assert (Hel : ∀ x, x ∈ inflight_fetches s ↔ x = t ∨ x ∈ delete i (inflight_fetches s)).
  { intros x. by rewrite Hperm at 1; rewrite elem_of_cons. }
  clear Hperm. destruct (N.ltb_spec commit_end (task_end t)); rewrite ?elem_of_union, ?elem_of_singleton; [naive_solver|].
  split; [naive_solver|]. split; [naive_solver|lia].
Qed.

Lemma task_done_ok s i t commit_end blocks last_commit_index :
  syncer_ok s → last_commit_index < U32_MAX → inflight_fetches s !! i = Some t → asking_commits t = None →
  task_start t ≤ commit_end ≤ task_end t → certified_range context v (task_start t) commit_end blocks →
  let s' := task_done s i t commit_end blocks last_commit_index in
  syncer_ok s' ∧ synced_commit_index s' = N.max (synced_commit_index s) last_commit_index ∧
  ∀ k, handled s k → handled s' k.
Proof.
  intros Hok Hl Hi Hask Hce Hcert s'. pose proof (authorities_split s i t Hok Hi) as Hsplit. rewrite asking_cons, Hask in Hsplit.
  destruct Hok as [Ht Hf Hs Hh Hcov Ha Hp].
  assert (batch_range (task_start t) (task_end t)) as (Hb1 & Hb2 & Hb3).
  { apply Ht. right. exists t. split; [by eapply list_elem_of_lookup_2|done]. }
  assert (Hcem : commit_end < U32_MAX) by lia.
  pose proof (λ a b, task_done_to_fetch s i t commit_end blocks last_commit_index a b Hi Hcem) as Hto. fold s' in Hto.
  assert (Hsy : synced_commit_index s' = N.max (synced_commit_index s) last_commit_index).
  { unfold s', task_done. by destruct (commit_end <? task_end t), (_ <? _). }
  assert (Hfe : fetched_blocks s' = if N.max (synced_commit_index s) last_commit_index <? commit_end
    then <[(task_start t, commit_end) := blocks]> (fetched_blocks s) else fetched_blocks s).
  { unfold s', task_done. destruct (commit_end <? task_end t); simpl; destruct (_ <? _); reflexivity. }
  assert (Hhi : highest_scheduled_index s' = highest_scheduled_index s).
  { unfold s', task_done. by destruct (commit_end <? task_end t), (_ <? _). }
  assert (inflight_fetches s' = delete i (inflight_fetches s) ∧ fetch_state s' = fetch_state s) as [Hin Hfs].
  { unfold s', task_done. by destruct (commit_end <? task_end t), (_ <? _). }
  assert (Hhand : ∀ k, handled s k → handled s' k).
  { intros k [Hk|(a & b & Hk & Hab)]; [left; lia|]. destruct Hab as [Hab|Hab].
    - destruct (Hto a b) as (_ & Hto2 & Hto3). destruct (Hto2 Hab) as [[-> ->]|Hab']; [|right; exists a, b; auto].
      destruct (N.le_gt_cases k commit_end) as [Hkc|Hkc].
      + destruct (N.ltb_spec (N.max (synced_commit_index s) last_commit_index) commit_end) as [Hlt|Hle]; [|left; lia].
        right. exists (task_start t), commit_end. split; [lia|]. right. rewrite Hfe, lookup_insert_eq. eauto.
      + right. exists (commit_end + 1), (task_end t). split; [lia|]. left. apply Hto3. lia.
    - right. exists a, b. split; [done|]. right. rewrite Hfe. destruct (_ <? _); [|done].
      apply lookup_insert_is_Some'. by right. }
  split; [|done]. split.
  - intros a b Hab. destruct (Hto a b) as (Hto1 & _). destruct (Hto1 Hab) as [(-> & -> & Hlt)|Hab']; [|by apply Ht].
    unfold batch_range. lia.
  - intros a b bl Hab. rewrite Hfe in Hab. destruct (_ <? _); [|by apply Hf].
    apply lookup_insert_Some in Hab as [[[= <- <-] <-]|[_ Hab]]; [|by apply Hf].
    split; [unfold batch_range; lia|done].
  - lia.
  - by rewrite Hhi.
  - intros k Hk. rewrite Hhi in Hk. by apply Hhand, Hcov.
  - by rewrite Hin, Hfs.
  - rewrite Hin. pose proof (Permutation_length (delete_Permutation _ _ _ Hi)) as Hlen. simpl in Hlen. lia.
Qed.

Section core.
Context {D : Type} `{CoreThreadDispatcherSpec D}.
Implicit Types (d : D).

(** The state of the loop, when it started with [d0] and has read at most [local]. *)
Record sync_inv (d0 : D) (local : CommitIndex) s d : Prop := {
  si_ok : syncer_ok s;
  si_delivered : ∃ batches, arrived d = arrived d0 ++ requests_of batches ∧ delivered local batches (synced_commit_index s);
}.

Lemma process_fetched_inv d0 local s d s' d' :
  sync_inv d0 local s d → process_fetched s d = Ok (true, s', d') →
  sync_inv d0 local s' d' ∧ ∀ k, handled s k → handled s' k.
Proof.
  unfold process_fetched. intros Hinv Hrun.
  refine (while_loop_inv (λ st : Syncer * D, sync_inv d0 local st.1 st.2 ∧ ∀ k, handled s k → handled st.1 k)
    (λ r : bool * Syncer * D, r.1.1 = true → sync_inv d0 local r.1.2 r.2 ∧ ∀ k, handled s k → handled r.1.2 k)
    _ (s, d) (true, s', d') _ (conj Hinv (λ _ h, h)) Hrun eq_refl).
  clear. intros [s1 d1] r [[Hok (batches & Harr & Hdel)] Hh] Hr. unfold process_one in Hr. simpl in *.
  destruct (bt_first_key_value (fetched_blocks s1)) as [[[a b] blocks]|] eqn:Hfirst; [|injection Hr as <-; simpl; split; [split; eauto|done]].
  apply bt_first_key_value_Some in Hfirst as [Hab _].
  destruct (fetched_delete_ok s1 a b blocks Hok Hab) as [Hok' Hh'].
  pose proof (so_synced _ Hok) as Hsy. rewrite u32_add_small in Hr by (unfold U32_MAX in *; lia).
  destruct (N.leb_spec a (synced_commit_index s1 + 1)) as [Ha|Ha]; [|injection Hr as <-; simpl; split; [split; eauto|done]].
  cbn [synced_commit_index with_fetched] in Hr.
  destruct (N.leb_spec b (synced_commit_index s1)) as [Hb|Hb].
  - injection Hr as <-. rewrite N.max_l in Hok', Hh' by done. simpl. split; [split; [exact Hok'|by exists batches]|]. intros k Hk. by apply Hh', Hh.
  - apply bind_Ok in Hr as ([[missing|e] d2] & Hadd & Hr); injection Hr as <-; [|done]. simpl.
    apply arrived_add_blocks in Hadd as [Harr2|[? _]]; [|done]. split; [|intros k Hk; by apply Hh', Hh].
    split; [done|]. exists (batches ++ [(a, b, blocks)]). simpl. rewrite N.max_r by lia. split.
    + unfold requests_of. by rewrite Harr2, Harr, fmap_app, (assoc (++)).
    + eapply delivered_next; [done|by apply (so_fetched _ Hok)|done..].
Qed.

(** A fetch has finished: its task is gone, its range is fetched or pending again. *)
Lemma on_fetched_inv d0 local s d i t commits blocks last_commit_index s' d' ss peer bs :
  sync_inv d0 local s d → last_commit_index < U32_MAX →
  inflight_fetches s !! i = Some t → asking_commits t = None →
  verify_commits context v peer (task_start t) (task_end t) ss bs = Ok (RustOk commits) →
  accepted_commits (task_start t) (task_end t) ss commits → reference <$> blocks = commits ≫= commit_blocks →
  on_fetched (task_end t) commits blocks last_commit_index
    (with_tasks (delete i (inflight_fetches s)) (fetch_state s) s) d = Ok (true, s', d') →
  sync_inv d0 (N.max local last_commit_index) s' d' ∧ ∀ k, handled s k → handled s' k.
Proof.
  intros [Hok (batches & Harr & Hdel)] Hlci Hi Hask Hver Hacc Hbl Hf.
  destruct (accepted_range _ _ _ _ Hacc) as (first & final & Hhead & Hlast & Hfirst & Hfin).
  unfold on_fetched in Hf. rewrite Hhead, Hlast, Hfirst in Hf.
  destruct (task_done_ok s i t (commit_index final) blocks last_commit_index Hok Hlci Hi Hask Hfin) as (Hok1 & Hsy & Hh).
  { exists peer, (task_end t), ss, bs, commits, final. done. }
  apply (process_fetched_inv d0 (N.max local last_commit_index)) in Hf.
  - destruct Hf as [Hinv Hh']. split; [done|]. intros k Hk. by apply Hh', Hh.
  - split; [exact Hok1|]. exists batches. split; [done|].
    change (delivered (N.max local last_commit_index) batches
      (synced_commit_index (task_done s i t (commit_index final) blocks last_commit_index))). rewrite Hsy.
    by apply delivered_local.
Qed.
(** *** Termination *)

Lemma NoDup_bounded (l : list N) n : NoDup l → (∀ x, x ∈ l → x < n) → N.of_nat (length l) ≤ n.
Proof.
  intros Hnd Hl. assert (l ⊆+ (N.of_nat <$> seq 0 (N.to_nat n))) as Hsub.
  { apply NoDup_submseteq; [done|]. intros x Hx. apply list_elem_of_fmap. exists (N.to_nat x).
    split; [lia|]. apply elem_of_seq. apply Hl in Hx. lia. }
  apply submseteq_length in Hsub. rewrite length_fmap, length_seq in Hsub. lia.
Qed.

Lemma fetched_size s : syncer_ok s → N.of_nat (size (fetched_blocks s)) ≤ 2 ^ 64.
Proof.
  intros Hok. rewrite <-length_map_to_list.
  set (l := map_to_list (fetched_blocks s)).
  assert (Hkeys : ∀ p, p ∈ l.*1 → p.1 < 2 ^ 32 ∧ p.2 < 2 ^ 32).
  { intros [a b] ([k bl] & Hk & Hab)%list_elem_of_fmap. simpl in Hk. subst k. apply elem_of_map_to_list in Hab.
    destruct (so_fetched _ Hok _ _ _ Hab) as [(? & ? & _) _]. simpl. unfold U32_MAX in *. lia. }
  rewrite <-(length_fmap fst), <-(length_fmap (λ p : CommitIndex * CommitIndex, p.1 * 2 ^ 32 + p.2)).
  apply NoDup_bounded.
  - apply NoDup_fmap_2_strong; [|apply NoDup_fst_map_to_list]. intros [a b] [a' b'] Hx Hy Heq.
    apply Hkeys in Hx, Hy. simpl in *. f_equal; lia.
  - intros x (p & -> & Hp)%list_elem_of_fmap. apply Hkeys in Hp. lia.
Qed.

(** The core answers. *)
Definition answers : Prop := ∀ d blocks, ∃ r, dispatch_add_blocks d blocks = Ok r.

Lemma process_fetched_returns s d : answers → syncer_ok s → ∃ r, process_fetched s d = Ok r.
Proof.
  intros Hans Hok. unfold process_fetched.
  destruct (while_loop_measure (λ _, True) (λ _, True) (λ st : Syncer * D, N.of_nat (size (fetched_blocks st.1)))
    process_one (s, d)) as (r & Hr & _); [|done| |by exists r].
  - clear s d Hok. intros [s d] _. unfold process_one.
    destruct (bt_first_key_value (fetched_blocks s)) as [[[a b] blocks]|] eqn:Hfirst; [|by eexists].
    apply bt_first_key_value_Some in Hfirst as [Hab _].
    assert (Hsize : N.of_nat (size (delete (a, b) (fetched_blocks s))) < N.of_nat (size (fetched_blocks s))).
    { pose proof (map_size_delete_Some (a, b) (fetched_blocks s) (mk_is_Some _ _ Hab)).
      pose proof (map_size_ne_0_lookup_2 (fetched_blocks s) (a, b) (mk_is_Some _ _ Hab)). lia. }
    destruct (a <=? _); [|by eexists]. cbn [synced_commit_index with_fetched]. destruct (b <=? _); [by eexists|].
    destruct (Hans d blocks) as [[[missing|e] d'] ->]; simpl; by eexists.
  - pose proof (fetched_size s Hok). simpl. assert (2 ^ 64 < 2 ^ N.of_nat LOOP_BITS) by (apply N.pow_lt_mono_r; unfold LOOP_BITS; lia). lia.
Qed.

(** *** Runs *)

Context (Hc : committee_wf (committee context)) (Hv : committee (bv_context v) = committee context).
Context (Hmax : 0 < max_blocks_per_fetch params) (Hbatch : 0 < commit_sync_batch_size params).

(** The commit indices that an event brings are below the largest [u32]. *)
Definition event_ok (event : SyncerEvent) : Prop :=
  match event with
  | Tick quorum local => quorum + commit_sync_batch_size params < U32_MAX ∧ local < U32_MAX
  | TaskFetches _ _ _ last_commit_index => last_commit_index < U32_MAX
  | _ => True
  end.

(** The local commit index that an event reads. *)
Definition event_local (event : SyncerEvent) : CommitIndex :=
  match event with Tick _ local => local | TaskFetches _ _ _ last_commit_index => last_commit_index | _ => 0 end.

Lemma sync_inv_same d0 local s s' d :
  sync_inv d0 local s d → syncer_ok s' → synced_commit_index s' = synced_commit_index s → sync_inv d0 local s' d.
Proof. intros [_ Hd] Hok Hsy. split; [done|]. by rewrite Hsy. Qed.

Lemma handled_same s s' :
  synced_commit_index s' = synced_commit_index s → (∀ k, scheduled s k → scheduled s' k) → ∀ k, handled s k → handled s' k.
Proof. intros Hsy Hk k [?|?]; [left; by rewrite Hsy|right; auto]. Qed.

Lemma task_fetches_inv d0 local s d i t a ss bs fetch_blocks now last_commit_index s' d' :
  sync_inv d0 local s d → last_commit_index < U32_MAX →
  inflight_fetches s !! i = Some t → asking_commits t = None →
  task_fetches context params v i t a ss bs fetch_blocks now last_commit_index s d = Ok (Some s', d') →
  sync_inv d0 (N.max local last_commit_index) s' d' ∧ ∀ k, handled s k → handled s' k.
Proof.
  intros Hinv Hl Hi Hask Hf. pose proof (si_ok _ _ _ _ Hinv) as Hok. unfold task_fetches in Hf.
  assert (task_end t < U32_MAX) as He.
  { destruct (so_to_fetch _ Hok (task_start t) (task_end t)) as (_ & ? & _); [|done]. right. exists t.
    split; [by eapply list_elem_of_lookup_2|done]. }
  destruct (fetch_verified_Ok context params v Hc Hv Hmax a (task_start t) (task_end t) ss bs fetch_blocks now He) as (res & Hres & Hspec).
  rewrite Hres in Hf. cbn [mbind outcome_bind] in Hf. destruct res as [[[commits blocks] tm]|e].
  - destruct (Hspec commits blocks tm eq_refl) as (Hver & Hacc & Hbl & _).
    apply bind_Ok in Hf as ([[alive s1] d1] & Hon & Hf). destruct alive; [|done].
    apply bind_Ok in Hf as (s2 & Hstart & Hf). injection Hf as <- <-.
    destruct (on_fetched_inv _ _ _ _ _ _ _ _ _ _ _ _ _ _ Hinv Hl Hi Hask Hver Hacc Hbl Hon) as [Hinv1 Hh1].
    destruct (start_fetches_ok s1 Hc (si_ok _ _ _ _ Hinv1)) as (s2' & Hst' & Hok2 & Hsy & Hk).
    rewrite Hstart in Hst'. injection Hst' as <-.
    split; [by eapply sync_inv_same|]. intros k Hk0. by apply (handled_same s1), Hh1.
  - injection Hf as <- <-. destruct (set_phase_ok s i t Starting (fetch_state s) Hok Hi) as [Hok' Hk].
    { rewrite <-(authorities_split s i t Hok Hi), !asking_cons, Hask. done. }
    destruct Hinv as [_ (batches & Harr & Hdel)]. split; [|by apply handled_same].
    split; [done|]. exists batches. split; [done|]. destruct Hdel as [Hce Hin Hs Hg]. split; try done.
    intros k Hk'. destruct (Hg k Hk'); [left; lia|by right].
Qed.

Lemma sync_inv_local d0 local local' s d : sync_inv d0 local s d → local ≤ local' → sync_inv d0 local' s d.
Proof.
  intros [Hok (batches & Harr & [Hce Hin Hs Hg])] Hle. split; [done|]. exists batches. split; [done|]. split; try done.
  intros k Hk. destruct (Hg k Hk); [left; lia|by right].
Qed.

Lemma tick_inv d0 local s d quorum l s1 s' :
  sync_inv d0 local s d → quorum + commit_sync_batch_size params < U32_MAX → l < U32_MAX →
  on_tick params quorum l s = Ok s1 → start_fetches context params s1 = Ok s' →
  sync_inv d0 (N.max local l) s' d ∧ (∀ k, handled s k → handled s' k) ∧
  ∀ k, 0 < k → k + commit_sync_batch_size params ≤ quorum → handled s' k.
Proof.
  intros Hinv Hq Hl Ht Hs. pose proof (si_ok _ _ _ _ Hinv) as Hok.
  destruct (on_tick_ok quorum l s) as (s1' & Ht' & Hok1 & Hsy1 & Hh1 & Hall); [done..|]. rewrite Ht in Ht'. injection Ht' as <-.
  destruct (start_fetches_ok s1 Hc Hok1) as (s2' & Hst' & Hok2 & Hsy2 & Hk2). rewrite Hs in Hst'. injection Hst' as <-.
  pose proof (handled_same s1 s' Hsy2 Hk2) as Hh2. split; [|split; auto].
  destruct Hinv as [_ (batches & Harr & Hdel)]. split; [done|]. exists batches. split; [done|].
  rewrite Hsy2, Hsy1. by apply delivered_local.
Qed.

Lemma step_tick quorum l s d r :
  syncer_step context params v (Tick quorum l) s d = Ok r ↔
  ∃ s1 s2, on_tick params quorum l s = Ok s1 ∧ start_fetches context params s1 = Ok s2 ∧ r = (Some s2, d).
Proof.
  unfold syncer_step. split.
  - intros (s1 & Ht & Hs)%bind_Ok. apply bind_Ok in Hs as (s2 & Hs & [= <-]). eauto.
  - intros (s1 & s2 & Ht & Hs & ->). apply bind_Ok. exists s1. split; [done|]. apply bind_Ok. by exists s2.
Qed.

Lemma step_pops i s d r :
  syncer_step context params v (TaskPops i) s d = Ok r →
  r = (Some s, d) ∨ ∃ t, inflight_fetches s !! i = Some t ∧ task_phase t = Starting ∧ r = (Some (task_pops i t s), d).
Proof.
  unfold syncer_step. intros [= <-]. destruct (inflight_fetches s !! i) as [[a b [|retries auth|auth ss bs]]|]; eauto.
Qed.

Lemma step_answered i now answer s d r :
  syncer_step context params v (TaskAnswered i now answer) s d = Ok r →
  r = (Some s, d) ∨ ∃ t retries a, inflight_fetches s !! i = Some t ∧ task_phase t = Asking retries a ∧
    r = (Some (task_answered i t retries a now answer s), d).
Proof.
  unfold syncer_step. intros [= <-]. destruct (inflight_fetches s !! i) as [[a b [|retries auth|auth ss bs]]|]; eauto 10.
Qed.

Lemma step_fetches i fb now l s d r :
  syncer_step context params v (TaskFetches i fb now l) s d = Ok r →
  r = (Some s, d) ∨ ∃ t a ss bs, inflight_fetches s !! i = Some t ∧ task_phase t = Verifying a ss bs ∧
    task_fetches context params v i t a ss bs fb now l s d = Ok r.
Proof.
  unfold syncer_step. destruct (inflight_fetches s !! i) as [[a b [|retries auth|auth ss bs]]|] eqn:Hi; try (intros [= <-]; by left).
  intros Hf. right. eexists _, auth, ss, bs. split; [done|]. split; [done|]. exact Hf.
Qed.

Lemma syncer_step_inv d0 local s d event s' d' :
  sync_inv d0 local s d → event_ok event → syncer_step context params v event s d = Ok (Some s', d') →
  sync_inv d0 (N.max local (event_local event)) s' d' ∧ (∀ k, handled s k → handled s' k) ∧
  ∀ quorum l k, event = Tick quorum l → 0 < k → k + commit_sync_batch_size params ≤ quorum → handled s' k.
Proof.
  intros Hinv Hev Hstep. pose proof (si_ok _ _ _ _ Hinv) as Hok.
  assert (Hmove : d' = d → syncer_ok s' → synced_commit_index s' = synced_commit_index s → (∀ k, scheduled s k → scheduled s' k) →
    sync_inv d0 (N.max local (event_local event)) s' d' ∧ ∀ k, handled s k → handled s' k).
  { intros -> Hok' Hsy Hk. split; [|by apply handled_same]. apply (sync_inv_local _ local); [by eapply sync_inv_same|lia]. }
  destruct event as [quorum l|i|i now answer|i fb now l]; simpl in Hev.
  - apply step_tick in Hstep as (s1 & s2 & Ht & Hs & [= -> ->]).
    destruct (tick_inv d0 local s d quorum l s1 s2 Hinv) as (Hi & Hh & Hall); [apply Hev..|done|done|].
    split; [done|]. split; [done|]. intros q l' k [= <- <-]. apply Hall.
  - rewrite (and_assoc _ (∀ k, _)). split; [|done]. apply step_pops in Hstep as [[= -> ->]|(t & Hi & Hph & [= -> ->])]; [by apply Hmove|].
    destruct (task_pops_ok s i t Hok Hi Hph) as [Hok' Hk]. apply Hmove; try done.
    unfold task_pops. by destruct (pop_available _) as [[[[] ?] ?]|].
  - rewrite (and_assoc _ (∀ k, _)). split; [|done].
    apply step_answered in Hstep as [[= -> ->]|(t & retries & a & Hi & Hph & [= -> ->])]; [by apply Hmove|].
    destruct (task_answered_ok s i t retries a now answer Hok Hi Hph) as [Hok' Hk]. apply Hmove; try done.
    unfold task_answered. by destruct answer as [[]|].
  - rewrite (and_assoc _ (∀ k, _)). split; [|done].
    apply step_fetches in Hstep as [[= -> ->]|(t & a & ss & bs & Hi & Hph & Hf)]; [by apply Hmove|].
    eapply task_fetches_inv; [done..| |exact Hf]. unfold asking_commits. by rewrite Hph.
Qed.

(** The highest local commit index that the events read. *)
Definition highest_local (last_commit_index : CommitIndex) (events : list SyncerEvent) : CommitIndex :=
  foldl (λ local event, N.max local (event_local event)) last_commit_index events.

Lemma syncer_run_inv d0 local s d events s' d' :
  sync_inv d0 local s d → Forall event_ok events → syncer_run context params v events s d = Ok (Some s', d') →
  sync_inv d0 (highest_local local events) s' d' ∧ (∀ k, handled s k → handled s' k) ∧
  ∀ quorum l k, Tick quorum l ∈ events → 0 < k → k + commit_sync_batch_size params ≤ quorum → handled s' k.
Proof.
  intros Hinv Hev. revert local s d Hinv. induction Hev as [|event events Hev _ IH]; intros local s d Hinv Hrun.
  { injection Hrun as <- <-. split; [done|]. split; [done|]. by intros q l k ?%not_elem_of_nil. }
  cbn [syncer_run] in Hrun. apply bind_Ok in Hrun as ([[s1|] d1] & Hstep & Hrun); [|done].
  destruct (syncer_step_inv _ _ _ _ _ _ _ Hinv Hev Hstep) as (Hinv1 & Hh1 & Hall1).
  destruct (IH _ _ _ Hinv1 Hrun) as (Hinv2 & Hh2 & Hall2). split; [done|]. split; [auto|].
  intros q l k [<-|Hin]%elem_of_cons Hk Hq; [|by eapply Hall2]. by eapply Hh2, Hall1.
Qed.

Lemma task_fetches_returns s d i t a ss bs fetch_blocks now last_commit_index d0 local :
  answers → sync_inv d0 local s d → last_commit_index < U32_MAX →
  inflight_fetches s !! i = Some t → asking_commits t = None →
  ∃ r, task_fetches context params v i t a ss bs fetch_blocks now last_commit_index s d = Ok r.
Proof.
  intros Hans Hinv Hl Hi Hask. pose proof (si_ok _ _ _ _ Hinv) as Hok. unfold task_fetches.
  assert (task_end t < U32_MAX) as He.
  { destruct (so_to_fetch _ Hok (task_start t) (task_end t)) as (_ & ? & _); [|done]. right. exists t.
    split; [by eapply list_elem_of_lookup_2|done]. }
  destruct (fetch_verified_Ok context params v Hc Hv Hmax a (task_start t) (task_end t) ss bs fetch_blocks now He) as (res & Hres & Hspec).
  rewrite Hres. cbn [mbind outcome_bind]. destruct res as [[[commits blocks] tm]|e]; [|by eexists].
  destruct (Hspec commits blocks tm eq_refl) as (Hver & Hacc & Hbl & _).
  destruct (accepted_range _ _ _ _ Hacc) as (first & final & Hhead & Hlast & Hfirst & Hfin).
  destruct (task_done_ok s i t (commit_index final) blocks last_commit_index Hok Hl Hi Hask Hfin) as (Hok1 & _).
  { exists a, (task_end t), ss, bs, commits, final. done. }
  assert (∃ r, on_fetched (task_end t) commits blocks last_commit_index
    (with_tasks (delete i (inflight_fetches s)) (fetch_state s) s) d = Ok r) as [[[alive s1] d1] Hon].
  { unfold on_fetched. rewrite Hhead, Hlast, Hfirst. by apply process_fetched_returns. }
  rewrite Hon. cbn [mbind outcome_bind]. destruct alive; [|by eexists].
  destruct (on_fetched_inv _ _ _ _ _ _ _ _ _ _ _ _ _ _ Hinv Hl Hi Hask Hver Hacc Hbl Hon) as [Hinv1 _].
  destruct (start_fetches_ok s1 Hc (si_ok _ _ _ _ Hinv1)) as (s2 & Hst & _). rewrite Hst. by eexists.
Qed.

Lemma tick_step_returns quorum l s d :
  quorum + commit_sync_batch_size params < U32_MAX → l < U32_MAX → syncer_ok s →
  ∃ r, syncer_step context params v (Tick quorum l) s d = Ok r.
Proof.
  intros Hq Hl Hok. destruct (on_tick_ok quorum l s) as (s1 & Hs1 & Hok1 & _); [done..|].
  destruct (start_fetches_ok s1 Hc Hok1) as (s2 & Hs2 & _). exists (Some s2, d).
  apply step_tick. by exists s1, s2.
Qed.

Lemma fetches_step_returns i fb now l s d d0 local :
  answers → sync_inv d0 local s d → l < U32_MAX → ∃ r, syncer_step context params v (TaskFetches i fb now l) s d = Ok r.
Proof.
  intros Hans Hinv Hl. unfold syncer_step.
  destruct (inflight_fetches s !! i) as [[a b [|retries auth|auth ss bs]]|] eqn:Hi; [by eexists|by eexists| |by eexists].
  exact (task_fetches_returns s d i _ auth ss bs fb now l d0 local Hans Hinv Hl Hi eq_refl).
Qed.

Lemma syncer_step_returns d0 local s d event :
  answers → sync_inv d0 local s d → event_ok event → ∃ r, syncer_step context params v event s d = Ok r.
Proof.
  intros Hans Hinv Hev. destruct event as [quorum l|i|i now answer|i fb now l].
  - apply tick_step_returns; [apply Hev..|apply Hinv].
  - by eexists.
  - by eexists.
  - by eapply fetches_step_returns.
Qed.

Lemma syncer_run_returns d0 local s d events :
  answers → sync_inv d0 local s d → Forall event_ok events → ∃ r, syncer_run context params v events s d = Ok r.
Proof.
  intros Hans Hinv Hev. revert local s d Hinv. induction Hev as [|event events Hev _ IH]; intros local s d Hinv; [by eexists|].
  cbn [syncer_run]. destruct (syncer_step_returns d0 local s d event Hans Hinv Hev) as [[[s1|] d1] Hstep];
    rewrite Hstep; cbn [mbind outcome_bind]; [|by eexists].
  destruct (syncer_step_inv _ _ _ _ _ _ _ Hinv Hev Hstep) as (Hinv1 & _). by eapply IH.
Qed.
End core.
End invariant.

(** ** Properties *)

Section properties.
Context `{Crypto, TransactionVerifier, BcsParser} {D : Type} `{CoreThreadDispatcherSpec D}.
Context (context : Context) (params : Parameters) (v : SignedBlockVerifier).
Context (Hc : committee_wf (committee context)) (Hv : committee (bv_context v) = committee context).
Context (Hmax : 0 < max_blocks_per_fetch params) (Hbatch : 0 < commit_sync_batch_size params).

(** [fetch_once], whatever the authorities answer: it does not panic, it leaves the same
    authorities available, and on success it returns certified commits that start at the start
    of the range, with exactly the blocks they reference, in order, and not before the timestamps
    of the blocks. *)
Theorem fetch_once_spec client now fs start end_ :
  end_ < U32_MAX → NoDup (elements (available_authorities fs)).*2 →
  ∃ res fs', fetch_once context params v client now fs start end_ = Ok (res, fs') ∧
    (elements (available_authorities fs')).*2 ≡ₚ (elements (available_authorities fs)).*2 ∧
    ∀ commits blocks t, res = RustOk (commits, blocks, t) →
      (∃ ss, accepted_commits start end_ ss commits) ∧
      (∃ last_, certified_range context v start last_ blocks) ∧
      reference <$> blocks = commits ≫= commit_blocks ∧ ∀ b, b ∈ blocks → vb_timestamp_ms b ≤ t.
Proof.
  intros He Hnd. unfold fetch_once.
  destruct (pop_available fs) as [[[[tm r] a] fs1]|] eqn:Hpop; [|by eexists _, _].
  apply pop_available_Some in Hpop. rewrite Hpop in Hnd. apply NoDup_cons in Hnd as [Hna _].
  destruct (client_fetch_commits client a start end_) as [[ss bs]|e].
  - destruct (fetch_verified_Ok context params v Hc Hv Hmax a start end_ ss bs (λ refs, client_fetch_blocks client a refs []) now He)
      as (res & -> & Hres). eexists _, _. split; [done|]. split; [by rewrite Hpop; apply available_again|].
    intros commits blocks t Heq. destruct (Hres _ _ _ Heq) as (Hver & Hacc & Hbl & _ & Ht).
    split; [by eexists|]. split; [|done]. destruct (accepted_range _ _ _ _ Hacc) as (_ & final & _ & Hlast & _).
    exists (commit_index final). by exists a, end_, ss, bs, commits, final.
  - eexists _, _. split; [done|]. split; [|done]. rewrite Hpop.
    apply (available_again _ (now + FETCH_RETRY_BASE_INTERVAL * N.min r FETCH_RETRY_INTERVAL_LIMIT, N.min (r + 1) U32_MAX, a)). done.
Qed.

Section runs.
Context (shuffle : list AuthorityIndex → list AuthorityIndex) (Hshuffle : ∀ l, shuffle l ≡ₚ l).
Context (now : nat → N) (last_commit_index : CommitIndex) (Hlocal : last_commit_index < U32_MAX).

Abbreviation first_state := (syncer_new (fetch_state_new context shuffle now) last_commit_index).

Lemma fetch_state_new_authorities :
  (elements (available_authorities (fetch_state_new context shuffle now))).*2 ≡ₚ peer_indices context.
Proof.
  unfold fetch_state_new. simpl. set (l := imap _ _).
  assert (Hl : l.*2 = shuffle (peer_indices context)).
  { unfold l. rewrite fmap_imap. apply list_eq. intros i. rewrite list_lookup_imap. simpl.
    by destruct (shuffle (peer_indices context) !! i). }
  rewrite elements_list_to_set; [by rewrite Hl, Hshuffle|].
  apply (NoDup_fmap_1 snd). rewrite Hl, Hshuffle. apply peer_indices_NoDup.
Qed.

Lemma first_state_inv (d : D) : sync_inv context params v d last_commit_index first_state d.
Proof.
  split; [split|]; simpl; try done.
  - by intros a b [?%elem_of_empty|(t & ?%not_elem_of_nil & _)].
  - lia.
  - rewrite app_nil_r. apply fetch_state_new_authorities.
  - lia.
  - exists []. unfold requests_of. simpl. rewrite app_nil_r. split; [done|]. split; simpl.
    + by intros p ?%not_elem_of_nil.
    + constructor.
    + by intros p ?%not_elem_of_nil.
    + intros k Hk. left. lia.
Qed.

(** C18: The schedule loop never hangs: with any commit indices below the largest ones, any
    answers of the authorities and any interleaving of the fetches, and a core that answers,
    every iteration of the loop returns. *)
Theorem syncer_returns (d : D) events :
  (∀ d blocks, ∃ r : Result (gset BlockRef) CoreError * D, dispatch_add_blocks d blocks = Ok r) →
  Forall (event_ok params) events →
  ∃ r, syncer_run context params v events first_state d = Ok r.
Proof.
  intros Hans Hev. eapply syncer_run_returns; [done..|apply first_state_inv|done].
Qed.

(** C16: What reaches the core.  The loop only asks it to add batches of blocks: each batch are
    the blocks of certified commits, the batches come in the order of the commits, and together
    they bring every commit up to the synced index, without a gap, except for those that the
    local commit index has already reached. *)
Theorem syncer_delivers (d : D) events s d' :
  Forall (event_ok params) events →
  syncer_run context params v events first_state d = Ok (Some s, d') →
  ∃ batches, arrived d' = arrived d ++ requests_of batches ∧
    delivered context v (highest_local last_commit_index events) batches (synced_commit_index s).
Proof.
  intros Hev Hrun. eapply syncer_run_inv in Hrun as ([_ Hd] & _); [exact Hd|done..|apply first_state_inv|done].
Qed.

(** C17: Nothing is forgotten.  Once the quorum has a full batch of commits after a commit, the
    commit is scheduled, and from then on it always is pending, being fetched, waiting for
    earlier commits, or synced. *)
Theorem syncer_keeps_commits (d : D) events s d' quorum local k :
  Forall (event_ok params) events →
  syncer_run context params v events first_state d = Ok (Some s, d') →
  Tick quorum local ∈ events → 0 < k → k + commit_sync_batch_size params ≤ quorum → handled s k.
Proof.
  intros Hev Hrun. eapply syncer_run_inv in Hrun as (_ & _ & Hall); [|done..|apply first_state_inv|done]. apply Hall.
Qed.

(** C19: Bounds.  At any time there are at most as many fetches as configured and two thirds of
    the committee, or one if that is none; every range that is pending or being fetched has
    between one and the batch size many commits; no two fetches wait for commits from the same
    authority; and in a committee of at least two a fetch that starts always finds an authority
    to ask. *)
Theorem syncer_bounds (d : D) events s d' :
  Forall (event_ok params) events → own_index context < committee_size (committee context) →
  syncer_run context params v events first_state d = Ok (Some s, d') →
  N.of_nat (length (inflight_fetches s)) ≤
    N.max (N.min (commit_sync_parallel_fetches params) (committee_size (committee context) * 2 / 3)) 1 ∧
  (∀ a b, to_fetch s a b → a ≤ b ∧ b < a + commit_sync_batch_size params) ∧
  NoDup (omap asking_commits (inflight_fetches s)) ∧
  ∀ t, t ∈ inflight_fetches s → task_phase t = Starting → 2 ≤ committee_size (committee context) →
    is_Some (pop_available (fetch_state s)).
Proof.
  intros Hev Hown Hrun. eapply syncer_run_inv in Hrun as ([Hok _] & _ & _); [|done..|apply first_state_inv|done].
  split; [exact (so_parallel _ _ _ _ Hok)|]. split; [intros a b (? & _ & ?)%(so_to_fetch _ _ _ _ Hok); lia|].
  pose proof (so_authorities _ _ _ _ Hok) as Hperm.
  split. { pose proof (peer_indices_NoDup context) as Hnd. rewrite <-Hperm in Hnd. by apply NoDup_app in Hnd as (_ & _ & Hnd). }
  intros t Ht Hph Hsize. destruct (pop_available (fetch_state s)) as [p|] eqn:Hpop; [by exists p|exfalso].
  apply pop_available_None in Hpop. rewrite Hpop, elements_empty in Hperm. simpl in Hperm.
  pose proof (so_parallel _ _ _ _ Hok) as Hpar. unfold parallel_cap in Hpar.
  apply Permutation_length in Hperm. pose proof (peer_indices_length context Hown) as Hpeers.
  assert (length (omap asking_commits (inflight_fetches s)) < length (inflight_fetches s))%nat.
  { apply (length_omap_lt _ _ t); [done|]. unfold asking_commits. by rewrite Hph. }
  assert (committee_size (committee context) * 2 / 3 < committee_size (committee context)) by (apply N.Div0.div_lt_upper_bound; lia).
  lia.
Qed.
End runs.
End properties.
