(* ===== verification/AuthorityService.v ===== *)
(** The network service of a validator ([consensus/core/src/authority_service.rs]): it takes the
    blocks that peers send, streams its own blocks to them, and serves the blocks and commits
    they fetch. *)

From stdpp Require Import base strings numbers sorting gmap sets list.
From S2P Require Import Prelude Committee Block Dag StakeAggregator Commit BlockVerifier Store DagState CoreThread CommitVotes.

Open Scope N_scope.

Definition COMMIT_LAG_MULTIPLIER : N := 5.
Definition MAX_ADDITIONAL_BLOCKS : N := 10.

(** The state that the handlers change: the monitor of commit votes, what is behind the core
    dispatcher, and the fetches that were asked of the synchronizer. *)
Record AuthorityService (D : Type) := mkAuthorityService {
  as_commit_vote_monitor : CommitVoteMonitor;
  as_core_dispatcher : D;
  as_fetches : list (gset BlockRef * AuthorityIndex);
}.
Arguments mkAuthorityService {D}.
Arguments as_commit_vote_monitor {D}.
Arguments as_core_dispatcher {D}.
Arguments as_fetches {D}.

(** ** Blocks that peers send *)

Section send_block.
Context {D : Type} `{CoreThreadDispatcher D} `{Crypto, TransactionVerifier, BcsParser}.
Context (context : Context) (params : Parameters) (block_verifier : SignedBlockVerifier).
Implicit Types self : AuthorityService D.

(** [handle_send_block]; [now] is the time at which it reads the clock, and [last_commit_index]
    the index it reads from the DAG state.  It sleeps for the time that the block is ahead. *)
Definition handle_send_block self (now : BlockTimestampMs) (last_commit_index : CommitIndex) (peer : AuthorityIndex)
    (serialized_block : bytes) : outcome (ConsensusResult () * AuthorityService D) :=
  _ ← committee_authority (committee context) peer;
  match map_err MalformedBlock (parse_signed_block serialized_block) with
  | RustErr e => Ok (RustErr e, self)
  | RustOk signed_block =>
      let author := block_author (inner signed_block) in
      if negb (peer =? author) then Ok (RustErr (UnexpectedAuthority author peer), self)
      else
        verified ← verify block_verifier signed_block;
        match verified with
        | RustErr e => Ok (RustErr e, self)
        | RustOk _ =>
            let verified_block := new_verified signed_block serialized_block in
            let forward_time_drift := vb_timestamp_ms verified_block - now in
            if max_forward_time_drift params <? forward_time_drift then
              Ok (RustErr (BlockRejected (reference verified_block) "Block timestamp is too far in the future"), self)
            else
              monitor ← observe (as_commit_vote_monitor self) verified_block;
              let self := mkAuthorityService monitor (as_core_dispatcher self) (as_fetches self) in
              if last_commit_index +u32 commit_sync_batch_size params *u32 COMMIT_LAG_MULTIPLIER
                   <? quorum_commit_index monitor then
                Ok (RustErr (BlockRejected (reference verified_block)
                     "Last commit index is lagging quorum commit index too much"), self)
              else
                '(res, core) ← dispatch_add_blocks (as_core_dispatcher self) [verified_block];
                let self := mkAuthorityService monitor core (as_fetches self) in
                match res with
                | RustErr _ => Ok (RustErr Shutdown, self)
                | RustOk missing_ancestors =>
                    Ok (RustOk (),
                        if bool_decide (missing_ancestors = ∅) then self
                        else mkAuthorityService monitor core (as_fetches self ++ [(missing_ancestors, peer)]))
                end
        end
  end.
End send_block.

(** ** Streams of own blocks *)

(** What a receiver of a broadcast channel gets. *)
Inductive RecvResult (T : Type) : Type :=
| Received (item : T)
| Lagged (n : N)
| Closed.
Arguments Received {T}.
Arguments Lagged {T}.
Arguments Closed {T}.

(** The items that [BroadcastStream] yields from what its receiver gets. *)
Fixpoint broadcast_stream {T} (results : list (RecvResult T)) : list T :=
  match results with
  | [] => []
  | Received item :: results => item :: broadcast_stream results
  | Lagged _ :: results => broadcast_stream results
  | Closed :: _ => []
  end.

(** ** Serving blocks and commits *)

Section serve.
Context {St : Type} `{Store St}.
Context (context : Context) (params : Parameters).
Implicit Types dag_state : DagState St.

(** [handle_subscribe_blocks]: the blocks that the stream yields, when the receiver gets
    [broadcasted]. *)
Definition handle_subscribe_blocks dag_state (last_received : Round) (broadcasted : list (RecvResult VerifiedBlock)) :
    outcome (list bytes) :=
  missed_blocks ← get_cached_blocks dag_state (own_index context) (last_received +u32 1);
  Ok ((serialized <$> missed_blocks) ++ (serialized <$> broadcast_stream broadcasted)).

(** The validation of the requested references. *)
Fixpoint check_requested (block_refs : list BlockRef) : ConsensusResult () :=
  match block_refs with
  | [] => RustOk ()
  | block :: block_refs =>
      if negb (is_valid_index (committee context) (br_author block)) then
        RustErr (InvalidAuthorityIndex (br_author block) (committee_size (committee context)))
      else if br_round block =? GENESIS_ROUND then RustErr UnexpectedGenesisBlockRequested
      else check_requested block_refs
  end.

(** The first [n] references above the highest rounds of their authors. *)
Fixpoint additional_ancestors (n : nat) (highest_accepted_rounds : list Round) (ancestors : list BlockRef) :
    outcome (list BlockRef) :=
  match n, ancestors with
  | S n', block_ref :: ancestors =>
      round ← vec_index highest_accepted_rounds (br_author block_ref);
      if round <? br_round block_ref then
        rest ← additional_ancestors n' highest_accepted_rounds ancestors;
        Ok (block_ref :: rest)
      else additional_ancestors n highest_accepted_rounds ancestors
  | _, _ => Ok []
  end.

(** [handle_fetch_blocks]. *)
Definition handle_fetch_blocks dag_state (peer : AuthorityIndex) (block_refs : list BlockRef)
    (highest_accepted_rounds : list Round) : outcome (ConsensusResult (list bytes)) :=
  if max_blocks_per_fetch params <? N.of_nat (length block_refs) then Ok (RustErr (TooManyFetchBlocksRequested peer))
  else if negb (bool_decide (highest_accepted_rounds = [])) &&
          negb (N.of_nat (length highest_accepted_rounds) =? committee_size (committee context)) then
    Ok (RustErr (InvalidSizeOfHighestAcceptedRounds (N.of_nat (length highest_accepted_rounds))
      (committee_size (committee context))))
  else
    match check_requested block_refs with
    | RustErr e => Ok (RustErr e)
    | RustOk _ =>
        blocks ← get_blocks dag_state block_refs;
        ancestor_blocks ←
          (if bool_decide (highest_accepted_rounds = []) then Ok []
           else
             all_ancestors ← additional_ancestors (N.to_nat MAX_ADDITIONAL_BLOCKS) highest_accepted_rounds
               (omap id blocks ≫= vb_ancestors);
             if bool_decide (all_ancestors = []) then Ok [] else get_blocks dag_state all_ancestors);
        Ok (RustOk (serialized <$> omap id (blocks ++ ancestor_blocks)))
    end.

(** An iteration of the loop of [handle_fetch_commits]; [commits] is the vector reversed. *)
Fixpoint certified_prefix (store : St) (commits : list TrustedCommit) :
    outcome (ConsensusResult (list TrustedCommit * list BlockRef)) :=
  match commits with
  | [] => Ok (RustOk ([], []))
  | c :: rest =>
      votes ← store_read_commit_votes store (commit_index c);
      match votes with
      | RustErr e => Ok (RustErr e)
      | RustOk votes =>
          stake_aggregator ← foldM (λ (agg : StakeAggregator QuorumThreshold) (v : BlockRef),
              '(_, agg) ← aggregator_add agg (br_author v) (committee context);
              Ok agg)
            aggregator_new votes;
          if reached_threshold stake_aggregator (committee context) then Ok (RustOk (commits, votes))
          else certified_prefix store rest
      end
  end.

(** [handle_fetch_commits]. *)
Definition handle_fetch_commits (store : St) (start end_ : CommitIndex) :
    outcome (ConsensusResult (list TrustedCommit * list VerifiedBlock)) :=
  let exclusive_end := N.min (end_ +u32 1) (start +u32 commit_sync_batch_size params) in
  commits ← store_scan_commits store (mkCommitRange start exclusive_end);
  match commits with
  | RustErr e => Ok (RustErr e)
  | RustOk commits =>
      certified ← certified_prefix store (rev commits);
      match certified with
      | RustErr e => Ok (RustErr e)
      | RustOk (commits, certifier_block_refs) =>
          match store_read_blocks store certifier_block_refs with
          | RustErr e => Ok (RustErr e)
          | RustOk certifier_blocks => Ok (RustOk (rev commits, omap id certifier_blocks))
          end
      end
  end.
End serve.
