(* ===== verification/AuthorityServiceFacts.v ===== *)
(** The network service is correct: only verified blocks of the sender reach the core, requests
    are served from the DAG within their bounds, and streams yield every own block. *)

From stdpp Require Import base strings numbers sorting gmap sets list.
From S2P Require Import Prelude Committee Block Dag StakeAggregator Commit BlockVerifier Store DagState DagStateFacts Recovery CoreThread CommitVotes AuthorityService.

Open Scope N_scope.

(** ** Blocks that peers send *)

Section admitted.
Context `{Crypto, TransactionVerifier, BcsParser}.

(** A block that was received as bytes, and that verification accepts. *)
Record admitted (v : SignedBlockVerifier) (b : VerifiedBlock) : Prop := {
  am_parsed : parse_signed_block (serialized b) = RustOk (block b);
  am_verified : verify v (block b) = Ok (RustOk ());
  am_digest : b = new_verified (block b) (serialized b);
}.

Lemma new_verified_admitted v sb s :
  parse_signed_block s = RustOk sb → verify v sb = Ok (RustOk ()) → admitted v (new_verified sb s).
Proof. by split. Qed.

Lemma verify_returns v sb :
  committee_wf (committee (bv_context v)) → ∃ r, verify v sb = Ok r.
Proof. intros Hc. destruct (verify_accepts v sb Hc) as (r & Hr & _). eauto. Qed.
End admitted.

Section send_block_facts.
Context {D : Type} `{CoreThreadDispatcher D} `{Crypto, TransactionVerifier, BcsParser}.
Context (context : Context) (params : Parameters) (v : SignedBlockVerifier).
Context (Hc : committee_wf (committee context)) (Hv : committee (bv_context v) = committee context).
Implicit Types self : AuthorityService D.

(** The bytes hold a block that the peer may send at this time. *)
Record may_send (now : BlockTimestampMs) (peer : AuthorityIndex) (s : bytes) (b : VerifiedBlock) : Prop := {
  my_admitted : admitted v b;
  my_bytes : serialized b = s;
  my_author : vb_author b = peer;
  my_time : vb_timestamp_ms b ≤ now + max_forward_time_drift params;
}.

(** The local commits are too far behind those of the quorum. *)
Definition lagging (last_commit_index : CommitIndex) (monitor : CommitVoteMonitor) : Prop :=
  last_commit_index +u32 commit_sync_batch_size params *u32 COMMIT_LAG_MULTIPLIER < quorum_commit_index monitor.

(** What the service does with such a block. *)
Definition takes_block self (last_commit_index : CommitIndex) (peer : AuthorityIndex) (b : VerifiedBlock)
    (out : outcome (ConsensusResult () * AuthorityService D)) : Prop :=
  ∃ monitor, observe (as_commit_vote_monitor self) b = Ok monitor ∧
    (lagging last_commit_index monitor →
       ∃ reason, out = Ok (RustErr (BlockRejected (reference b) reason),
                           mkAuthorityService monitor (as_core_dispatcher self) (as_fetches self))) ∧
    (¬ lagging last_commit_index monitor → ∀ res core,
       dispatch_add_blocks (as_core_dispatcher self) [b] = Ok (res, core) →
       match res with
       | RustErr _ => out = Ok (RustErr Shutdown, mkAuthorityService monitor core (as_fetches self))
       | RustOk missing =>
           out = Ok (RustOk (), mkAuthorityService monitor core
             (as_fetches self ++ if bool_decide (missing = ∅) then [] else [(missing, peer)]))
       end).

(** C22: [handle_send_block] on whatever bytes a peer sends.  If they hold a verified block of the
    peer that is not too far in the future, its commit votes are observed, and then either the
    block is rejected because the validator lags behind the quorum, or it alone is sent to the
    core and its missing ancestors are fetched from the peer.  Any other bytes are rejected with
    an error and change nothing. *)
Theorem handle_send_block_spec self now last_commit_index peer s blocks :
  peer < committee_size (committee context) → observed context blocks (as_commit_vote_monitor self) →
  (∀ b, may_send now peer s b →
     takes_block self last_commit_index peer b (handle_send_block context params v self now last_commit_index peer s)) ∧
  ((¬ ∃ b, may_send now peer s b) →
     ∃ e, handle_send_block context params v self now last_commit_index peer s = Ok (RustErr e, self)).
Proof.
  intros Hpeer Hobs. unfold handle_send_block.
  assert (∃ x, committee_authority (committee context) peer = Ok x) as [x ->].
  { unfold committee_authority. apply vec_index_lt. by unfold committee_size in Hpeer. }
  cbn [mbind outcome_bind]. split.
  - intros b [[Hparse Hver Hdig] <- Ha Htime]. rewrite Hparse. cbn [map_err]. unfold vb_author in Ha. rewrite Ha, N.eqb_refl. cbn [negb].
    rewrite Hver. cbn [mbind outcome_bind]. rewrite <-Hdig.
    destruct (N.ltb_spec (max_forward_time_drift params) (vb_timestamp_ms b - now)) as [|_]; [lia|].
    assert (vb_author b < committee_size (committee context)) as Hlt by (unfold vb_author; by rewrite Ha).
    destruct (observe_Ok context blocks _ b Hobs Hlt) as (monitor & Hm & _). rewrite Hm. cbn [mbind outcome_bind].
    exists monitor. split; [done|]. unfold lagging.
    destruct (N.ltb_spec (last_commit_index +u32 commit_sync_batch_size params *u32 COMMIT_LAG_MULTIPLIER) (quorum_commit_index monitor)).
    + split; [|lia]. intros _. by eexists.
    + split; [lia|]. intros _ res core Hadd. cbn [as_core_dispatcher as_fetches]. rewrite Hadd. cbn [mbind outcome_bind].
      destruct res as [missing|e]; [|done]. case_bool_decide; [by rewrite app_nil_r|done].
  - intros Hnot. destruct (parse_signed_block s) as [sb|e] eqn:Hparse; [|by eexists]. cbn [map_err].
    destruct (N.eqb_spec peer (block_author (inner sb))) as [Ha|]; [|by eexists]. cbn [negb].
    destruct (verify_returns v sb) as [r Hr]; [by rewrite Hv|]. rewrite Hr. cbn [mbind outcome_bind].
    destruct r as [[]|e]; [|by eexists].
    destruct (N.ltb_spec (max_forward_time_drift params) (vb_timestamp_ms (new_verified sb s) - now)) as [|Hle]; [by eexists|].
    exfalso. apply Hnot. exists (new_verified sb s). split; [by apply new_verified_admitted|done|by rewrite Ha|lia].
Qed.
End send_block_facts.

(** ** Serving blocks *)

Section serve_facts.
Context {St : Type} `{StoreSpec St} `{Crypto}.
Context (context : Context) (params : Parameters).
Implicit Types (d : DagState St) (r : BlockRef).

Lemma check_requested_Ok refs :
  Forall (λ r, br_author r < committee_size (committee context) ∧ br_round r ≠ GENESIS_ROUND) refs →
  check_requested context refs = RustOk ().
Proof.
  induction 1 as [|r refs [Ha Hr] _ IH]; simpl; [done|]. unfold is_valid_index.
  destruct (N.ltb_spec (br_author r) (committee_size (committee context))); [|lia]. simpl.
  destruct (N.eqb_spec (br_round r) GENESIS_ROUND); done.
Qed.

(** A block above the highest round that the client has of its author. *)
Definition lacks (highest : list Round) (r : BlockRef) : bool :=
  match highest !! N.to_nat (br_author r) with Some round => round <? br_round r | None => false end.

Lemma additional_ancestors_Ok n highest refs :
  Forall (λ r, br_author r < N.of_nat (length highest)) refs →
  additional_ancestors n highest refs = Ok (take n (filter (λ r, lacks highest r = true) refs)).
Proof.
  intros Hall. revert n. induction Hall as [|r refs Hr _ IH]; intros [|n]; [done..|].
  cbn [additional_ancestors]. destruct (vec_index_lt highest (br_author r) Hr) as [round Hround]. rewrite Hround. cbn [mbind outcome_bind].
  apply vec_index_Ok in Hround. rewrite filter_cons. assert (Hlacks : lacks highest r = (round <? br_round r)) by (unfold lacks; by rewrite Hround).
  destruct (decide (lacks highest r = true)) as [Hl|Hl]; rewrite Hlacks in Hl; [|apply not_true_iff_false in Hl]; rewrite Hl, IH; done.
Qed.

(** The blocks of the DAG for references. *)
Definition blocks_at d (refs : list BlockRef) : list VerifiedBlock := omap (λ r, dag_view d !! r) refs.

Lemma omap_id_fmap {A B} (f : A → option B) (l : list A) : omap id (f <$> l) = omap f l.
Proof. induction l as [|x l IH]; [done|]. rewrite fmap_cons. cbn. destruct (f x); simpl; by rewrite <-IH. Qed.

Lemma elem_of_blocks_at d refs b : dag_wf d → b ∈ blocks_at d refs ↔ reference b ∈ refs ∧ dag_view d !! reference b = Some b.
Proof.
  intros Hwf. unfold blocks_at. rewrite list_elem_of_omap. split.
  - intros (r & Hr & Hb). assert (reference b = r) as -> by (by eapply view_reference). done.
  - intros [Hr Hb]. eauto.
Qed.

(** A request that the service answers. *)
Record good_request (refs : list BlockRef) (highest : list Round) : Prop := {
  gr_max : N.of_nat (length refs) ≤ max_blocks_per_fetch params;
  gr_rounds : highest = [] ∨ N.of_nat (length highest) = committee_size (committee context);
  gr_refs : Forall (λ r, br_author r < committee_size (committee context) ∧ br_round r ≠ GENESIS_ROUND) refs;
}.

(** What is served: the requested blocks, and the first ancestors of those found that the client
    lacks. *)
Definition served_refs d (refs : list BlockRef) (highest : list Round) : list BlockRef :=
  refs ++ take (N.to_nat MAX_ADDITIONAL_BLOCKS) (filter (λ r, lacks highest r = true) (blocks_at d refs ≫= vb_ancestors)).

Lemma handle_fetch_blocks_Ok d peer refs highest :
  dag_wf d → committee (DagState.context d) = committee context → good_request refs highest →
  (∀ r b, dag_view d !! r = Some b → Forall (λ a, br_author a < committee_size (committee context)) (vb_ancestors b)) →
  handle_fetch_blocks context params d peer refs highest = Ok (RustOk (serialized <$> blocks_at d (served_refs d refs highest))).
Proof.
  intros Hwf Hctx [Hmax Hrounds Hrefs] Hanc. unfold handle_fetch_blocks.
  destruct (N.ltb_spec (max_blocks_per_fetch params) (N.of_nat (length refs))) as [|_]; [lia|].
  assert (negb (bool_decide (highest = [])) && negb (N.of_nat (length highest) =? committee_size (committee context)) = false) as ->.
  { destruct Hrounds as [-> | ->]; [done|]. by rewrite N.eqb_refl, andb_false_r. }
  rewrite check_requested_Ok by done. rewrite get_blocks_view by done. cbn [mbind outcome_bind]. unfold served_refs.
  case_bool_decide as Hnil.
  { subst highest. cbn [mbind outcome_bind]. rewrite app_nil_r, omap_id_fmap.
    replace (filter _ _) with ([] : list BlockRef); [by rewrite take_nil, app_nil_r|].
    symmetry. apply list_nil_subseteq. by intros r [? _]%list_elem_of_filter. }
  destruct Hrounds as [?|Hlen]; [done|]. rewrite omap_id_fmap. fold (blocks_at d refs).
  rewrite additional_ancestors_Ok.
  2:{ rewrite Hlen. apply Forall_forall. intros r (b & Hr & Hb)%list_elem_of_bind. apply elem_of_blocks_at in Hb as [_ Hb]; [|done].
      specialize (Hanc _ _ Hb). rewrite Forall_forall in Hanc. auto. }
  cbn [mbind outcome_bind]. set (extra := take _ _). case_bool_decide as He; cbn [mbind outcome_bind].
  - rewrite He, !app_nil_r, omap_id_fmap. done.
  - rewrite get_blocks_view by done. cbn [mbind outcome_bind]. by rewrite <-fmap_app, omap_id_fmap.
Qed.

(** *** Streams *)

(** The items that were received before the channel was closed, in order. *)
Lemma broadcast_stream_items {T} (l : list (RecvResult T)) :
  Forall (λ x, x ≠ Closed) l → broadcast_stream l = omap (λ x, match x with Received item => Some item | _ => None end) l.
Proof.
  induction 1 as [|x l Hx _ IH]; [done|]. cbn. destruct x as [item|n|]; [by rewrite IH|by rewrite IH|done].
Qed.

(** A stream first yields the own blocks of the cache after the last received round, all of
    them and in the order of their rounds, and then the broadcast ones. *)
Lemma handle_subscribe_blocks_Ok d last_received broadcasted :
  dag_wf d → own_index context < committee_size (committee (DagState.context d)) → last_received < U32_MAX →
  ∃ missed, handle_subscribe_blocks context d last_received broadcasted =
      Ok (serialized <$> (missed ++ broadcast_stream broadcasted)) ∧
    StronglySorted (λ b b', ord_leb (reference b) (reference b') = true) missed ∧
    ∀ b, b ∈ missed ↔ recent_blocks d !! reference b = Some b ∧ vb_author b = own_index context ∧ last_received < vb_round b.
Proof.
  intros Hwf Hown Hlast. unfold handle_subscribe_blocks, get_cached_blocks.
  rewrite u32_add_small by (unfold U32_MAX in *; lia).
  destruct (lookup_lt_is_Some_2 (recent_refs d) (N.to_nat (own_index context))) as [refs Hrefs].
  { rewrite (wf_refs_len _ Hwf). lia. }
  assert (vec_index (recent_refs d) (own_index context) = Ok refs) as -> by by apply vec_index_Ok.
  cbn [mbind outcome_bind]. unfold bt_set_range. cbn [range_valid assert_ mbind outcome_bind].
  set (l := filter _ (bt_elements refs)).
  assert (Hl : ∀ r, r ∈ l ↔ br_author r = own_index context ∧ last_received < br_round r ∧ is_Some (recent_blocks d !! r)).
  { intros r. unfold l. rewrite list_elem_of_filter, elem_of_bt_elements, (wf_recent_refs _ Hwf _ _ Hrefs), N2Nat.id.
    unfold in_range. rewrite andb_true_r, ref_leb_spec. simpl. unfold DIGEST_MIN. split.
    - intros (Hr & Ha & Hs). split; [done|]. split; [lia|done].
    - intros (Ha & Hr & Hs). split; [|done]. lia. }
  assert (∃ missed, mapM (λ r, expect (recent_blocks d !! r) "Block should exist in recent blocks") l = Ok missed) as [missed Hm].
  { clear -Hl. assert (Hall : ∀ r, r ∈ l → is_Some (recent_blocks d !! r)) by (intros r; by rewrite Hl; intros (_ & _ & ?)). clear Hl.
    induction l as [|r l IH]; [by exists []|]. destruct (Hall r) as [b Hb]; [left|].
    destruct IH as [k Hk]; [intros r' Hr'; apply Hall; by right|]. exists (b :: k). simpl. rewrite Hb. simpl. by rewrite Hk. }
  rewrite Hm. cbn [mbind outcome_bind]. exists missed. rewrite fmap_app. split; [done|].
  apply mapM_Ok in Hm. assert (reference <$> missed = l) as Href.
  { clear -Hm Hwf. induction Hm as [|r b l k Hb%expect_Ok _ IH]; [done|]. rewrite fmap_cons, IH. f_equal. by apply (wf_recent _ Hwf) in Hb as [? _]. }
  split.
  - assert (StronglySorted (λ r r', ord_leb r r' = true) (reference <$> missed)) as Hs.
    { rewrite Href. apply (StronglySorted_sublist _ _ (bt_elements refs)); [apply sublist_filter|apply bt_elements_sorted]. }
    clear -Hs. induction missed as [|b k IH]; [constructor|]. rewrite fmap_cons in Hs. apply StronglySorted_cons in Hs as [Hb Hs].
    apply StronglySorted_cons. split; [by apply Forall_fmap in Hb|by apply IH].
  - intros b. split.
    + intros [j Hj]%list_elem_of_lookup. destruct (Forall2_lookup_r _ _ _ _ _ Hm Hj) as (r & Hr & Hb%expect_Ok).
      assert (reference b = r) as <- by by apply (wf_recent _ Hwf) in Hb as [? _]. apply list_elem_of_lookup_2, Hl in Hr as (? & ? & _). done.
    + intros (Hb & Ha & Hr). assert (reference b ∈ l) as Hin by (apply Hl; eauto).
      rewrite <-Href in Hin. apply list_elem_of_fmap in Hin as (b' & Heq & [j Hj]%list_elem_of_lookup).
      destruct (Forall2_lookup_r _ _ _ _ _ Hm Hj) as (r & Hr' & Hb'%expect_Ok).
      assert (reference b' = r) as <- by by apply (wf_recent _ Hwf) in Hb' as [? _]. rewrite <-Heq, Hb in Hb'. injection Hb' as <-.
      by eapply list_elem_of_lookup_2.
Qed.
End serve_facts.

(** ** Serving commits *)

Section commits_facts.
Context {St : Type} `{StoreSpec St} `{Crypto, TransactionVerifier, BcsParser}.
Context (context : Context) (params : Parameters) (v : SignedBlockVerifier).
Context (Hc : committee_wf (committee context)) (Hv : committee (bv_context v) = committee context).

(** A scan of a range gives the commits with these indices. *)
Lemma scan_range (s : St) cs start e :
  store_inv s → commits_of s = insert_commits cs ∅ → numbered cs → 0 < start → start ≤ e →
  store_scan_commits s (mkCommitRange start e) = Ok (RustOk (take (N.to_nat (e - start)) (drop (N.to_nat (start - 1)) cs))).
Proof.
  intros Hs Hcs Hn Hst He. rewrite store_scan_commits_spec by done.
  rewrite Hcs, stored_commits_items by done. do 2 f_equal. simpl.
  set (P := λ p : CommitKey * TrustedCommit, _ = true).
  assert (HP : ∀ c, P (commit_item c) ↔ start ≤ commit_index c ∧ commit_index c < e).
  { intros c. unfold P, in_range, ord_ltb.
    rewrite andb_true_iff, negb_true_iff, <-not_true_iff_false, !ord_prod_leb. simpl.
    unfold ord_leb, ord_N. rewrite !N.leb_le. unfold DIGEST_MIN. lia. }
  set (i := N.to_nat (start - 1)). set (k := N.to_nat (e - start)).
  rewrite <-(take_drop i cs) at 1. rewrite <-(take_drop k (drop i cs)) at 1.
  rewrite !fmap_app, !filter_app, !fmap_app.
  rewrite list_filter_none, list_filter_all, list_filter_none; simpl.
  - rewrite app_nil_r, <-list_fmap_compose. apply list_fmap_id.
  - intros p (c & -> & Hc')%list_elem_of_fmap. rewrite HP.
    apply list_elem_of_lookup in Hc' as [j Hj]. rewrite !lookup_drop in Hj. rewrite (Hn _ _ Hj). lia.
  - intros p (c & -> & Hc')%list_elem_of_fmap. apply HP.
    apply list_elem_of_lookup in Hc' as [j [Hj Hlt]%lookup_take_Some]. rewrite lookup_drop in Hj. rewrite (Hn _ _ Hj). lia.
  - intros p (c & -> & Hc')%list_elem_of_fmap. rewrite HP.
    apply list_elem_of_lookup in Hc' as [j [Hj Hlt]%lookup_take_Some]. rewrite (Hn _ _ Hj). lia.
Qed.

(** The votes of the store for the index of a commit. *)
Definition votes_read (s : St) (c : TrustedCommit) (vs : list BlockRef) : Prop :=
  store_read_commit_votes s (commit_index c) = Ok (RustOk vs) ∧ Forall (λ r, br_author r < committee_size (committee context)) vs.

Definition voted_by_quorum (vs : list BlockRef) : Prop :=
  reached_quorum (committee context) (set_stake (committee context) (list_to_set (br_author <$> vs))) = true.

(** The loop keeps the longest prefix of which the last commit has the votes of a quorum. *)
Lemma certified_prefix_Ok (s : St) cs :
  (∀ c, c ∈ cs → ∃ vs, votes_read s c vs) →
  ∃ k refs, certified_prefix context s (rev cs) = Ok (RustOk (rev (take k cs), refs)) ∧ (k ≤ length cs)%nat ∧
    (k = 0%nat → refs = []) ∧
    (∀ c, last (take k cs) = Some c → votes_read s c refs ∧ voted_by_quorum refs) ∧
    ∀ j c vs, cs !! j = Some c → votes_read s c vs → voted_by_quorum vs → (j < k)%nat.
Proof.
  induction cs as [|c cs IH] using rev_ind; intros Hall.
  { exists 0%nat, []. simpl. split_and!; try done. }
  destruct (Hall c) as (vs & Hread & Hau); [apply elem_of_app; right; by left|].
  rewrite rev_app_distr. cbn [rev app certified_prefix]. rewrite Hread. cbn [mbind outcome_bind].
  destruct (add_votes_wf (T := QuorumThreshold) (committee context) aggregator_new (br_author <$> vs) Hc) as (agg & Hagg & Hvo & Hst & _);
    [by apply aggregator_new_wf| |].
  { intros a (r & -> & Hr)%list_elem_of_fmap. rewrite Forall_forall in Hau. auto. }
  unfold add_votes in Hagg. rewrite foldM_fmap in Hagg. rewrite Hagg. cbn [mbind outcome_bind].
  unfold reached_threshold. rewrite Hst, Hvo. change (votes aggregator_new) with (∅ : gset AuthorityIndex). rewrite union_empty_r_L.
  change (is_threshold QuorumThreshold) with reached_quorum.
  destruct (reached_quorum _ _) eqn:Hq.
  - exists (length (cs ++ [c])), vs. rewrite take_ge by lia. rewrite rev_app_distr. split; [done|]. split; [done|].
    split. { rewrite length_app. simpl. lia. } split.
    + intros c' Hc'. rewrite last_snoc in Hc'. injection Hc' as <-. done.
    + intros j c' vs' Hj _ _. by apply lookup_lt_Some in Hj.
  - destruct IH as (k & refs & Hp & Hk & Hz & Hlast & Hmax). { intros c' Hc'. apply Hall, elem_of_app. by left. }
    exists k, refs. rewrite Hp, length_app, take_app_le by done. split; [done|]. split; [simpl; lia|]. split; [done|]. split; [done|].
    intros j c' vs' Hj Hread' Hq'. apply lookup_app_Some in Hj as [Hj|[Hle Hj]]; [by eapply Hmax|].
    apply list_lookup_singleton_Some in Hj as [_ <-]. destruct Hread' as [Hread' _]. rewrite Hread in Hread'. injection Hread' as <-.
    unfold voted_by_quorum in Hq'. congruence.
Qed.

(** Serialized commits of a chain pass the checks of the sequence. *)
Definition wire_commit (c : TrustedCommit) : Prop :=
  parse_commit (tc_serialized c) = RustOk (tc_inner c) ∧ tc_digest c = blake2b256 (tc_serialized c).

Definition linked (cs : list TrustedCommit) : Prop :=
  ∀ i c c', cs !! i = Some c → cs !! S i = Some c' → commit_previous_digest c' = tc_digest c.

Abbreviation parsed cs := ((λ c, (tc_digest c, tc_inner c)) <$> cs).

Lemma parse_served peer start end_ pre cs :
  end_ < U32_MAX → (∀ i c, (pre ++ cs) !! i = Some c → commit_index c = start + N.of_nat i ∧ commit_index c ≤ end_) →
  linked (pre ++ cs) → Forall wire_commit cs →
  parse_commits peer start end_ (parsed pre) (tc_serialized <$> cs) = RustOk (parsed (pre ++ cs)).
Proof.
  intros He. revert pre. induction cs as [|c cs IH]; intros pre Hi Hl Hw; [by rewrite app_nil_r|].
  apply Forall_cons in Hw as [[Hp Hd] Hw]. cbn [fmap list_fmap parse_commits]. rewrite Hp. cbn [map_err try_]. rewrite <-Hd.
  destruct (Hi (length pre) c) as [Hidx Hle]; [by rewrite lookup_app_r, Nat.sub_diag|].
  assert (check_sequence peer start (parsed pre) (tc_inner c) = RustOk ()) as ->.
  { unfold check_sequence. rewrite fmap_last. change (cv1_index (commit_v1 (tc_inner c))) with (commit_index c).
    change (cv1_previous_digest (commit_v1 (tc_inner c))) with (commit_previous_digest c).
    destruct (last pre) as [c0|] eqn:Hlast; simpl.
    - rewrite last_lookup in Hlast. assert (length pre ≠ 0%nat) by (apply lookup_lt_Some in Hlast; lia).
      destruct (Hi (pred (length pre)) c0) as [Hidx0 _]; [rewrite lookup_app_l; [done|lia]|].
      change (cv1_index (commit_v1 (tc_inner c0))) with (commit_index c0).
      rewrite (Hl (pred (length pre)) c0 c); [|rewrite lookup_app_l; [done|lia]|].
      2:{ replace (S (pred (length pre))) with (length pre) by lia. by rewrite lookup_app_r, Nat.sub_diag. }
      rewrite u32_add_small by (unfold U32_MAX in He; lia). rewrite N.eqb_refl.
      replace (commit_index c =? commit_index c0 + 1) with true; [done|]. symmetry. apply N.eqb_eq. lia.
    - apply last_None in Hlast. subst pre. simpl in Hidx. by rewrite Hidx, N.add_0_r, N.eqb_refl. }
  cbn [try_]. change (cv1_index (commit_v1 (tc_inner c))) with (commit_index c).
  destruct (N.ltb_spec end_ (commit_index c)) as [|_]; [lia|].
  rewrite (cons_middle c pre cs), (assoc (++)) in Hi, Hl |- *.
  rewrite <-(IH (pre ++ [c])); [|done..]. by rewrite fmap_app.
Qed.

(** Blocks that are verified are counted. *)
Lemma count_served r agg bs :
  aggregator_wf (committee context) agg → Forall (admitted v) bs →
  ∃ agg', count_votes context v r agg (serialized <$> bs) = Ok (RustOk agg') ∧ aggregator_wf (committee context) agg' ∧
    votes agg' = digest_voters (block <$> bs) r ∪ votes agg.
Proof.
  intros Hagg Hbs. destruct (count_votes_Ok context v Hc Hv r agg (serialized <$> bs) Hagg) as (res & Hres & Hok).
  assert (∃ agg', res = RustOk agg') as [agg' ->].
  { clear Hok. revert agg Hagg Hres. induction Hbs as [|b bs [Hp Hver _] _ IH]; intros agg Hagg Hres; simpl in Hres; [by injection Hres as <-; eexists|].
    rewrite Hp in Hres. cbn [map_err] in Hres. rewrite Hver in Hres. cbn [mbind outcome_bind] in Hres.
    destruct (count_block_votes context v Hc Hv r agg (block_author (inner (block b))) (block_commit_votes (inner (block b))) Hagg)
      as (agg1 & Hf & Hwf1 & _); [by eapply verified_author|]. rewrite Hf in Hres. cbn [mbind outcome_bind] in Hres. by eapply IH. }
  destruct (Hok agg' eq_refl) as (Hwf & blocks & Hbl & Hvo). exists agg'. split; [done|]. split; [done|].
  rewrite Hvo. do 2 f_equal. clear -Hbs Hbl. revert blocks Hbl.
  induction Hbs as [|b bs [Hp _ _] _ IH]; intros blocks Hbl; inversion Hbl as [|? ? ? ? [Hp' _] Hbl']; subst; [done|].
  rewrite fmap_cons, (IH _ Hbl'). f_equal. congruence.
Qed.

(** The certifiers that are read back: the blocks of the votes. *)
Lemma read_certifiers (s : St) refs :
  store_inv s → (∀ r, r ∈ refs → ∃ b, blocks_of s !! r = Some b ∧ admitted v b) →
  ∃ bs, store_read_blocks s refs = RustOk (Some <$> bs) ∧ reference <$> bs = refs ∧ Forall (admitted v) bs ∧
    ∀ b, b ∈ bs → blocks_of s !! reference b = Some b.
Proof.
  intros Hs Hall. rewrite store_read_blocks_spec by done.
  induction refs as [|r refs IH]; [by exists []; split_and!; [..|intros b ?%not_elem_of_nil]|].
  destruct (Hall r) as (b & Hb & Had); [left|]. destruct IH as (bs & Hr & Href & Hadm & Hin).
  { intros r' Hr'. apply Hall. by right. }
  destruct (store_inv_reference s r b Hs Hb) as [Hrb _].
  exists (b :: bs). rewrite !fmap_cons, Hb, Hrb, Href. injection Hr as ->. split_and!; [done..|by constructor|].
  intros b' [->|Hb']%elem_of_cons; [by rewrite Hrb|auto].
Qed.

Lemma omap_id_Some {A} (l : list A) : omap id (Some <$> l) = l.
Proof. induction l as [|x l IH]; [done|]. rewrite fmap_cons. cbn. by f_equal. Qed.

(** What a validator that made the commits [cs] has in its store.  The blocks with votes for the
    index of a commit passed verification; they may vote for another commit of that index. *)
Record serving (s : St) (cs : list TrustedCommit) : Prop := {
  sv_inv : store_inv s;
  sv_commits : commits_of s = insert_commits cs ∅;
  sv_numbered : numbered cs;
  sv_linked : linked cs;
  sv_wire : Forall wire_commit cs;
  sv_votes c : c ∈ cs → ∃ vs, store_read_commit_votes s (commit_index c) = Ok (RustOk vs) ∧
    ∀ r, r ∈ vs → ∃ b, blocks_of s !! r = Some b ∧ admitted v b;
}.

Lemma serving_votes_read s cs c : serving s cs → c ∈ cs → ∃ vs, votes_read s c vs.
Proof.
  intros Hsv Hin. destruct (sv_votes _ _ Hsv c Hin) as (vs & Hread & Hvs). exists vs. split; [done|].
  apply Forall_forall. intros r Hr. destruct (Hvs r Hr) as (b & Hb & [_ Hver _]).
  destruct (store_inv_reference s r b (sv_inv _ _ Hsv) Hb) as [<- _]. by apply (verified_author context v Hc Hv (block b)).
Qed.

(** When all certifiers vote for the commit, the client counts what the server counted. *)
Lemma served_certifiers c bs :
  Forall (λ b, commit_reference c ∈ vb_commit_votes b) bs →
  digest_voters (block <$> bs) (commit_reference c) = list_to_set (br_author <$> (reference <$> bs)).
Proof.
  intros Hvotes. rewrite Forall_forall in Hvotes. apply set_eq. intros a. unfold digest_voters.
  rewrite !elem_of_list_to_set, !list_elem_of_fmap. split.
  - intros (sb & -> & [_ (b & -> & Hb)%list_elem_of_fmap]%list_elem_of_filter). exists (reference b). split; [done|]. by apply list_elem_of_fmap_2.
  - intros (r & -> & (b & -> & Hb)%list_elem_of_fmap). exists (block b). split; [done|]. apply list_elem_of_filter.
    split; [|by apply list_elem_of_fmap_2]. by apply Hvotes.
Qed.

(** The client accepts a chain of commits exactly when a quorum votes for the last one. *)
Lemma client_verifies peer start end_ cs c bs
    (stake := set_stake (committee context) (digest_voters (block <$> bs) (commit_reference c))) :
  end_ < U32_MAX → (∀ i c, cs !! i = Some c → commit_index c = start + N.of_nat i ∧ commit_index c ≤ end_) →
  linked cs → Forall wire_commit cs → last cs = Some c → Forall (admitted v) bs →
  verify_commits context v peer start end_ (tc_serialized <$> cs) (serialized <$> bs) =
    Ok (if reached_quorum (committee context) stake then RustOk cs
        else RustErr (NotEnoughCommitVotes stake peer (tc_inner c))).
Proof.
  intros He Hi Hl Hw Hlast Hbs. unfold verify_commits.
  assert (parse_commits peer start end_ [] (tc_serialized <$> cs) = RustOk (parsed cs)) as ->
    by exact (parse_served peer start end_ [] cs He Hi Hl Hw).
  rewrite fmap_last, Hlast. simpl.
  change (mkCommitRef (cv1_index (commit_v1 (tc_inner c))) (tc_digest c)) with (commit_reference c).
  destruct (count_served (commit_reference c) aggregator_new bs) as (agg & -> & [Hst _] & Hvo); [by apply aggregator_new_wf|done|].
  cbn [mbind outcome_bind]. unfold reached_threshold. rewrite Hst, Hvo.
  change (votes aggregator_new) with (∅ : gset AuthorityIndex). rewrite !union_empty_r_L.
  change (is_threshold QuorumThreshold) with reached_quorum. fold stake.
  destruct (reached_quorum _ stake); [|done]. simpl. do 2 f_equal.
  clear -Hw. induction Hw as [|c cs [_ Hd] _ IH]; [done|]. simpl. f_equal; [|exact IH].
  unfold new_trusted. rewrite <-Hd. by destruct c.
Qed.

(** C15: A request for commits, from the server to the client.  [handle_fetch_commits] answers
    with commits from the start of the range on, as many as the range and the batch size allow,
    cut to the last one for whose index a quorum of the stored, verified blocks votes; the blocks
    with these votes come with it.  [verify_commits] gives back the commits that were served if
    the votes for the digest of the last one are a quorum, as they are when all the blocks vote
    for it.  If too many of them vote for another commit of that index, the answer of the honest
    server is rejected for lack of votes; and an empty answer is rejected. *)
Theorem served_commits_accepted s cs peer start end_ :
  serving s cs → 0 < start → start ≤ end_ → end_ < U32_MAX → start + commit_sync_batch_size params < 2 ^ 32 →
  let range := take (N.to_nat (N.min (end_ + 1 - start) (commit_sync_batch_size params))) (drop (N.to_nat (start - 1)) cs) in
  ∃ served certifier_blocks,
    handle_fetch_commits context params s start end_ = Ok (RustOk (served, certifier_blocks)) ∧
    served `prefix_of` range ∧
    (∀ c vs, c ∈ range → votes_read s c vs → voted_by_quorum vs → c ∈ served) ∧
    let verified := verify_commits context v peer start end_ (tc_serialized <$> served) (serialized <$> certifier_blocks) in
    (served = [] → verified = Ok (RustErr (NoCommitReceived peer))) ∧
    ∀ c, last served = Some c →
      votes_read s c (reference <$> certifier_blocks) ∧ voted_by_quorum (reference <$> certifier_blocks) ∧
      (Forall (λ b, commit_reference c ∈ vb_commit_votes b) certifier_blocks → verified = Ok (RustOk served)) ∧
      let stake := set_stake (committee context) (digest_voters (block <$> certifier_blocks) (commit_reference c)) in
      verified = Ok (if reached_quorum (committee context) stake then RustOk served
                     else RustErr (NotEnoughCommitVotes stake peer (tc_inner c))).
Proof.
  intros Hsv Hst Hse He Hb range. unfold handle_fetch_commits.
  rewrite !u32_add_small by (unfold U32_MAX in *; lia).
  rewrite (scan_range s cs) by (apply Hsv || lia). cbn [mbind outcome_bind].
  replace (N.min (end_ + 1) (start + commit_sync_batch_size params) - start)
    with (N.min (end_ + 1 - start) (commit_sync_batch_size params)) by lia. fold range.
  assert (Hrange : ∀ c, c ∈ range → c ∈ cs).
  { intros c Hin. unfold range in Hin. apply list_elem_of_lookup in Hin as [i Hi]. apply lookup_take_Some in Hi as [Hi _].
    rewrite lookup_drop in Hi. by eapply list_elem_of_lookup_2. }
  destruct (certified_prefix_Ok s range) as (k & refs & -> & Hk & Hz & Hlast & Hmax).
  { intros c Hin. by apply (serving_votes_read s cs c Hsv), Hrange. }
  cbn [mbind outcome_bind]. rewrite rev_involutive.
  assert (Hrefs : ∀ r, r ∈ refs → ∃ b, blocks_of s !! r = Some b ∧ admitted v b).
  { intros r Hr. destruct (last (take k range)) as [c|] eqn:Hl.
    - destruct (Hlast c eq_refl) as [[Hread _] _].
      assert (c ∈ range) as Hin. { rewrite last_lookup in Hl. apply lookup_take_Some in Hl as [Hl _]. by eapply list_elem_of_lookup_2. }
      destruct (sv_votes _ _ Hsv c (Hrange c Hin)) as (vs & Hread' & Hvs). rewrite Hread in Hread'. injection Hread' as <-. by apply Hvs.
    - apply last_None in Hl. destruct k; [by rewrite (Hz eq_refl) in Hr; apply not_elem_of_nil in Hr|].
      destruct range; [simpl in Hk; lia|done]. }
  destruct (read_certifiers s refs (sv_inv _ _ Hsv) Hrefs) as (bs & -> & Href & Hadm & Hin).
  rewrite omap_id_Some. exists (take k range), bs. split; [done|]. split; [apply prefix_take|]. split.
  { intros c vs [j Hj]%list_elem_of_lookup Hvs Hq. apply list_elem_of_lookup. exists j. apply lookup_take_Some. split; [done|]. by eapply Hmax. }
  set (verified := verify_commits _ _ _ _ _ _ _). split; [by unfold verified; intros ->|]. intros c Hl. rewrite Href. destruct (Hlast c Hl) as [Hvr Hq].
  assert (Hver : verified = Ok (if reached_quorum (committee context) (set_stake (committee context) (digest_voters (block <$> bs) (commit_reference c)))
    then RustOk (take k range) else RustErr (NotEnoughCommitVotes (set_stake (committee context) (digest_voters (block <$> bs) (commit_reference c))) peer (tc_inner c)))).
  { apply client_verifies; try done.
    - intros i c' [Hi _]%lookup_take_Some. unfold range in Hi. apply lookup_take_Some in Hi as [Hi Hlt]. rewrite lookup_drop in Hi.
      rewrite (sv_numbered _ _ Hsv _ _ Hi). lia.
    - intros i c1 c2 [Hx1 _]%lookup_take_Some [Hx2 _]%lookup_take_Some. unfold range in Hx1, Hx2.
      apply lookup_take_Some in Hx1 as [Hx1 _], Hx2 as [Hx2 _]. rewrite !lookup_drop in Hx1, Hx2. rewrite Nat.add_succ_r in Hx2.
      by apply (sv_linked _ _ Hsv _ _ _ Hx1).
    - apply Forall_take. unfold range. apply Forall_take, Forall_drop, Hsv. }
  split; [done|]. split; [done|]. split; [|done]. intros Hall. rewrite Hver, served_certifiers, Href by done.
  unfold voted_by_quorum in Hq. by rewrite Hq.
Qed.
End commits_facts.
