(* ===== verification/Broadcaster.v ===== *)
(** The tasks that push new blocks to the peers ([consensus/core/src/broadcaster.rs]).  The
    estimate of the round trip time is left out: it only decides when a request times out, and
    the events leave that open. *)

From stdpp Require Import base strings numbers gmap sets list.
From S2P Require Import Prelude Committee Block DagState AuthorityService.

Open Scope N_scope.

Definition BROADCAST_CONCURRENCY : nat := 10.

(** The variables of [push_blocks]: the blocks that are being sent, and the last block. *)
Record BlockSender := mkBlockSender {
  bs_requests : list VerifiedBlock;
  bs_last_block : option VerifiedBlock;
}.

Definition push_blocks_start : BlockSender := mkBlockSender [] None.

(** The answer of [send_block]: the peer has taken the block, the request has failed, or it has
    timed out. *)
Inductive SendResponse : Type :=
| SendOk
| SendErr
| SendElapsed.

(** The branches of the loop: the channel yields a result, the [i]-th request ends, and the
    retry timer ticks. *)
Inductive SenderEvent : Type :=
| RecvBlock (result : RecvResult VerifiedBlock)
| Responded (i : nat) (resp : SendResponse)
| RetryTick.

(** A step of [push_blocks], with the block that the peer has taken; there is no state any more
    when the loop has returned.  The channel is not polled while too many requests run. *)
Definition push_blocks_step (event : SenderEvent) (self : BlockSender) : option VerifiedBlock * option BlockSender :=
  match event with
  | RecvBlock result =>
      if (length (bs_requests self) <? BROADCAST_CONCURRENCY)%nat then
        match result with
        | Received block =>
            (None, Some (mkBlockSender (bs_requests self ++ [block])
                     match bs_last_block self with
                     | None => Some block
                     | Some last => if vb_round last <? vb_round block then Some block else Some last
                     end))
        | Closed => (None, None)
        | Lagged _ => (None, Some self)
        end
      else (None, Some self)
  | Responded i resp =>
      match bs_requests self !! i with
      | Some block =>
          match resp with
          | SendOk => (Some block, Some (mkBlockSender (delete i (bs_requests self)) (bs_last_block self)))
          | SendErr | SendElapsed =>
              (None, Some (mkBlockSender (delete i (bs_requests self) ++ [block]) (bs_last_block self)))
          end
      | None => (None, Some self)
      end
  | RetryTick =>
      if bool_decide (bs_requests self = []) then
        match bs_last_block self with
        | Some block => (None, Some (mkBlockSender (bs_requests self ++ [block]) (bs_last_block self)))
        | None => (None, Some self)
        end
      else (None, Some self)
  end.

(** The blocks that the peer has taken, and the state when the loop still runs. *)
Fixpoint push_blocks_run (events : list SenderEvent) (self : BlockSender) : list VerifiedBlock * option BlockSender :=
  match events with
  | [] => ([], Some self)
  | event :: events =>
      match push_blocks_step event self with
      | (taken, None) => (option_list taken, None)
      | (taken, Some self) => let '(rest, self) := push_blocks_run events self in (option_list taken ++ rest, self)
      end
  end.

(** The senders of the broadcaster, by peer. *)
Definition broadcaster_new (context : Context) : list (AuthorityIndex * BlockSender) :=
  (λ index, (index, push_blocks_start)) <$>
    filter (λ index, index ≠ own_index context) (committee_authorities (committee context)).*1.

Definition broadcaster_stop (senders : list (AuthorityIndex * BlockSender)) : list (AuthorityIndex * BlockSender) := [].

(** ** Properties *)

(** The blocks that the loop has received: the channel is polled with the state it is in. *)
Fixpoint received_blocks (events : list SenderEvent) (self : BlockSender) : list VerifiedBlock :=
  match events with
  | [] => []
  | event :: events =>
      let rest := from_option (received_blocks events) [] (push_blocks_step event self).2 in
      match event with
      | RecvBlock (Received block) =>
          if (length (bs_requests self) <? BROADCAST_CONCURRENCY)%nat then block :: rest else rest
      | _ => rest
      end
  end.

(** The state after the blocks [received], of which the peer has taken [taken]. *)
Record sender_inv (received taken : list VerifiedBlock) (self : BlockSender) : Prop := {
  si_bound : (length (bs_requests self) ≤ BROADCAST_CONCURRENCY)%nat;
  si_none_lost block : block ∈ received → block ∈ taken ∨ block ∈ bs_requests self;
  si_from_received block : block ∈ taken ++ bs_requests self → block ∈ received;
  si_last : match bs_last_block self with
            | None => received = []
            | Some last => last ∈ received ∧ Forall (λ block, vb_round block ≤ vb_round last) received
            end;
}.

Lemma push_blocks_step_inv received taken self event took self' :
  sender_inv received taken self → push_blocks_step event self = (took, Some self') →
  ∃ new, sender_inv (received ++ new) (taken ++ option_list took) self' ∧
    ∀ events, received_blocks (event :: events) self = new ++ received_blocks events self'.
Proof.
  intros [Hb Hn Hf Hl] Hstep. assert (Hkeep : sender_inv (received ++ []) (taken ++ []) self).
  { rewrite !app_nil_r. by split. }
  cbn [received_blocks]. rewrite Hstep. cbn [snd from_option]. destruct event as [result|i resp|]; cbn [push_blocks_step] in Hstep.
  - destruct (Nat.ltb_spec (length (bs_requests self)) BROADCAST_CONCURRENCY).
    2: { injection Hstep as <- <-. exists []. split; [done|]. by destruct result. }
    destruct result as [block|n|]; [|injection Hstep as <- <-; by exists []|done]. injection Hstep as <- <-.
    exists [block]. split; [|done]. split; cbn.
    + rewrite length_app. cbn. lia.
    + set_solver.
    + set_solver.
    + destruct (bs_last_block self) as [last|]; [|by subst; split; [set_solver|repeat constructor]].
      destruct Hl as [Hin Hall]. destruct (N.ltb_spec (vb_round last) (vb_round block)).
      * split; [set_solver|]. apply Forall_app. split; [|by repeat constructor]. eapply Forall_impl; [exact Hall|]. cbn. lia.
      * split; [set_solver|]. apply Forall_app. split; [done|]. by repeat constructor.
  - exists []. split; [|done]. destruct (bs_requests self !! i) as [block|] eqn:Hi; [|by injection Hstep as <- <-].
    pose proof (delete_Permutation _ _ _ Hi) as Hp.
    destruct resp; injection Hstep as <- <-; rewrite app_nil_r; (split; cbn; [| | |done]).
    all: try (intros x; rewrite ?elem_of_app; specialize (Hn x); specialize (Hf x); rewrite elem_of_app in Hf; rewrite Hp in Hn, Hf; set_solver).
    all: rewrite Hp in Hb; rewrite ?length_app; cbn in *; lia.
  - exists []. split; [|done]. case_bool_decide as He; [|by injection Hstep as <- <-].
    destruct (bs_last_block self) as [last|] eqn:Hlast; injection Hstep as <- <-; [|done]. rewrite He, !app_nil_r in *. cbn.
    split; cbn; [unfold BROADCAST_CONCURRENCY; lia| | |done]; set_solver.
Qed.

Lemma push_blocks_run_inv received taken self events took self' :
  sender_inv received taken self → push_blocks_run events self = (took, Some self') →
  sender_inv (received ++ received_blocks events self) (taken ++ took) self'.
Proof.
  revert received taken self took. induction events as [|event events IH]; intros received taken self took Hinv Hrun.
  { injection Hrun as <- <-. cbn. by rewrite !app_nil_r. }
  cbn [push_blocks_run] in Hrun. destruct (push_blocks_step event self) as [t [self1|]] eqn:Hstep; [|done].
  destruct (push_blocks_run events self1) as [rest s2] eqn:Hrest. injection Hrun as <- ->.
  destruct (push_blocks_step_inv _ _ _ _ _ _ Hinv Hstep) as (new & Hinv1 & ->).
  rewrite !(assoc (++)). by apply IH.
Qed.

(** C28: While the loop that pushes blocks to a peer runs, at most ten requests are in flight, and
    no block that it has received is lost: the peer has taken it or it is still being sent.  The
    last block is one of the highest round received, and when nothing is in flight the retry
    timer sends it again. *)
Theorem push_blocks_spec events taken self :
  push_blocks_run events push_blocks_start = (taken, Some self) →
  let received := received_blocks events push_blocks_start in
  (length (bs_requests self) ≤ BROADCAST_CONCURRENCY)%nat ∧
  (∀ block, block ∈ received ↔ block ∈ taken ∨ block ∈ bs_requests self) ∧
  (received = [] ∧ bs_last_block self = None ∨
   ∃ last, bs_last_block self = Some last ∧ last ∈ received ∧ Forall (λ block, vb_round block ≤ vb_round last) received ∧
     (bs_requests self = [] → push_blocks_step RetryTick self = (None, Some (mkBlockSender [last] (Some last))))).
Proof.
  intros Hrun. apply (push_blocks_run_inv [] []) in Hrun as [Hb Hn Hf Hl].
  - cbn [app] in *. split; [done|]. split; [intros block; split; [apply Hn|intros Hin; apply Hf, elem_of_app, Hin]|].
    destruct (bs_last_block self) as [last|] eqn:Hlast; [right|by left]. exists last. destruct Hl as [Hin Hall].
    split_and!; [done..|]. intros He. cbn [push_blocks_step]. by rewrite He, Hlast.
  - split; cbn; [lia| | |done]; set_solver.
Qed.
