(* ===== verification/Synchronizer.v ===== *)
(** Synchronization of single blocks ([consensus/core/src/synchronizer.rs]): missing blocks are
    fetched from the peer that sent a block that needs them, and periodically from random peers;
    locks bound the number of peers that are asked for a block at the same time. *)

From stdpp Require Import base strings numbers sorting gmap sets list.
From S2P Require Import Prelude Committee Block Dag StakeAggregator Commit BlockVerifier Store DagState CoreThread CommitSyncer AuthorityService.

Open Scope N_scope.

Definition FETCH_BLOCKS_CONCURRENCY : N := 5.
Definition MAX_AUTHORITIES_TO_FETCH_PER_BLOCK : N := 2.
Definition MAX_RETRIES : N := 5.
Definition MAX_PEERS : N := 3.
Definition SYNCHRONIZER_TIMEOUT : N := 500.
Definition COMMANDS_CHANNEL_SIZE : N := 1000.

(** ** Locks *)

(** [InflightBlocksMap]: the authorities that are asked for each block. *)
Abbreviation InflightBlocksMap := (gmap BlockRef (gset AuthorityIndex)).

Record BlocksGuard := mkBlocksGuard {
  bg_block_refs : gset BlockRef;
  bg_peer : AuthorityIndex;
}.

(** An iteration of [lock_blocks]. *)
Definition lock_block (peer : AuthorityIndex) (st : gset BlockRef * InflightBlocksMap) (block_ref : BlockRef) :
    outcome (gset BlockRef * InflightBlocksMap) :=
  let '(blocks, inner) := st in
  let authorities : gset AuthorityIndex := default ∅ (inner !! block_ref) in
  if (N.of_nat (size authorities) <? MAX_AUTHORITIES_TO_FETCH_PER_BLOCK) && bool_decide (peer ∉ authorities) then
    _ ← assert_ (bool_decide (peer ∉ authorities)) "assertion failed: authorities.insert(peer)";
    Ok ({[block_ref]} ∪ blocks, <[block_ref := {[peer]} ∪ authorities]> inner)
  else Ok (blocks, <[block_ref := authorities]> inner).

Definition lock_blocks (self : InflightBlocksMap) (missing_block_refs : gset BlockRef) (peer : AuthorityIndex) :
    outcome (option BlocksGuard * InflightBlocksMap) :=
  '(blocks, inner) ← foldM (lock_block peer) (∅, self) (bt_elements missing_block_refs);
  Ok (if bool_decide (blocks = ∅) then None else Some (mkBlocksGuard blocks peer), inner).

(** [unlock_blocks]. *)
Definition unlock_block (peer : AuthorityIndex) (blocks_to_fetch : InflightBlocksMap) (block_ref : BlockRef) :
    outcome InflightBlocksMap :=
  authorities ← expect (blocks_to_fetch !! block_ref : option (gset AuthorityIndex)) "Should have found a non empty map";
  _ ← assert_ (bool_decide (peer ∈ authorities)) "Peer index should be present!";
  let authorities := authorities ∖ {[peer]} in
  Ok (if bool_decide (authorities = ∅) then delete block_ref blocks_to_fetch
      else <[block_ref := authorities]> blocks_to_fetch).

Definition unlock_blocks (self : InflightBlocksMap) (block_refs : gset BlockRef) (peer : AuthorityIndex) :
    outcome InflightBlocksMap :=
  foldM (unlock_block peer) self (bt_elements block_refs).

(** [drop] of a guard. *)
Definition drop_guard (self : InflightBlocksMap) (guard : BlocksGuard) : outcome InflightBlocksMap :=
  unlock_blocks self (bg_block_refs guard) (bg_peer guard).

Definition swap_locks (self : InflightBlocksMap) (blocks_guard : BlocksGuard) (peer : AuthorityIndex) :
    outcome (option BlocksGuard * InflightBlocksMap) :=
  inner ← drop_guard self blocks_guard;
  lock_blocks inner (bg_block_refs blocks_guard) peer.

(** ** Fetched blocks *)

Section fetched.
Context `{Crypto, TransactionVerifier, BcsParser}.
Context (context : Context) (block_verifier : SignedBlockVerifier).

(** [verify_blocks]; [clock i] is the time that it reads for the [i]-th block. *)
Fixpoint verify_blocks (clock : nat → BlockTimestampMs) (serialized_blocks : list bytes) :
    outcome (ConsensusResult (list VerifiedBlock)) :=
  match serialized_blocks with
  | [] => Ok (RustOk [])
  | serialized_block :: serialized_blocks =>
      match map_err MalformedBlock (parse_signed_block serialized_block) with
      | RustErr e => Ok (RustErr e)
      | RustOk signed_block =>
          verified ← verify block_verifier signed_block;
          match verified with
          | RustErr e => Ok (RustErr e)
          | RustOk _ =>
              let verified_block := new_verified signed_block serialized_block in
              rest ← verify_blocks (λ i, clock (S i)) serialized_blocks;
              Ok (match rest with
                  | RustErr e => RustErr e
                  | RustOk rest => RustOk (if clock 0%nat <? vb_timestamp_ms verified_block then rest else verified_block :: rest)
                  end)
          end
      end
  end.

(** The check that the blocks are requested, or ancestors of requested ones. *)
Definition check_expected (peer_index : AuthorityIndex) (requested : gset BlockRef) (blocks : list VerifiedBlock) :
    ConsensusResult () :=
  let ancestors : gset BlockRef :=
    list_to_set (filter (λ b, reference b ∈ requested) blocks ≫= vb_ancestors) in
  match list_find (λ b, reference b ∉ requested ∧ reference b ∉ ancestors) blocks with
  | Some (_, block) => RustErr (UnexpectedFetchedBlock peer_index (reference block))
  | None => RustOk ()
  end.

(** The blocks that [process_fetched_blocks] sends to the core. *)
Definition fetched_blocks_of (clock : nat → BlockTimestampMs) (serialized_blocks : list bytes) (peer_index : AuthorityIndex)
    (requested : gset BlockRef) : outcome (ConsensusResult (list VerifiedBlock)) :=
  if N.of_nat (size requested) + MAX_ADDITIONAL_BLOCKS <? N.of_nat (length serialized_blocks) then
    Ok (RustErr (TooManyFetchedBlocksReturned peer_index))
  else
    blocks ← verify_blocks clock serialized_blocks;
    Ok (try_ blocks (λ blocks, try_ (check_expected peer_index requested blocks) (λ _, RustOk blocks))).
End fetched.

(** ** The state *)

Inductive Command : Type :=
| FetchBlocks (missing_block_refs : gset BlockRef) (peer_index : AuthorityIndex)
| KickOffScheduler.

(** A call of [fetch_blocks_request] that runs. *)
Record FetchRequest := mkFetchRequest {
  fr_peer : AuthorityIndex;
  fr_guard : BlocksGuard;
  fr_highest_rounds : list Round;
  fr_retries : N;
}.

(** How it ends: with the answer of the peer, an error of the network, or at the timeout. *)
Inductive FetchResponse : Type :=
| Fetched (serialized_blocks : list bytes)
| NetworkError (e : ConsensusError)
| TimedOut.

Definition fetch_blocks_request (request : FetchRequest) (response : FetchResponse) : ConsensusResult (list bytes) * N :=
  match response with
  | Fetched serialized_blocks => (RustOk serialized_blocks, fr_retries request)
  | NetworkError e => (RustErr e, fr_retries request +u32 1)
  | TimedOut => (RustErr (NetworkRequestTimeout "deadline has elapsed"), fr_retries request)
  end.

(** The task of the scheduler: it has been spawned for the missing blocks, it fetches them from
    peers, or it processes what it fetched. *)
Inductive SchedulerTask : Type :=
| Spawned (missing_blocks : gset BlockRef)
| FetchingFromPeers (peers : list AuthorityIndex) (requests : list FetchRequest)
    (results : list (BlocksGuard * list bytes * AuthorityIndex))
| ProcessingResults (results : list (BlocksGuard * list bytes * AuthorityIndex)).

(** [fetch_block_senders] are the channels to the tasks of the peers, and [peer_requests] the
    requests that each task runs. *)
Record Synchronizer (D : Type) := mkSynchronizer {
  inflight_blocks_map : InflightBlocksMap;
  sy_core_dispatcher : D;
  commands : list Command;
  fetch_block_senders : gmap AuthorityIndex (list BlocksGuard);
  peer_requests : gmap AuthorityIndex (list FetchRequest);
  fetch_blocks_scheduler_task : option SchedulerTask;
  scheduler_deadline : N;
}.
Arguments mkSynchronizer {D}.
Arguments inflight_blocks_map {D}.
Arguments sy_core_dispatcher {D}.
Arguments commands {D}.
Arguments fetch_block_senders {D}.
Arguments peer_requests {D}.
Arguments fetch_blocks_scheduler_task {D}.
Arguments scheduler_deadline {D}.

Section synchronizer.
Context {D : Type} `{CoreThreadDispatcher D} {St : Type} `{Store St} `{Crypto, TransactionVerifier, BcsParser}.
Context (context : Context) (params : Parameters) (block_verifier : SignedBlockVerifier).
Implicit Types self : Synchronizer D.

(** [Synchronizer::start]. *)
Definition synchronizer_start (core_dispatcher : D) (now : N) : Synchronizer D :=
  let peers := peer_indices context in
  mkSynchronizer ∅ core_dispatcher [] (list_to_map ((λ index, (index, [])) <$> peers))
    (list_to_map ((λ index, (index, [])) <$> peers)) None (now + SYNCHRONIZER_TIMEOUT).

Definition with_locks (m : InflightBlocksMap) self : Synchronizer D :=
  mkSynchronizer m (sy_core_dispatcher self) (commands self) (fetch_block_senders self) (peer_requests self)
    (fetch_blocks_scheduler_task self) (scheduler_deadline self).

Definition with_core_commands (core : D) (cs : list Command) self : Synchronizer D :=
  mkSynchronizer (inflight_blocks_map self) core cs (fetch_block_senders self) (peer_requests self)
    (fetch_blocks_scheduler_task self) (scheduler_deadline self).

Definition with_senders (senders : gmap AuthorityIndex (list BlocksGuard)) self : Synchronizer D :=
  mkSynchronizer (inflight_blocks_map self) (sy_core_dispatcher self) (commands self) senders (peer_requests self)
    (fetch_blocks_scheduler_task self) (scheduler_deadline self).

Definition with_requests (requests : gmap AuthorityIndex (list FetchRequest)) self : Synchronizer D :=
  mkSynchronizer (inflight_blocks_map self) (sy_core_dispatcher self) (commands self) (fetch_block_senders self) requests
    (fetch_blocks_scheduler_task self) (scheduler_deadline self).

Definition with_scheduler (task : option SchedulerTask) self : Synchronizer D :=
  mkSynchronizer (inflight_blocks_map self) (sy_core_dispatcher self) (commands self) (fetch_block_senders self)
    (peer_requests self) task (scheduler_deadline self).

Definition with_deadline (deadline : N) self : Synchronizer D :=
  mkSynchronizer (inflight_blocks_map self) (sy_core_dispatcher self) (commands self) (fetch_block_senders self)
    (peer_requests self) (fetch_blocks_scheduler_task self) deadline.

(** ** Operations *)

(** A guard goes out of scope. *)
Definition release (guard : BlocksGuard) self : outcome (Synchronizer D) :=
  m ← drop_guard (inflight_blocks_map self) guard; Ok (with_locks m self).

(** [commands_sender.try_send]. *)
Definition try_send_command (command : Command) self : Synchronizer D :=
  if N.of_nat (length (commands self)) <? COMMANDS_CHANNEL_SIZE
  then with_core_commands (sy_core_dispatcher self) (commands self ++ [command]) self
  else self.

(** [process_fetched_blocks]; the guard is dropped on every path. *)
Definition process_fetched_blocks (clock : nat → BlockTimestampMs) (serialized_blocks : list bytes)
    (peer_index : AuthorityIndex) (requested_blocks_guard : BlocksGuard) self : outcome (ConsensusResult () * Synchronizer D) :=
  checked ← fetched_blocks_of block_verifier clock serialized_blocks peer_index (bg_block_refs requested_blocks_guard);
  match checked with
  | RustErr e => self ← release requested_blocks_guard self; Ok (RustErr e, self)
  | RustOk blocks =>
      '(res, core) ← dispatch_add_blocks (sy_core_dispatcher self) blocks;
      let self := with_core_commands core (commands self) self in
      self ← release requested_blocks_guard self;
      match res with
      | RustErr _ => Ok (RustErr Shutdown, self)
      | RustOk missing_blocks =>
          Ok (RustOk (), if bool_decide (missing_blocks = ∅) then self else try_send_command KickOffScheduler self)
      end
  end.

Definition get_highest_accepted_rounds (dag_state : DagState St) : outcome (list Round) :=
  blocks ← get_last_cached_block_per_authority dag_state U32_MAX;
  _ ← assert_ (N.of_nat (length blocks) =? committee_size (committee context)) "assertion failed: left == right";
  Ok (vb_round <$> blocks).

(** The command [FetchBlocks] in [run]; the answer is for the caller of
    [SynchronizerHandle::fetch_blocks], who gets none when blocks are to be fetched from the
    own node. *)
Definition run_fetch_blocks (missing_block_refs : gset BlockRef) (peer_index : AuthorityIndex) self :
    outcome (option (ConsensusResult ()) * Synchronizer D) :=
  if peer_index =? own_index context then Ok (None, self)
  else
    let missing_block_refs : gset BlockRef :=
      list_to_set (take (N.to_nat (max_blocks_per_fetch params)) (bt_elements missing_block_refs)) in
    '(blocks_guard, m) ← lock_blocks (inflight_blocks_map self) missing_block_refs peer_index;
    let self := with_locks m self in
    match blocks_guard with
    | None => Ok (Some (RustOk ()), self)
    | Some blocks_guard =>
        sender ← expect (fetch_block_senders self !! peer_index) "Fatal error, sender should be present";
        if N.of_nat (length sender) <? FETCH_BLOCKS_CONCURRENCY then
          Ok (Some (RustOk ()), with_senders (<[peer_index := sender ++ [blocks_guard]]> (fetch_block_senders self)) self)
        else
          self ← release blocks_guard self;
          Ok (Some (RustErr (SynchronizerSaturated peer_index)), self)
    end.

(** The command [KickOffScheduler]. *)
Definition run_kick_off (now : N) self : Synchronizer D :=
  let timeout :=
    match fetch_blocks_scheduler_task self with None => now | Some _ => now + SYNCHRONIZER_TIMEOUT / 2 end in
  if timeout <? scheduler_deadline self then with_deadline timeout self else self.

(** [start_fetch_missing_blocks_task], up to the spawned task. *)
Definition start_fetch_missing_blocks_task self : outcome (ConsensusResult () * Synchronizer D) :=
  '(res, core) ← dispatch_get_missing_blocks (sy_core_dispatcher self);
  let self := with_core_commands core (commands self) self in
  match res with
  | RustErr _ => Ok (RustErr Shutdown, self)
  | RustOk missing_blocks =>
      Ok (RustOk (), if bool_decide (missing_blocks = ∅) then self else with_scheduler (Some (Spawned missing_blocks)) self)
  end.

(** The first loop of [fetch_blocks_from_authorities], over the chunks. *)
Definition request_chunk (highest_rounds : list Round) (st : list AuthorityIndex * list FetchRequest * InflightBlocksMap)
    (blocks : list BlockRef) : outcome (list AuthorityIndex * list FetchRequest * InflightBlocksMap) :=
  let '(peers, requests, m) := st in
  match peers with
  | [] => Panic "Possible misconfiguration as a peer should be found"
  | peer :: peers =>
      '(blocks_guard, m) ← lock_blocks m (list_to_set blocks) peer;
      Ok (peers, match blocks_guard with
                 | Some blocks_guard => requests ++ [mkFetchRequest peer blocks_guard highest_rounds 1]
                 | None => requests
                 end, m)
  end.

(** [fetch_blocks_from_authorities], up to its last loop; [shuffle] is what the random generator
    does. *)
Definition request_missing_blocks (dag_state : DagState St) (shuffle : list AuthorityIndex → list AuthorityIndex)
    (missing_blocks : gset BlockRef) self : outcome (Synchronizer D) :=
  let missing_blocks := take (N.to_nat (MAX_PEERS * max_blocks_per_fetch params)) (bt_elements missing_blocks) in
  let peers := shuffle (peer_indices context) in
  highest_rounds ← get_highest_accepted_rounds dag_state;
  blocks ← chunks missing_blocks (max_blocks_per_fetch params);
  '(peers, requests, m) ← foldM (request_chunk highest_rounds) (peers, [], inflight_blocks_map self) blocks;
  Ok (with_scheduler (Some (FetchingFromPeers peers requests [])) (with_locks m self)).

(** Its last loop: the [i]-th request has ended. *)
Definition scheduler_answered (i : nat) (response : FetchResponse) (peers : list AuthorityIndex)
    (requests : list FetchRequest) (results : list (BlocksGuard * list bytes * AuthorityIndex)) self :
    outcome (Synchronizer D) :=
  match requests !! i with
  | None => Ok self
  | Some request =>
      let requests := delete i requests in
      match (fetch_blocks_request request response).1 with
      | RustOk fetched_blocks =>
          let results := results ++ [(fr_guard request, fetched_blocks, fr_peer request)] in
          Ok (with_scheduler (Some (if bool_decide (requests = []) then ProcessingResults results
                                    else FetchingFromPeers peers requests results)) self)
      | RustErr _ =>
          match peers with
          | [] =>
              self ← release (fr_guard request) self;
              Ok (with_scheduler (Some (FetchingFromPeers [] requests results)) self)
          | next_peer :: peers =>
              '(blocks_guard, m) ← swap_locks (inflight_blocks_map self) (fr_guard request) next_peer;
              let requests :=
                match blocks_guard with
                | Some blocks_guard => requests ++ [mkFetchRequest next_peer blocks_guard (fr_highest_rounds request) 1]
                | None => requests
                end in
              Ok (with_scheduler (Some (FetchingFromPeers peers requests results)) (with_locks m self))
          end
      end
  end.

(** The timeout of the last loop: the requests that still run are dropped. *)
Definition scheduler_times_out (requests : list FetchRequest) (results : list (BlocksGuard * list bytes * AuthorityIndex)) self :
    outcome (Synchronizer D) :=
  self ← foldM (λ self request, release (fr_guard request) self) self requests;
  Ok (with_scheduler (Some (ProcessingResults results)) self).

(** The next result is processed; without one the task ends. *)
Definition scheduler_processes (clock : nat → BlockTimestampMs) (results : list (BlocksGuard * list bytes * AuthorityIndex)) self :
    outcome (Synchronizer D) :=
  match results with
  | [] => Ok (with_scheduler None self)
  | (blocks_guard, fetched_blocks, peer) :: results =>
      '(_, self) ← process_fetched_blocks clock fetched_blocks peer blocks_guard
        (with_scheduler (Some (ProcessingResults results)) self);
      Ok self
  end.

(** [fetch_blocks_from_authority]: the task of a peer takes a guard from its channel. *)
Definition peer_receives (peer_index : AuthorityIndex) (dag_state : DagState St) self : outcome (Synchronizer D) :=
  match fetch_block_senders self !! peer_index, peer_requests self !! peer_index with
  | Some (blocks_guard :: queue), Some requests =>
      if N.of_nat (length requests) <? FETCH_BLOCKS_CONCURRENCY then
        highest_rounds ← get_highest_accepted_rounds dag_state;
        Ok (with_requests (<[peer_index := requests ++ [mkFetchRequest peer_index blocks_guard highest_rounds 1]]> (peer_requests self))
             (with_senders (<[peer_index := queue]> (fetch_block_senders self)) self))
      else Ok self
  | _, _ => Ok self
  end.

(** Its [i]-th request has ended. *)
Definition peer_answered (peer_index : AuthorityIndex) (i : nat) (response : FetchResponse) (clock : nat → BlockTimestampMs) self :
    outcome (Synchronizer D) :=
  match peer_requests self !! peer_index ≫= (.!! i), peer_requests self !! peer_index with
  | Some request, Some requests =>
      let '(response, retries) := fetch_blocks_request request response in
      let requests := delete i requests in
      let self := with_requests (<[peer_index := requests]> (peer_requests self)) self in
      match response with
      | RustOk blocks =>
          '(_, self) ← process_fetched_blocks clock blocks peer_index (fr_guard request) self;
          Ok self
      | RustErr _ =>
          if retries <=? MAX_RETRIES then
            Ok (with_requests (<[peer_index :=
                  requests ++ [mkFetchRequest peer_index (fr_guard request) (fr_highest_rounds request) retries]]> (peer_requests self)) self)
          else release (fr_guard request) self
      end
  | _, _ => Ok self
  end.

(** ** Runs *)

(** What happens: a caller sends a command to fetch blocks; the loop of [run] takes a command, or
    its timer fires; a peer's task takes a guard, or one of its requests ends; the task of the
    scheduler starts its requests, one of them ends, its timer fires, or it processes a result. *)
Inductive SynchronizerEvent : Type :=
| CallerSends (missing_block_refs : gset BlockRef) (peer_index : AuthorityIndex)
| RunCommand (now : N)
| RunTimeout (now : N)
| PeerReceives (peer_index : AuthorityIndex) (dag_state : DagState St)
| PeerAnswered (peer_index : AuthorityIndex) (i : nat) (response : FetchResponse) (clock : nat → BlockTimestampMs)
| SchedulerStarts (dag_state : DagState St) (shuffle : list AuthorityIndex → list AuthorityIndex)
| SchedulerAnswered (i : nat) (response : FetchResponse)
| SchedulerTimesOut
| SchedulerProcesses (clock : nat → BlockTimestampMs).

(** There is no state any more when [run] has returned.  A caller waits while the channel is
    full, and a task that has ended is joined at once. *)
Definition synchronizer_step (event : SynchronizerEvent) self : outcome (option (Synchronizer D)) :=
  match event with
  | CallerSends missing_block_refs peer_index => Ok (Some (try_send_command (FetchBlocks missing_block_refs peer_index) self))
  | RunCommand now =>
      match commands self with
      | [] => Ok (Some self)
      | FetchBlocks missing_block_refs peer_index :: cs =>
          '(_, self) ← run_fetch_blocks missing_block_refs peer_index (with_core_commands (sy_core_dispatcher self) cs self);
          Ok (Some self)
      | KickOffScheduler :: cs => Ok (Some (run_kick_off now (with_core_commands (sy_core_dispatcher self) cs self)))
      end
  | RunTimeout now =>
      if now <? scheduler_deadline self then Ok (Some self)
      else
        match fetch_blocks_scheduler_task self with
        | None =>
            '(res, self) ← start_fetch_missing_blocks_task self;
            Ok (match res with RustOk _ => Some (with_deadline (now + SYNCHRONIZER_TIMEOUT) self) | RustErr _ => None end)
        | Some _ => Ok (Some (with_deadline (now + SYNCHRONIZER_TIMEOUT) self))
        end
  | PeerReceives peer_index dag_state => Some <$> peer_receives peer_index dag_state self
  | PeerAnswered peer_index i response clock => Some <$> peer_answered peer_index i response clock self
  | SchedulerStarts dag_state shuffle =>
      match fetch_blocks_scheduler_task self with
      | Some (Spawned missing_blocks) => Some <$> request_missing_blocks dag_state shuffle missing_blocks self
      | _ => Ok (Some self)
      end
  | SchedulerAnswered i response =>
      match fetch_blocks_scheduler_task self with
      | Some (FetchingFromPeers peers requests results) => Some <$> scheduler_answered i response peers requests results self
      | _ => Ok (Some self)
      end
  | SchedulerTimesOut =>
      match fetch_blocks_scheduler_task self with
      | Some (FetchingFromPeers _ requests results) => Some <$> scheduler_times_out requests results self
      | _ => Ok (Some self)
      end
  | SchedulerProcesses clock =>
      match fetch_blocks_scheduler_task self with
      | Some (ProcessingResults results) => Some <$> scheduler_processes clock results self
      | _ => Ok (Some self)
      end
  end.

Fixpoint synchronizer_run (events : list SynchronizerEvent) self : outcome (option (Synchronizer D)) :=
  match events with
  | [] => Ok (Some self)
  | event :: events =>
      self ← synchronizer_step event self;
      match self with Some self => synchronizer_run events self | None => Ok None end
  end.
End synchronizer.
