(* ===== verification/SynchronizerFacts.v ===== *)
(** Synchronization of blocks is correct: the locks are exactly those of the live guards, so at
    most two peers are asked for a block and unlocking never fails; requests keep their bounds;
    and only verified blocks that were asked for reach the core. *)

From stdpp Require Import base strings numbers sorting gmap sets list.
From S2P Require Import Prelude Committee Block Dag StakeAggregator Commit BlockVerifier Store DagState DagStateFacts CacheFacts CoreThread CommitVotes CommitSyncer CommitSyncerFacts AuthorityService AuthorityServiceFacts Synchronizer.

Open Scope N_scope.

(** ** Locks *)

Section locks.
Implicit Types (m : InflightBlocksMap) (g : BlocksGuard) (gs : list BlocksGuard) (r : BlockRef) (a peer : AuthorityIndex).

(** The locks that guards hold. *)
Definition holds gs : list (BlockRef * AuthorityIndex) :=
  gs ≫= λ g, (λ r, (r, bg_peer g)) <$> elements (bg_block_refs g).

#[export] Instance holds_proper : Proper ((≡ₚ) ==> (≡ₚ)) holds.
Proof. intros gs gs' Hgs. unfold holds. by rewrite Hgs. Qed.

(** The map has the locks of the guards, each held by one of them, and at most two per block. *)
Record locks_ok m gs : Prop := {
  lo_once : NoDup (holds gs);
  lo_held r a : (r, a) ∈ holds gs ↔ a ∈ (default ∅ (m !! r) : gset AuthorityIndex);
  lo_sets r A : m !! r = Some A → A ≠ ∅ ∧ N.of_nat (size A) ≤ MAX_AUTHORITIES_TO_FETCH_PER_BLOCK;
}.

#[export] Instance locks_ok_proper m : Proper ((≡ₚ) ==> iff) (locks_ok m).
Proof.
  intros gs gs' Hgs. pose proof (holds_proper _ _ Hgs) as Hh.
  split; intros [Ho Hl Hs]; split; try done; [by rewrite <-Hh| |by rewrite Hh|]; intros r a; [rewrite <-Hh|rewrite Hh]; apply Hl.
Qed.

Lemma locks_perm m gs gs' : locks_ok m gs → gs' ≡ₚ gs → locks_ok m gs'.
Proof. by intros Hm ->. Qed.

Lemma locks_ok_empty : locks_ok ∅ [].
Proof.
  split; [constructor| |].
  - intros r a. rewrite lookup_empty. simpl. set_solver.
  - intros r A. by rewrite lookup_empty.
Qed.

Lemma holds_cons g gs : holds (g :: gs) = ((λ r, (r, bg_peer g)) <$> elements (bg_block_refs g)) ++ holds gs.
Proof. done. Qed.

Lemma holds_nothing peer gs : holds (mkBlocksGuard ∅ peer :: gs) = holds gs.
Proof. by rewrite holds_cons. Qed.

Lemma holds_add r R peer gs :
  r ∉ R → holds (mkBlocksGuard ({[r]} ∪ R) peer :: gs) ≡ₚ (r, peer) :: holds (mkBlocksGuard R peer :: gs).
Proof. intros Hr. rewrite !holds_cons. simpl. by rewrite elements_union_singleton. Qed.

(** A lock is added to a guard, or removed from it. *)
Lemma locks_ok_add m gs r R peer (A := default ∅ (m !! r) : gset AuthorityIndex) :
  locks_ok m (mkBlocksGuard R peer :: gs) → r ∉ R → peer ∉ A → N.of_nat (size A) < MAX_AUTHORITIES_TO_FETCH_PER_BLOCK →
  locks_ok (<[r := {[peer]} ∪ A]> m) (mkBlocksGuard ({[r]} ∪ R) peer :: gs).
Proof.
  intros [Ho Hl Hs] Hr Hp Hsz. pose proof (holds_add r R peer gs Hr) as Hh. split.
  - rewrite Hh. constructor; [|done]. by rewrite Hl.
  - intros r' a. rewrite Hh, elem_of_cons, Hl. destruct (decide (r' = r)) as [->|Hne].
    + rewrite lookup_insert_eq. simpl. fold A. set_solver.
    + rewrite lookup_insert_ne by done. naive_solver.
  - intros r' B [[<- <-]|[_ HB]]%lookup_insert_Some; [|by eapply Hs]. split; [set_solver|].
    rewrite size_union by set_solver. rewrite size_singleton. lia.
Qed.

Lemma locks_ok_remove m gs r R peer :
  locks_ok m (mkBlocksGuard ({[r]} ∪ R) peer :: gs) → r ∉ R →
  ∃ m', unlock_block peer m r = Ok m' ∧ locks_ok m' (mkBlocksGuard R peer :: gs).
Proof.
  intros [Ho Hl Hs] Hr. pose proof (holds_add r R peer gs Hr) as Hh.
  assert (Hin : peer ∈ (default ∅ (m !! r) : gset AuthorityIndex)) by (rewrite <-Hl, Hh; left).
  destruct (m !! r) as [A|] eqn:HA; simpl in Hin; [|set_solver].
  assert (Hown : (r, peer) ∉ holds (mkBlocksGuard R peer :: gs)).
  { rewrite Hh in Ho. by apply NoDup_cons in Ho as [Ho _]. }
  assert (Hrest : ∀ r' a, (r', a) ∈ holds (mkBlocksGuard R peer :: gs) ↔
    (r', a) ≠ (r, peer) ∧ a ∈ (default ∅ (m !! r') : gset AuthorityIndex)).
  { intros r' a. rewrite <-Hl, Hh, elem_of_cons. split; [|naive_solver]. intros Hra. split; [|by right]. intros [= -> ->]. by apply Hown. }
  unfold unlock_block. rewrite HA. simpl. rewrite (bool_decide_true _ Hin). simpl. eexists. split; [done|].
  case_bool_decide as Hemp; (split; [rewrite Hh in Ho; by apply NoDup_cons in Ho as [_ Ho]| |]).
  - intros r' a. rewrite Hrest. destruct (decide (r' = r)) as [->|Hne].
    + rewrite lookup_delete_eq, HA. simpl. set_solver.
    + rewrite lookup_delete_ne by done. naive_solver.
  - intros r' B [_ HB]%lookup_delete_Some. by eapply Hs.
  - intros r' a. rewrite Hrest. destruct (decide (r' = r)) as [->|Hne].
    + rewrite lookup_insert_eq, HA. simpl. set_solver.
    + rewrite lookup_insert_ne by done. naive_solver.
  - intros r' B [[<- <-]|[_ HB]]%lookup_insert_Some; [|by eapply Hs]. split; [done|].
    destruct (Hs r A HA) as [_ Hsz]. assert (size (A ∖ {[peer]}) ≤ size A)%nat by (apply subseteq_size; set_solver). lia.
Qed.

(** [lock_blocks] takes the locks that are free, [drop] gives them back. *)
Lemma lock_block_ok m gs r R peer :
  locks_ok m (mkBlocksGuard R peer :: gs) → r ∉ R →
  ∃ R' m', lock_block peer (R, m) r = Ok (R', m') ∧ locks_ok m' (mkBlocksGuard R' peer :: gs) ∧ R ⊆ R' ⊆ {[r]} ∪ R.
Proof.
  intros Hok Hr. unfold lock_block. set (A := default ∅ (m !! r) : gset AuthorityIndex).
  destruct (N.ltb_spec (N.of_nat (size A)) MAX_AUTHORITIES_TO_FETCH_PER_BLOCK) as [Hlt|Hge]; simpl.
  - case_bool_decide as Hp; simpl.
    + eexists _, _. split; [done|]. split; [by apply locks_ok_add|]. set_solver.
    + eexists _, _. split; [done|]. split; [|set_solver]. assert (m !! r = Some A) as HA.
      { unfold A in *. destruct (m !! r); simpl in *; [done|set_solver]. }
      by rewrite insert_id.
  - eexists _, _. split; [done|]. split; [|set_solver]. assert (m !! r = Some A) as HA.
    { unfold A in *. destruct (m !! r); [done|]. exfalso. vm_compute in Hge. by apply Hge. }
    by rewrite insert_id.
Qed.

Lemma lock_list_ok m gs R peer (l : list BlockRef) :
  locks_ok m (mkBlocksGuard R peer :: gs) → NoDup l → (∀ r, r ∈ l → r ∉ R) →
  ∃ R' m', foldM (lock_block peer) (R, m) l = Ok (R', m') ∧ locks_ok m' (mkBlocksGuard R' peer :: gs) ∧
    R ⊆ R' ∧ R' ⊆ R ∪ list_to_set l.
Proof.
  intros Hok Hnd. revert m R Hok. induction Hnd as [|r l Hr Hnd IH]; intros m R Hok Hl.
  { exists R, m. split; [done|]. split; [done|]. set_solver. }
  destruct (lock_block_ok m gs r R peer Hok) as (R1 & m1 & Hlock & Hok1 & Hsub); [apply Hl; left|].
  destruct (IH m1 R1 Hok1) as (R2 & m2 & Hf & Hok2 & Hsub2 & Hsub2').
  { intros r' Hr'. assert (r' ∉ R) by (apply Hl; by right). assert (r' ≠ r) by (by intros ->). set_solver. }
  exists R2, m2. cbn [foldM]. rewrite Hlock. cbn [mbind outcome_bind]. split; [done|]. split; [done|].
  simpl. set_solver.
Qed.

Lemma lock_blocks_ok m gs refs peer :
  locks_ok m gs →
  ∃ og m', lock_blocks m refs peer = Ok (og, m') ∧ locks_ok m' (option_list og ++ gs) ∧
    ∀ g, og = Some g → bg_peer g = peer ∧ bg_block_refs g ⊆ refs ∧ bg_block_refs g ≠ ∅.
Proof.
  intros Hok. destruct (lock_list_ok m gs ∅ peer (bt_elements refs)) as (R & m' & Hf & Hok' & _ & Hsub).
  - destruct Hok as [Ho Hl Hs]. split; try done.
  - apply NoDup_bt_elements.
  - set_solver.
  - unfold lock_blocks. rewrite Hf. cbn [mbind outcome_bind]. eexists _, _. split; [done|].
    case_bool_decide as Hemp.
    + subst R. split; [|done]. destruct Hok' as [Ho Hl Hs]. by split.
    + split; [done|]. intros g [= <-]. simpl. split; [done|]. split; [|done].
      intros r Hr%Hsub. apply elem_of_union in Hr as [Hr|Hr]; [set_solver|].
      by apply elem_of_list_to_set, elem_of_bt_elements in Hr.
Qed.

Lemma unlock_list_ok m gs peer (l : list BlockRef) :
  NoDup l → locks_ok m (mkBlocksGuard (list_to_set l) peer :: gs) →
  ∃ m', foldM (unlock_block peer) m l = Ok m' ∧ locks_ok m' gs.
Proof.
  intros Hnd. revert m. induction Hnd as [|r l Hr Hnd IH]; intros m Hok.
  { exists m. split; [done|]. destruct Hok as [Ho Hl Hs]. by split. }
  destruct (locks_ok_remove m gs r (list_to_set l) peer Hok) as (m1 & Hun & Hok1); [by rewrite elem_of_list_to_set|].
  destruct (IH m1 Hok1) as (m' & Hf & Hok'). exists m'. cbn [foldM]. by rewrite Hun.
Qed.

Lemma drop_guard_ok m g gs : locks_ok m (g :: gs) → ∃ m', drop_guard m g = Ok m' ∧ locks_ok m' gs.
Proof.
  intros Hok. destruct g as [R peer]. apply unlock_list_ok; [apply NoDup_bt_elements|]. simpl.
  assert (list_to_set (bt_elements R) = R) as -> by (apply set_eq; intros r; by rewrite elem_of_list_to_set, elem_of_bt_elements).
  done.
Qed.

Lemma swap_locks_ok m g gs peer :
  locks_ok m (g :: gs) →
  ∃ og m', swap_locks m g peer = Ok (og, m') ∧ locks_ok m' (option_list og ++ gs) ∧
    ∀ g', og = Some g' → bg_peer g' = peer ∧ bg_block_refs g' ⊆ bg_block_refs g ∧ bg_block_refs g' ≠ ∅.
Proof.
  intros Hok. unfold swap_locks. destruct (drop_guard_ok m g gs Hok) as (m1 & -> & Hok1). cbn [mbind outcome_bind].
  by apply lock_blocks_ok.
Qed.

(** At most two authorities are asked for a block. *)
Lemma locks_at_most_two m gs r :
  locks_ok m gs → (length (filter (λ p, p.1 = r) (holds gs)) ≤ 2)%nat.
Proof.
  intros [Ho Hl Hs].
  assert (filter (λ p : BlockRef * AuthorityIndex, p.1 = r) (holds gs) ≡ₚ (λ a, (r, a)) <$> elements (default ∅ (m !! r) : gset AuthorityIndex)) as ->.
  { apply NoDup_Permutation; [by apply NoDup_filter| |].
    - apply NoDup_fmap_2; [|apply NoDup_elements]. by intros a b [=].
    - intros [r' a]. rewrite list_elem_of_filter, list_elem_of_fmap, Hl. simpl. setoid_rewrite elem_of_elements. naive_solver. }
  rewrite length_fmap. destruct (m !! r) as [A|] eqn:HA; simpl; [|by rewrite elements_empty; simpl; lia].
  destruct (Hs r A HA) as [_ Hsz]. unfold size, set_size in Hsz. simpl in Hsz. unfold MAX_AUTHORITIES_TO_FETCH_PER_BLOCK in Hsz. lia.
Qed.
End locks.

(** ** Fetched blocks *)

Section fetched_facts.
Context `{Crypto, TransactionVerifier, BcsParser}.
Context (v : SignedBlockVerifier) (Hc : committee_wf (committee (bv_context v))).
Implicit Types (clock : nat → BlockTimestampMs).

Lemma verify_blocks_Ok clock ss :
  ∃ res, verify_blocks v clock ss = Ok res ∧ ∀ bs, res = RustOk bs → Forall (admitted v) bs ∧ (length bs ≤ length ss)%nat.
Proof.
  revert clock. induction ss as [|s ss IH]; intros clock; simpl.
  { eexists. split; [done|]. intros bs [= <-]. by split; [constructor|]. }
  destruct (parse_signed_block s) as [sb|e] eqn:Hp; cbn [map_err]; [|by eexists].
  destruct (verify_returns v sb Hc) as [r Hr]. rewrite Hr. cbn [mbind outcome_bind]. destruct r as [[]|e]; [|by eexists].
  destruct (IH (λ i, clock (S i))) as (res & -> & Hres). cbn [mbind outcome_bind]. eexists. split; [done|].
  destruct res as [rest|e]; [|done]. destruct (Hres rest eq_refl) as [Hall Hlen]. intros bs [= <-].
  destruct (_ <? _); [split; [done|lia]|]. split; [|simpl; lia]. constructor; [by apply new_verified_admitted|done].
Qed.

(** Served blocks that are not in the future are all accepted. *)
Lemma verify_blocks_all clock bs :
  Forall (admitted v) bs → (∀ i b, bs !! i = Some b → vb_timestamp_ms b ≤ clock i) →
  verify_blocks v clock (serialized <$> bs) = Ok (RustOk bs).
Proof.
  intros Hbs. revert clock. induction Hbs as [|b bs [Hp Hver Hd] _ IH]; intros clock Ht; [done|].
  cbn [fmap list_fmap verify_blocks]. rewrite Hp. cbn [map_err]. rewrite Hver. cbn [mbind outcome_bind]. rewrite <-Hd.
  change (list_fmap VerifiedBlock bytes serialized bs) with (serialized <$> bs).
  rewrite (IH (λ i, clock (S i))); [|intros i x Hx; by apply (Ht (S i))]. cbn [mbind outcome_bind].
  pose proof (Ht 0%nat b eq_refl). destruct (N.ltb_spec (clock 0%nat) (vb_timestamp_ms b)); [lia|done].
Qed.

(** A block that was asked for, or an ancestor of one that came with it. *)
Definition expected_block (requested : gset BlockRef) (blocks : list VerifiedBlock) (b : VerifiedBlock) : Prop :=
  reference b ∈ requested ∨ ∃ b', b' ∈ blocks ∧ reference b' ∈ requested ∧ reference b ∈ vb_ancestors b'.

Lemma check_expected_Ok peer requested blocks :
  check_expected peer requested blocks = RustOk () ↔ ∀ b, b ∈ blocks → expected_block requested blocks b.
Proof.
  unfold check_expected. set (anc := list_to_set (filter (λ b, reference b ∈ requested) blocks ≫= vb_ancestors) : gset BlockRef).
  assert (Hanc : ∀ r, r ∈ anc ↔ ∃ b', b' ∈ blocks ∧ reference b' ∈ requested ∧ r ∈ vb_ancestors b').
  { intros r. unfold anc. rewrite elem_of_list_to_set, list_elem_of_bind. setoid_rewrite list_elem_of_filter. naive_solver. }
  destruct (list_find _ blocks) as [[i b]|] eqn:Hf.
  - apply list_find_Some in Hf as (Hi & [Hr Ha] & _). split; [done|]. intros Hall.
    destruct (Hall b) as [?|Hex]; [by eapply list_elem_of_lookup_2|done|]. by apply Hanc in Hex.
  - apply list_find_None in Hf. split; [intros _|done]. intros b Hb. rewrite Forall_forall in Hf. specialize (Hf b Hb).
    unfold expected_block. rewrite <-Hanc. destruct (decide (reference b ∈ requested)); [by left|right].
    destruct (decide (reference b ∈ anc)); [done|]. by exfalso; apply Hf.
Qed.

Lemma fetched_blocks_of_Ok clock ss peer requested :
  ∃ res, fetched_blocks_of v clock ss peer requested = Ok res ∧
    ∀ blocks, res = RustOk blocks →
      Forall (admitted v) blocks ∧ N.of_nat (length blocks) ≤ N.of_nat (size requested) + MAX_ADDITIONAL_BLOCKS ∧
      ∀ b, b ∈ blocks → expected_block requested blocks b.
Proof.
  unfold fetched_blocks_of. destruct (N.ltb_spec (N.of_nat (size requested) + MAX_ADDITIONAL_BLOCKS) (N.of_nat (length ss))) as [|Hle]; [by eexists|].
  destruct (verify_blocks_Ok clock ss) as (res & -> & Hres). cbn [mbind outcome_bind]. eexists. split; [done|].
  destruct res as [bs|e]; [|done]. cbn [try_]. destruct (Hres bs eq_refl) as [Hall Hlen].
  destruct (check_expected peer requested bs) as [[]|e] eqn:Hck; [|done]. cbn [try_]. intros blocks [= <-].
  split; [done|]. split; [lia|]. by apply (check_expected_Ok peer).
Qed.
End fetched_facts.

(** C23: A request for blocks, from the server to the client.  The service answers a well-formed
    request with all requested blocks that it has, followed by the first ten ancestors of them
    that are above the rounds the client has; and if the client's clock is not behind the
    timestamps of the server's blocks, the client accepts the answer and has exactly the blocks
    that were served, in order, to send to its core. *)
Theorem fetch_blocks_roundtrip {St} `{StoreSpec St} `{Crypto, TransactionVerifier, BcsParser}
    context params v (d : DagState St) client server refs highest clock :
  dag_wf d → committee (DagState.context d) = committee context → committee_wf (committee (bv_context v)) →
  NoDup refs → good_request context params refs highest →
  (∀ r b, dag_view d !! r = Some b → Forall (λ a, br_author a < committee_size (committee context)) (vb_ancestors b)) →
  (∀ r b, dag_view d !! r = Some b → br_round r ≠ GENESIS_ROUND → admitted v b) →
  (∀ r b i, dag_view d !! r = Some b → vb_timestamp_ms b ≤ clock i) →
  let blocks := blocks_at d (served_refs d refs highest) in
  handle_fetch_blocks context params d client refs highest = Ok (RustOk (serialized <$> blocks)) ∧
  fetched_blocks_of v clock (serialized <$> blocks) server (list_to_set refs) = Ok (RustOk blocks).
Proof.
  intros Hwf Hctx Hc Hnd Hgood Hanc Hadm Hclock blocks. split; [by apply handle_fetch_blocks_Ok|].
  assert (Hex : ∀ r, r ∈ served_refs d refs highest → r ∈ refs ∨
    (∃ b, b ∈ blocks_at d refs ∧ r ∈ vb_ancestors b) ∧ br_round r ≠ GENESIS_ROUND).
  { intros r [Hr|Hr]%elem_of_app; [by left|right]. apply subseteq_take in Hr.
    apply list_elem_of_filter in Hr as [Hl (b & Hrb & Hb)%list_elem_of_bind]. split; [eauto|].
    unfold lacks in Hl. destruct (highest !! _); [|done]. apply N.ltb_lt in Hl. unfold GENESIS_ROUND. lia. }
  assert (Hpos : ∀ r, r ∈ served_refs d refs highest → br_round r ≠ GENESIS_ROUND).
  { intros r [Hr|[_ ?]]%Hex; [|done].
    pose proof (gr_refs _ _ _ _ Hgood) as Hr'. rewrite Forall_forall in Hr'. by apply Hr' in Hr as [_ ?]. }
  unfold fetched_blocks_of.
  assert (size (list_to_set refs : gset BlockRef) = length refs) as -> by by apply size_list_to_set.
  assert (length blocks ≤ length (served_refs d refs highest))%nat as Hle by apply length_omap_le.
  unfold served_refs in Hle. rewrite length_app, length_take in Hle. rewrite length_fmap.
  destruct (N.ltb_spec (N.of_nat (length refs) + MAX_ADDITIONAL_BLOCKS) (N.of_nat (length blocks))) as [|_]; [lia|].
  rewrite verify_blocks_all.
  - cbn [mbind outcome_bind try_]. replace (check_expected _ _ _) with (RustOk () : ConsensusResult ()); [done|].
    symmetry. apply check_expected_Ok. intros b Hb. apply elem_of_blocks_at in Hb as [Hr Hb]; [|done].
    destruct (Hex _ Hr) as [Hr'|[(b' & Hb' & Hin) _]]; [left; by apply elem_of_list_to_set|right].
    exists b'. apply elem_of_blocks_at in Hb' as [Hr' Hb']; [|done].
    split; [apply elem_of_blocks_at; [done|]; split; [apply elem_of_app; by left|done]|]. split; [by apply elem_of_list_to_set|done].
  - apply Forall_forall. intros b [Hr Hb]%elem_of_blocks_at; [|done]. eapply Hadm; [done|]. by apply Hpos.
  - intros i b Hi. apply list_elem_of_lookup_2, elem_of_blocks_at in Hi as [_ Hb]; [|done]. by eapply Hclock.
Qed.

(** ** Runs *)

(** All elements of the lists in a map. *)
Definition queued {A} (m : gmap AuthorityIndex (list A)) : list A := concat (map_to_list m).*2.

Lemma queued_split {A} (m : gmap AuthorityIndex (list A)) k l :
  m !! k = Some l → queued m ≡ₚ l ++ queued (delete k m).
Proof.
  intros Hk. unfold queued. rewrite <-(insert_delete_id m k l Hk) at 1.
  rewrite map_to_list_insert by apply lookup_delete_eq. done.
Qed.

Lemma queued_insert {A} (m : gmap AuthorityIndex (list A)) k l :
  queued (<[k := l]> m) ≡ₚ l ++ queued (delete k m).
Proof.
  rewrite (queued_split (<[k := l]> m) k l) by apply lookup_insert_eq. by rewrite delete_insert_eq.
Qed.

Lemma queued_empty {A} (l : list AuthorityIndex) : queued (list_to_map ((λ k, (k, [] : list A)) <$> l)) = [].
Proof.
  unfold queued. assert (Hall : ∀ x, x ∈ (map_to_list (list_to_map ((λ k, (k, [])) <$> l) : gmap AuthorityIndex (list A))).*2 → x = []).
  { intros x ([k y] & -> & Hk)%list_elem_of_fmap. simpl. apply elem_of_map_to_list, elem_of_list_to_map_2, list_elem_of_fmap in Hk.
    destruct Hk as (? & [= _ ->] & _). done. }
  induction (map_to_list _).*2 as [|x k IH]; [done|]. simpl. rewrite (Hall x) by left. apply IH. intros y Hy. apply Hall. by right.
Qed.

Section runs.
Context {D : Type} `{CoreThreadDispatcherSpec D} {St : Type} `{Store St} `{Crypto, TransactionVerifier, BcsParser}.
Context (context : Context) (params : Parameters) (v : SignedBlockVerifier).
Implicit Types (self : Synchronizer D) (g : BlocksGuard).

(** What holds of the references that callers and the core name, as long as the core is in a state
    that it keeps. *)
Context (P : BlockRef → Prop) (core_inv : D → Prop).

Definition task_guards (task : option SchedulerTask) : list BlocksGuard :=
  match task with
  | Some (FetchingFromPeers _ requests results) => (fr_guard <$> requests) ++ results.*1.*1
  | Some (ProcessingResults results) => results.*1.*1
  | _ => []
  end.

(** The guards that have not been dropped. *)
Definition live_guards self : list BlocksGuard :=
  queued (fetch_block_senders self) ++ (fr_guard <$> queued (peer_requests self)) ++ task_guards (fetch_blocks_scheduler_task self).

(** A guard asks for no more blocks than a request may, and only for blocks that somebody named;
    a request has rounds of the whole committee. *)
Definition guard_ok g : Prop :=
  N.of_nat (size (bg_block_refs g)) ≤ max_blocks_per_fetch params ∧ set_Forall P (bg_block_refs g).

Definition request_ok (request : FetchRequest) : Prop :=
  guard_ok (fr_guard request) ∧ bg_peer (fr_guard request) = fr_peer request ∧
  N.of_nat (length (fr_highest_rounds request)) = committee_size (committee context).

Definition task_ok (task : option SchedulerTask) : Prop :=
  match task with
  | Some (FetchingFromPeers _ requests results) =>
      Forall request_ok requests ∧ N.of_nat (length requests) ≤ MAX_PEERS
  | Some (Spawned missing) => set_Forall P missing
  | _ => True
  end.

(** What may reach the core. *)
Definition request_safe (r : Request) : Prop :=
  match r with RequestAddBlocks blocks => Forall (admitted v) blocks | RequestNewBlock _ _ => False | RequestGetMissing => True end.

Definition command_ok (command : Command) : Prop :=
  match command with
  | FetchBlocks refs peer => peer < committee_size (committee context) ∧ set_Forall P refs
  | KickOffScheduler => True
  end.

Record synchronizer_ok (d0 : D) self : Prop := {
  sk_locks : locks_ok (inflight_blocks_map self) (live_guards self);
  sk_senders p : p ∈ peer_indices context → is_Some (fetch_block_senders self !! p) ∧ is_Some (peer_requests self !! p);
  sk_queue p q : fetch_block_senders self !! p = Some q →
    Forall (λ g, guard_ok g ∧ bg_peer g = p) q ∧ N.of_nat (length q) ≤ FETCH_BLOCKS_CONCURRENCY;
  sk_requests p rs : peer_requests self !! p = Some rs →
    Forall request_ok rs ∧ Forall (λ r, fr_peer r = p) rs ∧ N.of_nat (length rs) ≤ FETCH_BLOCKS_CONCURRENCY;
  sk_task : task_ok (fetch_blocks_scheduler_task self);
  sk_commands : Forall command_ok (commands self);
  sk_core : ∃ rs, arrived (sy_core_dispatcher self) = arrived d0 ++ rs ∧ Forall request_safe rs ∧ core_inv (sy_core_dispatcher self);
}.

Context (Hc : committee_wf (committee context)) (Hv : committee (bv_context v) = committee context).
Context (Hmax : 0 < max_blocks_per_fetch params) (Hsize : 4 ≤ committee_size (committee context)).
Context (Hown : own_index context < committee_size (committee context)).
Context (Hadd : ∀ (d : D) blocks, ∃ r, dispatch_add_blocks d blocks = Ok r).
Context (Hmiss : ∀ d : D, ∃ r, dispatch_get_missing_blocks d = Ok r).
Context (Hadd_inv : ∀ (d : D) blocks res d', core_inv d → dispatch_add_blocks d blocks = Ok (res, d') → core_inv d').
Context (Hmiss_inv : ∀ (d : D) res d', core_inv d → dispatch_get_missing_blocks d = Ok (res, d') →
  core_inv d' ∧ ∀ missing, res = RustOk missing → set_Forall P missing).

Lemma start_ok d now : core_inv d → synchronizer_ok d (synchronizer_start context d now).
Proof.
  intros Hinv. unfold synchronizer_start. split; simpl.
  - unfold live_guards. simpl. rewrite !queued_empty. apply locks_ok_empty.
  - intros p Hp. split; eexists; apply elem_of_list_to_map_1';
      try (intros y Hy; apply list_elem_of_fmap in Hy as (? & [= _ ->] & _); done); apply list_elem_of_fmap; eauto.
  - intros p q Hq%elem_of_list_to_map_2. apply list_elem_of_fmap in Hq as (? & [= _ ->] & _). by split; [constructor|].
  - intros p q Hq%elem_of_list_to_map_2. apply list_elem_of_fmap in Hq as (? & [= _ ->] & _). by split; [constructor|split; [constructor|]].
  - done.
  - constructor.
  - exists []. rewrite app_nil_r. by split; [|split; [constructor|]].
Qed.

(** *** Operations *)

(** A state without the guard [g], which is live. *)
Record without (d0 : D) g self : Prop := {
  wo_locks : locks_ok (inflight_blocks_map self) (g :: live_guards self);
  wo_rest m : locks_ok m (live_guards self) → synchronizer_ok d0 (with_locks m self);
}.

Lemma release_ok d0 g self :
  without d0 g self → ∃ m, release g self = Ok (with_locks m self) ∧ synchronizer_ok d0 (with_locks m self).
Proof.
  intros [Hl Hr]. unfold release. destruct (drop_guard_ok _ _ _ Hl) as (m & -> & Hm). cbn [mbind outcome_bind].
  exists m. split; [done|]. by apply Hr.
Qed.

(** Blocks that were fetched are sent to the core, and their guard is dropped. *)
Lemma process_fetched_blocks_ok d0 g clock ss peer self :
  without d0 g self →
  ∃ res self', process_fetched_blocks v clock ss peer g self = Ok (res, self') ∧ synchronizer_ok d0 self' ∧
    fetch_blocks_scheduler_task self' = fetch_blocks_scheduler_task self.
Proof.
  intros Hw. unfold process_fetched_blocks.
  destruct (fetched_blocks_of_Ok v ltac:(by rewrite Hv) clock ss peer (bg_block_refs g)) as (checked & -> & Hchk). cbn [mbind outcome_bind].
  destruct checked as [blocks|e].
  2:{ destruct (release_ok d0 g self Hw) as (m & -> & Hok). cbn [mbind outcome_bind]. by eexists _, _. }
  destruct (Hchk blocks eq_refl) as [Hadm _]. destruct (Hadd (sy_core_dispatcher self) blocks) as [[res core] Hres]. rewrite Hres.
  cbn [mbind outcome_bind].
  set (self1 := with_core_commands core (commands self) self).
  assert (Hw1 : without d0 g self1).
  { destruct Hw as [Hl Hr]. split; [done|]. intros m Hm. destruct (Hr m Hm) as [Hk1 Hk2 Hk3 Hk4 Hk5 Hk6 (rs & Harr & Hsafe & Hinv)]. split; try done.
    simpl in *. apply (Hadd_inv _ _ _ _ Hinv) in Hres as Hinv'.
    apply arrived_add_blocks in Hres as [Harr'|[_ Harr']]; rewrite Harr', Harr; [|by exists rs].
    exists (rs ++ [RequestAddBlocks blocks]). rewrite (assoc (++)). split; [done|]. split; [|done].
    apply Forall_app. by split; [|constructor]. }
  destruct (release_ok d0 g self1 Hw1) as (m & -> & Hok). cbn [mbind outcome_bind].
  destruct res as [missing|e]; [|by eexists _, _]. eexists _, _. split; [done|]. case_bool_decide; [done|].
  unfold try_send_command. destruct (_ <? _); [|done]. split; [|done]. destruct Hok as [Hk1 Hk2 Hk3 Hk4 Hk5 Hk6 Hk7].
  split; try done. simpl. apply Forall_app. by split; [|constructor].
Qed.

Lemma size_list_to_set_le (l : list BlockRef) : (size (list_to_set l : gset BlockRef) ≤ length l)%nat.
Proof.
  induction l as [|r l IH]; simpl; [done|].
  pose proof (size_union_alt {[r]} (list_to_set l : gset BlockRef)) as Hu. rewrite size_singleton in Hu.
  assert (size ((list_to_set l : gset BlockRef) ∖ {[r]}) ≤ size (list_to_set l : gset BlockRef))%nat by (apply subseteq_size; set_solver). lia.
Qed.

(** The size of a guard whose blocks are among a list. *)
Lemma guard_list_ok g (l : list BlockRef) :
  bg_block_refs g ⊆ list_to_set l → N.of_nat (length l) ≤ max_blocks_per_fetch params → Forall P l → guard_ok g.
Proof.
  intros Hsub Hl HP. split.
  - apply subseteq_size in Hsub. pose proof (size_list_to_set_le l). lia.
  - intros r Hr%Hsub%elem_of_list_to_set. rewrite Forall_forall in HP. auto.
Qed.

(** References taken from a set, in order. *)
Lemma take_elements_P n (X : gset BlockRef) : set_Forall P X → Forall P (take n (bt_elements X)).
Proof.
  intros HX. apply Forall_take, Forall_forall. intros r Hr%elem_of_bt_elements. by apply HX.
Qed.

Lemma peer_valid p : p < committee_size (committee context) → p ≠ own_index context → p ∈ peer_indices context.
Proof. intros Hp Hne. unfold peer_indices. rewrite authorities_indices, list_elem_of_filter, elem_of_indices. done. Qed.

(** The command [FetchBlocks]. *)
Lemma run_fetch_blocks_ok d0 refs peer self :
  synchronizer_ok d0 self → peer < committee_size (committee context) → set_Forall P refs →
  ∃ r self', run_fetch_blocks context params refs peer self = Ok (r, self') ∧ synchronizer_ok d0 self'.
Proof.
  intros [Hk1 Hk2 Hk3 Hk4 Hk5 Hk6 Hk7] Hp HP. unfold run_fetch_blocks. destruct (N.eqb_spec peer (own_index context)) as [|Hne]; [by eexists _, _|].
  set (l := take _ _). destruct (lock_blocks_ok _ _ (list_to_set l) peer Hk1) as (og & m & -> & Hl & Hg). cbn [mbind outcome_bind].
  destruct og as [g|]; [|by eexists _, _]. destruct (Hg g eq_refl) as (Hpeer & Hsub & _).
  destruct (Hk2 peer) as [[q Hq] _]; [by apply peer_valid|]. cbn [fetch_block_senders with_locks]. rewrite Hq. cbn [expect mbind outcome_bind].
  destruct (Hk3 peer q Hq) as [Hall Hlen].
  assert (guard_ok g) as Hgok. { apply (guard_list_ok g l); [done| |by apply take_elements_P]. unfold l. rewrite length_take. lia. }
  destruct (N.ltb_spec (N.of_nat (length q)) FETCH_BLOCKS_CONCURRENCY) as [Hroom|_].
  - eexists _, _. split; [done|]. split; try done; simpl.
    + apply (locks_perm _ _ _ Hl). unfold live_guards. simpl. rewrite (queued_split _ _ _ Hq), queued_insert. solve_Permutation.
    + intros p Hp'. destruct (Hk2 p Hp') as [? ?]. split; [|done]. apply lookup_insert_is_Some'. by right.
    + intros p q' [[<- <-]|[_ Hq']]%lookup_insert_Some; [|by apply Hk3]. rewrite length_app. simpl. split; [|lia].
      apply Forall_app. by split; [|constructor].
  - destruct (release_ok d0 g (with_locks m self)) as (m' & -> & Hok); [|cbn [mbind outcome_bind]; by eexists _, _].
    split; [done|]. intros m' Hm'. by split.
Qed.

Lemma highest_rounds_ok (dag : DagState St) l : get_highest_accepted_rounds context dag = Ok l → N.of_nat (length l) = committee_size (committee context).
Proof.
  unfold get_highest_accepted_rounds. intros (blocks & _ & Hl)%bind_Ok. apply bind_Ok in Hl as (u & Hl & Heq). apply assert_Ok, N.eqb_eq in Hl.
  injection Heq as <-. by rewrite length_fmap.
Qed.

(** The task of a peer. *)
Lemma peer_receives_ok d0 peer (dag : DagState St) rounds self :
  synchronizer_ok d0 self → get_highest_accepted_rounds context dag = Ok rounds →
  ∃ self', peer_receives context peer dag self = Ok self' ∧ synchronizer_ok d0 self'.
Proof.
  intros Hok Hr. unfold peer_receives. destruct (fetch_block_senders self !! peer) as [[|g queue]|] eqn:Hq; [by eexists| |by eexists].
  destruct (peer_requests self !! peer) as [requests|] eqn:Hrq; [|by eexists].
  destruct (N.ltb_spec (N.of_nat (length requests)) FETCH_BLOCKS_CONCURRENCY) as [Hroom|_]; [|by eexists].
  rewrite Hr. cbn [mbind outcome_bind]. apply highest_rounds_ok in Hr. eexists. split; [done|].
  destruct Hok as [Hk1 Hk2 Hk3 Hk4 Hk5 Hk6 Hk7]. destruct (Hk3 _ _ Hq) as [[Hg Hall]%Forall_cons Hlen], (Hk4 _ _ Hrq) as (Hrs & Hrp & Hrl).
  split; try done; simpl.
  - apply (locks_perm _ _ _ Hk1). unfold live_guards. simpl.
    rewrite (queued_split _ _ _ Hq), (queued_split _ _ _ Hrq), !queued_insert, !fmap_app. simpl. solve_Permutation.
  - intros p Hp. destruct (Hk2 p Hp) as [? ?]. split; apply lookup_insert_is_Some'; by right.
  - intros p q [[<- <-]|[_ Hq']]%lookup_insert_Some; [|by apply Hk3]. simpl in Hlen. split; [done|lia].
  - intros p q [[<- <-]|[_ Hq']]%lookup_insert_Some; [|by apply Hk4]. rewrite !Forall_app, length_app. simpl.
    split; [split; [done|]; constructor; [|done]; split; [apply Hg|]; split; [apply Hg|done]|]. split; [split; [done|by constructor]|lia].
Qed.

Lemma peer_answered_ok d0 peer i response clock self :
  synchronizer_ok d0 self →
  ∃ self', peer_answered v peer i response clock self = Ok self' ∧ synchronizer_ok d0 self'.
Proof.
  intros Hok. unfold peer_answered. destruct (peer_requests self !! peer) as [requests|] eqn:Hrq; [|by eexists].
  simpl. destruct (requests !! i) as [request|] eqn:Hi; [|by eexists].
  destruct Hok as [Hk1 Hk2 Hk3 Hk4 Hk5 Hk6 Hk7]. destruct (Hk4 _ _ Hrq) as (Hrs & Hrp & Hrl).
  pose proof (delete_Permutation _ _ _ Hi) as Hperm.
  set (self1 := with_requests _ _).
  assert (Hreq : request_ok request ∧ fr_peer request = peer).
  { split; [by eapply (Forall_lookup_1 request_ok)|by eapply (Forall_lookup_1 (λ r, fr_peer r = peer))]. }
  assert (Hdel : Forall request_ok (delete i requests) ∧ Forall (λ r, fr_peer r = peer) (delete i requests) ∧
    length requests = S (length (delete i requests))).
  { rewrite Hperm in Hrs, Hrp. apply Forall_cons in Hrs as [_ ?], Hrp as [_ ?]. split; [done|]. split; [done|].
    exact (Permutation_length Hperm). }
  destruct Hdel as (Hd1 & Hd2 & Hd3).
  assert (Hw : without d0 (fr_guard request) self1).
  { split.
    - apply (locks_perm _ _ _ Hk1). unfold live_guards. simpl. rewrite (queued_split _ _ _ Hrq), queued_insert, !fmap_app.
      rewrite (fmap_Permutation fr_guard _ _ Hperm), fmap_cons. solve_Permutation.
    - intros m Hm. split; try done; simpl.
      + intros p Hp. destruct (Hk2 p Hp) as [? ?]. split; [done|]. apply lookup_insert_is_Some'; by right.
      + intros p q [[<- <-]|[_ Hq']]%lookup_insert_Some; [|by apply Hk4]. split; [done|]. split; [done|lia]. }
  destruct (fetch_blocks_request request response) as [[blocks|e] retries].
  - destruct (process_fetched_blocks_ok d0 (fr_guard request) clock blocks peer self1 Hw) as (res & self' & -> & Hok' & _).
    cbn [mbind outcome_bind]. by eexists.
  - destruct (retries <=? MAX_RETRIES).
    + eexists. split; [done|]. destruct Hreq as ((Hr1 & Hr2 & Hr3) & Hr4). split; try done; simpl.
      * apply (locks_perm _ _ _ Hk1). unfold live_guards. simpl.
        rewrite (queued_split _ _ _ Hrq), queued_insert, delete_insert_eq, !fmap_app.
        rewrite (fmap_Permutation fr_guard _ _ Hperm), fmap_cons. simpl. solve_Permutation.
      * intros p Hp. destruct (Hk2 p Hp) as [? ?]. split; [done|]. rewrite !lookup_insert_is_Some'. by right; right.
      * intros p q [[<- <-]|[Hne Hq']]%lookup_insert_Some.
        -- rewrite !Forall_app, length_app. simpl. split; [split; [done|]|split; [split; [done|by constructor]|lia]].
           constructor; [|done]. split; [done|]. split; [|done]. simpl. congruence.
        -- apply lookup_insert_Some in Hq' as [[? _]|[_ Hq']]; [done|by apply Hk4].
    + destruct (release_ok d0 _ _ Hw) as (m & -> & Hok'). by eexists.
Qed.

(** The scheduler. *)
Lemma with_task_ok d0 self task m gs :
  synchronizer_ok d0 self → task_ok task →
  live_guards self ≡ₚ task_guards (fetch_blocks_scheduler_task self) ++ gs → locks_ok m (task_guards task ++ gs) →
  synchronizer_ok d0 (with_scheduler task (with_locks m self)).
Proof.
  intros [Hk1 Hk2 Hk3 Hk4 Hk5 Hk6 Hk7] Ht Hgs Hm. split; try done. simpl. apply (locks_perm _ _ _ Hm).
  unfold live_guards in *. simpl. rewrite (assoc (++)) in Hgs |- *. rewrite (comm (++)) in Hgs.
  apply Permutation_app_inv_l in Hgs. rewrite Hgs. apply Permutation_app_comm.
Qed.

(** The guards that the scheduler does not have. *)
Definition other_guards self : list BlocksGuard := queued (fetch_block_senders self) ++ (fr_guard <$> queued (peer_requests self)).

Lemma live_guards_split self : live_guards self ≡ₚ task_guards (fetch_blocks_scheduler_task self) ++ other_guards self.
Proof. unfold live_guards, other_guards. solve_Permutation. Qed.

Lemma request_chunk_ok rounds peers requests m blocks gs :
  peers ≠ [] → N.of_nat (length rounds) = committee_size (committee context) →
  N.of_nat (length blocks) ≤ max_blocks_per_fetch params → Forall P blocks → Forall request_ok requests →
  locks_ok m ((fr_guard <$> requests) ++ gs) →
  ∃ peers' requests' m', request_chunk rounds (peers, requests, m) blocks = Ok (peers', requests', m') ∧
    length peers = S (length peers') ∧ Forall request_ok requests' ∧ (length requests' ≤ S (length requests))%nat ∧
    locks_ok m' ((fr_guard <$> requests') ++ gs).
Proof.
  intros Hne Hr Hb HbP Hreq Hm. destruct peers as [|peer peers]; [done|]. simpl.
  destruct (lock_blocks_ok m _ (list_to_set blocks) peer Hm) as (og & m' & -> & Hl & Hg). cbn [mbind outcome_bind].
  eexists _, _, _. split; [done|]. split; [done|]. destruct og as [g|]; [|split; [done|]; split; [lia|done]].
  destruct (Hg g eq_refl) as (Hp & Hsub & _). split; [|split].
  - apply Forall_app. split; [done|]. constructor; [|done]. split; [by apply (guard_list_ok g blocks)|done].
  - rewrite length_app. simpl. lia.
  - apply (locks_perm _ _ _ Hl). rewrite fmap_app. simpl. solve_Permutation.
Qed.

Lemma request_chunks_ok rounds blocks peers requests m gs :
  (length blocks ≤ length peers)%nat → N.of_nat (length rounds) = committee_size (committee context) →
  (∀ c, c ∈ blocks → N.of_nat (length c) ≤ max_blocks_per_fetch params ∧ Forall P c) → Forall request_ok requests →
  locks_ok m ((fr_guard <$> requests) ++ gs) →
  ∃ peers' requests' m', foldM (request_chunk rounds) (peers, requests, m) blocks = Ok (peers', requests', m') ∧
    Forall request_ok requests' ∧ (length requests' ≤ length blocks + length requests)%nat ∧
    locks_ok m' ((fr_guard <$> requests') ++ gs).
Proof.
  intros Hlen Hr. revert peers requests m Hlen. induction blocks as [|c blocks IH]; intros peers requests m Hlen Hb Hreq Hm.
  { exists peers, requests, m. split; [done|]. split; [done|]. split; [done|done]. }
  destruct (request_chunk_ok rounds peers requests m c gs) as (p1 & r1 & m1 & Hc1 & Hl1 & Hreq1 & Hle1 & Hm1);
    [by destruct peers; [simpl in Hlen; lia|]|done|apply Hb; left|apply Hb; left|done..|].
  destruct (IH p1 r1 m1) as (p2 & r2 & m2 & Hf & Hreq2 & Hle2 & Hm2); [simpl in Hlen; lia|intros c' Hc'; apply Hb; by right|done..|].
  exists p2, r2, m2. cbn [foldM]. rewrite Hc1. cbn [mbind outcome_bind]. split; [done|]. split; [done|]. split; [simpl; lia|done].
Qed.

Lemma request_missing_blocks_ok d0 (dag : DagState St) rounds shuffle missing self :
  synchronizer_ok d0 self → fetch_blocks_scheduler_task self = Some (Spawned missing) →
  get_highest_accepted_rounds context dag = Ok rounds → (∀ l, shuffle l ≡ₚ l) →
  ∃ self', request_missing_blocks context params dag shuffle missing self = Ok self' ∧ synchronizer_ok d0 self'.
Proof.
  intros Hok Htask Hr Hsh. unfold request_missing_blocks. rewrite Hr. cbn [mbind outcome_bind]. apply highest_rounds_ok in Hr.
  set (l := take _ _). assert (∃ blocks, chunks l (max_blocks_per_fetch params) = Ok blocks) as [blocks Hch].
  { unfold chunks. destruct (N.eqb_spec (max_blocks_per_fetch params) 0); [lia|]. simpl. eauto. }
  rewrite Hch. cbn [mbind outcome_bind]. apply chunks_Ok in Hch as (_ & Hcat & Hcs & Hn).
  assert (N.of_nat (length blocks) ≤ MAX_PEERS) as Hle. { apply Hn. unfold l. rewrite length_take. lia. }
  pose proof (peer_indices_length context Hown) as Hpeers. pose proof (Permutation_length (Hsh (peer_indices context))) as Hshl.
  unfold MAX_PEERS in Hle.
  destruct (request_chunks_ok rounds blocks (shuffle (peer_indices context)) [] (inflight_blocks_map self) (other_guards self))
    as (peers & requests & m & -> & Hreq & Hlr & Hm); [lia|done| |constructor| |].
  { intros c Hc'. split; [by apply Hcs|]. apply Forall_forall. intros r Hr'.
    assert (r ∈ l) as Hl by (rewrite <-Hcat; apply list_elem_of_In, in_concat; exists c; by rewrite <-!list_elem_of_In).
    pose proof (sk_task _ _ Hok) as HP. rewrite Htask in HP.
    pose proof (take_elements_P (N.to_nat (MAX_PEERS * max_blocks_per_fetch params)) _ HP) as HF. rewrite Forall_forall in HF. by apply HF. }
  { apply (locks_perm _ _ _ (sk_locks _ _ Hok)). by rewrite live_guards_split, Htask. }
  cbn [mbind outcome_bind]. eexists. split; [done|].
  apply (with_task_ok d0 self _ m (other_guards self)); [done| |apply live_guards_split|].
  - simpl. split; [done|]. unfold MAX_PEERS. simpl in Hlr. lia.
  - simpl. by rewrite app_nil_r.
Qed.

Lemma with_locks_same self : with_locks (inflight_blocks_map self) self = self.
Proof. by destruct self. Qed.

Lemma scheduler_answered_ok d0 i response peers requests results self :
  synchronizer_ok d0 self → fetch_blocks_scheduler_task self = Some (FetchingFromPeers peers requests results) →
  ∃ self', scheduler_answered i response peers requests results self = Ok self' ∧ synchronizer_ok d0 self'.
Proof.
  intros Hok Htask. unfold scheduler_answered. destruct (requests !! i) as [request|] eqn:Hi; [|by eexists].
  pose proof (delete_Permutation _ _ _ Hi) as Hperm. pose proof (sk_task _ _ Hok) as Ht. rewrite Htask in Ht. destruct Ht as [Hreq Hlen].
  pose proof (Permutation_length Hperm) as Hdl. simpl in Hdl.
  assert (request_ok request ∧ Forall request_ok (delete i requests)) as [Hr Hrs].
  { rewrite Hperm in Hreq. by apply Forall_cons in Hreq. }
  pose proof (sk_locks _ _ Hok) as Hl. rewrite live_guards_split, Htask in Hl. simpl in Hl.
  rewrite (fmap_Permutation fr_guard _ _ Hperm), fmap_cons in Hl. unfold MAX_PEERS in *.
  destruct (fetch_blocks_request request response).1 as [blocks|e].
  - eexists. split; [done|]. rewrite <-(with_locks_same self) at 1.
    apply (with_task_ok d0 self _ _ (other_guards self)); [done| |apply live_guards_split|]; case_bool_decide as Hnil; simpl; try done.
    + split; [done|]. unfold MAX_PEERS. lia.
    + apply (locks_perm _ _ _ Hl). rewrite Hnil. rewrite !fmap_app. simpl. solve_Permutation.
    + apply (locks_perm _ _ _ Hl). rewrite !fmap_app. simpl. solve_Permutation.
  - destruct peers as [|next peers].
    + unfold release. destruct (drop_guard_ok _ _ _ Hl) as (m & -> & Hm). cbn [mbind outcome_bind]. eexists. split; [done|].
      apply (with_task_ok d0 self _ m (other_guards self)); [done| |apply live_guards_split|done].
      simpl. split; [done|]. unfold MAX_PEERS. lia.
    + destruct (swap_locks_ok _ _ _ next Hl) as (og & m & -> & Hm & Hg). cbn [mbind outcome_bind]. eexists. split; [done|].
      apply (with_task_ok d0 self _ m (other_guards self)); [done| |apply live_guards_split|]; destruct og as [g|]; simpl; try done.
      * destruct (Hg g eq_refl) as (Hp & Hsub & _). rewrite length_app. simpl. split; [|unfold MAX_PEERS; lia].
        apply Forall_app. split; [done|]. constructor; [|done]. destruct Hr as (Hgo & _ & Hro). split; [|done].
        destruct Hgo as [Hgo HgP]. split; [apply subseteq_size in Hsub; simpl; lia|].
        intros r Hr. by apply HgP, Hsub.
      * split; [done|]. unfold MAX_PEERS. lia.
      * apply (locks_perm _ _ _ Hm). rewrite fmap_app. simpl. solve_Permutation.
Qed.

Lemma scheduler_times_out_ok d0 peers requests results self :
  synchronizer_ok d0 self → fetch_blocks_scheduler_task self = Some (FetchingFromPeers peers requests results) →
  ∃ self', scheduler_times_out requests results self = Ok self' ∧ synchronizer_ok d0 self'.
Proof.
  intros Hok Htask. unfold scheduler_times_out.
  assert (∃ m, foldM (λ self request, release (fr_guard request) self) self requests = Ok (with_locks m self) ∧
    locks_ok m (results.*1.*1 ++ other_guards self)) as (m & -> & Hm).
  { pose proof (sk_locks _ _ Hok) as Hl. rewrite live_guards_split, Htask in Hl. simpl in Hl. rewrite <-(assoc (++)) in Hl. clear Hok Htask.
    remember (results.*1.*1 ++ other_guards self) as gs eqn:Hgs. clear Hgs. revert self Hl.
    induction requests as [|request requests IH]; intros self Hl; simpl in Hl.
    { exists (inflight_blocks_map self). split; [by rewrite with_locks_same|done]. }
    destruct (drop_guard_ok _ _ _ Hl) as (m1 & Hd & Hm1). cbn [foldM].
    assert (release (fr_guard request) self = Ok (with_locks m1 self)) as -> by (unfold release; by rewrite Hd). cbn [mbind outcome_bind].
    destruct (IH (with_locks m1 self) Hm1) as (m & Hf & Hm). exists m. by rewrite Hf. }
  cbn [mbind outcome_bind]. eexists. split; [done|].
  by apply (with_task_ok d0 self _ m (other_guards self)); [| |apply live_guards_split|].
Qed.

Lemma scheduler_processes_ok d0 clock results self :
  synchronizer_ok d0 self → fetch_blocks_scheduler_task self = Some (ProcessingResults results) →
  ∃ self', scheduler_processes v clock results self = Ok self' ∧ synchronizer_ok d0 self'.
Proof.
  intros Hok Htask. unfold scheduler_processes. pose proof (sk_locks _ _ Hok) as Hl. rewrite live_guards_split, Htask in Hl. simpl in Hl.
  destruct results as [|[[g ss] peer] results].
  { eexists. split; [done|]. rewrite <-(with_locks_same self) at 1. by apply (with_task_ok d0 self _ _ (other_guards self)); [| |apply live_guards_split|]. }
  simpl in Hl. destruct (process_fetched_blocks_ok d0 g clock ss peer (with_scheduler (Some (ProcessingResults results)) self)) as (res & self' & Hp & Hok' & Ht').
  { split.
    - apply (locks_perm _ _ _ Hl). simpl. by rewrite live_guards_split.
    - intros m Hm. apply (with_task_ok d0 self _ m (other_guards self)); [done..|apply live_guards_split|].
      simpl. by rewrite live_guards_split in Hm. }
  rewrite Hp. cbn [mbind outcome_bind]. by eexists.
Qed.

Lemma start_task_ok d0 self :
  synchronizer_ok d0 self → fetch_blocks_scheduler_task self = None →
  ∃ res self', start_fetch_missing_blocks_task self = Ok (res, self') ∧ synchronizer_ok d0 self'.
Proof.
  intros [Hk1 Hk2 Hk3 Hk4 Hk5 Hk6 (rs & Harr & Hsafe & Hinv)] Htask. unfold start_fetch_missing_blocks_task.
  destruct (Hmiss (sy_core_dispatcher self)) as [[res core] Hres]. rewrite Hres. cbn [mbind outcome_bind].
  destruct (Hmiss_inv _ _ _ Hinv Hres) as [Hinv' HP].
  assert (Hcore : ∃ rs, arrived core = arrived d0 ++ rs ∧ Forall request_safe rs ∧ core_inv core).
  { apply arrived_get_missing_blocks in Hres as [->|[_ ->]]; rewrite Harr; [|by exists rs].
    exists (rs ++ [RequestGetMissing]). rewrite (assoc (++)). split; [done|]. split; [|done].
    apply Forall_app. by split; [|constructor]. }
  assert (Hself : synchronizer_ok d0 (with_core_commands core (commands self) self)) by by split.
  destruct res as [missing|e]; [|by eexists _, _]. eexists _, _. split; [done|]. case_bool_decide; [done|].
  apply (with_task_ok d0 (with_core_commands core (commands self) self) (Some (Spawned missing)) (inflight_blocks_map self) (other_guards self));
    [done|by apply HP|apply (live_guards_split (with_core_commands core (commands self) self))|]. simpl.
  apply (locks_perm _ _ _ Hk1). by rewrite live_guards_split, Htask.
Qed.

(** What an event brings: callers name authorities, the DAG has cached blocks of all
    authorities, which [highest_rounds_return] derives from its invariant, and shuffling
    permutes. *)
Definition sync_event_ok (event : SynchronizerEvent (St := St)) : Prop :=
  match event with
  | CallerSends _ peer => peer < committee_size (committee context)
  | PeerReceives _ dag => ∃ rounds, get_highest_accepted_rounds context dag = Ok rounds
  | SchedulerStarts dag shuffle => (∃ rounds, get_highest_accepted_rounds context dag = Ok rounds) ∧ ∀ l, shuffle l ≡ₚ l
  | _ => True
  end.

(** The references of an event. *)
Definition event_refs_ok (event : SynchronizerEvent (St := St)) : Prop :=
  match event with CallerSends refs _ => set_Forall P refs | _ => True end.

Lemma synchronizer_step_ok d0 event self :
  synchronizer_ok d0 self → sync_event_ok event → event_refs_ok event →
  ∃ r, synchronizer_step context params v event self = Ok r ∧ ∀ self', r = Some self' → synchronizer_ok d0 self'.
Proof.
  intros Hok Hev HevP.
  assert (Hlift : ∀ m : outcome (Synchronizer D), (∃ self', m = Ok self' ∧ synchronizer_ok d0 self') →
    ∃ r, Some <$> m = Ok r ∧ ∀ self', r = Some self' → synchronizer_ok d0 self').
  { intros m (self' & -> & Hok'). eexists. split; [done|]. by intros ? [= <-]. }
  assert (Hsame : ∃ r, Ok (Some self) = Ok r ∧ ∀ self', r = Some self' → synchronizer_ok d0 self').
  { eexists. split; [done|]. by intros ? [= <-]. }
  destruct event as [refs peer|now|now|peer dag|peer i response clock|dag shuffle|i response| |clock]; simpl in *.
  - eexists. split; [done|]. intros ? [= <-]. unfold try_send_command. destruct (_ <? _); [|done].
    destruct Hok as [Hk1 Hk2 Hk3 Hk4 Hk5 Hk6 Hk7]. split; try done. simpl. apply Forall_app. by split; [|constructor].
  - destruct (commands self) as [|[refs peer|] cs] eqn:Hcs; [done|..]; pose proof (sk_commands _ _ Hok) as Hcok;
      rewrite Hcs in Hcok; apply Forall_cons in Hcok as [Hcmd Hcok];
      assert (Hok1 : synchronizer_ok d0 (with_core_commands (sy_core_dispatcher self) cs self)) by (destruct Hok; by split).
    + destruct Hcmd as [Hcmd HcP]. destruct (run_fetch_blocks_ok d0 refs peer _ Hok1 Hcmd HcP) as (r & self' & -> & Hok'). cbn [mbind outcome_bind].
      eexists. split; [done|]. by intros ? [= <-].
    + eexists. split; [done|]. intros ? [= <-]. unfold run_kick_off. destruct (_ <? _); [|done]. destruct Hok1; by split.
  - destruct (now <? _); [done|]. destruct (fetch_blocks_scheduler_task self) eqn:Htask.
    + eexists. split; [done|]. intros ? [= <-]. destruct Hok; by split.
    + destruct (start_task_ok d0 self Hok Htask) as (res & self' & -> & Hok'). cbn [mbind outcome_bind].
      eexists. split; [done|]. destruct res; [|done]. intros ? [= <-]. destruct Hok'; by split.
  - destruct Hev as [rounds Hr]. apply Hlift. by eapply peer_receives_ok.
  - apply Hlift. by apply peer_answered_ok.
  - destruct (fetch_blocks_scheduler_task self) as [[missing| |]|] eqn:Htask; try done. destruct Hev as [[rounds Hr] Hsh].
    apply Hlift. by eapply request_missing_blocks_ok.
  - destruct (fetch_blocks_scheduler_task self) as [[|peers requests results|]|] eqn:Htask; try done.
    apply Hlift. by apply scheduler_answered_ok.
  - destruct (fetch_blocks_scheduler_task self) as [[|peers requests results|]|] eqn:Htask; try done.
    apply Hlift. by eapply scheduler_times_out_ok.
  - destruct (fetch_blocks_scheduler_task self) as [[| |results]|] eqn:Htask; try done.
    apply Hlift. by apply scheduler_processes_ok.
Qed.

Lemma synchronizer_run_ok d0 events self :
  synchronizer_ok d0 self → Forall sync_event_ok events → Forall event_refs_ok events →
  ∃ r, synchronizer_run context params v events self = Ok r ∧ ∀ self', r = Some self' → synchronizer_ok d0 self'.
Proof.
  intros Hok Hev. revert self Hok. induction Hev as [|event events Hev _ IH]; intros self Hok HP.
  { eexists. split; [done|]. by intros ? [= <-]. }
  apply Forall_cons in HP as [HevP HP].
  cbn [synchronizer_run]. destruct (synchronizer_step_ok d0 event self Hok Hev HevP) as (r & -> & Hr). cbn [mbind outcome_bind].
  destruct r as [self'|]; [by apply IH; [apply Hr|]|]. by eexists.
Qed.
End runs.

(** The rounds of a well-formed DAG can be read as long as the last round has not been evicted. *)
Lemma highest_rounds_return {St} `{StoreSpec St} `{Crypto} context (dag : DagState St) :
  dag_wf dag → committee (DagState.context dag) = committee context → not_evicted dag U32_MAX →
  ∃ rounds, get_highest_accepted_rounds context dag = Ok rounds.
Proof.
  intros Hwf Hctx Hev. destruct (last_cached_blocks dag U32_MAX Hwf Hev) as (l & Hl & Hlen & _); [done|].
  unfold get_highest_accepted_rounds. rewrite Hl. cbn [mbind outcome_bind].
  rewrite <-Hctx, Hlen, N.eqb_refl. by eexists.
Qed.

(** ** Properties *)

Section properties.
Context {D : Type} `{CoreThreadDispatcherSpec D} {St : Type} `{Store St} `{Crypto, TransactionVerifier, BcsParser}.
Context (context : Context) (params : Parameters) (v : SignedBlockVerifier).
Implicit Types (self : Synchronizer D).

(** The requests that run: those of the tasks of the peers, and those of the scheduler. *)
Definition running_requests self : list FetchRequest :=
  queued (peer_requests self) ++
  match fetch_blocks_scheduler_task self with Some (FetchingFromPeers _ requests _) => requests | _ => [] end.

(** A reference that the service of a peer does not refuse. *)
Definition servable (r : BlockRef) : Prop := br_author r < committee_size (committee context) ∧ br_round r ≠ GENESIS_ROUND.

Context (Hc : committee_wf (committee context)) (Hv : committee (bv_context v) = committee context).
Context (Hmax : 0 < max_blocks_per_fetch params) (Hsize : 4 ≤ committee_size (committee context)).
Context (Hown : own_index context < committee_size (committee context)).
Context (Hadd : ∀ (d : D) blocks, ∃ r, dispatch_add_blocks d blocks = Ok r).
Context (Hmiss : ∀ d : D, ∃ r, dispatch_get_missing_blocks d = Ok r).

Lemma running_requests_ok P core_inv d0 self :
  synchronizer_ok context params v P core_inv d0 self → Forall (request_ok context params P) (running_requests self).
Proof.
  intros Hok. unfold running_requests. apply Forall_app. split.
  - apply Forall_forall. intros request Hr. unfold queued in Hr. apply list_elem_of_In, in_concat in Hr as (rs & Hrs & Hr).
    apply list_elem_of_In in Hr, Hrs. apply list_elem_of_fmap in Hrs as ([p rs'] & -> & Hp%elem_of_map_to_list).
    destruct (sk_requests _ _ _ _ _ _ _ Hok _ _ Hp) as [Hall _]. rewrite Forall_forall in Hall. auto.
  - pose proof (sk_task _ _ _ _ _ _ _ Hok) as Ht. destruct (fetch_blocks_scheduler_task self) as [[]|]; simpl in *; try constructor. apply Ht.
Qed.

(** Runs without a condition on the references. *)
Lemma any_run_ok (d : D) now (events : list (SynchronizerEvent (St := St))) :
  Forall (sync_event_ok context) events →
  ∃ r, synchronizer_run context params v events (synchronizer_start context d now) = Ok r ∧
    ∀ self, r = Some self → synchronizer_ok context params v (λ _, True) (λ _, True) d self.
Proof.
  intros Hev. apply (synchronizer_run_ok context params v (λ _, True) (λ _, True)); try done.
  - by apply start_ok.
  - apply Forall_forall. by intros [] _.
Qed.

(** C24: The synchronizer never panics, whatever the peers answer and however its tasks
    interleave, in a committee of at least four; and all it asks of the core is to add blocks
    that were received and verified, and for the blocks that are missing. *)
Theorem synchronizer_safe (d : D) now (events : list (SynchronizerEvent (St := St))) :
  Forall (sync_event_ok context) events →
  ∃ r, synchronizer_run context params v events (synchronizer_start context d now) = Ok r ∧
    ∀ self, r = Some self →
      ∃ rs, arrived (sy_core_dispatcher self) = arrived d ++ rs ∧ Forall (request_safe v) rs.
Proof.
  intros Hev. destruct (any_run_ok d now events Hev) as (r & -> & Hr).
  eexists. split; [done|]. intros self Hs. destruct (sk_core _ _ _ _ _ _ _ (Hr self Hs)) as (rs & ? & ? & _). by exists rs.
Qed.

(** C25: Bounds of the synchronizer.  At any time at most two peers are asked for a block, and no
    peer twice for the same; every lock belongs to a guard that is alive; a peer has at most five
    requests and five more in its queue, and the scheduler at most three.  Every request asks for
    at most as many blocks as a request may and carries rounds of the whole committee; and if the
    blocks that callers and the core name have authors of the committee and are not genesis
    blocks, it is a request that the service of a peer answers. *)
Theorem synchronizer_bounds (d : D) now (events : list (SynchronizerEvent (St := St))) self :
  Forall (sync_event_ok context) events →
  synchronizer_run context params v events (synchronizer_start context d now) = Ok (Some self) →
  (∀ r, (length (filter (λ p, p.1 = r) (holds (live_guards self))) ≤ 2)%nat) ∧ NoDup (holds (live_guards self)) ∧
  (∀ r a, a ∈ (default ∅ (inflight_blocks_map self !! r) : gset AuthorityIndex) → (r, a) ∈ holds (live_guards self)) ∧
  (∀ p q, fetch_block_senders self !! p = Some q → N.of_nat (length q) ≤ FETCH_BLOCKS_CONCURRENCY) ∧
  (∀ p rs, peer_requests self !! p = Some rs → N.of_nat (length rs) ≤ FETCH_BLOCKS_CONCURRENCY) ∧
  (∀ peers rs results, fetch_blocks_scheduler_task self = Some (FetchingFromPeers peers rs results) →
     N.of_nat (length rs) ≤ MAX_PEERS) ∧
  (∀ request, request ∈ running_requests self →
     N.of_nat (size (bg_block_refs (fr_guard request))) ≤ max_blocks_per_fetch params ∧
     N.of_nat (length (fr_highest_rounds request)) = committee_size (committee context)) ∧
  (∀ core_inv : D → Prop, core_inv d →
     (∀ d blocks res d', core_inv d → dispatch_add_blocks d blocks = Ok (res, d') → core_inv d') →
     (∀ d res d', core_inv d → dispatch_get_missing_blocks d = Ok (res, d') →
        core_inv d' ∧ ∀ missing, res = RustOk missing → set_Forall servable missing) →
     (∀ refs peer, CallerSends refs peer ∈ events → set_Forall servable refs) →
     ∀ request, request ∈ running_requests self →
       good_request context params (bt_elements (bg_block_refs (fr_guard request))) (fr_highest_rounds request)).
Proof.
  intros Hev Hrun. destruct (any_run_ok d now events Hev) as (r & Hr & Hok). rewrite Hrun in Hr. injection Hr as <-.
  pose proof (Hok self eq_refl) as Hself. pose proof Hself as [Hk1 Hk2 Hk3 Hk4 Hk5 Hk6 Hk7]. split_and!.
  - intros r. by eapply locks_at_most_two.
  - apply Hk1.
  - intros r a Ha. by apply Hk1.
  - intros p q Hq. by apply (Hk3 p).
  - intros p rs Hq. by destruct (Hk4 p rs Hq) as (_ & _ & ?).
  - intros peers rs results Htask. rewrite Htask in Hk5. by destruct Hk5.
  - intros request Hr. pose proof (running_requests_ok _ _ _ _ Hself) as Hall. rewrite Forall_forall in Hall.
    destruct (Hall request Hr) as ([? _] & _ & ?). done.
  - intros core_inv Hd Hadd_inv Hmiss_inv Hcall request Hr.
    destruct (synchronizer_run_ok context params v servable core_inv Hc Hv Hmax Hsize Hown Hadd Hmiss Hadd_inv Hmiss_inv d events
      (synchronizer_start context d now)) as (r & Hr' & Hok'); [by apply start_ok|done| |].
    { apply Forall_forall. intros [] He; try done. by eapply Hcall. }
    rewrite Hrun in Hr'. injection Hr' as <-. pose proof (running_requests_ok _ _ _ _ (Hok' self eq_refl)) as Hall.
    rewrite Forall_forall in Hall. destruct (Hall request Hr) as ([Hsz HP] & _ & Hlen). split; [|by right|].
    + unfold bt_elements. rewrite sort_by_perm. exact Hsz.
    + apply Forall_forall. intros r Hin%elem_of_bt_elements. by apply HP.
Qed.
End properties.

(** ** Peers for the missing blocks *)

Section peers.
Context {D : Type} {St : Type} `{Store St}.
Context (context : Context) (params : Parameters).
Implicit Types (self : Synchronizer D) (dag : DagState St).

Lemma request_chunks_outcome rounds blocks peers requests m gs :
  locks_ok m gs →
  if (length blocks <=? length peers)%nat
  then ∃ r, foldM (request_chunk rounds) (peers, requests, m) blocks = Ok r
  else foldM (request_chunk rounds) (peers, requests, m) blocks = Panic "Possible misconfiguration as a peer should be found".
Proof.
  revert peers requests m gs. induction blocks as [|c blocks IH]; intros peers requests m gs Hm; [by eexists|].
  destruct peers as [|peer peers]; [done|]. cbn [foldM request_chunk length Nat.leb].
  destruct (lock_blocks_ok m gs (list_to_set c) peer Hm) as (og & m' & -> & Hm' & _). cbn [mbind outcome_bind]. by eapply IH.
Qed.

(** C39: When the scheduler finds peers for the missing blocks.  It asks another peer for each batch
    of the first blocks that are missing, up to three batches.  It panics exactly when there
    are more of these blocks than the others of the committee may be asked for, which cannot be
    in a committee of four or more. *)
Theorem peers_for_missing_blocks dag shuffle missing self gs rounds :
  own_index context < committee_size (committee context) → 0 < max_blocks_per_fetch params →
  locks_ok (inflight_blocks_map self) gs → get_highest_accepted_rounds context dag = Ok rounds → (∀ l, shuffle l ≡ₚ l) →
  let asked := N.min (N.of_nat (size missing)) (MAX_PEERS * max_blocks_per_fetch params) in
  let others := committee_size (committee context) - 1 in
  (asked ≤ others * max_blocks_per_fetch params →
     ∃ self', request_missing_blocks context params dag shuffle missing self = Ok self') ∧
  (others * max_blocks_per_fetch params < asked →
     request_missing_blocks context params dag shuffle missing self =
       Panic "Possible misconfiguration as a peer should be found").
Proof.
  intros Hown Hmax Hlocks Hr Hsh asked others. unfold request_missing_blocks. rewrite Hr. cbn [mbind outcome_bind].
  set (l := take _ _). assert (Hl : N.of_nat (length l) = asked).
  { unfold l, asked. rewrite length_take. unfold bt_elements. rewrite sort_by_perm. change (length (elements missing)) with (size missing). lia. }
  assert (∃ blocks, chunks l (max_blocks_per_fetch params) = Ok blocks) as [blocks Hch].
  { unfold chunks. destruct (N.eqb_spec (max_blocks_per_fetch params) 0); [lia|]. simpl. eauto. }
  rewrite Hch. cbn [mbind outcome_bind]. apply chunks_Ok in Hch as (_ & Hcat & Hcs & Hn).
  pose proof (peer_indices_length context Hown) as Hpeers. pose proof (Permutation_length (Hsh (peer_indices context))) as Hshl.
  pose proof (request_chunks_outcome rounds blocks (shuffle (peer_indices context)) [] _ gs Hlocks) as Hout.
  destruct (Nat.leb_spec (length blocks) (length (shuffle (peer_indices context)))) as [Hle|Hgt].
  - split; [destruct Hout as [[[peers requests] m] ->]; by eexists|]. intros Hlt. exfalso.
    pose proof (concat_length_le blocks (N.to_nat (max_blocks_per_fetch params))) as Hlen. rewrite Hcat in Hlen.
    assert (length l ≤ length blocks * N.to_nat (max_blocks_per_fetch params))%nat; [|nia].
    apply Hlen. intros c Hc. apply Hcs in Hc as [_ ?]. lia.
  - split; [|by rewrite Hout]. intros Hle. exfalso. specialize (Hn others). rewrite Hl in Hn. specialize (Hn Hle). lia.
Qed.
End peers.
