(* ===== verification/ServiceNetwork.v ===== *)
(** The network of [NetworkRun] in terms of what is sent: the tasks of a validator reach its core
    through the dispatcher, with the blocks they have parsed and verified of whatever bytes the
    peers have sent.  Every run of these tasks is a run of the network, so what holds in the
    network holds of the validators with their services. *)

From stdpp Require Import base strings numbers gmap sets relations list.
From S2P Require Import Prelude Committee Block Dag Commit BlockVerifier Store DagState LeaderSchedule CommitObserver Core CoreRun NetworkRun CoreThread LeaderTimeout CommitVotes AuthorityService AuthorityServiceFacts Synchronizer SynchronizerFacts.

Open Scope N_scope.

Section services.
Context {St : Type} `{StoreSpec St} `{Crypto, BlockVerifier} `{!BlockVerifierSpec} `{CommitSerializer} `{RandSpec}.
Context `{TransactionVerifier, BcsParser}.
Context (cfg : NetConfig) (byz : gset AuthorityIndex).
Implicit Types (n : Net St) (core : Core St) (d : ChannelCoreThreadDispatcher St).

(** ** Steps *)

(** What a task of a validator does with the dispatcher of its core, given the bytes that peers
    have sent to it. *)
Inductive handles (context : Context) (params : Parameters) (v : SignedBlockVerifier) :
    ChannelCoreThreadDispatcher St → list bytes → ChannelCoreThreadDispatcher St → Prop :=
(** The service gets a block. *)
| handles_send_block service now last_commit_index peer s res service' :
    handle_send_block context params v service now last_commit_index peer s = Ok (res, service') →
    handles context params v (as_core_dispatcher service) [s] (as_core_dispatcher service')
(** The synchronizer gets the blocks that it has asked for. *)
| handles_fetched clock ss peer guard self res self' :
    process_fetched_blocks v clock ss peer guard self = Ok (res, self') →
    handles context params v (sy_core_dispatcher self) ss (sy_core_dispatcher self')
(** The leader timeout. *)
| handles_timeout event self self' :
    leader_timeout_step params event self = Ok (Some self') →
    handles context params v (lt_dispatcher self) [] (lt_dispatcher self').

Inductive service_step : Net St → Net St → Prop :=
(** A task of a validator runs.  The bytes are whatever peers have sent, but signatures are not
    forged and digests do not collide: a block that passes verification is one that exists. *)
| service_task n a params v d ss d' :
    nodes n !! a = Some (ct_core d) → committee (bv_context v) = nc_committee cfg →
    handles (core_context (ct_core d)) params v d ss d' → ct_alive d' = true →
    (∀ b, serialized b ∈ ss → admitted v b → b ∈ world n) → last_proposed_round (ct_core d') ≤ round_limit →
    service_step n (mkNet (<[a := ct_core d']> (nodes n)) (new_blocks (ct_core d) (ct_core d') ++ world n))
(** A validator starts, or a Byzantine authority makes a block. *)
| service_environment n n' :
    net_step cfg byz n n' → (∀ a core, nodes n !! a = Some core → nodes n' !! a = Some core) → service_step n n'.

(** ** Refinement *)

(** A command has run on the core, with the blocks [bs], or nothing has. *)
Definition ran (bs : list VerifiedBlock) d d' : Prop :=
  ct_core d' = ct_core d ∨
  ∃ command res, command_blocks command = bs ∧ run_command (ct_core d) command = Ok (RustOk res, ct_core d').

Lemma channel_send_ran d command bs res d' :
  (∀ now t, command_blocks (command now t) = bs) → channel_send d command = Ok (res, d') → ct_alive d' = true → ran bs d d'.
Proof.
  intros Hbs. unfold channel_send. destruct (ct_alive d); cbn [negb]; [|intros [= <- <-]; by left].
  destruct (ct_clock d _) as [now t]. intros ([r core] & Hrun & Hres)%bind_Ok.
  destruct r as [answer|[]]; try done; injection Hres as <- <-; [|done]. intros _. right. by exists (command now t), answer.
Qed.

Lemma dispatch_add_blocks_ran d bs res d' :
  dispatch_add_blocks d bs = Ok (res, d') → ct_alive d' = true → ran bs d d'.
Proof. intros ([r d1] & Hs & [= <- <-])%bind_Ok Hal. by eapply channel_send_ran; [|exact Hs|]. Qed.

Lemma dispatch_new_block_ran d round force res d' :
  dispatch_new_block d round force = Ok (res, d') → ct_alive d' = true → ran [] d d'.
Proof. intros ([r d1] & Hs & [= <- <-])%bind_Ok Hal. by eapply channel_send_ran; [|exact Hs|]. Qed.

Lemma handle_send_block_dispatches context params v (service : AuthorityService (ChannelCoreThreadDispatcher St)) now l peer s res service' :
  handle_send_block context params v service now l peer s = Ok (res, service') →
  as_core_dispatcher service' = as_core_dispatcher service ∨
  ∃ b r, serialized b = s ∧ admitted v b ∧
    dispatch_add_blocks (as_core_dispatcher service) [b] = Ok (r, as_core_dispatcher service').
Proof.
  unfold handle_send_block. intros (x & _ & Hh)%bind_Ok.
  destruct (parse_signed_block s) as [sb|e] eqn:Hp; cbn [map_err] in Hh; [|injection Hh as <- <-; by left].
  destruct (negb _); [injection Hh as <- <-; by left|].
  apply bind_Ok in Hh as ([[]|e] & Hver & Hh); [|injection Hh as <- <-; by left].
  destruct (_ <? _); [injection Hh as <- <-; by left|].
  apply bind_Ok in Hh as (monitor & Hm & Hh). destruct (_ <? _); [injection Hh as <- <-; by left|].
  apply bind_Ok in Hh as ([r d'] & Hd & Hh). right. exists (new_verified sb s), r. split; [done|].
  split; [by apply new_verified_admitted|]. cbn [as_core_dispatcher] in Hd. rewrite Hd. do 2 f_equal.
  destruct r; injection Hh as <- <-; [by case_bool_decide|done].
Qed.

Lemma release_dispatcher guard (self self' : Synchronizer (ChannelCoreThreadDispatcher St)) :
  release guard self = Ok self' → sy_core_dispatcher self' = sy_core_dispatcher self.
Proof. by intros (m & _ & [= <-])%bind_Ok. Qed.

Context (Hc : committee_wf (nc_committee cfg)).

Lemma verify_blocks_bytes v clock ss bs :
  verify_blocks v clock ss = Ok (RustOk bs) → Forall (λ b, serialized b ∈ ss) bs.
Proof.
  revert clock bs. induction ss as [|s ss IH]; intros clock bs; cbn [verify_blocks]; [intros [= <-]; constructor|].
  destruct (parse_signed_block s) as [sb|e]; cbn [map_err]; [|done]. intros ([[]|e] & _ & Hrest)%bind_Ok; [|done].
  apply bind_Ok in Hrest as ([rest|e] & Hrest & Heq); [|done]. apply IH in Hrest. injection Heq as <-.
  assert (Forall (λ b, serialized b ∈ s :: ss) rest) as Hall by (eapply Forall_impl; [exact Hrest|by right]).
  destruct (_ <? _); [done|]. constructor; [left|done].
Qed.

Lemma fetched_blocks_of_bytes v clock ss peer requested bs :
  fetched_blocks_of v clock ss peer requested = Ok (RustOk bs) → Forall (λ b, serialized b ∈ ss) bs.
Proof.
  unfold fetched_blocks_of. destruct (_ <? _); [done|]. intros ([bs'|e] & Hver & Heq)%bind_Ok; [|done].
  apply verify_blocks_bytes in Hver. cbn [try_] in Heq. destruct (check_expected _ _ _); [|done]. by injection Heq as <-.
Qed.

Lemma process_fetched_blocks_dispatches v clock ss peer guard (self : Synchronizer (ChannelCoreThreadDispatcher St)) res self' :
  committee (bv_context v) = nc_committee cfg →
  process_fetched_blocks v clock ss peer guard self = Ok (res, self') →
  sy_core_dispatcher self' = sy_core_dispatcher self ∨
  ∃ bs r, Forall (λ b, serialized b ∈ ss ∧ admitted v b) bs ∧
    dispatch_add_blocks (sy_core_dispatcher self) bs = Ok (r, sy_core_dispatcher self').
Proof.
  intros Hv. unfold process_fetched_blocks.
  destruct (fetched_blocks_of_Ok v ltac:(by rewrite Hv) clock ss peer (bg_block_refs guard)) as (checked & Hf & Hchk).
  rewrite Hf. cbn [mbind outcome_bind]. destruct checked as [bs|e].
  - intros ([r d'] & Hd & Hres)%bind_Ok. apply bind_Ok in Hres as (self1 & Hrel%release_dispatcher & Hres). right. exists bs, r.
    destruct (Hchk bs eq_refl) as (Hadm & _). split.
    + apply Forall_and. split; [by eapply fetched_blocks_of_bytes|done].
    + rewrite Hd. do 2 f_equal. transitivity (sy_core_dispatcher self1); [done|].
      destruct r; injection Hres as <- <-; [|done]. case_bool_decide; [done|]. unfold try_send_command. by destruct (_ <? _).
  - intros (self1 & Hrel%release_dispatcher & [= <- <-])%bind_Ok. by left.
Qed.

(** What a task does is nothing, or a command on the core with blocks that exist. *)
Lemma handles_ran n context params v d ss d' :
  committee (bv_context v) = nc_committee cfg → handles context params v d ss d' → ct_alive d' = true →
  (∀ b, serialized b ∈ ss → admitted v b → b ∈ world n) →
  ∃ bs, ran bs d d' ∧ Forall (.∈ world n) bs.
Proof.
  intros Hv Hh Hal Hw. destruct Hh as [service now l peer s res service' Hh|clock ss peer guard self res self' Hp|event self self' Hl].
  - apply handle_send_block_dispatches in Hh as [Heq|(b & r & Hs & Ha & Hd)]; [exists []; split; [left; by rewrite Heq|constructor]|].
    exists [b]. split; [by eapply dispatch_add_blocks_ran|]. constructor; [|constructor]. apply Hw; [rewrite Hs; left|done].
  - apply process_fetched_blocks_dispatches in Hp as [Heq|(bs & r & Hbs & Hd)]; [exists []; split; [left; by rewrite Heq|constructor]| |done].
    exists bs. split; [by eapply dispatch_add_blocks_ran|]. eapply Forall_impl; [exact Hbs|]. intros b [Hin Ha]. by apply Hw.
  - exists []. split; [|constructor]. destruct event as [now|now|round now|]; cbn [leader_timeout_step] in Hl.
    3: { injection Hl as <-. by left. }
    3: done.
    all: destruct (_ && _); [|injection Hl as <-; by left].
    all: apply bind_Ok in Hl as ([[u|e] d'] & Hd & Hl); [|done]; injection Hl as <-.
    all: by eapply dispatch_new_block_ran.
Qed.

Lemma service_step_simulated n n' : service_step n n' → rtc (net_step cfg byz) n n'.
Proof.
  intros [n1 a params v d ss d' Ha Hv Hh Hal Hw Hlim|n1 n2 Hstep _]; [|by apply rtc_once].
  destruct (handles_ran n1 _ _ _ _ _ _ Hv Hh Hal Hw) as (bs & [Heq|(command & res & Hbs & Hrun)] & Hall).
  - rewrite Heq, new_blocks_same. cbn [app]. rewrite insert_id by done. by destruct n1.
  - apply rtc_once. eapply net_command; [done| |done|done]. by rewrite Hbs.
Qed.

(** C2: The validators with their services refine the network.  Whatever bytes peers send to the
    service and to the synchronizer of a validator, and whenever its leader timeout fires, its
    core makes a step of the network, with blocks that exist, or none; so every state that is
    reached by these tasks is a reachable state of the network. *)
Theorem services_refine_network n : rtc service_step net_init n → reachable cfg byz n.
Proof.
  unfold reachable. generalize (@net_init St) as n0. intros n0 Hr.
  induction Hr as [|n0 n1 n2 Hs _ IH]; [done|]. etransitivity; [by apply service_step_simulated|done].
Qed.
End services.
