(* ===== verification/Fixtures.v ===== *)
(** A concrete network to run the definitions on: four authorities of equal stake, toy
    serialization and hashing in place of BCS, Blake2b and Ed25519, sampling and a leader
    schedule that go round the authorities, and DAGs in which every block names all the blocks of the
    round before it. *)

From Stdlib Require Import Strings.Byte.
From stdpp Require Import base strings numbers sorting gmap sets relations list.
From S2P Require Import Prelude Committee Block Dag StakeAggregator Commit Store DagState DagReader BaseCommitter UniversalCommitter LeaderScoring LeaderSchedule.

Open Scope N_scope.

(** ** Serialization and hashing *)

Definition ref_bytes (r : BlockRef) : bytes :=
  le_bytes 4 (br_round r) ++ le_bytes 4 (br_author r) ++ le_bytes 4 (br_digest r).

Definition block_bytes (b : Block) : bytes :=
  le_bytes 8 (block_epoch b) ++ le_bytes 4 (block_round b) ++ le_bytes 4 (block_author b) ++
  le_bytes 8 (block_timestamp_ms b) ++ (block_ancestors b ≫= ref_bytes) ++
  (block_transactions b ≫= data).

Definition toy_hash (bs : bytes) : N :=
  foldl (λ h b, N.land (h * 33 + Byte.to_N b) (N.ones 32)) 5381 bs.

(** A signature is the signer's key and the message. *)
Definition toy_sign (key message : bytes) : bytes := key ++ message.

#[export] Instance toy_crypto : Crypto := {
  bcs_block b := RustOk (block_bytes b);
  bcs_signed_block b := RustOk (block_bytes (inner b) ++ signature b);
  bcs_intent_message m := RustOk (le_bytes 4 (value m));
  blake2b256 := toy_hash;
  signature_from_bytes s := RustOk s;
  ed25519_verify key message sig :=
    if bool_decide (sig = toy_sign key message) then RustOk () else RustErr "bad signature";
}.

Definition commit_bytes (c : CommitV1) : bytes :=
  le_bytes 4 (cv1_index c) ++ le_bytes 4 (cv1_previous_digest c) ++ le_bytes 8 (cv1_timestamp_ms c) ++
  ref_bytes (cv1_leader c) ++ (cv1_blocks c ≫= ref_bytes).

#[export] Instance toy_commit_serializer : CommitSerializer := λ c, RustOk (commit_bytes (commit_v1 c)).

(** ** The committee *)

Definition test_authority (i : N) : Authority :=
  mkAuthority 2500 "/ip4/127.0.0.1/udp/8080" "test-host" [] (le_bytes 1 i) [].

Definition test_committee : Committee :=
  mkCommittee 0 10000 6667 3334 (test_authority <$> [0; 1; 2; 3]).

Definition test_context (own : AuthorityIndex) : Context := mkContext own test_committee 500 50 false 20.

(** ** Blocks *)

(** A signed block of the authority, with its digest. *)
Definition test_block (round : Round) (author : AuthorityIndex) (timestamp_ms : BlockTimestampMs)
    (ancestors : list BlockRef) : VerifiedBlock :=
  let b := V1 (mkBlockV1 0 round author timestamp_ms ancestors [] [] []) in
  match signed_block_new b (toy_sign (le_bytes 1 author)) with
  | RustOk sb =>
      match bcs_signed_block sb with
      | RustOk s => new_verified sb s
      | RustErr _ => new_verified sb []
      end
  | RustErr _ => new_verified (signed_block_new_genesis b) []
  end.

Definition test_genesis : list VerifiedBlock :=
  match genesis_blocks (test_context 0) with Ok l => l | _ => [] end.

(** The ancestors of an author's block: its own first. *)
Definition own_first (author : AuthorityIndex) (refs : list BlockRef) : list BlockRef :=
  filter (λ r, br_author r = author) refs ++ filter (λ r, br_author r ≠ author) refs.

Definition test_layer (round : Round) (authors : list AuthorityIndex) (parents : list VerifiedBlock) :
    list VerifiedBlock :=
  (λ a, test_block round a (round * 1000) (own_first a (reference <$> parents))) <$> authors.

(** [n] rounds, from [round] on, of blocks by all the authorities. *)
Fixpoint test_layers (n : nat) (round : Round) (parents : list VerifiedBlock) : list VerifiedBlock :=
  match n with
  | O => []
  | S n => let bs := test_layer round [0; 1; 2; 3] parents in bs ++ test_layers n (round + 1) bs
  end.

Definition test_blocks (n : nat) : list VerifiedBlock := test_layers n 1 test_genesis.

(** ** Validators *)

Definition test_clock : BlockTimestampMs := 1000000.

(** A validator that has started from an empty store and accepted the blocks. *)
Definition test_start (own : AuthorityIndex) : outcome (DagState MemStore) :=
  dag_state_new (test_context own) mem_store_new.

Definition test_state (own : AuthorityIndex) (blocks : list VerifiedBlock) : outcome (DagState MemStore) :=
  d ← test_start own; accept_blocks d test_clock blocks.

#[export] Instance round_robin : LeaderElection () := λ _ round leader_offset,
  Ok ((round + leader_offset) mod 4).

Definition test_committer (d : DagState MemStore) : outcome (UniversalCommitter () (DagState MemStore)) :=
  universal_committer_build
    (with_pipeline true (with_number_of_leaders 1 (universal_committer_builder_new (context d) () d))).

(** ** Sampling *)

Definition seed_number (seed : bytes) : nat := N.to_nat (foldr (λ b n, Byte.to_N b + n) 0 seed).

(** Sampling that goes round the elements with the seed. *)
#[export] Instance toy_rand : Rand := {
  rand_shuffle A seed l := rotate (seed_number seed) l;
  rand_choose A seed l := l !! (seed_number seed mod length l)%nat;
  rand_choose_multiple_weighted A seed l amount weight :=
    if existsb (λ x, 0 <? weight x) l then RustOk (take (N.to_nat amount) (rotate (seed_number seed) l))
    else RustErr "all weights are zero";
}.

Lemma rotate_perm {A} n (l : list A) : rotate n l ≡ₚ l.
Proof. unfold rotate. by rewrite Permutation_app_comm, take_drop. Qed.

#[export] Instance toy_rand_spec : RandSpec.
Proof.
  split; simpl.
  - intros A seed l. apply rotate_perm.
  - done.
  - intros A seed [|x l] Hl; [done |].
    destruct (lookup_lt_is_Some_2 (x :: l) (seed_number seed mod length (x :: l))) as [y Hy].
    { by apply Nat.mod_upper_bound. }
    exists y. split; [done | by eapply list_elem_of_lookup_2].
  - intros A seed l weight (x & Hx & Hw).
    rewrite (proj2 (existsb_exists _ l)); [| exists x; split; [by apply list_elem_of_In | by apply N.ltb_lt]].
    eexists. split; [done |]. rewrite Nat2N.id, take_ge; [apply rotate_perm |].
    by rewrite length_rotate.
Qed.
