(* ===== verification/Counterexamples.v ===== *)
(** Concrete DAGs for what the code does not do as its comments say: blocks that pass verification
    of which the block manager rejects one ([consensus/core/src/block_manager.rs]), and votes
    for which the direct rule is only safe in waves of three rounds
    ([consensus/core/src/base_committer.rs]). *)

From stdpp Require Import base strings numbers sorting gmap sets relations list.
From S2P Require Import Prelude Committee Block Dag StakeAggregator Commit BlockVerifier Store DagState BlockManager DagReader BaseCommitter Fixtures.

Open Scope N_scope.

(** ** A rejected ancestor *)

#[export] Instance test_transactions : TransactionVerifier := λ _, RustOk ().

Definition test_verifier : outcome SignedBlockVerifier := signed_block_verifier_new (test_context 3).

#[export] Instance test_ancestors_check : BlockVerifier := signed_block_verifier_check.

(** A first round by everybody, and a second in which authority 0 makes a block whose
    timestamp is before that of its ancestors. *)
Definition round_one : list VerifiedBlock := test_blocks 1.

Definition backdated : VerifiedBlock := test_block 2 0 500 (own_first 0 (reference <$> round_one)).

Definition round_two : list VerifiedBlock := test_layer 2 [1; 2; 3] round_one.

(** The next block of authority 0, on top of it. *)
Definition on_backdated : VerifiedBlock := test_block 3 0 3000 (reference <$> backdated :: round_two).

(** ** Waves of four rounds *)

(** The leader of round 1 is authority 1.  In round 2 only its own block names the leader's
    block; the blocks of rounds 3 and 4 are by authorities 0, 1 and 2. *)
Definition leader_block : VerifiedBlock := default (test_block 1 1 0 []) (round_one !! 1%nat).

Definition supporter : VerifiedBlock := test_block 2 1 2000 (own_first 1 (reference <$> round_one)).

Definition blames : list VerifiedBlock :=
  test_layer 2 [0; 2; 3] (filter (λ b, vb_author b ≠ 1) round_one).

Definition votes_round : list VerifiedBlock := test_layer 3 [0; 1; 2] (supporter :: take 2 blames).

Definition certificates_round : list VerifiedBlock := test_layer 4 [0; 1; 2] votes_round.

(** What a validator has before, and after, the third blaming block arrives. *)
Definition long_wave_early : list VerifiedBlock :=
  round_one ++ supporter :: take 2 blames ++ votes_round ++ certificates_round.

Definition long_wave_late : list VerifiedBlock := long_wave_early ++ drop 2 blames.

Definition direct_decision (blocks : list VerifiedBlock) : outcome LeaderStatus :=
  d ← test_state 0 blocks;
  committer ← base_committer_new (context d) () d (mkBaseCommitterOptions 4 0 1);
  try_direct_decide committer (mkSlot 1 1).

(** With waves of four rounds, which [BaseCommitter::new] accepts, the rule of
    [try_direct_decide_rule] is not safe even if all authorities are honest: a quorum of blocks
    that do not vote in the first voting round does not exclude a certificate, and two
    validators, or one before and after it receives a block, decide the same slot differently. *)
Example long_waves_disagree :
  direct_decision long_wave_early = Ok (LSCommit leader_block) ∧
  direct_decision long_wave_late = Ok (LSSkip (mkSlot 1 1)).
Proof. split; vm_compute; reflexivity. Qed.
