(* ===== verification/Checks.v ===== *)
(** Decision procedures for the hypotheses of the theorems, and the concrete network of
    [Fixtures] satisfying them: the committee, the blocks, the validators' states and their
    committers. *)

From stdpp Require Import base strings numbers sorting gmap sets relations list.
From S2P Require Import Prelude Committee Block Dag StakeAggregator Commit BlockVerifier Store DagState DagStateFacts Recovery BlockManager BlockManagerFacts DagReader BaseCommitter Votes Decisions UniversalCommitter Pipeline Agreement Sequence Linearizer Linearization TotalOrder Fixtures.

Open Scope N_scope.

(** ** References *)

#[export] Instance ref_in_bounds_dec r : base.Decision (ref_in_bounds r).
Proof. unfold ref_in_bounds. apply _. Defined.

(** ** Properties of DAGs *)

Definition closed_check (V : dag) : bool :=
  bool_decide (map_Forall (λ r b, reference b = r ∧ (br_round r = 0 ∨ ref_in_bounds r) ∧
    Forall (λ a, is_Some (V !! a) ∧ br_round a < br_round r) (vb_ancestors b)) V).

Lemma closed_check_sound V : closed_check V = true → dag_closed V.
Proof.
  unfold closed_check. rewrite bool_decide_eq_true. intros Hall.
  assert (Hanc : ∀ r b a, V !! r = Some b → a ∈ vb_ancestors b → is_Some (V !! a) ∧ br_round a < br_round r).
  { intros r b a Hb Ha. destruct (Hall r b Hb) as (_ & _ & Hf). rewrite Forall_forall in Hf. auto. }
  split.
  - intros r b Hb. by apply Hall.
  - intros r b Hb Hr. destruct (Hall r b Hb) as (_ & [?|?] & _); [lia|done].
  - intros r b a Hb Ha. by eapply Hanc.
  - intros r b a Hb Ha. by eapply Hanc.
Qed.

Definition valid_check (c : Committee) (V : dag) : bool :=
  bool_decide (map_Forall (λ r b, br_author r < committee_size c ∧
    (br_round r = 0 ∨ reached_quorum c (set_stake c (parent_authors (br_round r) (vb_ancestors b))) = true) ∧
    NoDup (vb_ancestors b)) V).

Lemma valid_check_sound c V :
  closed_check V = true → valid_check c V = true → valid_dag c V ∧ distinct_ancestors V.
Proof.
  intros Hcl%closed_check_sound. unfold valid_check. rewrite bool_decide_eq_true. intros Hall. split.
  - split; [done| |].
    + intros r b Hb. by apply Hall in Hb as (? & _).
    + intros r b Hb Hr. destruct (Hall r b Hb) as (_ & [?|?] & _); [lia|done].
  - intros r b Hb. by apply Hall in Hb as (_ & _ & ?).
Qed.

Definition compatible_check (byz : gset AuthorityIndex) (V1 V2 : dag) : bool :=
  bool_decide (map_Forall (λ r1 b1, map_Forall (λ r2 b2,
    (r1 ≠ r2 ∨ b1 = b2) ∧
    (br_author r1 ≠ br_author r2 ∨ br_author r1 ∈ byz ∨ br_round r1 ≠ br_round r2 ∨ b1 = b2)) V2) V1).

Lemma compatible_check_sound byz V1 V2 : compatible_check byz V1 V2 = true → compatible byz V1 V2.
Proof.
  unfold compatible_check. rewrite bool_decide_eq_true. intros Hall. split.
  - intros r x y Hx Hy. destruct (Hall r x Hx r y Hy) as [[?|?] _]; done.
  - intros x y Hx Hy Ha Hb Hr. by destruct (Hall _ x Hx _ y Hy) as [_ [?|[?|[?|?]]]].
Qed.

(** ** The committee and the validators' states *)

Lemma test_committee_wf : committee_wf test_committee.
Proof. by split; vm_compute. Qed.

Lemma test_serializes : serializes.
Proof. intros c. by eexists. Qed.

Definition well_formed_check (own : AuthorityIndex) (bs : list VerifiedBlock) : bool :=
  bool_decide (Forall (λ b, 0 < vb_round b ∧ vb_author b < 4 ∧ ref_in_bounds (reference b) ∧
    Forall (λ a, br_round a < vb_round b) (vb_ancestors b)) bs).

Lemma well_formed_check_sound own bs :
  well_formed_check own bs = true → Forall (well_formed (test_context own)) bs.
Proof.
  unfold well_formed_check. rewrite bool_decide_eq_true. intros Hf.
  eapply Forall_impl; [exact Hf|]. intros b (? & ? & ? & Ha). rewrite Forall_forall in Ha. by split_and!.
Qed.

(** A validator that started from an empty store and accepted well-formed blocks. *)
Lemma test_state_ok own bs d :
  test_state own bs = Ok d → well_formed_check own bs = true →
  dag_wf d ∧ commits_wf d [] ∧ context d = test_context own.
Proof.
  unfold test_state, test_start. intros Hd Hbs%well_formed_check_sound.
  rewrite Forall_forall in Hbs. apply bind_Ok in Hd as (d0 & Hnew & Hacc).
  assert (∃ gl, genesis_blocks (test_context own) = Ok gl) as [gl Hgl] by (eexists; reflexivity).
  destruct (fresh_start (test_context own) gl mem_store_new) as (d1 & Hnew' & Hwf & Hcs & Hctx & _);
    [apply test_committee_wf|done|done|apply mem_store_new_inv|done|done|done|].
  rewrite Hnew in Hnew'. injection Hnew' as <-.
  destruct (accept_blocks_view (test_context own) _ (λ b, id) d0 test_clock bs d Hwf Hctx Hbs Hacc)
    as (Hwf' & Hctx' & Hsub & _ & _ & Hgr). split_and!; [done| |done].
  destruct (dg_commits _ _ _ Hgr) as (Hc & _ & Hl & Hr & _ & _ & Hcw & Hiw & Hst & _).
  split; rewrite ?Hc, ?Hl, ?Hr, ?Hcw, ?Hiw, ?Hst; try apply Hcs. by intros c ?%not_elem_of_nil.
Qed.

Definition value_or {A} (dflt : A) (o : outcome A) : A := match o with Ok x => x | _ => dflt end.

Definition is_returned {A} (o : outcome A) : bool := match o with Ok _ => true | _ => false end.

Lemma returned {A} (dflt : A) o : is_returned o = true → o = Ok (value_or dflt o).
Proof. by destruct o. Qed.

Definition validator (own : AuthorityIndex) (bs : list VerifiedBlock) : DagState MemStore :=
  value_or (mkDagState (test_context own) ∅ ∅ [] 0 None [] [] [] [] [] [] mem_store_new 0) (test_state own bs).

Definition validator_check (own : AuthorityIndex) (bs : list VerifiedBlock) : bool :=
  is_returned (test_state own bs) && well_formed_check own bs &&
  closed_check (dag_view (validator own bs)) &&
  valid_check test_committee (dag_view (validator own bs)).

(** The validator satisfies everything the theorems ask of a validator. *)
Lemma validator_facts own bs (d := validator own bs) :
  validator_check own bs = true →
  dag_wf d ∧ commits_wf d [] ∧ context d = test_context own ∧
  valid_dag test_committee (dag_view d) ∧ validator_ok d.
Proof.
  unfold validator_check. rewrite !andb_true_iff. intros [[[Hok Hwf] Hcl] Hv].
  unfold d, validator in *. destruct (test_state own bs) as [d'| |] eqn:Hd; try done. simpl in *.
  destruct (test_state_ok own bs d' Hd Hwf) as (Hdwf & Hcs & Hctx).
  destruct (valid_check_sound _ _ Hcl Hv) as [Hvd Hda].
  split_and!; try done. split; [done|by apply closed_check_sound|done].
Qed.

Definition committer_of (d : DagState MemStore) : UniversalCommitter () (DagState MemStore) :=
  value_or (mkUniversalCommitter (context d) d []) (test_committer d).

(** Its committer, with one pipelined leader per round, satisfies what the decisions rely on. *)
Lemma committer_of_ok own bs byz (d := validator own bs) :
  validator_check own bs = true → compatible_check byz (dag_view d) (dag_view d) = true →
  set_stake test_committee byz < 3334 → highest_accepted_round d < 1000000 →
  committer_ok byz (committer_of d) ∧ uc_dag_state (committer_of d) = d ∧
  uc_context (committer_of d) = test_context own.
Proof.
  intros Hv Hcomp%compatible_check_sound Hbyz Hr.
  destruct (validator_facts own bs Hv) as (Hwf & _ & Hctx & Hval & _). clear Hv.
  change (validator own bs) with d in Hwf, Hctx, Hval. clearbody d.
  unfold committer_of, test_committer.
  set (bd := with_pipeline _ _).
  pose proof (build_committers bd (ltac:(done))) as Hb.
  pose proof (λ cm, build_committer_options bd _ cm (ltac:(done)) Hb) as Hcms.
  rewrite Hb. simpl in *.
  split_and!; [|done|done].
  split; simpl; rewrite ?Hctx; try done; try apply test_committee_wf.
  - split; [done|]. apply Hval.
  - unfold U32_MAX. lia.
  - intros cm Hcm. apply Hcms in Hcm as (? & ? & ? & Hwl & Hro). simpl in *.
    rewrite Hctx in *. split_and!; try done. unfold DEFAULT_WAVE_LENGTH, MINIMUM_WAVE_LENGTH in Hro. lia.
  - intros cm round Hcm. eexists. split; [reflexivity|]. change (committee_size test_committee) with 4.
    by apply N.mod_lt.
Qed.

Lemma committer_of_elections d1 d2 : same_election (committer_of d1) (committer_of d2).
Proof.
  unfold same_election, committer_of, test_committer. rewrite !build_committers by done. simpl.
  repeat constructor.
Qed.

(** ** Verified blocks *)

Definition block_valid_prop (c : Committee) (genesis : gset BlockRef) (b : Block) : Prop :=
  block_epoch b = epoch c ∧ 0 < block_round b ∧ block_author b < committee_size c ∧
  (br_author <$> head (block_ancestors b)) = Some (block_author b) ∧
  NoDup (br_author <$> block_ancestors b) ∧
  Forall (λ a, br_author a < committee_size c ∧ br_round a < block_round b ∧
    (br_round a ≠ GENESIS_ROUND ∨ a ∈ genesis)) (block_ancestors b) ∧
  reached_quorum c (set_stake c (parent_authors (block_round b) (block_ancestors b))) = true.

#[export] Instance block_valid_prop_dec c genesis b : base.Decision (block_valid_prop c genesis b).
Proof. unfold block_valid_prop. apply _. Defined.

Lemma block_valid_prop_sound c genesis b : block_valid_prop c genesis b → block_valid c genesis b.
Proof.
  intros (? & ? & ? & Hhd & Hnd & Hall & Hq). rewrite Forall_forall in Hall.
  split; try done. split; try done; try (intros a Ha; by apply Hall).
  - destruct (block_ancestors b) as [|a rest]; simplify_eq/=; eauto.
  - intros a Ha ?. by destruct (Hall a Ha) as (_ & _ & [?|?]).
Qed.

Definition verified_check (c : Committee) (genesis : gset BlockRef) (V : dag) : bool :=
  bool_decide (map_Forall (λ r b, br_round r = 0 ∨ block_valid_prop c genesis (inner (block b))) V).

Lemma verified_check_sound c genesis V r b :
  verified_check c genesis V = true → V !! r = Some b → 0 < br_round r →
  block_valid c genesis (inner (block b)).
Proof.
  unfold verified_check. rewrite bool_decide_eq_true. intros Hall Hb Hr.
  apply block_valid_prop_sound. destruct (Hall r b Hb); [lia|done].
Qed.
