(* ===== verification/Witnesses.v ===== *)
(** The theorems at concrete inputs: the network of [Fixtures], with four authorities, an
    in-memory store and rounds of blocks by everybody, satisfies their hypotheses. *)

From stdpp Require Import base strings numbers sorting gmap sets relations list.
From S2P Require Import Prelude Committee Block Dag StakeAggregator ThresholdClock Commit BlockVerifier Store DagState DagStateFacts Recovery BlockManager BlockManagerFacts RejectedBlocks DagReader BaseCommitter Votes Decisions UniversalCommitter Pipeline Agreement Sequence Linearizer Linearization TotalOrder Fixtures Counterexamples Checks.

Open Scope N_scope.

(** ** Two validators

    One has four rounds of blocks, the other six; authority 3 is byzantine. *)

Definition early : DagState MemStore := validator 0 (test_blocks 4).
Definition late : DagState MemStore := validator 1 (test_blocks 6).
Definition byzantine : gset AuthorityIndex := {[3]}.
Definition start : Slot := mkSlot 0 0.

Lemma early_check : validator_check 0 (test_blocks 4) = true.
Proof. vm_compute. reflexivity. Qed.

Lemma late_check : validator_check 1 (test_blocks 6) = true.
Proof. vm_compute. reflexivity. Qed.

Lemma early_facts :
  dag_wf early ∧ commits_wf early [] ∧ context early = test_context 0 ∧
  valid_dag test_committee (dag_view early) ∧ validator_ok early.
Proof. exact (validator_facts 0 (test_blocks 4) early_check). Qed.

Lemma late_facts :
  dag_wf late ∧ commits_wf late [] ∧ context late = test_context 1 ∧
  valid_dag test_committee (dag_view late) ∧ validator_ok late.
Proof. exact (validator_facts 1 (test_blocks 6) late_check). Qed.

Lemma early_committer :
  committer_ok byzantine (committer_of early) ∧ uc_dag_state (committer_of early) = early ∧
  uc_context (committer_of early) = test_context 0.
Proof. apply committer_of_ok; [exact early_check|vm_compute; reflexivity..]. Qed.

Lemma late_committer :
  committer_ok byzantine (committer_of late) ∧ uc_dag_state (committer_of late) = late ∧
  uc_context (committer_of late) = test_context 1.
Proof. apply committer_of_ok; [exact late_check|vm_compute; reflexivity..]. Qed.

Lemma early_late_compatible : compatible byzantine (dag_view early) (dag_view late).
Proof. apply compatible_check_sound. vm_compute. reflexivity. Qed.

Lemma early_late_commits : common_commits early late [].
Proof.
  destruct early_facts as (_ & Hcs1 & Hctx1 & _), late_facts as (_ & Hcs2 & Hctx2 & _).
  split; [by rewrite Hctx1, Hctx2|exact Hcs1|exact Hcs2|by intros i c c' ?|].
  apply early_late_compatible.
Qed.

(** What they decide. *)
Definition decided (d : DagState MemStore) (s : Slot) : list DecidedLeader :=
  value_or [] (try_decide (committer_of d) s).

Lemma early_decides : try_decide (committer_of early) start = Ok (decided early start).
Proof. apply returned. vm_compute. reflexivity. Qed.

Lemma late_decides : try_decide (committer_of late) start = Ok (decided late start).
Proof. apply returned. vm_compute. reflexivity. Qed.

(** The commits of the decided leaders. *)
Definition committed_by (d : DagState MemStore) : list VerifiedBlock :=
  omap into_committed_block (decided d start).

Definition linearized (d : DagState MemStore) : list CommittedSubDag * DagState MemStore :=
  value_or ([], d) (handle_commit d (committed_by d)).

Lemma early_linearizes : handle_commit early (committed_by early) = Ok (linearized early).
Proof. apply returned. vm_compute. reflexivity. Qed.

Lemma late_linearizes : handle_commit late (committed_by late) = Ok (linearized late).
Proof. apply returned. vm_compute. reflexivity. Qed.

Definition slots_ahead_check (d : DagState MemStore) : bool :=
  bool_decide (NoDup (decision_slots (committer_of d) start)) &&
  bool_decide (last_commit_round d = 0) &&
  forallb (λ s, (slot_round s =? GENESIS_ROUND) ||
    match last_committed_rounds d !! N.to_nat (slot_authority s) with
    | Some lr => lr <? slot_round s
    | None => false
    end) (decision_slots (committer_of d) start).

Lemma slots_ahead_check_sound d :
  uc_dag_state (committer_of d) = d → slots_ahead_check d = true → slots_ahead (committer_of d) start.
Proof.
  unfold slots_ahead_check, slots_ahead. rewrite !andb_true_iff, !bool_decide_eq_true, forallb_forall.
  intros -> [[Hnd Hr] Hall]. rewrite Hr. split_and!; [done..|]. intros s Hs Hg.
  apply list_elem_of_In, Hall in Hs. apply orb_true_iff in Hs as [?%N.eqb_eq|Hs]; [done|].
  destruct (last_committed_rounds d !! N.to_nat (slot_authority s)) as [lr|]; [|done].
  exists lr. split; [done|by apply N.ltb_lt].
Qed.

Lemma early_slots : slots_ahead (committer_of early) start.
Proof. apply slots_ahead_check_sound; [apply early_committer|vm_compute; reflexivity]. Qed.

Lemma late_slots : slots_ahead (committer_of late) start.
Proof. apply slots_ahead_check_sound; [apply late_committer|vm_compute; reflexivity]. Qed.

Lemma total_order_witness :
  fst (linearized early) `prefix_of` fst (linearized late) ∨
  fst (linearized late) `prefix_of` fst (linearized early).
Proof.
  destruct early_committer as (Hok1 & Hd1 & Hc1), late_committer as (Hok2 & Hd2 & Hc2).
  apply (total_order byzantine (committer_of early) (committer_of late) start []
    (decided early start) (decided late start) (fst (linearized early)) (fst (linearized late))
    (snd (linearized early)) (snd (linearized late))).
  - exact test_serializes.
  - exact Hok1.
  - exact Hok2.
  - exact (committer_of_elections early late).
  - rewrite Hd1, Hd2. exact early_late_compatible.
  - rewrite Hc1, Hc2. reflexivity.
  - rewrite Hd1. apply early_facts.
  - rewrite Hd2. apply late_facts.
  - rewrite Hd1, Hd2. exact early_late_commits.
  - exact early_slots.
  - exact late_slots.
  - vm_compute. reflexivity.
  - vm_compute. reflexivity.
  - exact early_decides.
  - exact late_decides.
  - rewrite Hd1, <-surjective_pairing. exact early_linearizes.
  - rewrite Hd2, <-surjective_pairing. exact late_linearizes.
Defined.

Lemma early_behind s : dr_commit_round (uc_dag_state (committer_of early)) ≤ slot_round s.
Proof.
  destruct early_committer as (_ & -> & _). assert (dr_commit_round early = 0) as -> by (vm_compute; reflexivity). lia.
Qed.

Lemma late_behind s : dr_commit_round (uc_dag_state (committer_of late)) ≤ slot_round s.
Proof.
  destruct late_committer as (_ & -> & _). assert (dr_commit_round late = 0) as -> by (vm_compute; reflexivity). lia.
Qed.

Lemma committers_committee :
  committee (uc_context (committer_of early)) = committee (uc_context (committer_of late)).
Proof. destruct early_committer as (_ & _ & ->), late_committer as (_ & _ & ->). reflexivity. Qed.

Lemma committers_compatible :
  compatible byzantine (dr_view (uc_dag_state (committer_of early))) (dr_view (uc_dag_state (committer_of late))).
Proof. destruct early_committer as (_ & -> & _), late_committer as (_ & -> & _). exact early_late_compatible. Qed.

Lemma try_decide_agreement_witness :
  decided early start `prefix_of` decided late start ∨ decided late start `prefix_of` decided early start.
Proof.
  apply (try_decide_agreement byzantine (committer_of early) (committer_of late) start).
  - apply early_committer.
  - apply late_committer.
  - exact (committer_of_elections early late).
  - exact committers_committee.
  - exact committers_compatible.
  - exact (early_behind start).
  - exact (late_behind start).
  - exact early_decides.
  - exact late_decides.
Defined.

(** The first slot that both decide, and what the first validator continues with. *)
Definition first_slot : Slot := mkSlot 1 1.

Definition decided_first : DecidedLeader := default (DLSkip start) (head (decided late start)).

Lemma late_first : decided late start = [] ++ decided_first :: tail (decided late start).
Proof.
  assert (Hlen : bool_decide (decided late start = []) = false) by (vm_compute; reflexivity).
  apply bool_decide_eq_false in Hlen. unfold decided_first. by destruct (decided late start).
Qed.

Lemma try_decide_resume_witness :
  decided early first_slot `prefix_of` tail (decided late start) ∨
  tail (decided late start) `prefix_of` decided early first_slot.
Proof.
  apply (try_decide_resume byzantine (committer_of early) (committer_of late) start first_slot
    (decided early first_slot) [] decided_first).
  - apply early_committer.
  - apply late_committer.
  - exact (committer_of_elections early late).
  - exact committers_committee.
  - exact committers_compatible.
  - exact (early_behind first_slot).
  - exact (late_behind start).
  - apply late_slots.
  - apply returned. vm_compute. reflexivity.
  - rewrite <-late_first. exact late_decides.
  - vm_compute. reflexivity.
Defined.

Lemma try_decide_total_witness :
  let V := dr_view (uc_dag_state (committer_of early)) in
  ∃ l, try_decide (committer_of early) start = Ok l ∧
    (decided_leader_slot <$> l) `prefix_of`
      filter (λ s, slot_round s ≠ GENESIS_ROUND) (decision_slots (committer_of early) start) ∧
    ∀ b, DLCommit b ∈ l →
      V !! reference b = Some b ∧
      ∃ C, V !! reference C = Some C ∧ vb_round C = vb_round b + 2 ∧
        certificate (committee (uc_context (committer_of early))) V b C = true.
Proof.
  apply (try_decide_total byzantine (committer_of early) start).
  - apply early_committer.
  - exact (early_behind start).
Defined.

(** ** Decisions about one slot *)

(** The committer of the waves that start in round 1. *)
Definition first_committer : BaseCommitter () (DagState MemStore) :=
  mkBaseCommitter (test_context 0) () early (mkBaseCommitterOptions 3 0 1).

Lemma early_unique l1 l2 slot :
  dag_view early !! reference l1 = Some l1 → dag_view early !! reference l2 = Some l2 →
  vb_slot l1 = slot → vb_slot l2 = slot → l1 = l2.
Proof.
  assert (Hc : compatible ∅ (dag_view early) (dag_view early)).
  { apply compatible_check_sound. vm_compute. reflexivity. }
  intros H1 H2 Hs1 Hs2. unfold vb_slot, slot_of_ref in *. subst slot. injection Hs2 as Hr Ha.
  exact (cp_honest _ _ _ Hc l1 l2 H1 H2 (eq_sym Ha) (not_elem_of_empty _) (eq_sym Hr)).
Qed.

Lemma first_committer_ok :
  dr_inv early ∧ committee_wf (committee (bc_context first_committer)) ∧
  dr_committee early = committee (bc_context first_committer) ∧
  options_ok first_committer ∧ leader_slot_ok first_committer first_slot.
Proof.
  destruct early_facts as (Hwf & _ & Hctx & Hval & _). split_and!.
  - split; [exact Hwf|apply Hval].
  - exact test_committee_wf.
  - change (committee (context early) = test_committee). rewrite Hctx. reflexivity.
  - unfold options_ok. split_and!; reflexivity || discriminate.
  - unfold leader_slot_ok. split_and!; [reflexivity|reflexivity|].
    change (last_commit_round early ≤ 1).
    assert (last_commit_round early = 0) as -> by (vm_compute; reflexivity). discriminate.
Qed.


(** A block of the fourth round, as an anchor. *)
Definition anchor_block : VerifiedBlock := default leader_block (test_blocks 4 !! 12%nat).

Lemma anchor_in_early : dag_view early !! reference anchor_block = Some anchor_block.
Proof. vm_compute. reflexivity. Qed.

Lemma decide_leader_from_anchor_rule_witness :
  ∃ st, decide_leader_from_anchor first_committer anchor_block first_slot = Ok st ∧ is_decided st = true.
Proof.
  destruct first_committer_ok as (Hinv & Hc & Hcc & Ho & Hs).
  destruct (decide_leader_from_anchor_rule first_committer first_slot anchor_block Hinv Hc Hcc Ho Hs)
    as (st & Hst & Hdec & _).
  - done.
  - exact anchor_in_early.
  - intros l1 l2 H1 H2 Hs1 Hs2 _ _. exact (early_unique l1 l2 first_slot H1 H2 Hs1 Hs2).
  - exists st. split; [exact Hst|exact Hdec].
Defined.

Lemma is_certificate_cached_witness :
  ∃ all_votes, is_certificate first_committer anchor_block leader_block ∅ =
      Ok (certificate test_committee (dag_view early) leader_block anchor_block, all_votes) ∧
    cache_sound first_committer leader_block all_votes.
Proof.
  destruct first_committer_ok as (Hinv & Hc & Hcc & _).
  apply (is_certificate_cached first_committer anchor_block leader_block ∅ Hinv Hc Hcc).
  - exact anchor_in_early.
  - intros r v. rewrite lookup_empty. discriminate.
Defined.

Lemma get_leaders_pipelined_witness :
  let b := with_pipeline true (with_number_of_leaders 2 (universal_committer_builder_new (test_context 0) () early)) in
  ∃ uc, universal_committer_build b = Ok uc ∧ get_leaders uc 7 = scheduled_leaders b 7.
Proof.
  intros b. eexists. split; [exact (build_committers b ltac:(done))|].
  apply (get_leaders_pipelined b _ 7).
  - done.
  - done.
  - done.
  - done.
  - exact (build_committers b ltac:(done)).
Defined.

(** ** Commits *)

Lemma early_leaders : leaders_ok early (committed_by early).
Proof.
  destruct early_committer as (Hok & Hd & _).
  pose proof (try_decide_leaders byzantine (committer_of early) start (decided early start) Hok
    early_slots early_decides) as Hlo. rewrite Hd in Hlo. exact Hlo.
Qed.

Lemma no_commits_chained : chained [].
Proof. by intros i c c' ?. Qed.

Lemma collect_sub_dag_and_commit_spec_witness :
  ∃ sd c, collect_sub_dag_and_commit early anchor_block = Ok (sd, c) ∧ sub_dag_ok early anchor_block sd c.
Proof.
  destruct early_facts as (Hwf & _ & _ & _ & Hok).
  apply (collect_sub_dag_and_commit_spec early anchor_block).
  - exact test_serializes.
  - exact Hwf.
  - exact (vo_closed _ Hok).
  - exact (vo_distinct _ Hok).
  - exact anchor_in_early.
  - vm_compute. reflexivity.
Defined.

Lemma handle_commit_spec_witness :
  ∃ sds d' new, handle_commit early (committed_by early) = Ok (sds, d') ∧
    committed_leaders early [] (committed_by early) sds d' new.
Proof.
  destruct early_facts as (Hwf & Hcs & _ & _ & Hok).
  destruct (handle_commit_spec early [] (committed_by early)) as (sds & d' & new & Hh & Hc & _).
  - exact test_serializes.
  - exact Hwf.
  - exact (vo_closed _ Hok).
  - exact (vo_distinct _ Hok).
  - exact Hcs.
  - exact no_commits_chained.
  - vm_compute. reflexivity.
  - exact early_leaders.
  - exists sds, d', new. split; [exact Hh|exact Hc].
Defined.

Lemma handle_commit_recoverable_witness :
  let '(sds, d') := linearized early in
  ∃ new, Forall2 (λ sd c, commits_of (store d') !! (commit_index c, tc_digest c) = Some c ∧
      load_committed_subdag_from_store (store d') c = Ok sd) sds new.
Proof.
  destruct early_facts as (Hwf & Hcs & _ & _ & Hok).
  pose proof early_linearizes as Hlin. destruct (linearized early) as [sds d'].
  apply (handle_commit_recoverable early [] (committed_by early) sds d').
  - exact test_serializes.
  - exact Hwf.
  - exact (vo_closed _ Hok).
  - exact (vo_distinct _ Hok).
  - exact Hcs.
  - exact no_commits_chained.
  - vm_compute. reflexivity.
  - exact early_leaders.
  - exact Hlin.
Defined.

Lemma restart_after_flush_witness :
  ∃ d1 d2, flush early = Ok d1 ∧ dag_state_new (context early) (store d1) = Ok d2 ∧
    dag_view d2 = dag_view early.
Proof.
  destruct early_facts as (Hwf & Hcs & _).
  destruct (restart_after_flush early [] Hwf Hcs) as (d1 & d2 & Hf & Hn & _ & _ & Hv & _).
  exists d1, d2. split; [exact Hf|split; [exact Hn|exact Hv]].
Defined.

Lemma test_genesis_blocks own : genesis_blocks (test_context own) = Ok test_genesis.
Proof. reflexivity. Qed.

(** A commit that skips an index. *)
Definition gap_commit : TrustedCommit :=
  new_trusted (commit_new 7 0 0 (reference anchor_block) [reference anchor_block]) [].

Lemma add_commit_spec_witness : ∃ msg, add_commit early gap_commit = Panic msg.
Proof.
  destruct early_facts as (Hwf & Hcs & _).
  destruct (add_commit_spec early [] gap_commit Hwf Hcs) as (_ & _ & Hgap).
  apply Hgap. left. reflexivity.
Defined.

(** ** Reads and updates of the DAG *)

Lemma dag_reads_view_witness :
  let refs := [reference anchor_block; reference leader_block; mkBlockRef 9 2 17] in
  get_blocks early refs = Ok ((λ r, dag_view early !! r) <$> refs) ∧
  contains_blocks early refs = Ok ((λ r, bool_decide (is_Some (dag_view early !! r))) <$> refs).
Proof.
  intros refs. destruct early_facts as (Hwf & _ & Hctx & _).
  apply (dag_reads_view early refs Hwf). rewrite Hctx.
  refine (bool_decide_unpack _ _). vm_compute. exact I.
Defined.

Lemma uncommitted_reads_view_witness :
  ∃ at_slot at_round,
    get_uncommitted_blocks_at_slot early first_slot = Ok at_slot ∧
    get_uncommitted_blocks_at_round early 2 = Ok at_round ∧
    ∀ b, b ∈ at_round ↔ dag_view early !! reference b = Some b ∧ vb_round b = 2.
Proof.
  destruct early_facts as (Hwf & _).
  assert (Hr : last_commit_round early = 0) by (vm_compute; reflexivity).
  destruct (uncommitted_reads_view early first_slot 2 Hwf) as (at_slot & at_round & Hs & _ & _ & Hrd & _ & Hin).
  - rewrite Hr. discriminate.
  - discriminate.
  - rewrite Hr. reflexivity.
  - reflexivity.
  - exists at_slot, at_round. split; [exact Hs|split; [exact Hrd|exact Hin]].
Defined.

Lemma ancestors_at_round_exact_witness :
  ∃ l, ancestors_at_round early anchor_block 1 = Ok l ∧
    ∀ b, b ∈ l ↔ dag_view early !! reference b = Some b ∧ vb_round b = 1 ∧
      ∃ a, a ∈ vb_ancestors anchor_block ∧ history (dag_view early) a (reference b).
Proof.
  destruct early_facts as (Hwf & _ & _ & _ & Hok).
  exact (ancestors_at_round_exact early anchor_block 1 Hwf (vo_closed _ Hok) anchor_in_early).
Defined.

(** A block of the fifth round, which the first validator does not have. *)
Definition new_block : VerifiedBlock := default leader_block (test_blocks 5 !! 17%nat).

Lemma accept_block_spec_witness :
  ∃ d', accept_block early test_clock new_block = Ok d' ∧
    dag_view d' = <[reference new_block := new_block]> (dag_view early).
Proof.
  destruct early_facts as (Hwf & _ & Hctx & _).
  destruct (accept_block_spec early test_clock new_block Hwf) as [_ Hnew].
  - unfold acceptable. rewrite Hctx. refine (bool_decide_unpack _ _). vm_compute. exact I.
  - destruct Hnew as [_ Hacc]; [vm_compute; reflexivity|].
    destruct Hacc as (d' & Hd' & _ & Hv & _); [vm_compute; discriminate| |].
    + intros [Hown _]. rewrite Hctx in Hown. vm_compute in Hown. discriminate.
    + exists d'. split; [exact Hd'|exact Hv].
Defined.

Lemma flush_spec_witness :
  ∃ d', flush early = Ok d' ∧ dag_view d' = dag_view early ∧ blocks_to_write d' = [].
Proof.
  destruct early_facts as (Hwf & _).
  destruct (flush_spec early Hwf) as (d' & Hf & _ & Hv & _ & Hb & _).
  exists d'. split; [exact Hf|split; [exact Hv|exact Hb]].
Defined.

(** A state with nothing to write but a commit info, with leader scoring on. *)
Definition info_only : DagState MemStore :=
  mkDagState (mkContext 0 test_committee 500 50 true 20) ∅ ∅ [] 0 None [] [] [] [] []
    [(mkCommitRef 1 0, mkCommitInfo [0; 0; 0; 0] (mkReputationScores [] (mkCommitRange 1 2)))] mem_store_new 500.

Lemma flush_drops_commit_info_witness :
  commit_info_to_write info_only ≠ [] ∧
  ∃ d', flush info_only = Ok d' ∧ commit_info_to_write d' = [] ∧ store d' = store info_only.
Proof.
  split; [discriminate|]. apply (flush_drops_commit_info info_only).
  - reflexivity.
  - reflexivity.
  - reflexivity.
Defined.

Lemma verified_dag_valid_witness :
  valid_dag (committee (context early)) (dag_view early) ∧ validator_ok early.
Proof.
  destruct early_facts as (Hwf & _ & Hctx & _ & Hok).
  apply (verified_dag_valid early (list_to_set (reference <$> test_genesis)) Hwf (vo_closed _ Hok)).
  intros r b Hb Hr. rewrite Hctx. revert Hb Hr. apply verified_check_sound. vm_compute. reflexivity.
Defined.

(** ** The block manager *)

(** A validator that has just started, and blocks that arrive children first. *)
Definition started : DagState MemStore := validator 3 [].

Lemma started_check : validator_check 3 [] = true.
Proof. vm_compute. reflexivity. Qed.

Lemma started_facts :
  dag_wf started ∧ commits_wf started [] ∧ context started = test_context 3 ∧
  valid_dag test_committee (dag_view started) ∧ validator_ok started.
Proof. exact (validator_facts 3 [] started_check). Qed.

Definition circulating (b : VerifiedBlock) : Prop := b ∈ test_blocks 2.

Definition time_of (r : BlockRef) : BlockTimestampMs := br_round r * 1000.

Definition circulating_check : bool :=
  bool_decide (Forall (λ b, 0 < vb_round b ∧ vb_author b < 4 ∧ ref_in_bounds (reference b) ∧
    vb_timestamp_ms b = time_of (reference b) ∧ vb_timestamp_ms b ≤ test_clock ∧
    Forall (λ a, br_author a < 4 ∧ br_round a < vb_round b ∧ time_of a ≤ vb_timestamp_ms b) (vb_ancestors b) ∧
    Forall (λ b', (reference b ≠ reference b' ∨ b = b') ∧ (vb_slot b ≠ vb_slot b' ∨ b = b')) (test_blocks 2))
    (test_blocks 2)).

Lemma circulating_ok : universe_ok (test_context 3) test_clock circulating time_of.
Proof.
  assert (Hc : circulating_check = true) by (vm_compute; reflexivity).
  unfold circulating_check in Hc. rewrite bool_decide_eq_true, Forall_forall in Hc.
  unfold circulating. generalize dependent (test_blocks 2). intros bs Hc.
  assert (Hanc : ∀ b a, b ∈ bs → a ∈ vb_ancestors b → br_author a < 4 ∧ br_round a < vb_round b ∧
    time_of a ≤ vb_timestamp_ms b).
  { intros b a Hb Ha. destruct (Hc b Hb) as (_ & _ & _ & _ & _ & Hf & _). rewrite Forall_forall in Hf. auto. }
  assert (Huniq : ∀ b b', b ∈ bs → b' ∈ bs → (reference b ≠ reference b' ∨ b = b') ∧ (vb_slot b ≠ vb_slot b' ∨ b = b')).
  { intros b b' Hb Hb'. destruct (Hc b Hb) as (_ & _ & _ & _ & _ & _ & Hf). rewrite Forall_forall in Hf. auto. }
  split.
  - intros b Hb. destruct (Hc b Hb) as (? & ? & ? & _). auto.
  - intros b b' Hb Hb' Heq. by destruct (Huniq b b' Hb Hb') as [[?|?] _].
  - intros b Hb. destruct (Hc b Hb) as (_ & _ & _ & ? & ? & _). auto.
  - intros b a Hb Ha. by apply (Hanc b a).
  - intros b a Hb Ha. by apply (Hanc b a).
  - intros b a Hb Ha. by apply (Hanc b a).
  - intros b b' Hb Hb' _ Heq. by destruct (Huniq b b' Hb Hb') as [_ [?|?]].
Qed.

Lemma started_system :
  system_ok (test_context 3) circulating time_of started (block_manager_new (test_context 3)).
Proof.
  destruct started_facts as (Hwf & _ & Hctx & _ & Hok).
  assert (Hv : bool_decide (map_Forall (λ r b, br_round r = 0 ∧ vb_timestamp_ms b = time_of r)
    (dag_view started)) = true) by (vm_compute; reflexivity).
  rewrite bool_decide_eq_true in Hv. split.
  - split; [exact Hwf|exact Hctx| |].
    + intros r b Hb Hr. destruct (Hv r b Hb) as [Hz _]. lia.
    + intros r b Hb. by apply (Hv r b Hb).
  - apply manager_new_wf; [exact time_of|exact Hctx].
  - exact (vo_closed _ Hok).
Qed.

Lemma try_accept_blocks_complete_witness :
  ∃ bm d accepted missing,
    try_accept_blocks test_clock (block_manager_new (test_context 3)) started (rev (test_blocks 2)) =
      Ok (bm, d, accepted, missing) ∧
    system_ok (test_context 3) circulating time_of d bm ∧ newly_accepted started d accepted.
Proof.
  destruct (try_accept_blocks_complete (test_context 3) test_clock circulating time_of started
    (block_manager_new (test_context 3)) (rev (test_blocks 2)) circulating_ok started_system)
    as (bm & d & accepted & missing & Ha & Hs & Hn & _).
  - apply Forall_forall. intros b Hb. unfold circulating. rewrite elem_of_rev in Hb. exact Hb.
  - exists bm, d, accepted, missing. split; [exact Ha|split; [exact Hs|exact Hn]].
Defined.

(** What a call returns on the blocks that arrive first. *)
Definition accepted_first :
    BlockManager * DagState MemStore * list VerifiedBlock * gset BlockRef :=
  value_or (block_manager_new (test_context 3), started, [], ∅)
    (try_accept_blocks test_clock (block_manager_new (test_context 3)) started (on_backdated :: backdated :: rev round_one ++ tail round_two)).

Lemma try_accept_blocks_safe_witness :
  let '(bm, d, accepted, missing) := accepted_first in
  dag_safe (test_context 3) d ∧ manager_blocks (well_formed (test_context 3)) bm ∧ dag_view started ⊆ dag_view d.
Proof.
  destruct started_facts as (Hwf & _ & Hctx & _ & Hok).
  assert (Hret : try_accept_blocks test_clock (block_manager_new (test_context 3)) started
    (on_backdated :: backdated :: rev round_one ++ tail round_two) = Ok accepted_first).
  { apply returned. vm_compute. reflexivity. }
  destruct accepted_first as [[[bm d] accepted] missing].
  apply (try_accept_blocks_safe (test_context 3) test_clock (block_manager_new (test_context 3)) started
    (on_backdated :: backdated :: rev round_one ++ tail round_two) bm d accepted missing).
  - split; [exact Hwf|exact Hctx|exact (vo_closed _ Hok)].
  - intros r sb Hr. simpl in Hr. rewrite lookup_empty in Hr. discriminate.
  - apply well_formed_check_sound. vm_compute. reflexivity.
  - exact Hret.
Defined.

(** The block of authority 0 on top of its backdated one waits for it and for the block of
    authority 1. *)
Definition before_rejected : DagState MemStore := validator 3 (round_one ++ tail round_two).
Definition honest_parent : VerifiedBlock := default leader_block (head round_two).

Definition on_rejected_check (d : DagState MemStore) (a b c : VerifiedBlock) : bool :=
  let V := dag_view d in
  let earlier x p := match V !! p with Some y => vb_timestamp_ms y <=? vb_timestamp_ms x | None => false end in
  bool_decide (reference a ≠ reference b ∧ reference c ≠ reference a ∧ reference c ≠ reference b ∧
    reference a ∈ vb_ancestors c ∧ reference b ∈ vb_ancestors c ∧
    Forall (λ x, dag_view d !! reference x = None ∧ vb_author x < committee_size (committee (context d))) [a; b; c] ∧
    Forall (λ r, r = reference a ∨ r = reference b ∨ is_Some (V !! r)) (vb_ancestors c) ∧
    Forall (λ r, is_Some (V !! r)) (vb_ancestors a) ∧
    Exists (λ r, vb_timestamp_ms a < from_option vb_timestamp_ms 0 (V !! r)) (vb_ancestors a) ∧
    Forall (λ r, earlier b r = true) (vb_ancestors b)).

Lemma on_rejected_check_sound d a b c :
  on_rejected_check d a b c = true → on_rejected d (block_manager_new (context d)) a b c.
Proof.
  unfold on_rejected_check. rewrite bool_decide_eq_true. rewrite !Forall_forall, Exists_exists.
  intros (Hab & Hca & Hcb & Hina & Hinb & Hnew & Hoth & Hall & (r & Hr & Hlate) & Hfol). split; try done.
  - intros x Hx. by destruct (Hnew x Hx).
  - intros x Hx. by destruct (Hnew x Hx).
  - split; [exact Hall|]. destruct (Hall r Hr) as [y Hy]. rewrite Hy in Hlate. by exists r, y.
  - intros p Hp. specialize (Hfol p Hp). cbn beta zeta in Hfol. destruct (dag_view d !! p) as [y|]; [|done].
    exists y. split; [done|]. by apply N.leb_le.
Qed.

(** All the blocks pass [verify]. *)
Lemma rejected_ancestor_panics_witness :
  (v ← test_verifier; mapM (λ b, verify v (block b)) [on_backdated; backdated; honest_parent]) = Ok (replicate 3 (RustOk ())) ∧
  ∃ bm1 bm2,
    try_accept_blocks test_clock (block_manager_new (context before_rejected)) before_rejected [on_backdated] =
      Ok (bm1, before_rejected, [], {[reference backdated; reference honest_parent]}) ∧
    try_accept_blocks test_clock bm1 before_rejected [backdated] = Ok (bm2, before_rejected, [], ∅) ∧
    unknown bm2 (reference backdated) ∧ reference backdated ∉ missing_blocks bm2 ∧
    try_accept_blocks test_clock bm2 before_rejected [honest_parent] =
      Panic "Unsuspended block has a missing ancestor! Ancestor not found in DagState".
Proof.
  split; [vm_compute; reflexivity|].
  destruct (validator_facts 3 (round_one ++ tail round_two)) as (Hwf & _ & Hctx & _ & Hok); [vm_compute; reflexivity|].
  apply (rejected_ancestor_panics test_clock (test_context 3) before_rejected (block_manager_new (context before_rejected))
    backdated honest_parent on_backdated).
  - split; [exact Hwf|exact Hctx|exact (vo_closed _ Hok)].
  - reflexivity.
  - apply on_rejected_check_sound. vm_compute. reflexivity.
Defined.

(** ** Verification, votes and storage *)

Lemma verify_outcome_witness :
  ∃ self r, test_verifier = Ok self ∧ verify self (block anchor_block) = Ok r ∧
    (r = RustOk () ↔
      block_valid test_committee (bv_genesis self) (inner (block anchor_block)) ∧
      verify_signature (block anchor_block) (bv_context self) = Ok (RustOk ()) ∧
      verify_batch (data <$> block_transactions (inner (block anchor_block))) = RustOk ()).
Proof.
  destruct test_verifier as [self| |] eqn:Hs; [|vm_compute in Hs; discriminate..].
  assert (Hc : committee (bv_context self) = test_committee).
  { vm_compute in Hs. injection Hs as <-. reflexivity. }
  destruct (verify_outcome self (block anchor_block)) as (r & Hr & Hiff).
  - rewrite Hc. exact test_committee_wf.
  - exists self, r. rewrite Hc in Hiff. split; [reflexivity|split; [exact Hr|exact Hiff]].
Defined.

Lemma committee_new_quorums_witness :
  ∃ c, committee_new 7 (authorities test_committee) = Ok c ∧ epoch c = 7 ∧
    ∀ s, reached_validity c (set_stake c s) = true → ∃ a, a ∈ s ∧ a < committee_size c.
Proof.
  destruct (committee_new_quorums 7 (authorities test_committee)) as (c & Hc & _ & He & Hq).
  - discriminate.
  - reflexivity.
  - reflexivity.
  - reflexivity.
  - exists c. split; [exact Hc|split; [exact He|]]. intros s Hs.
    assert (Hv : set_stake c ∅ < validity_threshold c).
    { vm_compute in Hc. injection Hc as <-. vm_compute. reflexivity. }
    destruct (proj2 (proj2 (Hq ∅ Hv)) s Hs) as (a & Ha & _ & Hlt). exists a. split; [exact Ha|exact Hlt].
Defined.

Lemma aggregator_counts_once_witness :
  ∃ agg : StakeAggregator QuorumThreshold, add_votes test_committee aggregator_new [2; 0; 2; 1; 0] = Ok agg ∧
    votes agg = {[0; 1; 2]} ∧ agg_stake agg = 7500 ∧ reached_threshold agg test_committee = true.
Proof.
  destruct (aggregator_counts_once (T := QuorumThreshold) test_committee [2; 0; 2; 1; 0] test_committee_wf)
    as [(agg & Ha & Hv & Hs & Ht) _].
  - intros v Hv. repeat (apply elem_of_cons in Hv as [->|Hv]; [reflexivity|]). inversion Hv.
  - exists agg. rewrite Hv, Hs, Ht. split_and!; [exact Ha|vm_compute; reflexivity..].
Defined.

Lemma clock_add_blocks_spec_witness :
  ∃ tc, clock_add_blocks test_committee (clock_new 1) (reference <$> round_one) = Ok (Some 2, tc) ∧
    clock_wf test_committee 1 (reference <$> round_one) tc.
Proof.
  destruct (clock_add_blocks_spec test_committee 1 [] (clock_new 1) (reference <$> round_one) test_committee_wf)
    as (res & tc & Hadd & Hwf & _).
  - apply clock_new_wf. exact test_committee_wf.
  - intros b Hb. revert b Hb. apply Forall_forall.
    refine (bool_decide_unpack _ _). vm_compute. exact I.
  - exists tc. split; [|exact Hwf]. rewrite Hadd. vm_compute in Hadd. injection Hadd as <- _. reflexivity.
Defined.

Lemma mem_store_refines_witness :
  ∃ s, mem_write mem_store_new (mkWriteBatch round_one [] []) = RustOk s ∧
    ∀ refs, mem_read_blocks s refs = RustOk ((λ r, insert_blocks round_one ∅ !! r) <$> refs).
Proof.
  destruct (mem_store_refines mem_store_new (mkWriteBatch round_one [] [])) as (s & Hw & _ & [Hr _] & _).
  - apply mem_store_new_inv.
  - refine (bool_decide_unpack _ _). vm_compute. exact I.
  - exists s. split; [exact Hw|exact Hr].
Defined.
