(* ===== verification/ScheduleWitnesses.v ===== *)
(** The hypotheses of the theorems on transactions, on the commit observer, and on leader
    scoring and scheduling, satisfied on the concrete network of [Fixtures]. *)

From stdpp Require Import base strings numbers sorting gmap sets relations list.
From S2P Require Import Prelude Committee Block Dag StakeAggregator Commit BlockVerifier Store DagState DagStateFacts Recovery DagReader BaseCommitter UniversalCommitter Linearizer Linearization TotalOrder TransactionConsumer LeaderScoring LeaderScoringFacts LeaderSchedule LeaderScheduleFacts CommitObserver Fixtures Counterexamples Checks Witnesses.

Open Scope N_scope.

(** ** Transactions *)

Definition tx_of_size (n : nat) : Transaction := mkTransaction (replicate n Byte.x00).

(** Two batches wait for blocks of ten bytes and three transactions. *)
Definition waiting : TransactionConsumer :=
  transaction_consumer_new [mkTransactionsGuard [tx_of_size 4; tx_of_size 7; tx_of_size 5] 0;
    mkTransactionsGuard [tx_of_size 1] 1] 10 (Some 3).

Definition pulled : list Transaction * list N * TransactionConsumer := next waiting.

Lemma next_spec_witness :
  within_limits waiting pulled.1.1 ∧
  batch_txs (batches waiting) ≡ₚ pulled.1.1 ++ batch_txs (batches pulled.2) ∧
  split_batches (batches waiting) pulled.1.1 pulled.1.2 (batches pulled.2) ∧
  match pending_transactions pulled.2 with
  | Some t => ∀ tx, tx ∈ guard_transactions t → over_limit waiting pulled.1.1 tx
  | None => batches pulled.2 = []
  end.
Proof. apply (next_spec waiting pulled.1.1 pulled.1.2 pulled.2); vm_compute; reflexivity. Defined.

Lemma next_complete_witness :
  let '(txs, acks, self') := next_n 5 waiting in
  txs ≡ₚ batch_txs (batches waiting) ∧ acks = included_in_block_ack <$> batches waiting ∧ batches self' = [].
Proof.
  apply (next_complete waiting 5).
  - split; [| done | done]. apply Forall_forall.
    refine (bool_decide_unpack _ _). vm_compute. exact I.
  - vm_compute. lia.
Defined.

(** ** The commit observer *)

Definition closing : CommitObserver := mkCommitObserver [] (Some 1%nat).

Definition default_schedule : LeaderSchedule := leader_schedule_new None (test_context 1) leader_swap_table_default.

Lemma late_leaders : leaders_ok late (committed_by late).
Proof.
  pose proof late_committer as (Hok & Huc & _).
  pose proof (try_decide_leaders byzantine (committer_of late) start (decided late start) Hok late_slots late_decides) as Hlo.
  rewrite Huc in Hlo. exact Hlo.
Qed.

Lemma observer_exactly_once_witness :
  ∃ sds d' new res self',
    handle_commit late (committed_by late) = Ok (sds, d') ∧ committed_leaders late [] (committed_by late) sds d' new ∧
    observer_handle_commit closing late default_schedule (committed_by late) = Ok (res, self', d') ∧
    sender_sent self' = take 1 ((λ sd, update_scores sd []) <$> sds) ∧
    commit_observer_new (mkCommitObserver [] None) (store d') default_schedule (N.of_nat 1) =
      Ok (mkCommitObserver (resent [] (drop 1 sds)) None).
Proof.
  pose proof late_facts as (Hwf & Hcs & _ & _ & [_ HV Hdist]).
  destruct (observer_exactly_once closing late [] default_schedule (committed_by late))
    as (sds & d' & new & res & self' & Hh & Hcl & Ho & Hs & Hre).
  - exact test_serializes.
  - exact Hwf.
  - exact HV.
  - exact Hdist.
  - exact Hcs.
  - exact no_commits_chained.
  - vm_compute. reflexivity.
  - exact late_leaders.
  - intros Hnil. apply (f_equal length) in Hnil. vm_compute in Hnil. discriminate Hnil.
  - exists sds, d', new, res, self'. split_and!; [exact Hh | exact Hcl | exact Ho | apply Hs |].
    apply (Hre default_schedule 1%nat).
    pose proof (cm_leaders _ _ _ _ _ _ Hcl) as Hl. apply (f_equal length) in Hl. rewrite !length_fmap in Hl.
    rewrite Hl. apply Nat.leb_le. vm_compute. reflexivity.
Defined.

(** ** Scoring *)

(** The conditions of [subdags_ok], decidable. *)
Definition subdags_prop (c : Committee) (subdags : list CommittedSubDag) : Prop :=
  subdags ≠ [] ∧
  Forall (λ i, match subdags !! i, subdags !! S i with
               | Some sd, Some sd' => cr_index (sd_commit_ref sd') = cr_index (sd_commit_ref sd) + 1
               | _, _ => True
               end) (seq 0 (length subdags)) ∧
  Forall (λ sd, cr_index (sd_commit_ref sd) < U32_MAX ∧
    Exists (λ b, reference b = sd_leader sd) (sd_blocks sd) ∧
    Forall (λ b, vb_author b < committee_size c ∧ ref_in_bounds (reference b) ∧ vb_round b + 3 < U32_MAX ∧
      NoDup (br_author <$> vb_ancestors b) ∧ Forall (λ a, br_round a < vb_round b) (vb_ancestors b)) (sd_blocks sd) ∧
    Forall (λ b, vb_slot b = slot_of_ref (sd_leader sd) → reference b = sd_leader sd)
      (subdags ≫= sd_blocks)) subdags ∧
  Forall (λ b, Forall (λ b', reference b = reference b' → b = b') (subdags ≫= sd_blocks)) (subdags ≫= sd_blocks).

#[export] Instance subdags_prop_dec c subdags : base.Decision (subdags_prop c subdags).
Proof.
  unfold subdags_prop. repeat apply and_dec; try apply _.
  apply Forall_dec. intros i. destruct (subdags !! i), (subdags !! S i); apply _.
Defined.

Lemma subdags_prop_ok c subdags : subdags_prop c subdags → subdags_ok c subdags.
Proof.
  intros (Hne & Hidx & Hsd & Huniq).
  rewrite Forall_forall in Hsd. rewrite Forall_forall in Huniq.
  split; [done | | intros sd Hin | intros sd Hin | intros sd sd' b Hin | intros sd b Hin | intros b b' Hb Hb'].
  - intros i sd sd' Hi Hi'. rewrite Forall_forall in Hidx. specialize (Hidx i).
    rewrite Hi, Hi' in Hidx. apply Hidx, elem_of_seq. apply lookup_lt_Some in Hi. lia.
  - by apply Hsd.
  - destruct (Hsd sd Hin) as (_ & He & _). by apply Exists_exists.
  - intros Hsd' Hb Hs. destruct (Hsd sd Hin) as (_ & _ & _ & Hslot). rewrite Forall_forall in Hslot.
    apply Hslot; [| done]. apply list_elem_of_bind. eauto.
  - intros Hb. destruct (Hsd sd Hin) as (_ & _ & Hbl & _). rewrite Forall_forall in Hbl.
    destruct (Hbl b Hb) as (? & ? & ? & ? & Hanc). split_and!; [done.. |]. by rewrite Forall_forall in Hanc.
  - specialize (Huniq b Hb). rewrite Forall_forall in Huniq. by apply Huniq.
Qed.

(** The sub-dags of the validator that is ahead. *)
Definition late_subdags : list CommittedSubDag := fst (linearized late).

Lemma late_subdags_ok : subdags_ok (committee (test_context 1)) late_subdags.
Proof. apply subdags_prop_ok. refine (bool_decide_unpack _ _). vm_compute. exact I. Qed.

Lemma reputation_scores_spec_witness :
  ∃ calc scores, calculator_new (test_context 1) late_subdags VoteScoringStrategy = Ok calc ∧
    calculate calc = Ok (mkReputationScores scores (subdags_range late_subdags)) ∧
    ∀ a, a < committee_size (committee (test_context 1)) → scores !! N.to_nat a =
      Some (wrap64 (sum_N (λ sd, votes_for (unscored_blocks late_subdags) (sd_leader sd) a) late_subdags)).
Proof.
  apply (reputation_scores_spec (test_context 1) late_subdags).
  - exact test_committee_wf.
  - exact late_subdags_ok.
Defined.

(** ** The schedule *)

Definition some_scores : ReputationScores := mkReputationScores [7; 3; 9; 9] (mkCommitRange 1 300).

Lemma leader_swap_table_spec_witness :
  ∃ t, leader_swap_table_new_inner (test_context 1) 30 300 some_scores = Ok t ∧
    table_reputation_scores t = some_scores ∧ swap_table_ok (test_context 1) 30 t.
Proof.
  apply (leader_swap_table_spec (test_context 1)).
  - exact test_committee_wf.
  - vm_compute. intros Hlt. discriminate Hlt.
  - vm_compute. reflexivity.
  - reflexivity.
Defined.

Lemma elect_leader_spec_witness :
  ∃ a, ls_elect_leader default_schedule 7 0 = Ok a ∧ a < committee_size (committee (test_context 1)) ∧
    bad_nodes (leader_swap_table default_schedule) !! a = None.
Proof.
  apply (elect_leader_spec default_schedule).
  - exact test_committee_wf.
  - apply default_table_ok.
Defined.
