(* ===== verification/Network.v ===== *)
(** A network of four validators that run the core ([consensus/core/src/core.rs]) in lock-step,
    and what it shows of leader schedule changes. *)

From Stdlib Require Import Strings.Byte.
From stdpp Require Import base strings numbers sorting gmap sets list.
From S2P Require Import Prelude Committee Block Dag StakeAggregator ThresholdClock Commit BlockVerifier Store DagState BlockManager DagReader BaseCommitter UniversalCommitter Linearizer TransactionConsumer LeaderScoring LeaderSchedule CommitObserver Core Fixtures Counterexamples.

Open Scope N_scope.

(** ** The validators *)

(** Leader scoring is on. *)
Definition network_context (own : AuthorityIndex) : Context := mkContext own test_committee 500 50 true 25.

Definition network_schedule (commits : N) (own : AuthorityIndex) : LeaderSchedule :=
  mkLeaderSchedule leader_swap_table_default (network_context own) commits VoteScoringStrategy.

Definition network_verifier : BlockVerifier := λ _ _, Ok (RustOk ()).
#[local] Existing Instance network_verifier.

Definition at_time (now : BlockTimestampMs) : Readings := mkReadings now now now.

(** A validator that starts from an empty store; the schedule changes every [commits] commits. *)
Definition network_core (commits : N) (own : AuthorityIndex) : outcome (Core MemStore) :=
  d ← dag_state_new (network_context own) mem_store_new;
  core_new (network_context own) (network_schedule commits own) (transaction_consumer_new [] 1000 None)
    (block_manager_new (network_context own)) (mkCommitObserver [] None) (mkCoreSignals [] true 0)
    (toy_sign (le_bytes 1 own)) d 1000 (at_time 1000).

(** Each validator receives the last blocks of the others. *)
Definition network_round (now : BlockTimestampMs) (cores : list (Core MemStore)) :
    outcome (list (Core MemStore)) :=
  mapM (λ core,
    '(_, core) ← core_add_blocks core now (at_time now)
      (filter (λ b, vb_author b ≠ own_index (core_context core)) (last_proposed_block <$> cores));
    Ok core) cores.

Fixpoint network_rounds (n : nat) (now : BlockTimestampMs) (cores : list (Core MemStore)) :
    outcome (list (Core MemStore)) :=
  match n with
  | O => Ok cores
  | S n => cores ← network_round now cores; network_rounds n (now + 1000) cores
  end.

Definition network_run (commits : N) (n : nat) : outcome (list (Core MemStore)) :=
  cores ← mapM (network_core commits) [0; 1; 2; 3];
  network_rounds n 2000 cores.

Definition committed_rounds_of (core : Core MemStore) : list Round :=
  br_round ∘ sd_leader <$> sender_sent (commit_observer core).

(** ** Schedule changes *)

(** After a schedule change the round of the last commit is decided again, as [decided_rounds]
    says: in a run of four honest validators a round gets two committed leaders although the
    committer is built with one leader per round. *)
Example schedule_change_revisits_round :
  ∃ cores, network_run 3 8 = Ok cores ∧ Forall (λ core, ¬ NoDup (committed_rounds_of core)) cores ∧ cores ≠ [].
Proof.
  assert (match network_run 3 8 with
    | Ok cores => bool_decide (Forall (λ core, ¬ NoDup (committed_rounds_of core)) cores ∧ cores ≠ [])
    | _ => false
    end = true) as Hrun by (vm_compute; reflexivity).
  destruct (network_run 3 8) as [cores| |]; [| done..].
  apply bool_decide_eq_true in Hrun as [Hrounds Hne]. by exists cores.
Qed.

(** ** Swapping without a good node *)

Definition uneven_authority (p : N * N) : Authority :=
  mkAuthority p.2 "/ip4/127.0.0.1/udp/8080" "test-host" [] (le_bytes 1 p.1) [].

(** The authority of the best score has more stake than the threshold of 20%. *)
Definition uneven_context : Context :=
  mkContext 0 (mkCommittee 0 100 67 34 (uneven_authority <$> [(0, 40); (1, 30); (2, 20); (3, 10)])) 500 50 true 20.

Definition uneven_scores : ReputationScores := mkReputationScores [9; 8; 7; 0] (mkCommitRange 1 300).

(** The swap table may have bad nodes and no good node, when the authority of the best
    score has more stake than the threshold: electing a bad node then panics. *)
Theorem no_good_node_panics :
  ∃ table round, leader_swap_table_new uneven_context 300 uneven_scores = Ok table ∧
    good_nodes table = [] ∧
    ls_elect_leader (leader_schedule_new None uneven_context table) round 0 =
      Panic "There should be at least one good node available".
Proof.
  destruct (leader_swap_table_new uneven_context 300 uneven_scores) as [table| |] eqn:Ht;
    vm_compute in Ht; [| done..].
  injection Ht as <-. eexists _, 3. split_and!; [done | done | vm_compute; reflexivity].
Qed.
