(* ===== verification/CoreWitnesses.v ===== *)
(** The hypotheses of the theorems on the core, satisfied on the concrete network of [Fixtures]. *)

From stdpp Require Import base strings numbers sorting gmap sets relations list.
From S2P Require Import Prelude Committee Block Dag StakeAggregator ThresholdClock Commit BlockVerifier Store DagState DagStateFacts Recovery BlockManager DagReader BaseCommitter Votes UniversalCommitter Agreement Linearizer Linearization TotalOrder TransactionConsumer LeaderScoring LeaderSchedule LeaderScheduleFacts Slots Periods History CommitObserver Core CoreInvariant CoreCommit Fixtures Counterexamples Checks Witnesses Network.

Open Scope N_scope.

(** ** Cores with leader scoring *)

(** The state of a validator, with leader scoring on. *)
Definition in_network (own : AuthorityIndex) (d : DagState MemStore) : DagState MemStore :=
  mkDagState (network_context own) (genesis d) (recent_blocks d) (recent_refs d) (highest_accepted_round d)
    (last_commit d) (last_committed_rounds d) (unscored_committed_subdags d) (pending_commit_votes d)
    (blocks_to_write d) (commits_to_write d) (commit_info_to_write d) (store d) (cached_rounds d).

Lemma in_network_ok own d :
  dag_wf d → commits_wf d [] → context d = test_context own →
  dag_wf (in_network own d) ∧ commits_wf (in_network own d) [].
Proof.
  intros Hwf Hcs Hctx. destruct d as [ctx gen rb rr hi lc lcr un pv bw cw iw st cr]. cbn in Hctx. subst ctx.
  split.
  - destruct Hwf. split; assumption.
  - destruct Hcs as [Hi Hb Hl Hs Hr Hok Hinfo Hw]. split; try assumption. intros c ?%not_elem_of_nil. done.
Qed.

(** A core on that state, before its first commit; the schedule changes every three commits. *)
Definition network_core_of (own : AuthorityIndex) (d : DagState MemStore) : Core MemStore :=
  mkCore (network_context own) (clock_new 0) (transaction_consumer_new [] 1000 None)
    (block_manager_new (network_context own)) pipeline_options (default (test_block 0 0 0 []) (head test_genesis)) []
    (mkSlot 0 0) (network_schedule 3 own) (mkCommitObserver [] None) (mkCoreSignals [] true 0)
    (toy_sign (le_bytes 1 own)) (in_network own d) [].

Definition test_genesis_refs : gset BlockRef := list_to_set (reference <$> test_genesis).

Lemma network_schedule_ok own : schedule_ok (network_context own) (network_schedule 3 own).
Proof.
  split; [done|apply default_table_ok|]. intros _. split; [done..|]. intros a Ha.
  change (committee_size (committee (network_context own))) with 4 in Ha.
  assert (a = 0 ∨ a = 1 ∨ a = 2 ∨ a = 3) as [->|[->|[->| ->]]] by lia; vm_compute; discriminate.
Qed.

Definition core_check (own : AuthorityIndex) (bs : list VerifiedBlock) : bool :=
  validator_check own bs && verified_check test_committee test_genesis_refs (dag_view (validator own bs)) &&
  compatible_check byzantine (dag_view (validator own bs)) (dag_view (validator own bs)) &&
  bool_decide (highest_accepted_round (validator own bs) < 1000) &&
  bool_decide (unscored_committed_subdags (validator own bs) = []).

Lemma network_core_ok own bs :
  core_check own bs = true →
  core_ok (byz := byzantine) (genesis_refs := test_genesis_refs) (network_schedule 3 own) (network_core_of own (validator own bs)) [].
Proof.
  unfold core_check. rewrite !andb_true_iff, !bool_decide_eq_true. intros [[[[Hv Hver] Hcomp] Hhi] Hun].
  destruct (validator_facts own bs Hv) as (Hwf & Hcs & Hctx & Hvd & Hvo).
  destruct (in_network_ok own _ Hwf Hcs Hctx) as [Hwf' Hcs'].
  apply (core_ok_start (network_core_of own (validator own bs))); try done.
  - split; try done; cbn [dag_state network_core_of].
    + apply Hvo.
    + intros r b Hb Hr. by apply (verified_check_sound _ _ _ r b Hver).
    + by apply compatible_check_sound.
    + simpl. unfold U32_MAX. lia.
  - apply network_schedule_ok.
Qed.

Definition early_core : Core MemStore := network_core_of 0 early.
Definition late_core : Core MemStore := network_core_of 1 (validator 1 (test_blocks 12)).

Lemma early_core_ok :
  core_ok (byz := byzantine) (genesis_refs := test_genesis_refs) (network_schedule 3 0) early_core [].
Proof. apply (network_core_ok 0 (test_blocks 4)). vm_compute. reflexivity. Qed.

Lemma late_core_ok :
  core_ok (byz := byzantine) (genesis_refs := test_genesis_refs) (network_schedule 3 1) late_core [].
Proof. apply (network_core_ok 1 (test_blocks 12)). vm_compute. reflexivity. Qed.

Definition commit_result (self : Core MemStore) : ConsensusResult (list CommittedSubDag) * Core MemStore :=
  value_or (RustOk [], self) (try_commit self).

(** The schedule of the validator that is ahead has changed three times. *)
Lemma late_core_commits :
  try_commit late_core = Ok (commit_result late_core) ∧
  bool_decide (scores_commit_range (table_reputation_scores (leader_swap_table (leader_schedule (commit_result late_core).2))) =
    mkCommitRange 7 10) = true.
Proof. split; [apply returned|]; vm_compute; reflexivity. Qed.

Lemma early_core_commits : try_commit early_core = Ok (commit_result early_core).
Proof. apply returned. vm_compute. reflexivity. Qed.

Lemma try_commit_spec_witness :
  ∃ p, try_commit late_core = Ok p ∧
    committed_result (byz := byzantine) (genesis_refs := test_genesis_refs) (network_schedule 3 1) late_core [] p ∧
    (mysticeti_leader_scoring_and_schedule (core_context late_core) = true → ∀ sds, p.1 = RustOk sds →
     ∃ slot l, try_decide (core_committer p.2) slot = Ok l ∧ omap into_committed_block l = [] ∧
        last_decided_leader p.2 = default slot (last (decided_leader_slot <$> l))).
Proof. exact (try_commit_spec (network_schedule 3 1) late_core [] test_serializes late_core_ok). Defined.

(** The same validator in the loop of [try_commit], when its schedule has just changed for the
    second time. *)
Definition stepped (self : Core MemStore) : Core MemStore :=
  match try_commit_step ([], self) with Ok (Continue st) => st.2 | _ => self end.
Definition updated (self : Core MemStore) : Core MemStore :=
  match commits_until_update self with Ok (_, self') => self' | _ => self end.
Definition revisiting : Core MemStore := updated (stepped (stepped late_core)).

Definition continues (self : Core MemStore) : bool :=
  match try_commit_step ([], self) with Ok (Continue _) => true | _ => false end.

Section loop.
Context (byz : gset AuthorityIndex) (G : gset BlockRef) (ls0 : LeaderSchedule) (self : Core MemStore) (cs : list TrustedCommit).
Context (Hok : core_ok (byz := byz) (genesis_refs := G) ls0 self cs).
Context (Hflag : mysticeti_leader_scoring_and_schedule (core_context self) = true).
Abbreviation loop_inv := (loop_inv (byz := byz) (genesis_refs := G)).

Lemma loop_inv_start : loop_inv ls0 self cs ([], self).
Proof.
  destruct Hok as (k & past & out & sds & new & Hcs & Hck & Hsr). rewrite Hflag in Hsr.
  exists k, past, out, sds, new, []. split; [exact Hck|]. split; [exact Hsr|]. split; [by rewrite app_nil_r|].
  split; [done|]. split; [apply commit_frame_refl|]. split; [by rewrite app_nil_r|done].
Qed.

Lemma loop_inv_core st :
  loop_inv ls0 self cs st → (∃ cs', core_ok (byz := byz) (genesis_refs := G) ls0 st.2 cs') ∧
    mysticeti_leader_scoring_and_schedule (core_context st.2) = true.
Proof.
  intros (k & past & out & sds & new & more & Hck & Hsr & Hcs & _ & Hfr & _). rewrite (cf_context _ _ Hfr). split; [|done].
  exists (past ++ new), k, past, out, sds, new. split; [done|]. split; [done|]. by rewrite (cf_context _ _ Hfr), Hflag.
Qed.

Lemma stepped_ok :
  continues self = true → (∃ cs', core_ok (byz := byz) (genesis_refs := G) ls0 (stepped self) cs') ∧
    mysticeti_leader_scoring_and_schedule (core_context (stepped self)) = true.
Proof.
  destruct (try_commit_step_Ok ls0 self cs ([], self) test_serializes Hflag loop_inv_start) as (r & Hr & Hinv).
  unfold continues, stepped. rewrite Hr. destruct r as [st|p]; [|done]. intros _. exact (loop_inv_core st (proj1 Hinv)).
Qed.

Lemma updated_ok : ∃ cs', core_ok (byz := byz) (genesis_refs := G) ls0 (updated self) cs'.
Proof.
  destruct (loop_update ls0 self cs [] self test_serializes Hflag loop_inv_start) as (until & self' & Hcu & Hinv & _).
  unfold updated. rewrite Hcu. exact (proj1 (loop_inv_core ([], self') Hinv)).
Qed.
End loop.

Lemma revisiting_ok :
  ∃ cs, core_ok (byz := byzantine) (genesis_refs := test_genesis_refs) (network_schedule 3 1) revisiting cs.
Proof.
  destruct (stepped_ok _ _ _ late_core [] late_core_ok eq_refl) as [[cs1 H1] F1]; [vm_compute; reflexivity|].
  destruct (stepped_ok _ _ _ (stepped late_core) cs1 H1 F1) as [[cs2 H2] F2]; [vm_compute; reflexivity|].
  exact (updated_ok _ _ _ (stepped (stepped late_core)) cs2 H2 F2).
Qed.

(** Its next decision is in the round of the last one. *)
Definition revisits (self : Core MemStore) : bool :=
  match try_decide (core_committer self) (last_decided_leader self) with
  | Ok (dl :: _) => bool_decide (slot_round (decided_leader_slot dl) = slot_round (last_decided_leader self) ∧
      0 < slot_round (last_decided_leader self))
  | _ => false
  end.

Lemma decided_rounds_witness :
  revisits revisiting = true ∧
  let s := last_decided_leader revisiting in
  let e := elected_by (leader_schedule revisiting) in
  ∃ l, try_decide (core_committer revisiting) s = Ok l ∧
    ∀ i dl, l !! i = Some dl → decided_leader_slot dl = slot_at e (next_round e s + N.of_nat i).
Proof.
  split; [vm_compute; reflexivity|]. destruct revisiting_ok as [cs Hok].
  exact (proj1 (proj2 (decided_rounds (network_schedule 3 1) revisiting cs Hok))).
Defined.
