(* ===== verification/NetworkWitnesses.v ===== *)
(** The theorems on networks, applied to a run of three honest validators and a Byzantine one. *)

From Stdlib Require Import Strings.Byte.
From stdpp Require Import base strings numbers sorting gmap sets relations list.
From S2P Require Import Prelude Committee Block Dag StakeAggregator ThresholdClock Commit BlockVerifier Store DagState DagStateFacts Recovery BlockManager DagReader BaseCommitter UniversalCommitter Linearizer Linearization TransactionConsumer LeaderScoring LeaderSchedule LeaderScheduleFacts CommitObserver Core CoreInvariant CoreRun AuthorityNode NetworkRun CoreThread CommitVotes AuthorityService AuthorityServiceFacts ServiceNetwork Fixtures Counterexamples Checks Witnesses Network CoreWitnesses.

Open Scope N_scope.

#[local] Existing Instance signed_block_verifier_check.

(** ** The network *)

Definition demo_config : NetConfig := mkNetConfig test_committee test_genesis true 25 None.
Definition demo_byz : gset AuthorityIndex := {[3]}.

Lemma demo_context own : node_context demo_config own (network_context own).
Proof.
  split; try done. intros _. split; [done..|]. intros a Ha.
  change (committee_size (committee (network_context own))) with 4 in Ha.
  assert (a = 0 ∨ a = 1 ∨ a = 2 ∨ a = 3) as [->|[->|[->| ->]]] by lia; vm_compute; discriminate.
Qed.

Lemma demo_genesis ctx : committee ctx = nc_committee demo_config → genesis_blocks ctx = Ok (nc_genesis demo_config).
Proof. intros Hctx. rewrite (genesis_blocks_committee ctx (test_context 0) Hctx). vm_compute. reflexivity. Qed.

Lemma demo_stake : set_stake (nc_committee demo_config) demo_byz < validity_threshold (nc_committee demo_config).
Proof. vm_compute. reflexivity. Qed.

Lemma toy_digests : digests_bounded.
Proof.
  intros bs. apply N.le_trans with (N.ones 32); [|by vm_compute]. simpl. unfold toy_hash.
  assert (∀ h, h ≤ N.ones 32 → foldl (λ h b, N.land (h * 33 + Byte.to_N b) (N.ones 32)) h bs ≤ N.ones 32) as Hgen; [|by apply Hgen].
  induction bs as [|b bs IH]; intros h Hh; simpl; [done|]. apply IH. rewrite N.land_ones.
  pose proof (N.mod_upper_bound (h * 33 + Byte.to_N b) (2 ^ 32) ltac:(done)). rewrite N.ones_equiv. lia.
Qed.

Lemma mem_store_empty : store_empty mem_store_new.
Proof. split; [apply mem_store_new_inv|vm_compute; reflexivity..]. Qed.

(** ** Executable steps *)

(** A validator starts; it receives all the blocks of the others that exist; its leader timeout
    fires; a Byzantine block is made. *)
Inductive Event : Type :=
| EStart (a : AuthorityIndex) (now : BlockTimestampMs)
| EDeliver (a : AuthorityIndex) (now : BlockTimestampMs)
| ETimeout (a : AuthorityIndex) (now : BlockTimestampMs)
| EByzantine (b : VerifiedBlock).

Abbreviation net := (Net MemStore).

Definition start_demo (a : AuthorityIndex) (now : BlockTimestampMs) : outcome (Core MemStore) :=
  authority_node_start None (network_context a) mem_store_new (transaction_consumer_new [] 1000 None)
    (mkCommitObserver [] None) 0 (mkCoreSignals [] true 0) (toy_sign (le_bytes 1 a)) now (at_time now).

Definition exec_command (n : net) (a : AuthorityIndex) (command : Core MemStore → CoreThreadCommand) : option net :=
  match nodes n !! a with
  | Some core =>
      match run_command core (command core) with
      | Ok (RustOk _, core') =>
          if bool_decide (Forall (.∈ world n) (command_blocks (command core)) ∧ last_proposed_round core' ≤ round_limit)
          then Some (mkNet (<[a := core']> (nodes n)) (new_blocks core core' ++ world n)) else None
      | _ => None
      end
  | None => None
  end.

Definition exec_event (n : net) (e : Event) : option net :=
  match e with
  | EStart a now =>
      match start_demo a now with
      | Ok core =>
          if bool_decide (a ∉ demo_byz ∧ nodes n !! a = None ∧ last_proposed_round core ≤ round_limit)
          then Some (mkNet (<[a := core]> (nodes n)) (made core ++ world n)) else None
      | _ => None
      end
  | EDeliver a now => exec_command n a (λ _, AddBlocks (filter (λ b, vb_author b ≠ a) (world n)) now (at_time now))
  | ETimeout a now => exec_command n a (λ core, NewBlock (last_proposed_round core + 1) true (at_time now))
  | EByzantine b =>
      if bool_decide (vb_author b ∈ demo_byz ∧
        block_valid_prop test_committee (dom (genesis_map demo_config)) (inner (block b)) ∧
        ref_in_bounds (reference b) ∧ vb_round b ≤ round_limit ∧
        Forall (λ x, reference x ≠ reference b ∨ x = b) (world n))
      then Some (mkNet (nodes n) (b :: world n)) else None
  end.

Lemma exec_command_sound n a command n' :
  exec_command n a command = Some n' → net_step demo_config demo_byz n n'.
Proof.
  unfold exec_command. destruct (nodes n !! a) as [core|] eqn:Hn; [|done].
  destruct (run_command core _) as [[[res|e] core']| |] eqn:Hrun; try done. case_bool_decide as Hb; [|done].
  destruct Hb as [Hbl Hr]. intros [= <-]. by eapply net_command.
Qed.

Lemma exec_event_sound n e n' : exec_event n e = Some n' → net_step demo_config demo_byz n n'.
Proof.
  destruct e as [a now|a now|a now|b]; cbn [exec_event]; [|apply exec_command_sound..|].
  - destruct (start_demo a now) as [core| |] eqn:Hst; try done. case_bool_decide as Hb; [|done].
    destruct Hb as (Ha & Hn & Hr). intros [= <-].
    by refine (net_start demo_config demo_byz n a (network_context a) mem_store_new _ _ 0 _ _ now (at_time now) core
      Ha Hn (demo_context a) mem_store_empty _ _ _ Hst Hr).
  - case_bool_decide as Hb; [|done]. destruct Hb as (Ha & Hv & Href & Hr & Hcol). intros [= <-].
    apply net_byzantine; [done| |].
    + split; [by apply block_valid_prop_sound|done|done].
    + intros x Hx Heq. rewrite Forall_forall in Hcol. by destruct (Hcol x Hx).
Qed.

Fixpoint exec_events (n : net) (es : list Event) : option net :=
  match es with
  | [] => Some n
  | e :: es => n' ← exec_event n e; exec_events n' es
  end.

Lemma exec_events_sound n es n' : exec_events n es = Some n' → rtc (net_step demo_config demo_byz) n n'.
Proof.
  revert n. induction es as [|e es IH]; intros n; simpl; [intros [= ->]; apply rtc_refl|].
  intros (n1 & Hn1%exec_event_sound & Hes)%bind_Some. eapply rtc_l; eauto.
Qed.

(** ** The run *)

(** Authority 3 makes two blocks in round 1. *)
Definition equivocations : list VerifiedBlock :=
  (λ ts, test_block 1 3 ts (own_first 3 (reference <$> test_genesis))) <$> [1; 2].

(** A round: each validator receives blocks, and then its timeout fires. *)
Definition demo_round (k : nat) : list Event :=
  let now := 2000 + 1000 * N.of_nat k in
  ((λ a, EDeliver a now) <$> [0; 1; 2]) ++ ((λ a, ETimeout a (now + 500)) <$> [0; 1; 2]).

(** In the end validator 2 is behind. *)
Definition demo_events : list Event :=
  [EStart 0 1000; EStart 1 1000] ++ (EByzantine <$> equivocations) ++ [EStart 2 1000] ++
  (seq 0 6 ≫= demo_round) ++ [EDeliver 1 8900; EDeliver 0 9000; ETimeout 0 9050; EDeliver 1 9100; ETimeout 1 9150; EDeliver 0 9200].

Definition demo : option net := exec_events net_init demo_events.

(** Validators 0 and 2 have output sub-dags, not equally many. *)
Definition demo_check : bool :=
  match demo with
  | Some n =>
      match nodes n !! 0, nodes n !! 2 with
      | Some core, Some core' =>
          bool_decide ((0 < length (sender_sent (commit_observer core')) < length (sender_sent (commit_observer core)))%nat)
      | _, _ => false
      end
  | None => false
  end.

Lemma demo_runs : demo_check = true.
Proof. vm_compute. reflexivity. Qed.

Lemma network_agreement_witness :
  ∃ n core core', demo = Some n ∧ nodes n !! 0 = Some core ∧ nodes n !! 2 = Some core' ∧
    (0 < length (sender_sent (commit_observer core')) < length (sender_sent (commit_observer core)))%nat ∧
    (sender_sent (commit_observer core) `prefix_of` sender_sent (commit_observer core') ∨
     sender_sent (commit_observer core') `prefix_of` sender_sent (commit_observer core)).
Proof.
  pose proof demo_runs as Hrun. unfold demo_check in Hrun.
  destruct demo as [n|] eqn:Hdemo; [|discriminate]. destruct (nodes n !! 0) as [core|] eqn:H0; [|discriminate].
  destruct (nodes n !! 2) as [core'|] eqn:H2; [|discriminate]. apply bool_decide_eq_true in Hrun.
  exists n, core, core'. split; [reflexivity|]. split; [exact H0|]. split; [exact H2|]. split; [exact Hrun|].
  apply (network_agreement demo_config demo_byz test_serializes toy_digests test_committee_wf demo_genesis demo_stake n 0 2);
    [|exact H0|exact H2].
  apply exec_events_sound with demo_events. exact Hdemo.
Defined.

(** The world has blocks of validator 0 in the rounds 1 to 9, and both blocks of authority 3. *)
Definition demo_blocks : list VerifiedBlock := match demo with Some n => world n | None => [] end.

Lemma demo_world :
  bool_decide (vb_round <$> filter (λ b, vb_author b = 0) demo_blocks = [9; 8; 7; 6; 5; 4; 3; 2; 1]) &&
  bool_decide (vb_round <$> filter (λ b, vb_author b = 3) demo_blocks = [1; 1]) = true.
Proof. vm_compute. reflexivity. Qed.

Lemma honest_no_equivocation_witness :
  ∃ n core, demo = Some n ∧ nodes n !! 0 = Some core ∧
    (∀ b b', b ∈ filter (λ b, vb_author b = 0) (world n) → b' ∈ world n →
       block_valid test_committee (dom (genesis_map demo_config)) (inner (block b)) ∧
       (vb_author b = vb_author b' → vb_round b = vb_round b' → b = b')) ∧
    (∀ b, b ∈ own_blocks core ∨ b ∈ broadcasts core → b ∈ world n ∧ vb_author b = 0).
Proof.
  pose proof demo_runs as Hrun. unfold demo_check in Hrun. destruct demo as [n|] eqn:Hdemo; [|discriminate].
  destruct (nodes n !! 0) as [core|] eqn:H0; [|discriminate]. clear Hrun. exists n, core.
  split; [reflexivity|]. split; [exact H0|].
  destruct (honest_no_equivocation demo_config demo_byz test_serializes toy_digests test_committee_wf demo_genesis demo_stake n)
    as [Hone Hmade]; [apply exec_events_sound with demo_events; exact Hdemo|].
  split; [|exact (proj1 (Hmade 0 core H0))].
  intros b b' Hb Hb'. apply list_elem_of_filter in Hb as [Ha Hb]. apply (Hone b b' Hb Hb').
  rewrite Ha. unfold demo_byz. rewrite elem_of_singleton. discriminate.
Defined.

(** ** Bytes *)

(** The bytes that hold a block are those of the first block of validator 0. *)
Definition first_block_of (r : outcome (Core MemStore)) : list VerifiedBlock :=
  match r with Ok core => made core | _ => [] end.
Definition sent_blocks : list VerifiedBlock := first_block_of (start_demo 0 1000).
Definition sent_bytes : bytes := from_option serialized [] (head sent_blocks).

#[local] Instance sent_parser : BcsParser := {
  parse_signed_block s :=
    match head (filter (λ b, serialized b = s) sent_blocks) with
    | Some b => RustOk (block b)
    | None => RustErr "unexpected end of input"
    end;
  parse_commit s := RustErr "unexpected end of input";
}.

Definition sent_verifier : SignedBlockVerifier :=
  mkSignedBlockVerifier (network_context 1) (list_to_set (reference <$> test_genesis)).

Lemma sent_admitted b : admitted sent_verifier b → b ∈ sent_blocks.
Proof.
  intros [Hp _ Hd]. cbn [parse_signed_block sent_parser] in Hp. destruct (head _) as [x|] eqn:Hx; [|discriminate].
  injection Hp as Hp. apply head_Some_elem_of, list_elem_of_filter in Hx as [Hs Hx].
  assert (Hall : Forall (λ x, x = new_verified (block x) (serialized x)) sent_blocks)
    by (apply (bool_decide_eq_true_1 _); vm_compute; reflexivity).
  rewrite Forall_forall in Hall. specialize (Hall x Hx). rewrite Hp, Hs, <-Hd in Hall. by rewrite <-Hall.
Qed.

(** Validator [a] gets the bytes from [peer]. *)
Definition exec_send (n : net) (a peer : AuthorityIndex) (s : bytes) : option net :=
  match nodes n !! a with
  | Some core =>
      let service := mkAuthorityService (commit_vote_monitor_new (core_context core))
        (mkChannelCoreThreadDispatcher core true (λ _, (2000, at_time 2000)) []) [] in
      match handle_send_block (core_context core) parameters_default sent_verifier service 2000 0 peer s with
      | Ok (_, service') =>
          let d := as_core_dispatcher service' in
          if ct_alive d && bool_decide (Forall (.∈ world n) sent_blocks) && (last_proposed_round (ct_core d) <=? round_limit)
          then Some (mkNet (<[a := ct_core d]> (nodes n)) (new_blocks core (ct_core d) ++ world n)) else None
      | _ => None
      end
  | None => None
  end.

Lemma exec_send_sound n a peer s n' :
  exec_send n a peer s = Some n' → service_step demo_config demo_byz n n'.
Proof.
  unfold exec_send. destruct (nodes n !! a) as [core|] eqn:Ha; [|done].
  set (service := mkAuthorityService _ _ _). destruct (handle_send_block _ _ _ _ _ _ _ _) as [[res service']| |] eqn:Hh; try done.
  destruct (_ && _) eqn:Hb; [|done]. intros [= <-]. apply andb_true_iff in Hb as [[Hal Hw%bool_decide_eq_true]%andb_true_iff Hl%N.leb_le].
  apply (service_task demo_config demo_byz n a parameters_default sent_verifier (as_core_dispatcher service) [s] (as_core_dispatcher service'));
    [exact Ha|reflexivity| |exact Hal| |exact Hl].
  - exact (handles_send_block _ _ _ service 2000 0 peer s res service' Hh).
  - intros b _ Hadm. rewrite Forall_forall in Hw. by apply Hw, sent_admitted.
Qed.

Lemma exec_start_sound n a now n' :
  exec_event n (EStart a now) = Some n' → service_step demo_config demo_byz n n'.
Proof.
  intros He. apply service_environment; [by eapply exec_event_sound|]. cbn [exec_event] in He.
  destruct (start_demo a now) as [core| |]; try done. case_bool_decide as Hb; [|done]. destruct Hb as (_ & Hn & _).
  injection He as <-. intros a' core' Ha'. cbn [nodes]. rewrite lookup_insert_ne; [done|congruence].
Qed.

(** Validators 0 and 1 start; 1 gets bytes that hold nothing, and then the block of 0. *)
Definition bytes_demo : option net :=
  n ← exec_event net_init (EStart 0 1000); n ← exec_event n (EStart 1 1000); n ← exec_send n 1 0 []; exec_send n 1 0 sent_bytes.

Definition bytes_check (r : option net) : bool :=
  match r with
  | Some n => match nodes n !! 1 with
              | Some core => bool_decide (is_Some (head sent_blocks)) &&
                  bool_decide (Forall (λ b, recent_blocks (dag_state core) !! reference b = Some b) sent_blocks)
              | None => false
              end
  | None => false
  end.

Lemma bytes_demo_runs : bytes_check bytes_demo = true.
Proof. vm_compute. reflexivity. Qed.

Lemma bytes_check_true r : bytes_check r = true → ∃ n, r = Some n.
Proof. destruct r; [eauto|discriminate]. Qed.

Lemma services_refine_network_witness :
  ∃ n, bytes_demo = Some n ∧ rtc (service_step demo_config demo_byz) net_init n ∧ reachable demo_config demo_byz n.
Proof.
  destruct (bytes_check_true _ bytes_demo_runs) as [n Hn]. exists n. split; [exact Hn|].
  assert (Hrun : rtc (service_step demo_config demo_byz) net_init n).
  { unfold bytes_demo in Hn. apply bind_Some in Hn as (n1 & Hk1 & Hn). apply bind_Some in Hn as (n2 & Hk2 & Hn).
    apply bind_Some in Hn as (n3 & Hk3 & Hk4).
    eapply rtc_l; [exact (exec_start_sound _ _ _ _ Hk1)|]. eapply rtc_l; [exact (exec_start_sound _ _ _ _ Hk2)|].
    eapply rtc_l; [exact (exec_send_sound _ _ _ _ _ Hk3)|]. apply rtc_once. exact (exec_send_sound _ _ _ _ _ Hk4). }
  split; [exact Hrun|]. apply (services_refine_network demo_config demo_byz test_committee_wf). exact Hrun.
Defined.
