(* ===== verification/SyncWitnesses.v ===== *)
(** The theorems on the network components, applied to the concrete network of [Fixtures]: a
    validator that is behind syncs two commits that the others have voted for, and takes blocks
    that peers send and blocks that it fetches. *)

From Stdlib Require Import Strings.Byte.
From stdpp Require Import base strings numbers sorting gmap sets relations list.
From S2P Require Import Prelude Committee Block Dag StakeAggregator Commit BlockVerifier Store DagState DagStateFacts Recovery CoreThread LeaderTimeout Subscriber CommitVotes CommitSyncer CommitSyncerFacts AuthorityService AuthorityServiceFacts Broadcaster Synchronizer SynchronizerFacts Fixtures Counterexamples Checks.

Open Scope N_scope.

(** ** Commits and votes for them *)

Definition sync_round1 : list VerifiedBlock := test_layer 1 [0; 1; 2; 3] test_genesis.
Definition sync_block (i : nat) : VerifiedBlock := nth i sync_round1 (test_block 0 0 0 []).

Definition sync_commit (index : CommitIndex) (previous_digest : CommitDigest) (b : VerifiedBlock) : TrustedCommit :=
  let c := mkCommitV1 index previous_digest (vb_timestamp_ms b) (reference b) [reference b] in
  new_trusted (CommitVersion1 c) (commit_bytes c).

Definition sync_commit1 : TrustedCommit := sync_commit 1 0 (sync_block 0).
Definition sync_commit2 : TrustedCommit := sync_commit 2 (tc_digest sync_commit1) (sync_block 1).
Definition sync_commits : list TrustedCommit := [sync_commit1; sync_commit2].

(** A block of round 2 that votes for the commits. *)
Definition vote_block (author : AuthorityIndex) : VerifiedBlock :=
  let b := V1 (mkBlockV1 0 2 author (2000 + author) (own_first author (reference <$> sync_round1)) []
                 (commit_reference <$> sync_commits) []) in
  match signed_block_new b (toy_sign (le_bytes 1 author)) with
  | RustOk sb => new_verified sb (block_bytes b ++ signature sb)
  | RustErr _ => new_verified (signed_block_new_genesis b) []
  end.

Definition sync_votes : list VerifiedBlock := vote_block <$> [0; 1; 2].

(** ** Parsing *)

(** The bytes that hold blocks and commits are those of the ones above. *)
#[export] Instance known_parser : BcsParser := {
  parse_signed_block s :=
    match head (filter (λ b, serialized b = s) (sync_round1 ++ sync_votes)) with
    | Some b => RustOk (block b)
    | None => RustErr "unexpected end of input"
    end;
  parse_commit s :=
    match head (filter (λ c, tc_serialized c = s) sync_commits) with
    | Some c => RustOk (tc_inner c)
    | None => RustErr "unexpected end of input"
    end;
}.

Definition sync_context : Context := test_context 3.
Definition sync_verifier : SignedBlockVerifier :=
  mkSignedBlockVerifier sync_context (list_to_set (reference <$> test_genesis)).
Definition sync_params : Parameters := mkParameters 250 50 500 1000 20 2 200.

Definition commits_answer : list bytes * list bytes := (tc_serialized <$> sync_commits, serialized <$> sync_votes).

(** ** Votes *)

Lemma quorum_commit_index_spec_witness :
  ∃ m, foldM observe (commit_vote_monitor_new sync_context) sync_votes = Ok m ∧ quorum_commit_index m = 2 ∧
    reached_quorum test_committee (set_stake test_committee (index_voters sync_votes 2)) = true.
Proof.
  destruct (quorum_commit_index_spec sync_context sync_votes) as (m & Hm & Hq & Hhi & _).
  - exact test_committee_wf.
  - repeat constructor.
  - exists m. split; [exact Hm|]. assert (Hq2 : quorum_commit_index m = 2).
    { vm_compute in Hm. injection Hm as <-. vm_compute. reflexivity. }
    split; [exact Hq2|]. rewrite Hq2 in Hq. apply Hq. reflexivity.
Defined.

Lemma verified_commits : verify_commits sync_context sync_verifier 0 1 2 commits_answer.1 commits_answer.2 = Ok (RustOk sync_commits).
Proof. vm_compute. reflexivity. Qed.

Lemma known_parser_block s b : parse_signed_block s = RustOk b → b ∈ block <$> sync_round1 ++ sync_votes.
Proof.
  cbn [parse_signed_block known_parser]. destruct (head _) as [x|] eqn:Hx; [|discriminate]. intros [= <-].
  apply head_Some_elem_of, list_elem_of_filter in Hx as [_ Hx]. by apply list_elem_of_fmap_2.
Qed.

Lemma sync_honest_chain : honest_chain sync_commits.
Proof.
  split.
  - intros [|[|i]] c; cbn [lookup list_lookup sync_commits]; intros [= <-]; vm_compute; reflexivity.
  - intros [|[|i]] c c'; cbn [lookup list_lookup sync_commits]; intros [= <-] [= <-]. vm_compute. reflexivity.
  - intros c [->|[->|[]%not_elem_of_nil]%elem_of_cons]%elem_of_cons; vm_compute; reflexivity.
  - intros c [->|[->|[]%not_elem_of_nil]%elem_of_cons]%elem_of_cons; vm_compute; reflexivity.
Qed.

Lemma sync_honest_votes bs : honest_votes sync_verifier {[3]} bs sync_commits.
Proof.
  intros s b r _ Hp%known_parser_block _ _ Hr.
  assert (Forall (λ b, Forall (λ r, r ∈ commit_reference <$> sync_commits) (block_commit_votes (inner b)))
    (block <$> sync_round1 ++ sync_votes)) as Hall by (apply (bool_decide_eq_true_1 _); vm_compute; reflexivity).
  rewrite Forall_forall in Hall. specialize (Hall b Hp). rewrite Forall_forall in Hall.
  specialize (Hall r Hr). apply list_elem_of_fmap in Hall as (c & -> & Hc). by exists c.
Qed.

Lemma accepted_commits_honest_witness :
  verify_commits sync_context sync_verifier 0 1 2 commits_answer.1 commits_answer.2 = Ok (RustOk sync_commits) ∧
  sync_commits ≠ [] ∧ ∀ i c, sync_commits !! i = Some c → sync_commits !! (N.to_nat 1 - 1 + i)%nat = Some c.
Proof.
  split; [exact verified_commits|].
  apply (accepted_commits_honest sync_context sync_verifier 0 1 2 commits_answer.1 commits_answer.2 sync_commits {[3]} sync_commits).
  - exact test_committee_wf.
  - reflexivity.
  - reflexivity.
  - reflexivity.
  - vm_compute. reflexivity.
  - exact sync_honest_chain.
  - apply sync_honest_votes.
  - intros c s Hc Hs. assert (Forall (λ c, Forall (λ s, blake2b256 s = tc_digest c → s = tc_serialized c) commits_answer.1) sync_commits) as Hall
      by (apply (bool_decide_eq_true_1 _); vm_compute; reflexivity).
    rewrite Forall_forall in Hall. specialize (Hall c Hc). rewrite Forall_forall in Hall. exact (Hall s Hs).
  - exact verified_commits.
Defined.

(** ** Fetches of commits *)

(** What the other authorities answer. *)
Definition serve_blocks (refs : list BlockRef) : list bytes :=
  serialized <$> filter (λ b, reference b ∈ refs) sync_round1.

Definition sync_client : NetworkClient :=
  mkNetworkClient (λ _ _ _, RustOk commits_answer) (λ _ refs _, RustOk (serve_blocks refs)).

Definition sync_fetch_state : FetchState := fetch_state_new sync_context id (λ _, 0).

Definition fetch_once_check : bool :=
  match fetch_once sync_context sync_params sync_verifier sync_client 5000 sync_fetch_state 1 2 with
  | Ok (RustOk (commits, blocks, _), _) =>
      bool_decide (commit_reference <$> commits = commit_reference <$> sync_commits) && bool_decide (reference <$> blocks = [reference (sync_block 0); reference (sync_block 1)])
  | _ => false
  end.

Lemma fetch_once_runs : fetch_once_check = true.
Proof. vm_compute. reflexivity. Qed.

Lemma fetch_once_spec_witness :
  ∃ commits blocks t fs', fetch_once sync_context sync_params sync_verifier sync_client 5000 sync_fetch_state 1 2 =
      Ok (RustOk (commits, blocks, t), fs') ∧
    commit_reference <$> commits = commit_reference <$> sync_commits ∧ (∃ ss, accepted_commits 1 2 ss commits) ∧
    reference <$> blocks = commits ≫= commit_blocks.
Proof.
  destruct (fetch_once_spec sync_context sync_params sync_verifier test_committee_wf eq_refl eq_refl sync_client 5000
    sync_fetch_state 1 2) as (res & fs' & Hrun & _ & Hok).
  - reflexivity.
  - apply (bool_decide_eq_true_1 _). vm_compute. reflexivity.
  - pose proof fetch_once_runs as Hcheck. unfold fetch_once_check in Hcheck. rewrite Hrun in Hcheck.
    destruct res as [[[commits blocks] t]|e]; [|discriminate]. apply andb_true_iff in Hcheck as [Hcs _].
    apply bool_decide_eq_true in Hcs. exists commits, blocks, t, fs'. split; [exact Hrun|].
    destruct (Hok commits blocks t eq_refl) as (Hacc & _ & Hrefs & _).
    split; [exact Hcs|split; [exact Hacc|exact Hrefs]].
Defined.

(** ** Runs of the commit syncer *)

Definition recorder : RecordingDispatcher := mkRecordingDispatcher [] (λ _, RustOk ∅).

(** Four commits have a quorum, so that two ranges are fetched; the first arrives, and the
    request for the second fails. *)
Definition sync_events : list SyncerEvent :=
  [Tick 4 0; TaskPops 0; TaskPops 1; TaskAnswered 1 4000 (RustErr Shutdown); TaskAnswered 0 5000 (RustOk commits_answer);
   TaskFetches 0 (λ refs, RustOk (serve_blocks refs)) 5000 0].

Abbreviation sync_run :=
  (syncer_run sync_context sync_params sync_verifier sync_events (syncer_new (fetch_state_new sync_context id (λ _, 0)) 0) recorder).

(** One range has been synced, with one request to the core, and one fetch is left. *)
Definition sync_check (r : outcome (option Syncer * RecordingDispatcher)) : bool :=
  match r with
  | Ok (Some s, d) =>
      (synced_commit_index s =? 2) && bool_decide (length (inflight_fetches s) = 1%nat) &&
      bool_decide (length (rd_requests d) = 1%nat)
  | _ => false
  end.

Lemma sync_runs : sync_check sync_run = true.
Proof. vm_compute. reflexivity. Qed.

Lemma sync_check_true r :
  sync_check r = true → ∃ s d, r = Ok (Some s, d) ∧ synced_commit_index s = 2 ∧ length (inflight_fetches s) = 1%nat ∧
    length (rd_requests d) = 1%nat.
Proof.
  destruct r as [[[s|] d]| |]; cbn [sync_check]; try discriminate.
  intros [[Hs%N.eqb_eq Hf%bool_decide_eq_true]%andb_true_iff Hr%bool_decide_eq_true]%andb_true_iff. by exists s, d.
Qed.

Lemma sync_events_ok : Forall (event_ok sync_params) sync_events.
Proof. repeat constructor. Qed.

Lemma id_shuffles (l : list AuthorityIndex) : id l ≡ₚ l.
Proof. reflexivity. Qed.

Lemma recorder_answers (d : RecordingDispatcher) blocks :
  ∃ r : Result (gset BlockRef) CoreError * RecordingDispatcher, dispatch_add_blocks d blocks = Ok r.
Proof. by eexists. Qed.

Lemma syncer_returns_witness : ∃ r, sync_run = Ok r.
Proof.
  apply (syncer_returns sync_context sync_params sync_verifier test_committee_wf eq_refl eq_refl eq_refl id id_shuffles (λ _, 0) 0 eq_refl
    recorder sync_events).
  - exact recorder_answers.
  - exact sync_events_ok.
Defined.

Lemma syncer_delivers_witness :
  ∃ s d batches, sync_run = Ok (Some s, d) ∧ length (rd_requests d) = 1%nat ∧
    arrived d = arrived recorder ++ requests_of batches ∧
    delivered sync_context sync_verifier (highest_local 0 sync_events) batches (synced_commit_index s).
Proof.
  destruct (sync_check_true sync_run sync_runs) as (s & d & Hrun & _ & _ & Hr).
  destruct (syncer_delivers sync_context sync_params sync_verifier test_committee_wf eq_refl eq_refl eq_refl id id_shuffles (λ _, 0) 0 eq_refl
    recorder sync_events s d sync_events_ok Hrun) as (batches & Harr & Hdel).
  exists s, d, batches. split; [exact Hrun|split; [exact Hr|split; [exact Harr|exact Hdel]]].
Defined.

Lemma syncer_keeps_commits_witness : ∃ s d, sync_run = Ok (Some s, d) ∧ handled s 1 ∧ handled s 2.
Proof.
  destruct (sync_check_true sync_run sync_runs) as (s & d & Hrun & _ & _ & _). exists s, d. split; [exact Hrun|].
  assert (Hin : Tick 4 0 ∈ sync_events) by left.
  split; [apply (syncer_keeps_commits sync_context sync_params sync_verifier test_committee_wf eq_refl eq_refl eq_refl id id_shuffles
      (λ _, 0) 0 eq_refl recorder sync_events s d 4 0 1 sync_events_ok Hrun Hin)
    |apply (syncer_keeps_commits sync_context sync_params sync_verifier test_committee_wf eq_refl eq_refl eq_refl id id_shuffles
      (λ _, 0) 0 eq_refl recorder sync_events s d 4 0 2 sync_events_ok Hrun Hin)]; vm_compute; first [reflexivity|discriminate].
Defined.

Lemma syncer_bounds_witness :
  ∃ s d, sync_run = Ok (Some s, d) ∧ length (inflight_fetches s) = 1%nat ∧
    N.of_nat (length (inflight_fetches s)) ≤ 2 ∧ ∀ a b, to_fetch s a b → a ≤ b ∧ b < a + 2.
Proof.
  destruct (sync_check_true sync_run sync_runs) as (s & d & Hrun & _ & Hf & _). exists s, d. split; [exact Hrun|]. split; [exact Hf|].
  destruct (syncer_bounds sync_context sync_params sync_verifier test_committee_wf eq_refl eq_refl eq_refl id id_shuffles (λ _, 0) 0 eq_refl
    recorder sync_events s d sync_events_ok eq_refl Hrun) as (Hlen & Hranges & _).
  split; [exact Hlen|exact Hranges].
Defined.

(** ** The service *)

Lemma sync_admitted b : b ∈ sync_round1 ++ sync_votes → admitted sync_verifier b.
Proof.
  assert (Forall (λ b, admitted sync_verifier b) (sync_round1 ++ sync_votes)) as Hall.
  { repeat (apply Forall_cons; split; [split; vm_compute; reflexivity|]). apply Forall_nil. done. }
  rewrite Forall_forall in Hall. auto.
Qed.

Definition sync_service : AuthorityService RecordingDispatcher :=
  mkAuthorityService (commit_vote_monitor_new sync_context) recorder [].

Lemma handle_send_block_spec_witness :
  may_send sync_params sync_verifier 5000 0 (serialized (vote_block 0)) (vote_block 0) ∧
  takes_block sync_params sync_service 0 0 (vote_block 0)
    (handle_send_block sync_context sync_params sync_verifier sync_service 5000 0 0 (serialized (vote_block 0))) ∧
  ∃ e, handle_send_block sync_context sync_params sync_verifier sync_service 5000 0 0 [] = Ok (RustErr e, sync_service).
Proof.
  assert (Hmay : may_send sync_params sync_verifier 5000 0 (serialized (vote_block 0)) (vote_block 0)).
  { split; [apply sync_admitted, elem_of_app; right; left|reflexivity|reflexivity|vm_compute; discriminate]. }
  split; [exact Hmay|]. split.
  - apply (handle_send_block_spec sync_context sync_params sync_verifier test_committee_wf eq_refl sync_service 5000 0 0
      (serialized (vote_block 0)) []).
    + reflexivity.
    + apply observed_new.
    + exact Hmay.
  - apply (handle_send_block_spec sync_context sync_params sync_verifier test_committee_wf eq_refl sync_service 5000 0 0 [] []).
    + reflexivity.
    + apply observed_new.
    + intros (b & [[Hp _ _] Hb _ _]). rewrite Hb in Hp. vm_compute in Hp. discriminate.
Defined.

(** A validator that has made the commits and stored the votes. *)
Definition sync_batch : WriteBatch := mkWriteBatch (sync_round1 ++ sync_votes) sync_commits [].
Definition sync_store : MemStore :=
  match store_write mem_store_new sync_batch with RustOk s => s | RustErr _ => mem_store_new end.

Lemma sync_store_written :
  store_inv sync_store ∧ blocks_of sync_store = insert_blocks (sync_round1 ++ sync_votes) ∅ ∧
  commits_of sync_store = insert_commits sync_commits ∅.
Proof.
  destruct (store_write_spec mem_store_new sync_batch) as (s & Hw & Hinv & Hb & Hcs & _).
  { apply mem_store_new_inv. }
  { repeat (apply Forall_cons; split; [split_and!; vm_compute; discriminate|]). apply Forall_nil. done. }
  unfold sync_store. rewrite Hw. done.
Qed.

Lemma sync_votes_stored b : b ∈ sync_votes → insert_blocks (sync_round1 ++ sync_votes) ∅ !! reference b = Some b.
Proof.
  assert (Forall (λ b, insert_blocks (sync_round1 ++ sync_votes) ∅ !! reference b = Some b) sync_votes) as Hall.
  { repeat (apply Forall_cons; split; [vm_compute; reflexivity|]). apply Forall_nil. done. }
  rewrite Forall_forall in Hall. auto.
Qed.

Lemma sync_votes_commits b : b ∈ sync_votes → vb_commit_votes b = commit_reference <$> sync_commits.
Proof.
  assert (Forall (λ b, vb_commit_votes b = commit_reference <$> sync_commits) sync_votes) as Hall.
  { repeat (apply Forall_cons; split; [vm_compute; reflexivity|]). apply Forall_nil. done. }
  rewrite Forall_forall in Hall. auto.
Qed.

Lemma sync_serving : serving sync_verifier sync_store sync_commits.
Proof.
  destruct sync_store_written as (Hinv & Hb & Hcs). destruct sync_honest_chain as [Hi Hl Hp Hd]. split; try assumption.
  - apply Forall_forall. intros c Hc. by split; [apply Hp|apply Hd].
  - intros c Hc. exists (reference <$> sync_votes). split.
    { apply elem_of_cons in Hc as [->|[->|[]%not_elem_of_nil]%elem_of_cons]; vm_compute; reflexivity. }
    intros r (b & -> & Hv)%list_elem_of_fmap. exists b. split.
    + rewrite Hb. by apply sync_votes_stored.
    + apply sync_admitted, elem_of_app. by right.
Qed.

Lemma served_commits_accepted_witness :
  ∃ served certifier_blocks, handle_fetch_commits sync_context sync_params sync_store 1 2 = Ok (RustOk (served, certifier_blocks)) ∧
    commit_reference <$> served = commit_reference <$> sync_commits ∧
    verify_commits sync_context sync_verifier 0 1 2 (tc_serialized <$> served) (serialized <$> certifier_blocks) = Ok (RustOk served).
Proof.
  destruct (served_commits_accepted sync_context sync_params sync_verifier test_committee_wf eq_refl sync_store sync_commits 0 1 2 sync_serving)
    as (served & certifier_blocks & Hrun & _ & _ & Hacc); [reflexivity|discriminate|reflexivity|reflexivity|].
  exists served, certifier_blocks. split; [exact Hrun|].
  assert (Hs : served = sync_commits ∧ certifier_blocks = sync_votes)
    by (vm_compute in Hrun; injection Hrun as <- <-; split; vm_compute; reflexivity).
  destruct Hs as [Hs Hcert]. split; [by rewrite Hs|]. destruct Hacc as [_ Hacc].
  destruct (Hacc sync_commit2) as (_ & _ & Hok & _); [by rewrite Hs|]. apply Hok. rewrite Hcert.
  apply Forall_forall. intros b Hb. rewrite (sync_votes_commits b Hb). apply elem_of_cons. right. by left.
Defined.

(** ** Fetches of blocks *)

(** A validator with the blocks, and a request for one of the votes by a validator that has only
    the blocks of authorities 2 and 3. *)
Definition sync_server : DagState MemStore := validator 0 (sync_round1 ++ sync_votes).
Definition requested_refs : list BlockRef := [reference (vote_block 0)].
Definition highest_rounds : list Round := [0; 0; 1; 1].

Lemma sync_server_facts : dag_wf sync_server ∧ committee (DagState.context sync_server) = test_committee.
Proof.
  destruct (validator_facts 0 (sync_round1 ++ sync_votes)) as (Hwf & _ & Hctx & _); [vm_compute; reflexivity|].
  split; [exact Hwf|]. unfold sync_server. by rewrite Hctx.
Qed.

Lemma sync_server_view r b :
  dag_view sync_server !! r = Some b →
  Forall (λ a, br_author a < 4) (vb_ancestors b) ∧ (br_round r ≠ 0 → b ∈ sync_round1 ++ sync_votes) ∧ vb_timestamp_ms b ≤ 5000.
Proof.
  assert (map_Forall (λ r b, Forall (λ a, br_author a < 4) (vb_ancestors b) ∧
    (br_round r ≠ 0 → b ∈ sync_round1 ++ sync_votes) ∧ vb_timestamp_ms b ≤ 5000) (dag_view sync_server)) as Hall
    by (apply (bool_decide_eq_true_1 _); vm_compute; reflexivity).
  apply (Hall r b).
Qed.

Lemma fetch_blocks_roundtrip_witness :
  ∃ blocks, handle_fetch_blocks sync_context sync_params sync_server 3 requested_refs highest_rounds = Ok (RustOk (serialized <$> blocks)) ∧
    fetched_blocks_of sync_verifier (λ _, 5000) (serialized <$> blocks) 0 (list_to_set requested_refs) = Ok (RustOk blocks) ∧
    reference <$> blocks = [reference (vote_block 0); reference (sync_block 0); reference (sync_block 1)].
Proof.
  destruct sync_server_facts as [Hwf Hctx]. exists (blocks_at sync_server (served_refs sync_server requested_refs highest_rounds)).
  destruct (fetch_blocks_roundtrip sync_context sync_params sync_verifier sync_server 3 0 requested_refs highest_rounds (λ _, 5000))
    as [Hss Hbl].
  - exact Hwf.
  - exact Hctx.
  - exact test_committee_wf.
  - apply NoDup_singleton.
  - split; [vm_compute; discriminate|right; reflexivity|]. repeat constructor; vm_compute; discriminate.
  - intros r b Hr. apply (sync_server_view r b Hr).
  - intros r b Hr Hround. apply sync_admitted, (sync_server_view r b Hr). exact Hround.
  - intros r b _ Hr. apply (sync_server_view r b Hr).
  - split; [exact Hss|split; [exact Hbl|]]. vm_compute. reflexivity.
Defined.

(** ** Runs of the synchronizer *)

(** The core of the validator that is behind: blocks of round 1 are missing. *)
Definition missing_recorder : RecordingDispatcher :=
  mkRecordingDispatcher [] (λ _, RustOk {[reference (sync_block 2); reference (sync_block 3)]}).

Definition sync_behind : DagState MemStore := validator 3 [].

(** A block is fetched from the peer that sent its descendant; the timeout starts the scheduler,
    which asks another peer, gets an answer, and processes it. *)
Definition synchronizer_events : list (SynchronizerEvent (St := MemStore)) :=
  [CallerSends {[reference (sync_block 0)]} 0; RunCommand 100; PeerReceives 0 sync_behind;
   PeerAnswered 0 0 (Fetched [serialized (sync_block 0)]) (λ _, 5000);
   RunTimeout 600; SchedulerStarts sync_behind id].

Abbreviation synchronizer_demo :=
  (synchronizer_run sync_context sync_params sync_verifier synchronizer_events (synchronizer_start sync_context missing_recorder 0)).

(** The block has reached the core, the missing blocks were read, and a request for them runs. *)
Definition synchronizer_check (r : outcome (option (Synchronizer RecordingDispatcher))) : bool :=
  match r with
  | Ok (Some self) =>
      bool_decide (length (rd_requests (sy_core_dispatcher self)) = 2%nat) &&
      match fetch_blocks_scheduler_task self with Some (FetchingFromPeers _ [_] _) => true | _ => false end
  | _ => false
  end.

Lemma synchronizer_demo_runs : synchronizer_check synchronizer_demo = true.
Proof. vm_compute. reflexivity. Qed.

Lemma synchronizer_check_true r :
  synchronizer_check r = true →
  ∃ self peers request results, r = Ok (Some self) ∧ length (rd_requests (sy_core_dispatcher self)) = 2%nat ∧
    fetch_blocks_scheduler_task self = Some (FetchingFromPeers peers [request] results).
Proof.
  destruct r as [[self|]| |]; cbn [synchronizer_check]; try discriminate.
  intros [Hr%bool_decide_eq_true Ht]%andb_true_iff.
  destruct (fetch_blocks_scheduler_task self) as [[|peers [|request [|]] results|]|] eqn:Hf; try discriminate.
  by exists self, peers, request, results.
Qed.

Lemma synchronizer_events_ok : Forall (sync_event_ok sync_context) synchronizer_events.
Proof.
  assert (Hr : ∃ rounds, get_highest_accepted_rounds sync_context sync_behind = Ok rounds).
  { eexists. vm_compute. reflexivity. }
  repeat (apply Forall_cons; split; [first [exact I|reflexivity|exact Hr|split; [exact Hr|reflexivity]]|]). by apply Forall_nil.
Qed.

Lemma recorder_misses (d : RecordingDispatcher) :
  ∃ r : Result (gset BlockRef) CoreError * RecordingDispatcher, dispatch_get_missing_blocks d = Ok r.
Proof. by eexists. Qed.

Lemma sync_size : 4 ≤ committee_size (committee sync_context).
Proof. vm_compute. discriminate. Qed.

Lemma synchronizer_safe_witness :
  ∃ self rs, synchronizer_demo = Ok (Some self) ∧ length (rd_requests (sy_core_dispatcher self)) = 2%nat ∧
    arrived (sy_core_dispatcher self) = arrived missing_recorder ++ rs ∧ Forall (request_safe sync_verifier) rs.
Proof.
  destruct (synchronizer_safe sync_context sync_params sync_verifier test_committee_wf eq_refl eq_refl sync_size eq_refl
    recorder_answers recorder_misses missing_recorder 0 synchronizer_events synchronizer_events_ok) as (r & Hr & Hsafe).
  destruct (synchronizer_check_true _ synchronizer_demo_runs) as (self & peers & request & results & Hrun & Hlen & _).
  rewrite Hrun in Hr. injection Hr as <-. destruct (Hsafe self eq_refl) as (rs & Harr & Hrs).
  exists self, rs. split; [exact Hrun|split; [exact Hlen|split; [exact Harr|exact Hrs]]].
Defined.

Lemma missing_servable :
  set_Forall (servable sync_context) ({[reference (sync_block 2); reference (sync_block 3)]} : gset BlockRef).
Proof. intros r [->%elem_of_singleton| ->%elem_of_singleton]%elem_of_union; split; vm_compute; [reflexivity|discriminate|reflexivity|discriminate]. Qed.

Lemma synchronizer_callers refs peer :
  CallerSends refs peer ∈ synchronizer_events → set_Forall (servable sync_context) refs.
Proof.
  assert (Hall : Forall (λ event, match event with CallerSends refs _ => set_Forall (servable sync_context) refs | _ => True end) synchronizer_events).
  { repeat (apply Forall_cons; split; [first [exact I|intros r ->%elem_of_singleton; split; vm_compute; [reflexivity|discriminate]]|]). by apply Forall_nil. }
  rewrite Forall_forall in Hall. apply (Hall (CallerSends refs peer)).
Qed.

Lemma synchronizer_bounds_witness :
  ∃ self peers request results, synchronizer_demo = Ok (Some self) ∧
    fetch_blocks_scheduler_task self = Some (FetchingFromPeers peers [request] results) ∧
    NoDup (holds (live_guards self)) ∧
    good_request sync_context sync_params (bt_elements (bg_block_refs (fr_guard request))) (fr_highest_rounds request).
Proof.
  destruct (synchronizer_check_true _ synchronizer_demo_runs) as (self & peers & request & results & Hrun & _ & Htask).
  destruct (synchronizer_bounds sync_context sync_params sync_verifier test_committee_wf eq_refl eq_refl sync_size eq_refl
    recorder_answers recorder_misses missing_recorder 0 synchronizer_events self synchronizer_events_ok Hrun)
    as (_ & Hnd & _ & _ & _ & _ & _ & Hgood).
  exists self, peers, request, results. split; [exact Hrun|split; [exact Htask|split; [exact Hnd|]]].
  apply (Hgood (λ d, rd_answer d = rd_answer missing_recorder)).
  - reflexivity.
  - intros d blocks res d' Hd [= <- <-]. exact Hd.
  - intros d res d' Hd [= <- <-]. split; [exact Hd|]. rewrite Hd. intros missing [= <-]. exact missing_servable.
  - apply synchronizer_callers.
  - unfold running_requests. rewrite Htask. apply elem_of_app. right. by left.
Defined.

(** ** Timeouts, subscriptions and senders *)

(** Both timers of round 1 expire, and then the first one of round 2. *)
Definition timeout_events : list TimeoutEvent :=
  [MinTimer 10; MinTimer 50; MaxTimer 250; MaxTimer 260; NewRound 2 300; MinTimer 340; MinTimer 350].

Definition timeout_end : LeaderTimeoutTask RecordingDispatcher :=
  mkLeaderTimeoutTask
    (mkRecordingDispatcher [RequestNewBlock 1 false; RequestNewBlock 1 true; RequestNewBlock 2 false] (λ _, RustOk ∅))
    2 true false 350 550.

Lemma leader_timeout_spec_witness :
  leader_timeout_run sync_params timeout_events (leader_timeout_start sync_params recorder 1 0) = Ok (Some timeout_end) ∧
  ∃ rs, arrived (lt_dispatcher timeout_end) = arrived recorder ++ rs ∧ NoDup rs.
Proof.
  split; [vm_compute; reflexivity|].
  destruct (leader_timeout_spec sync_params recorder 1 0 timeout_events timeout_end) as (rs & Harr & Hnd & _).
  - repeat constructor.
  - vm_compute. reflexivity.
  - exists rs. split; [exact Harr|exact Hnd].
Defined.

(** A service that records the blocks, and rejects them. *)
#[local] Instance recording_service : NetworkService (list bytes) := {
  service_send_block s peer block := Ok (RustErr Shutdown, s ++ [block]);
}.

(** Six attempts fail, then a block is received, the stream ends, and five more attempts fail. *)
Definition subscription_events : list SubscriptionEvent :=
  replicate 6 (Attempt false) ++ [Attempt true; Next (Some (serialized (vote_block 0))); Next None] ++ replicate 5 (Attempt false).

Definition subscription_check : bool :=
  match subscription_run 0 subscription_events [] (subscription_start 7) with
  | Ok (waits, service, _) =>
      bool_decide (service = [serialized (vote_block 0)]) &&
      bool_decide (omap slept waits = [100000000; 120000005; 144000009; 172800019; 207360029])
  | _ => false
  end.

Lemma subscription_spec_witness :
  ∃ waits service self, subscription_run 0 subscription_events [] (subscription_start 7) = Ok (waits, service, self) ∧
    send_all 0 [] (streamed false subscription_events) = Ok service ∧
    Forall (λ d, INITIAL_RETRY_INTERVAL ≤ d ≤ MAX_RETRY_INTERVAL) (omap slept waits) ∧
    StronglySorted N.le (omap slept waits).
Proof.
  destruct (subscription_spec 0 7 subscription_events []) as (waits & service & self & Hrun & Hsend & _ & _ & _ & Hb & Hs).
  - intros s b. eexists. reflexivity.
  - exists waits, service, self. split; [exact Hrun|split; [exact Hsend|split; [exact Hb|exact Hs]]].
Defined.

Lemma subscription_runs : subscription_check = true.
Proof. vm_compute. reflexivity. Qed.

(** Two blocks are sent; the first request times out and is sent again, the second is taken. *)
Definition sender_events : list SenderEvent :=
  [RecvBlock (Received (sync_block 0)); RecvBlock (Received (vote_block 0)); Responded 0 SendElapsed; Responded 0 SendOk;
   RetryTick; RecvBlock (Lagged 3)].

Lemma push_blocks_spec_witness :
  ∃ taken self, push_blocks_run sender_events push_blocks_start = (taken, Some self) ∧
    bs_requests self = [sync_block 0] ∧ bs_last_block self = Some (vote_block 0) ∧
    ∀ block, block ∈ [sync_block 0; vote_block 0] ↔ block ∈ taken ∨ block ∈ bs_requests self.
Proof.
  eexists _, _. split; [reflexivity|]. split; [reflexivity|]. split; [vm_compute; reflexivity|].
  apply (push_blocks_spec sender_events). reflexivity.
Defined.
