(* ===== verification/RocksWitnesses.v ===== *)
(** The theorems on the persistent store, applied to the blocks and commits of [SyncWitnesses] with
    a serializer of keys that writes integers in big-endian order, and to an author with five
    blocks. *)

From Stdlib Require Import Strings.Byte.
From stdpp Require Import base strings numbers sorting gmap sets relations list.
From S2P Require Import Prelude Committee Block Commit Store TypedStore RocksStore RocksFacts Fixtures SyncWitnesses.

Open Scope N_scope.

(** ** Big-endian keys *)

Definition be_bytes (k : nat) (x : N) : bytes := rev (le_bytes k x).

Lemma le_bytes_length k x : length (le_bytes k x) = k.
Proof. revert x. induction k as [|k IH]; intros x; simpl; [done|]. by rewrite IH. Qed.

Lemma le_bytes_value k x : x < 256 ^ N.of_nat k → le_value (le_bytes k x) = x.
Proof.
  revert x. induction k as [|k IH]; intros x; [simpl; lia|].
  rewrite Nat2N.inj_succ, N.pow_succ_r'. intros Hx. cbn [le_bytes le_value].
  rewrite N.shiftr_div_pow2. change (2 ^ 8) with 256. rewrite IH by (apply N.Div0.div_lt_upper_bound; lia).
  change 255 with (N.ones 8). rewrite N.land_ones. change (2 ^ 8) with 256.
  pose proof (N.mod_lt x 256 ltac:(done)).
  destruct (Byte.of_N (x mod 256)) as [b|] eqn:Hb.
  - apply Byte.to_of_N in Hb. rewrite Hb. pose proof (N.div_mod x 256 ltac:(done)). lia.
  - apply Byte.of_N_None_iff in Hb. lia.
Qed.

Lemma be_bytes_leb k x y :
  x < 256 ^ N.of_nat k → y < 256 ^ N.of_nat k → bytes_leb (be_bytes k x) (be_bytes k y) = ord_leb x y.
Proof.
  intros Hx Hy. unfold be_bytes. rewrite bytes_leb_value by (by rewrite !length_rev, !le_bytes_length).
  unfold be_value. by rewrite !rev_involutive, !le_bytes_value.
Qed.

Lemma bytes_leb_app v w v' w' :
  length v = length w → bytes_leb (v ++ v') (w ++ w') = bytes_leb v w && (negb (bytes_leb w v) || bytes_leb v' w').
Proof.
  revert w. induction v as [|x v IH]; intros [|y w] Hl; try done. injection Hl as Hl. simpl. rewrite IH by done.
  destruct (N.lt_trichotomy (Byte.to_N x) (Byte.to_N y)) as [Hxy|[->|Hxy]].
  - rewrite (proj2 (N.ltb_lt _ _) Hxy), (proj2 (N.ltb_ge (Byte.to_N y) _)), (proj2 (N.eqb_neq (Byte.to_N y) _)) by lia. done.
  - by rewrite N.ltb_irrefl, N.eqb_refl.
  - rewrite (proj2 (N.ltb_ge _ _)), (proj2 (N.eqb_neq _ _)) by lia. done.
Qed.

(** The keys with the fields of a struct or tuple one after the other. *)
Lemma bytes_leb_pair {A B} `{Ord A, Ord B} (f : A → bytes) (g : B → bytes) (p q : A * B) :
  length (f p.1) = length (f q.1) → bytes_leb (f p.1) (f q.1) = ord_leb p.1 q.1 →
  bytes_leb (f q.1) (f p.1) = ord_leb q.1 p.1 → bytes_leb (g p.2) (g q.2) = ord_leb p.2 q.2 →
  bytes_leb (f p.1 ++ g p.2) (f q.1 ++ g q.2) = ord_leb p q.
Proof. intros Hl H1 H2 H3. rewrite bytes_leb_app, H1, H2, H3 by done. done. Qed.

#[export] Instance digest_key_ser : KeySerializer (N * N) := λ k, be_bytes 4 k.1 ++ be_bytes 32 k.2.
#[export] Instance block_key_ser : KeySerializer (N * N * N) := λ k,
  (be_bytes 4 k.1.1 ++ be_bytes 4 k.1.2) ++ be_bytes 32 k.2.
#[export] Instance vote_key_ser : KeySerializer (N * N * BlockRef) := λ k,
  be_fix_int_ser k.1 ++ be_fix_int_ser (ref_tuple k.2).

Lemma be_bytes_length k x : length (be_bytes k x) = k.
Proof. unfold be_bytes. by rewrite length_rev, le_bytes_length. Qed.

Lemma u32_leb x y : x ≤ U32_MAX → y ≤ U32_MAX → bytes_leb (be_bytes 4 x) (be_bytes 4 y) = ord_leb x y.
Proof. unfold U32_MAX. intros. apply be_bytes_leb; simpl; lia. Qed.

Lemma digest_leb x y : x ≤ DIGEST_MAX → y ≤ DIGEST_MAX → bytes_leb (be_bytes 32 x) (be_bytes 32 y) = ord_leb x y.
Proof. unfold DIGEST_MAX. intros. apply be_bytes_leb; simpl; lia. Qed.

Lemma digest_key_order (k k' : N * N) :
  key_ok k → key_ok k' → bytes_leb (be_fix_int_ser k) (be_fix_int_ser k') = ord_leb k k'.
Proof.
  intros [H1 H2] [H1' H2']. unfold be_fix_int_ser, digest_key_ser.
  apply (bytes_leb_pair (be_bytes 4) (be_bytes 32) k k').
  - by rewrite !be_bytes_length.
  - apply u32_leb; assumption.
  - apply u32_leb; assumption.
  - apply digest_leb; assumption.
Qed.

Lemma block_key_order (k k' : N * N * N) :
  key_ok k → key_ok k' → bytes_leb (be_fix_int_ser k) (be_fix_int_ser k') = ord_leb k k'.
Proof.
  intros (H1 & H2 & H3) (H1' & H2' & H3').
  unfold be_fix_int_ser, block_key_ser.
  apply (bytes_leb_pair (λ p : N * N, be_bytes 4 p.1 ++ be_bytes 4 p.2) (be_bytes 32) k k').
  - by rewrite !length_app, !be_bytes_length.
  - apply (bytes_leb_pair (be_bytes 4) (be_bytes 4) k.1 k'.1); [by rewrite !be_bytes_length|apply u32_leb; assumption..].
  - apply (bytes_leb_pair (be_bytes 4) (be_bytes 4) k'.1 k.1); [by rewrite !be_bytes_length|apply u32_leb; assumption..].
  - apply digest_leb; assumption.
Qed.

#[export] Program Instance digest_key_spec : KeySerializerSpec (N * N) := {| key_length := 36 |}.
Next Obligation. intros k _. unfold be_fix_int_ser, digest_key_ser. by rewrite length_app, !be_bytes_length. Qed.
Next Obligation. exact digest_key_order. Qed.

#[export] Program Instance block_key_spec : KeySerializerSpec (N * N * N) := {| key_length := 40 |}.
Next Obligation. intros k _. unfold be_fix_int_ser, block_key_ser. by rewrite !length_app, !be_bytes_length. Qed.
Next Obligation. exact block_key_order. Qed.

#[export] Program Instance vote_key_spec : KeySerializerSpec (N * N * BlockRef) := {| key_length := 76 |}.
Next Obligation.
  intros k _. unfold be_fix_int_ser, vote_key_ser, be_fix_int_ser, digest_key_ser, block_key_ser.
  by rewrite !length_app, !be_bytes_length.
Qed.
Next Obligation.
  intros k k' [Hk Hr] [Hk' Hr'].
  change (bytes_leb (be_fix_int_ser k.1 ++ be_fix_int_ser (ref_tuple k.2))
            (be_fix_int_ser k'.1 ++ be_fix_int_ser (ref_tuple k'.2)) = ord_leb k k').
  apply (bytes_leb_pair (λ p : N * N, be_fix_int_ser p) (λ r, be_fix_int_ser (ref_tuple r)) k k').
  - unfold be_fix_int_ser, digest_key_ser. by rewrite !length_app, !be_bytes_length.
  - apply digest_key_order; assumption.
  - apply digest_key_order; assumption.
  - apply (block_key_order (ref_tuple k.2) (ref_tuple k'.2)); assumption.
Qed.

(** ** Cursors *)

(** A database whose cursors are what they stand for. *)
#[export] Instance list_db : RocksDB CursorView := {
  raw_iterator_cf K V _ _ _ m readopts := mkCursorView (entries_between m readopts) None;
  seek_to_first K V c := view_seek 0 c;
  seek_to_last K V c := view_seek (pred (length (cv_entries c))) c;
  raw_next K V c := view_next c;
  raw_prev K V c := view_prev c;
  raw_entry K V c := view_entry c;
}.

#[export] Program Instance list_db_spec : RocksDBSpec CursorView := {| cursor_view K V c := c |}.
Solve Obligations with done.

(** ** The stores *)

Definition wire_bounds (b : VerifiedBlock) : bool :=
  (vb_round b <=? U32_MAX) && (vb_author b <=? U32_MAX) && (digest b <=? DIGEST_MAX) &&
  forallb (λ vote, (cr_index vote <=? U32_MAX) && (cr_digest vote <=? DIGEST_MAX)) (vb_commit_votes b).

Lemma wire_blocks_check `{BcsParser} (bs : list VerifiedBlock) :
  (λ b, parse_signed_block (serialized b)) <$> bs = (λ b, RustOk (block b)) <$> bs →
  digest <$> bs = (λ b, blake2b256 (serialized b)) <$> bs → forallb wire_bounds bs = true →
  Forall wire_block bs.
Proof.
  intros Hp%Forall_fmap_ext Hd%Forall_fmap_ext Hb. apply Forall_forall. intros b Hin.
  rewrite Forall_forall in Hp, Hd. rewrite forallb_forall in Hb.
  specialize (Hb b (proj1 (list_elem_of_In _ _) Hin)). unfold wire_bounds in Hb.
  rewrite !andb_true_iff, !N.leb_le in Hb. destruct Hb as [[[H1 H2] H3] Hv].
  split; [by apply Hp|]. split; [by apply Hd|]. split; [split; [exact H1|split; [exact H2|exact H3]]|].
  apply Forall_forall. intros v Hin'%list_elem_of_In. rewrite forallb_forall in Hv.
  specialize (Hv v Hin'). rewrite andb_true_iff, !N.leb_le in Hv. exact Hv.
Qed.

Lemma sync_batch_wire : wire_batch sync_batch.
Proof.
  split; [|split; [|apply Forall_nil; exact I]].
  - apply wire_blocks_check; vm_compute; reflexivity.
  - repeat (apply Forall_cons; split; [split; [vm_compute; reflexivity|split; [vm_compute; reflexivity|split; vm_compute; discriminate]]|]).
    apply Forall_nil. exact I.
Qed.

Lemma rocksdb_equivalent_witness :
  ∃ m r, writes mem_write mem_store_new [sync_batch] = RustOk m ∧ writes rocks_write rocks_new [sync_batch] = RustOk r ∧
    rocks_read_blocks r (reference <$> sync_votes) = Ok (mem_read_blocks m (reference <$> sync_votes)) ∧
    rocks_scan_commits r (mkCommitRange 1 3) = mem_scan_commits m (mkCommitRange 1 3) ∧
    Ok (rocks_read_commit_votes r 2) = mem_read_commit_votes m 2.
Proof.
  destruct (rocksdb_equivalent [sync_batch]) as (m & r & Hm & Hr & Hread & _ & _ & _ & _ & _ & Hscan & Hvotes & _).
  - apply Forall_cons. split; [exact sync_batch_wire|apply Forall_nil; done].
  - exists m, r. split_and!; [exact Hm|exact Hr|apply Hread|apply Hscan; vm_compute; discriminate|apply Hvotes; vm_compute; discriminate].
Defined.

(** ** An author with five blocks *)

Definition five_blocks : list VerifiedBlock := (λ r, test_block r 0 (r * 1000) []) <$> [1; 2; 3; 4; 5].

Definition five_parser : BcsParser := {|
  parse_signed_block s :=
    match head (filter (λ b, serialized b = s) five_blocks) with
    | Some b => RustOk (block b)
    | None => RustErr "unexpected end of input"
    end;
  parse_commit s := RustErr "unexpected end of input";
|}.

Definition five_store : MemStore := foldl mem_write_block mem_store_new five_blocks.

Lemma five_store_wire : @wire_store _ five_parser five_store.
Proof.
  apply (wire_store_writes (H0 := five_parser) [mkWriteBatch five_blocks [] []] mem_store_new).
  - apply wire_store_new.
  - apply Forall_cons. split; [|apply Forall_nil; exact I].
    split; [apply wire_blocks_check; vm_compute; reflexivity|split; apply Forall_nil; exact I].
  - reflexivity.
Qed.

Lemma scan_last_blocks_by_author_result_witness :
  mem_scan_last_blocks_by_author five_store 0 4 None = Ok (RustOk (drop 1 five_blocks)) ∧
  mem_scan_last_blocks_by_author five_store 0 5 None = Ok (RustOk (take 1 five_blocks)).
Proof.
  destruct (scan_last_blocks_by_author_result (H0 := five_parser) five_store 0 None five_blocks) as [H4 H5].
  - exact five_store_wire.
  - vm_compute. discriminate.
  - vm_compute. reflexivity.
  - assert (Hf : filter (λ b, vb_round b ≤ default U32_MAX None) five_blocks = five_blocks) by (vm_compute; reflexivity).
    rewrite Hf in H4, H5. split; [apply (H4 4)|apply H5]; vm_compute; [discriminate|repeat constructor].
Defined.
