(* ===== verification/SyncCounterexamples.v ===== *)
(** The network components where they end otherwise than they should: an honest answer to a
    request for commits that the client rejects, and a panic of the synchronizer in a small
    committee. *)

From Stdlib Require Import Strings.Byte.
From stdpp Require Import base strings numbers sorting gmap sets relations list.
From S2P Require Import Prelude Committee Block Dag StakeAggregator Commit BlockVerifier Store DagState CoreThread CommitVotes AuthorityService AuthorityServiceFacts Synchronizer SynchronizerFacts Fixtures Counterexamples Checks SyncWitnesses.

Open Scope N_scope.

(** ** Votes for another commit of the same index *)

(** A commit with the index of the second one that no honest validator has made, and a block of
    authority 2 that votes for it. *)
Definition other_commit : TrustedCommit := sync_commit 2 (tc_digest sync_commit1) (sync_block 3).

Definition false_vote : VerifiedBlock :=
  let b := V1 (mkBlockV1 0 2 2 2010 (own_first 2 (reference <$> sync_round1)) [] [commit_reference other_commit] []) in
  match signed_block_new b (toy_sign (le_bytes 1 2)) with
  | RustOk sb => new_verified sb (block_bytes b ++ signature sb)
  | RustErr _ => new_verified (signed_block_new_genesis b) []
  end.

(** Authorities 0 and 1 have voted for the commits, and authority 2 for the other one; all blocks
    pass verification. *)
Definition split_votes : list VerifiedBlock := [vote_block 0; vote_block 1; false_vote].

#[local] Instance split_parser : BcsParser := {
  parse_signed_block s :=
    match head (filter (λ b, serialized b = s) (sync_round1 ++ split_votes)) with
    | Some b => RustOk (block b)
    | None => RustErr "unexpected end of input"
    end;
  parse_commit := @parse_commit known_parser;
}.

(** A validator that has made the two commits and stored the blocks. *)
Definition split_store : MemStore :=
  match store_write mem_store_new (mkWriteBatch (sync_round1 ++ split_votes) sync_commits []) with
  | RustOk s => s
  | RustErr _ => mem_store_new
  end.

Definition answer_of (r : outcome (ConsensusResult (list TrustedCommit * list VerifiedBlock))) : list TrustedCommit * list VerifiedBlock :=
  match r with Ok (RustOk answer) => answer | _ => ([], []) end.

(** An honest validator can serve commits that the client rejects, as [served_commits_accepted]
    says: with one vote for another commit of the same index among a quorum of verified blocks,
    the two commits are served as certified, and the client counts only half of the stake. *)
Example split_votes_rejected :
  (mapM (λ b, verify sync_verifier (block b)) split_votes = Ok [RustOk (); RustOk (); RustOk ()]) ∧
  ∃ certifier_blocks, handle_fetch_commits sync_context sync_params split_store 1 2 = Ok (RustOk (sync_commits, certifier_blocks)) ∧
    verify_commits sync_context sync_verifier 0 1 2 (tc_serialized <$> sync_commits) (serialized <$> certifier_blocks) =
      Ok (RustErr (NotEnoughCommitVotes 5000 0 (tc_inner sync_commit2))).
Proof.
  split; [vm_compute; reflexivity|].
  exists (answer_of (handle_fetch_commits sync_context sync_params split_store 1 2)).2.
  split; vm_compute; reflexivity.
Qed.

(** ** Fewer peers than requests *)

Definition small_context : Context :=
  mkContext 0 (mkCommittee 0 7500 5001 2500 (test_authority <$> [0; 1; 2])) 500 50 false 20.

Definition small_state : DagState MemStore :=
  value_or (mkDagState small_context ∅ ∅ [] 0 None [] [] [] [] [] [] mem_store_new 0) (dag_state_new small_context mem_store_new).

(** One block per request. *)
Definition small_params : Parameters := mkParameters 250 50 500 1 20 100 200.

Definition small_synchronizer : Synchronizer RecordingDispatcher :=
  synchronizer_start small_context (mkRecordingDispatcher [] (λ _, RustOk ∅)) 0.

Definition small_rounds : list Round := value_or [] (get_highest_accepted_rounds small_context small_state).

(** In a committee of three, with three blocks missing, the synchronizer panics. *)
Lemma peers_for_missing_blocks_witness :
  request_missing_blocks small_context small_params small_state id (list_to_set (reference <$> take 3 sync_round1))
    small_synchronizer = Panic "Possible misconfiguration as a peer should be found".
Proof.
  apply (peers_for_missing_blocks small_context small_params small_state id (list_to_set (reference <$> take 3 sync_round1))
    small_synchronizer [] small_rounds).
  - vm_compute. reflexivity.
  - vm_compute. reflexivity.
  - exact locks_ok_empty.
  - vm_compute. reflexivity.
  - reflexivity.
  - vm_compute. reflexivity.
Defined.
